(* ===== verification/_CoqProject ===== *)
-Q . S2P
Prelude.v
Util.v
Ring.v
NodeInfo.v
Message.v
Peer.v
Connection.v
Api.v
Tests.v
Topology.v
Lookup.v
Network.v
Dht.v
Lifecycle.v
Cleaner.v
Invariant.v
PoW.v
Maintenance.v
Growth.v
Failure.v
Robust.v
Loose.v
Converge.v
Linked.v
Interleave.v
Settle.v
Storage.v
Service.v
Heal.v
Survive.v
Grown.v
Logging.v
Regex.v
Config.v
Rpc.v
Examples.v
Drivers.v
Entry.v
Shell.v
Program.v
Scenario.v
