(* ===== verification/Prelude.v ===== *)
(** * Chord++: a verified model of the ChordPlusPlus DHT

    ChordPlusPlus is a distributed hash table in C++. Nodes form a Chord ring:
    a node's identifier is the SHA-256 of its address, the member responsible
    for an identifier is the first one met clockwise from it, and every node
    keeps a predecessor and a finger table of 256 entries. Applications talk to
    a node over TCP (PUT and GET messages), nodes talk to each other over
    Cap'n Proto. This library models the code of src/ as executable
    definitions and proves what makes it correct.

    ** Files, in dependency order

    - Prelude: outcomes (return, exception, undefined behaviour, out of fuel),
      the state monad of the stateful components, promise chains, fixed-width
      integers, byte sequences and their big- and little-endian values, strings;
      the judgements [keeps] and [ends] on computations with their tactics.
    - Util (src/util): byte swaps, the interval test, array arithmetic, dumps.
    - Ring: the identifier circle; the interval test and the array arithmetic
      of the code implement its clockwise intervals and its addition.
    - NodeInfo (src/dht/NodeInformation): a node's state and its operations.
    - Message (src/api/message_data, request): the wire formats of the API.
    - Peer (src/dht/Peer, schemas/peer.capnp): the server and client methods of
      the overlay over an environment [PeerEnv] (own state, statics, clock,
      remote calls), among them the two lookup methods.
    - Connection (src/api/connection): one API client as a state machine.
    - Api (src/api/api): the registration of typed handlers, the acceptor, the
      list of clients and the service thread they share.
    - Tests (test/): the repository's test programs, run on the definitions.
    - Topology: rings of addresses, the abstract specification of a network.
    - Lookup: the interface [RingEnv] a lookup relies on, and its correctness.
    - Network: worlds of nodes that call each other; an ideal ring implements
      [RingEnv].
    - Dht (src/dht/Dht): API handlers, replication, join, stabilisation, finger
      repair, check of the predecessor, a turn of the main loop.
    - Lifecycle (src/dht/Dht: constructor, [runServer], the loop of [mainLoop],
      destructor): the threads of a node and the members they share.
    - Cleaner (src/dht/NodeInformation: constructor, destructor): the thread that
      removes expired items, its wait, and its end.
    - Invariant: the type invariant of all reachable networks, by a judgement
      proved against the interface [SafeEnv] that worlds implement.
    - PoW: the proof of work of a join, both sides.
    - Maintenance, Growth, Failure, Storage: theorems on running networks.
    - Robust: the interface [FaultyEnv] of a ring with dead fingers, which
      worlds implement, and lookups in it.
    - Loose: the interface [LooseEnv] of a network whose nodes know some
      successor and any fingers: lookups in it end. Linked: networks whose nodes
      have given links offer it, and a repair of a finger changes no link.
    - Converge: stabilisation as an abstract protocol on links, with the measure
      under which it converges; Interleave: [Dht::stabilize] cut at its remote
      calls, interleaved between nodes with [checkPredecessor] and
      [fixFingers], implements it; Settle: the ring that results stays, and its
      fingers are completed.
    - Service: [Dht::setApi] and the whole path of a request, from the bytes of
      a client through connection, handler and network to the answer; the
      specification it refines is one map.
    - Heal: the repair of a ring after a crash; Survive: the data after it;
      Grown: the data after a join.
    - Logging (src/dht-4.cpp, src/logging): the logger and the log macros.
    - Regex: regular expressions as the code uses them, matched by derivatives.
    - Config (src/config, src/dht-4.cpp): addresses, the configuration file and
      its combination with the command line.
    - Rpc (src/rpc): the thread-local context ([Context]), the choice of the
      stream factory, the client's setup ([Client]), the server's task set
      ([Server]) and its exported capabilities ([Exporting]).
    - Examples (src/api/main.cpp, src/rpc/main.cpp), Drivers (src/api/main.cpp,
      src/config/main.cpp, src/dht/main.cpp): the example programs.
    - Entry (src/entry): the constructor that starts the nodes, the commands,
      the script stack and the main loop of the shell; Shell: its theorems;
      Program (src/dht-4.cpp): [main].
    - Scenario: a concrete network to which the theorems are applied.

    ** How the code is modelled

    - A method of a stateful class is a function on a record with the class's
      members, or a computation [M W A] that threads a state [W]; names follow
      the source ([srv_] prefixes a server method, [peer_] a client method of
      [PeerImpl], [dht_] a method of [Dht] whose name [PeerImpl] also has).
    - Exceptions, undefined behaviour and exhausted fuel are values of
      [outcome]. A [.then(f, h)] chain is [promise_then]: the error
      continuation catches exceptions of the request, not of [f].
    - Integers are [Z] with the wrap-around of their C++ type written out;
      byte arrays are lists of [Z]; maps are [gmap]s, traversed in key order
      where the order matters.
    - SHA-256 and SHA-1 (OpenSSL) are the parameters [HashFns]; [HashOk] states
      their digest lengths. What KJ does on a failed assertion ([kj_throws])
      and on a wait inside a continuation ([nested_wait]) are parameters; KJ
      documents that it refuses such a wait, so theorems about joins say what
      happens if it is carried out and if it is refused ([kj_wait]).
    - A remote call runs the callee's method to its end before the caller goes
      on; an address without a node refuses the connection. Operations of
      different nodes interleave as whole operations ([happens]); for
      convergence [stabilize] is cut at its remote calls, and other nodes'
      [stabilize], [checkPredecessor] and [fixFingers] run in between
      ([net_step]).
    - asio, KJ and OpenSSL are sources of events: a completed read, an accepted
      socket, a promise that is resolved or broken. The state machines of
      Connection, Api and Rpc say what the code does on each; an event that
      blocks its thread for ever is [NoFuel] there. One call of [write_some]
      takes as many bytes of an answer as there is room for.
    - Threads of one node interleave step by step in Lifecycle, where a step is
      one use of a shared member and an operation of the main loop ends, throws
      or goes on; what an operation does to the node's state is in Dht, as a
      whole operation. The data cleaner's thread is in Cleaner, entry
      by entry, with the clock, wake-ups without a reason and the operations of
      other threads between its steps.
    - Of the shell, the file system ([open_file]), binding a port
      ([bind_error]), whether the destructor of a [Dht] returns ([stops]) and
      the text layout of fmt ([FmtFns]) are parameters, of [main] also opening
      the log file ([log_error]); single precision is SpecFloat's; what
      the INI library extracts from a file is the record [Ini], what cxxopts
      does from the command line [CommandLine], and spdlog's test of a
      message's level the class [Spdlog].

    ** Fuel

    Loops whose bound is not structural take fuel, and theorems about results
    state how much is enough: in a ring of [n] members, [n + 2] for the loops of
    a lookup and [n + 2] for the nesting of calls ([lookup_correct] and all
    that builds on it), [n + 3 * d + 2] with [d] dead nodes in the fingers,
    [3 * n + 2] for a lookup in a network of [n] living and dead nodes with
    whatever links; 256 for the loop over replicas, whose bound is a [uint8_t]; 5 for the
    nesting of [Entry::execute]; [k + 1] digests for a puzzle whose first
    solution is [k]. That a loop does not end is stated as [NoFuel] for every
    fuel; that the shell ends is proved with the measure [turns_left], that a
    node's destructor returns with the measure [work], that the cleaner removes
    an item and ends with ranks that its turns use up. Stabilisation of [n]
    nodes has converged after more than [2 * n^2] rounds in which every node
    takes five turns: two finish what it was doing, three are a stabilisation,
    and each round lowers the measure of Converge.v, which is at most [2 * n^2].

    ** What is shown

    - Identifier arithmetic and the interval test are exact (Ring, Util).
    - Wire formats round trip; which buffers parse, throw or are misread
      (Message); a client's stream is cut at the message boundaries and answers
      come back in order; what broken clients cause (Connection); every request
      reaches a handler of its own message class, clients are always admitted
      and never released, and one handler that throws stops the API (Api).
    - In a ring, lookups find the responsible member from anywhere (Network); a
      PUT is found by a GET from anywhere, copies stay within the limit
      (Storage); the main loop keeps the ring and repairs the fingers
      (Maintenance); a join hands over exactly the new member's items, or none if
      its inner wait is refused, and after two stabilisations the ring has one
      more member (Growth); the proof of work is a bound on the digest and the server checks it (PoW).
    - Under every fair interleaving maintenance makes a ring of any links that
      pass over no anchor, and so of any number of nodes that joined before; the
      ring stays, and fingers are right once they are repaired (Settle); after a
      crash less than half the circle from its predecessor a given order of
      repairs makes the ring of the survivors (Heal). Wherever survivors form a
      ring again, GETs find the survivors' items and the first copies of the lost
      ones (Survive). After a join GETs find all items, at the new member too
      (Grown); two joins before a stabilisation can put an item out of reach
      (Scenario).
    - All of it together: clients at any members of a ring see one map, whatever
      replications and main loops run in between (Service).
    - The threads of a node use only initialised members if the constructor ends
      first; the destructor returns unless the server has failed, an exception
      has left the main loop or an operation goes on for ever, in which cases the
      node hangs (Lifecycle). Expired items go, a pass of the cleaner is
      one step for the others, and the destructor of a node's state returns, at
      the latest after its 30 seconds, since a notification can be lost
      (Cleaner). An RPC server always accepts the next
      client, calls of a client wait for its setup, a thread has one context,
      and one failed TLS handshake ends a server (Rpc).
    - The shell's nodes and scripts stay consistent, its loop ends, which of its
      commands are undefined, how lines are cut, and what its listings and
      [remove] mean (Shell); which addresses a configuration accepts (Config);
      from the command line on, the configured nodes start, and [main] returns
      and leaves none if their destructors return (Program); which messages reach the console and the log file
      (Logging); the example programs end, and the repository's tests pass on the
      model (Examples, Drivers, Tests).
    - Outside a ring: node states stay well-formed under arbitrary requests
      (Invariant); dead neighbours are dropped; one dishonest peer can block a
      lookup, and a dead finger in front of the successor misleads it (Failure);
      lookups survive dead fingers behind the successor (Robust).

    ** What is not modelled

    The lengths of sleeps other than the cleaner's; prompts and colours of the
    shell; the compile-time traits of src/util; spdlog's queue; moves of a
    [Request]; the contents of TLS and of Cap'n Proto messages. The rest of src/
    that no definition maps to are declarations, includes and accessors.

    Not shown: convergence while nodes join (a lookup in an unfinished network
    may give a joining node a successor that passes over others, so the joins of
    [joins_converge] come first), recovery from several crashes at once, from a
    crash in any order of repairs, and of members that lost all their fingers,
    who know nobody any more. *)

From stdpp Require Export base tactics option list numbers strings gmap sorting pretty.
From Stdlib Require Export Ascii ZArith Lia HexadecimalString.

#[global] Open Scope Z_scope.

(** * Outcomes

    A C++ call either returns, throws, runs into undefined behaviour, or has
    not finished within the fuel the model gives it. [UB] is a value of the
    model, not an absence of behaviour: the theorems that exclude it are
    memory-safety theorems, and the ones that exhibit it name a concrete
    input on which the C++ is undefined. *)

Inductive outcome (A : Type) : Type :=
| Ok (a : A)
| Exn (what : string)
| UB (why : string)
| NoFuel.

Arguments Ok {A} a.
Arguments Exn {A} what.
Arguments UB {A} why.
Arguments NoFuel {A}.

Definition is_Ok {A} (o : outcome A) : bool := match o with Ok _ => true | _ => false end.

Definition is_Exn {A} (o : outcome A) : bool := match o with Exn _ => true | _ => false end.

Definition is_UB {A} (o : outcome A) : bool := match o with UB _ => true | _ => false end.

#[export] Instance outcome_eq_dec {A} `{EqDecision A} : EqDecision (outcome A).
Proof. solve_decision. Defined.

#[export] Instance Ok_inj {A} : Inj (=) (=) (@Ok A).
Proof. by intros x y [= ->]. Qed.

#[export] Instance outcome_ret : MRet outcome := λ A a, Ok a.

#[export] Instance outcome_bind : MBind outcome := λ A B k m,
  match m with
  | Ok a => k a
  | Exn e => Exn e
  | UB e => UB e
  | NoFuel => NoFuel
  end.

(** * The state monad of the stateful components

    [M S A] is a computation over a state [S]: it threads the state through
    and ends in an outcome. A thrown exception keeps the state reached at the
    throw, as in C++. *)

Definition M (S A : Type) : Type := S → outcome A * S.

#[export] Instance M_ret {S} : MRet (M S) := λ A a s, (Ok a, s).

#[export] Instance M_bind {S} : MBind (M S) := λ A B k m s,
  match m s with
  | (Ok a, s') => k a s'
  | (Exn e, s') => (Exn e, s')
  | (UB e, s') => (UB e, s')
  | (NoFuel, s') => (NoFuel, s')
  end.

(** Lift an outcome that does not touch the state. *)
Definition lift {S A} (o : outcome A) : M S A := λ s, (o, s).

Definition throw {S A} (what : string) : M S A := lift (Exn what).

Definition undefined {S A} (why : string) : M S A := lift (UB why).

Definition out_of_fuel {S A} : M S A := lift NoFuel.

Definition get_state {S} : M S S := λ s, (Ok s, s).

Definition modify {S} (f : S → S) : M S unit := λ s, (Ok tt, f s).

(** [promise_then m f h] is [Promise::then(f, h)]: the continuation [f] on a
    result, the error continuation [h] on an exception of [m] (not of [f]);
    undefined behaviour is not caught. *)
Definition promise_then {S A B} (m : M S A) (f : A → M S B) (h : string → M S B) : M S B := λ s,
  match m s with
  | (Ok a, s') => f a s'
  | (Exn e, s') => h e s'
  | (UB e, s') => (UB e, s')
  | (NoFuel, s') => (NoFuel, s')
  end.

Section MonadLemmas.
Context {S A B : Type}.
Implicit Types (m : M S A) (k : A → M S B) (s : S).

Lemma bind_Ok m k s s' a : m s = (Ok a, s') → (m ≫= k) s = k a s'.
Proof. intros H. unfold mbind, M_bind. by rewrite H. Qed.

Lemma bind_Exn m k s s' e : m s = (Exn e, s') → (m ≫= k) s = (Exn e, s').
Proof. intros H. unfold mbind, M_bind. by rewrite H. Qed.

Lemma bind_UB m k s s' e : m s = (UB e, s') → (m ≫= k) s = (UB e, s').
Proof. intros H. unfold mbind, M_bind. by rewrite H. Qed.

Lemma bind_NoFuel m k s s' : m s = (NoFuel, s') → (m ≫= k) s = (NoFuel, s').
Proof. intros H. unfold mbind, M_bind. by rewrite H. Qed.

Lemma bind_ret (a : A) k s : (mret a ≫= k) s = k a s.
Proof. done. Qed.

Lemma bind_lift_Ok (a : A) k s : (lift (Ok a) ≫= k) s = k a s.
Proof. done. Qed.

Lemma bind_inv_Ok m k s s' b :
  (m ≫= k) s = (Ok b, s') → ∃ a s1, m s = (Ok a, s1) ∧ k a s1 = (Ok b, s').
Proof.
  unfold mbind, M_bind. destruct (m s) as [[a|e|e|] s1] eqn:E; intros H; [|congruence..].
  by exists a, s1.
Qed.

Lemma then_Ok m (k : A → M S B) h s s' a : m s = (Ok a, s') → promise_then m k h s = k a s'.
Proof. intros H. unfold promise_then. by rewrite H. Qed.

Lemma then_Exn m (k : A → M S B) h s s' e : m s = (Exn e, s') → promise_then m k h s = h e s'.
Proof. intros H. unfold promise_then. by rewrite H. Qed.

End MonadLemmas.

(** * Computations that respect a preorder on states *)

Section Keeps.
Context {S : Type} (R : S → S → Prop) `{!PreOrder R}.

Definition keeps {A} (m : M S A) : Prop := ∀ s, R s (m s).2.

Lemma keeps_lift {A} (o : outcome A) : keeps (lift o).
Proof. intros s. cbn. reflexivity. Qed.

Lemma keeps_ret {A} (a : A) : keeps (mret a).
Proof. intros s. cbn. reflexivity. Qed.

Lemma keeps_get {B} (k : S → M S B) : (∀ s, R s (k s s).2) → keeps (get_state ≫= k).
Proof. intros Hk s. apply Hk. Qed.

Lemma keeps_get_all {B} (k : S → M S B) : (∀ s, keeps (k s)) → keeps (get_state ≫= k).
Proof. intros Hk. apply keeps_get. intros s. apply Hk. Qed.

Lemma keeps_modify f : (∀ s, R s (f s)) → keeps (modify f).
Proof. intros Hf s. apply Hf. Qed.

Lemma keeps_bind_at {A B} (m : M S A) (k : A → M S B) s :
  R s (m s).2 → (∀ a, keeps (k a)) → R s ((m ≫= k) s).2.
Proof.
  intros Hm Hk. unfold mbind, M_bind.
  destruct (m s) as [[a|?|?|] s']; cbn in *; [|done..]. etrans; [exact Hm|apply Hk].
Qed.

Lemma keeps_bind {A B} (m : M S A) (k : A → M S B) : keeps m → (∀ a, keeps (k a)) → keeps (m ≫= k).
Proof. intros Hm Hk s. by apply keeps_bind_at. Qed.

Lemma keeps_then {A B} (m : M S A) (k : A → M S B) h :
  keeps m → (∀ a, keeps (k a)) → (∀ e, keeps (h e)) → keeps (promise_then m k h).
Proof.
  intros Hm Hk Hh s. specialize (Hm s). unfold promise_then.
  destruct (m s) as [[a|?|?|] s']; cbn in *; [| |done..]; etrans; [exact Hm|apply Hk|exact Hm|apply Hh].
Qed.

End Keeps.

Create HintDb keeps.

Lemma bind_get {S B} (k : S → M S B) s : (get_state ≫= k) s = k s s.
Proof. done. Qed.

Lemma bind_modify {S B} f (k : unit → M S B) (s : S) : (modify f ≫= k) s = k tt (f s).
Proof. done. Qed.

(** * Computations that end *)

Section Ends.
Context {S : Type}.

Definition ends {A} (m : M S A) : Prop := ∀ s, (m s).1 ≠ NoFuel.

Lemma ends_lift {A} (o : outcome A) : o ≠ NoFuel → ends (lift o).
Proof. by intros Ho s. Qed.

Lemma ends_ret {A} (a : A) : ends (mret a).
Proof. by intros s. Qed.

Lemma ends_get : ends get_state.
Proof. by intros s. Qed.

Lemma ends_modify f : ends (modify f).
Proof. by intros s. Qed.

Lemma ends_bind {A B} (m : M S A) (k : A → M S B) : ends m → (∀ a, ends (k a)) → ends (m ≫= k).
Proof.
  intros Hm Hk s. specialize (Hm s). unfold mbind, M_bind.
  destruct (m s) as [[a|?|?|] s']; [apply Hk|done..].
Qed.

Lemma ends_then {A B} (m : M S A) (k : A → M S B) h :
  ends m → (∀ a, ends (k a)) → (∀ e, ends (h e)) → ends (promise_then m k h).
Proof.
  intros Hm Hk Hh s. specialize (Hm s). unfold promise_then.
  destruct (m s) as [[a|?|?|] s']; [apply Hk|apply Hh|done..].
Qed.

End Ends.

Create HintDb ends.

#[export] Hint Resolve ends_ret ends_get ends_modify : ends.

(** Follow the structure of a computation. *)
Ltac end_ :=
  repeat first
    [ solve [auto with ends]
    | lazymatch goal with
      | |- ends (lift _) => apply ends_lift
      | |- ends (throw _) => by apply ends_lift
      | |- ends (undefined _) => by apply ends_lift
      | |- ∀ _, ends _ => intro
      end
    | progress cbv zeta
    | lazymatch goal with
      | |- ends (_ ≫= _) => apply ends_bind
      | |- ends (promise_then _ _ _) => apply ends_then
      | |- ends (match ?x with _ => _ end) => destruct x
      end ].

(** The same for [keeps]. *)
Ltac keep :=
  repeat first
    [ lazymatch goal with
      | |- keeps _ (mret _) => apply keeps_ret; typeclasses eauto
      | |- keeps _ (lift _) => apply keeps_lift; typeclasses eauto
      | |- keeps _ (throw _) => apply keeps_lift; typeclasses eauto
      | |- keeps _ (undefined _) => apply keeps_lift; typeclasses eauto
      | |- ∀ _, keeps _ _ => intro
      end
    | solve [eauto 4 with keeps]
    | progress cbv zeta
    | lazymatch goal with
      | |- keeps _ (get_state ≫= _) => apply keeps_get_all
      | |- keeps _ (_ ≫= _) => apply keeps_bind; [typeclasses eauto| |]
      | |- keeps _ (promise_then _ _ _) => apply keeps_then; [typeclasses eauto| | |]
      | |- keeps _ (match ?x with _ => _ end) => destruct x
      end ].

(** * Fixed-width unsigned integers

    A [w]-bit unsigned value is a [Z] in [0, 2^w); [wrap w] is the conversion
    to that type. *)

Definition wrap (w z : Z) : Z := z `mod` 2 ^ w.

Definition u8 (z : Z) : Z := wrap 8 z.

Definition u16 (z : Z) : Z := wrap 16 z.

Definition u32 (z : Z) : Z := wrap 32 z.

Definition u64 (z : Z) : Z := wrap 64 z.

(** Conversion of a 64-bit unsigned value to [int64_t] (two's complement). *)
Definition s64 (z : Z) : Z := if u64 z <? 2 ^ 63 then u64 z else u64 z - 2 ^ 64.

Lemma wrap_range w z : 0 <= w → 0 <= wrap w z < 2 ^ w.
Proof. intros. unfold wrap. apply Z.mod_pos_bound. lia. Qed.

Lemma wrap_small w z : 0 <= z < 2 ^ w → wrap w z = z.
Proof. apply Z.mod_small. Qed.

(** * Byte sequences *)

Definition byte_ok (b : Z) : Prop := 0 <= b < 256.

Definition bytes_ok (l : list Z) : Prop := Forall byte_ok l.

#[export] Instance byte_ok_dec b : Decision (byte_ok b) := _.

#[export] Instance bytes_ok_dec l : Decision (bytes_ok l) := _.

(** The value of a byte sequence, most significant byte first. *)
Definition be_num (l : list Z) : Z := fold_left (λ acc b, acc * 256 + b) l 0.

(** The value of a byte sequence, least significant byte first. *)
Fixpoint le_num (l : list Z) : Z :=
  match l with
  | [] => 0
  | b :: l => b + 256 * le_num l
  end.

(** The [n] bytes of a value in memory order on a little-endian host. *)
Fixpoint le_bytes (n : nat) (z : Z) : list Z :=
  match n with
  | O => []
  | S n => z `mod` 256 :: le_bytes n (z `div` 256)
  end.

Lemma le_num_range l : bytes_ok l → 0 <= le_num l < 256 ^ Z.of_nat (length l).
Proof.
  induction 1 as [|b l Hb Hl IH]; cbn [le_num length]; [done|].
  unfold byte_ok in Hb. rewrite Nat2Z.inj_succ, Z.pow_succ_r by lia. lia.
Qed.

Lemma le_num_app l1 l2 :
  le_num (l1 ++ l2) = le_num l1 + 256 ^ Z.of_nat (length l1) * le_num l2.
Proof.
  induction l1 as [|b l1 IH]; cbn [le_num length app]; [lia|].
  rewrite IH, Nat2Z.inj_succ, Z.pow_succ_r by lia. lia.
Qed.

Lemma be_num_acc l acc :
  fold_left (λ acc b, acc * 256 + b) l acc
  = acc * 256 ^ Z.of_nat (length l) + le_num (reverse l).
Proof.
  revert acc. induction l as [|b l IH]; intros acc; cbn [fold_left length].
  { cbn. lia. }
  rewrite IH, reverse_cons, le_num_app, length_reverse, Nat2Z.inj_succ, Z.pow_succ_r by lia.
  cbn [le_num]. lia.
Qed.

Lemma be_num_le l : be_num l = le_num (reverse l).
Proof. unfold be_num. rewrite be_num_acc. lia. Qed.

Lemma bytes_ok_reverse l : bytes_ok l → bytes_ok (reverse l).
Proof. unfold bytes_ok. by rewrite Forall_reverse. Qed.

Lemma be_num_range l : bytes_ok l → 0 <= be_num l < 256 ^ Z.of_nat (length l).
Proof.
  intros H. rewrite be_num_le, <- (length_reverse l).
  by apply le_num_range, bytes_ok_reverse.
Qed.

Lemma be_num_cons b l :
  be_num (b :: l) = b * 256 ^ Z.of_nat (length l) + be_num l.
Proof. rewrite !be_num_le, reverse_cons, le_num_app, length_reverse. cbn [le_num]. lia. Qed.

Lemma length_le_bytes n z : length (le_bytes n z) = n.
Proof. revert z. induction n; intros; cbn; auto. Qed.

Lemma le_bytes_ok n z : bytes_ok (le_bytes n z).
Proof.
  revert z. induction n as [|n IH]; intros z; cbn; constructor; [|apply IH].
  unfold byte_ok. apply Z.mod_pos_bound. lia.
Qed.

Lemma le_num_le_bytes n z : le_num (le_bytes n z) = z `mod` 256 ^ Z.of_nat n.
Proof.
  revert z. induction n as [|n IH]; intros z; cbn [le_bytes le_num].
  { by rewrite Z.mod_1_r. }
  rewrite IH, Nat2Z.inj_succ, Z.pow_succ_r by lia.
  rewrite Z.rem_mul_r by lia. lia.
Qed.

Lemma le_bytes_le_num l : bytes_ok l → le_bytes (length l) (le_num l) = l.
Proof.
  induction 1 as [|b l Hb Hl IH]; cbn [length le_num le_bytes]; [done|].
  unfold byte_ok in Hb. f_equal.
  - rewrite (Z.mul_comm 256), Z.mod_add by lia. by apply Z.mod_small.
  - rewrite (Z.mul_comm 256), Z.div_add by lia. rewrite Z.div_small by lia. by rewrite Z.add_0_l.
Qed.

Lemma le_num_inj l1 l2 :
  bytes_ok l1 → bytes_ok l2 → length l1 = length l2 → le_num l1 = le_num l2 → l1 = l2.
Proof.
  intros H1 H2 Hl Hn. rewrite <- (le_bytes_le_num l1), <- (le_bytes_le_num l2) by done.
  by rewrite Hl, Hn.
Qed.

Lemma be_num_inj l1 l2 :
  bytes_ok l1 → bytes_ok l2 → length l1 = length l2 → be_num l1 = be_num l2 → l1 = l2.
Proof.
  intros H1 H2 Hl. rewrite !be_num_le. intros Hn. apply (inj reverse).
  apply le_num_inj; rewrite ?length_reverse; auto using bytes_ok_reverse.
Qed.

(** * Strings as byte sequences

    [std::string] objects are byte strings; the hash functions read them
    through their bytes. *)

Definition byte_of_ascii (c : Ascii.ascii) : Z := Z.of_N (Ascii.N_of_ascii c).

Definition bytes_of_string (s : string) : list Z :=
  byte_of_ascii <$> String.list_ascii_of_string s.

(** [std::to_string] of an integer. *)
Definition to_string (z : Z) : string := pretty z.

(** [std::string(n, c)]. *)
Definition string_repeat (n : nat) (c : Ascii.ascii) : string :=
  String.string_of_list_ascii (replicate n c).

(** [std::string::substr(0, n)]: the first [n] characters, fewer at the end. *)
Definition string_prefix (n : nat) (s : string) : string :=
  String.string_of_list_ascii (take n (String.list_ascii_of_string s)).

Lemma bytes_of_string_ok s : bytes_ok (bytes_of_string s).
Proof.
  unfold bytes_ok, bytes_of_string. rewrite Forall_fmap. apply Forall_true.
  intros c. unfold byte_ok, byte_of_ascii; cbn.
  pose proof (Ascii.N_ascii_bounded c). lia.
Qed.

Lemma list_ascii_app s1 s2 :
  String.list_ascii_of_string (s1 +:+ s2)
  = String.list_ascii_of_string s1 ++ String.list_ascii_of_string s2.
Proof. induction s1 as [|c s1 IH]; cbn; [done|]. by rewrite <- IH. Qed.

Lemma string_app_assoc (s1 s2 s3 : string) : s1 +:+ (s2 +:+ s3) = (s1 +:+ s2) +:+ s3.
Proof. induction s1 as [|c s1 IH]; [done|]. exact (f_equal (String.String c) IH). Qed.

Lemma string_app_nil_r (s : string) : s +:+ "" = s.
Proof. induction s as [|c s IH]; [done|]. exact (f_equal (String.String c) IH). Qed.

Lemma length_list_ascii s : length (String.list_ascii_of_string s) = String.length s.
Proof. induction s; cbn; auto. Qed.

Lemma string_prefix_app s1 s2 : string_prefix (String.length s1) (s1 +:+ s2) = s1.
Proof.
  unfold string_prefix. rewrite list_ascii_app, <- length_list_ascii, take_app_length.
  apply String.string_of_list_ascii_of_string.
Qed.
