(* ===== verification/Util.v ===== *)
(** * util: byte order, ring intervals, big-endian arithmetic, dumps

    Models src/util/util.h and src/util/constants.h of the repository: the
    byte swaps, [convertToBytes], the wrapped interval test
    [is_in_range_loop], [pow2], the array addition [operator+], the string
    helpers and the two dump routines used by the proof of work and by the
    shell.

    The theorems state the arithmetic meaning of each: the swaps reverse the
    bytes of a value, [pow2] and [operator+] are exponentiation and addition
    modulo 2^(8*size) on big-endian arrays, and stripping the white space of
    [bytedump] gives exactly the bits of its input. *)

From S2P Require Import Prelude.

(** ** constants.h *)

Module constants.

Definition DHT_PUT : Z := 650.
Definition DHT_GET : Z := 651.
Definition DHT_SUCCESS : Z := 652.
Definition DHT_FAILURE : Z := 653.
Definition DHT_PUT_KEY_IS_HASH_OF_DATA : Z := 654.
Definition DHT_GET_KEY_IS_HASH_OF_DATA : Z := 655.

End constants.

(** ** Byte swaps *)

Definition swapBytes16 (x : Z) : Z :=
  u16 (Z.lor (Z.shiftl (Z.land 0x00ff x) 8) (Z.shiftr (Z.land 0xff00 x) 8)).

Definition swapBytes32 (x : Z) : Z :=
  Z.lor (Z.lor (Z.lor
    (u32 (Z.shiftl (Z.land 0x000000ff x) 24))
    (u32 (Z.shiftl (Z.land 0x0000ff00 x) 8)))
    (Z.shiftr (Z.land 0x00ff0000 x) 8))
    (Z.shiftr (Z.land 0xff000000 x) 24).

Definition swapBytes64 (x : Z) : Z :=
  Z.lor (Z.lor (Z.lor (Z.lor (Z.lor (Z.lor (Z.lor
    (u64 (Z.shiftl (Z.land 0x00000000000000ff x) 56))
    (u64 (Z.shiftl (Z.land 0x000000000000ff00 x) 40)))
    (u64 (Z.shiftl (Z.land 0x0000000000ff0000 x) 24)))
    (u64 (Z.shiftl (Z.land 0x00000000ff000000 x) 8)))
    (Z.shiftr (Z.land 0x000000ff00000000 x) 8))
    (Z.shiftr (Z.land 0x0000ff0000000000 x) 24))
    (Z.shiftr (Z.land 0x00ff000000000000 x) 40))
    (Z.shiftr (Z.land 0xff00000000000000 x) 56).

(** ** convertToBytes *)

(** [ret] is value-initialised with the requested size (the input's by
    default); the first [min size bytes.size()] elements are converted. *)
Definition convertToBytes (bytes : list Z) (size : option nat) : list Z :=
  let n := default (length bytes) size in
  let src := take (default (length bytes) ((λ k, Nat.min k (length bytes)) <$> size)) bytes in
  (u8 <$> src) ++ replicate (n - length src) 0.

(** ** is_in_range_loop *)

(** The comparison operators of the element type of a range. *)
Class CppOrd (T : Type) := cmp : T → T → comparison.

Section CppOps.
Context `{CppOrd T}.
Implicit Types a b : T.

Definition cpp_lt a b : bool := match cmp a b with Lt => true | _ => false end.
Definition cpp_gt a b : bool := match cmp a b with Gt => true | _ => false end.
Definition cpp_le a b : bool := match cmp a b with Gt => false | _ => true end.
Definition cpp_ge a b : bool := match cmp a b with Lt => false | _ => true end.
Definition cpp_ne a b : bool := match cmp a b with Eq => false | _ => true end.

Definition is_in_range_loop (value min_value max_value : T)
    (include_min include_max : bool) : bool :=
  if cpp_le min_value max_value &&
     (cpp_ne min_value max_value || (include_min && include_max))
  then (if include_min then cpp_ge value min_value else cpp_gt value min_value) &&
       (if include_max then cpp_le value max_value else cpp_lt value max_value)
  else (if include_min then cpp_ge value min_value else cpp_gt value min_value) ||
       (if include_max then cpp_le value max_value else cpp_lt value max_value).

End CppOps.

#[export] Instance Z_ord : CppOrd Z := Z.compare.

(** [std::array] and [std::vector] compare lexicographically. *)
Fixpoint array_compare (a b : list Z) : comparison :=
  match a, b with
  | [], [] => Eq
  | [], _ :: _ => Lt
  | _ :: _, [] => Gt
  | x :: a, y :: b => match Z.compare x y with Eq => array_compare a b | c => c end
  end.

#[export] Instance array_ord : CppOrd (list Z) := array_compare.

(** ** pow2 and operator+ on arrays of [w]-bit elements *)

(** [size - 1 - exp / 8] is a [size_t] expression stored in an [int64_t], and
    [index < size] compares after a conversion to [size_t]. *)
Definition pow2 (w size exp : Z) : list Z :=
  let ret := replicate (Z.to_nat size) 0 in
  let index := s64 (size - 1 - exp `div` 8) in
  if (u64 index <? size) && (0 <=? index)
  then <[Z.to_nat index := wrap w (Z.shiftl 1 (exp `mod` 8))]> ret
  else ret.

(** One iteration of the loop body: the sum of two elements and the carry. *)
Definition add_step (w : Z) (carry : bool) (a b : Z) : Z * bool :=
  let max := wrap w (2 ^ 64 - 1) in
  let sum := if carry then wrap w (0 + 1) else 0 in
  let carry1 := u64 (max - sum) <? a in
  let sum1 := wrap w (sum + a) in
  let carry2 := u64 (max - sum1) <? b in
  let sum2 := wrap w (sum1 + b) in
  (sum2, carry1 || carry2).

(** The loop runs from the last index down to 0; the lists are given in that
    order. *)
Fixpoint add_loop (w : Z) (carry : bool) (a b : list Z) : list Z :=
  match a, b with
  | x :: a, y :: b =>
      let '(sum, carry') := add_step w carry x y in sum :: add_loop w carry' a b
  | _, _ => []
  end.

Definition array_add (w : Z) (a b : list Z) : list Z :=
  reverse (add_loop w false (reverse a) (reverse b)).

(** ** String helpers *)

(** [std::tolower] in the "C" locale. *)
Definition tolower (c : Ascii.ascii) : Ascii.ascii :=
  let n := byte_of_ascii c in
  if (65 <=? n) && (n <=? 90) then Ascii.ascii_of_N (Z.to_N (n + 32)) else c.

Definition to_lower (s : string) : string :=
  String.string_of_list_ascii (tolower <$> String.list_ascii_of_string s).

Definition join (strs : list string) (delimiter : string) : string :=
  match strs with
  | [] => ""
  | s :: strs => fold_left (λ ret s, ret +:+ delimiter +:+ s) strs s
  end.

(** ** Dumps *)

(** [ss << std::setw(n) << std::setfill('0')] pads on the left. *)
Definition setw (n : nat) (l : list Ascii.ascii) : list Ascii.ascii :=
  replicate (n - length l) "0"%char ++ l.

Definition hex (z : Z) : list Ascii.ascii :=
  String.list_ascii_of_string (HexadecimalString.NilZero.string_of_uint (N.to_hex_uint (Z.to_N z))).

(** [std::bitset<8>] prints its bits from the most significant one. *)
Definition bitset8 (b : Z) : list Ascii.ascii :=
  (λ k, if Z.testbit b k then "1"%char else "0"%char) <$> [7; 6; 5; 4; 3; 2; 1; 0].

(** [isprint] and [isspace] in the "C" locale. *)
Definition isprint (b : Z) : bool := (32 <=? b) && (b <=? 126).

Definition isspace (c : Ascii.ascii) : bool :=
  let n := byte_of_ascii c in (n =? 32) || ((9 <=? n) && (n <=? 13)).

Definition endl : list Ascii.ascii := [Ascii.ascii_of_nat 10].

(** [for (i = 0; i < size; i += stride)]: with a positive stride, [size]
    iterations are enough; with stride 0 the C++ loop does not end and the
    model runs out of fuel. *)
Fixpoint rows (fuel size stride i : nat) (row : nat → list Ascii.ascii)
    : outcome (list Ascii.ascii) :=
  if (i <? size)%nat then
    match fuel with
    | O => NoFuel
    | S fuel => rest ← rows fuel size stride (i + stride) row; Ok (row i ++ rest)
    end
  else Ok [].

Definition hexdump_row (bytes : list Z) (stride : nat) (print_offsets print_readable : bool)
    (i : nat) : list Ascii.ascii :=
  (if (i =? 0)%nat then [] else endl) ++
  (if print_offsets then setw 6 (hex (Z.of_nat i)) ++ [":"; " "]%char else []) ++
  concat ((λ j,
    (if (0 <? j)%nat then [" "]%char else []) ++
    match bytes !! (i + j)%nat with
    | Some b => setw 2 (hex b)
    | None => [" "; " "]%char
    end) <$> seq 0 stride) ++
  (if print_readable then
     " "%char :: omap (λ j, (λ b, if isprint b then Ascii.ascii_of_N (Z.to_N b) else "."%char)
                              <$> bytes !! (i + j)%nat) (seq 0 stride)
   else []).

Definition hexdump (bytes : list Z) (stride : nat) (print_offsets print_readable : bool)
    : outcome string :=
  s ← rows (length bytes) (length bytes) stride 0
        (hexdump_row bytes stride print_offsets print_readable);
  Ok (String.string_of_list_ascii s).

Definition bytedump_row (bytes : list Z) (stride i : nat) : list Ascii.ascii :=
  (if (i =? 0)%nat then [] else endl) ++
  concat ((λ j,
    (if (0 <? j)%nat then [" "]%char else []) ++
    match bytes !! (i + j)%nat with
    | Some b => setw 1 (bitset8 b)
    | None => [" "; " "]%char
    end) <$> seq 0 stride).

Definition bytedump (bytes : list Z) (stride : nat) : outcome string :=
  s ← rows (length bytes) (length bytes) stride 0 (bytedump_row bytes stride);
  Ok (String.string_of_list_ascii s).

(** The other [hexdump], which writes to a stream (util.cpp). *)
Definition hexdump_os_row (bytes : list Z) (stride i : nat) : list Ascii.ascii :=
  setw 6 (hex (Z.of_nat i)) ++ [":"; " "]%char ++
  concat ((λ j,
    match bytes !! (i + j)%nat with
    | Some b => setw 2 (hex b) ++ [" "]%char
    | None => [" "; " "; " "]%char
    end) <$> seq 0 stride) ++
  " "%char :: omap (λ j, (λ b, if isprint b then Ascii.ascii_of_N (Z.to_N b) else "."%char)
                           <$> bytes !! (i + j)%nat) (seq 0 stride) ++ endl.

Definition hexdump_os (bytes : list Z) (stride : nat) (os : string) : outcome string :=
  s ← rows (length bytes) (length bytes) stride 0 (hexdump_os_row bytes stride);
  Ok (os +:+ String.string_of_list_ascii s).

(** [HexDump64ToHexDump32]: the characters are copied in pairs; the 32 calls of
    [sscanf] then read the copy at the even positions up to 62. [size() - 1] is
    a [size_t]. *)
Fixpoint copy_pairs (l : list Ascii.ascii) : list Ascii.ascii :=
  match l with
  | a :: b :: l => a :: b :: copy_pairs l
  | _ => []
  end.

Definition HexDump64ToHexDump32 (bytes : string) : outcome string :=
  let l := String.list_ascii_of_string bytes in
  if (length l =? 0)%nat then UB "read outside the string"
  else
    let sample := copy_pairs l in
    if (62 <=? length sample)%nat then Ok (String.string_of_list_ascii sample)
    else UB "read outside the string".

(** [s.erase(std::remove_if(s.begin(), s.end(), ::isspace), s.end())]. *)
Definition strip_space (s : string) : string :=
  String.string_of_list_ascii
    (filter (λ c, isspace c = false) (String.list_ascii_of_string s)).

(** ** Lemmas: byte swaps *)

Section Swap.

Definition byte_at (x : Z) (k : Z) : Z := (x `div` 2 ^ k) `mod` 256.

Lemma byte_at_range x k : 0 <= byte_at x k < 256.
Proof. apply Z.mod_pos_bound. lia. Qed.

(** Selecting a byte with a mask. *)
Lemma land_mask x k : 0 <= k → Z.land (255 * 2 ^ k) x = byte_at x k * 2 ^ k.
Proof.
  intros Hk. unfold byte_at. rewrite <- !Z.shiftl_mul_pow2, <- Z.shiftr_div_pow2 by lia.
  change 256 with (2 ^ 8). rewrite <- Z.land_ones by lia. change (Z.ones 8) with 255.
  apply Z.bits_inj'. intros n Hn. rewrite Z.land_spec, !Z.shiftl_spec by lia.
  rewrite Z.land_spec. destruct (Z.leb_spec k n) as [Hkn|Hkn].
  - rewrite Z.shiftr_spec by lia. replace (n - k + k) with n by lia. apply andb_comm.
  - by rewrite !(Z.testbit_neg_r _ (n - k)) by lia.
Qed.

(** A disjunction of values with disjoint bits is a sum. *)
Lemma lor_add k X y : 0 <= k → 0 <= y < 2 ^ k → X `mod` 2 ^ k = 0 → Z.lor X y = X + y.
Proof.
  intros Hk Hy HX. symmetry. apply Z.add_nocarry_lor, Z.bits_inj'.
  intros n Hn. rewrite Z.land_spec, Z.bits_0.
  destruct (Z.ltb_spec n k) as [Hnk|Hnk].
  - replace (Z.testbit X n) with false; [done|].
    rewrite <- (Z.mod_pow2_bits_low X k n) by lia. by rewrite HX, Z.bits_0.
  - rewrite andb_comm. replace (Z.testbit y n) with false; [done|].
    rewrite <- (Z.mod_small y (2 ^ k)) by lia. by rewrite Z.mod_pow2_bits_high by lia.
Qed.

Lemma le_bytes_byte_at n x k : 0 <= k →
  le_bytes n (x `div` 2 ^ k) = (λ i, byte_at x (k + 8 * Z.of_nat i)) <$> seq 0 n.
Proof.
  revert k. induction n as [|n IH]; intros k Hk; [done|]. cbn [le_bytes seq].
  change (256) with (2 ^ 8) at 2. rewrite Z.div_div, <- Z.pow_add_r by lia.
  rewrite IH, <- seq_shift by lia. cbn [fmap list_fmap]. f_equal.
  - unfold byte_at. do 3 f_equal. lia.
  - rewrite <- list_fmap_compose. apply list_fmap_ext. intros i j Hj. cbn. f_equal. lia.
Qed.

Lemma le_bytes_bytes n x :
  le_bytes n x = (λ i, byte_at x (8 * Z.of_nat i)) <$> seq 0 n.
Proof. rewrite <- (Z.div_1_r x) at 1. change 1 with (2 ^ 0). by rewrite le_bytes_byte_at. Qed.

Lemma shiftl_byte b k j : 0 <= k → 0 <= j → Z.shiftl (b * 2 ^ k) j = b * 2 ^ (k + j).
Proof. intros. rewrite Z.shiftl_mul_pow2, Z.pow_add_r by lia. lia. Qed.

Lemma shiftr_byte b k j : 0 <= j <= k → Z.shiftr (b * 2 ^ k) j = b * 2 ^ (k - j).
Proof.
  intros. rewrite Z.shiftr_div_pow2 by lia.
  replace (b * 2 ^ k) with (b * 2 ^ (k - j) * 2 ^ j); [by rewrite Z.div_mul by lia|].
  rewrite <- Z.mul_assoc, <- Z.pow_add_r by lia. do 2 f_equal. lia.
Qed.

End Swap.

(** Normalise the masked and shifted terms of a swap into weighted bytes. *)
Ltac swap_terms x :=
  repeat match goal with
  | |- context [Z.land ?m x] =>
      let k := eval vm_compute in (Z.log2 m - 7) in
      change (Z.land m x) with (Z.land (255 * 2 ^ k) x);
      rewrite (land_mask x k) by lia
  end;
  repeat match goal with
  | |- context [byte_at x ?k] =>
      let b := fresh "b" in let Hb := fresh "Hb" in
      pose proof (byte_at_range x k) as Hb; set (b := byte_at x k) in *; clearbody b
  end;
  repeat match goal with
  | |- context [Z.shiftl (?b * 2 ^ ?k) ?j] =>
      let n := eval vm_compute in (k + j) in
      rewrite (shiftl_byte b k j) by lia; change (k + j) with n
  | |- context [Z.shiftr (?b * 2 ^ ?k) ?j] =>
      let n := eval vm_compute in (k - j) in
      rewrite (shiftr_byte b k j) by lia; change (k - j) with n
  end;
  unfold u16, u32, u64; rewrite ?(wrap_small 32), ?(wrap_small 64) by lia;
  repeat match goal with
  | |- context [Z.lor ?X (?b * 2 ^ ?k)] =>
      lazymatch X with context [Z.lor] => fail | _ => idtac end;
      let n := eval vm_compute in (k + 8) in
      rewrite (lor_add n X (b * 2 ^ k)) by
        first [lia | let p := eval vm_compute in (2 ^ n) in change (2 ^ n) with p;
                     Z.to_euclidean_division_equations; lia]
  end;
  rewrite ?(wrap_small 16) by lia.

Ltac swap_bytes f x :=
  rewrite le_bytes_bytes; cbn -[Z.mul Z.of_nat];
  repeat match goal with
  | |- context [8 * Z.of_nat ?k] =>
      let n := eval vm_compute in (8 * Z.of_nat k) in change (8 * Z.of_nat k) with n
  end;
  unfold f; swap_terms x; lia.

(** [swapBytesN] reads the bytes of its argument in the opposite order. *)
Lemma swapBytes16_bytes x : swapBytes16 x = le_num (reverse (le_bytes 2 x)).
Proof. swap_bytes swapBytes16 x. Qed.

Lemma swapBytes32_bytes x : swapBytes32 x = le_num (reverse (le_bytes 4 x)).
Proof. swap_bytes swapBytes32 x. Qed.

Lemma swapBytes64_bytes x : swapBytes64 x = le_num (reverse (le_bytes 8 x)).
Proof. swap_bytes swapBytes64 x. Qed.

Lemma le_bytes_swap n x :
  le_bytes n (le_num (reverse (le_bytes n x))) = reverse (le_bytes n x).
Proof.
  rewrite <- (length_le_bytes n x) at 1. rewrite <- length_reverse.
  apply le_bytes_le_num, bytes_ok_reverse, le_bytes_ok.
Qed.

Lemma le_bytes_swap_involutive n x : 0 <= x < 256 ^ Z.of_nat n →
  le_num (reverse (le_bytes n (le_num (reverse (le_bytes n x))))) = x.
Proof.
  intros. rewrite le_bytes_swap, reverse_involutive, le_num_le_bytes. by apply Z.mod_small.
Qed.

Lemma swap_involutive16 x : 0 <= x < 2 ^ 16 → swapBytes16 (swapBytes16 x) = x.
Proof. intros. rewrite !swapBytes16_bytes. by apply le_bytes_swap_involutive. Qed.

Lemma swapBytes16_range x : 0 <= swapBytes16 x < 2 ^ 16.
Proof. apply wrap_range. lia. Qed.

(** The byte swaps reverse the bytes of a value: [swapBytes16],
    [swapBytes32] and [swapBytes64] give the value whose bytes in memory are
    those of the argument in the opposite order, and are their own inverses on
    values of their width. *)
Theorem byte_swaps_reverse x :
  le_bytes 2 (swapBytes16 x) = reverse (le_bytes 2 x) ∧
  le_bytes 4 (swapBytes32 x) = reverse (le_bytes 4 x) ∧
  le_bytes 8 (swapBytes64 x) = reverse (le_bytes 8 x) ∧
  (0 <= x < 2 ^ 16 → swapBytes16 (swapBytes16 x) = x) ∧
  (0 <= x < 2 ^ 32 → swapBytes32 (swapBytes32 x) = x) ∧
  (0 <= x < 2 ^ 64 → swapBytes64 (swapBytes64 x) = x).
Proof.
  rewrite !swapBytes16_bytes, !swapBytes32_bytes, !swapBytes64_bytes, !le_bytes_swap.
  split_and!; [done..| | |]; intros;
    rewrite reverse_involutive, le_num_le_bytes; by apply Z.mod_small.
Qed.

(** ** Lemmas: pow2 and array addition *)

Lemma add_step_spec c a b : byte_ok a → byte_ok b →
  let '(sum, c') := add_step 8 c a b in
  byte_ok sum ∧ sum + 256 * Z.b2z c' = a + b + Z.b2z c.
Proof.
  unfold byte_ok, add_step. intros Ha Hb.
  change (wrap 8 (2 ^ 64 - 1)) with 255. change (wrap 8 (0 + 1)) with 1.
  assert (∀ z, 0 <= z < 512 → wrap 8 z = if z <? 256 then z else z - 256) as Hw.
  { intros z Hz. unfold wrap. destruct (Z.ltb_spec z 256); [apply Z.mod_small; lia|].
    symmetry. apply (Z.mod_unique _ _ 1); lia. }
  assert (∀ z, 0 <= z < 256 → u64 z = z) as Hu by (intros; apply wrap_small; lia).
  set (s := if c then 1 else 0). assert (s = Z.b2z c) as Hs by by destruct c.
  assert (0 <= s <= 1) by (rewrite Hs; destruct c; cbn; lia). rewrite <- Hs. clearbody s.
  rewrite (Hu (255 - s)) by lia. rewrite (Hw (s + a)) by lia.
  destruct (Z.ltb_spec (s + a) 256).
  - rewrite Hu, Hw by lia.
    destruct (Z.ltb_spec (255 - s) a), (Z.ltb_spec (255 - (s + a)) b),
      (Z.ltb_spec (s + a + b) 256); cbn; lia.
  - rewrite Hu, Hw by lia.
    destruct (Z.ltb_spec (255 - s) a), (Z.ltb_spec (255 - (s + a - 256)) b),
      (Z.ltb_spec (s + a - 256 + b) 256); cbn; lia.
Qed.

Lemma length_add_loop w c a b : length a = length b → length (add_loop w c a b) = length a.
Proof.
  revert c b. induction a as [|x a IH]; intros c [|y b] Hl; try done. cbn [add_loop].
  destruct (add_step w c x y). cbn. rewrite IH; naive_solver.
Qed.

Lemma add_loop_spec c a b : bytes_ok a → bytes_ok b → length a = length b →
  bytes_ok (add_loop 8 c a b) ∧
  ∃ c', le_num (add_loop 8 c a b) + 256 ^ Z.of_nat (length a) * Z.b2z c'
        = le_num a + le_num b + Z.b2z c.
Proof.
  revert c b. induction a as [|x a IH]; intros c [|y b] Ha Hb Hl; try done.
  { split; [constructor|]. exists c. cbn. lia. }
  inversion_clear Ha. inversion_clear Hb. cbn [add_loop].
  pose proof (add_step_spec c x y) as Hs. destruct (add_step 8 c x y) as [sum c1].
  destruct Hs as [Hok Hs]; [done..|].
  destruct (IH c1 b) as [Hoks [c' Hc']]; [done|done|cbn in Hl; lia|].
  split; [by constructor|]. exists c'. cbn [le_num length].
  rewrite Nat2Z.inj_succ, Z.pow_succ_r by lia. lia.
Qed.

Lemma length_array_add w a b : length a = length b → length (array_add w a b) = length a.
Proof.
  intros. unfold array_add. rewrite length_reverse, length_add_loop; by rewrite ?length_reverse.
Qed.

Lemma array_add_ok a b : bytes_ok a → bytes_ok b → length a = length b →
  bytes_ok (array_add 8 a b).
Proof.
  intros. apply bytes_ok_reverse, add_loop_spec; rewrite ?length_reverse; auto using bytes_ok_reverse.
Qed.

(** [operator+] is addition modulo 2^(8*size) on big-endian values. *)
Lemma be_num_array_add a b : bytes_ok a → bytes_ok b → length a = length b →
  be_num (array_add 8 a b) = (be_num a + be_num b) `mod` 256 ^ Z.of_nat (length a).
Proof.
  intros Ha Hb Hl. unfold array_add. rewrite !be_num_le, reverse_involutive.
  destruct (add_loop_spec false (reverse a) (reverse b)) as [Hok [c' Hc]];
    rewrite ?length_reverse in *; auto using bytes_ok_reverse.
  pose proof (le_num_range _ Hok) as Hr. rewrite length_add_loop, length_reverse in Hr
    by (by rewrite !length_reverse).
  apply (Z.mod_unique _ _ (Z.b2z c')); cbn in *; lia.
Qed.

Lemma le_num_replicate0 n : le_num (replicate n 0) = 0.
Proof. induction n as [|n IH]; cbn [replicate le_num]; lia. Qed.


Lemma be_num_replicate0 n : be_num (replicate n 0) = 0.
Proof. by rewrite be_num_le, reverse_replicate, le_num_replicate0. Qed.

Lemma insert_replicate_split (n i : nat) (x : Z) : (i < n)%nat →
  <[i:=x]> (replicate n 0) = replicate i 0 ++ x :: replicate (n - i - 1) 0.
Proof.
  intros Hi. replace n with (i + S (n - i - 1))%nat at 1 by lia.
  rewrite replicate_add, insert_app_r_alt by (rewrite length_replicate; lia).
  by rewrite length_replicate, Nat.sub_diag.
Qed.

Lemma pow2_index size exp : 0 < size < 2 ^ 31 → 0 <= exp < 2 ^ 63 →
  let index := s64 (size - 1 - exp `div` 8) in
  index = size - 1 - exp `div` 8 ∧ ((u64 index <? size) && (0 <=? index) = (exp <? 8 * size)).
Proof.
  intros Hs He index. assert (0 <= exp `div` 8 < 2 ^ 60) as Hd.
  { split; [apply Z.div_pos; lia|apply Z.div_lt_upper_bound; lia]. }
  pose proof (Z.div_mod exp 8 ltac:(lia)). pose proof (Z.mod_pos_bound exp 8 ltac:(lia)).
  assert (∀ z, - 2 ^ 62 <= z < 2 ^ 62 → u64 z = if z <? 0 then z + 2 ^ 64 else z) as Hu.
  { intros z Hz. unfold u64, wrap. destruct (Z.ltb_spec z 0); [|apply Z.mod_small; lia].
    symmetry. apply (Z.mod_unique _ _ (-1)); lia. }
  assert (index = size - 1 - exp `div` 8) as ->.
  { subst index. unfold s64. rewrite Hu by lia.
    destruct (Z.ltb_spec (size - 1 - exp `div` 8) 0); case_match; lia. }
  split; [done|]. rewrite Hu by lia.
  destruct (Z.ltb_spec (size - 1 - exp `div` 8) 0), (Z.ltb_spec exp (8 * size)); lia.
Qed.

Lemma pow2_bit exp : 0 <= exp → 0 < wrap 8 (Z.shiftl 1 (exp `mod` 8)) < 256 ∧
  wrap 8 (Z.shiftl 1 (exp `mod` 8)) = 2 ^ (exp `mod` 8).
Proof.
  intros. pose proof (Z.mod_pos_bound exp 8 ltac:(lia)).
  rewrite Z.shiftl_mul_pow2, Z.mul_1_l by lia.
  pose proof (Z.pow_lt_mono_r 2 (exp `mod` 8) 8). rewrite wrap_small by lia. lia.
Qed.

(** [pow2(exp)] is 2^exp as a big-endian array, and 0 when it does not fit. *)
Lemma be_num_pow2 size exp : 0 < size < 2 ^ 31 → 0 <= exp < 2 ^ 63 →
  be_num (pow2 8 size exp) = if exp <? 8 * size then 2 ^ exp else 0.
Proof.
  intros Hs He. unfold pow2.
  destruct (pow2_index size exp Hs He) as [-> ->].
  destruct (Z.ltb_spec exp (8 * size)) as [Hlt|]; [|apply be_num_replicate0].
  pose proof (Z.div_mod exp 8 ltac:(lia)). pose proof (Z.mod_pos_bound exp 8 ltac:(lia)).
  assert (0 <= exp `div` 8) by (apply Z.div_pos; lia).
  rewrite insert_replicate_split by lia.
  rewrite be_num_le, reverse_app, reverse_cons, !reverse_replicate, le_num_app, le_num_replicate0.
  rewrite le_num_app, le_num_replicate0, length_replicate. cbn [le_num].
  rewrite (proj2 (pow2_bit exp ltac:(lia))).
  replace (Z.of_nat _) with (exp `div` 8) by lia.
  change 256 with (2 ^ 8). rewrite <- Z.pow_mul_r by lia.
  assert (2 ^ exp = 2 ^ (8 * (exp `div` 8)) * 2 ^ (exp `mod` 8)) as ->; [|lia].
  rewrite <- Z.pow_add_r by lia. f_equal. lia.
Qed.

Lemma length_pow2 w size exp : length (pow2 w size exp) = Z.to_nat size.
Proof. unfold pow2. case_match; by rewrite ?length_insert, length_replicate. Qed.

Lemma pow2_ok size exp : 0 <= exp → bytes_ok (pow2 8 size exp).
Proof.
  intros He. assert (bytes_ok (replicate (Z.to_nat size) 0)) as H0.
  { apply Forall_replicate. unfold byte_ok. lia. }
  unfold pow2. case_match; [|done]. apply Forall_insert; [done|].
  pose proof (pow2_bit exp He). unfold byte_ok. lia.
Qed.

(** ** Lemmas: dumps *)

Lemma rows_total fuel size stride i row :
  (0 < stride)%nat → (size <= i + fuel)%nat →
  ∃ l, rows fuel size stride i row = Ok l.
Proof.
  revert i. induction fuel as [|fuel IH]; intros i Hs Hf; cbn [rows].
  - destruct (Nat.ltb_spec i size); [lia|eauto].
  - destruct (Nat.ltb_spec i size); [|eauto].
    destruct (IH (i + stride)%nat) as [l ->]; [lia..|]. cbn. eauto.
Qed.

Definition strip (l : list Ascii.ascii) : list Ascii.ascii := filter (λ c, isspace c = false) l.

Lemma strip_app l1 l2 : strip (l1 ++ l2) = strip l1 ++ strip l2.
Proof. apply filter_app. Qed.

Lemma strip_all_kept l : Forall (λ c, isspace c = false) l → strip l = l.
Proof.
  unfold strip. induction 1; [done|]. by rewrite filter_cons_True, IHForall.
Qed.

Lemma bitset8_no_space b : strip (setw 1 (bitset8 b)) = bitset8 b.
Proof.
  unfold bitset8, setw. cbn [fmap list_fmap length Nat.sub replicate app].
  apply strip_all_kept. repeat constructor; by case_match.
Qed.

(** Two hexadecimal digits of a byte. *)
Definition hex2 (b : Z) : list Ascii.ascii := setw 2 (hex b).

Lemma hex2_ok b : 0 <= b < 256 → length (hex2 b) = 2%nat ∧ strip (hex2 b) = hex2 b.
Proof.
  intros Hb.
  assert (forallb (λ b, (length (hex2 b) =? 2)%nat && bool_decide (strip (hex2 b) = hex2 b)) (seqZ 0 256) = true) as H
    by (vm_compute; reflexivity).
  rewrite forallb_forall in H. specialize (H b). rewrite andb_true_iff, Nat.eqb_eq, bool_decide_eq_true in H.
  apply H, list_elem_of_In, elem_of_seqZ. lia.
Qed.

(** The cells of one row contribute the text of the bytes they cover. *)
Lemma strip_cells (cell text : Z → list Ascii.ascii) (bytes : list Z) i js :
  (∀ b, b ∈ bytes → strip (cell b) = text b) →
  strip (concat ((λ j, (if (0 <? j)%nat then [" "]%char else []) ++
     match bytes !! (i + j)%nat with
     | Some b => cell b | None => [" "; " "]%char end) <$> js))
  = concat (text <$> omap (λ j, bytes !! (i + j)%nat) js).
Proof.
  intros Hcell. induction js as [|j js IH]; [done|]. cbn [fmap list_fmap concat omap list_omap].
  rewrite !strip_app, IH.
  replace (strip (if (0 <? j)%nat then _ else _)) with (@nil Ascii.ascii) by by case_match.
  destruct (bytes !! (i + j)%nat) as [b|] eqn:E; [|done].
  rewrite Hcell by (by eapply list_elem_of_lookup_2). done.
Qed.

Lemma omap_window (bytes : list Z) i n :
  omap (λ j, bytes !! (i + j)%nat) (seq 0 n) = take n (drop i bytes).
Proof.
  revert i. induction n as [|n IH]; intros i; [done|]. cbn [seq].
  rewrite <- seq_shift. cbn [omap list_omap]. rewrite Nat.add_0_r.
  assert (omap (λ j, bytes !! (i + j)%nat) (map S (seq 0 n)) = take n (drop (S i) bytes)) as ->.
  { rewrite <- IH. generalize (seq 0 n). intros l. induction l as [|j l IHl]; [done|].
    cbn. rewrite Nat.add_succ_r, IHl. done. }
  destruct (bytes !! i) as [b|] eqn:E.
  - by rewrite (drop_S _ _ _ E).
  - apply lookup_ge_None in E. rewrite !drop_ge by lia. by rewrite !take_nil.
Qed.

Lemma strip_bits_row bytes stride i :
  strip (bytedump_row bytes stride i) = concat (bitset8 <$> take stride (drop i bytes)).
Proof.
  unfold bytedump_row. rewrite strip_app, (strip_cells _ bitset8), omap_window by (intros; apply bitset8_no_space).
  by destruct (i =? 0)%nat.
Qed.

Lemma strip_hex_row bytes stride i : bytes_ok bytes →
  strip (hexdump_row bytes stride false false i) = concat (hex2 <$> take stride (drop i bytes)).
Proof.
  intros Hb. unfold hexdump_row. cbn [app]. rewrite strip_app, strip_app, (strip_cells _ hex2), omap_window.
  - cbn. rewrite app_nil_r. by destruct (i =? 0)%nat.
  - intros b Hin. unfold bytes_ok in Hb. rewrite Forall_forall in Hb. by apply hex2_ok, Hb.
Qed.

(** Rows that contribute the text of their bytes contribute all of it. *)
Lemma strip_rows (text : Z → list Ascii.ascii) row fuel bytes stride i l : (0 < stride)%nat →
  (∀ i, strip (row i) = concat (text <$> take stride (drop i bytes))) →
  rows fuel (length bytes) stride i row = Ok l → strip l = concat (text <$> drop i bytes).
Proof.
  intros Hs Hrow. revert i l. induction fuel as [|fuel IH]; intros i l; cbn [rows];
    destruct (Nat.ltb_spec i (length bytes)) as [Hi|Hi]; try done.
  - intros [= <-]. by rewrite drop_ge by lia.
  - destruct (rows fuel _ _ _ _) as [rest| | |] eqn:E; cbn; [|done..].
    intros [= <-]. rewrite strip_app, Hrow, (IH _ _ E), <- concat_app, <- fmap_app.
    by rewrite <- drop_drop, take_drop.
  - intros [= <-]. by rewrite drop_ge by lia.
Qed.

(** Removing the white space of [bytedump] leaves the bits of the input. *)
Lemma strip_bytedump bytes stride : (0 < stride)%nat →
  ∃ s, bytedump bytes stride = Ok s ∧
       strip_space s = String.string_of_list_ascii (concat (bitset8 <$> bytes)).
Proof.
  intros Hs. unfold bytedump.
  destruct (rows_total (length bytes) (length bytes) stride 0 (bytedump_row bytes stride))
    as [l Hl]; [done|lia|]. rewrite Hl. eexists. split; [done|].
  unfold strip_space. rewrite String.list_ascii_of_string_of_list_ascii.
  f_equal. by apply (strip_rows bitset8 _ _ _ _ _ _ Hs (strip_bits_row bytes stride) Hl).
Qed.

Lemma length_bits bytes : length (concat (bitset8 <$> bytes)) = (8 * length bytes)%nat.
Proof. induction bytes as [|b bytes IH]; [done|]. cbn -[Nat.mul]. rewrite IH. lia. Qed.

(** The textual dumps cover their input. For every positive row length
    [bytedump] and [hexdump] end with a text, and removing the white space
    from a [bytedump] leaves the bits of all bytes, most significant first,
    eight characters for each byte. *)
Theorem dumps_cover_input bytes stride print_offsets print_readable :
  (0 < stride)%nat →
  (∃ s, bytedump bytes stride = Ok s ∧
     String.list_ascii_of_string (strip_space s) = concat (bitset8 <$> bytes) ∧
     String.length (strip_space s) = (8 * length bytes)%nat) ∧
  is_Ok (hexdump bytes stride print_offsets print_readable) = true.
Proof.
  intros Hs. split.
  - destruct (strip_bytedump bytes stride Hs) as (s & Hd & Hstrip). exists s.
    rewrite <- length_list_ascii, Hstrip, String.list_ascii_of_string_of_list_ascii, length_bits. done.
  - unfold hexdump.
    destruct (rows_total (length bytes) (length bytes) stride 0
      (hexdump_row bytes stride print_offsets print_readable)) as [l ->]; [done|lia|done].
Qed.

Lemma dumps_cover_input_witness :
  is_Ok (hexdump (bytes_of_string "Hello") 2 true true) = true.
Proof. refine (proj2 (dumps_cover_input (bytes_of_string "Hello") 2 true true _)). lia. Defined.

Lemma hex2_inj a b : 0 <= a < 256 → 0 <= b < 256 → hex2 a = hex2 b → a = b.
Proof.
  intros Ha Hb E.
  assert (forallb (λ a, forallb (λ b, implb (bool_decide (hex2 a = hex2 b)) (a =? b)) (seqZ 0 256)) (seqZ 0 256) = true)
    as H by (vm_compute; reflexivity).
  rewrite forallb_forall in H. specialize (H a). rewrite forallb_forall in H.
  assert (implb (bool_decide (hex2 a = hex2 b)) (a =? b) = true) as Hab
    by (apply H; apply list_elem_of_In, elem_of_seqZ; lia).
  rewrite bool_decide_eq_true_2 in Hab by done. by apply Z.eqb_eq.
Qed.

Lemma concat_hex2_inj l l' : bytes_ok l → bytes_ok l' → concat (hex2 <$> l) = concat (hex2 <$> l') → l = l'.
Proof.
  intros Hl. revert l'. induction Hl as [|a l Ha Hl IH]; intros l' Hl'; destruct Hl' as [|b l' Hb Hl']; cbn; [done|..].
  - intros E%(f_equal length). rewrite length_app in E. destruct (hex2_ok b Hb) as [Hlen _]. rewrite Hlen in E. done.
  - intros E%(f_equal length). rewrite length_app in E. destruct (hex2_ok a Ha) as [Hlen _]. rewrite Hlen in E. done.
  - intros E. apply app_inj_1 in E as [E1 E2]; [|by rewrite (proj1 (hex2_ok a Ha)), (proj1 (hex2_ok b Hb))].
    f_equal; [by apply hex2_inj|by apply IH].
Qed.

Lemma strip_hexdump bytes stride : bytes_ok bytes → (0 < stride)%nat →
  ∃ s, hexdump bytes stride false false = Ok s ∧
       strip_space s = String.string_of_list_ascii (concat (hex2 <$> bytes)).
Proof.
  intros Hb Hs. unfold hexdump.
  destruct (rows_total (length bytes) (length bytes) stride 0 (hexdump_row bytes stride false false))
    as [l Hl]; [done|lia|]. rewrite Hl. eexists. split; [done|].
  unfold strip_space. rewrite String.list_ascii_of_string_of_list_ascii.
  f_equal. by apply (strip_rows hex2 _ _ _ _ _ _ Hs (λ i, strip_hex_row bytes stride i Hb) Hl).
Qed.

(** A plain [hexdump] identifies its input. For bytes and a positive row length
    it ends, its digits are the two-digit hexadecimals of all bytes in order,
    and two inputs with the same dump, whatever their row lengths, are equal. *)
Theorem hexdump_identifies bytes bytes' stride stride' s :
  bytes_ok bytes → bytes_ok bytes' → (0 < stride)%nat → (0 < stride')%nat →
  hexdump bytes stride false false = Ok s →
  strip_space s = String.string_of_list_ascii (concat (hex2 <$> bytes)) ∧
  (hexdump bytes' stride' false false = Ok s → bytes' = bytes).
Proof.
  intros Hb Hb' Hs Hs' Hd. destruct (strip_hexdump bytes stride Hb Hs) as (s1 & Hd1 & Hs1).
  rewrite Hd in Hd1. injection Hd1 as <-. split; [done|]. intros Hd'.
  destruct (strip_hexdump bytes' stride' Hb' Hs') as (s2 & Hd2 & Hs2). rewrite Hd' in Hd2. injection Hd2 as <-.
  rewrite Hs1 in Hs2. apply (f_equal String.list_ascii_of_string) in Hs2.
  rewrite !String.list_ascii_of_string_of_list_ascii in Hs2. symmetry. by apply concat_hex2_inj.
Qed.

Lemma copy_pairs_even n l : length l = (2 * n)%nat → copy_pairs l = l.
Proof.
  revert l. induction n as [|n IH]; intros [|a [|b l]]; cbn; try done; try lia.
  intros E. by rewrite IH by lia.
Qed.

(** [HexDump64ToHexDump32] converts nothing: on a text of even length that is
    long enough it returns the text itself, on a shorter one it reads past the
    end. *)
Theorem hexdump64_is_identity s n : String.length s = (2 * n)%nat →
  HexDump64ToHexDump32 s = if (31 <=? n)%nat then Ok s else UB "read outside the string".
Proof.
  intros Hn. unfold HexDump64ToHexDump32.
  assert (length (String.list_ascii_of_string s) = (2 * n)%nat) as Hl.
  { rewrite <- Hn. clear. induction s; cbn; by rewrite ?IHs. }
  rewrite (copy_pairs_even n) by done. rewrite Hl, String.string_of_list_ascii_of_string.
  destruct (Nat.eqb_spec (2 * n) 0), (Nat.leb_spec 62 (2 * n)), (Nat.leb_spec 31 n); lia || done.
Qed.

(** Both hexadecimal dumps end, for every positive row length. *)
Lemma hexdump_os_ends bytes stride os : (0 < stride)%nat → is_Ok (hexdump_os bytes stride os) = true.
Proof.
  intros Hs. unfold hexdump_os.
  by destruct (rows_total (length bytes) (length bytes) stride 0 (hexdump_os_row bytes stride)) as [l ->]; [|lia|].
Qed.
