(* ===== verification/Ring.v ===== *)
(** * The identifier ring

    The abstract specification of Chord's identifier circle and the proof
    that [util::is_in_range_loop] on 32-byte arrays implements it.

    Identifiers are the integers modulo [ring_size] = 2^256; [cw a b] is the
    clockwise distance from [a] to [b]. An interval of the ring is the set of
    points met on a clockwise walk ([in_arc]); the C++ tests it with
    lexicographic array comparisons and two boolean flags. *)

From S2P Require Import Prelude Util.

(** SHA256_DIGEST_LENGTH, the number of bytes of an identifier. *)
Definition id_bytes : nat := 32.

(** [NodeInformation::key_bits]. *)
Definition key_bits : nat := id_bytes * 8.

Definition ring_size : Z := 256 ^ 32.

(** Values of [id_type], a [std::array<uint8_t, 32>]. *)
Definition id_ok (id : list Z) : Prop := bytes_ok id ∧ length id = id_bytes.

#[export] Instance id_ok_dec id : Decision (id_ok id) := _.

(** Clockwise distance. *)
Definition cw (a b : Z) : Z := (b - a) `mod` ring_size.

(** The points met on a clockwise walk from [a] to [b]. With [a = b] the walk
    is the whole circle, except for the closed interval, which is the single
    point. *)
Definition in_arc (v a b : Z) (include_min include_max : bool) : Prop :=
  match include_min, include_max with
  | false, false => v ≠ a ∧ (a = b ∨ cw a v < cw a b)
  | false, true => a = b ∨ (v ≠ a ∧ cw a v <= cw a b)
  | true, false => a = b ∨ cw a v < cw a b
  | true, true => cw a v <= cw a b
  end.

(** ** Points of the ring *)

Definition point (z : Z) : Prop := 0 <= z < ring_size.

Lemma ring_size_pos : 0 < ring_size.
Proof. done. Qed.

Lemma be_num_point id : id_ok id → point (be_num id).
Proof.
  intros [Hb Hl]. pose proof (be_num_range _ Hb) as H. rewrite Hl in H.
  unfold point, ring_size. exact H.
Qed.

Lemma cw_if a b : point a → point b → cw a b = if a <=? b then b - a else b - a + ring_size.
Proof.
  unfold point, cw. intros. destruct (Z.leb_spec a b).
  - apply Z.mod_small. lia.
  - symmetry. apply (Z.mod_unique _ _ (-1)); lia.
Qed.

Lemma cw_range a b : 0 <= cw a b < ring_size.
Proof. apply Z.mod_pos_bound, ring_size_pos. Qed.

Lemma cw_diag a : cw a a = 0.
Proof. unfold cw. by rewrite Z.sub_diag, Z.mod_0_l. Qed.

Lemma ring_size_gt1 : 1 < ring_size.
Proof. done. Qed.

Lemma mod_point z : point (z `mod` ring_size).
Proof. apply Z.mod_pos_bound, ring_size_pos. Qed.

(** The next point on the circle. *)
Lemma cw_next a : point a → cw a ((a + 1) `mod` ring_size) = 1.
Proof.
  intros Ha. unfold cw. rewrite Zminus_mod_idemp_l. replace (a + 1 - a) with 1 by lia.
  apply Z.mod_small. pose proof ring_size_gt1. lia.
Qed.

Opaque ring_size.

(** Reduce a goal on distances between points to linear arithmetic. *)
Ltac ring_lia :=
  repeat match goal with
  | H : context [cw ?a ?b] |- _ => rewrite (cw_if a b) in H by assumption
  | |- context [cw ?a ?b] => rewrite (cw_if a b) by assumption
  end;
  unfold point in *; pose proof ring_size_pos;
  repeat match goal with
  | H : context [?a <=? ?b] |- _ => destruct (Z.leb_spec a b)
  | |- context [?a <=? ?b] => destruct (Z.leb_spec a b)
  end; lia.

Lemma cw_zero a b : point a → point b → cw a b = 0 → a = b.
Proof. intros. ring_lia. Qed.

Lemma cw_inj a b c : point a → point b → point c → cw a b = cw a c → b = c.
Proof. intros. ring_lia. Qed.

(** ** The interval test *)

(** On integers, the test decides [in_arc]. *)
Lemma range_Z v a b i j : point v → point a → point b →
  is_in_range_loop v a b i j = true ↔ in_arc v a b i j.
Proof.
  intros Hv Ha Hb. unfold is_in_range_loop, in_arc, cpp_le, cpp_lt, cpp_ge, cpp_gt, cpp_ne, cmp, Z_ord.
  pose proof (Z.compare_spec a b) as Hab. pose proof (Z.compare_spec v a) as Hva.
  pose proof (Z.compare_spec v b) as Hvb.
  destruct Hab, Hva, Hvb, i, j; cbn; subst; split; intros; try done;
    rewrite ?cw_diag in *; ring_lia.
Qed.

(** Lexicographic order on byte arrays is the order of their values. *)
Lemma array_compare_num a b : bytes_ok a → bytes_ok b → length a = length b →
  array_compare a b = Z.compare (be_num a) (be_num b).
Proof.
  intros Ha. revert b. induction Ha as [|x a Hx Ha IH]; intros [|y b] Hb Hl; try done.
  inversion_clear Hb. cbn [array_compare]. rewrite !be_num_cons.
  assert (length a = length b) as Hlab by (cbn in Hl; lia). rewrite IH, Hlab by done.
  pose proof (be_num_range a ltac:(done)) as Ra. pose proof (be_num_range b ltac:(done)) as Rb.
  rewrite Hlab in Ra. set (P := 256 ^ Z.of_nat (length b)) in *.
  destruct (Z.compare_spec x y); symmetry.
  - subst. destruct (Z.compare_spec (be_num a) (be_num b));
      [apply Z.compare_eq_iff|apply Z.compare_lt_iff|apply Z.compare_gt_iff]; lia.
  - apply Z.compare_lt_iff. nia.
  - apply Z.compare_gt_iff. nia.
Qed.

Lemma range_num v a b i j : id_ok v → id_ok a → id_ok b →
  is_in_range_loop v a b i j = is_in_range_loop (be_num v) (be_num a) (be_num b) i j.
Proof.
  intros [Hv Lv] [Ha La] [Hb Lb].
  unfold is_in_range_loop, cpp_le, cpp_lt, cpp_ge, cpp_gt, cpp_ne, cmp, array_ord, Z_ord.
  by rewrite !array_compare_num by congruence.
Qed.

(** The test on identifiers decides the ring interval. *)
Lemma range_arc v a b i j : id_ok v → id_ok a → id_ok b →
  is_in_range_loop v a b i j = true ↔ in_arc (be_num v) (be_num a) (be_num b) i j.
Proof. intros. rewrite range_num by done. apply range_Z; by apply be_num_point. Qed.

Lemma range_arc_false v a b i j : id_ok v → id_ok a → id_ok b →
  is_in_range_loop v a b i j = false ↔ ¬ in_arc (be_num v) (be_num a) (be_num b) i j.
Proof. intros. rewrite <- range_arc by done. by rewrite not_true_iff_false. Qed.

Lemma id_num_inj a b : id_ok a → id_ok b → be_num a = be_num b → a = b.
Proof. intros [Ha La] [Hb Lb]. apply be_num_inj; congruence. Qed.

(** C21: The interval test is the ring interval. On identifiers, which the code
    compares as byte arrays, [is_in_range_loop] decides whether a point is met
    on the clockwise walk from one end to the other, for all four choices of
    including the ends and also when the walk passes zero. *)
Theorem interval_test_is_arc v a b include_min include_max :
  id_ok v → id_ok a → id_ok b →
  is_in_range_loop v a b include_min include_max = true
  ↔ in_arc (be_num v) (be_num a) (be_num b) include_min include_max.
Proof. apply range_arc. Qed.

Lemma interval_test_is_arc_witness :
  in_arc 1 (ring_size - 1) 5 false true.
Proof.
  refine (proj1 (interval_test_is_arc (replicate 31 0 ++ [1]) (replicate 32 255) (replicate 31 0 ++ [5])
    false true _ _ _) _); vm_compute; repeat constructor; done.
Defined.

(** Identifier arithmetic is exact. Adding two byte arrays of equal
    length with [operator+] is addition modulo 256^length on the numbers they
    denote (the carry out of the first byte is dropped), and [pow2] denotes
    2^exp, or 0 when that does not fit. *)
Theorem array_arithmetic a b size exp :
  bytes_ok a → bytes_ok b → length a = length b → 0 < size < 2 ^ 31 → 0 <= exp < 2 ^ 63 →
  be_num (array_add 8 a b) = (be_num a + be_num b) `mod` 256 ^ Z.of_nat (length a) ∧
  length (array_add 8 a b) = length a ∧ bytes_ok (array_add 8 a b) ∧
  be_num (pow2 8 size exp) = (if exp <? 8 * size then 2 ^ exp else 0) ∧
  length (pow2 8 size exp) = Z.to_nat size.
Proof.
  intros. split_and!; [by apply be_num_array_add|by apply length_array_add|by apply array_add_ok|
    by apply be_num_pow2|by apply length_pow2].
Qed.

Lemma array_arithmetic_witness :
  be_num (array_add 8 [255; 255] [0; 1]) = (65535 + 1) `mod` 256 ^ 2.
Proof.
  refine (proj1 (array_arithmetic [255; 255] [0; 1] 2 3 _ _ _ _ _)); try lia; try done;
    repeat constructor; done.
Defined.

(** ** Distance left *)

(** Distance left to [id], a full turn when the node sits on it. *)
Definition gap (id x : Z) : Z := if x =? id then ring_size else cw x id.

Lemma gap_arc id c x : point id → point c → point x →
  in_arc c x id false false → gap id c < gap id x.
Proof.
  intros Hid Hc Hx [Hne Hin]. unfold gap.
  destruct (Z.eqb_spec c id), (Z.eqb_spec x id); subst; ring_lia.
Qed.

(** Nothing lies strictly between two points at minimal gap. *)
Lemma gap_adjacent x y c : point x → point y → point c →
  gap y x <= gap c x → ¬ in_arc c x y false false.
Proof.
  intros Hx Hy Hc Hle [Hne Hin]. unfold gap in Hle.
  destruct (Z.eqb_spec x y), (Z.eqb_spec x c); subst; ring_lia.
Qed.

Lemma gap_before x y c : point x → point y → point c →
  gap y x <= gap y c ∨ in_arc c x y false false.
Proof.
  intros Hx Hy Hc. destruct (Z.le_gt_cases (gap y x) (gap y c)) as [|Hlt]; [by left|right].
  unfold gap in Hlt. cbn. destruct (Z.eqb_spec x y), (Z.eqb_spec c y); subst; ring_lia.
Qed.

Lemma gap_inj_l x y z : point x → point y → point z → gap z x = gap z y → x = y.
Proof. intros. unfold gap in *. destruct (Z.eqb_spec x z), (Z.eqb_spec y z); subst; ring_lia. Qed.

Lemma gap_inj_r x y z : point x → point y → point z → gap x z = gap y z → x = y.
Proof. intros. unfold gap in *. destruct (Z.eqb_spec z x), (Z.eqb_spec z y); subst; ring_lia. Qed.

Lemma gap_after x y c : point x → point y → point c →
  gap y x <= gap c x ∨ in_arc c x y false false.
Proof.
  intros Hx Hy Hc. destruct (Z.le_gt_cases (gap y x) (gap c x)) as [|Hlt]; [by left|right].
  unfold gap in Hlt. cbn. destruct (Z.eqb_spec x y), (Z.eqb_spec x c); subst; ring_lia.
Qed.

Lemma gap_not_before x y c : point x → point y → point c →
  gap y x <= gap y c → ¬ in_arc c x y false false.
Proof.
  intros Hx Hy Hc Hle [Hne Hin]. unfold gap in Hle.
  destruct (Z.eqb_spec x y), (Z.eqb_spec c y); subst; ring_lia.
Qed.
