(* ===== verification/NodeInfo.v ===== *)
(** * NodeInformation: the state of one node

    Models src/dht/NodeInformation.h and src/dht/NodeInformation.cpp: the
    nested class [Node] with its cached identifier, and the state every node
    keeps (finger table, predecessor, stored data, bootstrap address), with
    the process-wide statics (replication indices, proof-of-work difficulty,
    replication limit).

    Each operation of the class takes the object's lock for its whole body,
    so an operation is one function on the state. SHA-256 and SHA-1 come from
    OpenSSL and are the parameters of [HashFns]; [HashOk] states the digest
    lengths the code relies on. *)

From S2P Require Import Prelude Util Ring.

(** ** Hash functions *)

Class HashFns := {
  sha256 : list Z → list Z;
  sha1 : list Z → list Z;
}.

(** SHA256_DIGEST_LENGTH is 32 and SHA_DIGEST_LENGTH is 20. *)
Class HashOk (H : HashFns) : Prop := {
  sha256_ok l : id_ok (sha256 l);
  sha1_ok l : bytes_ok (sha1 l) ∧ length (sha1 l) = 20%nat;
}.

(** ** NodeInformation::Node *)

Record Node := mkNode {
  m_ip : string;
  m_port : Z;
  id_valid : bool;
  m_id : list Z;
  m_explicit_id : option (list Z);
}.

#[export] Instance Node_eq_dec : EqDecision Node.
Proof. solve_decision. Defined.

(** Time points and durations of [std::chrono::system_clock], in nanoseconds
    held in a signed 64-bit count. *)
Definition time_max : Z := 2 ^ 63 - 1.

Definition ns_per_s : Z := 1000000000.

Abbreviation data_type := (gmap (list Z) (list Z * Z)).

(** ** NodeInformation *)

Record NodeInformation := mkNI {
  m_node : Node;
  m_fingerTable : list (option Node);
  m_predecessor : option Node;
  m_data : data_type;
  m_bootstrapNodeAddress : option Node;
}.

(** The static members, shared by all nodes of a process. *)
Record Statics := mkStatics {
  m_allReplicationIndices : list Z;
  m_difficulty : Z;
  m_replicationLimit : Z;
}.

Definition DEFAULT_DIFFICULTY : Z := 1.
Definition DEFAULT_REPLICATION_LIMIT : Z := 5.
Definition DEFAULT_NUM_OF_REPLICATION_TO_CALCULATE_AVERAGE : nat := 50.

Definition initial_statics : Statics :=
  mkStatics [] DEFAULT_DIFFICULTY DEFAULT_REPLICATION_LIMIT.

Section NodeOps.
Context `{HashFns}.

(** [m_ip + ":" + std::to_string(m_port)]. *)
Definition host_port (ip : string) (port : Z) : string := ip +:+ ":" +:+ to_string port.

Definition addr_id (ip : string) (port : Z) : list Z := sha256 (bytes_of_string (host_port ip port)).

Definition updateId (n : Node) : Node :=
  mkNode (m_ip n) (m_port n) true
    (match m_explicit_id n with
     | Some id => id
     | None => addr_id (m_ip n) (m_port n)
     end)
    (m_explicit_id n).

(** [Node(ip, port)]: [m_id{0}] and no explicit id, then [updateId()]. *)
Definition Node_ctor (ip : string) (port : Z) : Node :=
  updateId (mkNode ip port true (replicate id_bytes 0) None).

(** [Node(ip, port, id)]. *)
Definition Node_ctor_id (ip : string) (port : Z) (id : list Z) : Node :=
  mkNode ip port true id (Some id).

Definition Node_setIp (ip : string) (n : Node) : Node :=
  mkNode ip (m_port n) false (m_id n) (m_explicit_id n).

Definition Node_setPort (port : Z) (n : Node) : Node :=
  mkNode (m_ip n) port false (m_id n) (m_explicit_id n).

Definition Node_setId (id : option (list Z)) (n : Node) : Node :=
  mkNode (m_ip n) (m_port n) (id_valid n) (m_id n) id.

(** [getId] is const but refreshes the mutable cache: the result and the
    object afterwards. *)
Definition Node_getId_cached (n : Node) : list Z * Node :=
  let n' := if id_valid n then n else updateId n in (m_id n', n').

Definition Node_getId (n : Node) : list Z := (Node_getId_cached n).1.

Definition Node_eqb (a b : Node) : bool := bool_decide (Node_getId a = Node_getId b).

(** [Node_hash::operator()]: the bytes of the id added up in 64-bit groups,
    the groups combined with exclusive or. *)
Fixpoint Node_hash_loop (i : Z) (id : list Z) (ret tmp : Z) : Z :=
  match id with
  | [] => Z.lxor ret tmp
  | b :: id =>
      let tmp := u64 (tmp + u64 (Z.shiftl b (8 * (i `mod` 8)))) in
      if (i + 1) `mod` 8 =? 0
      then Node_hash_loop (i + 1) id (Z.lxor ret tmp) 0
      else Node_hash_loop (i + 1) id ret tmp
  end.

Definition Node_hash (n : Node) : Z := Node_hash_loop 0 (Node_getId n) 0 0.

(** ** Construction and plain accessors *)

Definition NodeInformation_ctor (host : string) (port : Z) : NodeInformation :=
  mkNI (Node_ctor host port) (replicate key_bits None) None ∅ None.

Definition getNode (s : NodeInformation) : Node := m_node s.

Definition setNode (n : Node) (s : NodeInformation) : NodeInformation :=
  mkNI n (m_fingerTable s) (m_predecessor s) (m_data s) (m_bootstrapNodeAddress s).

Definition getIp (s : NodeInformation) : string := m_ip (m_node s).

Definition setIp (ip : string) (s : NodeInformation) : NodeInformation :=
  setNode (Node_setIp ip (m_node s)) s.

Definition getPort (s : NodeInformation) : Z := m_port (m_node s).

Definition setPort (port : Z) (s : NodeInformation) : NodeInformation :=
  setNode (Node_setPort port (m_node s)) s.

Definition getId (s : NodeInformation) : list Z := Node_getId (m_node s).

Definition setId (id : option (list Z)) (s : NodeInformation) : NodeInformation :=
  setNode (Node_setId id (m_node s)) s.

Definition getBootstrapNode (s : NodeInformation) : option Node := m_bootstrapNodeAddress s.

Definition setBootstrapNode (n : option Node) (s : NodeInformation) : NodeInformation :=
  mkNI (m_node s) (m_fingerTable s) (m_predecessor s) (m_data s) n.

(** ** Finger table, successor and predecessor *)

Definition with_fingers (t : list (option Node)) (s : NodeInformation) : NodeInformation :=
  mkNI (m_node s) t (m_predecessor s) (m_data s) (m_bootstrapNodeAddress s).

Definition getFinger (index : nat) (s : NodeInformation) : outcome (option Node) :=
  match m_fingerTable s !! index with
  | Some f => Ok f
  | None => Exn "index out of bounds"
  end.

Definition setFinger (index : nat) (n : option Node) (s : NodeInformation)
    : outcome NodeInformation :=
  if (length (m_fingerTable s) <=? index)%nat then Exn "index out of bounds"
  else Ok (with_fingers (<[index := n]> (m_fingerTable s)) s).

(** The first populated finger; [m_fingerTable[0]] when there is none. *)
Definition getSuccessor (s : NodeInformation) : option Node :=
  match filter is_Some (m_fingerTable s) with
  | f :: _ => f
  | [] => default None (m_fingerTable s !! 0%nat)
  end.

Definition setSuccessor (n : option Node) (s : NodeInformation) : NodeInformation :=
  with_fingers (<[0%nat := n]> (m_fingerTable s)) s.

Definition getPredecessor (s : NodeInformation) : option Node := m_predecessor s.

Definition setPredecessor (n : option Node) (s : NodeInformation) : NodeInformation :=
  mkNI (m_node s) (m_fingerTable s) n (m_data s) (m_bootstrapNodeAddress s).

(** ** Stored data *)

Definition with_data (m : data_type) (s : NodeInformation) : NodeInformation :=
  mkNI (m_node s) (m_fingerTable s) (m_predecessor s) m (m_bootstrapNodeAddress s).

Definition getData (key : list Z) (s : NodeInformation) : option (list Z) :=
  fst <$> m_data s !! key.

Definition setDataExpires (key value : list Z) (expires : Z) (s : NodeInformation)
    : NodeInformation :=
  with_data (<[key := (value, expires)]> (m_data s)) s.

Definition setData (key value : list Z) (ttl now : Z) (s : NodeInformation) : NodeInformation :=
  setDataExpires key value (if ttl =? time_max then time_max else now + ttl) s.

(** A [std::map] is traversed in the order of its keys. *)
Definition item_le (a b : list Z * (list Z * Z)) : Prop := cpp_le a.1 b.1 = true.

#[export] Instance item_le_dec : RelDecision item_le.
Proof. intros a b. unfold item_le. apply _. Defined.

Definition std_items (m : data_type) : list (list Z * (list Z * Z)) :=
  merge_sort item_le (map_to_list m).

Definition getDataItemsForNodeId (newNode : Node) (s : NodeInformation) : data_type :=
  let new_id := Node_getId newNode in
  let pred_id := match getPredecessor s with Some p => Node_getId p | None => new_id end in
  filter (λ kv, is_in_range_loop (sha256 kv.1) pred_id new_id false true = true) (m_data s).

Definition getAllDataInNode (s : NodeInformation) : data_type := m_data s.

Definition deleteDataAssignedToPredecessor (keys : list (list Z)) (s : NodeInformation)
    : NodeInformation :=
  with_data (fold_left (λ m k, delete k m) keys (m_data s)) s.

(** One pass of the data cleaner. The clock is read once per entry:
    [clock i] is the reading for the [i]-th entry of the traversal. *)
Fixpoint clean_loop (clock : nat → Z) (i : nat) (items : list (list Z * (list Z * Z)))
    (m : data_type) : data_type :=
  match items with
  | [] => m
  | (k, (_, expires)) :: items =>
      clean_loop clock (S i) items (if expires <? clock i then delete k m else m)
  end.

Definition clean_pass (clock : nat → Z) (s : NodeInformation) : NodeInformation :=
  with_data (clean_loop clock 0 (std_items (m_data s)) (m_data s)) s.

(** ** Statics *)

Definition setReplicationIndex (replicationIndex : Z) (st : Statics) : Statics :=
  let l := m_allReplicationIndices st in
  let l' := if (length l <? DEFAULT_NUM_OF_REPLICATION_TO_CALCULATE_AVERAGE)%nat
            then l ++ [replicationIndex]
            else tail l ++ [replicationIndex] in
  mkStatics l' (m_difficulty st) (m_replicationLimit st).

(** [std::accumulate] with an initial value of type [uint8_t] accumulates in
    [uint8_t]. *)
Definition accumulate_u8 (l : list Z) : Z := fold_left (λ acc x, u8 (acc + x)) l 0.

Definition getAverageReplicationIndex (st : Statics) : option Z :=
  match m_allReplicationIndices st with
  | [] => Some (u8 0)
  | l => Some (u8 (accumulate_u8 l `div` Z.of_nat (length l)))
  end.

Definition getDifficulty (st : Statics) : Z := m_difficulty st.

Definition setDifficulty (d : Z) (st : Statics) : Statics :=
  if m_difficulty st =? DEFAULT_DIFFICULTY
  then mkStatics (m_allReplicationIndices st) d (m_replicationLimit st) else st.

Definition getReplicationLimitOnEachNode (st : Statics) : Z := m_replicationLimit st.

Definition setReplicationLimitOnEachNode (l : Z) (st : Statics) : Statics :=
  if m_replicationLimit st =? DEFAULT_REPLICATION_LIMIT
  then mkStatics (m_allReplicationIndices st) (m_difficulty st) l else st.

End NodeOps.

(** ** Lemmas: nodes *)

Section NodeLemmas.
Context `{HashFns}.

(** Nodes as the program builds them, from an address. *)
Definition canonical (n : Node) : Prop := n = Node_ctor (m_ip n) (m_port n).

Lemma canonical_ctor ip port : canonical (Node_ctor ip port).
Proof. done. Qed.

Lemma getId_ctor ip port : Node_getId (Node_ctor ip port) = addr_id ip port.
Proof. done. Qed.

Lemma getId_ok `{!HashOk H} n : canonical n → id_ok (Node_getId n).
Proof. intros ->. rewrite getId_ctor. apply sha256_ok. Qed.

Lemma canonical_eq a b : canonical a → canonical b →
  m_ip a = m_ip b → m_port a = m_port b → a = b.
Proof. intros -> ->. cbn. congruence. Qed.

(** The identifier cache is transparent: reading it twice gives the same
    identifier, and after [setIp] and [setPort] the next read is the hash of
    the new address (unless an explicit id was given). *)
Theorem getId_cache_coherent n ip port :
  Node_getId (Node_getId_cached n).2 = Node_getId n ∧
  (m_explicit_id n = None →
   Node_getId (Node_setPort port (Node_setIp ip n)) = addr_id ip port) ∧
  (∀ id, m_explicit_id n = Some id →
   Node_getId (Node_setPort port (Node_setIp ip n)) = id).
Proof.
  split_and!.
  - unfold Node_getId, Node_getId_cached. destruct (id_valid n) eqn:E; cbn; by rewrite ?E.
  - intros E. unfold Node_getId, Node_getId_cached; cbn. by rewrite E.
  - intros id E. unfold Node_getId, Node_getId_cached; cbn. by rewrite E.
Qed.

(** [setId] does not invalidate the cache: on a node whose cache is valid
    (every freshly built node) it leaves the identifier unchanged, and the new
    id only shows up after a later [setIp] or [setPort]. *)
Theorem setId_ignored_while_cached n id :
  id_valid n = true →
  Node_getId (Node_setId (Some id) n) = Node_getId n ∧
  Node_getId (Node_setPort (m_port n) (Node_setId (Some id) n)) = id.
Proof. intros E. unfold Node_getId, Node_getId_cached; cbn. by rewrite E. Qed.

(** [Node_hash] agrees with [operator==]: equal nodes have equal hashes
    whatever their addresses, so the [unordered_set] of distrusted nodes is
    a set of identifiers. *)
Theorem Node_hash_respects_eq a b : Node_eqb a b = true → Node_hash a = Node_hash b.
Proof. unfold Node_eqb, Node_hash. rewrite bool_decide_eq_true. by intros ->. Qed.

End NodeLemmas.

(** ** Lemmas: finger table *)

Section FingerLemmas.
Context `{HashFns}.
Implicit Types s : NodeInformation.

(** The table has one entry per bit of an identifier. *)
Definition table_ok s : Prop := length (m_fingerTable s) = key_bits.

Lemma table_ok_ctor host port : table_ok (NodeInformation_ctor host port).
Proof. apply length_replicate. Qed.

Lemma table_ok_setSuccessor s n : table_ok s → table_ok (setSuccessor n s).
Proof. unfold table_ok. cbn. by rewrite length_insert. Qed.

Lemma getFinger_Ok s i : table_ok s → (i < key_bits)%nat →
  ∃ f, getFinger i s = Ok f ∧ m_fingerTable s !! i = Some f.
Proof.
  unfold table_ok, getFinger. intros Hl Hi.
  destruct (lookup_lt_is_Some_2 (m_fingerTable s) i) as [f Hf]; [lia|]. exists f. by rewrite Hf.
Qed.

Lemma setFinger_Ok s i n : table_ok s → (i < key_bits)%nat →
  setFinger i n s = Ok (with_fingers (<[i := n]> (m_fingerTable s)) s).
Proof.
  unfold table_ok, setFinger. intros -> Hi. by destruct (Nat.leb_spec key_bits i); [lia|].
Qed.

Lemma filter_head_Some (l : list (option Node)) f l' :
  filter is_Some l = f :: l' →
  ∃ i n, f = Some n ∧ l !! i = Some (Some n) ∧ ∀ j, (j < i)%nat → l !! j = Some None.
Proof.
  induction l as [|[n|] l IH]; [done|..].
  - rewrite filter_cons_True by eauto. intros [= <- <-].
    exists 0%nat, n. split_and!; [done..|]. intros j Hj. lia.
  - rewrite filter_cons_False by (by intros [? ?]). intros (i & n & -> & Hi & Hj)%IH.
    exists (S i), n. split_and!; [done..|]. intros [|j] Hlt; [done|]. apply Hj. lia.
Qed.

Lemma getSuccessor_Some s n : getSuccessor s = Some n →
  ∃ i, m_fingerTable s !! i = Some (Some n) ∧
       ∀ j, (j < i)%nat → m_fingerTable s !! j = Some None.
Proof.
  unfold getSuccessor. destruct (filter is_Some (m_fingerTable s)) as [|f l] eqn:E.
  - intros Hn. destruct (m_fingerTable s !! 0%nat) as [f|] eqn:E0; [|done]. cbn in Hn. subst f.
    exists 0%nat. split; [done|]. intros j Hj. lia.
  - intros ->. destruct (filter_head_Some _ _ _ E) as (i & n' & [= <-] & Hi). eauto.
Qed.

Lemma getSuccessor_first s n :
  m_fingerTable s !! 0%nat = Some (Some n) → getSuccessor s = Some n.
Proof.
  unfold getSuccessor. destruct (m_fingerTable s) as [|f t]; [done|]. intros [= ->].
  by rewrite filter_cons_True by eauto.
Qed.

Lemma getSuccessor_setSuccessor s n : table_ok s →
  getSuccessor (setSuccessor (Some n) s) = Some n.
Proof.
  unfold table_ok. intros Hl. apply getSuccessor_first. cbn.
  apply list_lookup_insert_eq. rewrite Hl. by vm_compute; lia.
Qed.

(** [getSuccessor] is the first populated finger: it returns a node
    exactly when some entry is populated, entries below the one returned are
    all empty, and [setSuccessor] makes the node it is given the successor. *)
Theorem getSuccessor_first_populated s :
  table_ok s →
  (getSuccessor s = None ↔ ∀ i f, m_fingerTable s !! i = Some f → f = None) ∧
  (∀ n, getSuccessor s = Some n →
     ∃ i, m_fingerTable s !! i = Some (Some n) ∧
          ∀ j, (j < i)%nat → m_fingerTable s !! j = Some None) ∧
  (∀ n, getSuccessor (setSuccessor (Some n) s) = Some n).
Proof.
  intros Hok. split_and!; eauto using getSuccessor_Some, getSuccessor_setSuccessor.
  split.
  - intros Hn i [n|] Hi; [|done]. exfalso. unfold getSuccessor in Hn.
    destruct (filter is_Some (m_fingerTable s)) as [|f l] eqn:E.
    + apply (filter_nil_not_elem_of _ _ (Some n)) in E; [|eauto].
      by apply E, list_elem_of_lookup_2 with i.
    + by destruct (filter_head_Some _ _ _ E) as (? & ? & -> & ?).
  - intros Hall. destruct (getSuccessor s) as [n|] eqn:E; [|done].
    destruct (getSuccessor_Some _ _ E) as (i & Hi & _). by apply Hall in Hi.
Qed.

End FingerLemmas.

(** ** Lemmas: stored data *)

Section DataLemmas.
Context `{HashFns}.
Implicit Types (s : NodeInformation) (m : data_type).

Lemma elem_of_std_items m k v : (k, v) ∈ std_items m ↔ m !! k = Some v.
Proof. unfold std_items. by rewrite merge_sort_Permutation, elem_of_map_to_list. Qed.

Lemma NoDup_std_items m : NoDup (std_items m).*1.
Proof. unfold std_items. rewrite merge_sort_Permutation. apply NoDup_fst_map_to_list. Qed.

Lemma clean_loop_other clock i items m k :
  k ∉ items.*1 → clean_loop clock i items m !! k = m !! k.
Proof.
  revert i m. induction items as [|[k' [v e]] items IH]; intros i m Hk; [done|]. cbn in *.
  apply not_elem_of_cons in Hk as [Hne Hk]. rewrite IH by done.
  case_match; [|done]. by rewrite lookup_delete_ne.
Qed.

Lemma clean_loop_at clock i items m j k v e : NoDup items.*1 →
  items !! j = Some (k, (v, e)) →
  clean_loop clock i items m !! k = if e <? clock (i + j)%nat then None else m !! k.
Proof.
  revert i m j. induction items as [|[k' [v' e']] items IH]; intros i m j Hnd Hj; [done|].
  cbn in *. apply NoDup_cons in Hnd as [Hk Hnd]. destruct j as [|j].
  - injection Hj as -> -> ->. rewrite clean_loop_other, Nat.add_0_r by done.
    case_match; by rewrite ?lookup_delete_eq.
  - cbn in Hj. rewrite (IH _ _ _ Hnd Hj), Nat.add_succ_r. cbn.
    assert (k ≠ k') as Hne.
    { intros ->. apply Hk. apply list_elem_of_fmap_2' with (x := (k', (v, e))); [|done].
      by apply list_elem_of_lookup_2 with j. }
    case_match; [done|]. case_match; [|done]. by rewrite lookup_delete_ne.
Qed.

(** One pass of the data cleaner only ever removes entries; it removes
    every entry that had expired before the first clock reading of the pass,
    and keeps every entry that expires at or after the last reading. *)
Theorem clean_pass_spec clock s k v e :
  m_data s !! k = Some (v, e) →
  (m_data (clean_pass clock s) !! k = None ∨ m_data (clean_pass clock s) !! k = Some (v, e)) ∧
  ((∀ i, e < clock i) → m_data (clean_pass clock s) !! k = None) ∧
  ((∀ i, clock i <= e) → m_data (clean_pass clock s) !! k = Some (v, e)).
Proof.
  intros Hk. assert (∃ j, std_items (m_data s) !! j = Some (k, (v, e))) as [j Hj].
  { by apply list_elem_of_lookup_1, elem_of_std_items. }
  cbn. rewrite (clean_loop_at _ _ _ _ _ _ _ _ (NoDup_std_items _) Hj), Hk.
  cbn. split_and!.
  - case_match; auto.
  - intros Hc. specialize (Hc j). destruct (Z.ltb_spec e (clock j)); [done|lia].
  - intros Hc. specialize (Hc j). destruct (Z.ltb_spec e (clock j)); [lia|done].
Qed.

(** Storing and reading back: [getData] returns the value last stored
    under a key, other keys are untouched, the expiry is the clock plus the
    ttl (or never), and reading takes no notice of the expiry: an expired
    entry is served until the cleaner has removed it. *)
Theorem setData_getData s key value ttl now key' :
  getData key (setData key value ttl now s) = Some value ∧
  (key' ≠ key → getData key' (setData key value ttl now s) = getData key' s) ∧
  (snd <$> m_data (setData key value ttl now s) !! key
   = Some (if ttl =? time_max then time_max else now + ttl)).
Proof.
  unfold getData, setData, setDataExpires, with_data; cbn. split_and!.
  - by rewrite lookup_insert_eq.
  - intros Hne. by rewrite lookup_insert_ne.
  - by rewrite lookup_insert_eq.
Qed.

Lemma fold_delete_lookup keys m k :
  fold_left (λ m k, delete k m) keys m !! k = if decide (k ∈ keys) then None else m !! k.
Proof.
  revert m. induction keys as [|k' keys IH]; intros m; cbn [fold_left].
  { by destruct (decide (k ∈ [])) as [Hin%elem_of_nil|]. }
  rewrite IH. destruct (decide (k = k')) as [->|Hne].
  - rewrite (decide_True (P := k' ∈ k' :: keys)) by set_solver.
    by rewrite lookup_delete_eq; case_decide.
  - rewrite lookup_delete_ne by done.
    destruct (decide (k ∈ keys)), (decide (k ∈ k' :: keys)) as [Hin|Hin]; try done;
      rewrite elem_of_cons in Hin; tauto.
Qed.

End DataLemmas.

(** ** Lemmas: statics *)

Section StaticsLemmas.

Lemma setReplicationIndex_window st r l :
  m_allReplicationIndices st = drop (length l - 50) l →
  m_allReplicationIndices (setReplicationIndex r st) = drop (length (l ++ [r]) - 50) (l ++ [r]).
Proof.
  intros E. unfold setReplicationIndex, DEFAULT_NUM_OF_REPLICATION_TO_CALCULATE_AVERAGE.
  cbn [m_allReplicationIndices]. rewrite E, length_drop, length_app. cbn [length].
  destruct (Nat.ltb_spec (length l - (length l - 50)) 50).
  - replace (length l - 50)%nat with 0%nat by lia.
    replace (length l + 1 - 50)%nat with 0%nat by lia. by rewrite !drop_0.
  - rewrite drop_app_le by lia. f_equal.
    replace (length l + 1 - 50)%nat with ((length l - 50) + 1)%nat by lia.
    rewrite <- drop_drop. by destruct (drop (length l - 50) l).
Qed.

(** The replication history is a sliding window: after any sequence of
    PUTs it holds exactly the last 50 replication indices, in order. *)
Theorem replication_history_window l :
  m_allReplicationIndices (fold_left (λ st r, setReplicationIndex r st) l initial_statics)
  = drop (length l - 50) l.
Proof.
  induction l as [|r l IH] using rev_ind; [done|].
  rewrite fold_left_app. cbn [fold_left]. by apply setReplicationIndex_window.
Qed.

Lemma accumulate_u8_acc l acc :
  fold_left (λ acc x, u8 (acc + x)) l (u8 acc) = u8 (acc + fold_right Z.add 0 l).
Proof.
  revert acc. induction l as [|x l IH]; intros acc; cbn.
  { by rewrite Z.add_0_r. }
  unfold u8, wrap in *. rewrite Zplus_mod_idemp_l, IH. f_equal. lia.
Qed.

Lemma accumulate_u8_sum l : accumulate_u8 l = fold_right Z.add 0 l `mod` 256.
Proof. unfold accumulate_u8. exact (accumulate_u8_acc l 0). Qed.

(** The average replication index is computed from the sum of the window
    modulo 256: it is the integer average exactly while the sum stays below
    256, and is a [uint8_t] always. *)
Theorem average_replication_wraps st l :
  m_allReplicationIndices st = l → l ≠ [] → Forall (λ r, 0 <= r) l →
  getAverageReplicationIndex st
    = Some ((fold_right Z.add 0 l `mod` 256) `div` Z.of_nat (length l)) ∧
  (fold_right Z.add 0 l < 256 →
   getAverageReplicationIndex st = Some (fold_right Z.add 0 l `div` Z.of_nat (length l))).
Proof.
  intros <- Hne Hpos. unfold getAverageReplicationIndex.
  destruct (m_allReplicationIndices st) as [|r l] eqn:E; [done|]. rewrite <- E in *.
  assert (0 < Z.of_nat (length (m_allReplicationIndices st))) as Hl by (rewrite E; cbn; lia).
  assert (∀ l, Forall (λ r, 0 <= r) l → 0 <= fold_right Z.add 0 l) as Hsum.
  { induction 1; cbn; lia. }
  specialize (Hsum _ Hpos). rewrite accumulate_u8_sum. set (n := Z.of_nat _) in *.
  set (sum := fold_right _ _ _) in *. pose proof (Z.mod_pos_bound sum 256 ltac:(lia)).
  assert (0 <= (sum `mod` 256) `div` n < 256) as Hr.
  { split; [apply Z.div_pos; lia|]. apply Z.div_lt_upper_bound; nia. }
  unfold u8. rewrite wrap_small by exact Hr. split; [done|].
  intros. by rewrite (Z.mod_small sum) by lia.
Qed.

(** Fifty PUTs with replication 10 have average 10; the code answers 4. *)
Lemma average_replication_wraps_witness :
  getAverageReplicationIndex
    (fold_left (λ st r, setReplicationIndex r st) (replicate 50 10) initial_statics) = Some 4.
Proof.
  refine (eq_trans (proj1 (average_replication_wraps _ (replicate 50 10) _ _ _)) _);
    [reflexivity|done|apply Forall_replicate; lia|reflexivity].
Defined.

(** The difficulty and the replication limit are set at most once: a
    setter takes effect while the value is still the default and never
    again after a non-default value was set. *)
Theorem statics_set_once st d d' l l' :
  m_difficulty st = DEFAULT_DIFFICULTY → d ≠ DEFAULT_DIFFICULTY →
  m_replicationLimit st = DEFAULT_REPLICATION_LIMIT → l ≠ DEFAULT_REPLICATION_LIMIT →
  let st1 := setReplicationLimitOnEachNode l (setDifficulty d st) in
  getDifficulty st1 = d ∧ getReplicationLimitOnEachNode st1 = l ∧
  setDifficulty d' st1 = st1 ∧ setReplicationLimitOnEachNode l' st1 = st1.
Proof.
  intros Hd Hdn Hl Hln. unfold setReplicationLimitOnEachNode, setDifficulty.
  rewrite Hd, Z.eqb_refl. cbn. rewrite Hl, Z.eqb_refl. cbn.
  destruct (Z.eqb_spec d DEFAULT_DIFFICULTY), (Z.eqb_spec l DEFAULT_REPLICATION_LIMIT); done.
Qed.

End StaticsLemmas.
