(* ===== verification/Message.v ===== *)
(** * api messages: wire format and request parsing

    Models src/api/message_data.h, src/api/message_data.cpp and
    src/api/request.cpp. A message is a byte vector; the constructors read its
    header through a cast of the vector's memory to a packed struct, so the
    fields are read in host order (little-endian, as on the x86 targets of the
    Dockerfile) and swapped to network order with [util::swapBytes16].

    Reading a struct or an iterator range outside the vector is undefined
    behaviour ([UB]); an exception thrown by a constructor is [Exn]. *)

From S2P Require Import Prelude Util.

(** ** Headers *)

(** [MessageHeader::MessageHeaderRaw]: the struct as it lies in memory. *)
Record MessageHeaderRaw := mkHeaderRaw { raw_size : Z; raw_msg_type : Z }.

Record MessageHeader := mkHeader { header_size : Z; header_msg_type : Z }.

Record MessageHeaderExtendRaw := mkExtRaw { raw_ttl : Z; raw_replication : Z; raw_reserved : Z }.

Record MessageHeaderExtend := mkExt { ext_ttl : Z; ext_replication : Z; ext_reserved : Z }.

Definition MessageHeader_of_raw (raw : MessageHeaderRaw) : MessageHeader :=
  mkHeader (swapBytes16 (raw_size raw)) (swapBytes16 (raw_msg_type raw)).

Definition MessageHeader_to_raw (h : MessageHeader) : MessageHeaderRaw :=
  mkHeaderRaw (swapBytes16 (header_size h)) (swapBytes16 (header_msg_type h)).

Definition MessageHeaderExtend_of_raw (raw : MessageHeaderExtendRaw) : MessageHeaderExtend :=
  mkExt (swapBytes16 (raw_ttl raw)) (raw_replication raw) (raw_reserved raw).

Definition MessageHeaderExtend_to_raw (h : MessageHeaderExtend) : MessageHeaderExtendRaw :=
  mkExtRaw (swapBytes16 (ext_ttl h)) (ext_replication h) (ext_reserved h).

(** ** Memory access *)

(** [std::vector<uint8_t>(bytes.begin() + first, bytes.begin() + last)]. *)
Definition vec_range (bytes : list Z) (first last : nat) : outcome (list Z) :=
  if (first <=? last)%nat && (last <=? length bytes)%nat
  then Ok (take (last - first) (drop first bytes))
  else UB "iterator range outside the vector".

(** [std::copy(src.begin(), src.end(), dst.begin() + at)]. *)
Definition copy_to (dst : list Z) (at_ : nat) (src : list Z) : outcome (list Z) :=
  if (at_ + length src <=? length dst)%nat
  then Ok (take at_ dst ++ src ++ drop (at_ + length src) dst)
  else UB "write outside the vector".

(** [reinterpret_cast<MessageHeaderRaw &>(m_bytes[at])] read as a value. *)
Definition read_header (bytes : list Z) (at_ : nat) : outcome MessageHeaderRaw :=
  l ← vec_range bytes at_ (at_ + 4);
  Ok (mkHeaderRaw (le_num (take 2 l)) (le_num (drop 2 l))).

Definition write_header (bytes : list Z) (at_ : nat) (raw : MessageHeaderRaw) : outcome (list Z) :=
  copy_to bytes at_ (le_bytes 2 (raw_size raw) ++ le_bytes 2 (raw_msg_type raw)).

Definition read_ext (bytes : list Z) (at_ : nat) : outcome MessageHeaderExtendRaw :=
  l ← vec_range bytes at_ (at_ + 4);
  Ok (mkExtRaw (le_num (take 2 l)) (nth 2 l 0) (nth 3 l 0)).

Definition write_ext (bytes : list Z) (at_ : nat) (raw : MessageHeaderExtendRaw)
    : outcome (list Z) :=
  copy_to bytes at_ (le_bytes 2 (raw_ttl raw) ++ [raw_replication raw; raw_reserved raw]).

(** ** Messages *)

Record MessageData := mkData { m_bytes : list Z; m_header : MessageHeader }.

Record Message_DHT_PUT := mkPut {
  put_data : MessageData; put_ext : MessageHeaderExtend; put_key : list Z; put_value : list Z }.

Record Message_DHT_PUT_KEY_IS_HASH_OF_DATA := mkPutHash {
  ph_data : MessageData; ph_ext : MessageHeaderExtend; ph_key : list Z; ph_value : list Z }.

Record Message_DHT_SUCCESS := mkSuccess {
  succ_data : MessageData; succ_key : list Z; succ_value : list Z }.

Record Message_KEY := mkKey { key_data : MessageData; key_key : list Z }.

Record Message_DHT_GET_KEY_IS_HASH_OF_DATA := mkGetHash {
  gh_data : MessageData; gh_key : list Z }.

(** The byte sizes of the two packed headers. *)
Definition sizeof_header : nat := 4.
Definition sizeof_ext : nat := 4.

Definition MessageData_ctor (bytes : list Z) : outcome MessageData :=
  raw ← read_header bytes 0;
  Ok (mkData bytes (MessageHeader_of_raw raw)).

(** Members are initialised in declaration order, before the body runs. *)
Definition Message_DHT_PUT_decode (bytes : list Z) : outcome Message_DHT_PUT :=
  d ← MessageData_ctor bytes;
  raw ← read_ext bytes sizeof_header;
  key ← vec_range bytes (sizeof_header + sizeof_ext) (sizeof_header + sizeof_ext + 32);
  value ← vec_range bytes (sizeof_header + sizeof_ext + 32) (Z.to_nat (header_size (m_header d)));
  if header_size (m_header d) <? Z.of_nat (sizeof_header + sizeof_ext + 32)
  then Exn "Key is too small!"
  else Ok (mkPut d (MessageHeaderExtend_of_raw raw) key value).

Definition Message_DHT_PUT_encode (key value : list Z) (ttl_ replication_ : Z)
    : outcome Message_DHT_PUT :=
  let n := (sizeof_header + sizeof_ext + length key + length value)%nat in
  d ← MessageData_ctor (replicate n 0);
  let header := mkHeader (u16 (Z.of_nat n)) constants.DHT_PUT in
  let ext := mkExt ttl_ replication_ 0 in
  b1 ← write_header (m_bytes d) 0 (MessageHeader_to_raw header);
  b2 ← write_ext b1 sizeof_header (MessageHeaderExtend_to_raw ext);
  b3 ← copy_to b2 (sizeof_header + sizeof_ext) key;
  b4 ← copy_to b3 (sizeof_header + sizeof_ext + length key) value;
  Ok (mkPut (mkData b4 header) ext [] []).

Definition Message_DHT_PUT_KEY_IS_HASH_OF_DATA_decode (bytes : list Z)
    : outcome Message_DHT_PUT_KEY_IS_HASH_OF_DATA :=
  d ← MessageData_ctor bytes;
  raw ← read_ext bytes sizeof_header;
  value ← vec_range bytes (sizeof_header + sizeof_ext) (Z.to_nat (header_size (m_header d)));
  if header_size (m_header d) <? Z.of_nat (sizeof_header + sizeof_ext)
  then Exn "Message is too small!"
  else Ok (mkPutHash d (MessageHeaderExtend_of_raw raw) value value).

Definition Message_DHT_SUCCESS_decode (bytes : list Z) : outcome Message_DHT_SUCCESS :=
  d ← MessageData_ctor bytes;
  key ← vec_range bytes (sizeof_header + sizeof_ext) (sizeof_header + sizeof_ext + 32);
  value ← vec_range bytes (sizeof_header + sizeof_ext + 32) (Z.to_nat (header_size (m_header d)));
  if header_size (m_header d) <? Z.of_nat (sizeof_header + 32)
  then Exn "Key is too small!"
  else Ok (mkSuccess d key value).

Definition Message_DHT_SUCCESS_encode (key value : list Z) : outcome Message_DHT_SUCCESS :=
  let n := (sizeof_header + length key + length value)%nat in
  d ← MessageData_ctor (replicate n 0);
  let header := mkHeader (u16 (Z.of_nat n)) constants.DHT_SUCCESS in
  b1 ← write_header (m_bytes d) 0 (MessageHeader_to_raw header);
  b2 ← copy_to b1 sizeof_header key;
  b3 ← copy_to b2 (sizeof_header + length key) value;
  Ok (mkSuccess (mkData b3 header) [] []).

Definition Message_KEY_decode (bytes : list Z) : outcome Message_KEY :=
  d ← MessageData_ctor bytes;
  key ← vec_range bytes sizeof_header (sizeof_header + 32);
  if header_size (m_header d) <? Z.of_nat (sizeof_header + 32)
  then Exn "Key is too small!"
  else Ok (mkKey d key).

(** The encoders of [Message_KEY] and [Message_DHT_GET_KEY_IS_HASH_OF_DATA]
    have the same body. *)
Definition encode_key_message (msg_type_ : Z) (key : list Z) : outcome MessageData :=
  let n := (sizeof_header + length key)%nat in
  d ← MessageData_ctor (replicate n 0);
  let header := mkHeader (u16 (Z.of_nat n)) msg_type_ in
  b1 ← write_header (m_bytes d) 0 (MessageHeader_to_raw header);
  b2 ← copy_to b1 sizeof_header key;
  Ok (mkData b2 header).

Definition Message_KEY_encode (msg_type_ : Z) (key : list Z) : outcome Message_KEY :=
  d ← encode_key_message msg_type_ key; Ok (mkKey d []).

Definition Message_DHT_GET_KEY_IS_HASH_OF_DATA_decode (bytes : list Z)
    : outcome Message_DHT_GET_KEY_IS_HASH_OF_DATA :=
  d ← MessageData_ctor bytes;
  key ← vec_range bytes sizeof_header (length bytes);
  if header_size (m_header d) <? Z.of_nat sizeof_header
  then Exn "Key is too small!"
  else Ok (mkGetHash d key).

Definition Message_DHT_GET_KEY_IS_HASH_OF_DATA_encode (msg_type_ : Z) (key : list Z)
    : outcome Message_DHT_GET_KEY_IS_HASH_OF_DATA :=
  d ← encode_key_message msg_type_ key; Ok (mkGetHash d []).

(** ** Request *)

(** The dynamic type behind [std::unique_ptr<MessageData>]. *)
Inductive Message :=
| MsgPut (m : Message_DHT_PUT)
| MsgKey (m : Message_KEY)
| MsgPutHash (m : Message_DHT_PUT_KEY_IS_HASH_OF_DATA)
| MsgGetHash (m : Message_DHT_GET_KEY_IS_HASH_OF_DATA).

Definition Message_data (m : Message) : MessageData :=
  match m with
  | MsgPut m => put_data m
  | MsgKey m => key_data m
  | MsgPutHash m => ph_data m
  | MsgGetHash m => gh_data m
  end.

Record Request := mkRequest { m_rawBytes : list Z; m_decodedData : Message }.

Definition Request_ctor (header : MessageHeader) (bytes : list Z) : outcome Request :=
  if Z.of_nat (length bytes) <? header_size header
  then Exn "buffer smaller than specified in header"
  else
    m ← (if header_msg_type header =? constants.DHT_PUT then
           m ← Message_DHT_PUT_decode bytes; Ok (MsgPut m)
         else if header_msg_type header =? constants.DHT_GET then
           m ← Message_KEY_decode bytes; Ok (MsgKey m)
         else if header_msg_type header =? constants.DHT_PUT_KEY_IS_HASH_OF_DATA then
           m ← Message_DHT_PUT_KEY_IS_HASH_OF_DATA_decode bytes; Ok (MsgPutHash m)
         else if header_msg_type header =? constants.DHT_GET_KEY_IS_HASH_OF_DATA then
           m ← Message_DHT_GET_KEY_IS_HASH_OF_DATA_decode bytes; Ok (MsgGetHash m)
         else Exn ("message type incorrect: " +:+ to_string (header_msg_type header)));
    Ok (mkRequest bytes m).

Definition getBytes (r : Request) : list Z := m_rawBytes r.

(** ** Lemmas: the wire format *)

(** A 16-bit value in network order. *)
Definition be16 (x : Z) : list Z := reverse (le_bytes 2 x).

Definition header_bytes (size_ type_ : Z) : list Z := be16 size_ ++ be16 type_.

Definition ext_bytes (ttl_ replication_ reserved_ : Z) : list Z :=
  be16 ttl_ ++ [replication_; reserved_].

Lemma length_be16 x : length (be16 x) = 2%nat.
Proof. done. Qed.

Lemma be16_written x : le_bytes 2 (swapBytes16 x) = be16 x.
Proof. rewrite swapBytes16_bytes. apply le_bytes_swap. Qed.

Lemma be16_read x : 0 <= x < 2 ^ 16 → swapBytes16 (le_num (be16 x)) = x.
Proof. intros. unfold be16. rewrite <- swapBytes16_bytes. by apply swap_involutive16. Qed.

Lemma vec_range_app (a x b : list Z) i j :
  i = length a → j = (length a + length x)%nat → vec_range (a ++ x ++ b) i j = Ok x.
Proof.
  intros -> ->. unfold vec_range. rewrite !length_app.
  destruct (Nat.leb_spec (length a) (length a + length x)); [|lia].
  destruct (Nat.leb_spec (length a + length x) (length a + (length x + length b))); [|lia].
  cbn. rewrite drop_app_length. f_equal.
  replace (length a + length x - length a)%nat with (length x) by lia. by rewrite take_app_length.
Qed.

(** The middle part of a buffer, given how the buffer splits. *)
Lemma vec_range_mid (l a x b : list Z) i j :
  l = a ++ x ++ b → i = length a → j = (length a + length x)%nat → vec_range l i j = Ok x.
Proof. intros ->. apply vec_range_app. Qed.

Lemma vec_range_Ok l i j : (i <= j)%nat → (j <= length l)%nat →
  vec_range l i j = Ok (take (j - i) (drop i l)).
Proof.
  intros. unfold vec_range. destruct (Nat.leb_spec i j), (Nat.leb_spec j (length l)); lia || done.
Qed.

Lemma vec_range_UB l i j : (j < i)%nat ∨ (length l < j)%nat →
  vec_range l i j = UB "iterator range outside the vector".
Proof.
  intros. unfold vec_range. destruct (Nat.leb_spec i j), (Nat.leb_spec j (length l)); lia || done.
Qed.

Lemma copy_to_app (a x b src : list Z) i :
  i = length a → length x = length src → copy_to (a ++ x ++ b) i src = Ok (a ++ src ++ b).
Proof.
  intros -> Hx. unfold copy_to. rewrite !length_app.
  destruct (Nat.leb_spec (length a + length src) (length a + (length x + length b))); [|lia].
  rewrite take_app_length. do 3 f_equal.
  rewrite <- Hx. rewrite app_assoc, <- length_app. by rewrite drop_app_length.
Qed.

Lemma write_header_app (x b : list Z) h : length x = 4%nat →
  write_header (x ++ b) 0 (MessageHeader_to_raw h)
  = Ok (header_bytes (header_size h) (header_msg_type h) ++ b).
Proof.
  intros. unfold write_header. cbn [raw_size raw_msg_type MessageHeader_to_raw].
  rewrite !be16_written. by apply (copy_to_app [] x b).
Qed.

Lemma write_ext_app (a x b : list Z) i h : i = length a → length x = 4%nat →
  write_ext (a ++ x ++ b) i (MessageHeaderExtend_to_raw h)
  = Ok (a ++ ext_bytes (ext_ttl h) (ext_replication h) (ext_reserved h) ++ b).
Proof.
  intros. unfold write_ext. cbn [raw_ttl raw_replication raw_reserved MessageHeaderExtend_to_raw].
  rewrite !be16_written. by rewrite copy_to_app.
Qed.

Lemma read_header_app h rest :
  0 <= header_size h < 2 ^ 16 → 0 <= header_msg_type h < 2 ^ 16 →
  MessageData_ctor (header_bytes (header_size h) (header_msg_type h) ++ rest)
  = Ok (mkData (header_bytes (header_size h) (header_msg_type h) ++ rest) h).
Proof.
  intros. unfold MessageData_ctor, read_header, header_bytes.
  rewrite (vec_range_app [] (be16 (header_size h) ++ be16 (header_msg_type h)) rest) by done.
  cbn [mbind outcome_bind].
  change 2%nat with (length (be16 (header_size h))) at 1 2.
  rewrite take_app_length, drop_app_length. unfold MessageHeader_of_raw; cbn [raw_size raw_msg_type].
  rewrite !be16_read by done. by destruct h.
Qed.

Lemma read_ext_app (a rest : list Z) i h : i = length a → 0 <= ext_ttl h < 2 ^ 16 →
  ∃ raw, read_ext (a ++ ext_bytes (ext_ttl h) (ext_replication h) (ext_reserved h) ++ rest) i = Ok raw
         ∧ MessageHeaderExtend_of_raw raw = h.
Proof.
  intros -> Ht. eexists. unfold read_ext. rewrite vec_range_app by done. split; [done|].
  unfold MessageHeaderExtend_of_raw, ext_bytes; cbn [raw_ttl raw_replication raw_reserved].
  change 2%nat with (length (be16 (ext_ttl h))) at 1. rewrite take_app_length.
  rewrite be16_read by done. by destruct h.
Qed.

(** The zero-filled buffer of an encoder, split at its fields. *)
Lemma zero_buffer_ctor n : ∃ h, MessageData_ctor (replicate (4 + n) 0)
  = Ok (mkData (replicate (4 + n) 0) h).
Proof.
  unfold MessageData_ctor, read_header. rewrite vec_range_Ok by (rewrite ?length_replicate; lia).
  cbn. eauto.
Qed.

Lemma put_encode_bytes key value t r :
  let n := (8 + length key + length value)%nat in
  let h := mkHeader (u16 (Z.of_nat n)) constants.DHT_PUT in
  Message_DHT_PUT_encode key value t r
  = Ok (mkPut (mkData (header_bytes (header_size h) constants.DHT_PUT ++
                       ext_bytes t r 0 ++ key ++ value) h) (mkExt t r 0) [] []).
Proof.
  intros n h. unfold Message_DHT_PUT_encode.
  change (sizeof_header + sizeof_ext + length key + length value)%nat
    with (4 + (4 + length key + length value))%nat.
  destruct (zero_buffer_ctor (4 + length key + length value)) as [h0 ->]. cbn [mbind outcome_bind m_bytes].
  rewrite !replicate_add, <- !app_assoc.
  rewrite (write_header_app (replicate 4 0)) by done. cbn [mbind outcome_bind app].
  rewrite (write_ext_app (header_bytes _ _) (replicate 4 0)) by done. cbn [mbind outcome_bind].
  rewrite app_assoc, (copy_to_app _ (replicate (length key) 0)) by (rewrite ?length_replicate; done).
  cbn [mbind outcome_bind]. rewrite app_assoc.
  rewrite <- (app_nil_r (replicate (length value) 0)).
  rewrite copy_to_app by (rewrite ?length_app, ?length_replicate; done).
  cbn [mbind outcome_bind]. by rewrite app_nil_r, <- !app_assoc.
Qed.

Lemma encode_key_bytes t key :
  let h := mkHeader (u16 (Z.of_nat (4 + length key))) t in
  encode_key_message t key = Ok (mkData (header_bytes (header_size h) t ++ key) h).
Proof.
  intros h. unfold encode_key_message. change (sizeof_header + length key)%nat with (4 + length key)%nat.
  destruct (zero_buffer_ctor (length key)) as [h0 ->]. cbn [mbind outcome_bind m_bytes].
  rewrite replicate_add, (write_header_app (replicate 4 0)) by done. cbn [mbind outcome_bind app].
  rewrite <- (app_nil_r (replicate (length key) 0)).
  rewrite copy_to_app by (rewrite ?length_replicate; done). cbn. by rewrite app_nil_r.
Qed.

Lemma success_encode_bytes key value :
  let n := (4 + length key + length value)%nat in
  let h := mkHeader (u16 (Z.of_nat n)) constants.DHT_SUCCESS in
  Message_DHT_SUCCESS_encode key value
  = Ok (mkSuccess (mkData (header_bytes (header_size h) constants.DHT_SUCCESS ++ key ++ value) h) [] []).
Proof.
  intros n h. unfold Message_DHT_SUCCESS_encode.
  change (sizeof_header + length key + length value)%nat with (4 + (length key + length value))%nat.
  destruct (zero_buffer_ctor (length key + length value)) as [h0 ->]. cbn [mbind outcome_bind m_bytes].
  rewrite !replicate_add, (write_header_app (replicate 4 0)) by done. cbn [mbind outcome_bind app].
  rewrite (copy_to_app _ (replicate (length key) 0)) by (rewrite ?length_replicate; done).
  cbn [mbind outcome_bind]. rewrite app_assoc, <- (app_nil_r (replicate (length value) 0)).
  rewrite copy_to_app by (rewrite ?length_app, ?length_replicate; done).
  cbn [mbind outcome_bind]. by rewrite app_nil_r, <- !app_assoc.
Qed.

(** ** Theorems: round trips *)

Lemma length_header_bytes a b : length (header_bytes a b) = 4%nat.
Proof. done. Qed.

Lemma length_ext_bytes a b c : length (ext_bytes a b c) = 4%nat.
Proof. done. Qed.

Lemma u16_small n : Z.of_nat n < 2 ^ 16 → u16 (Z.of_nat n) = Z.of_nat n.
Proof. intros. apply wrap_small. lia. Qed.

(** Sizes of the fields of a concrete buffer. *)
Ltac wire_lia :=
  cbn [header_size header_msg_type length];
  rewrite ?length_app, ?length_header_bytes, ?length_ext_bytes, ?length_drop in *;
  unfold sizeof_header, sizeof_ext, constants.DHT_PUT, constants.DHT_GET, constants.DHT_SUCCESS in *;
  lia.

Lemma put_decode_bytes key value t r s :
  length key = 32%nat → s = Z.of_nat (40 + length value) → s < 2 ^ 16 → 0 <= t < 2 ^ 16 →
  let bytes := header_bytes s constants.DHT_PUT ++ ext_bytes t r 0 ++ key ++ value in
  Message_DHT_PUT_decode bytes
  = Ok (mkPut (mkData bytes (mkHeader s constants.DHT_PUT)) (mkExt t r 0) key value).
Proof.
  intros Hk Hs Hlt Ht bytes. unfold Message_DHT_PUT_decode. subst bytes.
  set (hb := header_bytes s constants.DHT_PUT).
  rewrite (read_header_app (mkHeader s constants.DHT_PUT)) by wire_lia.
  cbn [mbind outcome_bind m_header header_size].
  destruct (read_ext_app hb (key ++ value) sizeof_header (mkExt t r 0)) as (raw & Hr & Hraw); [done..|].
  cbn [ext_ttl ext_replication ext_reserved] in Hr. rewrite Hr. cbn [mbind outcome_bind].
  rewrite (vec_range_mid _ (hb ++ ext_bytes t r 0) key value (sizeof_header + sizeof_ext))
    by (done || (by rewrite <- !app_assoc) || (subst hb; wire_lia)).
  cbn [mbind outcome_bind]. rewrite (vec_range_mid _ (hb ++ ext_bytes t r 0 ++ key) value [])
    by ((by rewrite app_nil_r, <- !app_assoc) || (subst hb; wire_lia)).
  cbn [mbind outcome_bind].
  destruct (Z.ltb_spec s (Z.of_nat (sizeof_header + sizeof_ext + 32))); [wire_lia|].
  by rewrite Hraw.
Qed.

(** C32: A DHT_PUT message survives the wire: for a 32-byte key and a value
    that fits the 16-bit size field, parsing the bytes built by the encoding
    constructor with the header they carry yields a request with the same
    key, value, ttl and replication. *)
Theorem put_roundtrip key value t r :
  length key = 32%nat → Z.of_nat (40 + length value) < 2 ^ 16 → 0 <= t < 2 ^ 16 →
  ∃ m req m',
    Message_DHT_PUT_encode key value t r = Ok m ∧
    Request_ctor (m_header (put_data m)) (m_bytes (put_data m)) = Ok req ∧
    m_decodedData req = MsgPut m' ∧
    put_key m' = key ∧ put_value m' = value ∧ put_ext m' = mkExt t r 0.
Proof.
  intros Hk Hv Ht. rewrite put_encode_bytes. set (s := u16 _). eexists _, _, _.
  assert (s = Z.of_nat (40 + length value)) as Hs.
  { subst s. rewrite Hk, u16_small by lia. done. }
  split; [done|]. cbn [put_data m_header m_bytes]. unfold Request_ctor. cbn [header_size header_msg_type].
  set (bytes := header_bytes _ _ ++ _). destruct (Z.ltb_spec (Z.of_nat (length bytes)) s).
  { subst bytes. wire_lia. }
  subst bytes. rewrite Z.eqb_refl, put_decode_bytes by (done || lia). cbn. split_and!; done.
Qed.

Lemma put_roundtrip_witness : ∃ m req m',
    Message_DHT_PUT_encode (replicate 32 7) [1; 2; 3] 300 4 = Ok m ∧
    Request_ctor (m_header (put_data m)) (m_bytes (put_data m)) = Ok req ∧
    m_decodedData req = MsgPut m' ∧
    put_key m' = replicate 32 7 ∧ put_value m' = [1; 2; 3] ∧ put_ext m' = mkExt 300 4 0.
Proof. apply (put_roundtrip (replicate 32 7) [1; 2; 3] 300 4); [done|cbn [length]; lia|lia]. Defined.

(** A DHT_GET or DHT_FAILURE style key message survives the wire for every
    32-byte key: [Message_KEY] decodes to the key it was built from, with the
    message type in the header. *)
Theorem key_roundtrip t key :
  length key = 32%nat → 0 <= t < 2 ^ 16 →
  ∃ m, Message_KEY_encode t key = Ok m ∧
    Message_KEY_decode (m_bytes (key_data m))
    = Ok (mkKey (mkData (m_bytes (key_data m)) (mkHeader 36 t)) key).
Proof.
  intros Hk Ht. unfold Message_KEY_encode. rewrite encode_key_bytes, Hk. eexists. split; [done|].
  cbn [key_data m_bytes header_size]. change (u16 (Z.of_nat (4 + 32))) with 36.
  unfold Message_KEY_decode. rewrite (read_header_app (mkHeader 36 t)) by wire_lia.
  cbn [mbind outcome_bind m_header header_size].
  by rewrite (vec_range_mid _ (header_bytes 36 t) key []) by (by rewrite ?app_nil_r, ?Hk).
Qed.

Lemma key_roundtrip_witness : ∃ m, Message_KEY_encode constants.DHT_GET (replicate 32 7) = Ok m ∧
    Message_KEY_decode (m_bytes (key_data m))
    = Ok (mkKey (mkData (m_bytes (key_data m)) (mkHeader 36 constants.DHT_GET)) (replicate 32 7)).
Proof. apply key_roundtrip; [done|cbv; intuition discriminate]. Defined.

(** [Message_DHT_SUCCESS] does not survive its own round trip: the encoder
    writes key and value right after the 4-byte header, the decoder skips a
    further 4-byte extended header that is not there, so the decoded key is
    the last 28 bytes of the key followed by 4 bytes of the value, and the
    value has lost its first 4 bytes. *)
Theorem success_roundtrip_shifted key v0 value :
  length key = 32%nat → length v0 = 4%nat → Z.of_nat (40 + length value) < 2 ^ 16 →
  ∃ m m', Message_DHT_SUCCESS_encode key (v0 ++ value) = Ok m ∧
    Message_DHT_SUCCESS_decode (m_bytes (succ_data m)) = Ok m' ∧
    succ_key m' = drop 4 key ++ v0 ∧ succ_value m' = value.
Proof.
  intros Hk Hv Hlt. rewrite success_encode_bytes. set (s := u16 _). eexists _, _. split; [done|].
  cbn [succ_data m_bytes]. assert (s = Z.of_nat (40 + length value)) as Hs.
  { subst s. rewrite Hk, length_app, Hv, u16_small by lia. done. }
  unfold Message_DHT_SUCCESS_decode.
  set (hb := header_bytes s constants.DHT_SUCCESS).
  rewrite (read_header_app (mkHeader s constants.DHT_SUCCESS)) by wire_lia.
  cbn [mbind outcome_bind m_header header_size].
  assert (hb ++ key ++ v0 ++ value = (hb ++ take 4 key) ++ (drop 4 key ++ v0) ++ value) as Hb.
  { rewrite <- (take_drop 4 key) at 1. by rewrite <- !app_assoc. }
  assert (length (take 4 key) = 4%nat) as Ht by (rewrite length_take; lia).
  rewrite (vec_range_mid _ (hb ++ take 4 key) (drop 4 key ++ v0) value (sizeof_header + sizeof_ext))
    by (done || (subst hb; wire_lia)).
  cbn [mbind outcome_bind].
  rewrite (vec_range_mid _ ((hb ++ take 4 key) ++ (drop 4 key ++ v0)) value [])
    by ((by rewrite app_nil_r, <- app_assoc) || (subst hb; wire_lia)).
  cbn [mbind outcome_bind].
  destruct (Z.ltb_spec s (Z.of_nat (sizeof_header + 32))); [wire_lia|]. done.
Qed.

Lemma success_roundtrip_shifted_witness : ∃ m m',
    Message_DHT_SUCCESS_encode (replicate 32 7) ([1; 2; 3; 4] ++ [5]) = Ok m ∧
    Message_DHT_SUCCESS_decode (m_bytes (succ_data m)) = Ok m' ∧
    succ_key m' = drop 4 (replicate 32 7) ++ [1; 2; 3; 4] ∧ succ_value m' = [5].
Proof. apply (success_roundtrip_shifted (replicate 32 7) [1; 2; 3; 4] [5]); [done..|cbn [length]; lia]. Defined.

(** ** Theorems: parsing safety *)

(** A buffer as a connection delivers it: exactly as long as its header says,
    parsed with the header at its front. *)
Definition framed (h : MessageHeader) (bytes : list Z) : Prop :=
  MessageData_ctor bytes = Ok (mkData bytes h) ∧ Z.of_nat (length bytes) = header_size h.

Lemma framed_length h bytes : framed h bytes → (4 <= length bytes)%nat.
Proof.
  intros [H _]. unfold MessageData_ctor, read_header in H.
  destruct (decide (4 <= length bytes)%nat); [done|]. by rewrite vec_range_UB in H by lia.
Qed.

(** Message sizes below which a parser reads outside the buffer. *)
Definition unsafe_size (type_ : Z) : Z :=
  if type_ =? constants.DHT_PUT then 40
  else if type_ =? constants.DHT_GET then 36
  else if type_ =? constants.DHT_PUT_KEY_IS_HASH_OF_DATA then 8
  else 0.

Definition known_type (type_ : Z) : bool :=
  (type_ =? constants.DHT_PUT) || (type_ =? constants.DHT_GET)
  || (type_ =? constants.DHT_PUT_KEY_IS_HASH_OF_DATA)
  || (type_ =? constants.DHT_GET_KEY_IS_HASH_OF_DATA).

Lemma vec_range_cases l i j :
  (∃ x, vec_range l i j = Ok x ∧ (i <= j <= length l)%nat)
  ∨ ((j < i)%nat ∨ (length l < j)%nat) ∧ vec_range l i j = UB "iterator range outside the vector".
Proof.
  destruct (decide (i <= j)%nat), (decide (j <= length l)%nat);
    rewrite ?vec_range_Ok, ?vec_range_UB by lia; eauto with lia; right; split; lia || done.
Qed.

(** Follow a parser through its range reads, then decide the sizes. *)
Ltac parse_cases h bytes :=
  repeat (match goal with
  | |- context [vec_range bytes ?i ?j] =>
      let x := fresh "x" in let E := fresh "E" in let R := fresh "R" in
      destruct (vec_range_cases bytes i j) as [(x & E & R)|(R & E)]; rewrite E;
      unfold sizeof_header, sizeof_ext in *
  end; cbn [mbind outcome_bind m_header is_Ok is_Exn is_UB]);
  unfold sizeof_header, sizeof_ext in *;
  repeat match goal with
  | |- context [?a <? ?b] => destruct (Z.ltb_spec a b)
  | |- context [?a <=? ?b] => destruct (Z.leb_spec a b)
  end; cbn; try lia; done.

(** C33: Parsing a framed buffer. It succeeds for a known type and a size at
    least [unsafe_size]; it throws exactly for an unknown type; for a known
    type with a smaller size it reads outside the buffer, because the key and
    value ranges are copied before the constructors check the size. *)
Theorem request_framed_cases h bytes :
  framed h bytes →
  let o := Request_ctor h bytes in
  is_Exn o = negb (known_type (header_msg_type h)) ∧
  is_UB o = known_type (header_msg_type h) && (header_size h <? unsafe_size (header_msg_type h)) ∧
  is_Ok o = known_type (header_msg_type h) && (unsafe_size (header_msg_type h) <=? header_size h).
Proof.
  intros Hf o. pose proof (framed_length _ _ Hf) as H4. destruct Hf as [Hd Hl].
  subst o. unfold Request_ctor. rewrite Hl, Z.ltb_irrefl. unfold known_type, unsafe_size.
  destruct (Z.eqb_spec (header_msg_type h) constants.DHT_PUT); cbn [orb negb andb].
  { unfold Message_DHT_PUT_decode. rewrite Hd. cbn [mbind outcome_bind m_header].
    unfold read_ext. parse_cases h bytes. }
  destruct (Z.eqb_spec (header_msg_type h) constants.DHT_GET); cbn [orb negb andb].
  { unfold Message_KEY_decode. rewrite Hd. cbn [mbind outcome_bind m_header]. parse_cases h bytes. }
  destruct (Z.eqb_spec (header_msg_type h) constants.DHT_PUT_KEY_IS_HASH_OF_DATA); cbn [orb negb andb].
  { unfold Message_DHT_PUT_KEY_IS_HASH_OF_DATA_decode. rewrite Hd. cbn [mbind outcome_bind m_header].
    unfold read_ext. parse_cases h bytes. }
  destruct (Z.eqb_spec (header_msg_type h) constants.DHT_GET_KEY_IS_HASH_OF_DATA); cbn [orb negb andb].
  { unfold Message_DHT_GET_KEY_IS_HASH_OF_DATA_decode. rewrite Hd. cbn [mbind outcome_bind m_header].
    parse_cases h bytes. }
  done.
Qed.

Lemma request_framed_cases_witness :
  let bytes := header_bytes 8 constants.DHT_GET ++ [1; 2; 3; 4] in
  framed (mkHeader 8 constants.DHT_GET) bytes ∧
  is_UB (Request_ctor (mkHeader 8 constants.DHT_GET) bytes) = true.
Proof.
  intros bytes. assert (framed (mkHeader 8 constants.DHT_GET) bytes) as Hf by done.
  split; [exact Hf|]. exact (proj1 (proj2 (request_framed_cases _ _ Hf))).
Defined.
