(* ===== verification/Peer.v ===== *)
(** * PeerImpl: the peer-to-peer interface

    Models src/dht/Peer.h, src/dht/Peer.cpp and the interface of
    src/dht/schemas/peer.capnp. A request of the schema is a value of
    [PeerRequest A], indexed by the type of its results. The server methods
    and the client methods are computations over an environment [PeerEnv],
    which is what [PeerImpl] has at hand: its own [NodeInformation], the
    statics, the clock and remote calls. A remote call that fails is an
    exception ([Exn]) of the promise.

    Promises resolve in the node's event loop, one at a time; a [.then] chain
    is a sequence of binds and its error continuation is that of [promise_then]. *)

From S2P Require Import Prelude Util Ring NodeInfo.

(** ** peer.capnp *)

Record WireNode := mkWireNode { wn_id : list Z; wn_ip : string; wn_port : Z }.

Record DataItem := mkDataItem { di_key : list Z; di_data : list Z; di_expires : Z }.

Inductive PeerRequest : Type → Type :=
| GetSuccessorReq (id : list Z) : PeerRequest (option WireNode)
| GetClosestPrecedingReq (id : list Z) : PeerRequest (option WireNode * option WireNode)
| GetPredecessorReq : PeerRequest (option WireNode)
| NotifyReq (node : WireNode) : PeerRequest unit
| GetDataReq (key : list Z) : PeerRequest (option (list Z))
| SetDataReq (key value : list Z) (ttl : Z) : PeerRequest unit
| GetDataItemsOnJoinReq (newNode : WireNode) : PeerRequest (list DataItem)
| GetPoWPuzzleOnJoinReq (newNode : WireNode) : PeerRequest (string * Z)
| SendPoWPuzzleResponseReq (newNode : WireNode) (response hash : string)
    : PeerRequest (option (option WireNode)).

(** What a [PeerImpl] computes with. *)
Class PeerEnv (W : Type) := {
  env_ni : M W NodeInformation;
  env_update : (NodeInformation → NodeInformation) → M W unit;
  env_statics : M W Statics;
  env_set_statics : (Statics → Statics) → M W unit;
  env_now : M W Z;
  env_rpc {A} : string → Z → PeerRequest A → M W A;
}.

(** [PeerImpl::GetSuccessorMethod]. *)
Inductive GetSuccessorMethod := PASS_ON | LOCAL.

Record ClosestPrecedingPair := mkCPP {
  closestPreceding : option Node;
  cpp_successor : option Node;
}.

(** ** Conversions *)

Section Conversion.
Context `{HashFns}.

(** The transmitted id is not used: the node's id is recomputed. *)
Definition nodeFromReader (w : WireNode) : Node := Node_ctor (wn_ip w) (wn_port w).

Definition nodeFromReader_opt (w : option WireNode) : option Node := nodeFromReader <$> w.

Definition buildNode (n : Node) : WireNode := mkWireNode (Node_getId n) (m_ip n) (m_port n).

Definition buildNode_opt (n : option Node) : option WireNode := buildNode <$> n.

Definition idFromReader (id : list Z) : list Z :=
  let n := Nat.min (length id) id_bytes in take n id ++ replicate (id_bytes - n) 0.

(** [ttl > 0 ? std::chrono::seconds(ttl) : duration::max()]. *)
Definition ttl_duration (ttl : Z) : Z := if 0 <? ttl then ttl * ns_per_s else time_max.

(** The expiry of an item on the wire, in whole seconds since the epoch. *)
Definition expires_to_wire (expires : Z) : Z := u64 (Z.quot expires ns_per_s).

(** [time_point{std::chrono::seconds{n}}]: the conversion to nanoseconds is a
    signed 64-bit multiplication. *)
Definition expires_from_wire (e : Z) : outcome Z :=
  let ns := s64 e * ns_per_s in
  if (- 2 ^ 63 <=? ns) && (ns <=? time_max) then Ok ns else UB "signed overflow".

(** [PeerImpl::getClosestPreceding(id)]: fingers from the highest index down. *)
Fixpoint closest_preceding_loop (i : nat) (id : list Z) (s : NodeInformation)
    : outcome (option Node) :=
  match i with
  | O => Ok None
  | S i =>
      finger ← getFinger i s;
      match finger with
      | Some f =>
          if is_in_range_loop (Node_getId f) (getId s) id false false
          then Ok (Some f) else closest_preceding_loop i id s
      | None => closest_preceding_loop i id s
      end
  end.

Definition getClosestPreceding (id : list Z) (s : NodeInformation) : outcome (option Node) :=
  closest_preceding_loop key_bits id s.

(** The proof-of-work digest: the bits of SHA-1 as a string of 0 and 1. *)
Definition pow_digest (response : string) : outcome string :=
  d ← bytedump (sha1 (bytes_of_string response)) 20;
  Ok (strip_space d).

Definition pow_target (difficulty : Z) : string := string_repeat (Z.to_nat difficulty) "0"%char.

(** [digest.substr(0, difficulty) == strDifficulty]. *)
Definition pow_leading (difficulty : Z) (digest : string) : bool :=
  bool_decide (string_prefix (Z.to_nat difficulty) digest = pow_target difficulty).

End Conversion.

Section PeerImpl.
Context `{HashFns} {W : Type} `{PeerEnv W}.

(** ** Server methods without remote calls *)

Definition srv_getClosestPreceding (id : list Z) : M W (option WireNode * option WireNode) :=
  s ← env_ni;
  preceding ← lift (getClosestPreceding (idFromReader id) s);
  mret (buildNode_opt preceding, buildNode_opt (getSuccessor s)).

Definition srv_getPredecessor : M W (option WireNode) :=
  s ← env_ni; mret (buildNode_opt (getPredecessor s)).

Definition srv_notify (w : WireNode) : M W unit :=
  let node := nodeFromReader w in
  s ← env_ni;
  match getPredecessor s with
  | None => env_update (setPredecessor (Some node))
  | Some pred =>
      if is_in_range_loop (Node_getId node) (Node_getId pred) (getId s) false false
      then env_update (setPredecessor (Some node)) else mret tt
  end.

Definition srv_getData (key : list Z) : M W (option (list Z)) :=
  s ← env_ni; mret (getData key s).

Definition srv_setData (key value : list Z) (ttl : Z) : M W unit :=
  now ← env_now; env_update (setData key value (ttl_duration ttl) now).

Definition srv_getDataItemsOnJoin (w : WireNode) : M W (list DataItem) :=
  let newNode := nodeFromReader w in
  s ← env_ni;
  match getPredecessor s with
  | None => undefined "dereference of an empty optional"
  | Some pred =>
      if negb (is_in_range_loop (Node_getId newNode) (Node_getId pred) (getId s) false false)
      then mret []
      else
        let dataForNewNode := getDataItemsForNodeId newNode s in
        let items := std_items dataForNewNode in
        env_update (deleteDataAssignedToPredecessor items.*1);;
        mret ((λ kv, mkDataItem kv.1 kv.2.1 (expires_to_wire kv.2.2)) <$> items)
  end.

Definition srv_getPoWPuzzleOnJoin (w : WireNode) : M W (string * Z) :=
  let newNode := nodeFromReader w in
  st ← env_statics;
  mret (host_port (m_ip newNode) (m_port newNode), getDifficulty st).

(** ** Lookup *)

(** [checkResult]: keep the preceding node only if it lies between the asked
    node and the id, and the successor only if its predecessor makes it
    responsible. The request to the successor has no error continuation. *)
Definition checkResult (node : Node) (id : list Z) (result : ClosestPrecedingPair)
    : M W ClosestPrecedingPair :=
  s ← env_ni;
  let preceding :=
    match closestPreceding result with
    | Some c => if is_in_range_loop (Node_getId c) (Node_getId node) id false false
                then Some c else None
    | None => None
    end in
  match cpp_successor result with
  | None => mret (mkCPP preceding None)
  | Some succ =>
      if Node_eqb succ (getNode s) then mret (mkCPP preceding None)
      else
        res ← env_rpc (m_ip succ) (m_port succ) GetPredecessorReq;
        match nodeFromReader_opt res with
        | None => mret (mkCPP preceding None)
        | Some pred =>
            if is_in_range_loop id (Node_getId pred) (Node_getId node) false true
            then mret (mkCPP preceding (Some succ)) else mret (mkCPP preceding None)
        end
  end.

(** [impl(ask)]: ask [node] (locally if it is this node) for the node closest
    to [ask]; the checks are against the id of the lookup. *)
Definition closest_impl (node : Node) (id ask : list Z) : M W ClosestPrecedingPair :=
  s ← env_ni;
  if Node_eqb node (getNode s) then
    preceding ← lift (getClosestPreceding ask s);
    checkResult node id (mkCPP preceding (getSuccessor s))
  else
    result ← promise_then (env_rpc (m_ip node) (m_port node) (GetClosestPrecedingReq ask))
      (λ res, mret (mkCPP (nodeFromReader_opt res.1) (nodeFromReader_opt res.2)))
      (λ _, mret (mkCPP None None));
    checkResult node id result.

(** [iterate(iterate, ask)]: skip preceding nodes that are distrusted. *)
Fixpoint closest_iterate (fuel : nat) (node : Node) (distrusted : gset (list Z)) (id ask : list Z)
    : M W ClosestPrecedingPair :=
  match fuel with
  | O => out_of_fuel
  | S fuel =>
      result ← closest_impl node id ask;
      match closestPreceding result with
      | Some c =>
          if decide (Node_getId c ∈ distrusted)
          then closest_iterate fuel node distrusted id (Node_getId c)
          else mret result
      | None => mret result
      end
  end.

Definition getClosestPrecedingHelper (fuel : nat) (node : Node) (id : list Z)
    (distrusted : gset (list Z)) : M W ClosestPrecedingPair :=
  closest_iterate fuel node distrusted id id.

(** [getSuccessorAlgorithm]: a stack of hops; a hop that leads nowhere is
    distrusted and popped. *)
Fixpoint getSuccessorAlgorithm (fuel : nat) (id : list Z) (hops : list Node)
    (distrusted : gset (list Z)) : M W (option Node) :=
  match fuel with
  | O => out_of_fuel
  | S fuel' =>
      match hops with
      | [] => mret None
      | current :: rest =>
          result ← getClosestPrecedingHelper fuel' current id distrusted;
          match closestPreceding result with
          | Some c => getSuccessorAlgorithm fuel' id (c :: current :: rest) distrusted
          | None =>
              match cpp_successor result with
              | Some succ => mret (Some succ)
              | None => getSuccessorAlgorithm fuel' id rest ({[Node_getId current]} ∪ distrusted)
              end
          end
      end
  end.

(** The part of [getSuccessor] after the two direct answers: pass the request
    on to the closest preceding finger, or run the iterative algorithm. *)
Definition getSuccessor_far (method : GetSuccessorMethod) (fuel : nat) (id : list Z)
    (s : NodeInformation) : M W (option Node) :=
  match method with
  | PASS_ON =>
      closest ← lift (getClosestPreceding id s);
      match closest with
      | None => mret None
      | Some c =>
          promise_then (env_rpc (m_ip c) (m_port c) (GetSuccessorReq id))
            (λ res, mret (nodeFromReader_opt res)) (λ _, mret None)
      end
  | LOCAL => getSuccessorAlgorithm fuel id [getNode s] ∅
  end.

(** [PeerImpl::getSuccessor(id)]: this node, the next node if it answers, or
    a lookup. *)
Definition peer_getSuccessor (method : GetSuccessorMethod) (fuel : nat) (id : list Z)
    : M W (option Node) :=
  s ← env_ni;
  if match getPredecessor s with
     | Some pred => is_in_range_loop id (Node_getId pred) (getId s) false true
     | None => false
     end
  then mret (Some (getNode s))
  else
    match getSuccessor s with
    | Some succ =>
        if is_in_range_loop id (getId s) (Node_getId succ) false true
        then
          promise_then (env_rpc (m_ip succ) (m_port succ) GetPredecessorReq)
            (λ _, mret (Some succ)) (λ _, mret None)
        else getSuccessor_far method fuel id s
    | None => getSuccessor_far method fuel id s
    end.

(** ** Server methods with remote calls *)

Definition srv_getSuccessor (method : GetSuccessorMethod) (fuel : nat) (id : list Z)
    : M W (option WireNode) :=
  successor ← peer_getSuccessor method fuel (idFromReader id);
  mret (buildNode_opt successor).

(** [KJ_ASSERT(condition) { return kj::READY_NOW; }]: whether a failed
    assertion throws or runs the recovery block is a setting of KJ. *)
Definition kj_assert {A} (kj_throws : bool) (condition : bool) (recovery : A) (rest : M W A) : M W A :=
  if condition then rest
  else if kj_throws then throw "KJ_ASSERT" else mret recovery.

Definition srv_sendPoWPuzzleResponse (kj_throws : bool) (method : GetSuccessorMethod) (fuel : nat)
    (w : WireNode) (response hash : string) : M W (option (option WireNode)) :=
  let newNode := nodeFromReader w in
  let test := host_port (m_ip newNode) (m_port newNode) in
  kj_assert kj_throws (bool_decide (string_prefix (String.length test) response = test)) None (
  digest ← lift (pow_digest response);
  kj_assert kj_throws (bool_decide (digest = hash)) None (
  st ← env_statics;
  kj_assert kj_throws (pow_leading (getDifficulty st) hash) None (
  successor ← peer_getSuccessor method fuel (Node_getId newNode);
  mret (Some (buildNode_opt successor))))).

(** The interface of the server. *)
Definition serve (kj_throws : bool) (method : GetSuccessorMethod) (fuel : nat)
    {A} (r : PeerRequest A) : M W A :=
  match r in PeerRequest A return M W A with
  | GetSuccessorReq id => srv_getSuccessor method fuel id
  | GetClosestPrecedingReq id => srv_getClosestPreceding id
  | GetPredecessorReq => srv_getPredecessor
  | NotifyReq node => srv_notify node
  | GetDataReq key => srv_getData key
  | SetDataReq key value ttl => srv_setData key value ttl
  | GetDataItemsOnJoinReq n => srv_getDataItemsOnJoin n
  | GetPoWPuzzleOnJoinReq n => srv_getPoWPuzzleOnJoin n
  | SendPoWPuzzleResponseReq n response hash =>
      srv_sendPoWPuzzleResponse kj_throws method fuel n response hash
  end.

(** ** Client methods *)

Definition peer_getData (node : Node) (key : list Z) : M W (option (list Z)) :=
  s ← env_ni;
  if Node_eqb node (getNode s) then mret (getData key s)
  else promise_then (env_rpc (m_ip node) (m_port node) (GetDataReq key)) mret (λ _, mret None).

Definition peer_setData (node : Node) (key value : list Z) (ttl : Z) : M W unit :=
  s ← env_ni;
  if Node_eqb node (getNode s) then
    now ← env_now; env_update (setData key value (ttl_duration ttl) now)
  else promise_then (env_rpc (m_ip node) (m_port node) (SetDataReq key value ttl)) mret (λ _, mret tt).

(** Store the items received from the successor. *)
Fixpoint store_items (items : list DataItem) : M W unit :=
  match items with
  | [] => mret tt
  | i :: items =>
      expires ← lift (expires_from_wire (di_expires i));
      env_update (setDataExpires (di_key i) (di_data i) expires);;
      store_items items
  end.

Definition getDataItemsOnJoinHelper (successorNode : option Node) : M W unit :=
  match successorNode with
  | None => undefined "dereference of an empty optional"
  | Some n =>
      s ← env_ni;
      promise_then (env_rpc (m_ip n) (m_port n) (GetDataItemsOnJoinReq (buildNode (getNode s))))
        store_items (λ _, mret tt)
  end.

End PeerImpl.

(** ** Lemmas: conversions *)

Section ConversionLemmas.
Context `{HashFns}.

Lemma nodeFromReader_buildNode n : canonical n → nodeFromReader (buildNode n) = n.
Proof. intros Hc. by rewrite Hc at 2. Qed.

Lemma nodeFromReader_buildNode_opt (n : option Node) :
  (∀ x, n = Some x → canonical x) → nodeFromReader_opt (buildNode_opt n) = n.
Proof. destruct n as [x|]; [|done]. intros Hc. cbn. by rewrite nodeFromReader_buildNode by auto. Qed.

Lemma idFromReader_id id : length id = id_bytes → idFromReader id = id.
Proof.
  intros E. unfold idFromReader. rewrite E, Nat.min_id, <- E, firstn_all, Nat.sub_diag. apply app_nil_r.
Qed.

(** A peer cannot choose its identifier: whatever id a received node
    carries, the node built from it has the SHA-256 of its address as id,
    and two received nodes compare equal when their addresses agree. *)
Theorem received_id_is_address_hash w w' :
  Node_getId (nodeFromReader w) = addr_id (wn_ip w) (wn_port w) ∧
  (wn_ip w = wn_ip w' → wn_port w = wn_port w' → nodeFromReader w = nodeFromReader w').
Proof. split; [done|]. unfold nodeFromReader. by intros -> ->. Qed.

(** Node and id conversions round trip: a node built from an address comes
    back unchanged from the wire, and an id is always read as 32 bytes, a
    32-byte one unchanged. *)
Theorem wire_node_roundtrip n id :
  canonical n →
  nodeFromReader (buildNode n) = n ∧
  length (idFromReader id) = id_bytes ∧
  (length id = id_bytes → idFromReader id = id).
Proof.
  intros Hc. split_and!; [by apply nodeFromReader_buildNode| |apply idFromReader_id].
  unfold idFromReader. rewrite length_app, length_take, length_replicate. lia.
Qed.

Lemma expires_wire_value e : 0 <= e <= time_max →
  expires_from_wire (expires_to_wire e) = Ok (e - e `mod` ns_per_s).
Proof.
  unfold expires_from_wire, expires_to_wire, time_max, ns_per_s. intros He.
  rewrite Z.quot_div_nonneg by lia.
  assert (0 <= e `div` ns_per_s <= e) as Hd.
  { unfold ns_per_s. split; [apply Z.div_pos; lia|apply Z.div_le_upper_bound; lia]. }
  unfold ns_per_s in Hd. assert (u64 (e `div` 1000000000) = e `div` 1000000000) as Hu.
  { apply wrap_small. lia. }
  assert (s64 (u64 (e `div` 1000000000)) = e `div` 1000000000) as ->.
  { unfold s64. rewrite Hu, Hu. by destruct (Z.ltb_spec (e `div` 1000000000) (2 ^ 63)); [|lia]. }
  pose proof (Z.div_mod e 1000000000 ltac:(lia)). pose proof (Z.mod_pos_bound e 1000000000 ltac:(lia)).
  destruct (Z.leb_spec (- 2 ^ 63) (e `div` 1000000000 * 1000000000)); [|lia].
  destruct (Z.leb_spec (e `div` 1000000000 * 1000000000) (2 ^ 63 - 1)); [|lia].
  cbn. f_equal. lia.
Qed.

(** Handing an item over keeps its expiry up to the second: for every
    expiry that is not before the epoch, including "never", the conversion to
    wire seconds and back is defined and rounds down by less than a second. *)
Theorem expiry_handover_rounds_down e :
  0 <= e <= time_max →
  ∃ e', expires_from_wire (expires_to_wire e) = Ok e' ∧ e' <= e < e' + ns_per_s.
Proof.
  intros He. exists (e - e `mod` ns_per_s). split; [by apply expires_wire_value|].
  pose proof (Z.mod_pos_bound e ns_per_s ltac:(done)). lia.
Qed.

Lemma expiry_handover_rounds_down_witness :
  ∃ e', expires_from_wire (expires_to_wire time_max) = Ok e' ∧ e' <= time_max < e' + ns_per_s.
Proof. apply expiry_handover_rounds_down. done. Defined.

(** ** Lemmas: closest preceding finger *)

(** The finger lies strictly between the node and the id. *)
Definition precedes (id : list Z) (s : NodeInformation) (n : Node) : bool :=
  is_in_range_loop (Node_getId n) (getId s) id false false.

(** [c] is the highest finger below index [i] that precedes the id. *)
Definition highest_below (i : nat) (id : list Z) (s : NodeInformation) (c : option Node) : Prop :=
  match c with
  | Some n =>
      precedes id s n = true ∧
      ∃ j, (j < i)%nat ∧ m_fingerTable s !! j = Some (Some n) ∧
        ∀ k n', (j < k < i)%nat → m_fingerTable s !! k = Some (Some n') → precedes id s n' = false
  | None => ∀ k n', (k < i)%nat → m_fingerTable s !! k = Some (Some n') → precedes id s n' = false
  end.

Lemma highest_below_skip i id s c f :
  m_fingerTable s !! i = Some f → (∀ n, f = Some n → precedes id s n = false) →
  highest_below i id s c → highest_below (S i) id s c.
Proof.
  intros Hf Hno. assert (∀ k n', k = i → m_fingerTable s !! k = Some (Some n') →
    precedes id s n' = false) as Hi by naive_solver.
  destruct c as [n|]; cbn.
  - intros [Hin (j & Hj & Hjn & Hall)]. split; [done|]. exists j. split_and!; [lia|done|].
    intros k n' Hk Hkn. destruct (decide (k = i)); [by eapply Hi|]. apply (Hall k); [lia|done].
  - intros Hall k n' Hk Hkn. destruct (decide (k = i)); [by eapply Hi|]. apply (Hall k); [lia|done].
Qed.

Lemma closest_loop_spec i id s : table_ok s → (i <= key_bits)%nat →
  ∃ c, closest_preceding_loop i id s = Ok c ∧ highest_below i id s c.
Proof.
  intros Hok. induction i as [|i IH]; intros Hi; cbn [closest_preceding_loop].
  { exists None. split; [done|]. cbn. lia. }
  destruct (getFinger_Ok s i Hok) as (f & -> & Hf); [lia|]. cbn [mbind outcome_bind].
  destruct IH as (c & Hc & Hspec); [lia|].
  destruct f as [n|]; [|exists c; split; [done|]; by eapply highest_below_skip].
  fold (precedes id s n). destruct (precedes id s n) eqn:E.
  - exists (Some n). split; [done|]. split; [done|]. exists i. split_and!; [lia|done|lia].
  - exists c. split; [done|]. eapply highest_below_skip; naive_solver.
Qed.

Lemma highest_below_all id s c : table_ok s → highest_below key_bits id s c →
  match c with
  | Some n => precedes id s n = true ∧ ∃ j, m_fingerTable s !! j = Some (Some n)
  | None => ∀ k n', m_fingerTable s !! k = Some (Some n') → precedes id s n' = false
  end.
Proof.
  intros Hok. unfold highest_below. destruct c as [n|].
  - intros [Hin (j & _ & Hj & _)]. eauto.
  - intros Hall k n' Hk. apply (Hall k); [|done]. rewrite <- Hok. by apply lookup_lt_Some in Hk.
Qed.

Lemma getClosestPreceding_spec id s : table_ok s →
  ∃ c, getClosestPreceding id s = Ok c ∧
    match c with
    | Some n => precedes id s n = true ∧ ∃ j, m_fingerTable s !! j = Some (Some n)
    | None => ∀ k n', m_fingerTable s !! k = Some (Some n') → precedes id s n' = false
    end.
Proof.
  intros Hok. destruct (closest_loop_spec key_bits id s Hok) as (c & Hc & Hspec); [done|].
  exists c. split; [done|]. by apply highest_below_all.
Qed.

(** C24: [getClosestPreceding] never throws on a full-size table and returns
    the highest finger strictly between the node and the id: every finger at
    a higher index lies outside that interval, and no result means no finger
    lies inside it. *)
Theorem getClosestPreceding_highest id s :
  table_ok s → ∃ c, getClosestPreceding id s = Ok c ∧ highest_below key_bits id s c.
Proof. intros Hok. by apply closest_loop_spec. Qed.

End ConversionLemmas.
