(* ===== verification/Connection.v ===== *)
(** * Connection: one client of the API

    Models src/api/connection.h and src/api/connection.cpp as a state machine
    driven by the events the asio service and the threads deliver: a finished
    read (with an error or not), a handler that returned, a turn of the thread
    that sends the answers, and a close. A read that asio reports without
    error has filled its whole buffer; with an error it has filled a part.
    [write_some] may write fewer bytes than it is given, or throw; which of
    them is part of the event.

    The observable trace of a step records the requests passed to a handler
    and the answers taken from the queue. *)

From S2P Require Import Prelude Util Message.

(** The read in flight. *)
Inductive Pending := ReadHeader | ReadBody (header : MessageHeader) (n : nat).

(** A handler's [std::future]. *)
Inductive Call := Running | Returned (bytes : list Z) | Threw.

Record Conn := mkConn {
  c_open : bool;
  c_header : list Z;
  c_data : list Z;
  c_pending : option Pending;
  c_calls : list (Message * Call);
  (** the mutex is held for ever: its owner died with it *)
  c_locked : bool;
  c_manager : bool;
  c_done : bool;
  (** the bytes written to the socket *)
  c_sent : list Z;
}.

Inductive Event :=
| EvHeader (got : list Z) (error : bool)
| EvBody (got : list Z) (error : bool)
| EvHandler (i : nat) (result : Call)
| EvManager (written : option nat)
| EvClose.

Inductive Obs :=
| Accepted (m : Message)
| Answered (m : Message) (bytes : list Z).

Definition data_size : nat := Z.to_nat 65535.

Definition with_pending (p : option Pending) (c : Conn) : Conn :=
  mkConn (c_open c) (c_header c) (c_data c) p (c_calls c) (c_locked c) (c_manager c) (c_done c) (c_sent c).

Definition with_calls (l : list (Message * Call)) (c : Conn) : Conn :=
  mkConn (c_open c) (c_header c) (c_data c) (c_pending c) l (c_locked c) (c_manager c) (c_done c) (c_sent c).

(** [asio::async_read] into the front of a buffer. *)
Definition fill (buffer got : list Z) : list Z := got ++ drop (length got) buffer.

(** [header.size - sizeof(MessageHeaderRaw)] is a [size_t], and
    [asio::buffer(m_data, n)] is at most the vector. *)
Definition body_size (h : MessageHeader) : nat :=
  Z.to_nat (Z.min (Z.of_nat data_size) (u64 (header_size h - Z.of_nat sizeof_header))).

Definition start_read (c : Conn) : Conn :=
  with_pending (if c_open c then Some ReadHeader else None) c.

Definition finish_read (c : Conn) : outcome Conn :=
  if c_open c then
    raw ← read_header (c_header c) 0;
    let header := MessageHeader_of_raw raw in
    Ok (with_pending (Some (ReadBody header (body_size header))) c)
  else Ok (with_pending None c).

(** The constructor: buffers, the first read, the manager thread. *)
Definition Connection_ctor (header : list Z) : Conn :=
  start_read (mkConn true header (replicate data_size 0) None [] false true false []).

Section Connection.
(** [m_requestHandlers.contains(type)]. *)
Context (handled : Z → bool).

(** The continuation of the header's read: [finish_read] runs first, the error
    is looked at afterwards and only logged. *)
Definition header_read (got : list Z) (error : bool) (c : Conn) : outcome Conn :=
  finish_read (mkConn (c_open c) (fill (c_header c) got) (c_data c) None (c_calls c) (c_locked c)
                 (c_manager c) (c_done c) (c_sent c)).

(** The continuation of the body's read. Pushing a call waits for the mutex. *)
Definition body_read (header : MessageHeader) (got : list Z) (error : bool) (c : Conn)
    : outcome (Conn * list Obs) :=
  let c := mkConn (c_open c) (c_header c) (fill (c_data c) got) None (c_calls c) (c_locked c)
             (c_manager c) (c_done c) (c_sent c) in
  let bytes := c_header c ++ take (length got) (c_data c) in
  let c := start_read c in
  if error then Ok (c, [])
  else if (0 <? length got)%nat then
    match Request_ctor header bytes with
    | Exn _ => Ok (c, [])
    | Ok request =>
        let m := m_decodedData request in
        if c_open c && handled (header_msg_type (m_header (Message_data m))) then
          if c_locked c then NoFuel
          else Ok (with_calls (c_calls c ++ [(m, Running)]) c, [Accepted m])
        else Ok (c, [])
    | UB e => UB e
    | NoFuel => NoFuel
    end
  else Ok (c, []).

(** One turn of the thread that sends the answers. An exception of the handler
    ends the thread while it holds the mutex; an exception of [write_some]
    ([written] is [None]) ends it after the mutex is released. *)
Definition manager_turn (written : option nat) (c : Conn) : Conn * list Obs :=
  if negb (c_manager c) then (c, [])
  else if negb (c_open c) then
    (mkConn (c_open c) (c_header c) (c_data c) (c_pending c) (c_calls c) (c_locked c) false true (c_sent c), [])
  else
    match c_calls c with
    | (m, Returned bytes) :: calls =>
        (mkConn (c_open c) (c_header c) (c_data c) (c_pending c) calls (c_locked c)
           (bool_decide (is_Some written)) (c_done c)
           (c_sent c ++ take (default 0%nat written) bytes), [Answered m bytes])
    | (_, Threw) :: _ =>
        (mkConn (c_open c) (c_header c) (c_data c) (c_pending c) (c_calls c) true false (c_done c) (c_sent c), [])
    | _ => (c, [])
    end.

Definition handler_returned (i : nat) (result : Call) (c : Conn) : Conn :=
  with_calls (alter (λ call, (call.1, result)) i (c_calls c)) c.

Definition close (c : Conn) : Conn :=
  mkConn false (c_header c) (c_data c) (c_pending c) (c_calls c) (c_locked c) (c_manager c) (c_done c) (c_sent c).

(** Which events can happen: reads that are in flight, filling their buffer
    unless they failed; handlers that run. An empty answer is not written. *)
Definition read_of (size : nat) (got : list Z) (error : bool) : bool :=
  if error then (length got <=? size)%nat else (length got =? size)%nat.

Definition enabled (c : Conn) (e : Event) : bool :=
  match e, c_pending c with
  | EvHeader got error, Some ReadHeader => read_of sizeof_header got error
  | EvBody got error, Some (ReadBody _ n) => read_of n got error
  | EvHandler i result, _ =>
      match c_calls c !! i, result with
      | Some (_, Running), Returned _ | Some (_, Running), Threw => true
      | _, _ => false
      end
  | EvManager written, _ =>
      match c_calls c with
      | (_, Returned bytes) :: _ =>
          match written with Some k => (k <=? length bytes)%nat | None => (0 <? length bytes)%nat end
      | _ => true
      end
  | EvClose, _ => true
  | _, _ => false
  end.

Definition step (c : Conn) (e : Event) : outcome (Conn * list Obs) :=
  match e, c_pending c with
  | EvHeader got error, _ => c' ← header_read got error c; Ok (c', [])
  | EvBody got error, Some (ReadBody header _) => body_read header got error c
  | EvBody _ _, _ => Ok (c, [])
  | EvHandler i result, _ => Ok (handler_returned i result c, [])
  | EvManager written, _ => Ok (manager_turn written c)
  | EvClose, _ => Ok (close c, [])
  end.

(** A run of a connection. *)
Inductive run (c0 : Conn) : Conn → list Obs → Prop :=
| run_start : run c0 c0 []
| run_step c tr e c' obs :
    run c0 c tr → enabled c e = true → step c e = Ok (c', obs) → run c0 c' (tr ++ obs).

(** Runs with a given sequence of events. *)
Fixpoint run_events (c : Conn) (events : list Event) : option (outcome (Conn * list Obs)) :=
  match events with
  | [] => Some (Ok (c, []))
  | e :: events =>
      if enabled c e then
        match step c e with
        | Ok (c', obs) =>
            match run_events c' events with
            | Some (Ok (c'', obs')) => Some (Ok (c'', obs ++ obs'))
            | r => r
            end
        | Exn x => Some (Exn x)
        | UB x => Some (UB x)
        | NoFuel => Some NoFuel
        end
      else None
  end.

(** ** Answers are in order *)

Definition accepted (tr : list Obs) : list Message :=
  omap (λ o, match o with Accepted m => Some m | _ => None end) tr.

Definition answered (tr : list Obs) : list (Message * list Z) :=
  omap (λ o, match o with Answered m b => Some (m, b) | _ => None end) tr.

Lemma accepted_app tr tr' : accepted (tr ++ tr') = accepted tr ++ accepted tr'.
Proof. apply omap_app. Qed.

Lemma answered_app tr tr' : answered (tr ++ tr') = answered tr ++ answered tr'.
Proof. apply omap_app. Qed.

(** The stream of the answers, each cut where [write_some] stopped. *)
Inductive cut_stream : list (list Z) → list Z → Prop :=
| cut_nil : cut_stream [] []
| cut_snoc l s bytes k : cut_stream l s → cut_stream (l ++ [bytes]) (s ++ take k bytes).

Record fifo (c : Conn) (tr : list Obs) : Prop := {
  fifo_order : accepted tr = (answered tr).*1 ++ (c_calls c).*1;
  fifo_sent : cut_stream (answered tr).*2 (c_sent c);
}.

Lemma fifo_quiet c c' tr : fifo c tr → (c_calls c').*1 = (c_calls c).*1 → c_sent c' = c_sent c →
  fifo c' (tr ++ []).
Proof. intros [Ho Hs] Hc Hsent. rewrite app_nil_r. constructor; congruence. Qed.

Lemma finish_read_keeps c c' : finish_read c = Ok c' → c_calls c' = c_calls c ∧ c_sent c' = c_sent c.
Proof.
  unfold finish_read. destruct (c_open c); [|by intros [= <-]].
  destruct (read_header (c_header c) 0); cbn; [|done..]. by intros [= <-].
Qed.

Lemma calls_alter l i r : (alter (λ call : Message * Call, (call.1, r)) i l).*1 = l.*1.
Proof. revert i. induction l as [|x l IH]; intros [|i]; cbn; [done..|]. f_equal. apply IH. Qed.

Lemma fifo_body c h got error c' obs tr : fifo c tr →
  body_read h got error c = Ok (c', obs) → fifo c' (tr ++ obs).
Proof.
  intros Hf. unfold body_read. destruct error; [intros [= <- <-]; by eapply fifo_quiet|].
  destruct (0 <? length got)%nat; [|intros [= <- <-]; by eapply fifo_quiet].
  destruct (Request_ctor _ _) as [r| | |]; [|intros [= <- <-]; by eapply fifo_quiet|done..].
  case_match; [|intros [= <- <-]; by eapply fifo_quiet]. case_match; [done|].
  intros [= <- <-]. destruct Hf as [Ho Hs].
  constructor; rewrite ?accepted_app, answered_app; cbn [c_calls with_calls c_sent start_read with_pending].
  - rewrite Ho, !fmap_app. cbn. by rewrite app_nil_r, app_assoc.
  - cbn. by rewrite app_nil_r.
Qed.

Lemma fifo_manager c k tr : fifo c tr → fifo (manager_turn k c).1 (tr ++ (manager_turn k c).2).
Proof.
  intros Hf. unfold manager_turn. destruct (c_manager c); cbn [negb]; [|by eapply fifo_quiet].
  destruct (c_open c); cbn [negb]; [|by eapply fifo_quiet].
  destruct (c_calls c) as [|[m [|bytes|]] calls] eqn:E; try by (eapply fifo_quiet; [done|cbn; by rewrite ?E|done]).
  destruct Hf as [Ho Hs]. rewrite E in Ho.
  constructor; rewrite ?accepted_app, answered_app, !fmap_app; cbn.
  - by rewrite app_nil_r, Ho, <- app_assoc.
  - by constructor.
Qed.

Lemma fifo_step c tr e c' obs : fifo c tr → step c e = Ok (c', obs) → fifo c' (tr ++ obs).
Proof.
  intros IH Hstep. destruct e; cbn in Hstep.
  - destruct (header_read got error c) as [c1| | |] eqn:E; [|done..]. injection Hstep as <- <-.
    apply finish_read_keeps in E as [? ?]. eapply fifo_quiet; [done|by f_equal|done].
  - destruct (c_pending c) as [[|h n]|]; [injection Hstep as <- <-; by eapply fifo_quiet| |
      injection Hstep as <- <-; by eapply fifo_quiet].
    by eapply fifo_body.
  - injection Hstep as <- <-. eapply fifo_quiet; [done| |done]. apply calls_alter.
  - injection Hstep as Hm. pose proof (fifo_manager c written tr IH) as Hf. by rewrite Hm in Hf.
  - injection Hstep as <- <-. by eapply fifo_quiet.
Qed.

Lemma run_fifo c0 c tr : fifo c0 [] → run c0 c tr → fifo c tr.
Proof. intros H0. induction 1; [done|]. by eapply fifo_step. Qed.

Lemma fifo_ctor header : fifo (Connection_ctor header) [].
Proof. by repeat constructor. Qed.

(** C23: Answers come back in the order of the requests. In every run of a
    connection, whatever order the handlers finish in, the requests passed to
    handlers are exactly the answered ones followed by the waiting ones, in
    this order, and the bytes written to the client are the answers in order,
    each possibly cut short by a partial write. *)
Theorem answers_in_request_order header c tr :
  run (Connection_ctor header) c tr →
  accepted tr = (answered tr).*1 ++ (c_calls c).*1 ∧ cut_stream (answered tr).*2 (c_sent c).
Proof. intros Hrun. apply run_fifo in Hrun as []; [done|]. apply fifo_ctor. Qed.

(** ** A stream of messages is cut into its messages *)

(** A connection waiting for the next message. *)
Definition ready (c : Conn) : Prop :=
  c_open c = true ∧ c_pending c = Some ReadHeader ∧ c_locked c = false ∧
  length (c_header c) = sizeof_header ∧ length (c_data c) = data_size.

(** A message with a body that the parser does not misread. *)
Definition frame (f : list Z) : Prop :=
  ∃ h, framed h f ∧ Z.of_nat sizeof_header < header_size h < 2 ^ 16 ∧
    is_Ok (Request_ctor h f) || is_Exn (Request_ctor h f) = true.

Definition frame_events (f : list Z) : list Event :=
  [EvHeader (take sizeof_header f) false; EvBody (drop sizeof_header f) false].

(** What a handler sees of a message. *)
Definition decode (f : list Z) : option Message :=
  match MessageData_ctor f with
  | Ok d =>
      match Request_ctor (m_header d) f with
      | Ok r =>
          if handled (header_msg_type (m_header (Message_data (m_decodedData r))))
          then Some (m_decodedData r) else None
      | _ => None
      end
  | _ => None
  end.

Lemma read_header_take f h : framed h f →
  ∃ raw, read_header (take sizeof_header f) 0 = Ok raw ∧ MessageHeader_of_raw raw = h.
Proof.
  intros Hf. pose proof (framed_length _ _ Hf) as H4. destruct Hf as [Hd _].
  assert (vec_range (take sizeof_header f) 0 (0 + 4) = vec_range f 0 (0 + 4)) as Hv.
  { rewrite !vec_range_Ok, !drop_0, take_take by (rewrite ?length_take; unfold sizeof_header; lia). done. }
  unfold MessageData_ctor, read_header in *. rewrite Hv.
  destruct (vec_range f 0 (0 + 4)); cbn in Hd |- *; [|done..].
  eexists. split; [done|]. by injection Hd as <-.
Qed.

Lemma fill_all buffer got : length got = length buffer → fill buffer got = got.
Proof. intros E. unfold fill. by rewrite drop_ge, app_nil_r by lia. Qed.

Lemma fill_front buffer got : take (length got) (fill buffer got) = got.
Proof. unfold fill. by rewrite take_app_length. Qed.

Lemma length_fill buffer got : (length got <= length buffer)%nat → length (fill buffer got) = length buffer.
Proof. intros. unfold fill. rewrite length_app, length_drop. lia. Qed.

Lemma body_size_frame f h : framed h f → header_size h < 2 ^ 16 →
  body_size h = length (drop sizeof_header f).
Proof.
  intros Hf Hs. pose proof (framed_length _ _ Hf). destruct Hf as [_ Hl].
  unfold body_size, data_size, sizeof_header, u64. rewrite length_drop, wrap_small by lia. lia.
Qed.

(** The header of a message, then its body. *)
Lemma frame_header c f h : c_open c = true → c_pending c = Some ReadHeader →
  length (c_header c) = sizeof_header → framed h f → header_size h < 2 ^ 16 →
  enabled c (EvHeader (take sizeof_header f) false) = true ∧
  ∃ c1, step c (EvHeader (take sizeof_header f) false) = Ok (c1, []) ∧
    c_open c1 = true ∧ c_locked c1 = c_locked c ∧ c_header c1 = take sizeof_header f ∧
    c_pending c1 = Some (ReadBody h (length (drop sizeof_header f))) ∧ c_data c1 = c_data c ∧
    c_calls c1 = c_calls c ∧ c_manager c1 = c_manager c ∧ c_done c1 = c_done c ∧ c_sent c1 = c_sent c.
Proof.
  intros Ho Hp Hh Hf Hs. pose proof (framed_length _ _ Hf) as H4.
  assert (length (take sizeof_header f) = sizeof_header) as Hl by (rewrite length_take; unfold sizeof_header; lia).
  split; [cbn [enabled]; rewrite Hp; unfold read_of; by rewrite Hl, Nat.eqb_refl|].
  destruct (read_header_take f h Hf) as (raw & Hraw & <-).
  cbn [step]. unfold header_read, finish_read. cbn [c_open c_header]. rewrite Ho, fill_all by congruence.
  rewrite Hraw. cbn. eexists. split; [done|]. cbn. rewrite (body_size_frame f) by done. done.
Qed.

Lemma frame_body c f h : c_open c = true → c_locked c = false → c_header c = take sizeof_header f →
  c_pending c = Some (ReadBody h (length (drop sizeof_header f))) → length (c_data c) = data_size →
  framed h f → Z.of_nat sizeof_header < header_size h < 2 ^ 16 → is_Ok (Request_ctor h f) || is_Exn (Request_ctor h f) = true →
  enabled c (EvBody (drop sizeof_header f) false) = true ∧
  ∃ c2, step c (EvBody (drop sizeof_header f) false) = Ok (c2, Accepted <$> option_list (decode f)) ∧
    ready c2 ∧ c_calls c2 = c_calls c ++ ((λ m, (m, Running)) <$> option_list (decode f)) ∧
    c_manager c2 = c_manager c ∧ c_done c2 = c_done c ∧ c_sent c2 = c_sent c.
Proof.
  intros Ho Hk Hh Hp Hd Hf Hs Hub. pose proof (framed_length _ _ Hf) as H4. pose proof Hf as [Hdata Hl].
  assert (length (drop sizeof_header f) <= data_size)%nat as Hfit
    by (rewrite length_drop; unfold data_size; lia).
  assert (0 < length (drop sizeof_header f))%nat as Hpos by (rewrite length_drop; lia).
  split; [cbn [enabled]; rewrite Hp; apply Nat.eqb_refl|].
  cbn [step]. rewrite Hp. unfold body_read. cbn [c_header c_data]. rewrite fill_front, Hh, take_drop.
  rewrite (proj2 (Nat.ltb_lt _ _) Hpos). unfold decode. rewrite Hdata. cbn [m_header].
  set (c1 := start_read _). assert (∀ l, ready (with_calls l c1)) as Hready.
  { intros l. unfold c1, ready, start_read, with_calls, with_pending.
    cbn [c_open c_pending c_locked c_header c_data].
    rewrite Ho, Hk, length_take, length_fill by lia.
    split_and!; [done..| |done]. unfold sizeof_header in *. lia. }
  assert (c_open c1 = true ∧ c_locked c1 = false) as [-> ->] by done.
  assert (ready c1) as Hr1 by exact (Hready (c_calls c1)).
  assert (c_calls c1 = c_calls c ++ []) as Hc1 by (by rewrite app_nil_r).
  destruct (Request_ctor h f) as [r|e|e|] eqn:E; [|by exists c1|done..].
  cbn [andb]. destruct (handled _); [|by exists c1]. eexists. split; [done|]. split; [apply Hready|done].
Qed.

(** A body whose request is handled waits for the mutex. *)
Lemma frame_body_locked c f h m : c_open c = true → c_locked c = true → c_header c = take sizeof_header f →
  c_pending c = Some (ReadBody h (length (drop sizeof_header f))) →
  framed h f → Z.of_nat sizeof_header < header_size h → decode f = Some m →
  enabled c (EvBody (drop sizeof_header f) false) = true ∧
  step c (EvBody (drop sizeof_header f) false) = NoFuel.
Proof.
  intros Ho Hk Hh Hp [Hdata Hl] Hs Hm.
  assert (0 < length (drop sizeof_header f))%nat as Hpos by (rewrite length_drop; lia).
  split; [cbn [enabled]; rewrite Hp; apply Nat.eqb_refl|].
  cbn [step]. rewrite Hp. unfold body_read. cbn [c_header c_data]. rewrite fill_front, Hh, take_drop.
  rewrite (proj2 (Nat.ltb_lt _ _) Hpos). unfold decode in Hm. rewrite Hdata in Hm. cbn [m_header] in Hm.
  set (c1 := start_read _). assert (c_open c1 = true ∧ c_locked c1 = true) as [-> ->] by done.
  destruct (Request_ctor h f) as [r| | |]; [|done..]. by destruct (handled _).
Qed.

Lemma run_events_app c e1 e2 c1 o1 r : run_events c e1 = Some (Ok (c1, o1)) →
  run_events c1 e2 = Some (Ok r) → run_events c (e1 ++ e2) = Some (Ok (r.1, o1 ++ r.2)).
Proof.
  revert c c1 o1. induction e1 as [|e e1 IH]; intros c c1 o1; cbn [run_events app].
  { intros [= <- <-] ->. by destruct r. }
  destruct (enabled c e); [|done]. destruct (step c e) as [[c' obs]| | |]; [|done..].
  destruct (run_events c' e1) as [[[c'' obs']| | |]|] eqn:E; try done.
  intros [= <- <-] Hr. rewrite (IH _ _ _ E Hr). by rewrite app_assoc.
Qed.

Lemma run_from c0 c1 c2 tr1 tr2 : run c0 c1 tr1 → run c1 c2 tr2 → run c0 c2 (tr1 ++ tr2).
Proof.
  intros H1. induction 1 as [|c tr e c' obs Hrun IH Hen Hstep]; [by rewrite app_nil_r|].
  rewrite app_assoc. by eapply run_step.
Qed.

Lemma run_events_run c events c' obs : run_events c events = Some (Ok (c', obs)) → run c c' obs.
Proof.
  revert c obs. induction events as [|e events IH]; intros c obs; cbn [run_events].
  { intros [= <- <-]. constructor. }
  destruct (enabled c e) eqn:He; [|done]. destruct (step c e) as [[c1 o1]| | |] eqn:Hs; [|done..].
  destruct (run_events c1 events) as [[[c2 o2]| | |]|] eqn:E; try done. intros [= <- <-].
  apply (run_from _ c1); [|by apply IH]. rewrite <- (app_nil_l o1).
  eapply run_step; [constructor|done|done].
Qed.

Lemma run_frame c f : ready c → frame f →
  ∃ c2, run_events c (frame_events f) = Some (Ok (c2, Accepted <$> option_list (decode f))) ∧ ready c2 ∧
    c_calls c2 = c_calls c ++ ((λ m, (m, Running)) <$> option_list (decode f)) ∧
    c_manager c2 = c_manager c ∧ c_done c2 = c_done c ∧ c_sent c2 = c_sent c.
Proof.
  intros (Ho & Hp & Hk & Hh & Hd) (h & Hf & Hs & Hok).
  destruct (frame_header c f h Ho Hp Hh Hf) as (He1 & c1 & Hstep1 & Ho1 & Hk1 & Hh1 & Hp1 & Hdata & Hkeep); [lia|].
  rewrite <- Hdata in Hd. rewrite Hk in Hk1.
  destruct (frame_body c1 f h Ho1 Hk1 Hh1 Hp1 Hd Hf Hs Hok) as (He2 & c2 & Hstep2 & Hr2 & Hc2 & Hm2 & Hd2 & Hs2).
  destruct Hkeep as (Hc1 & Hm1 & Hd1 & Hs1). exists c2. split_and!; [|done|congruence..].
  unfold frame_events. cbn [run_events]. rewrite He1, Hstep1, He2, Hstep2. by rewrite app_nil_r.
Qed.

(** C22: A stream of messages is cut at the message boundaries. When a client
    sends any sequence of messages (each longer than a header, with its length
    in its header, and not misread by the parser) and every read completes,
    each read asks for exactly the next header or body, the handlers are
    called with exactly the messages that decode to a handled type, in order,
    the others are skipped, and the connection waits for the next header. *)
Theorem stream_is_cut_into_messages c frames :
  ready c → Forall frame frames →
  ∃ c', run_events c (concat (frame_events <$> frames)) = Some (Ok (c', Accepted <$> omap decode frames)) ∧
    ready c'.
Proof.
  intros Hr Hf. revert c Hr. induction Hf as [|f frames Hf Hfs IH]; intros c Hr; [by exists c|].
  destruct (run_frame c f Hr Hf) as (c1 & Hrun & Hr1 & _). destruct (IH c1 Hr1) as (c2 & Hrest & Hr2).
  exists c2. split; [|done].
  change (concat (frame_events <$> f :: frames)) with (frame_events f ++ concat (frame_events <$> frames)).
  rewrite (run_events_app _ _ _ _ _ _ Hrun Hrest). cbn [fst snd]. rewrite <- fmap_app.
  by destruct (decode f) as [d|] eqn:E; cbn; rewrite E.
Qed.

(** ** Errors *)

(** Both reads fail at the end of the stream. *)
Definition eof_events : list Event := [EvHeader [] true; EvBody [] true].

(** A disconnected client is never noticed. After the client has gone
    (both reads report an error without data), the connection starts the next
    body read and then the next header read all the same: it is again waiting
    for a header, still open and not done, any number of times over; only a
    close from outside ends it. *)
Theorem eof_keeps_reading c n :
  ready c → c_done c = false →
  ∃ c', run_events c (concat (replicate n eof_events)) = Some (Ok (c', [])) ∧
    ready c' ∧ c_done c' = false ∧ c_calls c' = c_calls c.
Proof.
  revert c. induction n as [|n IH]; intros c Hr Hdone; [by exists c|].
  assert (∃ c1, run_events c eof_events = Some (Ok (c1, [])) ∧ ready c1 ∧
    c_done c1 = false ∧ c_calls c1 = c_calls c) as (c1 & Hrun & Hr1 & Hd1 & Hc1).
  { destruct Hr as (Ho & Hp & Hk & Hh & Hd). destruct c as [o hd dt pd cl lk mg dn st]. cbn in *. subst.
    destruct hd as [|b0 [|b1 [|b2 [|b3 [|b4 hd]]]]]; try done. cbn. eexists. split; [done|]. done. }
  destruct (IH c1 Hr1 Hd1) as (c2 & Hrest & ?). exists c2. cbn [replicate concat].
  rewrite (run_events_app _ _ _ _ _ _ Hrun Hrest). cbn. rewrite <- Hc1. done.
Qed.

(** A header that announces fewer than four bytes swallows what follows.
    The size of its body is computed without a check and wraps around: the
    connection then waits for 65535 bytes and takes whatever messages come
    next for the body. *)
Theorem short_header_swallows_stream c h d :
  ready c → length h = sizeof_header →
  MessageData_ctor h = Ok d → 0 <= header_size (m_header d) < 4 →
  ∃ c', run_events c [EvHeader h false] = Some (Ok (c', [])) ∧
    c_pending c' = Some (ReadBody (m_header d) data_size).
Proof.
  intros (Ho & Hp & Hk & Hh & Hd) Hl Hdata Hs.
  cbn [run_events enabled]. rewrite Hp. unfold read_of. rewrite Hl, Nat.eqb_refl.
  cbn [step]. unfold header_read, finish_read. cbn [c_open c_header]. rewrite Ho, fill_all by congruence.
  unfold MessageData_ctor in Hdata. destruct (read_header h 0) as [raw| | |]; [|done..].
  injection Hdata as <-. cbn [mbind outcome_bind m_header] in *. eexists. split; [done|].
  cbn [c_pending with_pending]. do 2 f_equal. unfold body_size, data_size, sizeof_header, u64, wrap.
  rewrite <- (Z.mod_add _ 1) by done. rewrite Z.mod_small by lia. lia.
Qed.

End Connection.

(** ** A client that sends a GET, a message of unknown type and a GET *)

Section Example.

Definition get_frame (b : Z) : list Z := header_bytes 36 constants.DHT_GET ++ replicate 32 b.

Definition odd_frame : list Z := header_bytes 6 1 ++ [1; 2].

Lemma ready_start header : length header = sizeof_header → ready (Connection_ctor header).
Proof. intros Hl. unfold ready. split_and!; [done..|done|apply length_replicate]. Qed.

Lemma example_frames : Forall frame [get_frame 7; odd_frame; get_frame 8].
Proof.
  repeat constructor;
    [exists (mkHeader 36 constants.DHT_GET)|exists (mkHeader 6 1)|exists (mkHeader 36 constants.DHT_GET)];
    done.
Qed.

Lemma stream_is_cut_into_messages_witness :
  ∃ c', run_events known_type (Connection_ctor [0; 0; 0; 0])
      (concat (frame_events <$> [get_frame 7; odd_frame; get_frame 8]))
    = Some (Ok (c', Accepted <$> omap (decode known_type) [get_frame 7; odd_frame; get_frame 8])) ∧ ready c'.
Proof. apply stream_is_cut_into_messages; [by apply ready_start|apply example_frames]. Defined.

Lemma eof_keeps_reading_witness :
  ∃ c', run_events known_type (Connection_ctor [0; 0; 0; 0]) (concat (replicate 100 eof_events))
      = Some (Ok (c', [])) ∧ ready c' ∧ c_done c' = false ∧ c_calls c' = [].
Proof. apply eof_keeps_reading; [by apply ready_start|done]. Defined.

Lemma short_header_swallows_stream_witness :
  ∃ c', run_events known_type (Connection_ctor [0; 0; 0; 0]) [EvHeader [0; 3; 2; 138] false]
      = Some (Ok (c', [])) ∧ c_pending c' = Some (ReadBody (mkHeader 3 650) data_size).
Proof.
  refine (short_header_swallows_stream known_type _ [0; 3; 2; 138] (mkData [0; 3; 2; 138] (mkHeader 3 650))
    _ _ _ _); [by apply ready_start|done..].
Defined.

Lemma example_run : ∃ c m,
  decode known_type (get_frame 7) = Some m ∧ run known_type (Connection_ctor [0; 0; 0; 0]) c [Accepted m].
Proof.
  pose proof example_frames as Hf. inversion_clear Hf as [|? ? H7 _].
  destruct (run_frame known_type (Connection_ctor [0; 0; 0; 0]) (get_frame 7)) as (c & Hrun & _);
    [by apply ready_start|done|].
  exists c. apply run_events_run in Hrun.
  destruct (decode known_type (get_frame 7)) as [m|] eqn:E; [by exists m|].
  exfalso. revert E. vm_compute. done.
Qed.

Lemma answers_in_request_order_witness : ∃ c m,
  accepted [Accepted m] = (answered [Accepted m]).*1 ++ (c_calls c).*1 ∧
  cut_stream (answered [Accepted m]).*2 (c_sent c).
Proof.
  destruct example_run as (c & m & _ & Hrun). exists c, m.
  exact (answers_in_request_order known_type [0; 0; 0; 0] c [Accepted m] Hrun).
Defined.

End Example.
