(* ===== verification/Api.v ===== *)
(** * Api: the acceptor and the handlers of requests

    Models src/api/api.h and src/api/api.cpp: the table of request handlers
    with its typed registration [on], the acceptor with its list of open
    connections, and the shutdown. An [Api] holds the connections of
    Connection.v; an event of the API is the completion of an accept, an event
    of one connection, a registration, or the destructor.

    - The completions (accepts and reads) run on the one service thread. A
      connection that waits for a mutex which is never released stops this
      thread for ever ([a_blocked]).
    - Beside a connection, [cl_trace] records what an observer has seen of it;
      it is not a member of the code. *)

From S2P Require Import Prelude Util Message Connection.

(** ** Message classes *)

(** The classes a request is decoded to. *)
Inductive MessageClass :=
  | CLASS_KEY | CLASS_PUT | CLASS_PUT_KEY_IS_HASH_OF_DATA | CLASS_GET_KEY_IS_HASH_OF_DATA.

#[export] Instance MessageClass_eq_dec : EqDecision MessageClass.
Proof. solve_decision. Defined.

Definition class_data (c : MessageClass) : Type :=
  match c with
  | CLASS_KEY => Message_KEY
  | CLASS_PUT => Message_DHT_PUT
  | CLASS_PUT_KEY_IS_HASH_OF_DATA => Message_DHT_PUT_KEY_IS_HASH_OF_DATA
  | CLASS_GET_KEY_IS_HASH_OF_DATA => Message_DHT_GET_KEY_IS_HASH_OF_DATA
  end.

(** [message_type_from_int<t>::type]: the specialisations of the template; a
    type without one does not compile. *)
Definition message_type_from_int (t : Z) : option MessageClass :=
  if t =? constants.DHT_GET then Some CLASS_KEY
  else if t =? constants.DHT_PUT then Some CLASS_PUT
  else if t =? constants.DHT_PUT_KEY_IS_HASH_OF_DATA then Some CLASS_PUT_KEY_IS_HASH_OF_DATA
  else if t =? constants.DHT_GET_KEY_IS_HASH_OF_DATA then Some CLASS_GET_KEY_IS_HASH_OF_DATA
  else None.

(** The dynamic type of a message. *)
Definition class_of (m : Message) : MessageClass :=
  match m with
  | MsgPut _ => CLASS_PUT
  | MsgKey _ => CLASS_KEY
  | MsgPutHash _ => CLASS_PUT_KEY_IS_HASH_OF_DATA
  | MsgGetHash _ => CLASS_GET_KEY_IS_HASH_OF_DATA
  end.

(** [dynamic_cast<const T &>(message_data)]. *)
Definition dynamic_cast (c : MessageClass) (m : Message) : outcome (class_data c) :=
  match c, m with
  | CLASS_KEY, MsgKey m => Ok m
  | CLASS_PUT, MsgPut m => Ok m
  | CLASS_PUT_KEY_IS_HASH_OF_DATA, MsgPutHash m => Ok m
  | CLASS_GET_KEY_IS_HASH_OF_DATA, MsgGetHash m => Ok m
  | _, _ => Exn "std::bad_cast"
  end.

(** The field [msg_type] of a message's header. *)
Definition msg_type (m : Message) : Z := header_msg_type (m_header (Message_data m)).

(** A message whose dynamic type is the one its header announces. *)
Definition typed (m : Message) : Prop := message_type_from_int (msg_type m) = Some (class_of m).

(** ** Handlers *)

Section Handlers.
Context {W A : Type}.

Definition request_handler_t : Type := Message → M W A.
Definition request_handler_specific_t (c : MessageClass) : Type := class_data c → M W A.
Abbreviation handlers_t := (gmap Z request_handler_t).

(** The closure [on] registers for a handler of one class. *)
Definition wrap (c : MessageClass) (r : request_handler_specific_t c) : request_handler_t :=
  λ m, data ← lift (dynamic_cast c m); r data.

(** [on<t>(handler)]: [Ht] is the condition under which the template is
    instantiated. *)
Definition on (t : Z) (c : MessageClass) (Ht : message_type_from_int t = Some c)
    (handler : option (request_handler_specific_t c)) (handlers : handlers_t) : handlers_t :=
  match handler with
  | Some r => <[t := wrap c r]> handlers
  | None => delete t handlers
  end.

(** [m_requestHandlers.contains(t)]. *)
Definition contains (handlers : handlers_t) (t : Z) : bool := bool_decide (is_Some (handlers !! t)).

(** [m_requestHandlers.find(type)->second(message, token)], the call a
    connection makes on a thread of its own. *)
Definition call_handler (handlers : handlers_t) (m : Message) : M W A :=
  match (handlers !! msg_type m : option request_handler_t) with
  | Some h => h m
  | None => undefined "dereference of an end iterator"
  end.

(** Every handler was registered by [on]. *)
Definition registered (handlers : handlers_t) : Prop :=
  ∀ t h, handlers !! t = Some h → ∃ c (r : request_handler_specific_t c),
    message_type_from_int t = Some c ∧ h = wrap c r.

Lemma registered_empty : registered ∅.
Proof. intros t h. by rewrite lookup_empty. Qed.

Lemma registered_on t c Ht handler handlers :
  registered handlers → registered (on t c Ht handler handlers).
Proof.
  intros Hr t' h. destruct handler as [r|]; cbn; intros E.
  - apply lookup_insert_Some in E as [[<- <-]|[_ E]]; [by exists c, r|by eapply Hr].
  - apply lookup_delete_Some in E as [_ E]. by eapply Hr.
Qed.

Lemma dynamic_cast_class m : ∃ d, dynamic_cast (class_of m) m = Ok d.
Proof. destruct m; by eexists. Qed.

(** Handler [r] is registered for the type of [m] and gets [m] itself. *)
Definition handled_by (handlers : handlers_t) (m : Message) (r : request_handler_specific_t (class_of m)) : Prop :=
  handlers !! msg_type m = Some (wrap (class_of m) r) ∧
  ∃ d, dynamic_cast (class_of m) m = Ok d ∧ call_handler handlers m = r d.

(** A typed message reaches the function registered for it. *)
Lemma call_typed handlers m : registered handlers → typed m → contains handlers (msg_type m) = true →
  ∃ r, handled_by handlers m r.
Proof.
  intros Hr Hm Hc. apply bool_decide_eq_true in Hc as [h Hh].
  destruct (Hr _ _ Hh) as (c & r & Hc & ->). unfold typed in Hm. rewrite Hm in Hc. injection Hc as <-.
  destruct (dynamic_cast_class m) as [d Hd]. exists r. split; [done|]. exists d.
  split; [done|]. unfold call_handler. rewrite Hh. unfold wrap. by rewrite Hd.
Qed.

End Handlers.

Arguments request_handler_t W A : clear implicits.
Arguments request_handler_specific_t W A c : clear implicits.

(** ** Requests are typed *)

(** The decoders keep the header they read from the front of the buffer. *)
Lemma decoded_header bytes d :
  MessageData_ctor bytes = Ok d →
  (∀ m, Message_DHT_PUT_decode bytes = Ok m → put_data m = d) ∧
  (∀ m, Message_KEY_decode bytes = Ok m → key_data m = d) ∧
  (∀ m, Message_DHT_PUT_KEY_IS_HASH_OF_DATA_decode bytes = Ok m → ph_data m = d) ∧
  (∀ m, Message_DHT_GET_KEY_IS_HASH_OF_DATA_decode bytes = Ok m → gh_data m = d).
Proof.
  intros Hd. unfold Message_DHT_PUT_decode, Message_KEY_decode, Message_DHT_PUT_KEY_IS_HASH_OF_DATA_decode,
    Message_DHT_GET_KEY_IS_HASH_OF_DATA_decode, read_ext. rewrite Hd. cbn [mbind outcome_bind].
  split_and!; intros m;
    repeat (match goal with |- context [vec_range ?l ?i ?j] => destruct (vec_range l i j) end;
            cbn [mbind outcome_bind]; try done);
    (case_match; [done|]); by intros [= <-].
Qed.

Lemma outcome_bind_Ok {A B} (o : outcome A) (k : A → outcome B) b :
  o ≫= k = Ok b → ∃ a, o = Ok a ∧ k a = Ok b.
Proof. destruct o; [|done..]. by eexists. Qed.

Lemma Request_ctor_typed h bytes d r : MessageData_ctor bytes = Ok d → m_header d = h →
  Request_ctor h bytes = Ok r → typed (m_decodedData r).
Proof.
  intros Hd <-. destruct (decoded_header bytes d Hd) as (H1 & H2 & H3 & H4).
  unfold Request_ctor. case_match; [done|]. intros (m & Hm & [= <-])%outcome_bind_Ok. revert Hm.
  unfold typed, msg_type, message_type_from_int. cbn [m_decodedData].
  destruct (Z.eqb_spec (header_msg_type (m_header d)) constants.DHT_PUT) as [E|_];
    [intros (m' & Hm & [= <-])%outcome_bind_Ok; cbn; by rewrite (H1 _ Hm), E|].
  destruct (Z.eqb_spec (header_msg_type (m_header d)) constants.DHT_GET) as [E|_];
    [intros (m' & Hm & [= <-])%outcome_bind_Ok; cbn; by rewrite (H2 _ Hm), E|].
  destruct (Z.eqb_spec (header_msg_type (m_header d)) constants.DHT_PUT_KEY_IS_HASH_OF_DATA) as [E|_];
    [intros (m' & Hm & [= <-])%outcome_bind_Ok; cbn; by rewrite (H3 _ Hm), E|].
  destruct (Z.eqb_spec (header_msg_type (m_header d)) constants.DHT_GET_KEY_IS_HASH_OF_DATA) as [E|_];
    [intros (m' & Hm & [= <-])%outcome_bind_Ok; cbn; by rewrite (H4 _ Hm), E|done].
Qed.

(** ** A connection only accepts typed requests *)

(** The header of the body being read is the one in the buffer. *)
Record conn_ok (c : Conn) : Prop := {
  ok_header : length (c_header c) = sizeof_header;
  ok_body h n : c_pending c = Some (ReadBody h n) →
    ∃ raw, read_header (c_header c) 0 = Ok raw ∧ MessageHeader_of_raw raw = h;
}.

Lemma conn_ok_ctor header : length header = sizeof_header → conn_ok (Connection_ctor header).
Proof. intros Hl. by constructor. Qed.

Lemma conn_ok_same c c' : conn_ok c → c_header c' = c_header c →
  (∀ h n, c_pending c' = Some (ReadBody h n) → c_pending c = Some (ReadBody h n)) → conn_ok c'.
Proof. intros [Hl Hb] E Hp. constructor; rewrite E; [done|]. intros h n Hn. by eapply Hb, Hp. Qed.

Lemma read_header_front header rest : length header = sizeof_header →
  read_header (header ++ rest) 0 = read_header header 0.
Proof.
  unfold sizeof_header. intros Hl. unfold read_header.
  rewrite !vec_range_Ok by (rewrite ?length_app; lia). by rewrite !drop_0, take_app_le by lia.
Qed.

Section ConnTyped.
Context (handled : Z → bool).

Definition obs_typed (obs : list Obs) : Prop :=
  ∀ m, Accepted m ∈ obs → typed m ∧ handled (msg_type m) = true.

Lemma conn_ok_header c got error c' : conn_ok c → (length got <= sizeof_header)%nat →
  header_read got error c = Ok c' → conn_ok c'.
Proof.
  intros Hok Hg. unfold header_read, finish_read. cbn [c_open c_header].
  pose proof (ok_header _ Hok) as Hl. destruct (c_open c).
  - intros (raw & Hr & [= <-])%outcome_bind_Ok.
    constructor; cbn; [rewrite length_fill; lia|]. intros h n [= <- <-]. by exists raw.
  - intros [= <-]. constructor; cbn; [rewrite length_fill; lia|done].
Qed.

Lemma conn_ok_body c h n got error c' obs : conn_ok c → c_pending c = Some (ReadBody h n) →
  body_read handled h got error c = Ok (c', obs) → conn_ok c' ∧ obs_typed obs.
Proof.
  intros Hok Hp. pose proof (ok_header _ Hok) as Hl. destruct (ok_body _ Hok _ _ Hp) as (raw & Hraw & Hh).
  unfold body_read. cbn [c_header c_data]. rewrite fill_front.
  set (c1 := start_read _). assert (∀ l, conn_ok (with_calls l c1)) as Hk.
  { intros l. constructor; [done|]. cbn. by destruct (c_open c). }
  assert (conn_ok c1) as Hk1 by exact (Hk (c_calls c1)).
  assert (obs_typed []) as Hnil by (by intros m ?%elem_of_nil).
  destruct error; [by intros [= <- <-]|]. destruct (0 <? length got)%nat; [|by intros [= <- <-]].
  destruct (Request_ctor h (c_header c ++ got)) as [r|e|e|] eqn:E; [|by intros [= <- <-]|done..].
  destruct (c_open c1 && _) eqn:Eh; [|by intros [= <- <-]]. destruct (c_locked c1); [done|].
  intros [= <- <-]. split; [apply Hk|].
  intros m Hm. apply list_elem_of_singleton in Hm as [= ->]. apply andb_true_iff in Eh as [_ Hhan].
  split; [|done]. eapply (Request_ctor_typed h _ (mkData (c_header c ++ got) h)); [|done|exact E].
  unfold MessageData_ctor. rewrite read_header_front, Hraw by done. by rewrite <- Hh.
Qed.

Lemma conn_ok_step c e c' obs : conn_ok c → enabled c e = true →
  step handled c e = Ok (c', obs) → conn_ok c' ∧ obs_typed obs.
Proof.
  intros Hok Hen Hstep. assert (obs_typed []) as Hnil by (by intros m ?%elem_of_nil).
  destruct e as [got error|got error|i result|written|]; cbn in Hstep.
  - apply outcome_bind_Ok in Hstep as (c1 & Hc & [= <- <-]). split; [|done].
    eapply conn_ok_header; [done| |done]. cbn in Hen. destruct (c_pending c) as [[]|]; [|done..].
    unfold read_of in Hen. destruct error;
      [by apply Nat.leb_le in Hen|apply Nat.eqb_eq in Hen; lia].
  - cbn in Hen. destruct (c_pending c) as [[|h n]|] eqn:Hp; [done| |done]. by eapply conn_ok_body.
  - injection Hstep as <- <-. split; [|done]. by apply (conn_ok_same c).
  - injection Hstep as Hm. unfold manager_turn in Hm.
    destruct (c_manager c), (c_open c); cbn in Hm; try (injection Hm as <- <-; split; [by apply (conn_ok_same c)|done]).
    destruct (c_calls c) as [|[m [|bytes|]] calls]; injection Hm as <- <-;
      (split; [by apply (conn_ok_same c)|]); try done.
    by intros m' [=]%list_elem_of_singleton.
  - injection Hstep as <- <-. split; [|done]. by apply (conn_ok_same c).
Qed.

End ConnTyped.

(** ** The acceptor *)

(** A connection with what has been seen of it. *)
Record Client := mkClient { cl_conn : Conn; cl_trace : list Obs }.

Section Api.
Context {W A : Type}.
Abbreviation handlers := (gmap Z (request_handler_t W A)).

Record Api := mkApi {
  a_isRunning : bool;
  (** [async_accept]s in flight *)
  a_accepting : nat;
  a_openConnections : list Client;
  a_requestHandlers : handlers;
  (** the service thread waits for a mutex that is never released *)
  a_blocked : bool;
}.

Definition with_clients (l : list Client) (a : Api) : Api :=
  mkApi (a_isRunning a) (a_accepting a) l (a_requestHandlers a) (a_blocked a).

(** [Connection::isDone]. *)
Definition isDone (cl : Client) : bool := c_done (cl_conn cl).

(** [Api::start_accept]: one more accept in flight, then the connections that
    are done are erased. *)
Definition start_accept (a : Api) : Api :=
  if negb (a_isRunning a) then a
  else mkApi (a_isRunning a) (S (a_accepting a))
         (filter (λ cl, negb (isDone cl)) (a_openConnections a)) (a_requestHandlers a) (a_blocked a).

(** The constructor; binding the port has succeeded. *)
Definition Api_ctor : Api := start_accept (mkApi true 0 [] ∅ false).

(** The continuation of an accept; [header] is what the buffer of the new
    connection holds. *)
Definition accepted_socket (error : bool) (header : list Z) (a : Api) : Api :=
  let a := start_accept (mkApi (a_isRunning a) (pred (a_accepting a)) (a_openConnections a)
                           (a_requestHandlers a) (a_blocked a)) in
  if error then a
  else with_clients (a_openConnections a ++ [mkClient (Connection_ctor header) []]) a.

(** The destructor up to the clearing of the connections: it waits for the
    service thread, then closes the connections. *)
Definition Api_dtor (a : Api) : outcome Api :=
  if a_blocked a then NoFuel
  else Ok (mkApi false 0 ((λ cl, mkClient (close (cl_conn cl)) (cl_trace cl)) <$> a_openConnections a)
             (a_requestHandlers a) false).

(** The destructor of a connection waits for its manager and its handlers. *)
Definition joinable (c : Conn) : bool :=
  negb (c_manager c) && forallb (λ call, match call.2 with Running => false | _ => true end) (c_calls c).

Inductive ApiEvent :=
| ApiAccept (error : bool) (header : list Z)
| ApiConn (i : nat) (e : Event)
| ApiOn (t : Z) (c : MessageClass) (Ht : message_type_from_int t = Some c)
    (handler : option (request_handler_specific_t W A c))
| ApiStop.

(** Events of a connection that run on the service thread. *)
Definition on_service (e : Event) : bool :=
  match e with EvHeader _ _ | EvBody _ _ => true | _ => false end.

Definition api_enabled (a : Api) (e : ApiEvent) : bool :=
  match e with
  | ApiAccept _ header =>
      a_isRunning a && negb (a_blocked a) && (0 <? a_accepting a)%nat && (length header =? sizeof_header)%nat
  | ApiConn i e =>
      match a_openConnections a !! i, e with
      | _, EvClose => false
      | Some cl, _ => enabled (cl_conn cl) e && (negb (on_service e) || (a_isRunning a && negb (a_blocked a)))
      | None, _ => false
      end
  | ApiOn _ _ _ _ | ApiStop => a_isRunning a
  end.

Definition api_step (a : Api) (e : ApiEvent) : outcome Api :=
  match e with
  | ApiAccept error header => Ok (accepted_socket error header a)
  | ApiConn i e =>
      match a_openConnections a !! i with
      | None => Ok a
      | Some cl =>
          match step (contains (a_requestHandlers a)) (cl_conn cl) e with
          | Ok (c', obs) => Ok (with_clients (<[i := mkClient c' (cl_trace cl ++ obs)]> (a_openConnections a)) a)
          | NoFuel => Ok (mkApi (a_isRunning a) (a_accepting a) (a_openConnections a) (a_requestHandlers a) true)
          | Exn _ => Ok a
          | UB w => UB w
          end
      end
  | ApiOn t c Ht handler =>
      Ok (mkApi (a_isRunning a) (a_accepting a) (a_openConnections a) (on t c Ht handler (a_requestHandlers a))
            (a_blocked a))
  | ApiStop => Api_dtor a
  end.

(** States an API can be in; [n] counts the clients it has accepted. *)
Inductive api_reaches : Api → nat → Prop :=
| api_start : api_reaches Api_ctor 0
| api_next a n e a' : api_reaches a n → api_enabled a e = true → api_step a e = Ok a' →
    api_reaches a' (match e with ApiAccept false _ => S n | _ => n end).

End Api.

(** ** What holds of every reachable API *)

Section ApiInvariant.
Context {W A : Type}.
Implicit Types (a : @Api W A) (cl : Client).

(** What a client sees, at any time. *)
Record client_ok cl : Prop := {
  co_fifo : fifo (cl_conn cl) (cl_trace cl);
  co_conn : conn_ok (cl_conn cl);
  co_typed m : Accepted m ∈ cl_trace cl → typed m;
}.

(** An open connection that has not ended. *)
Definition live cl : bool := c_open (cl_conn cl) && negb (c_done (cl_conn cl)).

Record api_ok a (n : nat) : Prop := {
  ao_handlers : registered (a_requestHandlers a);
  ao_clients : Forall client_ok (a_openConnections a);
  ao_running : a_isRunning a = true → a_accepting a = 1%nat ∧ length (a_openConnections a) = n ∧
    Forall (λ cl, live cl = true) (a_openConnections a);
}.

Lemma client_ok_new header : length header = sizeof_header → client_ok (mkClient (Connection_ctor header) []).
Proof. intros Hl. constructor; [apply fifo_ctor|by apply conn_ok_ctor|by intros m ?%elem_of_nil]. Qed.

Lemma client_ok_step handled cl e c' obs : client_ok cl → enabled (cl_conn cl) e = true →
  step handled (cl_conn cl) e = Ok (c', obs) → client_ok (mkClient c' (cl_trace cl ++ obs)).
Proof.
  intros [Hf Hc Ht] Hen Hs. destruct (conn_ok_step _ _ _ _ _ Hc Hen Hs) as [Hc' Ho].
  constructor; cbn; [by eapply fifo_step|done|].
  intros m [Hm|Hm]%elem_of_app; [by apply Ht|by apply Ho].
Qed.

(** Only [close] ends a connection. *)
Lemma live_step handled cl e c' obs tr : live cl = true → e ≠ EvClose →
  step handled (cl_conn cl) e = Ok (c', obs) → live (mkClient c' tr) = true.
Proof.
  unfold live. intros (Ho & Hd)%andb_true_iff Hne Hs. cbn [cl_conn]. revert Hs.
  destruct e as [got error|got error|i r|k|]; cbn; [..|done].
  - intros (c1 & Hc & [= <- <-])%outcome_bind_Ok. unfold header_read, finish_read in Hc. cbn in Hc.
    rewrite Ho in Hc. apply outcome_bind_Ok in Hc as (raw & _ & [= <-]). cbn. by rewrite ?Ho, Hd.
  - unfold body_read. repeat case_match; intros [= <- <-]; cbn; by rewrite ?Ho, ?Hd.
  - intros [= <- <-]. cbn. by rewrite ?Ho, Hd.
  - unfold manager_turn. rewrite Ho. intros [= Hm]. revert Hm.
    repeat case_match; intros [= <- <-]; cbn; by rewrite ?Ho, ?Hd.
Qed.

Lemma filter_live l : Forall (λ cl, live cl = true) l → filter (λ cl, negb (isDone cl)) l = l.
Proof.
  induction 1 as [|cl l Hcl Hl IH]; [done|]. unfold live in Hcl. apply andb_true_iff in Hcl as [_ Hd].
  rewrite filter_cons_True; [by f_equal|]. unfold isDone. by destruct (c_done (cl_conn cl)).
Qed.

Lemma api_ok_accept error header a n : api_ok a n → a_isRunning a = true → length header = sizeof_header →
  api_ok (accepted_socket error header a) (if error then n else S n).
Proof.
  intros [Hh Hc Hr] Hrun Hl. destruct (Hr Hrun) as (Ha & Hn & Hlive).
  unfold accepted_socket, start_accept. cbn [a_isRunning a_openConnections]. rewrite Hrun, Ha. cbn [negb].
  rewrite filter_live by done. destruct error; [by constructor|].
  constructor; cbn; [done|apply Forall_app; split; [done|repeat constructor; by apply client_ok_new]|].
  intros _. split; [done|]. rewrite length_app, Hn. cbn. split; [lia|].
  apply Forall_app. by repeat constructor.
Qed.

Lemma api_ok_conn i e a a' n : api_ok a n → api_enabled a (ApiConn i e) = true →
  api_step a (ApiConn i e) = Ok a' → api_ok a' n.
Proof.
  intros [Hh Hc Hr]. cbn [api_enabled api_step].
  destruct (a_openConnections a !! i) as [cl|] eqn:Ei; [|by destruct e].
  intros Hen. assert (e ≠ EvClose ∧ enabled (cl_conn cl) e = true) as [Hne Hen'].
  { destruct e; split; try done; by apply andb_true_iff in Hen as [? _]. }
  destruct (step _ (cl_conn cl) e) as [[c' obs]|x|x|] eqn:Hs; intros [= <-]; [|by constructor..].
  constructor; cbn; [done| |].
  - apply Forall_insert; [done|]. eapply client_ok_step; [|done..]. by eapply Forall_lookup_1.
  - intros Hrun. destruct (Hr Hrun) as (Ha & Hn & Hlive). split; [done|].
    rewrite length_insert. split; [done|]. apply Forall_insert; [done|].
    eapply live_step; [|done..]. by eapply (Forall_lookup_1 _ _ _ _ Hlive).
Qed.

Lemma client_ok_close cl : client_ok cl → client_ok (mkClient (close (cl_conn cl)) (cl_trace cl)).
Proof.
  intros [[Ho Hs] Hc Ht]. constructor; [by constructor| |done]. by apply (conn_ok_same (cl_conn cl)).
Qed.

Lemma api_ok_reaches a n : api_reaches a n → api_ok a n.
Proof.
  induction 1 as [|a n e a' Hreach IH Hen Hs].
  - constructor; [apply registered_empty|constructor|done].
  - destruct e as [error header|i e|t c Ht handler|].
    + injection Hs as <-. cbn in Hen. rewrite !andb_true_iff, Nat.eqb_eq in Hen.
      destruct Hen as [[[Hrun _] _] Hl]. pose proof (api_ok_accept error header a n IH Hrun Hl).
      by destruct error.
    + by eapply api_ok_conn.
    + injection Hs as <-. destruct IH as [Hh Hc Hr]. constructor; [by apply registered_on|done|done].
    + cbn in Hs. unfold Api_dtor in Hs. destruct (a_blocked a); [done|]. injection Hs as <-.
      destruct IH as [Hh Hc Hr]. constructor; [done| |done]. cbn.
      apply Forall_fmap. eapply Forall_impl; [done|]. apply client_ok_close.
Qed.

(** C16: Requests are well typed. In every state an API can reach, for every
    client: the requests accepted so far are the answered ones followed by
    the waiting ones, in order; each of them was decoded to the class its
    header announces; and if a handler is registered for its type, it is one
    for that class, registered with [on], and it is called with the message
    itself: the [dynamic_cast] in the wrapper never throws [std::bad_cast]. *)
Theorem requests_well_typed a n cl : api_reaches a n → cl ∈ a_openConnections a →
  accepted (cl_trace cl) = (answered (cl_trace cl)).*1 ++ (c_calls (cl_conn cl)).*1 ∧
  ∀ m, Accepted m ∈ cl_trace cl → message_type_from_int (msg_type m) = Some (class_of m) ∧
    (contains (a_requestHandlers a) (msg_type m) = true → ∃ r, handled_by (a_requestHandlers a) m r).
Proof.
  intros [Hh Hc _]%api_ok_reaches Hcl. rewrite Forall_forall in Hc. destruct (Hc cl Hcl) as [[Ho _] _ Ht].
  split; [done|]. intros m Hm. split; [by apply Ht|]. intros Hreg. by apply call_typed; [|apply Ht|].
Qed.

(** C31: No client is ever released. As long as the API runs, exactly one
    accept is in flight, so clients are always admitted, and the list of open
    connections holds every client accepted so far: none of them is ever
    done, whatever its socket reports, so the pruning in [start_accept]
    removes nothing. *)
Theorem no_client_is_released a n : api_reaches a n → a_isRunning a = true →
  a_accepting a = 1%nat ∧ length (a_openConnections a) = n ∧
  filter (λ cl, negb (isDone cl)) (a_openConnections a) = a_openConnections a.
Proof.
  intros [_ _ Hr]%api_ok_reaches Hrun. destruct (Hr Hrun) as (Ha & Hn & Hl).
  split_and!; [done..|]. by apply filter_live.
Qed.

(** ** Shutdown *)

(** A closed connection whose handlers have returned can be destroyed after
    the next turn of its manager. *)
Lemma closed_joinable c k : c_open c = false →
  (∀ call, call ∈ c_calls c → call.2 ≠ Running) → joinable (manager_turn k c).1 = true.
Proof.
  intros Ho Hcalls. assert (c_calls (manager_turn k c).1 = c_calls c ∧ c_manager (manager_turn k c).1 = false)
    as [Hc Hm] by (unfold manager_turn; rewrite Ho; by destruct (c_manager c) eqn:E; rewrite ?E).
  unfold joinable. rewrite Hc, Hm. apply forallb_forall. intros call Hin%list_elem_of_In.
  specialize (Hcalls call Hin). by destruct call.2.
Qed.

(** The destructor of the API returns. Unless the service thread hangs,
    it closes every connection, keeping what each client has been sent; from
    then on, each connection can be destroyed as soon as its handlers have
    returned and its manager has had one more turn. *)
Theorem shutdown_ends a : a_blocked a = false →
  ∃ a', Api_dtor a = Ok a' ∧ a_isRunning a' = false ∧
    (c_sent ∘ cl_conn) <$> a_openConnections a' = (c_sent ∘ cl_conn) <$> a_openConnections a ∧
    ∀ cl k, cl ∈ a_openConnections a' →
      (∀ call, call ∈ c_calls (cl_conn cl) → call.2 ≠ Running) →
      joinable (manager_turn k (cl_conn cl)).1 = true.
Proof.
  intros Hb. unfold Api_dtor. rewrite Hb. eexists. split_and!; [done|done|..]; cbn.
  - by rewrite <- list_fmap_compose.
  - intros cl k (cl0 & -> & _)%list_elem_of_fmap. by apply closed_joinable.
Qed.

(** ** A handler that throws *)

Fixpoint api_events a (l : list (@ApiEvent W A)) : option (outcome (@Api W A)) :=
  match l with
  | [] => Some (Ok a)
  | e :: l =>
      if api_enabled a e then
        match api_step a e with Ok a' => api_events a' l | o => Some o end
      else None
  end.

(** Nothing releases the service thread. *)
Lemma blocked_for_ever a e a' : a_blocked a = true → api_step a e = Ok a' → a_blocked a' = true.
Proof.
  intros Hb. destruct e as [error header|i e|t c Ht handler|]; cbn.
  - intros [= <-]. unfold accepted_socket, start_accept. cbn. by destruct (a_isRunning a), error.
  - repeat case_match; by intros [= <-].
  - by intros [= <-].
  - unfold Api_dtor. by rewrite Hb.
Qed.

Lemma api_conn_step a i cl e c' obs : a_isRunning a = true → a_blocked a = false →
  a_openConnections a !! i = Some cl → e ≠ EvClose → enabled (cl_conn cl) e = true →
  step (contains (a_requestHandlers a)) (cl_conn cl) e = Ok (c', obs) →
  api_enabled a (ApiConn i e) = true ∧
  api_step a (ApiConn i e)
  = Ok (with_clients (<[i := mkClient c' (cl_trace cl ++ obs)]> (a_openConnections a)) a).
Proof.
  intros Hr Hb Hi Hne Hen Hs. cbn. rewrite Hi, Hr, Hb, Hs. split; [|done].
  destruct e; try done; cbn in *; by rewrite Hen.
Qed.

Lemma api_events_blocked a l a' : a_blocked a = true → api_events a l = Some (Ok a') → a_blocked a' = true.
Proof.
  revert a. induction l as [|e l IH]; intros a Hb; cbn; [by intros [= <-]|].
  destruct (api_enabled a e); [|done]. destruct (api_step a e) eqn:E; [|done..].
  apply IH. by eapply blocked_for_ever.
Qed.

(** A locked connection and the two reads of a handled request. *)
Lemma locked_request_blocks a i cl f h m :
  a_isRunning a = true → a_blocked a = false → a_openConnections a !! i = Some cl →
  c_open (cl_conn cl) = true → c_pending (cl_conn cl) = Some ReadHeader → c_locked (cl_conn cl) = true →
  length (c_header (cl_conn cl)) = sizeof_header →
  framed h f → Z.of_nat sizeof_header < header_size h < 2 ^ 16 →
  decode (contains (a_requestHandlers a)) f = Some m →
  ∃ a', api_events a (ApiConn i <$> frame_events f) = Some (Ok a') ∧ a_blocked a' = true.
Proof.
  intros Hr Hb Hi Ho Hp Hk Hh Hf Hs Hdec. pose proof (lookup_lt_Some _ _ _ Hi) as Hlt.
  destruct (frame_header (contains (a_requestHandlers a)) (cl_conn cl) f h)
    as (He1 & c1 & Hs1 & Ho1 & Hk1 & Hh1 & Hp1 & _); [done..|lia|]. rewrite Hk in Hk1.
  destruct (frame_body_locked (contains (a_requestHandlers a)) c1 f h m) as [He2 Hs2]; [done..|lia|done|].
  destruct (api_conn_step a i cl (EvHeader (take sizeof_header f) false) c1 []) as [Hen Hst]; [done..|].
  eexists. cbn [fmap list_fmap frame_events api_events]. rewrite Hen, Hst.
  set (a1 := with_clients _ a). cbn [api_enabled api_step].
  assert (a_openConnections a1 !! i = Some (mkClient c1 (cl_trace cl ++ []))) as ->
    by (by apply list_lookup_insert_eq).
  change (a_requestHandlers a1) with (a_requestHandlers a). change (a_isRunning a1) with (a_isRunning a).
  change (a_blocked a1) with (a_blocked a). cbn [cl_conn]. by rewrite He2, Hs2, Hr, Hb.
Qed.

(** C37: One handler that throws stops the whole API. When the next answer of a
    client is an exception, the thread that sends the answers dies with the
    mutex held; the next request of this client then blocks the service
    thread for ever: no accept and no read of any client completes any more,
    and the destructor of the API does not return. *)
Theorem throwing_handler_blocks_api a i cl m calls f h m' :
  a_isRunning a = true → a_blocked a = false → a_openConnections a !! i = Some cl →
  ready (cl_conn cl) → c_manager (cl_conn cl) = true → c_calls (cl_conn cl) = (m, Threw) :: calls →
  framed h f → Z.of_nat sizeof_header < header_size h < 2 ^ 16 →
  decode (contains (a_requestHandlers a)) f = Some m' →
  ∃ a', api_events a (ApiConn i (EvManager None) :: (ApiConn i <$> frame_events f)) = Some (Ok a') ∧
    ∀ l a'', api_events a' l = Some (Ok a'') →
      Api_dtor a'' = NoFuel ∧
      (∀ error header, api_enabled a'' (ApiAccept error header) = false) ∧
      ∀ j e, on_service e = true → api_enabled a'' (ApiConn j e) = false.
Proof.
  intros Hr Hb Hi (Ho & Hp & Hk & Hh & Hd) Hm Hcalls Hf Hs Hdec.
  pose proof (lookup_lt_Some _ _ _ Hi) as Hlt. set (c := cl_conn cl) in *.
  set (c1 := mkConn true (c_header c) (c_data c) (Some ReadHeader) ((m, Threw) :: calls) true false
               (c_done c) (c_sent c)).
  destruct (api_conn_step a i cl (EvManager None) c1 []) as [He1 Hs1];
    [done..|cbn; fold c; by rewrite Hcalls|cbn; unfold manager_turn; fold c; by rewrite Hm, Ho, Hcalls, Hp|].
  set (a1 := with_clients _ a) in Hs1.
  destruct (locked_request_blocks a1 i (mkClient c1 (cl_trace cl ++ [])) f h m') as (a' & Ha' & Hbl);
    [done|done|by apply list_lookup_insert_eq|done..|].
  exists a'. cbn [api_events]. rewrite He1, Hs1. split; [done|]. intros l a'' Hl.
  pose proof (api_events_blocked _ _ _ Hbl Hl) as Hb''. unfold Api_dtor. cbn. rewrite Hb''. split_and!; [done|..].
  - intros. by rewrite andb_false_r.
  - intros j e He. destruct (a_openConnections a'' !! j), e; try done; by rewrite andb_false_r, andb_false_r.
Qed.

Lemma api_events_reach a n l a' : api_reaches a n → api_events a l = Some (Ok a') → ∃ n', api_reaches a' n'.
Proof.
  revert a n. induction l as [|e l IH]; intros a n Hr; cbn; [intros [= <-]; eauto|].
  destruct (api_enabled a e) eqn:He; [|done]. destruct (api_step a e) eqn:Hs; [|done..].
  eapply IH. by eapply api_next.
Qed.

End ApiInvariant.

(** ** An API with one handler and one client *)

Section Example.

(** A registration, a client and its request, as events. *)
Definition example_events : list (@ApiEvent unit (list Z)) :=
  [ApiOn constants.DHT_GET CLASS_KEY eq_refl (Some (λ m, mret (key_key m))); ApiAccept false [0; 0; 0; 0]]
  ++ (ApiConn 0 <$> frame_events (get_frame 7)).

Definition example_api : @Api unit (list Z) :=
  match api_events Api_ctor example_events with Some (Ok a) => a | _ => Api_ctor end.

Lemma example_api_run : api_events Api_ctor example_events = Some (Ok example_api).
Proof.
  unfold example_api.
  assert (match api_events Api_ctor example_events with Some (Ok _) => true | _ => false end = true) as H
    by (vm_compute; reflexivity).
  by destruct (api_events Api_ctor example_events) as [[| | |]|].
Qed.

Lemma example_client : ∃ cl m n, api_reaches example_api n ∧ a_isRunning example_api = true ∧
  a_openConnections example_api = [cl] ∧
  Accepted m ∈ cl_trace cl ∧ contains (a_requestHandlers example_api) (msg_type m) = true.
Proof.
  destruct (api_events_reach _ 0 _ _ api_start example_api_run) as [n Hn].
  assert (match a_openConnections example_api with
          | [cl] => match cl_trace cl with
                    | [Accepted m] => contains (a_requestHandlers example_api) (msg_type m)
                    | _ => false
                    end
          | _ => false
          end = true) as H by (vm_compute; reflexivity).
  assert (a_isRunning example_api = true) as Hr by (vm_compute; reflexivity).
  revert H Hr Hn. generalize example_api. intros a H Hr Hn.
  destruct (a_openConnections a) as [|cl [|]]; try done.
  destruct (cl_trace cl) as [|[m|] [|]] eqn:E; try done.
  exists cl, m, n. rewrite E. split_and!; [done|done|done|by left|done].
Qed.

Lemma requests_well_typed_witness : ∃ cl m, a_openConnections example_api = [cl] ∧
  accepted (cl_trace cl) = (answered (cl_trace cl)).*1 ++ (c_calls (cl_conn cl)).*1 ∧
  message_type_from_int (msg_type m) = Some (class_of m) ∧ ∃ r, handled_by (a_requestHandlers example_api) m r.
Proof.
  destruct example_client as (cl & m & n & Hn & _ & Hl & Hm & Hc). exists cl, m. split; [exact Hl|].
  destruct (requests_well_typed example_api n cl Hn) as [Ho Ht]; [rewrite Hl; by left|].
  destruct (Ht m Hm) as [Hty Hr]. split; [exact Ho|]. split; [exact Hty|exact (Hr Hc)].
Defined.

Lemma no_client_is_released_witness : ∃ n, a_accepting example_api = 1%nat ∧
  length (a_openConnections example_api) = n ∧
  filter (λ cl, negb (isDone cl)) (a_openConnections example_api) = a_openConnections example_api.
Proof.
  destruct example_client as (cl & m & n & Hn & Hr & _). exists n.
  exact (no_client_is_released example_api n Hn Hr).
Defined.

Lemma shutdown_ends_witness : ∃ a', Api_dtor example_api = Ok a' ∧ a_isRunning a' = false ∧
    (c_sent ∘ cl_conn) <$> a_openConnections a' = (c_sent ∘ cl_conn) <$> a_openConnections example_api ∧
    ∀ cl k, cl ∈ a_openConnections a' →
      (∀ call, call ∈ c_calls (cl_conn cl) → call.2 ≠ Running) →
      joinable (manager_turn k (cl_conn cl)).1 = true.
Proof. apply (shutdown_ends example_api). vm_compute. reflexivity. Defined.

(** The handler of the example throws. *)
Definition throwing_api : @Api unit (list Z) :=
  match api_events example_api [ApiConn 0 (EvHandler 0 Threw)] with Some (Ok a) => a | _ => example_api end.

Lemma throwing_client : ∃ cl m calls m', a_isRunning throwing_api = true ∧ a_blocked throwing_api = false ∧
  a_openConnections throwing_api !! 0%nat = Some cl ∧ ready (cl_conn cl) ∧
  c_manager (cl_conn cl) = true ∧ c_calls (cl_conn cl) = (m, Threw) :: calls ∧
  decode (contains (a_requestHandlers throwing_api)) (get_frame 8) = Some m'.
Proof.
  assert (match a_openConnections throwing_api with
          | [cl] =>
              match c_calls (cl_conn cl), c_pending (cl_conn cl) with
              | (_, Threw) :: _, Some ReadHeader =>
                  c_open (cl_conn cl) && c_manager (cl_conn cl) && negb (c_locked (cl_conn cl))
                  && bool_decide (length (c_header (cl_conn cl)) = sizeof_header)
                  && bool_decide (length (c_data (cl_conn cl)) = data_size)
              | _, _ => false
              end
          | _ => false
          end = true) as H by (vm_compute; reflexivity).
  assert (∃ m', decode (contains (a_requestHandlers throwing_api)) (get_frame 8) = Some m') as [m' Hm'].
  { apply is_Some_alt. vm_compute. exact I. }
  assert (a_isRunning throwing_api = true ∧ a_blocked throwing_api = false) as [Hr Hb] by (split; vm_compute; reflexivity).
  revert H Hr Hb Hm'. generalize throwing_api. intros a H Hr Hb Hm'.
  destruct (a_openConnections a) as [|cl [|]]; try done.
  destruct (c_calls (cl_conn cl)) as [|[m [| |]] calls] eqn:Ec; try done.
  destruct (c_pending (cl_conn cl)) as [[|]|] eqn:Ep; try done.
  rewrite !andb_true_iff, !bool_decide_eq_true, negb_true_iff in H. destruct H as [[[[Ho Hm] Hk] Hh] Hd].
  by exists cl, m, calls, m'.
Qed.

Lemma example_frame : framed (mkHeader 36 constants.DHT_GET) (get_frame 8) ∧
  Z.of_nat sizeof_header < header_size (mkHeader 36 constants.DHT_GET) < 2 ^ 16.
Proof. done. Qed.

Lemma throwing_handler_blocks_api_witness : ∃ a',
  api_events throwing_api (ApiConn 0 (EvManager None) :: (ApiConn 0 <$> frame_events (get_frame 8))) = Some (Ok a') ∧
  Api_dtor a' = NoFuel.
Proof.
  destruct throwing_client as (cl & m & calls & m' & Hr & Hb & Hi & Hrd & Hm & Hc & Hd).
  destruct (throwing_handler_blocks_api throwing_api 0 cl m calls (get_frame 8) (mkHeader 36 constants.DHT_GET) m'
    Hr Hb Hi Hrd Hm Hc (proj1 example_frame) (proj2 example_frame) Hd) as (a' & Ha' & Hever).
  exists a'. split; [exact Ha'|]. exact (proj1 (Hever [] a' eq_refl)).
Defined.

End Example.
