(* ===== verification/Tests.v ===== *)
(** * Tests: the programs of the test directory

    Models test/assertions.h and the three test programs of the repository, with
    what they print, and runs them on the definitions of the library: they
    return 0, as the programs do. So what the repository's tests check of the
    byte helpers, the constants, the interval test, the addition of identifiers
    and the message formats holds of the model. *)

From S2P Require Import Prelude Util Message Connection Api.

(** What a test writes: standard output and standard error. *)
Record Streams := mkStreams { s_cout : string; s_cerr : string }.

Definition cout (s : string) : M Streams unit := modify (λ o, mkStreams (s_cout o +:+ s) (s_cerr o)).
Definition cerr (s : string) : M Streams unit := modify (λ o, mkStreams (s_cout o) (s_cerr o +:+ s)).

Definition newline : string := String.string_of_list_ascii endl.

(** ** Assertions *)

Definition fail (message : option string) : M Streams unit := throw (default EmptyString message).

Definition assert_true (expression : bool) (message : option string) : M Streams unit :=
  if expression then mret tt else fail message.

Definition assert_false (expression : bool) (message : option string) : M Streams unit :=
  assert_true (negb expression) message.

Definition assert_not_null {A} (ptr : option A) (message : option string) : M Streams unit :=
  assert_true (bool_decide (is_Some ptr)) message.

Definition assert_null {A} (ptr : option A) (message : option string) : M Streams unit :=
  assert_true (bool_decide (ptr = None)) message.

Definition assert_equal (expected actual : Z) (message : option string) : M Streams unit :=
  assert_true (expected =? actual)
    (Some ("Expected: [" +:+ to_string expected +:+ "], actual: [" +:+ to_string actual +:+ "]" +:+
       match message with Some m => " (" +:+ m +:+ ")" | None => "" end)).

(** Every exception of the model derives from [std::exception]. *)
Definition run_test (name : string) (test : M Streams Z) : M Streams Z :=
  cout (newline +:+ "Running Test [" +:+ name +:+ "]" +:+ newline);;
  promise_then test mret (λ e, cerr (e +:+ newline);; mret 1).

(** [a || b] of two numbers. *)
Definition or_else (a b : M Streams Z) : M Streams Z :=
  x ← a; if x =? 0 then (y ← b; mret (if y =? 0 then 0 else 1)) else mret 1.

(** ** foo.cpp *)

Definition test_main : M Streams Z :=
  run_test "Foo" (assert_true true (Some "Message 1");; assert_false false (Some "Message 2");; mret 0).

(** ** test_util.cpp *)

Definition test_util_main : M Streams Z :=
  run_test "Util" (
    assert_equal 0x3412 (swapBytes16 0x1234) None;;
    assert_equal 0x0001 (swapBytes16 0x0100) None;;
    assert_equal 0x78563412 (swapBytes32 0x12345678) None;;
    assert_equal 0x04030201 (swapBytes32 0x01020304) None;;
    assert_equal 0xf0debc9a78563412 (swapBytes64 0x123456789abcdef0) None;;
    assert_equal 0x0807060504030201 (swapBytes64 0x0102030405060708) None;;
    assert_equal 650 constants.DHT_PUT None;;
    assert_equal 651 constants.DHT_GET None;;
    assert_equal 652 constants.DHT_SUCCESS None;;
    assert_equal 653 constants.DHT_FAILURE None;;
    assert_true (is_in_range_loop 1 0 2 false false) None;;
    assert_true (is_in_range_loop 3 2 0 false false) None;;
    assert_true (negb (is_in_range_loop 1 2 0 true true)) None;;
    assert_true (negb (is_in_range_loop 1 2 3 true true)) None;;
    assert_true (bool_decide (array_add 8 [1; 2; 3; 4] [1; 2; 3; 4] = [2; 4; 6; 8])) (Some "array addition 1");;
    assert_true (bool_decide (array_add 8 [1; 254; 255; 128] [1; 1; 0; 128] = [3; 0; 0; 0])) (Some "array addition 2");;
    mret 0).

(** ** test_api.cpp *)

(** [getData<T>()]: the pointer cast, null for another class. *)
Definition request_getData (c : MessageClass) (r : Request) : option (class_data c) :=
  match dynamic_cast c (m_decodedData r) with Ok m => Some m | _ => None end.

Definition text (s : string) : list Z := (λ c, Z.of_N (Ascii.N_of_ascii c)) <$> String.list_ascii_of_string s.

(** The bytes 1 to 32 in order. *)
Definition key32 : list Z := Z.of_nat <$> seq 1 32.

(** The key of the encoding tests, with the bytes 13 to 16 twice. *)
Definition key36 : list Z := take 16 key32 ++ drop 12 key32.

(** [header(reinterpret_cast<const MessageHeaderRaw &>(bytes.front()))]. *)
Definition header_of (bytes : list Z) : M Streams MessageHeader :=
  raw ← lift (read_header bytes 0); mret (MessageHeader_of_raw raw).

Definition show (bytes : list Z) (stride : nat) : M Streams unit :=
  s ← lift (hexdump_os bytes stride EmptyString); cout s.

Definition decode_get : M Streams Z :=
  let bytes := convertToBytes ([0x00; 0x24; 0x02; 0x8b] ++ key32) None in
  header ← header_of bytes;
  request ← lift (Request_ctor header bytes);
  assert_null (request_getData CLASS_PUT request) None;;
  assert_not_null (request_getData CLASS_KEY request) (Some "Data should not be null!");;
  cout ("Key:" +:+ newline);;
  match request_getData CLASS_KEY request with
  | Some request_data => show (key_key request_data) 4
  | None => undefined "null pointer"
  end;;
  mret 0.

Definition put_bytes : list Z :=
  convertToBytes ([0x00; 0x4b; 0x02; 0x8a] ++ key32 ++ text "This is the value " ++ text "that is to be stored.") None.

Definition decode_put : M Streams Z :=
  let bytes := put_bytes in
  header ← header_of bytes;
  request ← lift (Request_ctor header bytes);
  assert_null (request_getData CLASS_KEY request) None;;
  assert_not_null (request_getData CLASS_PUT request) (Some "Data should not be null!");;
  match request_getData CLASS_PUT request with
  | Some request_data =>
      cout ("Key:" +:+ newline);;
      show (put_key request_data) 4;;
      cout newline;;
      cout ("Value:" +:+ newline);;
      show (put_value request_data) 16
  | None => undefined "null pointer"
  end;;
  mret 0.

Definition encode_get : M Streams Z :=
  let key := convertToBytes key36 None in
  let sizeExpected := Z.of_nat (sizeof_header + length key) in
  message ← lift (Message_KEY_encode constants.DHT_GET key);
  header ← header_of (m_bytes (key_data message));
  assert_equal sizeExpected (header_size header) (Some "Size specified in header");;
  assert_equal constants.DHT_GET (header_msg_type header) (Some "Message type specified in header");;
  cout ("Message:" +:+ newline);;
  show (m_bytes (key_data message)) 4;;
  mret 0.

Definition encode_put : M Streams Z :=
  let key := convertToBytes key36 None in
  let value := convertToBytes (text "This is the value, and it has an arbitrary size.") None in
  let sizeExpected := Z.of_nat (sizeof_header + sizeof_ext + length key + length value) in
  message ← lift (Message_DHT_PUT_encode key value 0 0);
  header ← header_of (m_bytes (put_data message));
  assert_equal sizeExpected (header_size header) (Some "Size specified in header");;
  assert_equal constants.DHT_PUT (header_msg_type header) (Some "Message type specified in header");;
  cout ("Message:" +:+ newline);;
  show (m_bytes (put_data message)) 16;;
  mret 0.

Definition test_api_main : M Streams Z :=
  or_else (or_else (or_else (run_test "API DECODE GET" decode_get) (run_test "API DECODE PUT" decode_put))
    (run_test "API ENCODE GET" encode_get)) (run_test "API ENCODE PUT" encode_put).

(** ** What they show *)

(** The repository's tests pass. Each of the three test programs, run on the
    model, returns 0 and writes nothing to standard error. *)
Theorem repository_tests_pass o :
  Forall (λ test, let '(result, o') := test o in result = Ok 0 ∧ s_cerr o' = s_cerr o)
    [test_main; test_util_main; test_api_main].
Proof. destruct o as [out err]. repeat constructor; vm_compute; split; reflexivity. Qed.

(** The message that the test of DHT_PUT decodes has no extended header, so what
    is taken for its key are bytes 5 to 32 of the key and the first word of the
    value: the test does not compare them. *)
Theorem decode_put_test_shifts_key :
  ∃ m, Message_DHT_PUT_decode put_bytes = Ok m ∧
    put_key m = drop 4 key32 ++ text "This" ∧ put_value m = text " is the value that is to be stored." ∧
    put_ext m = mkExt 0x0102 3 4.
Proof. eexists. split; [vm_compute; reflexivity|]. vm_compute. done. Qed.
