(* ===== verification/Topology.v ===== *)
(** * Topology: rings of member addresses

    The abstract specification of a Chord network: a ring of member addresses
    with their neighbours ([Ring], [ring_ok]) and the member responsible for an
    identifier ([responsible]: the first member met clockwise from it). Every
    set of addresses with distinct identifiers forms a ring ([ring_of]), the
    neighbours are determined by the set, and adding an address changes only
    the links next to it. *)

From S2P Require Import Prelude Util Ring NodeInfo Peer.

Abbreviation addr := (string * Z)%type.

(** ** Rings *)

Section RingSpec.
Context `{HashFns}.

(** The node at an address and its position on the circle. *)
Definition nd (a : addr) : Node := Node_ctor a.1 a.2.

Definition aid (a : addr) : list Z := addr_id a.1 a.2.

Definition pos (a : addr) : Z := be_num (aid a).

Record Ring := mkRing {
  members : gset addr;
  rsucc : addr → addr;
  rpred : addr → addr;
}.

(** Distinct members have distinct identifiers, and the neighbours of a
    member are the adjacent members on the circle. *)
Record ring_ok (R : Ring) : Prop := {
  ring_inj a b : a ∈ members R → b ∈ members R → pos a = pos b → a = b;
  ring_succ_mem a : a ∈ members R → rsucc R a ∈ members R;
  ring_pred_mem a : a ∈ members R → rpred R a ∈ members R;
  ring_adjacent a b : a ∈ members R → b ∈ members R →
    ¬ in_arc (pos b) (pos a) (pos (rsucc R a)) false false;
  ring_pred_succ a : a ∈ members R → rpred R (rsucc R a) = a;
  ring_succ_pred a : a ∈ members R → rsucc R (rpred R a) = a;
}.

(** The first member met clockwise from [id]. *)
Definition responsible (R : Ring) (id : Z) (a : addr) : Prop :=
  a ∈ members R ∧ ∀ b, b ∈ members R → cw id (pos a) <= cw id (pos b).

End RingSpec.

Section RingLemmas.
Context `{HashFns} `{!HashOk _}.
Implicit Types (R : Ring) (a b : addr).

Lemma aid_ok a : id_ok (aid a).
Proof. apply sha256_ok. Qed.

Lemma pos_point a : point (pos a).
Proof. apply be_num_point, aid_ok. Qed.

Lemma getId_nd a : Node_getId (nd a) = aid a.
Proof. done. Qed.

Lemma canonical_nd a : canonical (nd a).
Proof. done. Qed.

Lemma nd_roundtrip a : nodeFromReader (buildNode (nd a)) = nd a.
Proof. by apply nodeFromReader_buildNode. Qed.

(** Equality of nodes is equality of positions. *)
Lemma nd_eqb a b : Node_eqb (nd a) (nd b) = bool_decide (pos a = pos b).
Proof.
  unfold Node_eqb. rewrite !getId_nd. apply bool_decide_ext. unfold pos. split; [by intros ->|].
  intros. by apply id_num_inj; [apply aid_ok..|].
Qed.

Lemma range_pos x a b i j : id_ok x →
  is_in_range_loop x (aid a) (aid b) i j = true ↔ in_arc (be_num x) (pos a) (pos b) i j.
Proof. intros. by apply range_arc; [|apply aid_ok..]. Qed.

Section OneRing.
Context (R : Ring) (HR : ring_ok R).

(** The interval test of the code decides responsibility. *)
Lemma responsible_arc id a : point id → a ∈ members R →
  in_arc id (pos (rpred R a)) (pos a) false true ↔ responsible R id a.
Proof.
  intros Hid Ha. pose proof (ring_pred_mem R HR a Ha) as Hp.
  pose proof (pos_point a) as Pa. pose proof (pos_point (rpred R a)) as Pp. split.
  - intros Hin. split; [done|]. intros b Hb. pose proof (pos_point b) as Pb.
    pose proof (ring_adjacent R HR _ b Hp Hb) as Hadj. rewrite (ring_succ_pred R HR a Ha) in Hadj.
    unfold in_arc in *. destruct (decide (pos (rpred R a) = pos a)) as [E|E].
    + assert (pos b = pos a) as ->; [|lia]. rewrite E in Hadj.
      destruct (decide (pos b = pos a)); [done|]. exfalso. apply Hadj. auto.
    + destruct Hin as [?|[Hne Hle]]; [done|].
      assert (pos b = pos (rpred R a) ∨ cw (pos (rpred R a)) (pos a) <= cw (pos (rpred R a)) (pos b)) as Hc.
      { destruct (decide (pos b = pos (rpred R a))); [by left|]. right.
        apply Z.nlt_ge. intros Hlt. apply Hadj. auto. }
      destruct Hc as [->|Hc]; ring_lia.
  - intros [_ Hall]. specialize (Hall _ Hp). unfold in_arc.
    destruct (decide (pos (rpred R a) = pos a)) as [E|E]; [by left|right].
    split; ring_lia.
Qed.

Lemma responsible_unique id a b : point id → responsible R id a → responsible R id b → a = b.
Proof.
  intros Hid [Ha Hla] [Hb Hlb]. apply (ring_inj R HR); [done..|].
  apply (cw_inj id); [done|apply pos_point..|]. specialize (Hla _ Hb). specialize (Hlb _ Ha). lia.
Qed.

(** The members that are closer to the id. *)
Definition closer (id : Z) (a : addr) : gset addr :=
  filter (λ b, gap id (pos b) < gap id (pos a)) (members R).

Lemma closer_size id a c : c ∈ members R → gap id (pos c) < gap id (pos a) →
  (size (closer id c) < size (closer id a))%nat.
Proof.
  intros Hc Hlt. apply subset_size. split.
  - intros b. unfold closer. rewrite !elem_of_filter. intros [? ?]. split; [lia|done].
  - intros Hsub. assert (c ∈ closer id c) as Hin.
    { apply Hsub. unfold closer. by rewrite elem_of_filter. }
    unfold closer in Hin. rewrite elem_of_filter in Hin. lia.
Qed.

Lemma closer_bound id a : (size (closer id a) <= size (members R))%nat.
Proof. apply subseteq_size. intros b. unfold closer. rewrite elem_of_filter. tauto. Qed.

(** A member whose successor does not precede the id has a responsible
    successor. *)
Lemma last_hop_responsible id a : point id → a ∈ members R →
  ¬ in_arc (pos (rsucc R a)) (pos a) id false false → responsible R id (rsucc R a).
Proof.
  intros Hid Ha Hno. apply responsible_arc; [done|by apply ring_succ_mem|].
  rewrite (ring_pred_succ R HR a Ha). unfold in_arc in *.
  pose proof (pos_point a). pose proof (pos_point (rsucc R a)).
  destruct (decide (pos a = pos (rsucc R a))) as [E|E]; [by left|right].
  split.
  - intros ->. apply Hno. split; [done|by left].
  - apply Z.nlt_ge. intros Hlt. apply Hno. split; [done|]. by right.
Qed.

End OneRing.
End RingLemmas.

(** ** The ring of a set of addresses *)

Section RingOf.
Context `{HashFns} `{!HashOk _}.
Implicit Types (X : gset addr) (R : Ring) (a b c : addr).

Fixpoint argmin (f : addr → Z) (l : list addr) (d : addr) : addr :=
  match l with
  | [] => d
  | x :: l => let m := argmin f l d in if f x <? f m then x else m
  end.

Lemma argmin_elem f l d : argmin f l d ∈ d :: l.
Proof.
  induction l as [|x l IH]; cbn [argmin]; [by left|].
  case_match; [by right; left|]. apply elem_of_cons in IH as [->|]; [by left|by right; right].
Qed.

Lemma argmin_le f l d x : x ∈ d :: l → f (argmin f l d) <= f x.
Proof.
  induction l as [|y l IH]; cbn [argmin]; intros Hx.
  { apply list_elem_of_singleton in Hx as ->. lia. }
  destruct (Z.ltb_spec (f y) (f (argmin f l d))); rewrite !elem_of_cons in Hx;
    rewrite elem_of_cons in IH; destruct Hx as [->|[->|]]; try lia.
  - specialize (IH ltac:(by left)). lia.
  - specialize (IH ltac:(by right)). lia.
  - apply IH. by left.
  - apply IH. by right.
Qed.

Definition ring_of (X : gset addr) : Ring := {|
  members := X;
  rsucc a := argmin (λ b, gap (pos b) (pos a)) (elements X) a;
  rpred a := argmin (λ b, gap (pos a) (pos b)) (elements X) a;
|}.

(** Distinct addresses have distinct identifiers. *)
Definition spread X : Prop := ∀ a b, a ∈ X → b ∈ X → pos a = pos b → a = b.

Lemma argmin_mem X f a : a ∈ X → argmin f (elements X) a ∈ X.
Proof.
  intros Ha. pose proof (argmin_elem f (elements X) a) as Hm.
  apply elem_of_cons in Hm as [->|Hm]; [done|]. by apply elem_of_elements in Hm.
Qed.

Lemma argmin_min X f a b : b ∈ X → f (argmin f (elements X) a) <= f b.
Proof. intros Hb. apply argmin_le. right. by apply elem_of_elements. Qed.

Lemma ring_of_pred_min X a b : spread X → a ∈ X → b ∈ X →
  (∀ c, c ∈ X → gap (pos a) (pos b) <= gap (pos a) (pos c)) → rpred (ring_of X) a = b.
Proof.
  intros HX Ha Hb Hmin. pose proof (argmin_mem X (λ b, gap (pos a) (pos b)) a Ha) as Hm.
  apply HX; [done..|]. apply (gap_inj_l _ _ (pos a)); [apply pos_point..|].
  pose proof (argmin_min X (λ b, gap (pos a) (pos b)) a b Hb). specialize (Hmin _ Hm). cbn in *. lia.
Qed.

Lemma ring_of_succ_min X a b : spread X → a ∈ X → b ∈ X →
  (∀ c, c ∈ X → gap (pos b) (pos a) <= gap (pos c) (pos a)) → rsucc (ring_of X) a = b.
Proof.
  intros HX Ha Hb Hmin. pose proof (argmin_mem X (λ b, gap (pos b) (pos a)) a Ha) as Hm.
  apply HX; [done..|]. apply (gap_inj_r _ _ (pos a)); [apply pos_point..|].
  pose proof (argmin_min X (λ b, gap (pos b) (pos a)) a b Hb). specialize (Hmin _ Hm). cbn in *. lia.
Qed.

Lemma ring_of_ok X : spread X → ring_ok (ring_of X).
Proof.
  intros HX.
  assert (∀ a b, a ∈ X → b ∈ X →
    ¬ in_arc (pos b) (pos a) (pos (rsucc (ring_of X) a)) false false) as Hsucc.
  { intros a b Ha Hb. apply gap_adjacent; [apply pos_point..|].
    by apply (argmin_min X (λ b, gap (pos b) (pos a))). }
  assert (∀ a b, a ∈ X → b ∈ X →
    ¬ in_arc (pos b) (pos (rpred (ring_of X) a)) (pos a) false false) as Hpred.
  { intros a b Ha Hb. apply gap_not_before; [apply pos_point..|].
    by apply (argmin_min X (λ b, gap (pos a) (pos b))). }
  assert (∀ a, a ∈ X → rsucc (ring_of X) a ∈ X) as Hsm by (intros; by apply argmin_mem).
  assert (∀ a, a ∈ X → rpred (ring_of X) a ∈ X) as Hpm by (intros; by apply argmin_mem).
  split; auto.
  - intros a Ha. apply ring_of_pred_min; auto. intros c Hc.
    destruct (gap_before (pos a) (pos (rsucc (ring_of X) a)) (pos c)) as [|Hin];
      [apply pos_point..|done|]. by apply Hsucc in Hin.
  - intros a Ha. apply ring_of_succ_min; auto. intros c Hc.
    destruct (gap_after (pos (rpred (ring_of X) a)) (pos a) (pos c)) as [|Hin];
      [apply pos_point..|done|]. by apply Hpred in Hin.
Qed.

(** The neighbours are determined by the member set. *)
Lemma succ_unique R a b : ring_ok R → a ∈ members R → b ∈ members R →
  (∀ c, c ∈ members R → ¬ in_arc (pos c) (pos a) (pos b) false false) → rsucc R a = b.
Proof.
  intros HR Ha Hb Hno. pose proof (ring_succ_mem R HR a Ha) as Hs.
  apply (ring_inj R HR); [done..|]. apply (gap_inj_r _ _ (pos a)); [apply pos_point..|].
  destruct (gap_after (pos a) (pos b) (pos (rsucc R a))) as [|Hin]; [apply pos_point..| |];
    [|by apply Hno in Hin].
  destruct (gap_after (pos a) (pos (rsucc R a)) (pos b)) as [|Hin]; [apply pos_point..| |];
    [lia|by apply (ring_adjacent R HR) in Hin].
Qed.

Lemma pred_unique R a b : ring_ok R → a ∈ members R → b ∈ members R →
  (∀ c, c ∈ members R → ¬ in_arc (pos c) (pos b) (pos a) false false) → rpred R a = b.
Proof.
  intros HR Ha Hb Hno. rewrite <- (succ_unique R b a) by done. by apply ring_pred_succ.
Qed.

Lemma pred_adjacent R a b : ring_ok R → a ∈ members R → b ∈ members R →
  ¬ in_arc (pos b) (pos (rpred R a)) (pos a) false false.
Proof.
  intros HR Ha Hb. pose proof (ring_adjacent R HR _ b (ring_pred_mem R HR a Ha) Hb) as Hno.
  by rewrite (ring_succ_pred R HR a Ha) in Hno.
Qed.

(** ** Adding a member *)

Section Insert.
Context (R R' : Ring) (n s : addr) (HR : ring_ok R) (HR' : ring_ok R').
Context (Hmem : members R' = {[n]} ∪ members R) (Hn : n ∉ members R).
Context (Hs : responsible R (pos n) s).

Local Lemma s_mem : s ∈ members R.
Proof. apply Hs. Qed.

Local Lemma old_mem a : a ∈ members R → a ∈ members R'.
Proof. rewrite Hmem, elem_of_union. by right. Qed.

Local Lemma new_mem : n ∈ members R'.
Proof. rewrite Hmem, elem_of_union. left. by apply elem_of_singleton. Qed.

Lemma insert_distinct a : a ∈ members R → pos a ≠ pos n.
Proof.
  intros Ha E. apply (ring_inj R' HR') in E; [by subst|by apply old_mem|apply new_mem].
Qed.

(** The new member sits strictly between the responsible member and its
    predecessor. *)
Lemma insert_between : in_arc (pos n) (pos (rpred R s)) (pos s) false false.
Proof.
  pose proof (proj2 (responsible_arc R HR (pos n) s (pos_point n) s_mem) Hs) as Hin.
  pose proof (insert_distinct _ (ring_pred_mem R HR s s_mem)). pose proof (insert_distinct _ s_mem).
  pose proof (pos_point n). pose proof (pos_point s). pose proof (pos_point (rpred R s)).
  cbn in *. destruct Hin as [->|[? ?]]; [auto|]. split; [done|right]. ring_lia.
Qed.

Lemma insert_succ_new : rsucc R' n = s.
Proof.
  pose proof insert_between as Hin. pose proof s_mem as Hsm.
  apply succ_unique; [done|apply new_mem|by apply old_mem|]. intros c Hc.
  rewrite Hmem in Hc. apply elem_of_union in Hc as [->%elem_of_singleton|Hc]; [by intros [? _]|].
  pose proof (pred_adjacent R s c HR Hsm Hc) as Hno. intros Hb. apply Hno.
  pose proof (insert_distinct _ (ring_pred_mem R HR s Hsm)). pose proof (insert_distinct _ Hsm).
  pose proof (insert_distinct _ Hc). pose proof (pos_point c).
  pose proof (pos_point n). pose proof (pos_point s). pose proof (pos_point (rpred R s)).
  clear Hno. cbn in *. destruct Hin as [_ Hin], Hb as [_ Hb].
  destruct (decide (pos (rpred R s) = pos s)) as [E|E]; rewrite ?E in *; [|]; split; ring_lia.
Qed.

Lemma insert_pred_old : rpred R' s = n.
Proof. rewrite <- insert_succ_new. apply (ring_pred_succ R' HR'), new_mem. Qed.

Lemma insert_succ_old : rsucc R' (rpred R s) = n.
Proof.
  pose proof insert_between as Hin. pose proof s_mem as Hsm.
  pose proof (ring_pred_mem R HR s Hsm) as Hp.
  apply succ_unique; [done|by apply old_mem|apply new_mem|]. intros c Hc.
  rewrite Hmem in Hc. pose proof (pos_point c).
  pose proof (pos_point n). pose proof (pos_point s). pose proof (pos_point (rpred R s)).
  pose proof (insert_distinct _ Hp) as Hpn.
  apply elem_of_union in Hc as [->%elem_of_singleton|Hc].
  { intros [_ [?|?]]; [done|lia]. }
  pose proof (pred_adjacent R s c HR Hsm Hc) as Hno. intros Hb. apply Hno. clear Hno.
  cbn in *. destruct Hin as [_ Hin], Hb as [? Hb]. split; [done|].
  destruct Hin as [|Hin]; [by left|right]. destruct Hb; [done|lia].
Qed.

Lemma insert_pred_new : rpred R' n = rpred R s.
Proof.
  rewrite <- insert_succ_old at 1. apply (ring_pred_succ R' HR'), old_mem.
  apply (ring_pred_mem R HR), s_mem.
Qed.

(** Elsewhere the links stay as they are. *)
Lemma insert_succ_other a : a ∈ members R → a ≠ rpred R s → rsucc R' a = rsucc R a.
Proof.
  intros Ha Hne. pose proof (ring_succ_mem R HR a Ha) as Hsa.
  apply succ_unique; [done|by apply old_mem..|]. intros c Hc. rewrite Hmem in Hc.
  apply elem_of_union in Hc as [->%elem_of_singleton|Hc]; [|by apply ring_adjacent].
  intros [Hca Hin]. apply Hne. assert (responsible R (pos n) (rsucc R a)) as Hr.
  { apply (responsible_arc R HR); [apply pos_point|done|]. rewrite (ring_pred_succ R HR a Ha).
    cbn. destruct Hin; [by left|]. right. split; [done|lia]. }
  rewrite (responsible_unique R HR (pos n) s _ (pos_point n) Hs Hr). by rewrite ring_pred_succ.
Qed.

Lemma insert_pred_other a : a ∈ members R → a ≠ s → rpred R' a = rpred R a.
Proof.
  intros Ha Hne. pose proof (ring_pred_mem R HR a Ha) as Hp.
  rewrite <- (ring_succ_pred R HR a Ha) at 1. rewrite <- insert_succ_other; [|done|].
  - by apply (ring_pred_succ R' HR'), old_mem.
  - intros E. apply Hne. rewrite <- (ring_succ_pred R HR a Ha), E.
    apply (ring_succ_pred R HR), s_mem.
Qed.

End Insert.
End RingOf.
