(* ===== verification/Lookup.v ===== *)
(** * Lookup: correctness of [getSuccessor]

    The interface class [RingEnv] states what a lookup may rely on: this node
    and every member answer with their ring neighbours and with a finger that
    precedes the id whenever their successor does. Against that interface the
    iterative lookup of src/dht/Peer.cpp finds the responsible member from
    every node for every identifier, within a fuel linear in the number of
    members. Without it, a single dishonest peer can keep the inner loop of a
    lookup running for ever. *)

From S2P Require Import Prelude Util Ring NodeInfo Peer Topology.

(** ** The interface a lookup relies on *)

Section Interface.
Context `{HashFns}.

(** The state of a node that knows its place in the ring: its neighbours are
    right and every populated finger is a member. *)
Record ring_view (R : Ring) (a : addr) (s : NodeInformation) : Prop := {
  view_node : getNode s = nd a;
  view_table : table_ok s;
  view_pred : getPredecessor s = Some (nd (rpred R a));
  view_first : m_fingerTable s !! 0%nat = Some (Some (nd (rsucc R a)));
  view_fingers j n : m_fingerTable s !! j = Some (Some n) → ∃ b, b ∈ members R ∧ n = nd b;
}.

(** A right answer to "which node precedes [id]": a member strictly between
    [a] and [id], or none when the successor of [a] is not. *)
Definition preceding_answer (R : Ring) (a : addr) (id : Z) (c : option addr) : Prop :=
  match c with
  | Some b => b ∈ members R ∧ in_arc (pos b) (pos a) id false false
  | None => ¬ in_arc (pos (rsucc R a)) (pos a) id false false
  end.

Class RingEnv {W} (E : PeerEnv W) (R : Ring) (me : addr) (w : W) : Prop := {
  re_me : me ∈ members R;
  re_self : ∃ s, env_ni w = (Ok s, w) ∧ ring_view R me s;
  re_pred a : a ∈ members R →
    env_rpc a.1 a.2 GetPredecessorReq w = (Ok (Some (buildNode (nd (rpred R a)))), w);
  re_closest a id : a ∈ members R → id_ok id →
    ∃ c, env_rpc a.1 a.2 (GetClosestPrecedingReq id) w
         = (Ok (buildNode_opt (nd <$> c), Some (buildNode (nd (rsucc R a)))), w)
       ∧ preceding_answer R a (be_num id) c;
}.

End Interface.

(** ** The checks of an answer *)

Section Checks.
Context `{HashFns} `{!HashOk _} {W : Type} {E : PeerEnv W} (R : Ring) (HR : ring_ok R) (me : addr) (w : W).

(** A preceding node in the interval is kept, and so is the successor of a
    member whose predecessor is that member. *)
Lemma checkResult_arc s a id c : env_ni w = (Ok s, w) → getNode s = nd me → a ∈ members R → id_ok id →
  env_rpc (rsucc R a).1 (rsucc R a).2 GetPredecessorReq w
    = (Ok (Some (buildNode (nd (rpred R (rsucc R a))))), w) →
  (∀ b, c = Some b → in_arc (pos b) (pos a) (be_num id) false false) →
  checkResult (nd a) id (mkCPP (nd <$> c) (Some (nd (rsucc R a)))) w
  = (Ok (mkCPP (nd <$> c) (if bool_decide (pos (rsucc R a) = pos me) then None
                           else Some (nd (rsucc R a)))), w).
Proof.
  intros Hs Hnode Ha Hid Hp Hc.
  unfold checkResult. rewrite (bind_Ok _ _ _ _ _ Hs). cbn [closestPreceding cpp_successor].
  rewrite Hnode, nd_eqb.
  assert ((match nd <$> c with
           | Some n => if is_in_range_loop (Node_getId n) (Node_getId (nd a)) id false false
                       then Some n else None
           | None => None end) = nd <$> c) as ->.
  { destruct c as [b|]; [|done]. cbn [fmap option_fmap option_map].
    rewrite !getId_nd, (proj2 (range_arc (aid b) (aid a) id false false (aid_ok b) (aid_ok a) Hid)); [done|].
    by apply Hc. }
  case_bool_decide; [done|].
  rewrite (bind_Ok _ _ _ _ _ Hp). cbn [nodeFromReader_opt fmap option_fmap option_map].
  rewrite nd_roundtrip, (ring_pred_succ R HR a Ha), !getId_nd.
  rewrite (proj2 (range_arc id (aid a) (aid a) false true Hid (aid_ok a) (aid_ok a))); [done|by left].
Qed.

(** The two direct answers of a node that knows its neighbours. *)
Lemma direct_answers s method id fuel : env_ni w = (Ok s, w) → getNode s = nd me →
  getPredecessor s = Some (nd (rpred R me)) → getSuccessor s = Some (nd (rsucc R me)) → me ∈ members R →
  env_rpc (rsucc R me).1 (rsucc R me).2 GetPredecessorReq w
    = (Ok (Some (buildNode (nd (rpred R (rsucc R me))))), w) →
  id_ok id →
  (∃ b, responsible R (be_num id) b ∧ peer_getSuccessor method fuel id w = (Ok (Some (nd b)), w)) ∨
  (¬ responsible R (be_num id) me ∧ in_arc (pos (rsucc R me)) (pos me) (be_num id) false false ∧
   peer_getSuccessor method fuel id w = getSuccessor_far method fuel id s w).
Proof.
  intros Hs Hnode Hpred Hsucc Hme Hrpc Hid. pose proof (be_num_point id Hid) as Pid.
  assert (getId s = aid me) as Hsid by (unfold getId; fold (getNode s); by rewrite Hnode).
  unfold peer_getSuccessor. rewrite (bind_Ok _ _ _ _ _ Hs).
  rewrite Hpred, Hsucc, Hnode, Hsid, !getId_nd.
  destruct (is_in_range_loop id (aid (rpred R me)) (aid me) false true) eqn:E1.
  { left. exists me. split; [|done]. apply range_pos in E1; [|done]. by apply (responsible_arc R HR). }
  assert (¬ responsible R (be_num id) me) as Hnot.
  { rewrite <- (responsible_arc R HR) by done. rewrite <- range_pos by done. by rewrite E1. }
  pose proof (ring_succ_mem R HR me Hme) as Hsm.
  destruct (is_in_range_loop id (aid me) (aid (rsucc R me)) false true) eqn:E2.
  - left. exists (rsucc R me). split.
    + apply (responsible_arc R HR); [done..|]. rewrite (ring_pred_succ R HR me Hme).
      by apply range_pos in E2.
    + by rewrite (then_Ok _ _ _ _ _ _ Hrpc).
  - right. split; [done|]. split; [|done]. apply not_true_iff_false in E2.
    rewrite range_pos in E2 by done. pose proof (pos_point me). pose proof (pos_point (rsucc R me)).
    cbn in *. split; [|destruct (decide (pos me = be_num id)); [by left|right]]; ring_lia.
Qed.

End Checks.

Section LookupProof.
Context `{HashFns} `{!HashOk _}.
Context {W : Type} {E : PeerEnv W} (R : Ring) (HR : ring_ok R) (me : addr) (w : W).
Context (HE : RingEnv E R me w).

Lemma nd_roundtrip_opt (c : option addr) :
  nodeFromReader_opt (buildNode_opt (nd <$> c)) = nd <$> c.
Proof. destruct c; cbn; by rewrite ?nd_roundtrip. Qed.

Lemma view_id a s : ring_view R a s → getId s = aid a.
Proof. intros Hv. unfold getId. fold (getNode s). by rewrite (view_node _ _ _ Hv). Qed.

Lemma view_succ a s : ring_view R a s → getSuccessor s = Some (nd (rsucc R a)).
Proof. intros Hv. apply getSuccessor_first, Hv. Qed.

Lemma view_closest a s id : ring_view R a s → id_ok id →
  ∃ c, getClosestPreceding id s = Ok (nd <$> c) ∧ preceding_answer R a (be_num id) c.
Proof.
  intros Hv Hid. destruct (getClosestPreceding_spec id s (view_table _ _ _ Hv)) as (c & Hc & Hspec).
  assert (getId s = aid a) as Hsid by (by apply view_id).
  unfold precedes in Hspec. rewrite Hsid in Hspec. destruct c as [n|].
  - destruct Hspec as [Hin (j & Hj)]. destruct (view_fingers _ _ _ Hv _ _ Hj) as (b & Hb & ->).
    exists (Some b). split; [done|]. split; [done|].
    apply range_arc in Hin; [done|apply aid_ok|apply aid_ok|done].
  - exists None. split; [done|]. cbn. pose proof (view_first _ _ _ Hv) as Hj.
    specialize (Hspec _ _ Hj). rewrite getId_nd in Hspec.
    apply range_arc_false in Hspec; [done|apply aid_ok|apply aid_ok|done].
Qed.

(** The checks accept a right answer; the successor is dropped only when it
    is this node. *)
Lemma checkResult_ring a id c : a ∈ members R → id_ok id → preceding_answer R a (be_num id) c →
  checkResult (nd a) id (mkCPP (nd <$> c) (Some (nd (rsucc R a)))) w
  = (Ok (mkCPP (nd <$> c) (if bool_decide (pos (rsucc R a) = pos me) then None
                           else Some (nd (rsucc R a)))), w).
Proof.
  intros Ha Hid Hc. destruct (re_self (RingEnv := HE)) as (s & Hs & Hv).
  apply (checkResult_arc R HR me w s); [done|apply Hv|done|done| |].
  - by apply HE, (ring_succ_mem R HR).
  - intros b ->. apply Hc.
Qed.

Lemma closest_impl_ring a id : a ∈ members R → id_ok id →
  ∃ c, preceding_answer R a (be_num id) c ∧
    closest_impl (nd a) id id w
    = (Ok (mkCPP (nd <$> c) (if bool_decide (pos (rsucc R a) = pos me) then None
                             else Some (nd (rsucc R a)))), w).
Proof.
  intros Ha Hid. destruct (re_self (RingEnv := HE)) as (s & Hs & Hv).
  unfold closest_impl. rewrite (bind_Ok _ _ _ _ _ Hs), (view_node _ _ _ Hv), nd_eqb.
  case_bool_decide as Heq.
  - apply (ring_inj R HR) in Heq as ->; [|done|apply HE].
    destruct (view_closest me s id Hv Hid) as (c & Hc & Hans). exists c. split; [done|].
    rewrite Hc, bind_lift_Ok, (view_succ _ _ Hv). by apply checkResult_ring.
  - destruct (re_closest (RingEnv := HE) a id Ha Hid) as (c & Hc & Hans). exists c. split; [done|].
    erewrite bind_Ok; [by apply checkResult_ring|].
    rewrite (then_Ok _ _ _ _ _ _ Hc). cbn [fst snd]. rewrite nd_roundtrip_opt.
    change (Some (buildNode (nd (rsucc R a)))) with (buildNode_opt (nd <$> Some (rsucc R a))).
    by rewrite nd_roundtrip_opt.
Qed.

Lemma helper_ring fuel a id : (0 < fuel)%nat → a ∈ members R → id_ok id →
  ∃ c, preceding_answer R a (be_num id) c ∧
    getClosestPrecedingHelper fuel (nd a) id ∅ w
    = (Ok (mkCPP (nd <$> c) (if bool_decide (pos (rsucc R a) = pos me) then None
                             else Some (nd (rsucc R a)))), w).
Proof.
  intros Hf Ha Hid. destruct (closest_impl_ring a id Ha Hid) as (c & Hans & Hc).
  exists c. split; [done|]. destruct fuel as [|fuel]; [lia|].
  unfold getClosestPrecedingHelper. cbn [closest_iterate]. rewrite (bind_Ok _ _ _ _ _ Hc).
  cbn [closestPreceding]. destruct c as [b|]; [|done].
  cbn [fmap option_fmap option_map]. by rewrite decide_False by apply not_elem_of_empty.
Qed.

(** From a hop on a member, the algorithm reaches the responsible member: a
    hop to a preceding member brings the lookup closer to the id. *)
Lemma algorithm_ring id fuel a hops : id_ok id → a ∈ members R →
  ¬ responsible R (be_num id) me →
  (size (closer R (be_num id) a) + 2 <= fuel)%nat →
  ∃ b, responsible R (be_num id) b ∧
    getSuccessorAlgorithm fuel id (nd a :: hops) ∅ w = (Ok (Some (nd b)), w).
Proof.
  intros Hid. revert a hops. induction fuel as [|fuel IH]; intros a hops Ha Hme Hf; [lia|].
  cbn [getSuccessorAlgorithm].
  destruct (helper_ring fuel a id) as (c & Hans & Hc); [lia|done..|].
  rewrite (bind_Ok _ _ _ _ _ Hc). cbn [closestPreceding cpp_successor]. destruct c as [b|].
  - destruct Hans as [Hb Hin]. cbn. apply IH; [done..|].
    apply gap_arc in Hin; [|by apply be_num_point|apply pos_point..].
    pose proof (closer_size R (be_num id) a b Hb Hin). lia.
  - cbn. assert (responsible R (be_num id) (rsucc R a)) as Hresp.
    { apply (last_hop_responsible R HR); [by apply be_num_point|done|done]. }
    case_bool_decide as Heq; [|by exists (rsucc R a)].
    apply (ring_inj R HR) in Heq; [|apply Hresp|apply HE]. congruence.
Qed.

(** The two direct answers are right; otherwise the successor precedes the
    id and the lookup goes on. *)
Lemma getSuccessor_near method id fuel : id_ok id →
  (∃ b, responsible R (be_num id) b ∧ peer_getSuccessor method fuel id w = (Ok (Some (nd b)), w)) ∨
  (¬ responsible R (be_num id) me ∧ in_arc (pos (rsucc R me)) (pos me) (be_num id) false false ∧
   ∃ s, env_ni w = (Ok s, w) ∧ ring_view R me s ∧
     peer_getSuccessor method fuel id w = getSuccessor_far method fuel id s w).
Proof.
  intros Hid. destruct (re_self (RingEnv := HE)) as (s & Hs & Hv).
  pose proof (re_me (RingEnv := HE)) as Hme.
  destruct (direct_answers R HR me w s method id fuel) as [|(Hno & Hin & Heq)];
    [done|apply Hv|apply Hv|by apply view_succ|done|by apply HE, (ring_succ_mem R HR)|done|by left|].
  right. split_and!; [done..|]. by exists s.
Qed.

Lemma getSuccessor_ring id fuel : id_ok id → (size (members R) + 2 <= fuel)%nat →
  ∃ b, responsible R (be_num id) b ∧ peer_getSuccessor LOCAL fuel id w = (Ok (Some (nd b)), w).
Proof.
  intros Hid Hf. pose proof (re_me (RingEnv := HE)) as Hme.
  destruct (getSuccessor_near LOCAL id fuel Hid) as [|(Hnot & _ & s & _ & Hv & ->)]; [done|].
  unfold getSuccessor_far. rewrite (view_node _ _ _ Hv).
  apply algorithm_ring; [done..|]. pose proof (closer_bound R (be_num id) me). lia.
Qed.

End LookupProof.
