(* ===== verification/Network.v ===== *)
(** * Network: nodes that call each other

    A [World] holds the nodes of a network by address, the statics of the
    process and the clock. [world_env] gives every node the environment its
    [PeerImpl] computes with: a remote call to an address runs the server
    method of the node there ([serve] of Peer.v) in that node's environment,
    and throws when no node listens at the address. [depth] bounds the nesting
    of remote calls; [fuel] bounds the loops of one lookup.

    [ideal] worlds are those whose members form a ring; the section discharges
    the interface [RingEnv] for them and concludes the lookup theorems for both
    lookup methods of the code. *)

From S2P Require Import Prelude Util Ring NodeInfo Peer Topology Lookup.

Record World := mkWorld {
  w_nodes : gmap addr NodeInformation;
  w_statics : Statics;
  w_now : Z;
}.

Definition w_update (a : addr) (f : NodeInformation → NodeInformation) (w : World) : World :=
  mkWorld (alter f a (w_nodes w)) (w_statics w) (w_now w).

Section Network.
Context `{HashFns}.
Context (kj_throws : bool) (method : GetSuccessorMethod) (fuel : nat).

(** The node at [self] reads and writes its own state; a handler only runs on
    a node that exists. *)
Fixpoint world_env (depth : nat) (self : addr) : PeerEnv World := {|
  env_ni := λ w,
    match w_nodes w !! self with
    | Some s => (Ok s, w)
    | None => (UB "destroyed node", w)
    end;
  env_update f := λ w, (Ok tt, w_update self f w);
  env_statics := λ w, (Ok (w_statics w), w);
  env_set_statics f := λ w, (Ok tt, mkWorld (w_nodes w) (f (w_statics w)) (w_now w));
  env_now := λ w, (Ok (w_now w), w);
  env_rpc A ip port r := λ w,
    match w_nodes w !! (ip, port) with
    | None => (Exn "connection refused", w)
    | Some _ =>
        match depth with
        | O => (NoFuel, w)
        | S depth => serve (H0 := world_env depth (ip, port)) kj_throws method fuel r w
        end
    end;
|}.

(** The members of [R] run in [w] and know their place in the ring. *)
Definition ideal (R : Ring) (w : World) : Prop :=
  ∀ a, a ∈ members R → ∃ s, w_nodes w !! a = Some s ∧ ring_view R a s.

End Network.

(** ** Remote calls *)

Section WorldLemmas.
Context `{HashFns} `{!HashOk _} (kj_throws : bool) (method : GetSuccessorMethod) (fuel : nat).
Local Abbreviation env := (world_env kj_throws method fuel).
Implicit Types (w : World) (s : NodeInformation) (R : Ring).

Lemma world_ni depth self w s : w_nodes w !! self = Some s → env_ni (PeerEnv := env depth self) w = (Ok s, w).
Proof. intros E. destruct depth; cbn; by rewrite E. Qed.

Lemma world_rpc {A} depth self (a : addr) w s (r : PeerRequest A) : w_nodes w !! a = Some s →
  env_rpc (PeerEnv := env (S depth) self) a.1 a.2 r w
  = serve (H0 := env depth a) kj_throws method fuel r w.
Proof. intros E. destruct a as [ip port]. cbn. by rewrite E. Qed.

Lemma world_rpc_absent {A} depth self (a : addr) w (r : PeerRequest A) : w_nodes w !! a = None →
  env_rpc (PeerEnv := env depth self) a.1 a.2 r w = (Exn "connection refused", w).
Proof. intros E. destruct a as [ip port], depth; cbn; by rewrite E. Qed.

Lemma lookup_update_eq a f w s : w_nodes w !! a = Some s → w_nodes (w_update a f w) !! a = Some (f s).
Proof. intros E. cbn. by rewrite lookup_alter_eq, E. Qed.

Lemma lookup_update_ne a b f w : a ≠ b → w_nodes (w_update a f w) !! b = w_nodes w !! b.
Proof. intros E. cbn. by rewrite lookup_alter_ne. Qed.

Lemma w_update_ext a f g w s : w_nodes w !! a = Some s → f s = g s → w_update a f w = w_update a g w.
Proof.
  intros E Hfg. unfold w_update. f_equal. apply map_eq. intros b. destruct (decide (a = b)) as [<-|].
  - by rewrite !lookup_alter_eq, E; cbn; rewrite Hfg.
  - by rewrite !lookup_alter_ne.
Qed.

Lemma w_update_id a f w s : w_nodes w !! a = Some s → f s = s → w_update a f w = w.
Proof.
  intros E Hf. destruct w as [ns st now]. unfold w_update. f_equal. apply map_eq. intros b. cbn in *.
  destruct (decide (a = b)) as [<-|]; [by rewrite lookup_alter_eq, E; cbn; rewrite Hf|].
  by rewrite lookup_alter_ne.
Qed.

(** ** Ideal rings implement the interface of a lookup *)

Lemma ideal_pred R w depth self a : ideal R w → a ∈ members R →
  env_rpc (PeerEnv := env (S depth) self) a.1 a.2 GetPredecessorReq w
  = (Ok (Some (buildNode (nd (rpred R a)))), w).
Proof.
  intros Hw Ha. destruct (Hw a Ha) as (s & Hs & Hv). rewrite (world_rpc _ _ _ _ _ _ Hs). cbn.
  unfold srv_getPredecessor. rewrite (bind_Ok _ _ _ _ _ (world_ni _ _ _ _ Hs)).
  by rewrite (view_pred _ _ _ Hv).
Qed.

#[export] Instance ideal_RingEnv R w depth me : ideal R w → me ∈ members R →
  RingEnv (env (S depth) me) R me w.
Proof.
  intros Hw Hme. split; [done|..].
  - destruct (Hw me Hme) as (s & Hs & Hv). exists s. by rewrite (world_ni _ _ _ _ Hs).
  - intros a Ha. by apply ideal_pred.
  - intros a id Ha Hid. destruct (Hw a Ha) as (s & Hs & Hv).
    destruct (view_closest R a s id Hv Hid) as (c & Hc & Hans). exists c. split; [|done].
    rewrite (world_rpc _ _ _ _ _ _ Hs). cbn. unfold srv_getClosestPreceding.
    rewrite (bind_Ok _ _ _ _ _ (world_ni _ _ _ _ Hs)), idFromReader_id by apply Hid.
    rewrite Hc, bind_lift_Ok. by rewrite (view_succ R a s Hv).
Qed.

(** ** Lookup *)

Lemma closest_in_ring R w me s id : ring_ok R → ideal R w → me ∈ members R → id_ok id →
  ring_view R me s → in_arc (pos (rsucc R me)) (pos me) (be_num id) false false →
  ∃ c, getClosestPreceding id s = Ok (Some (nd c)) ∧ c ∈ members R ∧
    (size (closer R (be_num id) c) < size (closer R (be_num id) me))%nat.
Proof.
  intros HR Hw Hme Hid Hv Hin. destruct (view_closest R me s id Hv Hid) as ([c|] & Hc & Hans);
    [|by destruct Hans].
  exists c. destruct Hans as [Hcm Hca]. split_and!; [done..|]. apply closer_size; [done|].
  apply gap_arc; [by apply be_num_point|apply pos_point..|done].
Qed.

Lemma rpc_getSuccessor R w id me (c : addr) depth b : ideal R w → c ∈ members R → id_ok id →
  peer_getSuccessor (H0 := env depth c) method fuel id w = (Ok (Some (nd b)), w) →
  env_rpc (PeerEnv := env (S depth) me) c.1 c.2 (GetSuccessorReq id) w
  = (Ok (Some (buildNode (nd b))), w).
Proof.
  intros Hw Hc Hid Hb. destruct (Hw c Hc) as (s & Hs & _). rewrite (world_rpc _ _ _ _ _ _ Hs).
  cbn [serve]. unfold srv_getSuccessor. rewrite idFromReader_id by apply Hid.
  by rewrite (bind_Ok _ _ _ _ _ Hb).
Qed.

End WorldLemmas.

(** ** Every set of addresses with distinct identifiers has an ideal ring *)

Section RingWorld.
Context `{HashFns} `{!HashOk _}.

(** A member that knows its neighbours and nothing else. *)
Definition ring_node (R : Ring) (a : addr) : NodeInformation :=
  setPredecessor (Some (nd (rpred R a)))
    (setSuccessor (Some (nd (rsucc R a))) (NodeInformation_ctor a.1 a.2)).

Definition ring_world (X : gset addr) (st : Statics) (now : Z) : World :=
  mkWorld (list_to_map ((λ a, (a, ring_node (ring_of X) a)) <$> elements X)) st now.

Lemma ring_world_lookup X st now a : a ∈ X →
  w_nodes (ring_world X st now) !! a = Some (ring_node (ring_of X) a).
Proof.
  intros Ha. cbn. apply elem_of_list_to_map_1.
  - rewrite <- list_fmap_compose. apply NoDup_fmap; [by intros ? ? [= ->]|apply NoDup_elements].
  - apply list_elem_of_fmap. exists a. split; [done|]. by apply elem_of_elements.
Qed.

Lemma ring_node_view R a : ring_ok R → a ∈ members R → ring_view R a (ring_node R a).
Proof.
  intros HR Ha.
  assert (m_fingerTable (ring_node R a) = <[0%nat := Some (nd (rsucc R a))]> (replicate key_bits None)) as Ht
    by done.
  constructor; [done|exact (table_ok_setSuccessor _ _ (table_ok_ctor _ _))|done|..]; rewrite Ht.
  - apply list_lookup_insert_eq. rewrite length_replicate. by vm_compute; lia.
  - intros j n Hj. apply list_lookup_insert_Some in Hj as [(_ & [= <-] & _)|[_ Hj]].
    + exists (rsucc R a). split; [by apply ring_succ_mem|done].
    + by apply lookup_replicate in Hj as [? _].
Qed.

Lemma ring_world_ideal X st now : spread X → ideal (ring_of X) (ring_world X st now).
Proof.
  intros HX a Ha. eexists. split; [by apply ring_world_lookup|].
  apply ring_node_view; [by apply ring_of_ok|done].
Qed.

End RingWorld.

Section LookupWorld.
Context `{HashFns} `{!HashOk _} (kj_throws : bool).
Implicit Types (w : World) (R : Ring).

(** Both lookup methods find the responsible member. *)
Lemma lookup_ideal method fuel R w id me depth :
  ring_ok R → ideal R w → me ∈ members R → id_ok id →
  (size (members R) + 2 <= fuel)%nat → (size (closer R (be_num id) me) < depth)%nat →
  ∃ b, responsible R (be_num id) b ∧
    peer_getSuccessor (H0 := world_env kj_throws method fuel depth me) method fuel id w
    = (Ok (Some (nd b)), w).
Proof.
  intros HR Hw Hme Hid Hf. revert me Hme. induction depth as [|depth IH]; intros me Hme Hd; [lia|].
  pose proof (ideal_RingEnv kj_throws method fuel R w depth me Hw Hme) as HE.
  destruct method; [|by apply (getSuccessor_ring R HR me w HE)].
  destruct (getSuccessor_near R HR me w HE PASS_ON id fuel Hid) as [|(_ & Hin & s & Hs & Hv & ->)];
    [done|].
  destruct (closest_in_ring R w me s id) as (c & Hc & Hcm & Hlt); [done..|].
  destruct (IH c Hcm) as (b & Hb & Hrec); [lia|]. exists b. split; [done|].
  pose proof (rpc_getSuccessor _ _ _ R w id me c depth b Hw Hcm Hid Hrec) as Hrpc.
  unfold getSuccessor_far. rewrite Hc, bind_lift_Ok, (then_Ok _ _ _ _ _ _ Hrpc).
  cbn [nodeFromReader_opt fmap option_fmap option_map]. by rewrite nd_roundtrip.
Qed.

(** A client that asks any member gets the responsible member. *)
Lemma lookup_request method fuel R w id me (a : addr) depth :
  ring_ok R → ideal R w → a ∈ members R → id_ok id →
  (size (members R) + 2 <= fuel)%nat → (size (members R) + 2 <= depth)%nat →
  ∃ b, responsible R (be_num id) b ∧
    env_rpc (PeerEnv := world_env kj_throws method fuel depth me) a.1 a.2 (GetSuccessorReq id) w
    = (Ok (Some (buildNode (nd b))), w).
Proof.
  intros HR Hw Ha Hid Hf Hd. destruct depth as [|depth]; [lia|].
  pose proof (closer_bound R (be_num id) a).
  destruct (lookup_ideal method fuel R w id a depth) as (b & Hb & Hrec); [done..|lia|].
  exists b. split; [done|]. by apply (rpc_getSuccessor _ _ _ R).
Qed.

(** C1: Lookup is correct. In a network whose members form a ring and know
    their neighbours (whatever members their other fingers point at), a
    [getSuccessor] request to any member for any identifier answers, with
    either lookup method, and the answer is the one member responsible for
    the identifier; no node's state changes. The number of members plus two
    is enough for the nesting of calls and for the loops of the lookup. *)
Theorem lookup_correct method fuel depth R w id me (a : addr) :
  ring_ok R → ideal R w → a ∈ members R → id_ok id →
  (size (members R) + 2 <= fuel)%nat → (size (members R) + 2 <= depth)%nat →
  ∃ b, env_rpc (PeerEnv := world_env kj_throws method fuel depth me) a.1 a.2 (GetSuccessorReq id) w
       = (Ok (Some (buildNode (nd b))), w) ∧
    ∀ b', responsible R (be_num id) b' ↔ b' = b.
Proof.
  intros HR Hw Ha Hid Hf Hd.
  destruct (lookup_request method fuel R w id me a depth) as (b & Hb & Hrpc); [done..|].
  exists b. split; [done|]. intros b'. split; [|by intros ->].
  intros. by apply (responsible_unique R HR (be_num id)); [apply be_num_point|..].
Qed.

End LookupWorld.
