(* ===== verification/Dht.v ===== *)
(** * Dht: the handlers of the API and the maintenance of the ring

    Models src/dht/Dht.cpp over the environment of the node's [PeerImpl]:
    lookups, the four API handlers, joining, stabilisation, finger repair and
    the check of the predecessor, and one turn of the main loop. Connections
    are plain ([use_tls] is false).

    - A handler that starts a replication returns the task ([Replication])
      beside the bytes it answers with: the task runs on a thread of its own
      and is a computation of the same kind, so the caller decides when it
      runs ([run_replication]). The wait of up to ten seconds before the
      answer has no effect on any state and is left out.
    - [nested_wait] is what KJ makes of a [wait] inside a continuation, which
      is how the items are fetched at the end of a join.
    - The bytes of [finalHashedKey] that no copy has initialised are the
      argument [junk]. *)

From S2P Require Import Prelude Util Ring NodeInfo Message Peer.

(** A replication started by a PUT: the key to extend, whether copies are
    stored under the hash of the extended key, and the member that got the
    first copy. *)
Record Replication := mkReplication {
  rep_key : list Z;
  rep_value : list Z;
  rep_ttl : Z;
  rep_count : Z;
  rep_hashed : bool;
  rep_successor : option Node;
}.

(** [std::optional<uint8_t> >= int]. *)
Definition average_ge (st : Statics) (i : Z) : bool :=
  match getAverageReplicationIndex st with Some a => i <=? a | None => false end.

(** The copies of one item on each node. *)
Abbreviation replication_counts := (gmap (list Z) Z).

(** A node may take another copy. *)
Definition permit (counts : replication_counts) (id : list Z) (limit : Z) : bool :=
  match counts !! id with Some c => c <? limit | None => true end.

Definition count_copy (counts : replication_counts) (id : list Z) : replication_counts :=
  match counts !! id with Some c => <[id := u8 (c + 1)]> counts | None => <[id := 1]> counts end.

Section Dht.
Context `{HashFns} {W : Type} `{PeerEnv W}.

(** [Dht::getSuccessor]: a request to this node's own server. *)
Definition dht_getSuccessor (key : list Z) : M W (option Node) :=
  s ← env_ni;
  promise_then (env_rpc (getIp s) (getPort s) (GetSuccessorReq key))
    (λ res, mret (nodeFromReader_opt res)) (λ _, mret None).

(** ** PUT *)

(** The key of the copy number [i], from 1. *)
Definition replica_key (key : list Z) (i : Z) : list Z := key ++ [u8 i].

(** The loop over the copies, from index [i], with [n] turns left. *)
Fixpoint replicate_loop (n : nat) (i : Z) (r : Replication) (counts : replication_counts)
    : M W replication_counts :=
  match n with
  | O => mret counts
  | S n =>
      let key := replica_key (rep_key r) (i + 1) in
      let finalHashedKey := sha256 key in
      successor ← dht_getSuccessor finalHashedKey;
      counts' ← match successor with
        | None => mret counts
        | Some node =>
            st ← env_statics;
            if permit counts (Node_getId node) (getReplicationLimitOnEachNode st) then
              let counts' := count_copy counts (Node_getId node) in
              peer_setData node (if rep_hashed r then finalHashedKey else key) (rep_value r) (rep_ttl r);;
              mret counts'
            else mret counts
        end;
      replicate_loop n (i + 1) r counts'
  end.

Definition run_replication (r : Replication) : M W replication_counts :=
  replicate_loop (Z.to_nat (rep_count r - 1)) 0 r
    (match rep_successor r with Some n => {[Node_getId n := 1]} | None => ∅ end).

(** The work of both PUT handlers: the key under which the first copy is
    stored is the key itself or its hash. The answer repeats the request. *)
Definition put_item (hashed : bool) (bytes key value : list Z) (ext : MessageHeaderExtend)
    : M W (list Z * option Replication) :=
  env_set_statics (setReplicationIndex (ext_replication ext));;
  let finalHashedKey := sha256 key in
  successor ← dht_getSuccessor finalHashedKey;
  match successor with
  | Some n => peer_setData n (if hashed then finalHashedKey else key) value (ext_ttl ext)
  | None => mret tt
  end;;
  mret (bytes,
    if 2 <=? ext_replication ext
    then Some (mkReplication key value (ext_ttl ext) (ext_replication ext) hashed successor)
    else None).

Definition onDhtPut (m : Message_DHT_PUT) : M W (list Z * option Replication) :=
  put_item false (m_bytes (put_data m)) (put_key m) (put_value m) (put_ext m).

Definition onDhtPutKeyIsHashOfData (m : Message_DHT_PUT_KEY_IS_HASH_OF_DATA)
    : M W (list Z * option Replication) :=
  put_item true (m_bytes (ph_data m)) (ph_key m) (ph_value m) (ph_ext m).

(** ** GET *)

Definition getData_at (node : option Node) (key : list Z) : M W (option (list Z)) :=
  match node with Some n => peer_getData n key | None => mret None end.

(** The loop over the copies of [onDhtGet]. The bound is read again in every
    turn; it is a [uint8_t], so 256 turns are enough. *)
Fixpoint get_replicas (fuel : nat) (i : Z) (key : list Z) : M W (option (list Z)) :=
  match fuel with
  | O => out_of_fuel
  | S fuel =>
      st ← env_statics;
      if average_ge st i then
        let rkey := replica_key key i in
        successor ← dht_getSuccessor (sha256 rkey);
        match successor with
        | Some n => peer_getData n rkey
        | None => get_replicas fuel (i + 1) key
        end
      else mret None
  end.

(** DHT_SUCCESS with the value, or DHT_FAILURE. *)
Definition get_answer (key : list Z) (response : option (list Z)) : M W (list Z) :=
  match response with
  | Some v => lift (m ← Message_DHT_SUCCESS_encode key v; Ok (m_bytes (succ_data m)))
  | None => lift (m ← Message_KEY_encode constants.DHT_FAILURE key; Ok (m_bytes (key_data m)))
  end.

Definition onDhtGet (m : Message_KEY) : M W (list Z) :=
  successor ← dht_getSuccessor (sha256 (key_key m));
  response ← getData_at successor (key_key m);
  st ← env_statics;
  response ← (if negb (bool_decide (is_Some response)) && average_ge st 1
              then get_replicas 256 1 (key_key m) else mret response);
  get_answer (key_key m) response.

(** [sha256] of [*response]. *)
Definition hash_of_response (response : option (list Z)) : M W (list Z) :=
  match response with
  | Some v => mret (sha256 v)
  | None => undefined "dereference of an empty optional"
  end.

Fixpoint get_hash_replicas (fuel : nat) (i : Z) (key finalHashedKey : list Z)
    (response : option (list Z)) : M W (option (list Z)) :=
  match fuel with
  | O => out_of_fuel
  | S fuel =>
      st ← env_statics;
      if average_ge st i then
        let rkey := replica_key key i in
        successor ← dht_getSuccessor (sha256 rkey);
        match successor with
        | Some n =>
            response ← peer_getData n rkey;
            hash ← hash_of_response response;
            if decide (hash = finalHashedKey) then mret response
            else get_hash_replicas fuel (i + 1) key finalHashedKey response
        | None => get_hash_replicas fuel (i + 1) key finalHashedKey response
        end
      else mret response
  end.

(** [std::copy] of the key into the uninitialised 32-byte array. *)
Definition key_to_id (key junk : list Z) : M W (list Z) :=
  if (id_bytes <? length key)%nat then undefined "write past the end of an array"
  else mret (key ++ drop (length key) junk).

Definition onDhtGetKeyIsHashOfData (junk : list Z) (m : Message_DHT_GET_KEY_IS_HASH_OF_DATA)
    : M W (list Z) :=
  finalHashedKey ← key_to_id (gh_key m) junk;
  successor ← dht_getSuccessor finalHashedKey;
  response ← getData_at successor (gh_key m);
  hash ← hash_of_response response;
  st ← env_statics;
  response ← (if (negb (bool_decide (is_Some response)) && average_ge st 1)
                 || negb (bool_decide (hash = finalHashedKey))
              then get_hash_replicas 256 1 (gh_key m) finalHashedKey response
              else mret response);
  get_answer (gh_key m) response.

(** ** Joining *)

Definition create : M W unit :=
  env_update (setPredecessor None);;
  s ← env_ni;
  env_update (setSuccessor (Some (getNode s))).

(** The search of the joining node: the first counter whose digest starts with
    enough zeros. The counter is an [int]. *)
Fixpoint solve_puzzle (fuel : nat) (i : Z) (puzzle : string) (difficulty : Z)
    : outcome (string * string) :=
  match fuel with
  | O => NoFuel
  | S fuel =>
      let response := puzzle +:+ to_string i in
      digest ← pow_digest response;
      if pow_leading difficulty digest then Ok (response, digest)
      else if i =? 2 ^ 31 - 1 then UB "signed overflow"
      else solve_puzzle fuel (i + 1) puzzle difficulty
  end.

(** The continuation of the second request of [join]. *)
Definition join_answer (nested_wait : M W unit → M W unit) (res : option (option WireNode)) : M W unit :=
  match res with
  | Some successor =>
      env_update (setSuccessor (nodeFromReader_opt successor));;
      s ← env_ni;
      nested_wait (getDataItemsOnJoinHelper (getSuccessor s))
  | None => env_update (setSuccessor None)
  end.

Definition join (nested_wait : M W unit → M W unit) (fuel : nat) (node : Node) : M W unit :=
  env_update (setPredecessor None);;
  s ← env_ni;
  promise_then (env_rpc (m_ip node) (m_port node) (GetPoWPuzzleOnJoinReq (buildNode (getNode s))))
    (λ puzzle,
      solution ← lift (solve_puzzle fuel 0 puzzle.1 puzzle.2);
      if decide (solution.2 = "") then mret tt
      else
        s ← env_ni;
        promise_then (env_rpc (m_ip node) (m_port node)
            (SendPoWPuzzleResponseReq (buildNode (getNode s)) solution.1 solution.2))
          (join_answer nested_wait) (λ _, mret tt))
    (λ _, mret tt).

(** ** Maintenance *)

Definition notify_peer (node : Node) : M W unit :=
  s ← env_ni;
  promise_then (env_rpc (m_ip node) (m_port node) (NotifyReq (buildNode (getNode s)))) mret (λ _, mret tt).

Definition stabilize : M W unit :=
  s ← env_ni;
  match getSuccessor s with
  | None => mret tt
  | Some successor =>
      predOfSuccessor ← promise_then (env_rpc (m_ip successor) (m_port successor) GetPredecessorReq)
        (λ res, mret (nodeFromReader_opt res)) (λ _, mret None);
      s ← env_ni;
      match predOfSuccessor with
      | Some p =>
          if decide (Node_getId p = getId s) then mret tt
          else if is_in_range_loop (Node_getId p) (getId s) (Node_getId successor) false false
          then env_update (setSuccessor (Some p));; notify_peer p
          else notify_peer successor
      | None => notify_peer successor
      end
  end.

(** The start of the interval of finger [i]. *)
Definition finger_start (s : NodeInformation) (i : nat) : list Z :=
  array_add 8 (getId s) (pow2 8 (Z.of_nat (key_bits / 8)) (Z.of_nat i)).

(** [setFinger] throws on an index out of bounds. *)
Definition set_finger_checked (i : nat) (n : option Node) : M W unit :=
  s ← env_ni;
  s' ← lift (setFinger i n s);
  env_update (λ _, s').

Definition fixFingers (nextFinger : nat) : M W nat :=
  s ← env_ni;
  successor ← dht_getSuccessor (finger_start s nextFinger);
  set_finger_checked nextFinger successor;;
  mret ((nextFinger + 1) mod key_bits)%nat.

Definition checkPredecessor : M W unit :=
  s ← env_ni;
  match getPredecessor s with
  | None => mret tt
  | Some pred =>
      promise_then (env_rpc (m_ip pred) (m_port pred) GetPredecessorReq)
        (λ _, mret tt) (λ _, env_update (setPredecessor None))
  end.

(** ** The main loop *)

(** Enter the network: join at the bootstrap node, or create a ring. *)
Definition enter_network (nested_wait : M W unit → M W unit) (fuel : nat) : M W unit :=
  s ← env_ni;
  match getSuccessor s with
  | Some _ => mret tt
  | None =>
      match getBootstrapNode s with
      | Some b => if Node_eqb b (getNode s) then create else join nested_wait fuel b
      | None => create
      end
  end.

(** One turn; [cancelled i] is the [i]-th reading of [m_dhtCancelled]. The
    result is the next finger and whether the loop goes on. *)
Definition mainLoop_turn (nested_wait : M W unit → M W unit) (fuel : nat) (cancelled : nat → bool)
    (nextFinger : nat) : M W (nat * bool) :=
  if cancelled 0%nat then mret (nextFinger, false) else
  enter_network nested_wait fuel;;
  if cancelled 1%nat then mret (nextFinger, false) else
  stabilize;;
  if cancelled 2%nat then mret (nextFinger, false) else
  next ← fixFingers nextFinger;
  if cancelled 3%nat then mret (next, false) else
  checkPredecessor;;
  mret (next, negb (cancelled 4%nat)).

End Dht.
