(* ===== verification/Lifecycle.v ===== *)
(** * Lifecycle: the threads of a node

    Models the constructor, the destructor, [runServer] and the loop of
    [mainLoop] of src/dht/Dht.h and src/dht/Dht.cpp as threads that interleave:
    the owner (who constructs and destroys the [Dht]), the server thread, the
    main loop's thread, the handlers of API requests and the replication they
    start. What an operation of
    the main loop or of a handler does to the node is the subject of Dht.v;
    here only its use of the members the threads share matters.

    - Every call on [getPeerImpl()] throws when [m_peerImpl] is empty.
    - A lookup ([Dht::getSuccessor]) connects to the node's own server: it is
      answered while the server thread polls, refused when nothing listens, and
      waits when the server is there and does not poll.
    - An operation of the main loop ends, or an exception leaves it, or it goes
      on ([OpEnd]): [join] throws if KJ refuses its nested wait, and its search for
      the solution of a puzzle neither tests the flag nor needs to end (PoW.v).
      The remote calls of handlers and replications are taken to end. *)

From S2P Require Import Prelude.

(** The members of [Dht] after [m_nodeInformation], in the order of their
    declaration, which is the order of their initialisation. *)
Inductive Member :=
  | m_mainLoop | m_replicationFuture | m_api | m_dhtCancelled | m_mainLoopExited
  | m_peerImpl | m_executor | nextFinger | m_conf.

#[export] Instance Member_eq_dec : EqDecision Member.
Proof. solve_decision. Defined.

Definition members_in_order : list Member :=
  [m_mainLoop; m_replicationFuture; m_api; m_dhtCancelled; m_mainLoopExited; m_peerImpl; m_executor; nextFinger; m_conf].

(** Where the owner is: the members still to be initialised, a living object
    (with its API or not), or the statements of the destructor. *)
Inductive Owner :=
  | Constructing (rest : list Member) | Alive
  | Cancelling | StoppingApi | WaitingApi | WaitingMain | WaitingReplication | Gone.

(** [runServer]: before the server exists, in the polling loop, after it, or
    unwinding from an exception, which waits for the main loop's future. *)
Inductive Server := NotStarted | Starting | HavePeer | Polling | Unwinding | Returned.

(** [mainLoop]: not started, at one of the five tests of the flag, in one of
    the four operations, or ended: for want of the node's peer, by another
    exception of an operation, or normally. *)
Inductive Main := Off | Test (k : nat) | Busy (k : nat) | Crashed | Failed | Exited.

(** What becomes of an operation of the main loop in a step. *)
Inductive OpEnd := Ends | Throws | RunsOn.

(** A handler: looking up, then using the node's peer, then starting the
    replication of [copies] copies (none for a GET), then ended. A GET that
    finds nothing ([first]) looks for its copies, [retries] of them at most,
    up to the first that has a node (a PUT does not). *)
Inductive Handler :=
  | LookingUp (first : bool) (retries copies : nat) | UsingPeer (first : bool) (retries copies : nat)
  | Finishing (copies : nat) | Answered | Throwing.

(** [m_replicationFuture]: ended or never started, at the lookup of the next
    of the copies that are left, or about to store a copy. *)
Inductive Replicator := Idle | RepLookup (left : nat) | RepStore (left : nat).

Record Life := mkLife {
  owner : Owner;
  server : Server;
  main : Main;
  handlers : list Handler;
  replication : Replicator;
  cancelled : bool;
  exited : bool;
  peerImpl : bool;
  (** a thread has read or written a member before its initialisation *)
  raced : bool;
}.

Definition Dht_ctor : Life := mkLife (Constructing members_in_order) NotStarted Off [] Idle false false false false.

Definition set_owner (o : Owner) (l : Life) : Life :=
  mkLife o (server l) (main l) (handlers l) (replication l) (cancelled l) (exited l) (peerImpl l) (raced l).
Definition set_server (s : Server) (l : Life) : Life :=
  mkLife (owner l) s (main l) (handlers l) (replication l) (cancelled l) (exited l) (peerImpl l) (raced l).
Definition set_main (m : Main) (l : Life) : Life :=
  mkLife (owner l) (server l) m (handlers l) (replication l) (cancelled l) (exited l) (peerImpl l) (raced l).
Definition set_handlers (h : list Handler) (l : Life) : Life :=
  mkLife (owner l) (server l) (main l) h (replication l) (cancelled l) (exited l) (peerImpl l) (raced l).
Definition set_peer (p : bool) (l : Life) : Life :=
  mkLife (owner l) (server l) (main l) (handlers l) (replication l) (cancelled l) (exited l) p (raced l).

Definition set_replication (r : Replicator) (l : Life) : Life :=
  mkLife (owner l) (server l) (main l) (handlers l) r (cancelled l) (exited l) (peerImpl l) (raced l).

(** A member has been initialised. *)
Definition initialised (m : Member) (l : Life) : bool :=
  match owner l with Constructing rest => bool_decide (m ∉ rest) | _ => true end.

(** A thread touches a member. *)
Definition touch (m : Member) (l : Life) : Life :=
  mkLife (owner l) (server l) (main l) (handlers l) (replication l) (cancelled l) (exited l) (peerImpl l)
    (raced l || negb (initialised m l)).

(** The initialiser of a member; that of [m_mainLoop] starts the server thread. *)
Definition initialise (m : Member) (l : Life) : Life :=
  match m with
  | m_mainLoop => set_server Starting l
  | m_peerImpl => set_peer false l
  | m_dhtCancelled => mkLife (owner l) (server l) (main l) (handlers l) (replication l) false (exited l) (peerImpl l) (raced l)
  | m_mainLoopExited => mkLife (owner l) (server l) (main l) (handlers l) (replication l) (cancelled l) false (peerImpl l) (raced l)
  | _ => l
  end.

Definition finished (h : Handler) : bool := match h with Answered | Throwing => true | _ => false end.

(** The owner: the constructor, then the destructor. [m_api = nullptr] stops
    the service and waits for the handlers, [m_mainLoop.wait()] for the server
    thread, then the last replication is waited for. *)
Definition owner_step (l : Life) : option Life :=
  match owner l with
  | Constructing [] => Some (set_owner Alive l)
  | Constructing (m :: rest) => Some (set_owner (Constructing rest) (initialise m l))
  | Alive => Some (set_owner Cancelling l)
  | Cancelling =>
      Some (mkLife StoppingApi (server l) (main l) (handlers l) (replication l) true (exited l) (peerImpl l) (raced l))
  | StoppingApi => Some (set_owner WaitingApi l)
  | WaitingApi => if forallb finished (handlers l) then Some (set_owner WaitingMain l) else None
  | WaitingMain => match server l with Returned => Some (set_owner WaitingReplication l) | _ => None end
  | WaitingReplication => match replication l with Idle => Some (set_owner Gone l) | _ => None end
  | Gone => None
  end.

(** [runServer]. [fatal] is whether [getServer] or [poll] throws. *)
Definition server_step (fatal : bool) (l : Life) : option Life :=
  match server l with
  | NotStarted | Returned => None
  | Starting => Some (set_server HavePeer (set_peer true (touch m_peerImpl (touch m_conf l))))
  | HavePeer =>
      let l := touch m_executor (touch m_conf l) in
      if fatal then Some (set_server Returned l)
      else Some (set_main (Test 0) (set_server Polling l))
  | Polling =>
      if fatal then Some (set_server Unwinding l)
      else if exited l then Some (set_peer false (set_server Returned (touch m_mainLoopExited l)))
      else Some (touch m_mainLoopExited l)
  | Unwinding => match main l with Crashed | Failed | Exited => Some (set_server Returned l) | _ => None end
  end.

(** Whether a lookup at the node's own server ends, and with an answer. *)
Definition own_lookup (l : Life) : option bool :=
  match server l with
  | Polling => Some true
  | Unwinding => None
  | NotStarted | Starting | HavePeer | Returned => Some false
  end.

(** [mainLoop]: the operations are entering the network, [stabilize],
    [fixFingers] (a lookup at the own server, without [getPeerImpl]) and
    [checkPredecessor]. An exception leaves [mainLoop], and [m_mainLoopExited] is
    not set. *)
Definition operation_end (o : OpEnd) (k : nat) (l : Life) : Life :=
  match o with
  | Ends => set_main (Test (S k)) l
  | Throws => set_main Failed l
  | RunsOn => l
  end.

Definition main_step (o : OpEnd) (l : Life) : option Life :=
  match main l with
  | Off | Crashed | Failed | Exited => None
  | Test k =>
      let l := touch m_dhtCancelled l in
      if cancelled l then
        Some (mkLife (owner l) (server l) Exited (handlers l) (replication l) (cancelled l) true (peerImpl l) (raced l))
      else Some (set_main (if (k =? 4)%nat then Test 0 else Busy k) l)
  | Busy 2 => match own_lookup l with Some _ => Some (operation_end o 2 l) | None => None end
  | Busy k =>
      let l := touch m_peerImpl l in
      Some (if peerImpl l then operation_end o k l else set_main Crashed l)
  end.

(** The next copy, if one is left. *)
Definition next_round (retries copies : nat) : Handler :=
  match retries with 0%nat => Finishing copies | S r => LookingUp false r copies end.

(** Handler [i]: its lookup ends (with a node, if [found] and answered), it
    uses the peer (and has what it wants, if [found]), it starts the
    replication; the assignment to [m_replicationFuture] waits for the last
    one to end. *)
Definition handler_step (i : nat) (found : bool) (l : Life) : option Life :=
  match handlers l !! i with
  | Some (LookingUp first r n) =>
      match own_lookup l with
      | Some answered =>
          Some (set_handlers (<[i := if answered && found then UsingPeer first r n else next_round r n]> (handlers l)) l)
      | None => None
      end
  | Some (UsingPeer first r n) =>
      Some (set_handlers (<[i := if peerImpl l then if found || negb first then Finishing n else next_round r n
                                 else Throwing]> (handlers l)) l)
  | Some (Finishing n) =>
      if (n =? 0)%nat then Some (set_handlers (<[i := Answered]> (handlers l)) l)
      else match replication l with
           | Idle => Some (set_replication (RepLookup n) (set_handlers (<[i := Answered]> (handlers l)) l))
           | _ => None
           end
  | _ => None
  end.

(** The loop of a replication; an exception ends it. *)
Definition replication_step (found : bool) (l : Life) : option Life :=
  match replication l with
  | Idle => None
  | RepLookup 0 => Some (set_replication Idle l)
  | RepLookup (S n) =>
      match own_lookup l with
      | Some answered => Some (set_replication (if answered && found then RepStore n else RepLookup n) l)
      | None => None
      end
  | RepStore n => Some (set_replication (if peerImpl l then RepLookup n else Idle) l)
  end.

(** A request arrives while the API exists: a PUT, whose replication field is
    a byte, or a GET, which tries as many copies as the average replication. *)
Definition request_step (retries copies : nat) (l : Life) : option Life :=
  match owner l with
  | Alive | Cancelling | StoppingApi =>
      if ((retries =? 0) || (copies =? 0))%nat && (copies <=? 254)%nat && (retries <=? 255)%nat
      then Some (set_handlers (handlers l ++ [LookingUp true retries copies]) l) else None
  | _ => None
  end.

Inductive Step :=
  | StepOwner | StepServer (fatal : bool) | StepMain (o : OpEnd) | StepHandler (i : nat) (found : bool)
  | StepReplication (found : bool) | StepRequest (retries copies : nat).

Definition life_step (s : Step) (l : Life) : option Life :=
  match s with
  | StepOwner => owner_step l
  | StepServer fatal => server_step fatal l
  | StepMain o => main_step o l
  | StepHandler i found => handler_step i found l
  | StepReplication found => replication_step found l
  | StepRequest retries copies => request_step retries copies l
  end.

Fixpoint life_run (steps : list Step) (l : Life) : option Life :=
  match steps with
  | [] => Some l
  | s :: steps => l' ← life_step s l; life_run steps l'
  end.

(** ** Ordered runs: the constructor ends before the server thread runs *)

(** The server thread is not scheduled before the constructor is done. *)
Definition in_order (s : Step) (l : Life) : bool :=
  match s, owner l with StepServer _, Constructing _ => false | _, _ => true end.

Inductive reaches : Life → Prop :=
| reach_ctor : reaches Dht_ctor
| reach_step l s l' : reaches l → in_order s l = true → life_step s l = Some l' → reaches l'.

(** How far the destructor is. *)
Definition stage (o : Owner) : nat :=
  match o with
  | Constructing _ => 0 | Alive => 1 | Cancelling => 2 | StoppingApi => 3 | WaitingApi => 4
  | WaitingMain => 5 | WaitingReplication => 6 | Gone => 7
  end.

Definition main_alive (m : Main) : bool :=
  match m with Test k => (k <=? 4)%nat | Busy k => (k <=? 3)%nat | Failed | Exited => true | _ => false end.

(** The server thread and the main loop. *)
Definition threads_ok (l : Life) : Prop :=
  match server l with
  | NotStarted => False
  | Starting => main l = Off ∧ peerImpl l = false
  | HavePeer => main l = Off ∧ peerImpl l = true
  | Polling | Unwinding => main_alive (main l) = true ∧ peerImpl l = true
  | Returned => (main l = Off ∨ main l = Failed) ∧ peerImpl l = true ∨ main l = Exited
  end.

(** A handler that has found a node, or failed. *)
Definition has_looked (h : Handler) : bool := match h with UsingPeer _ _ _ | Throwing => true | _ => false end.

Definition untouched (l : Life) : Prop :=
  main l = Off ∧ handlers l = [] ∧ replication l = Idle ∧ cancelled l = false ∧ exited l = false ∧ peerImpl l = false.

Record life_ok (l : Life) : Prop := {
  lo_raced : raced l = false;
  lo_threads : match owner l with
               | Constructing rest => untouched l ∧
                   ∃ k, rest = drop k members_in_order ∧ server l = if (k =? 0)%nat then NotStarted else Starting
               | _ => threads_ok l
               end;
  lo_cancelled : cancelled l = true ↔ (3 <= stage (owner l))%nat;
  lo_exited : exited l = true ↔ main l = Exited;
  lo_main : main l = Exited → cancelled l = true;
  lo_found : (∃ h, h ∈ handlers l ∧ has_looked h = true) → main_alive (main l) = true;
  lo_throwing : Throwing ∈ handlers l → cancelled l = true;
  lo_handlers : (5 <= stage (owner l))%nat → forallb finished (handlers l) = true;
  lo_server : (6 <= stage (owner l))%nat → server l = Returned;
  lo_replication : owner l = Gone → replication l = Idle;
}.

(** The object while [k] members are initialised. *)
Definition constructing (k : nat) : Life :=
  mkLife (Constructing (drop k members_in_order)) (if (k =? 0)%nat then NotStarted else Starting)
    Off [] Idle false false false false.

Lemma nothing_found (P : Handler → Prop) : ¬ ∃ h, h ∈ ([] : list Handler) ∧ P h.
Proof. by intros (h & ?%elem_of_nil & _). Qed.

Lemma life_ok_constructing k : life_ok (constructing k).
Proof.
  constructor; cbn; try done; try lia.
  - split; [done|]. by exists k.
  - intros E. by destruct (nothing_found _ E).
  - by intros ?%elem_of_nil.
Qed.

Lemma life_ok_alive : life_ok (set_owner Alive (constructing 9)).
Proof.
  constructor; cbn; try done; try lia.
  - intros E. by destruct (nothing_found _ E).
  - by intros ?%elem_of_nil.
Qed.

Lemma life_ok_construct l rest l' : life_ok l → owner l = Constructing rest → owner_step l = Some l' → life_ok l'.
Proof.
  intros Hok Ho. pose proof (lo_threads _ Hok) as Ht. pose proof (lo_raced _ Hok) as Hr. rewrite Ho in Ht.
  destruct Ht as [(Hm0 & Hh0 & Hr0 & Hc0 & He0 & Hp0) (k & Hrest & Hsrv)].
  assert (l = constructing k) as -> by (destruct l; cbn in *; subst; done).
  destruct (decide (k < 9)%nat) as [Hk|Hk].
  - assert (owner_step (constructing k) = Some (constructing (S k))) as ->
      by (do 9 (destruct k as [|k]; [done|]); lia).
    intros [= <-]. apply life_ok_constructing.
  - assert (owner_step (constructing k) = Some (set_owner Alive (constructing 9))) as ->.
    { unfold constructing, owner_step. rewrite drop_ge by (cbn; lia). cbn.
      by destruct (Nat.eqb_spec k 0); [lia|]. }
    intros [= <-]. apply life_ok_alive.
Qed.

Lemma touch_done m l : (1 <= stage (owner l))%nat → touch m l = l.
Proof.
  intros Ho. destruct l as [o sv mn hs rp cn ex pi rc]. unfold touch, initialised. cbn in *.
  destruct o; [cbn in Ho; lia|..]; by rewrite orb_false_r.
Qed.

Lemma threads_alive l : life_ok l → (1 <= stage (owner l))%nat → threads_ok l.
Proof. intros [] Ho. destruct (owner l); [cbn in Ho; lia|done..]. Qed.

(** Replace the fields by their values. *)
Ltac life_cases l :=
  destruct l as [o sv mn hs rp cn ex pi rc]; cbn in *; subst.

Ltac life_solve Hc :=
  constructor; cbn;
  try first [done | lia | rewrite Hc; lia
            | intros; match goal with Hs : (_ <= _)%nat → ?P |- ?P => apply Hs; lia end
            | tauto | intuition lia | intuition congruence].

Lemma life_ok_owner l l' : life_ok l → (1 <= stage (owner l))%nat → owner_step l = Some l' → life_ok l'.
Proof.
  intros Hok Ho. pose proof (threads_alive l Hok Ho) as Ht. destruct Hok as [Hr _ Hc He Hm Hf Hth Hh Hs Hrep].
  life_cases l. destruct o; cbn in *; try lia; try done.
  - intros [= <-]. life_solve Hc.
  - intros [= <-]. life_solve Hc.
  - intros [= <-]. life_solve Hc.
  - destruct (forallb finished hs) eqn:E; [|done]. intros [= <-]. life_solve Hc.
  - destruct sv; try done. intros [= <-]. life_solve Hc.
  - destruct rp; try done. intros [= <-]. life_solve Hc.
Qed.

Lemma life_ok_server fatal l l' : life_ok l → (1 <= stage (owner l))%nat → server_step fatal l = Some l' → life_ok l'.
Proof.
  intros Hok Ho. pose proof (threads_alive l Hok Ho) as Ht. destruct Hok as [Hr _ Hc He Hm Hf Hth Hh Hs Hrep].
  unfold server_step. rewrite !touch_done by done. unfold threads_ok in Ht.
  life_cases l. destruct sv; try done.
  - destruct Ht as [-> ->]. intros [= <-]. destruct o; cbn in *; life_solve Hc.
  - destruct Ht as [-> ->]. destruct fatal; intros [= <-]; destruct o; cbn in *; life_solve Hc.
  - destruct Ht as [Ha ->]. destruct fatal; [|destruct ex]; intros [= <-]; destruct o; cbn in *; life_solve Hc.
  - destruct Ht as [Ha ->]. destruct mn; try done; intros [= <-]; destruct o; cbn in *; life_solve Hc.
Qed.

(** The main loop moves on. *)
Lemma life_ok_set_main l next : life_ok l → server l = Polling ∨ server l = Unwinding → (1 <= stage (owner l))%nat →
  main l ≠ Exited → main_alive next = true → next ≠ Exited → life_ok (set_main next l).
Proof.
  intros Hok Hsv Ho Hne Ha Hne'. pose proof (threads_alive l Hok Ho) as Ht.
  destruct Hok as [Hr _ Hc He Hm Hf Hth Hh Hs Hrep]. unfold threads_ok in Ht. life_cases l.
  destruct Hsv as [-> | ->], o; cbn in *; life_solve Hc.
Qed.

Lemma life_ok_main op l l' : life_ok l → (1 <= stage (owner l))%nat → main_step op l = Some l' → life_ok l'.
Proof.
  intros Hok Ho. pose proof (threads_alive l Hok Ho) as Ht. unfold main_step. rewrite !touch_done by done.
  assert (main l ≠ Off → main l ≠ Failed → main l ≠ Exited →
    (server l = Polling ∨ server l = Unwinding) ∧ main_alive (main l) = true ∧ peerImpl l = true) as Hrun.
  { unfold threads_ok in Ht. destruct (server l); intuition congruence. }
  destruct (main l) as [|k|k| | |] eqn:Em; try done;
    (destruct Hrun as (Hsv & Ha & Hp); [done..|]).
  - destruct (cancelled l) eqn:Ecn.
    + intros [= <-]. destruct Hok as [Hr _ Hc He Hm Hf Hth Hh Hs Hrep]. unfold threads_ok in Ht. life_cases l.
      destruct Hsv as [-> | ->], o; cbn in *; life_solve Hc.
    + intros [= <-]. apply life_ok_set_main; [done..|by rewrite Em| |by case_match].
      cbn in Ha. apply Nat.leb_le in Ha. destruct (Nat.eqb_spec k 4); [done|]. apply Nat.leb_le. lia.
  - assert (main_alive (Test (S k)) = true) as Ha' by (cbn in *; apply Nat.leb_le; apply Nat.leb_le in Ha; lia).
    assert (life_ok (operation_end op k l)) as Hok'.
    { destruct op; [|apply life_ok_set_main; [done..|by rewrite Em|done|done]|done]. by apply life_ok_set_main; [..|rewrite Em| |]. }
    rewrite Hp. destruct k as [|[|[|k]]]; cbn [operation_end]; try by intros [= <-].
    destruct (own_lookup l); [|done]. by intros [= <-].
Qed.

(** ** Handlers and replications *)

Lemma life_ok_handlers l new next : life_ok l → (1 <= stage (owner l))%nat →
  ((∃ h, h ∈ new ∧ has_looked h = true) → main_alive (main l) = true) →
  (Throwing ∈ new → cancelled l = true) →
  ((5 <= stage (owner l))%nat → forallb finished new = true) →
  (owner l = Gone → next = Idle) →
  life_ok (set_replication next (set_handlers new l)).
Proof.
  intros Hok Ho Hf' Hth' Hh' Hrep'. pose proof (threads_alive l Hok Ho) as Ht.
  destruct Hok as [Hr _ Hc He Hm Hf Hth Hh Hs Hrep]. life_cases l. destruct o; cbn in *; life_solve Hc.
Qed.

Lemma elem_of_insert_list {A} (l : list A) i (x y : A) : y ∈ <[i := x]> l → y = x ∨ y ∈ l.
Proof.
  intros Hy. apply list_elem_of_lookup_1 in Hy as [j Hj].
  apply list_lookup_insert_Some in Hj as [(_ & <- & _)|[_ Hj]]; [by left|right]. by eapply list_elem_of_lookup_2.
Qed.

(** Handler [i] moves on to [h]. *)
Lemma life_ok_handler l i h0 h rp : life_ok l → (1 <= stage (owner l))%nat →
  handlers l !! i = Some h0 → finished h0 = false →
  (has_looked h = true → main_alive (main l) = true) → (h = Throwing → cancelled l = true) →
  life_ok (set_replication rp (set_handlers (<[i := h]> (handlers l)) l)).
Proof.
  intros Hok Ho Hi H0 Hf Ht.
  assert (stage (owner l) < 5)%nat as Hst.
  { destruct (decide (5 <= stage (owner l))%nat) as [E|]; [|lia]. pose proof (lo_handlers _ Hok E) as Hall.
    rewrite forallb_forall in Hall. rewrite Hall in H0; [done|]. apply list_elem_of_In. by eapply list_elem_of_lookup_2. }
  apply life_ok_handlers; [done..| | |lia|intros E; rewrite E in Hst; cbn in Hst; lia].
  - intros (h' & [->|Hin]%elem_of_insert_list & Hl); [by apply Hf|]. apply (lo_found _ Hok). eauto.
  - intros [E|Hin]%elem_of_insert_list; [by apply Ht|]. by apply (lo_throwing _ Hok).
Qed.

Lemma set_replication_same l : set_replication (replication l) l = l.
Proof. by destruct l. Qed.

Lemma life_ok_handler_step l i found l' : life_ok l → (1 <= stage (owner l))%nat →
  handler_step i found l = Some l' → life_ok l'.
Proof.
  intros Hok Ho. pose proof (threads_alive l Hok Ho) as Ht. unfold handler_step.
  destruct (handlers l !! i) as [h0|] eqn:Hi; [|done].
  assert (∀ h, finished h0 = false → (has_looked h = true → main_alive (main l) = true) →
    (h = Throwing → cancelled l = true) → life_ok (set_handlers (<[i := h]> (handlers l)) l)) as Hmove.
  { intros h H0 Hf Hth. pose proof (life_ok_handler l i h0 h (replication l) Hok Ho Hi H0 Hf Hth) as H.
    exact H. }
  destruct h0 as [b r n|b r n|n| |]; try done.
  - unfold threads_ok in Ht. unfold own_lookup. destruct (server l) eqn:Es; try done; intros [= <-]; apply Hmove; try (by destruct r);
      destruct found; try (by destruct r). intros _. apply Ht.
  - assert (main_alive (main l) = true) as Ha.
    { apply (lo_found _ Hok). exists (UsingPeer b r n). split; [by eapply list_elem_of_lookup_2|done]. }
    intros [= <-]. apply Hmove; [done|done|]. intros E.
    destruct (peerImpl l) eqn:Ep; [by destruct (found || negb b), r|].
    apply (lo_main _ Hok). unfold threads_ok in Ht. rewrite Ep in Ht.
    destruct (server l); [done|..|by destruct Ht as [[_ [=]]|]]; destruct Ht as [Hm Hp]; try done.
    by rewrite Hm in Ha.
  - destruct (n =? 0)%nat; [intros [= <-]; by apply Hmove|]. destruct (replication l); try done. intros [= <-].
    by eapply life_ok_handler.
Qed.

Lemma life_ok_replication l rp : life_ok l → (1 <= stage (owner l))%nat → replication l ≠ Idle →
  life_ok (set_replication rp l).
Proof.
  intros Hok Ho Hne. apply (life_ok_handlers l (handlers l)); [done..|apply Hok|apply Hok|apply Hok|].
  by intros E%(lo_replication _ Hok).
Qed.

Lemma life_ok_request l r n l' : life_ok l → (1 <= stage (owner l))%nat → request_step r n l = Some l' → life_ok l'.
Proof.
  intros Hok Ho Hs. assert ((stage (owner l) < 5)%nat ∧ l' = set_handlers (handlers l ++ [LookingUp true r n]) l) as [Hst ->].
  { unfold request_step in Hs. destruct (owner l); cbn in *; try done; destruct (_ && _ && _); try done;
      injection Hs as <-; split; lia || done. }
  apply (life_ok_handlers l _ (replication l)); [done..| | |lia|apply Hok].
  - intros (h & [Hin| ->%list_elem_of_singleton]%elem_of_app & Hl); [|done]. apply (lo_found _ Hok). eauto.
  - intros [Hin|[=]%list_elem_of_singleton]%elem_of_app. by apply (lo_throwing _ Hok).
Qed.

Lemma life_ok_replication_step l found l' : life_ok l → (1 <= stage (owner l))%nat →
  replication_step found l = Some l' → life_ok l'.
Proof.
  intros Hok Ho. unfold replication_step. destruct (replication l) as [|[|n]|n] eqn:Er; [done|..];
    try (destruct (own_lookup l); [|done]); intros [= <-]; apply life_ok_replication; congruence || done.
Qed.

Lemma life_ok_reaches l : reaches l → life_ok l.
Proof.
  induction 1 as [|l s l' _ Hok Hin Hs]; [apply (life_ok_constructing 0)|].
  destruct (owner l) as [rest| | | | | | |] eqn:Eo.
  { destruct s; cbn in *; [by eapply life_ok_construct| |exfalso..].
    1: by rewrite Eo in Hin.
    all: pose proof (lo_threads _ Hok) as Ht; rewrite Eo in Ht; destruct Ht as [(Hm & Hh & Hr & _) _].
    - unfold main_step in Hs. by rewrite Hm in Hs.
    - unfold handler_step in Hs. by rewrite Hh in Hs.
    - unfold replication_step in Hs. by rewrite Hr in Hs.
    - unfold request_step in Hs. by rewrite Eo in Hs. }
  all: assert (1 <= stage (owner l))%nat as Ho by (rewrite Eo; cbn; lia); destruct s; cbn in Hs;
    [by eapply life_ok_owner|by eapply life_ok_server|by eapply life_ok_main|by eapply life_ok_handler_step
    |by eapply life_ok_replication_step|by eapply life_ok_request].
Qed.

(** C17: The threads of a node see what they need. In every interleaving of
    the owner, the server thread, the main loop, the handlers and the
    replications in which the constructor ends before the server thread runs:
    no member is used before its initialisation; the main loop always finds
    the node's peer, so it never dies for want of it; no handler fails for
    want of the peer before the destructor has cancelled the node; and when
    the destructor returns, no thread is left: the server thread has returned,
    the main loop was never started, has exited or was left by an exception of
    an operation, all handlers are finished and no replication runs. *)
Theorem threads_see_live_members l : reaches l →
  raced l = false ∧ main l ≠ Crashed ∧
  (main_alive (main l) = true → main l ≠ Exited → peerImpl l = true) ∧
  (Throwing ∈ handlers l → cancelled l = true) ∧
  (owner l = Gone → server l = Returned ∧ (main l = Off ∨ main l = Exited ∨ main l = Failed) ∧
     forallb finished (handlers l) = true ∧ replication l = Idle).
Proof.
  intros Hok%life_ok_reaches.
  assert (main l ≠ Crashed ∧ (main_alive (main l) = true → main l ≠ Exited → peerImpl l = true)) as [Hcr Hp].
  { pose proof (lo_threads _ Hok) as Ht. destruct (owner l); [by destruct Ht as [(-> & _) _]|..];
      unfold threads_ok in Ht; destruct (server l); try done; try by destruct Ht as [-> ->].
    all: try (destruct Ht as [Ha ->]; split; [by intros E; rewrite E in Ha|done]).
    all: by destruct Ht as [[[-> | ->] ->]| ->]. }
  split_and!; [apply Hok|done|done|apply Hok|]. intros E.
  assert (server l = Returned) as Hs by (apply (lo_server _ Hok); rewrite E; cbn; lia).
  pose proof (threads_alive l Hok ltac:(rewrite E; cbn; lia)) as Ht. unfold threads_ok in Ht. rewrite Hs in Ht.
  split_and!; [done|tauto|apply (lo_handlers _ Hok); rewrite E; cbn; lia|by apply (lo_replication _ Hok)].
Qed.

(** ** The destructor returns *)

Definition handler_work (h : Handler) : nat :=
  match h with
  | LookingUp _ r n => 2 * r + 2 * n + 5 | UsingPeer _ r n => 2 * r + 2 * n + 4 | Finishing n => 2 * n + 3 | _ => 0
  end.

Lemma next_round_work b r n : (handler_work (next_round r n) < handler_work (UsingPeer b r n))%nat.
Proof. destruct r; cbn; lia. Qed.

Definition replication_work (r : Replicator) : nat :=
  match r with Idle => 0 | RepLookup n => 2 * n + 1 | RepStore n => 2 * n + 2 end.

Definition server_work (s : Server) : nat :=
  match s with NotStarted => 12 | Starting => 11 | HavePeer => 10 | Polling | Unwinding => 3 | Returned => 0 end.

Definition main_work (m : Main) : nat := match m with Test _ => 1 | Busy _ => 2 | _ => 0 end.

(** The work left once the service of the API is stopped. *)
Definition work (l : Life) : nat :=
  (7 - stage (owner l)) + server_work (server l) + main_work (main l)
  + sum_list_with handler_work (handlers l) + replication_work (replication l).

Lemma work_insert hs i h0 h : hs !! i = Some h0 →
  (sum_list_with handler_work (<[i := h]> hs) + handler_work h0
   = sum_list_with handler_work hs + handler_work h)%nat.
Proof.
  intros E. generalize handler_work. intros w. rewrite insert_take_drop by (by eapply lookup_lt_Some).
  rewrite <- (take_drop_middle hs i h0 E) at 3. rewrite !sum_list_with_app. cbn. lia.
Qed.

(** The state after the service is stopped, with a server and a main loop that
    have not failed. *)
Definition closing (l : Life) : Prop :=
  life_ok l ∧ (4 <= stage (owner l))%nat ∧ server l ≠ Unwinding ∧ main l ≠ Failed.

(** No exception leaves the polling loop or an operation of the main loop. *)
Definition regular (s : Step) : Prop := s ≠ StepServer true ∧ s ≠ StepMain Throws.

(** A step that does no work is a poll, or an operation that goes on. *)
Lemma closing_step l s l' : closing l → regular s → life_step s l = Some l' →
  (work l' < work l)%nat ∨ l' = l.
Proof.
  intros (Hok & Hst & Hsv & Hmf) [Hne Hth]. assert (1 <= stage (owner l))%nat as Ho by lia.
  pose proof (threads_alive l Hok Ho) as Ht.
  assert (cancelled l = true) as Hc by (apply (lo_cancelled _ Hok); lia).
  destruct s as [|[]|op|i found|found|r n]; cbn [life_step]; [|done|..].
  - unfold owner_step. destruct (owner l) eqn:Eo; cbn in Hst; try lia; [destruct (forallb _ _)|destruct (server l)
      |destruct (replication l)|]; try done; intros [= <-]; left; unfold work; rewrite Eo; cbn; lia.
  - unfold server_step. rewrite !touch_done by done. unfold threads_ok in Ht.
    destruct (server l) eqn:Es; try done; [..|destruct (exited l)]; intros [= <-]; try (by right); left; unfold work;
      rewrite Es; cbn; lia.
  - unfold main_step. rewrite !touch_done by done. rewrite Hc.
    destruct (main l) as [|k|k| | |] eqn:Em; try done; [intros [= <-]; left; unfold work; rewrite Em; cbn; lia|].
    assert (∀ k', (work (operation_end op k' l) < work l)%nat ∨ operation_end op k' l = l) as Hop.
    { intros k'. destruct op; [|done|by right]. left. unfold work. cbn. rewrite Em. cbn. lia. }
    assert (work (set_main Crashed l) < work l)%nat as Hcr by (unfold work; cbn; rewrite Em; cbn; lia).
    destruct k as [|[|[|k]]]; [..|destruct (own_lookup l); [|done]|]; intros [= <-]; try destruct (peerImpl l);
      (by apply Hop) || by left.
  - unfold handler_step. destruct (handlers l !! i) as [h0|] eqn:Ei; [|done].
    assert (∀ h, (handler_work h < handler_work h0)%nat →
      (work (set_handlers (<[i := h]> (handlers l)) l) < work l)%nat) as Hw.
    { intros h Hlt. pose proof (work_insert _ _ _ h Ei). unfold work. cbn. lia. }
    destruct h0 as [b r n|b r n|n| |]; try done; [destruct (own_lookup l) as [a|]; [|done]|..];
      try pose proof (next_round_work b r n) as Hr.
    + intros [= <-]. left. apply Hw. destruct (a && found); cbn in *; lia.
    + intros [= <-]. left. apply Hw. destruct (peerImpl l), (found || negb b); cbn in *; lia.
    + destruct (Nat.eqb_spec n 0); [intros [= <-]; left; apply Hw; cbn; lia|].
      destruct (replication l) eqn:Er; try done. intros [= <-]. left.
      pose proof (work_insert _ _ _ Answered Ei) as E. unfold work. cbn in *. rewrite Er. cbn. lia.
  - unfold replication_step. destruct (replication l) as [|[|n]|n] eqn:Er; try done;
      [|destruct (own_lookup l) as [a|]; [|done]|]; intros [= <-]; left; unfold work; rewrite Er; cbn; [lia|..].
    + destruct (a && found); cbn; lia.
    + destruct (peerImpl l); cbn; lia.
  - unfold request_step. destruct (owner l); cbn in Hst; try done; lia.
Qed.

(** Some thread can do something. *)
Definition can_work (l : Life) : Prop :=
  ∃ s l', regular s ∧ life_step s l = Some l' ∧ l' ≠ l.

Lemma can_work_by {A} (f : Life → A) s l l' : regular s → life_step s l = Some l' → f l' ≠ f l → can_work l.
Proof. intros Hs Hstep Hne. exists s, l'. split_and!; [done|done|]. by intros ->. Qed.

(** The server polls: the main loop moves on, or the server sees its end. *)
Lemma polling_work l : life_ok l → (4 <= stage (owner l))%nat → server l = Polling → main_alive (main l) = true → main l ≠ Failed →
  can_work l.
Proof.
  intros Hok Hst Es Ha Hmf. assert (1 <= stage (owner l))%nat as Ho by lia.
  assert (cancelled l = true) as Hc by (apply (lo_cancelled _ Hok); lia).
  destruct (main l) as [|k|k| | |] eqn:Em; try done.
  - eapply (can_work_by main (StepMain Ends)); [done|cbn; unfold main_step; by rewrite touch_done, Em, Hc|]. cbn. congruence.
  - assert (∃ l', main_step Ends l = Some l' ∧ main l' ≠ Busy k) as (l' & Hl' & Hne).
    { unfold main_step, own_lookup. rewrite touch_done, Em, Es by done.
      destruct k as [|[|[|k]]]; eexists; (split; [done|]); cbn; by destruct (peerImpl l). }
    apply (can_work_by main (StepMain Ends) l l'); [done|done|]. congruence.
  - assert (exited l = true) as He by (by apply (lo_exited _ Hok)).
    eapply (can_work_by server (StepServer false)); [done|cbn; unfold server_step; by rewrite touch_done, Es, He|].
    cbn. congruence.
Qed.

(** The server has returned, so lookups are refused at once. *)
Lemma replicating_work l : server l = Returned → replication l ≠ Idle → can_work l.
Proof.
  intros Es Hne. assert (∃ l', replication_step true l = Some l' ∧ replication l' ≠ replication l) as (l' & Hl' & Hd).
  { unfold replication_step, own_lookup. rewrite Es.
    destruct (replication l) as [|[|n]|n]; [done|..]; eexists; (split; [done|]); cbn; [done| |by destruct (peerImpl l)].
    intros [=]. lia. }
  by apply (can_work_by replication (StepReplication true) l l').
Qed.

Lemma handler_work_left l i h : server l = Returned → handlers l !! i = Some h → finished h = false → can_work l.
Proof.
  intros Es Hi Hf. pose proof (lookup_lt_Some _ _ _ Hi) as Hlt.
  assert (∀ h', h' ≠ h → <[i := h']> (handlers l) ≠ handlers l) as Hins.
  { intros h' Hne E. rewrite <- E, list_lookup_insert_eq in Hi by done. congruence. }
  destruct h as [b r n|b r n|n| |]; try done.
  - eapply (can_work_by handlers (StepHandler i true));
      [done|cbn; unfold handler_step, own_lookup; by rewrite Hi, Es|]. apply Hins. destruct r; [done|]. cbn. intros [=]. lia.
  - eapply (can_work_by handlers (StepHandler i true)); [done|cbn; unfold handler_step; by rewrite Hi|].
    apply Hins. by destruct (peerImpl l).
  - destruct (Nat.eqb_spec n 0) as [->|Hn].
    + eapply (can_work_by handlers (StepHandler i true)); [done|cbn; unfold handler_step; by rewrite Hi|]. by apply Hins.
    + destruct (replication l) eqn:Er; [|by apply replicating_work; [|rewrite Er]..].
      eapply (can_work_by handlers (StepHandler i true)); [done| |].
      { cbn. unfold handler_step. rewrite Hi, Er. by rewrite (proj2 (Nat.eqb_neq n 0) Hn). }
      by apply Hins.
Qed.

(** Until the object is gone, some thread can work. *)
Lemma closing_progress l : closing l → owner l ≠ Gone → can_work l.
Proof.
  intros (Hok & Hst & Hsv & Hmf) Hgone. pose proof (threads_alive l Hok ltac:(lia)) as Ht. unfold threads_ok in Ht.
  destruct (server l) eqn:Es; [done|..|done|].
  - eapply (can_work_by server (StepServer false)); [done|cbn; unfold server_step; by rewrite Es|]. cbn. congruence.
  - eapply (can_work_by server (StepServer false)); [done|cbn; unfold server_step; by rewrite Es|]. cbn. congruence.
  - apply polling_work; [done..|apply Ht|done].
  - destruct (owner l) eqn:Eo; cbn in Hst; try lia; try done.
    + destruct (forallb finished (handlers l)) eqn:Ef.
      * eapply (can_work_by owner StepOwner); [done|cbn; unfold owner_step; by rewrite Eo, Ef|]. cbn. congruence.
      * apply not_true_iff_false in Ef. rewrite forallb_forall in Ef.
        destruct (list_find (λ h, finished h = false) (handlers l)) as [[i h]|] eqn:E.
        { apply list_find_Some in E as (Hi & Hh & _). by eapply handler_work_left. }
        apply list_find_None in E. rewrite Forall_forall in E. exfalso. apply Ef. intros h Hin%list_elem_of_In.
        specialize (E h Hin). by destruct (finished h).
    + eapply (can_work_by owner StepOwner); [done|cbn; unfold owner_step; by rewrite Eo, Es|]. cbn. congruence.
    + destruct (replication l) eqn:Er; [|by apply replicating_work; [|rewrite Er]..].
      eapply (can_work_by owner StepOwner); [done|cbn; unfold owner_step; by rewrite Eo, Er|]. cbn. congruence.
Qed.

Lemma closing_keep l s l' : closing l → regular s → life_step s l = Some l' → closing l'.
Proof.
  intros (Hok & Hst & Hsv & Hmf) [Hne Hth] Hs. assert (1 <= stage (owner l))%nat as Ho by lia. split_and!.
  - destruct s; cbn in Hs; [by eapply life_ok_owner|by eapply life_ok_server|by eapply life_ok_main
      |by eapply life_ok_handler_step|by eapply life_ok_replication_step|by eapply life_ok_request].
  - destruct s; cbn in Hs;
      unfold owner_step, server_step, main_step, operation_end, handler_step, replication_step, request_step in Hs;
      rewrite ?touch_done in Hs by done; repeat case_match; simplify_eq; cbn in *; lia.
  - destruct s as [|[]| | | |]; [|done|..]; cbn in Hs;
      unfold owner_step, server_step, main_step, operation_end, handler_step, replication_step, request_step in Hs;
      rewrite ?touch_done in Hs by done; repeat case_match; simplify_eq; cbn in *; lia || congruence.
  - destruct s as [|[]|[]| | |]; [|done|..|done| | | |]; cbn in Hs;
      unfold owner_step, server_step, main_step, operation_end, handler_step, replication_step, request_step in Hs;
      rewrite ?touch_done in Hs by done; repeat case_match; simplify_eq; cbn in *; lia || congruence.
Qed.

(** A run to the end of the destructor. *)
Lemma closing_ends l : closing l →
  ∃ steps l', (length steps <= work l)%nat ∧ Forall regular steps ∧ life_run steps l = Some l' ∧ owner l' = Gone.
Proof.
  remember (work l) as n eqn:En. revert l En. induction (lt_wf n) as [n _ IH]. intros l -> Hcl.
  destruct (owner l) eqn:Eo; cycle -1.
  { exists [], l. split_and!; [cbn; lia|done|done|done]. }
  all: destruct (closing_progress l Hcl ltac:(congruence)) as (s & l1 & Hs & Hstep & Hne);
    destruct (closing_step l s l1 Hcl Hs Hstep) as [Hlt|]; [|done];
    destruct (IH (work l1) Hlt l1 eq_refl (closing_keep l s l1 Hcl Hs Hstep)) as (steps & l2 & Hlen & Hnot & Hrun & Hg);
    exists (s :: steps), l2; (split_and!; [cbn; lia|by constructor| |done]);
    cbn [life_run]; by rewrite Hstep.
Qed.

(** What the server thread waits for does not come: the main loop has been left
    by an exception ([Failed]), or is in an operation. *)
Definition held (m : Main) (l : Life) : Prop :=
  main l = m ∧ exited l = false ∧ peerImpl l = true ∧ (server l = Polling ∨ server l = Unwinding ∧ m ≠ Failed) ∧
  (1 <= stage (owner l) <= 5)%nat.

(** Steps that do not end the operation; a failure of the server ends the wait
    for a main loop that has failed, so it is left out then. *)
Definition holding (m : Main) (s : Step) : Prop :=
  match s with
  | StepMain o => m = Failed ∨ o = RunsOn
  | StepServer fatal => m = Failed → fatal = false
  | _ => True
  end.

Lemma held_step m l s l' : m = Failed ∨ (∃ k, m = Busy k) → held m l → holding m s → life_step s l = Some l' → held m l'.
Proof.
  intros Hm (Em & Ee & Hp & Hsv & Ho) Hr Hs. assert (1 <= stage (owner l))%nat as Ho1 by lia.
  destruct s as [|fatal|o|i found|found|n]; cbn in Hs, Hr.
  - unfold owner_step in Hs. unfold held. assert (server l ≠ Returned) as Hret by (by destruct Hsv as [->|[-> _]]).
    destruct (owner l) eqn:Eo; cbn in Ho; try lia; repeat case_match; simplify_eq; cbn; split_and!; try done; lia.
  - unfold server_step in Hs. rewrite touch_done, Ee in Hs by done. unfold held.
    destruct Hsv as [Es|[Es Hne]]; rewrite Es in Hs.
    + destruct fatal; simplify_eq; cbn; [|by split_and!; auto; lia]. split_and!; [done..| |lia|lia]. right. split; [done|].
      intros E. by specialize (Hr E).
    + rewrite Em in Hs. by destruct Hm as [->|[k ->]].
  - unfold main_step in Hs. rewrite !touch_done, Em in Hs by done.
    destruct Hm as [->|[k ->]]; [done|]. destruct Hr as [[=]| ->]. rewrite Hp in Hs. cbn [operation_end] in Hs.
    assert (l' = l) as ->; [|done].
    destruct k as [|[|[|k]]]; [..|destruct (own_lookup l); [|done]|]; by injection Hs as <-.
  - unfold handler_step in Hs. unfold held. repeat case_match; simplify_eq; by cbn.
  - unfold replication_step in Hs. unfold held. repeat case_match; simplify_eq; by cbn.
  - unfold request_step in Hs. unfold held. destruct (owner l) eqn:Eo; try done; case_match; try done;
      injection Hs as <-; cbn; by rewrite Eo.
Qed.

Lemma held_run m steps : m = Failed ∨ (∃ k, m = Busy k) → Forall (holding m) steps →
  ∀ l l', held m l → life_run steps l = Some l' → main l' = m ∧ owner l' ≠ Gone.
Proof.
  intros Hm. induction 1 as [|s steps Hs _ IH]; intros l l' Hl; cbn [life_run].
  - intros [= <-]. destruct Hl as (? & _ & _ & _ & Ho). split; [done|]. intros E. rewrite E in Ho. cbn in Ho. lia.
  - destruct (life_step s l) as [l1|] eqn:E; [|done]. apply IH. by eapply held_step.
Qed.

Lemma held_now m l : life_ok l → (4 <= stage (owner l))%nat → server l ≠ Unwinding → main l = m →
  (m = Failed ∧ server l = Polling) ∨ (∃ k, m = Busy k) → held m l.
Proof.
  intros Hok Hst Hsv Em Hm. pose proof (threads_alive l Hok ltac:(lia)) as Ht. unfold threads_ok in Ht.
  assert (main l ≠ Exited) as Hne by (rewrite Em; by destruct Hm as [[-> _]|[k ->]]).
  assert (server l = Polling) as Es.
  { destruct Hm as [[_ ?]|[k ->]]; [done|]. rewrite Em in Ht. destruct (server l); intuition congruence. }
  rewrite Es in Ht. split_and!; [done| |apply Ht|by left|lia|].
  - destruct (exited l) eqn:E; [|done]. by apply (lo_exited _ Hok) in E.
  - destruct (decide (6 <= stage (owner l))%nat) as [E|]; [|lia]. apply (lo_server _ Hok) in E. congruence.
Qed.

(** C18: When the destructor returns. Take a node whose server has not failed,
    once its destructor has stopped the service of the API. As long as no
    exception leaves an operation of the main loop or the polling loop: no step
    adds work, and one that removes none changes nothing (a poll, or an operation
    that goes on); until the object is gone some thread can remove work, in the
    main loop by ending its operation; and it is gone after at most [work] such
    steps. If an exception has left an operation of the main loop while the
    server polls, [m_mainLoopExited] is never set and the destructor does not
    return in any run in which the server does not fail; and if an operation of
    the main loop goes on for ever, like the search for a solution of a puzzle
    that has none, it does not return either, whatever the others do. *)
Theorem destructor_returns l : reaches l → (4 <= stage (owner l))%nat → server l ≠ Unwinding →
  (main l ≠ Failed →
    (∀ s l', regular s → life_step s l = Some l' → (work l' < work l)%nat ∨ l' = l) ∧
    (owner l ≠ Gone → can_work l) ∧
    ∃ steps l', (length steps <= work l)%nat ∧ Forall regular steps ∧ life_run steps l = Some l' ∧ owner l' = Gone) ∧
  (∀ steps l', main l = Failed → server l = Polling → StepServer true ∉ steps → life_run steps l = Some l' →
    owner l' ≠ Gone) ∧
  (∀ steps l' k, main l = Busy k → (∀ o, StepMain o ∈ steps → o = RunsOn) → life_run steps l = Some l' →
    main l' = Busy k ∧ owner l' ≠ Gone).
Proof.
  intros Hok%life_ok_reaches Hst Hsv. split_and!.
  - intros Hmf. assert (closing l) as Hcl by done. split_and!.
    + intros s l'. by apply closing_step.
    + by apply closing_progress.
    + by apply closing_ends.
  - intros steps l' Em Es Hno Hrun. eapply (held_run Failed steps); [by left| |by apply held_now; [..|left]|done].
    apply Forall_forall. intros [|[]| | | |] Hs; cbn; auto; done.
  - intros steps l' k Em Hon Hrun. eapply (held_run (Busy k) steps); [by right; exists k| |by apply held_now; [..|right; exists k]|done].
    apply Forall_forall. intros [| |o| | |] Hs; cbn; auto; done.
Qed.

(** ** What can go wrong *)

(** A server thread that unwinds waits for the main loop, which waits for the
    server at the next repair of a finger. *)
Definition stuck (l : Life) : Prop := server l = Unwinding ∧ main l = Busy 2.

Lemma stuck_other l l1 : owner l1 = owner l ∧ server l1 = server l ∧ main l1 = main l → stuck l →
  (stage (owner l) <= 5)%nat → (1 <= stage (owner l))%nat →
  stuck l1 ∧ (stage (owner l1) <= 5)%nat ∧ (1 <= stage (owner l1))%nat.
Proof. unfold stuck. by intros (-> & -> & ->). Qed.

(** C39: A failed server hangs the node. When an exception has left the polling
    loop and the main loop is at the lookup of its next repair of a finger,
    neither the main loop nor the server thread takes a step any more, in
    whatever the other threads do, and the destructor never returns. *)
Theorem failed_server_hangs l : stuck l → (stage (owner l) <= 5)%nat → (1 <= stage (owner l))%nat →
  (∀ o, main_step o l = None) ∧ server_step false l = None ∧
  ∀ steps l', life_run steps l = Some l' → stuck l' ∧ owner l' ≠ Gone.
Proof.
  intros Hst Ho Ho1. assert ((∀ o, main_step o l = None) ∧ server_step false l = None) as [Hm Hs].
  { destruct Hst as [Es Em]. unfold main_step, server_step, own_lookup. by rewrite Em, Es. }
  split_and!; [done..|]. intros steps. revert l Hst Ho Ho1 Hm Hs.
  induction steps as [|s steps IH]; intros l [Es Em] Ho Ho1 Hm Hs l'; cbn [life_run].
  { intros [= <-]. split; [done|]. intros E. rewrite E in Ho. cbn in Ho. lia. }
  destruct (life_step s l) as [l1|] eqn:E; [|done].
  assert (stuck l1 ∧ (stage (owner l1) <= 5)%nat ∧ (1 <= stage (owner l1))%nat) as (Hst1 & Ho1' & Ho1'').
  { destruct s as [|fatal| |i found|found|n]; cbn in E.
    - unfold owner_step in E. rewrite Es in E. destruct (owner l) eqn:Eo; cbn in Ho1, Ho; try lia; try done;
        try (destruct (forallb _ _); [|done]); injection E as <-; cbn; (split; [done|lia]).
    - unfold server_step in E. by rewrite Es, Em in E.
    - by rewrite Hm in E.
    - by apply (stuck_other l l1); [unfold handler_step, own_lookup in E; repeat case_match; by simplify_eq|..].
    - by apply (stuck_other l l1); [unfold replication_step, own_lookup in E; repeat case_match; by simplify_eq|..].
    - by apply (stuck_other l l1); [unfold request_step in E; repeat case_match; by simplify_eq|..]. }
  apply (IH l1 Hst1 Ho1' Ho1''); destruct Hst1 as [Es1 Em1]; unfold main_step, server_step, own_lookup; by rewrite Em1, ?Es1.
Qed.

(** The steps of the constructor and of the start of the threads. *)
Definition construct : list Step := replicate 10 StepOwner.
Definition start_up : list Step := construct ++ [StepServer false; StepServer false].

Definition after (steps : list Step) : Life := default Dht_ctor (life_run steps Dht_ctor).

(** A node whose server has failed during the stabilisation. *)
Definition hung : Life :=
  after (start_up ++ [StepMain Ends; StepMain Ends; StepMain Ends; StepMain Ends; StepServer true; StepMain Ends]).

Lemma failed_server_hangs_witness :
  stuck hung ∧ main_step Ends hung = None ∧ ∀ steps l', life_run steps hung = Some l' → stuck l' ∧ owner l' ≠ Gone.
Proof.
  assert (stuck hung) as Hst by (split; reflexivity). split; [exact Hst|].
  destruct (failed_server_hangs hung Hst ltac:(cbn; lia) ltac:(cbn; lia)) as (Hm & _ & Hrun). split; [exact (Hm Ends)|exact Hrun].
Defined.

(** Ordered runs from the start, by computation. *)
Fixpoint ordered (steps : list Step) (l : Life) : bool :=
  match steps with
  | [] => true
  | s :: steps => in_order s l && match life_step s l with Some l' => ordered steps l' | None => false end
  end.

Lemma reaches_run steps l : reaches l → ordered steps l = true → ∃ l', life_run steps l = Some l' ∧ reaches l'.
Proof.
  revert l. induction steps as [|s steps IH]; intros l Hl; cbn [ordered life_run]; [eauto|].
  rewrite andb_true_iff. intros [Hin Hrest]. destruct (life_step s l) as [l1|] eqn:E; [|done].
  cbn. apply IH; [|done]. by eapply reach_step.
Qed.

Lemma after_reaches steps : ordered steps Dht_ctor = true → reaches (after steps).
Proof. intros H. destruct (reaches_run steps Dht_ctor reach_ctor H) as (l & Hl & Hr). unfold after. by rewrite Hl. Qed.

(** A node that runs, gets a PUT with two copies, and is destroyed while the
    handler is between its lookup and its store. *)
Definition closing_steps : list Step :=
  start_up ++ [StepMain Ends; StepMain Ends; StepRequest 0 2; StepHandler 0 true; StepOwner; StepOwner; StepOwner].

Lemma threads_see_live_members_witness : raced (after closing_steps) = false ∧ main (after closing_steps) ≠ Crashed.
Proof.
  destruct (threads_see_live_members (after closing_steps)) as (Hr & Hm & _);
    [exact (after_reaches closing_steps eq_refl)|]. split; [exact Hr|exact Hm].
Defined.

(** The same node, whose main loop is left by an exception, and one whose main
    loop does not come out of its first operation. *)
Definition failing_steps : list Step := start_up ++ [StepMain Ends; StepMain Throws] ++ replicate 3 StepOwner.

Definition endless_steps : list Step := start_up ++ [StepMain Ends] ++ replicate 3 StepOwner.

Lemma destructor_returns_witness :
  (∃ steps l', (length steps <= work (after closing_steps))%nat ∧ Forall regular steps ∧
     life_run steps (after closing_steps) = Some l' ∧ owner l' = Gone) ∧
  (∀ steps l', StepServer true ∉ steps → life_run steps (after failing_steps) = Some l' → owner l' ≠ Gone) ∧
  (∀ steps l', (∀ o, StepMain o ∈ steps → o = RunsOn) → life_run steps (after endless_steps) = Some l' → owner l' ≠ Gone).
Proof.
  split; [|split].
  - destruct (destructor_returns (after closing_steps)) as (H & _);
      [exact (after_reaches closing_steps eq_refl)|cbn; lia|discriminate|]. apply H. discriminate.
  - destruct (destructor_returns (after failing_steps)) as (_ & H & _);
      [exact (after_reaches failing_steps eq_refl)|cbn; lia|discriminate|]. intros steps l' Hno. by apply H.
  - destruct (destructor_returns (after endless_steps)) as (_ & _ & H);
      [exact (after_reaches endless_steps eq_refl)|cbn; lia|discriminate|]. intros steps l' Hon Hrun.
    by apply (H steps l' 0%nat).
Defined.

(** The server thread starts before the members it uses are initialised: in
    one interleaving the configuration is read, and the peer set, before
    their initialisers run, and the initialiser then empties [m_peerImpl]. *)
Theorem constructor_races :
  let l := after ([StepOwner; StepServer false] ++ replicate 9 StepOwner ++ [StepServer false]) in
  raced l = true ∧ server l = Polling ∧ peerImpl l = false ∧ ordered [StepOwner; StepServer false] Dht_ctor = false.
Proof. done. Qed.

(** A handler that was between its lookup and its use of the peer when the
    destructor cancelled the node fails. *)
Theorem handler_fails_in_shutdown :
  let l := after (closing_steps ++ [StepMain Ends; StepServer false; StepHandler 0 true]) in
  reaches l ∧ handlers l = [Throwing].
Proof. intros l. split; [by apply after_reaches|reflexivity]. Qed.
