(* ===== verification/Cleaner.v ===== *)
(** * Cleaner: the thread that removes expired items

    Models the thread that the constructor of [NodeInformation]
    (src/dht/NodeInformation.cpp) starts and its destructor stops. The thread
    removes expired items under the data lock, entry by entry, then waits for
    30 seconds or the end, whichever comes first; the destructor sets the flag,
    notifies the condition variable and waits for the thread. Steps of the
    thread, of the owner who destroys the object, of other threads that use the
    data, and the passing of time interleave.

    - [m_cv_m] is locked by the cleaner alone (the destructor notifies without
      it), so locking it always succeeds at once.
    - A wait for a condition variable may end without a notification. After a
      wake-up it reports a time-out if the deadline has passed. *)

From S2P Require Import Prelude Util Ring NodeInfo.

Abbreviation item := (list Z * (list Z * Z))%type.

(** Where the thread is: at the test of the loop, before the lock of the data,
    at an entry of the traversal (which holds the lock), before
    [wait_for] or in it (testing the predicate, about to block, blocked until
    a deadline, woken up), or at its end. *)
Inductive At :=
  | AtTest | ToClean | Cleaning (rest : list item)
  | ToWait | Checking (deadline : Z) | Blocking (deadline : Z) | Blocked (deadline : Z) | Woken (deadline : Z) | Ended.

(** The owner: before the destructor, and behind each of its statements. *)
Inductive Owner := Living | Flagged | Notified | Destroyed.

Record State := mkState {
  c_at : At;
  c_owner : Owner;
  m_destroyed : bool;
  c_now : Z;
  c_node : NodeInformation;
}.

Definition move (a : At) (c : State) : State := mkState a (c_owner c) (m_destroyed c) (c_now c) (c_node c).

Definition set_data (m : data_type) (c : State) : State :=
  mkState (c_at c) (c_owner c) (m_destroyed c) (c_now c) (with_data m (c_node c)).

Definition wait_time : Z := 30 * ns_per_s.

(** The constructor. *)
Definition start (host : string) (port now : Z) `{HashFns} : State :=
  mkState AtTest Living false now (NodeInformation_ctor host port).

(** The thread's next step, if it is not waiting. *)
Definition cleaner_turn (c : State) : option State :=
  match c_at c with
  | AtTest => Some (move (if m_destroyed c then Ended else ToClean) c)
  | ToClean => Some (move (Cleaning (std_items (m_data (c_node c)))) c)
  | Cleaning [] => Some (move ToWait c)
  | Cleaning ((k, (_, expires)) :: rest) =>
      Some (move (Cleaning rest) (if expires <? c_now c then set_data (delete k (m_data (c_node c))) c else c))
  | ToWait => Some (move (Checking (c_now c + wait_time)) c)
  | Checking deadline => Some (move (if m_destroyed c then AtTest else Blocking deadline) c)
  | Blocking deadline => Some (move (Blocked deadline) c)
  | Blocked deadline => if deadline <=? c_now c then Some (move AtTest c) else None
  | Woken deadline => Some (move (if deadline <=? c_now c then AtTest else Checking deadline) c)
  | Ended => None
  end.

(** A wake-up reaches only a thread that is blocked. *)
Definition wake (c : State) : State :=
  match c_at c with Blocked deadline => move (Woken deadline) c | _ => c end.

(** The destructor's next statement, if it is not waiting. *)
Definition destructor_step (c : State) : option State :=
  match c_owner c with
  | Living => Some (mkState (c_at c) Flagged true (c_now c) (c_node c))
  | Flagged => Some (wake (mkState (c_at c) Notified (m_destroyed c) (c_now c) (c_node c)))
  | Notified => match c_at c with Ended => Some (mkState Ended Destroyed (m_destroyed c) (c_now c) (c_node c)) | _ => None end
  | Destroyed => None
  end.

(** An operation of another thread on the node: it waits while the cleaner has
    the lock, and there is none once the destructor runs. *)
Definition operation (f : NodeInformation → NodeInformation) (c : State) : option State :=
  match c_owner c, c_at c with
  | Living, Cleaning _ => None
  | Living, _ => Some (mkState (c_at c) Living (m_destroyed c) (c_now c) (f (c_node c)))
  | _, _ => None
  end.

Inductive Event := Turn | Delete | Elapse (d : N) | Op (f : NodeInformation → NodeInformation) | Spurious.

Definition try_step (e : Event) (c : State) : option State :=
  match e with
  | Turn => cleaner_turn c
  | Delete => destructor_step c
  | Elapse d => Some (mkState (c_at c) (c_owner c) (m_destroyed c) (c_now c + Z.of_N d) (c_node c))
  | Op f => operation f c
  | Spurious => Some (wake c)
  end.

(** A thread that waits does nothing when it is scheduled. *)
Definition event (c : State) (e : Event) : State := default c (try_step e c).

Definition events (c : State) (es : list Event) : State := fold_left event es c.

Definition is_turn (e : Event) : bool := match e with Turn => true | _ => false end.

Definition turns (es : list Event) : nat := length (filter (λ e, is_turn e = true) es).

Definition elapsed (es : list Event) : Z :=
  foldr (λ e t, match e with Elapse d => Z.of_N d + t | _ => t end) 0 es.

(** The conditions of a step. *)
Ltac split_ifs := repeat match goal with |- context [if ?b then _ else _] => destruct b eqn:? end.

(** ** Progress *)

Lemma events_app c es es' : events c (es ++ es') = events (events c es) es'.
Proof. apply fold_left_app. Qed.

Lemma turns_replicate n : turns (replicate n Turn) = n.
Proof. induction n as [|n IH]; [done|]. unfold turns in *. cbn [replicate]. rewrite filter_cons_True by done. cbn. by rewrite IH. Qed.

(** What no event ends lasts. *)
Lemma lasts (allowed : Event → Prop) (Q : State → Prop) : (∀ c e, allowed e → Q c → Q (event c e)) →
  ∀ es c, Forall allowed es → Q c → Q (events c es).
Proof. intros HQ es. induction es as [|e es IH]; intros c Hes Hc; [done|]. apply Forall_cons in Hes as [He Hes]. apply (IH (event c e)); auto. Qed.

(** A rank that turns lower and nothing raises is used up. *)
Lemma used_up (allowed : Event → Prop) (P Q : State → Prop) (rank : State → nat) :
  (∀ c e, allowed e → Q c → Q (event c e)) →
  (∀ c e, allowed e → P c →
    Q (event c e) ∨ P (event c e) ∧ (rank (event c e) + (if is_turn e then 1 else 0) <= rank c)%nat) →
  ∀ es c, Forall allowed es → P c ∨ Q c → (P c → (rank c < turns es)%nat) → Q (events c es).
Proof.
  intros HQ HP es. induction es as [|e es IH]; intros c Hes Hc Hr.
  { destruct Hc as [Hc|]; [|done]. specialize (Hr Hc). cbn in Hr. lia. }
  destruct Hc as [Hc|Hc]; [|by apply (lasts allowed)]. apply Forall_cons in Hes as [He Hes]. specialize (Hr Hc).
  destruct (HP c e He Hc) as [Hq|[HPc Hle]]; change (Q (events (event c e) es)); [by apply (lasts allowed)|]. apply IH; auto. intros _.
  unfold turns in *. rewrite filter_cons in Hr. case_decide; destruct (is_turn e); try done; cbn [length] in Hr; lia.
Qed.

(** The deadline of the wait the thread is in. *)
Definition deadline_of (a : At) : option Z :=
  match a with Checking d | Blocking d | Blocked d | Woken d => Some d | _ => None end.

(** A wait is never longer than half a minute. *)
Definition deadline_ok (c : State) : Prop := ∀ d, deadline_of (c_at c) = Some d → d <= c_now c + wait_time.

Lemma deadline_event c e : deadline_ok c → deadline_ok (event c e).
Proof.
  unfold deadline_ok, event. intros Hd. destruct e as [| |d'|f|]; cbn [try_step].
  - unfold cleaner_turn. destruct (c_at c) as [| |[|[k' [v' e']] rest]| |d|d|d|d|] eqn:E; split_ifs;
      cbn [c_at c_now move set_data from_option id deadline_of] in *; rewrite ?E; auto; try done.
    all: intros d0 [= <-]; lia.
  - unfold destructor_step, wake. destruct (c_owner c), (c_at c) eqn:E; cbn; rewrite ?E; auto.
  - cbn. intros d Hd'. specialize (Hd d Hd'). lia.
  - unfold operation. destruct (c_owner c), (c_at c) eqn:E; cbn; rewrite ?E; auto.
  - unfold wake. destruct (c_at c) eqn:E; cbn; rewrite ?E; auto.
Qed.

Lemma length_std_items m : length (std_items m) = size m.
Proof. unfold std_items. by rewrite merge_sort_Permutation, length_map_to_list. Qed.

Lemma now_events es c : c_now (events c es) = c_now c + elapsed es.
Proof.
  revert c. induction es as [|e es IH]; intros c; [cbn; lia|]. change (events c (e :: es)) with (events (event c e) es).
  rewrite IH. assert (c_now (event c e) = c_now c + match e with Elapse d => Z.of_N d | _ => 0 end) as ->.
  2: { unfold elapsed. destruct e; cbn [foldr]; lia. }
  unfold event. destruct e as [| |d|f|]; cbn [try_step].
  - unfold cleaner_turn. destruct (c_at c) as [| |[|[k' [v' e']] rest]| | | | | |]; split_ifs; cbn; lia.
  - unfold destructor_step, wake. destruct (c_owner c), (c_at c); cbn; lia.
  - done.
  - unfold operation. destruct (c_owner c), (c_at c); cbn; lia.
  - unfold wake. destruct (c_at c); cbn; lia.
Qed.

Lemma turn_frame c c' : cleaner_turn c = Some c' →
  m_destroyed c' = m_destroyed c ∧ c_owner c' = c_owner c ∧ c_now c' = c_now c ∧
  (c_node c' = c_node c ∨ ∃ k', c_node c' = with_data (delete k' (m_data (c_node c))) (c_node c)).
Proof.
  unfold cleaner_turn. destruct (c_at c) as [| |[|[k' [v' e']] rest]| | | | | |]; try case_match; intros [= <-];
    cbn; split_and!; eauto.
Qed.

(** ** The invariant *)

(** While the cleaner holds the lock, the entries before it are those of the
    map; it ends only for the destructor, and the object is gone only after
    the thread has ended. *)
Record cleaner_ok (c : State) : Prop := {
  ok_deadline : deadline_ok c;
  ok_rest rest : c_at c = Cleaning rest → NoDup rest.*1 ∧ Forall (λ x, m_data (c_node c) !! x.1 = Some x.2) rest;
  ok_flag : m_destroyed c = false ↔ c_owner c = Living;
  ok_ended : c_at c = Ended → m_destroyed c = true;
  ok_gone : c_owner c = Destroyed → c_at c = Ended;
}.

Lemma start_ok `{HashFns} host port now : cleaner_ok (start host port now).
Proof. by constructor. Qed.

Lemma cleaner_ok_turn c c' : cleaner_ok c → cleaner_turn c = Some c' → cleaner_ok c'.
Proof.
  intros [Hd Hr Hf He Hg] Hc. constructor.
  - pose proof (deadline_event c Turn Hd) as Hd'. unfold event in Hd'. cbn [try_step] in Hd'. by rewrite Hc in Hd'.
  - intros rest. unfold cleaner_turn in Hc. destruct (c_at c) as [| |[|[k' [v' e']] rest']| | | | | |] eqn:E; revert Hc; split_ifs; intros [= <-]; cbn; try done.
    + intros [= <-]. split; [apply NoDup_std_items|]. apply Forall_forall. intros [k [v e]]. apply elem_of_std_items.
    + intros [= <-]. destruct (Hr _ eq_refl) as [Hnd Hall]. cbn in Hnd. apply NoDup_cons in Hnd as [Hk Hnd]. split; [done|].
      apply Forall_cons in Hall as [_ Hall]. rewrite Forall_forall in Hall |- *. intros x Hx.
      rewrite lookup_delete_ne; [by apply Hall|]. intros ->. by apply Hk, list_elem_of_fmap_2.
    + intros [= <-]. destruct (Hr _ eq_refl) as [Hnd Hall]. cbn in Hnd. apply NoDup_cons in Hnd as [_ Hnd]. split; [done|].
      by apply Forall_cons in Hall as [_ Hall].
  - destruct (turn_frame c c' Hc) as (-> & -> & _). done.
  - unfold cleaner_turn in Hc. destruct (c_at c) as [| |[|[k' [v' e']] rest']| | | | | |]; revert Hc; split_ifs; intros [= <-]; cbn; try done; auto.
  - destruct (turn_frame c c' Hc) as (_ & -> & _). intros Ho. unfold cleaner_turn in Hc. by rewrite (Hg Ho) in Hc.
Qed.

Lemma cleaner_ok_event c e : cleaner_ok c → cleaner_ok (event c e).
Proof.
  intros Hok. pose proof (deadline_event c e (ok_deadline c Hok)) as Hd'. unfold event in *. destruct e as [| |d|f|]; cbn [try_step] in *.
  - destruct (cleaner_turn c) as [c'|] eqn:E; [by eapply cleaner_ok_turn|done].
  - destruct Hok as [Hd Hr Hf He Hg]. unfold destructor_step, wake in *.
    destruct (c_owner c) eqn:Eo, (c_at c) eqn:E; cbn in *; constructor; cbn; rewrite ?E, ?Eo; try done; auto; split; by intros ?%Hf || done.
  - destruct Hok. by constructor.
  - destruct Hok as [Hd Hr Hf He Hg]. unfold operation in *. destruct (c_owner c) eqn:Eo, (c_at c) eqn:E; cbn in *; constructor; cbn; rewrite ?E, ?Eo; try done; auto.
  - destruct Hok as [Hd Hr Hf He Hg]. unfold wake in *. destruct (c_at c) eqn:E; cbn in *; constructor; cbn; rewrite ?E; try done; auto; intros Ho; by apply Hg in Ho.
Qed.

Lemma rest_bound c rest : cleaner_ok c → c_at c = Cleaning rest → (length rest <= size (m_data (c_node c)))%nat.
Proof.
  intros Hok E. destruct (ok_rest c Hok rest E) as [Hnd Hall]. rewrite <- (length_fmap fst), <- (size_list_to_set (C := gset (list Z))) by done.
  rewrite <- size_dom. apply subseteq_size. intros k (x & -> & Hx)%elem_of_list_to_set%list_elem_of_fmap.
  rewrite Forall_forall in Hall. apply elem_of_dom. rewrite (Hall x Hx). eauto.
Qed.

(** ** Expired items go *)

Section Expired.
Context (k v : list Z) (e0 : Z) (N : nat).
Implicit Types (c : State) (es : list Event).

(** Other threads may do anything but write the item or fill the map beyond
    [N] entries; the owner does not destroy the object. *)
Definition harmless (e : Event) : Prop :=
  match e with
  | Delete => False
  | Op f => ∀ s, m_data (f s) !! k = m_data s !! k ∧ ((size (m_data s) <= N)%nat → (size (m_data (f s)) <= N)%nat)
  | _ => True
  end.

Definition gone c : Prop := m_data (c_node c) !! k = None.

(** The object lives, and the item has expired and is there, or is gone. *)
Record living c : Prop := {
  li_flag : m_destroyed c = false;
  li_size : (size (m_data (c_node c)) <= N)%nat;
  li_item : gone c ∨ m_data (c_node c) !! k = Some (v, e0);
  li_expired : e0 < c_now c;
  li_at : match c_at c with Cleaning rest => (length rest <= N)%nat | Ended => False | _ => True end;
  li_deadline : deadline_ok c;
}.

Lemma event_frame c e : harmless e → m_destroyed (event c e) = m_destroyed c ∧ c_now c <= c_now (event c e) ∧
  (m_data (c_node (event c e)) !! k = m_data (c_node c) !! k ∨ gone (event c e)) ∧
  ((size (m_data (c_node c)) <= N)%nat → (size (m_data (c_node (event c e))) <= N)%nat).
Proof.
  intros He. unfold event. destruct e as [| |d|f|]; cbn [harmless] in He; [|done|..]; cbn [try_step].
  - destruct (cleaner_turn c) as [c'|] eqn:E; cbn [from_option id]; [|split_and!; auto; lia].
    destruct (turn_frame c c' E) as (-> & _ & -> & [->|[k' Hn]]); [split_and!; auto; lia|].
    unfold gone. rewrite Hn. cbn [with_data m_data]. split_and!; [done|lia| |].
    + destruct (decide (k' = k)) as [->|]; [right; by rewrite lookup_delete_eq|left; by rewrite lookup_delete_ne].
    + intros Hs. etrans; [apply map_subseteq_size, delete_subseteq|exact Hs].
  - cbn. split_and!; auto; lia.
  - destruct (He (c_node c)) as [Hk Hle]. unfold operation. destruct (c_owner c), (c_at c); cbn; split_and!; auto; lia.
  - unfold wake. destruct (c_at c); cbn; split_and!; auto; lia.
Qed.

Lemma living_event c e : harmless e → living c → living (event c e).
Proof.
  intros He [Hf Hs Hi Hx Ha Hd]. destruct (event_frame c e He) as (Hf' & Hn & Hk & Hs'). constructor.
  - by rewrite Hf'.
  - auto.
  - unfold gone in *. destruct Hk as [->|]; auto.
  - lia.
  - unfold event. destruct e as [| |d|f|]; cbn [harmless] in He; [|done|..]; cbn [try_step].
    + unfold cleaner_turn. rewrite Hf. pose proof (length_std_items (m_data (c_node c))).
      destruct (c_at c) as [| |[|[k' [v' e']] rest]| | | | | |] eqn:E; split_ifs;
        cbn [c_at move length from_option id] in *; rewrite ?E; auto; lia.
    + done.
    + unfold operation. destruct (c_owner c), (c_at c) eqn:E; cbn; rewrite ?E; auto.
    + unfold wake. destruct (c_at c) eqn:E; cbn; rewrite ?E; auto.
  - by apply deadline_event.
Qed.

(** The thread will come to the item, after a wait that ends by [T] at most. *)
Definition coming (T : Z) (a : At) : Prop :=
  match a with
  | Cleaning rest => (k, (v, e0)) ∈ rest
  | ToWait | Ended => False
  | _ => ∀ d, deadline_of a = Some d → d <= T
  end.

Definition soon (T : Z) c : Prop := living c ∧ (gone c ∨ coming T (c_at c)).

Lemma soon_event T c e : harmless e → soon T c → soon T (event c e).
Proof.
  intros He [Hl Hc]. split; [by apply living_event|]. destruct (event_frame c e He) as (_ & _ & Hk & _).
  unfold gone at 1 in Hc. destruct Hk as [Hk|]; [|by left]. unfold gone. rewrite Hk. destruct Hc as [|Hc]; [by left|].
  destruct (li_item c Hl) as [|Hi]; [by left|]. unfold event in *. destruct e as [| |d|f|]; cbn [harmless] in He; [|done|..]; cbn [try_step] in *.
  - unfold cleaner_turn in *. pose proof (li_expired c Hl) as Hx. rewrite (li_flag c Hl) in *.
    destruct (c_at c) as [| |[|[k' [v' e']] rest]| |d|d|d|d|] eqn:E; cbn [coming] in Hc.
    all: try (right; split_ifs; cbn [c_at move from_option id coming deadline_of] in *; rewrite ?E; try done; by apply Hc).
    + right. by apply elem_of_std_items.
    + by apply elem_of_nil in Hc.
    + apply elem_of_cons in Hc as [[= -> -> ->]|Hc]; [|by right].
      rewrite (proj2 (Z.ltb_lt _ _) Hx) in Hk. cbn in Hk. rewrite lookup_delete_eq in Hk. by left.
  - by right.
  - right. unfold operation. destruct (c_owner c), (c_at c) eqn:E; cbn; rewrite ?E; done.
  - right. unfold wake. destruct (c_at c) eqn:E; cbn; rewrite ?E; done.
Qed.

(** From anywhere, the thread is in its wait, or on the way to the item. *)
Lemma first_part es c : Forall harmless es → living c → (S N < turns es)%nat →
  ∃ T, soon T (events c es) ∧ T <= c_now (events c es) + wait_time.
Proof.
  intros Hes Hc Hturns.
  apply (used_up harmless (λ c, living c ∧ match c_at c with Cleaning _ | ToWait => True | _ => False end)
    (λ c, ∃ T, soon T c ∧ T <= c_now c + wait_time)
    (λ c, match c_at c with Cleaning rest => S (length rest) | _ => 0%nat end)); [| |done|..].
  - intros c1 e He (T & Hs & HT). destruct (event_frame c1 e He) as (_ & Hn & _). exists T. split; [by apply soon_event|lia].
  - intros c1 e He [Hl Hat]. pose proof (living_event c1 e He Hl) as Hl'. destruct e as [| |d|f|]; cbn [harmless] in He; [|done|..];
      unfold event in *; cbn [try_step is_turn] in *.
    + unfold cleaner_turn in *. destruct (c_at c1) as [| |[|[k' [v' e']] rest]| |d|d|d|d|]; try done.
      * right. split; [done|]. cbn. lia.
      * right. split; [done|]. cbn. lia.
      * left. exists (c_now c1 + wait_time). split; [split; [done|right; intros d [= <-]; done]|cbn; lia].
    + right. split; [done|]. cbn. lia.
    + right. unfold operation in *. destruct (c_owner c1), (c_at c1) eqn:E; try done; cbn; rewrite ?E; (split; [done|lia]).
    + right. unfold wake in *. destruct (c_at c1) eqn:E; try done; cbn; rewrite ?E; (split; [done|lia]).
  - assert (Hd := li_deadline c Hc). assert (Ha := li_at c Hc). unfold deadline_ok in Hd. destruct (c_at c) eqn:E; try done.
    all: try (left; done). all: right; exists (c_now c + wait_time); (split; [split; [done|right; rewrite E; cbn; auto]|lia]).
  - intros [_ Hat]. assert (Ha := li_at c Hc). destruct (c_at c); try done; lia.
Qed.

(** Once the wait is over, the thread comes to the item and removes it. *)
Lemma last_part T es c : Forall harmless es → soon T c → T <= c_now c → (N + 5 < turns es)%nat → gone (events c es).
Proof.
  intros Hes Hc HT Hturns.
  assert (∀ c, soon T c → T <= c_now c → (soon T c ∧ T <= c_now c ∧ coming T (c_at c)) ∨ gone c) as Hcases.
  { intros c1 Hs HT1. destruct (proj2 Hs); auto. }
  set (rank c := match c_at c with
    | AtTest => N + 2 | ToClean => N + 1 | Cleaning rest => length rest
    | Checking _ => N + 5 | Blocking _ => N + 4 | Blocked _ | Woken _ => N + 3 | _ => 0 end%nat).
  apply (used_up harmless (λ c, soon T c ∧ T <= c_now c ∧ coming T (c_at c)) gone rank); [| |done|by apply Hcases|].
  - intros c1 e He Hg. destruct (event_frame c1 e He) as (_ & _ & [Hk|] & _); [|done]. unfold gone in *. by rewrite Hk.
  - intros c1 e He (Hs & HT1 & Hco). pose proof (soon_event T c1 e He Hs) as Hs'. destruct (event_frame c1 e He) as (_ & Hn & _).
    destruct (Hcases _ Hs' ltac:(lia)) as [HP|]; [right; split; [done|]|by left].
    pose proof (li_size c1 (proj1 Hs)) as Hsz. pose proof (li_flag c1 (proj1 Hs)) as Hfl. pose proof (length_std_items (m_data (c_node c1))).
    unfold event, rank. clear Hs Hs' HP Hn. destruct e as [| |d|f|]; cbn [harmless] in He; [|done|..]; cbn [try_step is_turn].
    + unfold cleaner_turn. rewrite Hfl. destruct (c_at c1) as [| |[|[k' [v' e']] rest]| |d|d|d|d|] eqn:E; cbn [coming deadline_of] in Hco; try done.
      3: by apply elem_of_nil in Hco.
      6, 7: specialize (Hco d eq_refl); rewrite (proj2 (Z.leb_le d (c_now c1))) by lia.
      all: split_ifs; cbn [c_at move set_data from_option id length]; lia.
    + cbn. lia.
    + unfold operation. destruct (c_owner c1), (c_at c1) eqn:E; cbn; rewrite ?E; lia.
    + unfold wake. destruct (c_at c1) eqn:E; cbn; rewrite ?E; lia.
  - intros (Hs & _ & _). pose proof (li_at c (proj1 Hs)). unfold rank. destruct (c_at c); lia.
Qed.

Lemma item_removed c es1 es2 es3 :
  cleaner_ok c → m_destroyed c = false → m_data (c_node c) !! k = Some (v, e0) → e0 < c_now c →
  (size (m_data (c_node c)) <= N)%nat → Forall harmless (es1 ++ es2 ++ es3) →
  (N + 2 <= turns es1)%nat → wait_time <= elapsed es2 → (N + 6 <= turns es3)%nat →
  gone (events c (es1 ++ es2 ++ es3)).
Proof.
  intros Hok Hf Hk Hx Hs Hes H1 H2 H3. rewrite !Forall_app in Hes. destruct Hes as (He1 & He2 & He3).
  assert (living c) as Hl.
  { constructor; [done|done|by right|done| |apply Hok]. pose proof (rest_bound c) as Hr. pose proof (ok_ended c Hok) as He.
    destruct (c_at c); try done; [specialize (Hr _ Hok eq_refl); lia|specialize (He eq_refl); congruence]. }
  destruct (first_part es1 c He1 Hl ltac:(lia)) as (T & Hsoon & HT). rewrite !events_app.
  apply (last_part T); [done| | |lia].
  - apply (lasts harmless (soon T)); [intros; by apply soon_event|done|done].
  - rewrite now_events. lia.
Qed.

End Expired.

(** C12: Expired items go. Whatever the cleaner is doing when an item has expired:
    once it has taken enough turns to end its present pass, half a minute has
    passed, and it has taken enough turns for another pass, the item is gone,
    whatever other threads do to other items in the meantime and however often
    the cleaner is woken up for nothing. *)
Theorem expired_item_is_removed c k v expires N es1 es2 es3 :
  cleaner_ok c → m_destroyed c = false → m_data (c_node c) !! k = Some (v, expires) → expires < c_now c →
  (size (m_data (c_node c)) <= N)%nat → Forall (harmless k N) (es1 ++ es2 ++ es3) →
  (N + 2 <= turns es1)%nat → wait_time <= elapsed es2 → (N + 6 <= turns es3)%nat →
  m_data (c_node (events c (es1 ++ es2 ++ es3))) !! k = None.
Proof. apply item_removed. Qed.

(** ** The destructor *)

Section Stop.
Implicit Types (c : State) (es : list Event).

(** The destructor runs. *)
Record stopping c : Prop := { st_flag : m_destroyed c = true; st_owner : c_owner c ≠ Living; st_deadline : deadline_ok c }.

Lemma stopping_event c e : stopping c → stopping (event c e).
Proof.
  intros [Hf Ho Hd]. pose proof (deadline_event c e Hd) as Hd'. unfold event in *. destruct e as [| |d|f|]; cbn [try_step] in *.
  - destruct (cleaner_turn c) as [c'|] eqn:E; [|done]. destruct (turn_frame c c' E) as (E1 & E2 & _). constructor; cbn; rewrite ?E1, ?E2; done.
  - unfold destructor_step, wake in *. destruct (c_owner c) eqn:Eo, (c_at c); constructor; cbn; rewrite ?Eo; done.
  - by constructor.
  - unfold operation. destruct (c_owner c) eqn:E; [done|..]; by constructor; cbn; rewrite ?E.
  - unfold wake in *. destruct (c_at c); by constructor.
Qed.

(** Nothing but a wait that ends by [T] is left. *)
Definition leaving (T : Z) c : Prop :=
  stopping c ∧ match c_at c with
  | ToClean | Cleaning _ | ToWait => False
  | a => ∀ d, deadline_of a = Some d → d <= T
  end.

Lemma leaving_event T c e : leaving T c → leaving T (event c e).
Proof.
  intros [Hs Ha]. split; [by apply stopping_event|]. destruct Hs as [Hf Ho _]. unfold event. destruct e as [| |d|f|]; cbn [try_step].
  - unfold cleaner_turn. rewrite Hf. destruct (c_at c) eqn:E; try done; split_ifs; cbn [c_at move from_option id]; rewrite ?E; auto; done.
  - unfold destructor_step, wake. destruct (c_owner c), (c_at c) eqn:E; cbn; rewrite ?E; auto.
  - done.
  - unfold operation. destruct (c_owner c), (c_at c) eqn:E; cbn; rewrite ?E; auto.
  - unfold wake. destruct (c_at c) eqn:E; cbn; rewrite ?E; auto.
Qed.

(** The thread leaves its pass; nobody else changes the data any more. *)
Lemma stop_first es c : stopping c → (∀ rest, c_at c = Cleaning rest → (length rest <= size (m_data (c_node c)))%nat) →
  (size (m_data (c_node c)) + 3 <= turns es)%nat →
  ∃ T, leaving T (events c es) ∧ T <= c_now (events c es) + wait_time.
Proof.
  intros Hc Hrest Hturns.
  set (rank c := match c_at c with ToClean => size (m_data (c_node c)) + 2 | Cleaning rest => S (length rest) | _ => 0 end%nat).
  apply (used_up (λ _, True) (λ c, stopping c ∧ match c_at c with ToClean | Cleaning _ | ToWait => True | _ => False end)
    (λ c, ∃ T, leaving T c ∧ T <= c_now c + wait_time) rank); [| |by apply Forall_true|..].
  - intros c1 e _ (T & Hl & HT). exists T. split; [by apply leaving_event|]. change (event c1 e) with (events c1 [e]).
    rewrite now_events. assert (0 <= elapsed [e]); [|lia]. destruct e; cbn; lia.
  - intros c1 e _ [Hs Hat]. pose proof (stopping_event c1 e Hs) as Hs'. pose proof (st_owner c1 Hs) as Ho. unfold event, rank in *.
    pose proof (length_std_items (m_data (c_node c1))).
    destruct e as [| |d|f|]; cbn [try_step is_turn] in *.
    + unfold cleaner_turn in *. destruct (c_at c1) as [| |[|[k' [v' e']] rest]| |d|d|d|d|]; try done.
      1-3: right; split; [done|]; split_ifs; cbn [c_at c_node move set_data from_option id length]; lia.
      left. exists (c_now c1 + wait_time). split; [split; [done|intros d [= <-]; done]|cbn; lia].
    + right. unfold destructor_step, wake in *. destruct (c_owner c1), (c_at c1) eqn:E; try done; cbn; rewrite ?E; (split; [done|lia]).
    + right. split; [done|]. cbn. lia.
    + right. unfold operation in *. destruct (c_owner c1), (c_at c1) eqn:E; try done; cbn; rewrite ?E; (split; [done|lia]).
    + right. unfold wake in *. destruct (c_at c1) eqn:E; try done; cbn; rewrite ?E; (split; [done|lia]).
  - assert (Hd := st_deadline c Hc). unfold deadline_ok in Hd. destruct (c_at c) eqn:E.
    all: try (left; done). all: right; exists (c_now c + wait_time); (split; [split; [done|rewrite E; auto]|lia]).
  - intros [_ Hat]. unfold rank. destruct (c_at c); try done; [lia|specialize (Hrest _ eq_refl); lia|lia].
Qed.

Lemma stop_last T es c : leaving T c → T <= c_now c → (5 <= turns es)%nat → c_at (events c es) = Ended.
Proof.
  intros Hc HT Hturns.
  set (rank c := match c_at c with AtTest => 1 | Checking _ => 2 | Blocking _ => 4 | Blocked _ | Woken _ => 3 | _ => 0 end%nat).
  apply (used_up (λ _, True) (λ c, leaving T c ∧ T <= c_now c) (λ c, c_at c = Ended) rank); [| |by apply Forall_true|by left|].
  - intros c1 e _ E. unfold event. destruct e as [| |d|f|]; cbn [try_step].
    + unfold cleaner_turn. by rewrite E.
    + unfold destructor_step, wake. destruct (c_owner c1); rewrite ?E; cbn; rewrite ?E; done.
    + done.
    + unfold operation. rewrite E. by destruct (c_owner c1).
    + unfold wake. by rewrite E.
  - intros c1 e _ [Hl HT1]. pose proof (leaving_event T c1 e Hl) as Hl'. destruct Hl as [Hs Ha].
    assert (T <= c_now (event c1 e)) as HT'.
    { change (event c1 e) with (events c1 [e]). rewrite now_events. assert (0 <= elapsed [e]); [destruct e; cbn; lia|lia]. }
    pose proof (st_flag c1 Hs) as Hf. pose proof (st_owner c1 Hs) as Ho. unfold event, rank in *.
    destruct e as [| |d|f|]; cbn [try_step is_turn] in *.
    + unfold cleaner_turn in *. rewrite Hf in *. destruct (c_at c1) as [| |rest| |d|d|d|d|] eqn:E; cbn [deadline_of] in Ha; try done.
      1: by left.
      3, 4: specialize (Ha d eq_refl); rewrite (proj2 (Z.leb_le d (c_now c1))) in * by lia.
      all: try (right; split; [done|]; cbn; lia). by left.
    + right. split; [done|]. unfold destructor_step, wake. destruct (c_owner c1), (c_at c1) eqn:E; try done; cbn; rewrite ?E; lia.
    + right. split; [done|]. cbn. lia.
    + right. split; [done|]. unfold operation. destruct (c_owner c1), (c_at c1) eqn:E; try done; cbn; rewrite ?E; lia.
    + right. split; [done|]. unfold wake. destruct (c_at c1) eqn:E; try done; cbn; rewrite ?E; lia.
  - intros _. unfold rank. destruct (c_at c); lia.
Qed.

(** The owner's wait, once begun, is only ended by the thread's end. *)
Definition waiting_owner c : Prop := c_owner c = Notified ∨ c_owner c = Destroyed.

Lemma waiting_event c e : waiting_owner c → waiting_owner (event c e).
Proof.
  unfold waiting_owner, event. intros Ho. destruct e as [| |d|f|]; cbn [try_step].
  - destruct (cleaner_turn c) as [c'|] eqn:E; [|done]. destruct (turn_frame c c' E) as (_ & E2 & _). cbn. by rewrite E2.
  - unfold destructor_step. destruct Ho as [Eo|Eo]; rewrite Eo; [destruct (c_at c)|]; cbn; rewrite ?Eo; auto.
  - done.
  - unfold operation. destruct Ho as [Eo|Eo]; rewrite Eo; cbn; rewrite Eo; auto.
  - unfold wake. destruct (c_at c); done.
Qed.

End Stop.

Lemma stops_after c es1 es2 es3 : cleaner_ok c → c_owner c = Notified →
  (size (m_data (c_node c)) + 3 <= turns es1)%nat → wait_time <= elapsed es2 → (5 <= turns es3)%nat →
  let c' := events c (es1 ++ es2 ++ es3) in
  c_at c' = Ended ∧ c_owner (event c' Delete) = Destroyed.
Proof.
  intros Hok Ho H1 H2 H3. cbv zeta. assert (stopping c) as Hs.
  { constructor; [|by rewrite Ho|apply Hok]. pose proof (ok_flag c Hok) as Hf. rewrite Ho in Hf. by destruct (m_destroyed c), Hf as [Hf _]; [|specialize (Hf eq_refl)]. }
  destruct (stop_first es1 c Hs (λ rest, rest_bound c rest Hok) H1) as (T & Hl & HT).
  assert (c_at (events c (es1 ++ es2 ++ es3)) = Ended) as HE.
  { rewrite !events_app. apply (stop_last T); [| |done].
    - apply (lasts (λ _, True)); [intros; by apply leaving_event|by apply Forall_true|done].
    - rewrite now_events. lia. }
  split; [done|]. assert (waiting_owner (events c (es1 ++ es2 ++ es3))) as [Ew|Ew].
  { apply (lasts (λ _, True)); [intros; by apply waiting_event|by apply Forall_true|by left]. }
  all: unfold event; cbn [try_step]; unfold destructor_step; rewrite Ew, ?HE; cbn; by rewrite ?Ew.
Qed.

(** C19: The destructor of a node's state returns. When it has set the flag and
    notified, wherever the cleaner is then: after enough turns of the cleaner
    to end its pass, half a minute at most and five more turns the thread has
    ended, and the destructor's wait returns. *)
Theorem cleaner_stops c es1 es2 es3 : cleaner_ok c → c_owner c = Notified →
  (size (m_data (c_node c)) + 3 <= turns es1)%nat → wait_time <= elapsed es2 → (5 <= turns es3)%nat →
  let c' := events c (es1 ++ es2 ++ es3) in
  c_at c' = Ended ∧ c_owner (event c' Delete) = Destroyed.
Proof. apply stops_after. Qed.

Definition no_wake_up (e : Event) : Prop := match e with Spurious => False | _ => True end.

Lemma elapsed_nonneg es : 0 <= elapsed es.
Proof. unfold elapsed. induction es as [|e es IH]; cbn [foldr]; [lia|]. destruct e; lia. Qed.

Lemma blocked_stays d es c : c_owner c = Notified → c_at c = Blocked d → Forall no_wake_up es →
  c_now c + elapsed es < d → c_owner (events c es) = Notified.
Proof.
  intros Ho Ha Hes. revert c Ho Ha. induction Hes as [|e es He _ IH]; intros c Ho Ha Hlt; [done|].
  change (events c (e :: es)) with (events (event c e) es). pose proof (elapsed_nonneg es) as Hnn.
  change (elapsed (e :: es)) with (match e with Elapse d => Z.of_N d + elapsed es | _ => elapsed es end) in Hlt.
  destruct e as [| |d'|f|]; [| | | |done]; unfold event; cbn [try_step].
  - unfold cleaner_turn. rewrite Ha, (proj2 (Z.leb_gt d (c_now c))) by lia. by apply IH.
  - unfold destructor_step. rewrite Ho, Ha. by apply IH.
  - apply IH; [done|done|cbn; lia].
  - unfold operation. rewrite Ho. by apply IH.
Qed.

(** The notification can be lost. There is a run in which the cleaner has
    tested its flag and is about to block when the destructor sets it and
    notifies: the notification finds nobody waiting, the cleaner blocks, and the
    destructor does not return before half a minute has passed, however often
    both threads run, unless the wait ends for no reason. *)
Theorem notification_can_be_lost `{HashFns} host port now es :
  let c := events (start host port now) [Turn; Turn; Turn; Turn; Turn; Delete; Delete; Turn] in
  c_owner c = Notified ∧ c_at c = Blocked (now + wait_time) ∧
  (Forall no_wake_up es → elapsed es < wait_time → c_owner (events c es) = Notified).
Proof.
  cbv zeta. split_and!; [done|done|]. intros Hes Hlt. apply (blocked_stays (now + wait_time)); [done..|].
  change (now + elapsed es < now + wait_time). lia.
Qed.

(** ** A pass *)

(** The first [k] readings of the clock come in order between two times. *)
Definition readings (t0 t1 : Z) (clock : nat → Z) (k : nat) : Prop :=
  ∀ i j, (i <= j < k)%nat → t0 <= clock i ∧ clock i <= clock j ∧ clock j <= t1.

(** The cleaner is in a pass that began with the state [n] at the time [t0]: what
    it has done so far is the first part of [clean_pass], with the readings of
    the clock since then. *)
Definition in_pass (t0 : Z) (n : NodeInformation) (c : State) : Prop :=
  t0 <= c_now c ∧
  ∃ clock did rest, c_at c = Cleaning rest ∧ std_items (m_data n) = did ++ rest ∧
    readings t0 (c_now c) clock (length did) ∧ c_node c = with_data (clean_loop clock 0 did (m_data n)) n.

(** What a pass does that began with the state [n] at the time [t0] and ended at [t1]. *)
Definition passed (t0 t1 : Z) (n n' : NodeInformation) : Prop :=
  ∃ clock, readings t0 t1 clock (size (m_data n)) ∧ n' = clean_pass clock n.

Lemma readings_later t0 t1 t2 clock k : t1 <= t2 → readings t0 t1 clock k → readings t0 t2 clock k.
Proof. intros Ht Hr i j Hij. destruct (Hr i j Hij) as (? & ? & ?). lia. Qed.

Lemma readings_next t0 t1 clock k : t0 <= t1 → readings t0 t1 clock k →
  readings t0 t1 (λ j, if decide (j = k) then t1 else clock j) (S k).
Proof.
  intros Ht Hr i j Hij. destruct (decide (j = k)) as [->|Hj].
  - destruct (decide (i = k)) as [->|Hi]; [lia|]. destruct (Hr i i ltac:(lia)). lia.
  - rewrite decide_False by lia. apply Hr. lia.
Qed.

Lemma clean_loop_app clock i l l' m :
  clean_loop clock i (l ++ l') m = clean_loop clock (i + length l) l' (clean_loop clock i l m).
Proof.
  revert i m. induction l as [|[k [v e]] l IH]; intros i m; cbn; [by rewrite Nat.add_0_r|].
  rewrite IH. by rewrite Nat.add_succ_r.
Qed.

Lemma clean_loop_ext clock clock' i l m : (∀ j, (i <= j < i + length l)%nat → clock j = clock' j) →
  clean_loop clock i l m = clean_loop clock' i l m.
Proof.
  revert i m. induction l as [|[k [v e]] l IH]; intros i m Heq; [done|]. cbn in *. rewrite (Heq i) by lia.
  apply IH. intros j Hj. apply Heq. lia.
Qed.

Lemma in_pass_event t0 n c e : in_pass t0 n c →
  in_pass t0 n (event c e) ∨ (c_at (event c e) = ToWait ∧ passed t0 (c_now (event c e)) n (c_node (event c e))).
Proof.
  intros (Ht & clock & did & rest & Ha & Hit & Hr & Hn). unfold event. destruct e as [| |d|f|]; cbn [try_step].
  - unfold cleaner_turn. rewrite Ha. destruct rest as [|[k [v e]] rest].
    { right. split; [done|]. exists clock. cbn. rewrite app_nil_r in Hit. unfold clean_pass. rewrite <- length_std_items, Hit. by rewrite Hn. }
    left. set (clock' j := if decide (j = length did) then c_now c else clock j).
    assert (c_now (move (Cleaning rest) (if e <? c_now c then set_data (delete k (m_data (c_node c))) c else c)) = c_now c) as En
      by (by destruct (e <? c_now c)).
    split; [cbn [from_option id]; by rewrite En|].
    exists clock', (did ++ [(k, (v, e))]), rest. split_and!; [done|by rewrite <- app_assoc| |].
    { cbn [from_option id]. rewrite En, length_app, Nat.add_1_r. by apply readings_next. }
    rewrite clean_loop_app, (clean_loop_ext clock' clock 0 did).
    2: { intros j Hj. unfold clock'. by rewrite decide_False by lia. }
    cbn [clean_loop Nat.add]. unfold clock'. rewrite decide_True by done. cbn [from_option id c_node move].
    destruct (e <? c_now c); cbn [c_node set_data]; rewrite Hn; done.
  - left. unfold destructor_step, wake. destruct (c_owner c); cbn; rewrite ?Ha; (split; [done|]); eexists clock, did, rest; cbn; done.
  - left. split; [cbn; lia|]. exists clock, did, rest. split_and!; [done|done| |done]. eapply readings_later; [|done]. cbn. lia.
  - left. unfold operation. rewrite Ha. destruct (c_owner c); (split; [done|]); by exists clock, did, rest.
  - left. unfold wake. rewrite Ha. split; [done|]. by exists clock, did, rest.
Qed.

Lemma pass_from t0 n es c : in_pass t0 n c →
  in_pass t0 n (events c es) ∨
  ∃ es1 es2, es = es1 ++ es2 ∧ c_at (events c es1) = ToWait ∧
    passed t0 (c_now (events c es1)) n (c_node (events c es1)).
Proof.
  revert c. induction es as [|e es IH]; intros c Hc; [by left|].
  destruct (in_pass_event t0 n c e Hc) as [Hin|(Hat & Hp)].
  - destruct (IH _ Hin) as [|(es1 & es2 & -> & Hat & Hn)]; [by left|]. right. by exists (e :: es1), es2.
  - right. by exists [e], es.
Qed.

Lemma passed_items t0 t1 n n' k v e : passed t0 t1 n n' → m_data n !! k = Some (v, e) →
  (e < t0 → m_data n' !! k = None) ∧ (t1 <= e → m_data n' !! k = Some (v, e)) ∧
  (m_data n' !! k = None ∨ m_data n' !! k = Some (v, e)).
Proof.
  intros (clock & Hr & ->) Hk. assert ((k, (v, e)) ∈ std_items (m_data n)) as Hin by (by apply elem_of_std_items).
  apply list_elem_of_lookup in Hin as [i Hi]. pose proof (lookup_lt_Some _ _ _ Hi) as Hlt. rewrite length_std_items in Hlt.
  destruct (Hr i i ltac:(lia)) as (H0 & _ & H1). unfold clean_pass. cbn [with_data m_data].
  rewrite (clean_loop_at _ _ _ _ _ _ _ _ (NoDup_std_items _) Hi), Hk. cbn [Nat.add].
  destruct (Z.ltb_spec e (clock i)); split_and!; auto; lia.
Qed.

Lemma passed_new t0 t1 n n' k : passed t0 t1 n n' → m_data n !! k = None → m_data n' !! k = None.
Proof.
  intros (clock & _ & ->) Hk. unfold clean_pass. cbn [with_data m_data]. rewrite clean_loop_other; [done|].
  intros ([k' [v e]] & -> & Hin%elem_of_std_items)%list_elem_of_fmap. cbn in Hk. congruence.
Qed.

(** C20: A pass is atomic. From the moment the cleaner takes the lock until it
    releases it, whatever the other threads try, its entry-by-entry traversal
    does to the node exactly what [clean_pass] does in one step, with readings of
    the clock that come in order between the time it took the lock and now. So at
    its end every item that had expired when it began is gone, every item that
    has not expired yet is there unchanged, and no item is new. *)
Theorem pass_is_atomic c es : c_at c = ToClean →
  in_pass (c_now c) (c_node c) (events c (Turn :: es)) ∨
  ∃ es1 es2, es = es1 ++ es2 ∧
    let c' := events c (Turn :: es1) in
    c_at c' = ToWait ∧ passed (c_now c) (c_now c') (c_node c) (c_node c') ∧
    (∀ k v e, m_data (c_node c) !! k = Some (v, e) →
       (e < c_now c → m_data (c_node c') !! k = None) ∧ (c_now c' <= e → m_data (c_node c') !! k = Some (v, e))) ∧
    ∀ k, m_data (c_node c) !! k = None → m_data (c_node c') !! k = None.
Proof.
  intros Ha. assert (in_pass (c_now c) (c_node c) (event c Turn)) as Hin.
  { unfold event. cbn [try_step]. unfold cleaner_turn. rewrite Ha. split; [done|].
    exists (λ _, 0), [], (std_items (m_data (c_node c))). split_and!; [done|done|intros i j Hij; cbn in Hij; lia|].
    cbn. by destruct (c_node c). }
  destruct (pass_from _ _ es _ Hin) as [|(es1 & es2 & -> & Hat & Hp)]; [by left|]. right. exists es1, es2.
  split; [done|]. cbv zeta. split_and!; [exact Hat|exact Hp| |].
  - intros k v e Hk. destruct (passed_items _ _ _ _ k v e Hp Hk) as (H1 & H2 & _). by split.
  - intros k. by apply (passed_new _ _ _ _ k Hp).
Qed.
