(* ===== verification/Invariant.v ===== *)
(** * Invariant: the state of every node stays well-formed

    In any network, ideal or not, whatever requests arrive and whatever the
    peers answer, every node keeps a finger table of 256 entries and only ever
    stores nodes whose identifier is the hash of their address, and no access
    to the table is out of bounds.

    [triple] is a partial-correctness judgement on computations that also
    excludes the out-of-bounds exception; [SafeEnv] is the interface an
    environment offers for it. The operations of Peer.v and Dht.v are proved
    against the interface with the hints of the database [triples];
    [world_env] discharges it. *)

From S2P Require Import Prelude Util Ring NodeInfo Message Peer Topology Lookup Network Dht.

Create HintDb triples.

(** ** Well-formed node states *)

Section NodeOk.
Context `{HashFns}.
Implicit Types s : NodeInformation.

Definition node_opt_ok (n : option Node) : Prop := match n with Some n => canonical n | None => True end.

Record node_ok s : Prop := {
  ok_node : canonical (getNode s);
  ok_table : table_ok s;
  ok_fingers i f : m_fingerTable s !! i = Some f → node_opt_ok f;
  ok_pred : node_opt_ok (getPredecessor s);
  ok_bootstrap : node_opt_ok (getBootstrapNode s);
}.

Lemma node_ok_ctor host port : node_ok (NodeInformation_ctor host port).
Proof.
  constructor; [done|apply table_ok_ctor| |done|done].
  intros i f Hi. by apply lookup_replicate in Hi as [-> _].
Qed.

Lemma nodeFromReader_opt_ok w : node_opt_ok (nodeFromReader_opt w).
Proof. by destruct w. Qed.

Lemma node_ok_setPredecessor n s : node_opt_ok n → node_ok s → node_ok (setPredecessor n s).
Proof. intros Hn []. by constructor. Qed.

Lemma node_ok_with_finger i n s : node_opt_ok n → node_ok s →
  node_ok (with_fingers (<[i := n]> (m_fingerTable s)) s).
Proof.
  intros Hn []. constructor; [done|by unfold table_ok; cbn; rewrite length_insert| |done|done].
  intros j f Hj. cbn in Hj. apply list_lookup_insert_Some in Hj as [(_ & <- & _)|[_ Hj]]; eauto.
Qed.

Lemma node_ok_setSuccessor n s : node_opt_ok n → node_ok s → node_ok (setSuccessor n s).
Proof. apply node_ok_with_finger. Qed.

Lemma node_ok_with_data m s : node_ok s → node_ok (with_data m s).
Proof. intros []. by constructor. Qed.

Lemma node_ok_getSuccessor s : node_ok s → node_opt_ok (getSuccessor s).
Proof.
  intros Hs. destruct (getSuccessor s) as [n|] eqn:E; [|done].
  apply getSuccessor_Some in E as (i & Hi & _). by apply (ok_fingers s Hs) in Hi.
Qed.

End NodeOk.

(** ** The judgement *)

Section Triple.
Context {W : Type} (P : W → Prop).

Definition triple {A} (m : M W A) (Q : A → Prop) : Prop :=
  ∀ w, P w → P (m w).2 ∧
    match (m w).1 with
    | Ok a => Q a
    | Exn e => e ≠ "index out of bounds"
    | UB _ | NoFuel => True
    end.

Lemma triple_ret {A} (a : A) (Q : A → Prop) : Q a → triple (mret a) Q.
Proof. by intros ? ? ?. Qed.

Lemma triple_weaken {A} m (Q Q' : A → Prop) : triple m Q → (∀ a, Q a → Q' a) → triple m Q'.
Proof. intros Hm HQ w Hw. destruct (Hm w Hw) as [? Ho]. split; [done|]. destruct (m w).1; auto. Qed.

Lemma triple_bind {A B} (m : M W A) (k : A → M W B) Q Q' :
  triple m Q → (∀ a, Q a → triple (k a) Q') → triple (m ≫= k) Q'.
Proof.
  intros Hm Hk w Hw. destruct (Hm w Hw) as [Hw' Ho]. unfold mbind, M_bind.
  destruct (m w) as [[a|e|e|] w']; cbn in *; [by apply Hk|done..].
Qed.

Lemma triple_then {A B} (m : M W A) (k : A → M W B) h Q Q' :
  triple m Q → (∀ a, Q a → triple (k a) Q') → (∀ e, triple (h e) Q') → triple (promise_then m k h) Q'.
Proof.
  intros Hm Hk Hh w Hw. destruct (Hm w Hw) as [Hw' Ho]. unfold promise_then.
  destruct (m w) as [[a|e|e|] w']; cbn in *; [by apply Hk|by apply Hh|done..].
Qed.

Lemma triple_lift_Ok {A} (a : A) (Q : A → Prop) : Q a → triple (lift (Ok a)) Q.
Proof. by intros ? ? ?. Qed.

Lemma triple_UB {A} e (Q : A → Prop) : triple (undefined e) Q.
Proof. by intros ? ?. Qed.

Lemma triple_fuel {A} (Q : A → Prop) : triple out_of_fuel Q.
Proof. by intros ? ?. Qed.

Lemma triple_throw {A} e (Q : A → Prop) : e ≠ "index out of bounds" → triple (throw e) Q.
Proof. by intros ? ? ?. Qed.

End Triple.

#[export] Hint Resolve triple_UB triple_fuel : triples.

(** What an environment offers. *)
Class SafeEnv `{HashFns} {W} (E : PeerEnv W) (P : W → Prop) : Prop := {
  safe_ni : triple P env_ni node_ok;
  safe_update f : (∀ s, node_ok s → node_ok (f s)) → triple P (env_update f) (λ _, True);
  safe_statics : triple P env_statics (λ _, True);
  safe_set_statics f : triple P (env_set_statics f) (λ _, True);
  safe_now : triple P env_now (λ _, True);
  safe_rpc A ip port (r : PeerRequest A) : triple P (env_rpc ip port r) (λ _, True);
}.

(** ** The operations keep the invariant *)

Section Operations.
Context `{HashFns} `{!HashOk _} {W : Type} {E : PeerEnv W} (P : W → Prop) {Hsafe : SafeEnv E P}.

(** Follow the structure of a computation. *)
Ltac follow :=
  repeat first
    [ progress intros
    | apply triple_ret
    | apply triple_UB
    | apply triple_fuel
    | solve [eauto with triples]
    | eapply triple_bind; [solve [eauto with triples]|]
    | eapply triple_then; [solve [eauto with triples]| |]
    | progress cbv zeta
    | apply (triple_bind P _ _ (λ _, True))
    | match goal with
      | |- triple _ (match ?x with _ => _ end) _ => destruct x eqn:?
      end ].

Lemma closest_Ok id s : node_ok s → ∃ c, getClosestPreceding id s = Ok c ∧ node_opt_ok c.
Proof.
  intros Hs. destruct (getClosestPreceding_spec id s (ok_table s Hs)) as (c & Hc & Hspec).
  exists c. split; [done|]. destruct c as [n|]; [|done]. destruct Hspec as [_ (j & Hj)].
  by apply (ok_fingers s Hs) in Hj.
Qed.

Lemma triple_closest id s : node_ok s → triple P (lift (getClosestPreceding id s)) node_opt_ok.
Proof. intros Hs. destruct (closest_Ok id s Hs) as (c & -> & Hc). by apply triple_lift_Ok. Qed.

Hint Resolve safe_ni safe_update safe_statics safe_set_statics safe_now safe_rpc triple_closest : triples.
Hint Resolve node_ok_setPredecessor node_ok_setSuccessor node_ok_with_data nodeFromReader_opt_ok : triples.
Hint Extern 1 (node_ok (setData _ _ _ _ _)) => apply node_ok_with_data : triples.
Hint Extern 1 (node_ok (setDataExpires _ _ _ _)) => apply node_ok_with_data : triples.
Hint Extern 1 (node_ok (deleteDataAssignedToPredecessor _ _)) => apply node_ok_with_data : triples.
Hint Extern 1 (node_opt_ok _) => done : triples.
Hint Extern 1 True => exact I : triples.

Lemma triple_checkResult node id r : triple P (checkResult node id r) (λ _, True).
Proof. unfold checkResult. follow; done. Qed.
Hint Resolve triple_checkResult : triples.

Lemma triple_closest_impl node id ask : triple P (closest_impl node id ask) (λ _, True).
Proof. unfold closest_impl. follow; done. Qed.
Hint Resolve triple_closest_impl : triples.

Lemma triple_iterate fuel node d id ask : triple P (closest_iterate fuel node d id ask) (λ _, True).
Proof. revert ask. induction fuel as [|fuel IH]; intros ask; cbn [closest_iterate]; follow; done. Qed.
Hint Resolve triple_iterate : triples.

Lemma triple_algorithm fuel id hops d : triple P (getSuccessorAlgorithm fuel id hops d) (λ _, True).
Proof.
  revert hops d. induction fuel as [|fuel IH]; intros hops d; cbn [getSuccessorAlgorithm];
    unfold getClosestPrecedingHelper; follow; done.
Qed.
Hint Resolve triple_algorithm : triples.

Lemma triple_getSuccessor method fuel id : triple P (peer_getSuccessor method fuel id) (λ _, True).
Proof. unfold peer_getSuccessor, getSuccessor_far. follow; done. Qed.
Hint Resolve triple_getSuccessor : triples.

Lemma triple_digest response : triple P (lift (pow_digest response)) (λ _, True).
Proof.
  unfold pow_digest. destruct (strip_bytedump (sha1 (bytes_of_string response)) 20) as (s & -> & _); [lia|].
  by apply triple_lift_Ok.
Qed.
Hint Resolve triple_digest : triples.

Lemma triple_serve kj_throws method fuel A (r : PeerRequest A) :
  triple P (serve kj_throws method fuel r) (λ _, True).
Proof.
  destruct r; cbn [serve];
    unfold srv_getSuccessor, srv_getClosestPreceding, srv_getPredecessor, srv_notify, srv_getData,
      srv_setData, srv_getDataItemsOnJoin, srv_getPoWPuzzleOnJoin, srv_sendPoWPuzzleResponse, kj_assert;
    follow; done.
Qed.

Lemma triple_setData node key value t : triple P (peer_setData node key value t) (λ _, True).
Proof. unfold peer_setData. follow; done. Qed.
Hint Resolve triple_setData : triples.

Lemma triple_getData node key : triple P (peer_getData node key) (λ _, True).
Proof. unfold peer_getData. follow; done. Qed.
Hint Resolve triple_getData : triples.

Lemma triple_expires e : triple P (lift (expires_from_wire e)) (λ _, True).
Proof. unfold expires_from_wire. intros w Hw. split; [done|]. cbn. by destruct (_ && _). Qed.
Hint Resolve triple_expires : triples.

Lemma triple_store_items items : triple P (store_items items) (λ _, True).
Proof. induction items as [|i items IH]; cbn [store_items]; follow; done. Qed.
Hint Resolve triple_store_items : triples.

Lemma triple_items_helper n : triple P (getDataItemsOnJoinHelper n) (λ _, True).
Proof. unfold getDataItemsOnJoinHelper. follow; done. Qed.
Hint Resolve triple_items_helper : triples.

Lemma triple_dht_getSuccessor key : triple P (dht_getSuccessor key) node_opt_ok.
Proof. unfold dht_getSuccessor. follow; done. Qed.
Hint Resolve triple_dht_getSuccessor : triples.

Lemma triple_replicate n i r counts : triple P (replicate_loop n i r counts) (λ _, True).
Proof. revert i counts. induction n as [|n IH]; intros i counts; cbn [replicate_loop]; follow; done. Qed.
Hint Resolve triple_replicate : triples.

Lemma triple_run_replication r : triple P (run_replication r) (λ _, True).
Proof. unfold run_replication. follow; done. Qed.

Lemma triple_put_item h bytes key value ext : triple P (put_item h bytes key value ext) (λ _, True).
Proof. unfold put_item. follow; done. Qed.

Lemma triple_get_replicas fuel i key : triple P (get_replicas fuel i key) (λ _, True).
Proof. revert i. induction fuel as [|fuel IH]; intros i; cbn [get_replicas]; follow; done. Qed.
Hint Resolve triple_get_replicas : triples.

Lemma triple_get_answer key response : triple P (get_answer key response) (λ _, True).
Proof.
  unfold get_answer, Message_KEY_encode. intros w Hw.
  destruct response; [rewrite success_encode_bytes|rewrite encode_key_bytes]; done.
Qed.
Hint Resolve triple_get_answer : triples.

Lemma triple_onDhtGet m : triple P (onDhtGet m) (λ _, True).
Proof. unfold onDhtGet, getData_at. follow; done. Qed.

Lemma triple_get_hash_replicas fuel i key id response :
  triple P (get_hash_replicas fuel i key id response) (λ _, True).
Proof.
  revert i response. induction fuel as [|fuel IH]; intros i response; cbn [get_hash_replicas];
    unfold hash_of_response; follow; done.
Qed.
Hint Resolve triple_get_hash_replicas : triples.

Lemma triple_onDhtGetHash junk m : triple P (onDhtGetKeyIsHashOfData junk m) (λ _, True).
Proof. unfold onDhtGetKeyIsHashOfData, key_to_id, getData_at, hash_of_response. follow; done. Qed.

Lemma triple_solve fuel i puzzle d : triple P (lift (solve_puzzle fuel i puzzle d)) (λ _, True).
Proof.
  revert i. induction fuel as [|fuel IH]; intros i; [done|]. cbn [solve_puzzle].
  unfold pow_digest at 1.
  destruct (strip_bytedump (sha1 (bytes_of_string (puzzle +:+ to_string i))) 20) as (s & -> & _); [lia|].
  cbn [mbind outcome_bind]. repeat case_match; [done|done|apply IH].
Qed.
Hint Resolve triple_solve : triples.

(** [nested_wait] may drop the computation or let it throw. *)
Definition wait_safe (nested_wait : M W unit → M W unit) : Prop :=
  ∀ m, triple P m (λ _, True) → triple P (nested_wait m) (λ _, True).

Lemma triple_join nested_wait fuel node : wait_safe nested_wait →
  triple P (join nested_wait fuel node) (λ _, True).
Proof.
  intros Hn. unfold join, join_answer.
  assert (∀ n, triple P (nested_wait (getDataItemsOnJoinHelper n)) (λ _, True))
    by (intros; apply Hn, triple_items_helper).
  follow; done.
Qed.
Hint Resolve triple_join : triples.

Lemma triple_create : triple P create (λ _, True).
Proof.
  unfold create. eapply triple_bind; [by eauto with triples|]. intros _ _.
  eapply triple_bind; [apply safe_ni|]. intros s Hs. apply safe_update. intros s' Hs'.
  apply node_ok_setSuccessor; [apply Hs|done].
Qed.
Hint Resolve triple_create : triples.

Lemma triple_notify_peer n : triple P (notify_peer n) (λ _, True).
Proof. unfold notify_peer. follow; done. Qed.
Hint Resolve triple_notify_peer : triples.

Lemma triple_stabilize : triple P stabilize (λ _, True).
Proof.
  unfold stabilize. eapply triple_bind; [apply safe_ni|]. intros s Hs. destruct (getSuccessor s); [|by follow].
  apply (triple_bind P _ _ node_opt_ok); [follow; done|]. intros p Hp.
  eapply triple_bind; [apply safe_ni|]. intros s' Hs'. follow; done.
Qed.
Hint Resolve triple_stabilize : triples.

Lemma triple_fixFingers i : (i < key_bits)%nat → triple P (fixFingers i) (λ j, (j < key_bits)%nat).
Proof.
  intros Hi. unfold fixFingers, set_finger_checked. eapply triple_bind; [apply safe_ni|]. intros s Hs.
  eapply triple_bind; [apply triple_dht_getSuccessor|]. intros n Hn.
  apply (triple_bind P _ _ (λ _, True)).
  - eapply triple_bind; [apply safe_ni|]. intros s' Hs'. rewrite (setFinger_Ok s' i n (ok_table s' Hs') Hi).
    apply (triple_bind P _ _ node_ok); [by apply triple_lift_Ok, node_ok_with_finger|].
    intros s'' Hs''. by apply safe_update.
  - intros _ _. apply triple_ret. by apply Nat.mod_upper_bound.
Qed.

Lemma triple_checkPredecessor : triple P checkPredecessor (λ _, True).
Proof. unfold checkPredecessor. follow; done. Qed.

Lemma triple_mainLoop_turn nested_wait fuel cancelled i : wait_safe nested_wait → (i < key_bits)%nat →
  triple P (mainLoop_turn nested_wait fuel cancelled i) (λ r, (r.1 < key_bits)%nat).
Proof.
  intros Hn Hi. unfold mainLoop_turn, enter_network. destruct (cancelled 0%nat); [by apply triple_ret|].
  apply (triple_bind P _ _ (λ _, True)); [follow; done|]. intros _ _.
  destruct (cancelled 1%nat); [by apply triple_ret|].
  eapply triple_bind; [apply triple_stabilize|]. intros _ _. destruct (cancelled 2%nat); [by apply triple_ret|].
  eapply triple_bind; [by apply triple_fixFingers|]. intros j Hj. destruct (cancelled 3%nat); [by apply triple_ret|].
  eapply triple_bind; [apply triple_checkPredecessor|]. intros _ _. by apply triple_ret.
Qed.

End Operations.

(** ** Networks *)

Section WorldInvariant.
Context `{HashFns} `{!HashOk _} (kj_throws : bool) (method : GetSuccessorMethod) (fuel : nat).
Local Abbreviation env := (world_env kj_throws method fuel).
Implicit Types (w : World) (s : NodeInformation) (a : addr).

Definition world_ok w : Prop := ∀ a s, w_nodes w !! a = Some s → node_ok s.

Lemma world_ok_update a f w : (∀ s, node_ok s → node_ok (f s)) → world_ok w → world_ok (w_update a f w).
Proof.
  intros Hf Hw b s Hs. destruct (decide (a = b)) as [<-|Hne].
  - cbn in Hs. rewrite lookup_alter_eq in Hs. apply fmap_Some in Hs as (s0 & Hs0 & ->). eauto.
  - rewrite lookup_update_ne in Hs by done. eauto.
Qed.

#[export] Instance world_safe depth self : SafeEnv (env depth self) world_ok.
Proof.
  revert self. induction depth as [|depth IH]; intros self; split.
  1, 7: intros w Hw; cbn; destruct (w_nodes w !! self) eqn:Hs; cbn; eauto.
  1, 6: intros f Hf w Hw; cbn; split; [by apply world_ok_update|done].
  1-3, 5-7: done.
  - intros A ip port r w Hw. cbn. by destruct (w_nodes w !! (ip, port)).
  - intros A ip port r w Hw. cbn. destruct (w_nodes w !! (ip, port)); [|done].
    by apply (triple_serve world_ok).
Qed.

(** What happens in a network: nodes start and stop, time passes, entries
    expire, requests arrive from anywhere with any contents, main loops turn
    and API handlers and replications run. *)
Inductive happens : World → World → Prop :=
| node_starts a (bootstrap : option addr) w :
    happens w (mkWorld (<[a := setBootstrapNode (nd <$> bootstrap) (NodeInformation_ctor a.1 a.2)]> (w_nodes w))
                 (w_statics w) (w_now w))
| node_stops a w : happens w (mkWorld (delete a (w_nodes w)) (w_statics w) (w_now w))
| time_passes t w : w_now w <= t → happens w (mkWorld (w_nodes w) (w_statics w) t)
| cleaner_runs a clock w : happens w (w_update a (clean_pass clock) w)
| request_served A depth from ip port (r : PeerRequest A) w :
    happens w (env_rpc (PeerEnv := env depth from) ip port r w).2
| main_loop_turns depth a pfuel cancelled i w : (i < key_bits)%nat →
    happens w (mainLoop_turn (H0 := env depth a) (λ m, m) pfuel cancelled i w).2
| put_handled depth a m w : happens w (onDhtPut (H0 := env depth a) m w).2
| put_hash_handled depth a m w : happens w (onDhtPutKeyIsHashOfData (H0 := env depth a) m w).2
| get_handled depth a m w : happens w (onDhtGet (H0 := env depth a) m w).2
| get_hash_handled depth a junk m w : happens w (onDhtGetKeyIsHashOfData (H0 := env depth a) junk m w).2
| replication_runs depth a r w : happens w (run_replication (H0 := env depth a) r w).2.

Inductive reachable : World → Prop :=
| reach_start now : reachable (mkWorld ∅ initial_statics now)
| reach_step w w' : reachable w → happens w w' → reachable w'.

Lemma happens_ok w w' : world_ok w → happens w w' → world_ok w'.
Proof.
  intros Hw Hstep. destruct Hstep.
  - intros b s Hs. cbn in Hs. apply lookup_insert_Some in Hs as [[_ <-]|[_ Hs]]; [|by eauto].
    destruct (node_ok_ctor a.1 a.2). constructor; [done..|]. by destruct bootstrap.
  - intros b s Hs. cbn in Hs. apply lookup_delete_Some in Hs as [_ Hs]. eauto.
  - done.
  - apply world_ok_update; [|done]. intros s Hs. by apply node_ok_with_data.
  - by apply (safe_rpc (P := world_ok)).
  - apply (triple_mainLoop_turn world_ok); [by intros m Hm|done|done].
  - by apply (triple_put_item world_ok).
  - by apply (triple_put_item world_ok).
  - by apply (triple_onDhtGet world_ok).
  - by apply (triple_onDhtGetHash world_ok).
  - by apply (triple_run_replication world_ok).
Qed.

(** C8: Every reachable state is well-formed. Starting from no nodes, and
    whatever nodes start and stop, requests arrive with whatever contents,
    handlers, replications, cleaners and main loops run, each node keeps a
    finger table of 256 entries, and every node it stores (itself, fingers,
    predecessor, bootstrap) has the hash of its address as identifier. *)
Theorem reachable_well_formed w a s : reachable w → w_nodes w !! a = Some s → node_ok s.
Proof.
  intros Hreach. revert a s. induction Hreach as [now|w w' _ IH Hstep].
  - intros a s Hs. cbn in Hs. by rewrite lookup_empty in Hs.
  - by apply (happens_ok w w').
Qed.

(** C13: The finger table is never indexed out of bounds. In a well-formed
    network no request, whatever its contents, and no turn of a main loop with
    its index in range ends in the out-of-bounds exception of [getFinger] and
    [setFinger], and the turn leaves the index in range. *)
Theorem no_index_out_of_bounds w :
  world_ok w →
  (∀ A depth from ip port (r : PeerRequest A),
     (env_rpc (PeerEnv := env depth from) ip port r w).1 ≠ Exn "index out of bounds") ∧
  (∀ depth a pfuel cancelled i, (i < key_bits)%nat →
     let o := (mainLoop_turn (H0 := env depth a) (λ m, m) pfuel cancelled i w).1 in
     o ≠ Exn "index out of bounds" ∧ ∀ j go, o = Ok (j, go) → (j < key_bits)%nat).
Proof.
  intros Hw. split.
  - intros A depth from ip port r. pose proof (proj2 (safe_rpc (P := world_ok) (E := env depth from) A ip port r w Hw)) as Ho.
    by destruct (env_rpc ip port r w).1; try congruence.
  - intros depth a pfuel cancelled i Hi o.
    pose proof (proj2 (triple_mainLoop_turn world_ok (E := env depth a) (λ m, m) pfuel cancelled i
      (λ m Hm, Hm) Hi w Hw)) as Ho. fold o in Ho.
    split; [by destruct o; try congruence|]. intros j go E. by rewrite E in Ho.
Qed.

End WorldInvariant.
