(* ===== verification/PoW.v ===== *)
(** * Proof of work

    The puzzle a node solves to join (src/dht/Dht.cpp, [join]) and the checks
    of the bootstrap node (src/dht/Peer.cpp,
    [sendPoWPuzzleResponseToBootstrapAndGetSuccessor]). Both compare the text
    of the SHA-1 bits with a string of zeros; the theorems relate that to the
    digest as a number, and the two sides to each other. *)

From S2P Require Import Prelude Util Ring NodeInfo Message Peer Dht.

(** ** Bit strings *)

Section Bits.
Implicit Types l : list Ascii.ascii.

Definition is_bit (c : Ascii.ascii) : Prop := c = "0"%char ∨ c = "1"%char.

(** The value of a string of bits, most significant first. *)
Fixpoint bit_num l : Z :=
  match l with
  | [] => 0
  | c :: l => (if decide (c = "1"%char) then 2 ^ Z.of_nat (length l) else 0) + bit_num l
  end.

Lemma bit_num_range l : 0 <= bit_num l < 2 ^ Z.of_nat (length l).
Proof.
  induction l as [|c l IH]; cbn [bit_num length]; [done|].
  rewrite Nat2Z.inj_succ, Z.pow_succ_r by lia. case_decide; lia.
Qed.

Lemma bit_num_app l1 l2 :
  bit_num (l1 ++ l2) = bit_num l1 * 2 ^ Z.of_nat (length l2) + bit_num l2.
Proof.
  induction l1 as [|c l1 IH]; cbn [bit_num app]; [lia|].
  rewrite IH, length_app, Nat2Z.inj_add, Z.pow_add_r by lia. case_decide; lia.
Qed.

(** Enough leading zeros is a bound on the value. *)
Lemma leading_zeros l d : Forall is_bit l → (d <= length l)%nat →
  take d l = replicate d "0"%char ↔ bit_num l < 2 ^ Z.of_nat (length l - d).
Proof.
  intros Hl. revert d. induction Hl as [|c l Hc Hl IH]; intros [|d] Hd; cbn [length] in Hd.
  - done.
  - lia.
  - rewrite Nat.sub_0_r. pose proof (bit_num_range (c :: l)). cbn [take replicate]. tauto.
  - cbn [take replicate bit_num length Nat.sub]. pose proof (bit_num_range l).
    assert (2 ^ Z.of_nat (length l - d) <= 2 ^ Z.of_nat (length l)) by (apply Z.pow_le_mono_r; lia).
    case_decide as E; [subst; split; [done|lia]|].
    destruct Hc as [->| ->]; [|done]. rewrite Z.add_0_l, <- IH by lia. split; [congruence|by intros ->].
Qed.

Lemma is_bit_bitset8 b : Forall is_bit (bitset8 b).
Proof. unfold bitset8. rewrite Forall_fmap. apply Forall_true. intros k. cbn. case_match; [by right|by left]. Qed.

Lemma bit_num_bitset8 b : byte_ok b → bit_num (bitset8 b) = b.
Proof.
  intros Hb. assert (forallb (λ n, bit_num (bitset8 (Z.of_nat n)) =? Z.of_nat n) (seq 0 256) = true) as Hall
    by (by vm_compute).
  rewrite forallb_forall in Hall. specialize (Hall (Z.to_nat b)). unfold byte_ok in Hb.
  rewrite Z2Nat.id in Hall by lia. apply Z.eqb_eq, Hall, in_seq. lia.
Qed.

Lemma is_bit_bits bytes : Forall is_bit (concat (bitset8 <$> bytes)).
Proof.
  induction bytes as [|b bytes IH]; [constructor|]. cbn -[bitset8].
  apply Forall_app. split; [apply is_bit_bitset8|done].
Qed.

Lemma bit_num_bits bytes : bytes_ok bytes → bit_num (concat (bitset8 <$> bytes)) = be_num bytes.
Proof.
  induction 1 as [|b bytes Hb Hbs IH]; [done|].
  change (concat (bitset8 <$> b :: bytes)) with (bitset8 b ++ concat (bitset8 <$> bytes)).
  rewrite bit_num_app, IH, bit_num_bitset8, length_bits, be_num_cons by done.
  f_equal. f_equal. change 256 with (2 ^ 8). rewrite <- Z.pow_mul_r by lia. f_equal. lia.
Qed.

End Bits.

(** ** The puzzle *)

Section Puzzle.
Context `{HashFns} `{!HashOk _}.

Lemma pow_digest_bits response : ∃ digest,
  pow_digest response = Ok digest ∧
  String.list_ascii_of_string digest = concat (bitset8 <$> sha1 (bytes_of_string response)).
Proof.
  unfold pow_digest.
  destruct (strip_bytedump (sha1 (bytes_of_string response)) 20) as (s & Hs & Hstrip); [lia|].
  rewrite Hs. eexists. split; [done|].
  by rewrite Hstrip, String.list_ascii_of_string_of_list_ascii.
Qed.

Lemma string_of_list_inj l1 l2 :
  String.string_of_list_ascii l1 = String.string_of_list_ascii l2 ↔ l1 = l2.
Proof.
  split; [|by intros ->]. intros E. rewrite <- (String.list_ascii_of_string_of_list_ascii l1).
  by rewrite E, String.list_ascii_of_string_of_list_ascii.
Qed.

Lemma pow_leading_num response digest d : 0 <= d → pow_digest response = Ok digest →
  pow_leading d digest = true ↔ d <= 160 ∧ be_num (sha1 (bytes_of_string response)) < 2 ^ (160 - d).
Proof.
  intros Hd Hdig. destruct (pow_digest_bits response) as (digest' & Hdig' & Hbits).
  rewrite Hdig in Hdig'. injection Hdig' as <-. set (h := sha1 (bytes_of_string response)) in *.
  destruct (sha1_ok (bytes_of_string response)) as [Hok Hlen]. fold h in Hok, Hlen.
  assert (length (concat (bitset8 <$> h)) = 160%nat) as Hl by (by rewrite length_bits, Hlen).
  unfold pow_leading, pow_target, string_prefix, string_repeat.
  rewrite bool_decide_eq_true, string_of_list_inj, Hbits.
  destruct (decide (d <= 160)) as [Hle|Hgt].
  - rewrite leading_zeros, bit_num_bits, Hl by (rewrite ?Hl; auto using is_bit_bits; lia).
    replace (Z.of_nat (160 - Z.to_nat d)) with (160 - d) by lia. tauto.
  - split; [|lia]. intros E%(f_equal length). rewrite length_take, length_replicate, Hl in E. lia.
Qed.

Lemma solve_puzzle_sound fuel i puzzle d response digest :
  solve_puzzle fuel i puzzle d = Ok (response, digest) →
  ∃ j, i <= j ∧ response = puzzle +:+ to_string j ∧
    pow_digest response = Ok digest ∧ pow_leading d digest = true.
Proof.
  revert i. induction fuel as [|fuel IH]; intros i; cbn [solve_puzzle]; [done|].
  destruct (pow_digest_bits (puzzle +:+ to_string i)) as (dg & Hdg & _). rewrite Hdg.
  cbn [mbind outcome_bind]. destruct (pow_leading d dg) eqn:E.
  - intros [= <- <-]. exists i. split_and!; [lia|done..].
  - case_match; [done|]. intros (j & Hj & ?)%IH. exists j. split; [lia|done].
Qed.

(** The proof of work is a bound on the digest. Checking that the text of
    the SHA-1 bits starts with [d] zeros is, for every response, checking that
    [d] is at most 160 and the digest as a number is below 2^(160-d). *)
Theorem pow_is_target_check response d : 0 <= d →
  ∃ digest, pow_digest response = Ok digest ∧
    (pow_leading d digest = true ↔
     d <= 160 ∧ be_num (sha1 (bytes_of_string response)) < 2 ^ (160 - d)).
Proof.
  intros Hd. destruct (pow_digest_bits response) as (digest & Hdig & _).
  exists digest. split; [done|]. by apply pow_leading_num.
Qed.

(** A response is a solution of the puzzle. *)
Definition solves (puzzle : string) (d i : Z) : Prop :=
  be_num (sha1 (bytes_of_string (puzzle +:+ to_string i))) < 2 ^ (160 - d).

(** The search finds the first solution. If the counters below [n] do not
    solve a puzzle of difficulty at most 160 and [n] does (before the [int]
    counter overflows), the search of [join] started at 0 ends with [n]'s
    response after [n + 1] digests. *)
Theorem solve_puzzle_first puzzle d n fuel :
  0 <= d <= 160 → Z.of_nat n < 2 ^ 31 → (n < fuel)%nat →
  (∀ i, (i < n)%nat → ¬ solves puzzle d (Z.of_nat i)) → solves puzzle d (Z.of_nat n) →
  ∃ digest, solve_puzzle fuel 0 puzzle d = Ok (puzzle +:+ to_string (Z.of_nat n), digest).
Proof.
  intros Hd Hn Hfuel Hno Hsol.
  assert (∀ k i, (i + k = n)%nat → (k < fuel)%nat →
    ∃ digest, solve_puzzle fuel (Z.of_nat i) puzzle d = Ok (puzzle +:+ to_string (Z.of_nat n), digest))
    as Hgen; [|by apply (Hgen n 0%nat)].
  clear Hfuel. intros k. revert fuel. induction k as [|k IH]; intros [|fuel] i Hi Hf; try lia;
    cbn [solve_puzzle]; destruct (pow_digest_bits (puzzle +:+ to_string (Z.of_nat i))) as (dg & Hdg & _);
    pose proof (pow_leading_num _ dg d (proj1 Hd) Hdg) as Hiff; rewrite Hdg; cbn [mbind outcome_bind].
  - assert (i = n) as -> by lia. rewrite (proj2 Hiff) by (split; [lia|exact Hsol]). by eexists.
  - destruct (pow_leading d dg) eqn:E.
    { exfalso. apply (Hno i); [lia|]. by apply Hiff. }
    destruct (Z.eqb_spec (Z.of_nat i) (2 ^ 31 - 1)); [lia|].
    replace (Z.of_nat i + 1) with (Z.of_nat (S i)) by lia. apply IH; lia.
Qed.

(** A difficulty above 160, which the configuration accepts, cannot be
    met: no response passes the check, and the search of [join] never returns
    a solution, however long it runs. *)
Theorem difficulty_above_160_unsolvable d : 160 < d →
  (∀ response digest, pow_digest response = Ok digest → pow_leading d digest = false) ∧
  (∀ fuel puzzle i, is_Ok (solve_puzzle fuel i puzzle d) = false).
Proof.
  intros Hd. assert (∀ response digest, pow_digest response = Ok digest → pow_leading d digest = false) as Hno.
  { intros response digest Hdig. apply not_true_iff_false.
    rewrite (pow_leading_num _ _ d ltac:(lia) Hdig). intros [? _]. lia. }
  split; [done|]. intros fuel puzzle i.
  destruct (solve_puzzle fuel i puzzle d) as [[r dg]|e|e|] eqn:E; [|done..].
  apply solve_puzzle_sound in E as (j & _ & _ & Hdig & Hl). by rewrite (Hno _ _ Hdig) in Hl.
Qed.

End Puzzle.

(** ** The checks of the bootstrap node *)

Section Server.
Context `{HashFns} `{!HashOk _} {W : Type} `{PeerEnv W}.

(** What the bootstrap node accepts. *)
Definition pow_accepts (st : Statics) (n : WireNode) (response hash : string) : bool :=
  let test := host_port (wn_ip n) (wn_port n) in
  bool_decide (string_prefix (String.length test) response = test) &&
  bool_decide (pow_digest response = Ok hash) &&
  pow_leading (getDifficulty st) hash.

Lemma srv_pow_cases kj_throws method fuel w st n response hash :
  env_statics w = (Ok st, w) →
  srv_sendPoWPuzzleResponse kj_throws method fuel n response hash w =
  if pow_accepts st n response hash
  then (successor ← peer_getSuccessor method fuel (addr_id (wn_ip n) (wn_port n));
        mret (Some (buildNode_opt successor))) w
  else if kj_throws then (Exn "KJ_ASSERT", w) else (Ok None, w).
Proof.
  intros Hst. unfold srv_sendPoWPuzzleResponse, pow_accepts, kj_assert. cbn [nodeFromReader m_ip m_port Node_ctor updateId].
  destruct (bool_decide (string_prefix _ _ = _)); cbn [andb]; [|by destruct kj_throws].
  destruct (pow_digest_bits response) as (digest & Hdig & _). rewrite Hdig, bind_lift_Ok.
  destruct (decide (digest = hash)) as [->|Hne].
  - rewrite !bool_decide_eq_true_2 by done. cbn [andb]. rewrite (bind_Ok _ _ _ _ _ Hst).
    destruct (pow_leading _ _); [done|by destruct kj_throws].
  - rewrite !bool_decide_eq_false_2 by congruence. by destruct kj_throws.
Qed.

(** What the search of a joining node returns passes the checks. *)
Lemma pow_accepts_solution st fuel n response hash :
  solve_puzzle fuel 0 (host_port (wn_ip n) (wn_port n)) (getDifficulty st) = Ok (response, hash) →
  pow_accepts st n response hash = true.
Proof.
  intros (j & _ & -> & Hdig & Hl)%solve_puzzle_sound. unfold pow_accepts.
  by rewrite string_prefix_app, Hdig, Hl, !bool_decide_eq_true_2.
Qed.

End Server.

Section ServerTheorem.
Context `{HashFns} `{!HashOk _} {W : Type} `{PeerEnv W}.

(** C28: The bootstrap node answers with a successor only for work done for
    the requesting address: the response starts with the address's text, the
    transmitted digest is the digest of the response, and that digest is below
    2^(160 - difficulty). Any other request is refused without a state
    change, by an exception or an empty answer depending on KJ. *)
Theorem pow_server_accepts_iff kj_throws method fuel w st n response hash :
  env_statics w = (Ok st, w) → 0 <= getDifficulty st →
  let test := host_port (wn_ip n) (wn_port n) in
  let good := string_prefix (String.length test) response = test ∧ pow_digest response = Ok hash ∧
    getDifficulty st <= 160 ∧
    be_num (sha1 (bytes_of_string response)) < 2 ^ (160 - getDifficulty st) in
  (good → srv_sendPoWPuzzleResponse kj_throws method fuel n response hash w
          = (successor ← peer_getSuccessor method fuel (addr_id (wn_ip n) (wn_port n));
             mret (Some (buildNode_opt successor))) w) ∧
  (¬ good → srv_sendPoWPuzzleResponse kj_throws method fuel n response hash w
            = (if kj_throws then Exn "KJ_ASSERT" else Ok None, w)).
Proof.
  intros Hst Hd test good. rewrite (srv_pow_cases _ _ _ _ _ _ _ _ Hst).
  assert (pow_accepts st n response hash = true ↔ good) as Hiff.
  { unfold pow_accepts, good. rewrite !andb_true_iff, !bool_decide_eq_true.
    split; intros ((? & Hdig) & Hl) || intros (? & Hdig & Hl);
      rewrite (pow_leading_num _ _ _ Hd Hdig) in *; tauto. }
  split; intros Hg.
  - by rewrite (proj2 Hiff Hg).
  - destruct (pow_accepts st n response hash); [by destruct Hg; apply Hiff|]. by destruct kj_throws.
Qed.

End ServerTheorem.
