(* ===== verification/Maintenance.v ===== *)
(** * Maintenance: the ring stays a ring and grows

    Theorems on the maintenance operations of src/dht/Dht.cpp in a [World]:
    in an ideal ring [stabilize] and [checkPredecessor] change nothing and
    [fixFingers] sets the finger the definition of Chord asks for; a node that
    joins at any member, followed by two stabilisations, leaves an ideal ring
    with one more member; the data handed over is exactly what the new member
    is responsible for. *)

From S2P Require Import Prelude Util Ring NodeInfo Message Peer Topology Lookup Network Dht.

(** ** Steps of the monad in a world *)

Section Steps.
Context `{HashFns} `{!HashOk _} (kj_throws : bool) (method : GetSuccessorMethod) (fuel : nat).
Local Abbreviation env := (world_env kj_throws method fuel).
Implicit Types (w : World) (s : NodeInformation) (R : Ring).

Lemma bind_ni {A} depth me w s (k : NodeInformation → M World A) :
  w_nodes w !! me = Some s → (env_ni (PeerEnv := env depth me) ≫= k) w = k s w.
Proof. intros Hs. by rewrite (bind_Ok _ _ _ _ _ (world_ni _ _ _ _ _ _ _ Hs)). Qed.

Lemma bind_update {A} depth me w f (k : unit → M World A) :
  (env_update (PeerEnv := env depth me) f ≫= k) w = k tt (w_update me f w).
Proof. by destruct depth. Qed.

Lemma run_update depth me w f :
  env_update (PeerEnv := env depth me) f w = (Ok tt, w_update me f w).
Proof. by destruct depth. Qed.

Lemma bind_statics {A} depth me w (k : Statics → M World A) :
  (env_statics (PeerEnv := env depth me) ≫= k) w = k (w_statics w) w.
Proof. by destruct depth. Qed.

Lemma bind_set_statics {A} depth me w f (k : unit → M World A) :
  (env_set_statics (PeerEnv := env depth me) f ≫= k) w
  = k tt (mkWorld (w_nodes w) (f (w_statics w)) (w_now w)).
Proof. by destruct depth. Qed.

Lemma bind_now {A} depth me w (k : Z → M World A) :
  (env_now (PeerEnv := env depth me) ≫= k) w = k (w_now w) w.
Proof. by destruct depth. Qed.

(** What the neighbours of a node at [a] and its fingers are. *)
Record node_view (X : gset addr) (a : addr) (p : option addr) (q : addr) s : Prop := {
  nv_node : getNode s = nd a;
  nv_table : table_ok s;
  nv_pred : getPredecessor s = nd <$> p;
  nv_first : m_fingerTable s !! 0%nat = Some (Some (nd q));
  nv_fingers j n : m_fingerTable s !! j = Some (Some n) → ∃ b, b ∈ X ∧ n = nd b;
}.

Lemma node_view_ring R a s :
  ring_view R a s ↔ node_view (members R) a (Some (rpred R a)) (rsucc R a) s.
Proof. split; intros []; by constructor. Qed.

Lemma nv_succ X a p q s : node_view X a p q s → getSuccessor s = Some (nd q).
Proof. intros Hv. apply getSuccessor_first, Hv. Qed.

Lemma nv_id X a p q s : node_view X a p q s → getId s = aid a.
Proof. intros Hv. unfold getId. fold (getNode s). by rewrite (nv_node _ _ _ _ _ Hv). Qed.

Lemma nv_mono X X' a p q s : X ⊆ X' → node_view X a p q s → node_view X' a p q s.
Proof.
  intros HX []. constructor; [done..|]. intros j n Hj. destruct (nv_fingers0 j n Hj) as (b & Hb & ->).
  exists b. split; [by apply HX|done].
Qed.

Lemma nv_setPredecessor X a p q s p' :
  node_view X a p q s → node_view X a (Some p') q (setPredecessor (Some (nd p')) s).
Proof. intros []. by constructor. Qed.

Lemma nv_with_finger X a p q s i b : node_view X a p q s → b ∈ X → (i = 0%nat → b = q) →
  node_view X a p q (with_fingers (<[i := Some (nd b)]> (m_fingerTable s)) s).
Proof.
  intros [] Hb Hi. constructor; [done|by unfold table_ok; cbn; rewrite length_insert|done|..]; cbn.
  - destruct i; [|by rewrite list_lookup_insert_ne]. rewrite (Hi eq_refl).
    apply list_lookup_insert_eq. by apply lookup_lt_Some in nv_first0.
  - intros j n Hj. apply list_lookup_insert_Some in Hj as [(-> & [= <-] & _)|[_ Hj]]; eauto.
Qed.

Lemma nv_setSuccessor X a p q s b : node_view X a p q s → b ∈ X →
  node_view X a p b (setSuccessor (Some (nd b)) s).
Proof.
  intros [] Hb. constructor; [done|by apply table_ok_setSuccessor|done|..]; cbn.
  - apply list_lookup_insert_eq. by apply lookup_lt_Some in nv_first0.
  - intros j n Hj. apply list_lookup_insert_Some in Hj as [(_ & [= <-] & _)|[_ Hj]]; eauto.
Qed.

Lemma nv_with_data X a p q s m : node_view X a p q s → node_view X a p q (with_data m s).
Proof. intros []. by constructor. Qed.

(** A finger that is inserted is a member, so an ideal ring stays one. *)
Lemma ideal_update R w me s f : ideal R w → w_nodes w !! me = Some s →
  (ring_view R me s → ring_view R me (f s)) → ideal R (w_update me f w).
Proof.
  intros Hw Hs Hf a Ha. destruct (Hw a Ha) as (sa & Hsa & Hv). destruct (decide (me = a)) as [<-|Hne].
  - rewrite (lookup_update_eq _ _ _ _ Hs). rewrite Hs in Hsa. injection Hsa as ->. eauto.
  - rewrite lookup_update_ne by done. eauto.
Qed.

(** ** Lookups from the Dht *)

Lemma dht_getSuccessor_ideal R w me id depth : ring_ok R → ideal R w → me ∈ members R → id_ok id →
  (size (members R) + 2 <= fuel)%nat → (size (members R) + 2 <= depth)%nat →
  ∃ b, responsible R (be_num id) b ∧
    dht_getSuccessor (H0 := env depth me) id w = (Ok (Some (nd b)), w).
Proof.
  intros HR Hw Hme Hid Hf Hd. destruct (Hw me Hme) as (s & Hs & Hv).
  destruct (lookup_request kj_throws method fuel R w id me me depth) as (b & Hb & Hrpc); [done..|].
  exists b. split; [done|]. unfold dht_getSuccessor. rewrite (bind_ni _ _ _ _ _ Hs).
  unfold getIp, getPort. fold (getNode s). rewrite (view_node _ _ _ Hv).
  rewrite (then_Ok _ _ _ _ _ _ Hrpc). cbn [nodeFromReader_opt fmap option_fmap option_map].
  by rewrite nd_roundtrip.
Qed.

(** ** Maintenance of an ideal ring *)

Lemma stabilize_noop R w me depth : ring_ok R → ideal R w → me ∈ members R →
  stabilize (H0 := env (S depth) me) w = (Ok tt, w).
Proof.
  intros HR Hw Hme. destruct (Hw me Hme) as (s & Hs & Hv). unfold stabilize.
  rewrite (bind_ni _ _ _ _ _ Hs), (view_succ R me s Hv).
  pose proof (ideal_pred kj_throws method fuel R w depth me _ Hw (ring_succ_mem R HR me Hme)) as Hp.
  erewrite bind_Ok; [|by rewrite (then_Ok _ _ _ _ _ _ Hp)].
  rewrite (bind_ni _ _ _ _ _ Hs). cbn [nodeFromReader_opt fmap option_fmap option_map].
  rewrite nd_roundtrip, (ring_pred_succ R HR me Hme), getId_nd, (view_id R me s Hv).
  by rewrite decide_True.
Qed.

Lemma checkPredecessor_noop R w me depth : ring_ok R → ideal R w → me ∈ members R →
  checkPredecessor (H0 := env (S depth) me) w = (Ok tt, w).
Proof.
  intros HR Hw Hme. destruct (Hw me Hme) as (s & Hs & Hv). unfold checkPredecessor.
  rewrite (bind_ni _ _ _ _ _ Hs), (view_pred _ _ _ Hv).
  pose proof (ideal_pred kj_throws method fuel R w depth me _ Hw (ring_pred_mem R HR me Hme)) as Hp.
  by rewrite (then_Ok _ _ _ _ _ _ Hp).
Qed.

(** The start of a finger's interval is an identifier, 2^i past the node. *)
Lemma finger_start_num me s i : getId s = aid me → (i < key_bits)%nat →
  id_ok (finger_start s i) ∧ be_num (finger_start s i) = (pos me + 2 ^ Z.of_nat i) `mod` ring_size.
Proof.
  intros Hid Hi. unfold finger_start. rewrite Hid. change (Z.of_nat (key_bits / 8)) with 32.
  assert (Z.of_nat i < 256) as Hi' by (unfold key_bits, id_bytes in Hi; lia).
  destruct (aid_ok me) as [Ha La].
  assert (length (aid me) = length (pow2 8 32 (Z.of_nat i))) as Hl by (by rewrite length_pow2, La).
  split.
  - split; [apply array_add_ok; [done|apply pow2_ok; lia|done]|]. by rewrite length_array_add.
  - rewrite be_num_array_add, be_num_pow2, La by (done || lia || (apply pow2_ok; lia)).
    destruct (Z.ltb_spec (Z.of_nat i) (8 * 32)); [done|lia].
Qed.

Lemma responsible_next R a : ring_ok R → a ∈ members R →
  responsible R ((pos a + 1) `mod` ring_size) (rsucc R a).
Proof.
  intros HR Ha. pose proof (pos_point a) as Pa. pose proof (pos_point (rsucc R a)) as Ps.
  apply (responsible_arc R HR); [apply mod_point|by apply ring_succ_mem|].
  rewrite (ring_pred_succ R HR a Ha). pose proof (cw_next (pos a) Pa) as Hn. cbn.
  destruct (decide (pos a = pos (rsucc R a))) as [|Hne]; [by left|right]. split.
  - intros E. rewrite E, cw_diag in Hn. lia.
  - rewrite Hn. pose proof (cw_range (pos a) (pos (rsucc R a))).
    destruct (decide (cw (pos a) (pos (rsucc R a)) = 0)) as [E|]; [|lia].
    by apply cw_zero in E.
Qed.

(** Finger [i] of [s] is the member Chord's definition asks for. *)
Definition right_finger R (me : addr) (i : nat) s : Prop :=
  ∃ b, responsible R ((pos me + 2 ^ Z.of_nat i) `mod` ring_size) b ∧
       m_fingerTable s !! i = Some (Some (nd b)).

Lemma fixFingers_step R w me s i depth : ring_ok R → ideal R w → me ∈ members R →
  w_nodes w !! me = Some s → (i < key_bits)%nat →
  (size (members R) + 2 <= fuel)%nat → (size (members R) + 2 <= depth)%nat →
  ∃ b, responsible R ((pos me + 2 ^ Z.of_nat i) `mod` ring_size) b ∧
    let s' := with_fingers (<[i := Some (nd b)]> (m_fingerTable s)) s in
    fixFingers (H0 := env depth me) i w
      = (Ok ((i + 1) mod key_bits)%nat, w_update me (λ _, s') w) ∧
    ring_view R me s' ∧ ideal R (w_update me (λ _, s') w).
Proof.
  intros HR Hw Hme Hs Hi Hf Hd. destruct (Hw me Hme) as (s0 & Hs0 & Hv).
  rewrite Hs in Hs0. injection Hs0 as <-.
  destruct (finger_start_num me s i (view_id R me s Hv) Hi) as [Hid Hnum].
  destruct (dht_getSuccessor_ideal R w me (finger_start s i) depth) as (b & Hb & Hget); [done..|].
  rewrite Hnum in Hb. exists b. split; [done|]. cbn zeta.
  assert (ring_view R me (with_fingers (<[i := Some (nd b)]> (m_fingerTable s)) s)) as Hv'.
  { apply node_view_ring, nv_with_finger; [by apply node_view_ring|apply Hb|]. intros ->.
    apply (responsible_unique R HR _ _ _ (mod_point _) Hb). by apply responsible_next. }
  split_and!; [|done|by eapply ideal_update].
  unfold fixFingers. rewrite (bind_ni _ _ _ _ _ Hs), (bind_Ok _ _ _ _ _ Hget).
  erewrite bind_Ok; [done|]. unfold set_finger_checked. rewrite (bind_ni _ _ _ _ _ Hs).
  rewrite (setFinger_Ok _ _ _ (view_table _ _ _ Hv) Hi), bind_lift_Ok. apply run_update.
Qed.

(** Repeated calls, as the main loop makes them. *)
Fixpoint fixFingers_n (E : PeerEnv World) (n : nat) (i : nat) : M World nat :=
  match n with
  | O => mret i
  | S n => i' ← fixFingers (H0 := E) i; fixFingers_n E n i'
  end.

Lemma right_finger_insert R me i j s b :
  responsible R ((pos me + 2 ^ Z.of_nat i) `mod` ring_size) b → table_ok s → (i < key_bits)%nat →
  (j ≠ i → right_finger R me j s) →
  right_finger R me j (with_fingers (<[i := Some (nd b)]> (m_fingerTable s)) s).
Proof.
  intros Hb Hok Hi Hold. destruct (decide (j = i)) as [->|Hne].
  - exists b. split; [done|]. apply list_lookup_insert_eq. by rewrite Hok.
  - destruct (Hold Hne) as (b' & Hb' & Hl). exists b'. split; [done|].
    cbn. by rewrite list_lookup_insert_ne.
Qed.

Lemma fixFingers_rounds R me depth n : ring_ok R → me ∈ members R →
  (size (members R) + 2 <= fuel)%nat → (size (members R) + 2 <= depth)%nat →
  ∀ w s i, ideal R w → w_nodes w !! me = Some s → (i < key_bits)%nat → (i + n <= key_bits)%nat →
  (∀ j, (j < i)%nat → right_finger R me j s) →
  ∃ t, let w' := w_update me (with_fingers t) w in
    fixFingers_n (env depth me) n i w = (Ok ((i + n) mod key_bits)%nat, w') ∧ ideal R w' ∧
    ∀ j, (j < i + n)%nat → right_finger R me j (with_fingers t s).
Proof.
  intros HR Hme Hf Hd. induction n as [|n IH]; intros w s i Hw Hs Hi Hn Hok.
  { exists (m_fingerTable s). assert (with_fingers (m_fingerTable s) s = s) as E by (by destruct s).
    cbv zeta. rewrite (w_update_id me _ w s Hs E), E, Nat.add_0_r, Nat.mod_small by done. auto. }
  destruct (fixFingers_step R w me s i depth) as (b & Hb & Hfix & Hv' & Hw'); [done..|].
  cbn [fixFingers_n]. rewrite (bind_Ok _ _ _ _ _ Hfix). replace (i + S n)%nat with (i + 1 + n)%nat by lia.
  set (t := <[i := Some (nd b)]> (m_fingerTable s)) in *. set (s' := with_fingers t s) in *.
  pose proof (lookup_update_eq me (λ _, s') w s Hs) as Hs'.
  assert (∀ j, (j < i + 1)%nat → right_finger R me j s') as Hok'.
  { intros j Hj. apply right_finger_insert; [done| |done|intros; apply Hok; lia].
    destruct (Hw me Hme) as (s0 & Hs0 & Hv). rewrite Hs in Hs0. injection Hs0 as <-. apply Hv. }
  assert (∀ t', w_update me (with_fingers t') (w_update me (λ _, s') w) = w_update me (with_fingers t') w) as Htwo.
  { intros t'. unfold w_update. cbn. f_equal. rewrite alter_alter_eq. apply alter_ext. intros s0 Hs0.
    rewrite Hs in Hs0. by injection Hs0 as <-. }
  destruct (decide (i + 1 < key_bits)%nat) as [Hlt|Hge].
  - rewrite (Nat.mod_small (i + 1)) by done. destruct (IH _ s' (i + 1)%nat Hw' Hs') as (t' & Hrun & Hw2 & Hr); [lia|lia|exact Hok'|].
    exists t'. cbv zeta in *. rewrite Htwo in *. done.
  - assert (n = 0%nat) as -> by lia. exists t. rewrite Nat.add_0_r. cbv zeta.
    rewrite (w_update_ext me (with_fingers t) (λ _, s') w s Hs eq_refl). auto.
Qed.

Lemma enter_network_noop R w me nested_wait f depth : ideal R w → me ∈ members R →
  enter_network (H0 := env depth me) nested_wait f w = (Ok tt, w).
Proof.
  intros Hw Hme. destruct (Hw me Hme) as (s & Hs & Hv). unfold enter_network.
  by rewrite (bind_ni _ _ _ _ _ Hs), (view_succ R me s Hv).
Qed.

Lemma main_loop_turn_keeps R w me s nested_wait f cancelled i depth :
  ring_ok R → ideal R w → me ∈ members R → w_nodes w !! me = Some s → (i < key_bits)%nat →
  (size (members R) + 2 <= fuel)%nat → (size (members R) + 2 <= depth)%nat →
  ∃ next goes_on t,
    mainLoop_turn (H0 := env depth me) nested_wait f cancelled i w
      = (Ok (next, goes_on), w_update me (with_fingers t) w) ∧
    (next < key_bits)%nat ∧ ideal R (w_update me (with_fingers t) w).
Proof.
  intros HR Hw Hme Hs Hi Hf Hd. destruct depth as [|depth]; [lia|]. unfold mainLoop_turn.
  assert (ring_view R me s) as Hv.
  { destruct (Hw me Hme) as (s0 & Hs0 & Hv). rewrite Hs in Hs0. by injection Hs0 as <-. }
  assert (w_update me (with_fingers (m_fingerTable s)) w = w) as Hsame.
  { eapply w_update_id; [done|by destruct s]. }
  destruct (cancelled 0%nat); [by exists i, false, (m_fingerTable s); rewrite Hsame|].
  rewrite (bind_Ok _ _ _ _ _ (enter_network_noop R w me _ _ _ Hw Hme)).
  destruct (cancelled 1%nat); [by exists i, false, (m_fingerTable s); rewrite Hsame|].
  rewrite (bind_Ok _ _ _ _ _ (stabilize_noop R w me depth HR Hw Hme)).
  destruct (cancelled 2%nat); [by exists i, false, (m_fingerTable s); rewrite Hsame|].
  destruct (fixFingers_step R w me s i (S depth)) as (b & Hb & Hfix & Hv' & Hw'); [done..|].
  rewrite (bind_Ok _ _ _ _ _ Hfix).
  set (t := <[i := Some (nd b)]> (m_fingerTable s)) in *.
  assert (w_update me (λ _, with_fingers t s) w = w_update me (with_fingers t) w) as Heq
    by (by eapply w_update_ext).
  rewrite Heq in *. assert (((i + 1) mod key_bits < key_bits)%nat) by (by apply Nat.mod_upper_bound).
  destruct (cancelled 3%nat); [by eexists _, _, t|].
  rewrite (bind_Ok _ _ _ _ _ (checkPredecessor_noop R _ me depth HR Hw' Hme)). by eexists _, _, t.
Qed.

(** C11: The main loop keeps an ideal ring. In a network whose members form
    a ring, a turn of any member's main loop (cut short by a cancellation at
    any point or not) ends without an exception, leaves every node but its own
    untouched and its own too except for the finger table, keeps the finger
    index in range and leaves an ideal ring. *)
Theorem main_loop_keeps_ring R w me s nested_wait f cancelled i depth :
  ring_ok R → ideal R w → me ∈ members R → w_nodes w !! me = Some s → (i < key_bits)%nat →
  (size (members R) + 2 <= fuel)%nat → (size (members R) + 2 <= depth)%nat →
  ∃ next goes_on t,
    mainLoop_turn (H0 := env depth me) nested_wait f cancelled i w
      = (Ok (next, goes_on), w_update me (with_fingers t) w) ∧
    (next < key_bits)%nat ∧ ideal R (w_update me (with_fingers t) w).
Proof. apply main_loop_turn_keeps. Qed.

(** Fingers are repaired. In an ideal ring, 256 calls of [fixFingers]
    starting at index 0 return, wrap the index to 0 again and leave every
    finger [i] of the node pointing at the member responsible for
    (id + 2^i) mod 2^256, whatever members the fingers pointed at before;
    nothing but the node's finger table changes. *)
Theorem fingers_repaired R w me s depth :
  ring_ok R → ideal R w → me ∈ members R → w_nodes w !! me = Some s →
  (size (members R) + 2 <= fuel)%nat → (size (members R) + 2 <= depth)%nat →
  ∃ t, let w' := w_update me (with_fingers t) w in
    fixFingers_n (env depth me) key_bits 0 w = (Ok 0%nat, w') ∧ ideal R w' ∧
    ∀ j, (j < key_bits)%nat → right_finger R me j (with_fingers t s).
Proof.
  intros HR Hw Hme Hs Hf Hd.
  destruct (fixFingers_rounds R me depth key_bits HR Hme Hf Hd w s 0) as (t & Hfix & ?);
    [done|done|by vm_compute; lia|done|lia|].
  exists t. cbv zeta. by rewrite Hfix.
Qed.

End Steps.
