(* ===== verification/Growth.v ===== *)
(** * Growth: a node joins the ring

    Theorems on [join], [stabilize], the handover of data and the proof of
    work of src/dht/Dht.cpp and src/dht/Peer.cpp: a node that joins at any
    member of a ring learns its successor, receives the items it is
    responsible for, and after it and its predecessor have stabilised once the
    network is a ring with one more member. *)

From S2P Require Import Prelude Util Ring NodeInfo Message Peer Topology Lookup Network Dht PoW Maintenance.

(** ** notify *)

Section Notify.
Context `{HashFns} `{!HashOk _} (kj_throws : bool) (method : GetSuccessorMethod) (fuel : nat).
Local Abbreviation env := (world_env kj_throws method fuel).
Implicit Types (w : World) (s : NodeInformation) (R : Ring).

(** The node at [a] takes [n] for its predecessor. *)
Definition accepts (n : addr) s : bool :=
  match getPredecessor s with
  | None => true
  | Some pred => is_in_range_loop (aid n) (Node_getId pred) (getId s) false false
  end.

Lemma rpc_notify depth me (a n : addr) w s : w_nodes w !! a = Some s →
  env_rpc (PeerEnv := env (S depth) me) a.1 a.2 (NotifyReq (buildNode (nd n))) w
  = (Ok tt, if accepts n s then w_update a (setPredecessor (Some (nd n))) w else w).
Proof.
  intros Hs. rewrite (world_rpc _ _ _ _ _ _ _ _ _ Hs). cbn [serve]. unfold srv_notify, accepts.
  rewrite nd_roundtrip, (bind_ni _ _ _ _ _ _ _ _ Hs).
  destruct (getPredecessor s) as [pred|]; [|apply run_update].
  rewrite getId_nd. case_match; [apply run_update|done].
Qed.

Lemma notify_peer_world depth me (a : addr) w sme s : w_nodes w !! me = Some sme →
  getNode sme = nd me → w_nodes w !! a = Some s →
  notify_peer (H0 := env (S depth) me) (nd a) w
  = (Ok tt, if accepts me s then w_update a (setPredecessor (Some (nd me))) w else w).
Proof.
  intros Hme Hn Hs. unfold notify_peer. rewrite (bind_ni _ _ _ _ _ _ _ _ Hme), Hn.
  by rewrite (then_Ok _ _ _ _ _ _ (rpc_notify depth me a me w s Hs)).
Qed.

Lemma rpc_pred depth me (a : addr) w s : w_nodes w !! a = Some s →
  env_rpc (PeerEnv := env (S depth) me) a.1 a.2 GetPredecessorReq w
  = (Ok (buildNode_opt (getPredecessor s)), w).
Proof.
  intros Hs. rewrite (world_rpc _ _ _ _ _ _ _ _ _ Hs). cbn [serve]. unfold srv_getPredecessor.
  by rewrite (bind_ni _ _ _ _ _ _ _ _ Hs).
Qed.

(** What [stabilize] does at a node whose successor answers. *)
Lemma stabilize_world depth X me p (q : addr) p' w s sq :
  w_nodes w !! me = Some s → node_view X me p q s →
  w_nodes w !! q = Some sq → getPredecessor sq = Some (nd p') → pos p' ≠ pos me →
  stabilize (H0 := env (S depth) me) w
  = if is_in_range_loop (aid p') (aid me) (aid q) false false
    then (env_update (PeerEnv := env (S depth) me) (setSuccessor (Some (nd p')));;
          notify_peer (H0 := env (S depth) me) (nd p')) w
    else notify_peer (H0 := env (S depth) me) (nd q) w.
Proof.
  intros Hs Hv Hq Hp Hne. unfold stabilize. rewrite (bind_ni _ _ _ _ _ _ _ _ Hs).
  rewrite (nv_succ _ _ _ _ _ Hv). pose proof (rpc_pred depth me q w sq Hq) as Hrpc.
  rewrite Hp in Hrpc.
  erewrite bind_Ok; [|by rewrite (then_Ok _ _ _ _ _ _ Hrpc)]. rewrite (bind_ni _ _ _ _ _ _ _ _ Hs).
  cbn [nodeFromReader_opt buildNode_opt fmap option_fmap option_map].
  rewrite nd_roundtrip, (nv_id _ _ _ _ _ Hv), !getId_nd. rewrite decide_False; [by case_match|].
  intros E. apply Hne. unfold pos. by rewrite E.
Qed.

End Notify.

(** ** Two stabilisations complete a join *)

Section Integrate.
Context `{HashFns} `{!HashOk _} (kj_throws : bool) (method : GetSuccessorMethod) (fuel : nat).
Local Abbreviation env := (world_env kj_throws method fuel).
Context (R R' : Ring) (n q : addr) (HR : ring_ok R) (HR' : ring_ok R').
Context (Hmem : members R' = {[n]} ∪ members R) (Hn : n ∉ members R).
Context (Hq : responsible R (pos n) q).

(** The members form the old ring and the new node knows its successor. *)
Definition joined (w : World) : Prop :=
  ideal R w ∧ ∃ s, w_nodes w !! n = Some s ∧ node_view (members R) n None q s.

Local Lemma q_mem : q ∈ members R.
Proof. apply Hq. Qed.

Local Lemma p_mem : rpred R q ∈ members R.
Proof. apply (ring_pred_mem R HR), q_mem. Qed.

Local Lemma n_ne a : a ∈ members R → n ≠ a.
Proof. intros Ha <-. done. Qed.

Lemma new_between : is_in_range_loop (aid n) (aid (rpred R q)) (aid q) false false = true.
Proof. apply range_pos; [apply aid_ok|]. by apply (insert_between R R' n q HR HR' Hmem Hn Hq). Qed.

(** No old member lies between the new node and its successor. *)
Lemma old_not_after a : a ∈ members R → ¬ in_arc (pos a) (pos n) (pos q) false false.
Proof.
  intros Ha. rewrite <- (insert_succ_new R R' n q HR HR' Hmem Hn Hq) at 1.
  apply (ring_adjacent R' HR'); rewrite Hmem; apply elem_of_union;
    [left; by apply elem_of_singleton|by right].
Qed.

(** First the new node stabilises: its successor learns of it. *)
Lemma stabilize_new depth w : joined w →
  stabilize (H0 := env (S depth) n) w = (Ok tt, w_update q (setPredecessor (Some (nd n))) w).
Proof.
  intros [Hw (s & Hs & Hv)]. destruct (Hw q q_mem) as (sq & Hsq & Hvq).
  erewrite stabilize_world; [|done..|apply (view_pred _ _ _ Hvq)|].
  2: { apply (insert_distinct R R' n HR' Hmem Hn), p_mem. }
  destruct (is_in_range_loop (aid (rpred R q)) (aid n) (aid q) false false) eqn:E.
  - apply range_pos in E; [|apply aid_ok]. destruct (old_not_after _ p_mem E).
  - rewrite (notify_peer_world _ _ _ _ _ _ _ _ _ Hs (nv_node _ _ _ _ _ Hv) Hsq).
    unfold accepts. rewrite (view_pred _ _ _ Hvq), getId_nd, (view_id R q sq Hvq), new_between. done.
Qed.

(** Then the predecessor of the successor does: both new links are set. *)
Lemma stabilize_old depth w : joined w →
  stabilize (H0 := env (S depth) (rpred R q)) (w_update q (setPredecessor (Some (nd n))) w)
  = (Ok tt, w_update n (setPredecessor (Some (nd (rpred R q))))
              (w_update (rpred R q) (setSuccessor (Some (nd n)))
                (w_update q (setPredecessor (Some (nd n))) w))).
Proof.
  intros [Hw (s & Hs & Hv)]. destruct (Hw q q_mem) as (sq & Hsq & Hvq).
  destruct (Hw _ p_mem) as (sp & Hsp & Hvp). set (p := rpred R q) in *.
  set (w1 := w_update q _ w). pose proof (n_ne q q_mem) as Hnq. pose proof (n_ne p p_mem) as Hnp.
  assert (w_nodes w1 !! q = Some (setPredecessor (Some (nd n)) sq)) as Hsq1
    by (by apply lookup_update_eq).
  assert (∃ p' sp1, w_nodes w1 !! p = Some sp1 ∧ node_view (members R) p p' q sp1) as (p' & sp1 & Hsp1 & Hvp1).
  { apply node_view_ring in Hvp. unfold p in Hvp at 3. rewrite (ring_succ_pred R HR q q_mem) in Hvp.
    destruct (decide (q = p)) as [Heq|Hne].
    - exists (Some n), (setPredecessor (Some (nd n)) sp). rewrite <- Heq in Hsp |- *. split; [by apply lookup_update_eq|].
      rewrite Heq at 1. by eapply nv_setPredecessor.
    - exists (Some (rpred R p)), sp. split; [|done]. unfold w1. by rewrite lookup_update_ne. }
  erewrite stabilize_world; [|done..| |]; [|done|].
  2: { apply not_eq_sym, (insert_distinct R R' n HR' Hmem Hn), p_mem. }
  pose proof new_between as Hnb. fold p in Hnb. rewrite Hnb, bind_update.
  assert (w_nodes (w_update p (setSuccessor (Some (nd n))) w1) !! n = Some s) as Hs2.
  { rewrite lookup_update_ne by done. unfold w1. by rewrite lookup_update_ne. }
  erewrite notify_peer_world; [|by apply lookup_update_eq| |done]; [|apply Hvp1].
  unfold accepts. by rewrite (nv_pred _ _ _ _ _ Hv).
Qed.

(** The result is the new ring. *)
Lemma integrated w : joined w →
  ideal R' (w_update n (setPredecessor (Some (nd (rpred R q))))
             (w_update (rpred R q) (setSuccessor (Some (nd n)))
               (w_update q (setPredecessor (Some (nd n))) w))).
Proof.
  intros [Hw (s & Hs & Hv)] a Ha. set (p := rpred R q) in *.
  pose proof (n_ne q q_mem) as Hnq. pose proof (n_ne p p_mem) as Hnp.
  assert (members R ⊆ members R') as Hsub by (rewrite Hmem; apply union_subseteq_r).
  rewrite Hmem in Ha. apply elem_of_union in Ha as [->%elem_of_singleton|Ha].
  - exists (setPredecessor (Some (nd p)) s). split.
    + apply lookup_update_eq. rewrite !lookup_update_ne by done. done.
    + apply node_view_ring. rewrite (insert_pred_new R R' n q HR HR' Hmem Hn Hq).
      rewrite (insert_succ_new R R' n q HR HR' Hmem Hn Hq).
      eapply nv_mono, nv_setPredecessor; [done|done].
  - destruct (Hw a Ha) as (sa & Hsa & Hva). pose proof (n_ne a Ha) as Hna.
    rewrite lookup_update_ne by done. apply node_view_ring in Hva.
    assert (∃ s1, w_nodes (w_update q (setPredecessor (Some (nd n))) w) !! a = Some s1 ∧
      node_view (members R') a (Some (rpred R' a)) (rsucc R a) s1) as (s1 & Hs1 & Hv1).
    { apply (nv_mono _ _ _ _ _ _ Hsub) in Hva. destruct (decide (q = a)) as [<-|Hqa].
      - rewrite (insert_pred_old R R' n q HR HR' Hmem Hn Hq).
        eexists. split; [by apply lookup_update_eq|]. by eapply nv_setPredecessor.
      - rewrite (insert_pred_other R R' n q) by done.
        rewrite lookup_update_ne by done. eauto. }
    destruct (decide (p = a)) as [<-|Hpa].
    + eexists. split; [by apply lookup_update_eq|]. apply node_view_ring.
      unfold p at 3. rewrite (insert_succ_old R R' n q HR HR' Hmem Hn Hq).
      eapply nv_setSuccessor; [done|]. rewrite Hmem. apply elem_of_union. left. by apply elem_of_singleton.
    + exists s1. rewrite lookup_update_ne by done. split; [done|]. apply node_view_ring.
      by rewrite (insert_succ_other R R' n q).
Qed.

End Integrate.

(** ** join *)

Section Join.
Context `{HashFns} `{!HashOk _} (kj_throws : bool) (method : GetSuccessorMethod) (fuel : nat).
Local Abbreviation env := (world_env kj_throws method fuel).
Implicit Types (w : World) (s : NodeInformation) (R : Ring) (n : addr).

(** A node that has not entered a network: its finger table is empty. *)
Definition outside n s : Prop :=
  getNode s = nd n ∧ m_fingerTable s = replicate key_bits None.

Lemma ideal_outside R w n f : ideal R w → n ∉ members R → ideal R (w_update n f w).
Proof.
  intros Hw Hn a Ha. destruct (Hw a Ha) as (s & Hs & Hv). exists s. split; [|done].
  rewrite lookup_update_ne; [done|]. by intros <-.
Qed.

Lemma joined_outside R w n (q : addr) s : ideal R w → n ∉ members R → q ∈ members R →
  w_nodes w !! n = Some s → outside n s →
  joined R n q (w_update n (setSuccessor (Some (nd q))) (w_update n (setPredecessor None) w)).
Proof.
  intros Hw Hn Hq Hs [Hnode Htab]. split; [by repeat apply ideal_outside|].
  exists (setSuccessor (Some (nd q)) (setPredecessor None s)). split.
  { by do 2 apply lookup_update_eq. }
  constructor; [done| |done|..].
  - unfold table_ok; cbn. by rewrite length_insert, Htab, length_replicate.
  - cbn. rewrite Htab. apply list_lookup_insert_eq. rewrite length_replicate. by vm_compute; lia.
  - cbn. rewrite Htab. intros j x Hj. apply list_lookup_insert_Some in Hj as [(_ & [= <-] & _)|[_ Hj]]; [by eauto|].
    by apply lookup_replicate in Hj as [? _].
Qed.

Lemma rpc_puzzle depth me (b n : addr) w s : w_nodes w !! b = Some s →
  env_rpc (PeerEnv := env (S depth) me) b.1 b.2 (GetPoWPuzzleOnJoinReq (buildNode (nd n))) w
  = (Ok (host_port n.1 n.2, getDifficulty (w_statics w)), w).
Proof.
  intros Hs. rewrite (world_rpc _ _ _ _ _ _ _ _ _ Hs). cbn [serve]. unfold srv_getPoWPuzzleOnJoin.
  by rewrite nd_roundtrip, bind_statics.
Qed.

Lemma rpc_solution R depth me (b n : addr) w response hash : ring_ok R → ideal R w → b ∈ members R →
  pow_accepts (w_statics w) (buildNode (nd n)) response hash = true →
  (size (members R) + 2 <= fuel)%nat → (size (members R) + 2 <= depth)%nat →
  ∃ q, responsible R (pos n) q ∧
    env_rpc (PeerEnv := env depth me) b.1 b.2
      (SendPoWPuzzleResponseReq (buildNode (nd n)) response hash) w
    = (Ok (Some (Some (buildNode (nd q)))), w).
Proof.
  intros HR Hw Hb Hacc Hf Hd. destruct depth as [|depth]; [lia|].
  destruct (Hw b Hb) as (s & Hs & Hv). pose proof (closer_bound R (be_num (aid n)) b).
  destruct (lookup_ideal kj_throws method fuel R w (aid n) b depth HR Hw Hb (aid_ok n)) as (q & Hq & Hget);
    [lia..|].
  exists q. split; [done|]. rewrite (world_rpc _ _ _ _ _ _ _ _ _ Hs). cbn [serve].
  rewrite (srv_pow_cases _ _ _ _ (w_statics w)) by (by destruct depth).
  rewrite Hacc. fold (aid n). change (addr_id _ _) with (aid n). by rewrite (bind_Ok _ _ _ _ _ Hget).
Qed.

Lemma digest_not_empty response hash : pow_digest response = Ok hash → hash ≠ "".
Proof.
  intros Hdig ->. destruct (pow_digest_bits response) as (d & Hd & Hbits). rewrite Hdig in Hd.
  injection Hd as <-. apply (f_equal length) in Hbits. rewrite length_bits in Hbits.
  by rewrite (proj2 (sha1_ok _)) in Hbits.
Qed.

(** [join] waits for the items inside a continuation. KJ documents that it
    refuses such a wait, which then throws: [Some what]. The request has not left
    then, since the connection of its new client is not set up (Rpc.v). With
    [None] the wait is carried out. *)
Definition kj_wait {W} (refusal : option string) (m : M W unit) : M W unit :=
  match refusal with None => m | Some what => throw what end.

(** How [join] ends. *)
Definition wait_outcome (refusal : option string) : outcome unit :=
  match refusal with None => Ok tt | Some what => Exn what end.

(** Everything of [join] up to fetching the items. *)
Lemma join_world R w n (b : addr) s nested_wait pfuel solution depth :
  ring_ok R → ideal R w → b ∈ members R → n ∉ members R →
  w_nodes w !! n = Some s → outside n s →
  solve_puzzle pfuel 0 (host_port n.1 n.2) (getDifficulty (w_statics w)) = Ok solution →
  (size (members R) + 2 <= fuel)%nat → (size (members R) + 2 <= depth)%nat →
  ∃ q, responsible R (pos n) q ∧
    let w1 := w_update n (setSuccessor (Some (nd q))) (w_update n (setPredecessor None) w) in
    joined R n q w1 ∧
    join (H0 := env depth n) nested_wait pfuel (nd b) w
    = nested_wait (getDataItemsOnJoinHelper (H0 := env depth n) (Some (nd q))) w1.
Proof.
  intros HR Hw Hb Hn Hs Hout Hsolve Hf Hd. destruct solution as [response hash].
  set (w0 := w_update n (setPredecessor None) w).
  assert (ideal R w0) as Hw0 by (by apply ideal_outside).
  assert (w_nodes w0 !! n = Some (setPredecessor None s)) as Hs0 by (by apply lookup_update_eq).
  pose proof (pow_accepts_solution (w_statics w) pfuel (buildNode (nd n)) _ _ Hsolve) as Hacc.
  destruct (rpc_solution R depth n b n w0 response hash) as (q & Hq & Hrpc); [done..|].
  exists q. split; [done|]. cbn zeta. split; [by apply (joined_outside R w n q s); [..|apply Hq| |]|].
  unfold join. rewrite bind_update. fold w0. rewrite (bind_ni _ _ _ _ _ _ _ _ Hs0).
  change (getNode (setPredecessor None s)) with (getNode s). rewrite (proj1 Hout).
  destruct (Hw0 b Hb) as (sb & Hsb & _). destruct depth as [|depth]; [lia|].
  rewrite (then_Ok _ _ _ _ _ _ (rpc_puzzle depth n b n w0 sb Hsb)). cbn [fst snd].
  change (w_statics w0) with (w_statics w). rewrite Hsolve, bind_lift_Ok. cbn [fst snd].
  apply solve_puzzle_sound in Hsolve as (j & _ & _ & Hdig & _).
  rewrite decide_False by (by eapply digest_not_empty). rewrite (bind_ni _ _ _ _ _ _ _ _ Hs0).
  change (getNode (setPredecessor None s)) with (getNode s). rewrite (proj1 Hout).
  rewrite (then_Ok _ _ _ _ _ _ Hrpc). unfold join_answer. rewrite bind_update.
  cbn [nodeFromReader_opt fmap option_fmap option_map]. rewrite nd_roundtrip.
  erewrite bind_ni by (by apply lookup_update_eq). rewrite getSuccessor_setSuccessor; [done|].
  unfold table_ok; cbn. by rewrite (proj2 Hout), length_replicate.
Qed.

End Join.

(** ** The handover of data *)

Section Handover.
Context `{HashFns} `{!HashOk _} (kj_throws : bool) (method : GetSuccessorMethod) (fuel : nat).
Local Abbreviation env := (world_env kj_throws method fuel).
Abbreviation items_type := (list (list Z * (list Z * Z))).
Implicit Types (w : World) (s : NodeInformation) (items : items_type).

(** What arrives of an item: its expiry in whole seconds. *)
Definition floor_s (e : Z) : Z := e - e `mod` ns_per_s.

Definition absorb items (m : data_type) : data_type :=
  fold_left (λ m kv, <[kv.1 := (kv.2.1, floor_s kv.2.2)]> m) items m.

Definition to_wire (kv : list Z * (list Z * Z)) : DataItem :=
  mkDataItem kv.1 kv.2.1 (expires_to_wire kv.2.2).

(** No expiry before the epoch. *)
Definition expiries_ok items : Prop := Forall (λ kv, 0 <= kv.2.2 <= time_max) items.

Lemma absorb_other items m k : k ∉ items.*1 → absorb items m !! k = m !! k.
Proof.
  revert m. induction items as [|kv items IH]; intros m Hk; [done|]. cbn in *.
  apply not_elem_of_cons in Hk as [Hne Hk]. unfold absorb in IH. rewrite IH by done.
  by rewrite lookup_insert_ne.
Qed.

Lemma absorb_at items m k v e : NoDup items.*1 → (k, (v, e)) ∈ items →
  absorb items m !! k = Some (v, floor_s e).
Proof.
  revert m. induction items as [|kv items IH]; intros m Hnd Hin; [by apply elem_of_nil in Hin|].
  cbn in Hnd. apply NoDup_cons in Hnd as [Hk Hnd]. cbn.
  apply elem_of_cons in Hin as [<-|Hin]; [|by apply (IH _ Hnd Hin)].
  fold (absorb items (<[k := (v, floor_s e)]> m)). rewrite absorb_other by done. apply lookup_insert_eq.
Qed.

Lemma store_items_world depth (me : addr) w s items : w_nodes w !! me = Some s → expiries_ok items →
  store_items (H0 := env depth me) (to_wire <$> items) w
  = (Ok tt, w_update me (λ s, with_data (absorb items (m_data s)) s) w).
Proof.
  intros Hs Hok. revert w s Hs. induction Hok as [|[k [v e]] items He Hok IH]; intros w s Hs.
  { cbn. f_equal. symmetry. eapply w_update_id; [done|by destruct s]. }
  cbn [fmap list_fmap store_items to_wire di_key di_data di_expires fst snd].
  cbn in He. rewrite expires_wire_value, bind_lift_Ok, bind_update by done. erewrite IH; [|by apply lookup_update_eq].
  f_equal. unfold w_update; cbn. f_equal. rewrite alter_alter_eq. by apply alter_ext.
Qed.

Lemma rpc_items X depth me (q n p q' : addr) w s : w_nodes w !! q = Some s →
  node_view X q (Some p) q' s → in_arc (pos n) (pos p) (pos q) false false →
  let items := std_items (getDataItemsForNodeId (nd n) s) in
  env_rpc (PeerEnv := env (S depth) me) q.1 q.2 (GetDataItemsOnJoinReq (buildNode (nd n))) w
  = (Ok (to_wire <$> items), w_update q (deleteDataAssignedToPredecessor items.*1) w).
Proof.
  intros Hs Hv Hin. rewrite (world_rpc _ _ _ _ _ _ _ _ _ Hs). cbn [serve]. unfold srv_getDataItemsOnJoin.
  rewrite nd_roundtrip, (bind_ni _ _ _ _ _ _ _ _ Hs), (nv_pred _ _ _ _ _ Hv), (nv_id _ _ _ _ _ Hv).
  cbn [fmap option_fmap option_map]. rewrite !getId_nd.
  rewrite (proj2 (range_pos (aid n) p q false false (aid_ok n)) Hin). cbn [negb].
  by rewrite bind_update.
Qed.

(** The items of [s] that go to a new predecessor [n]. *)
Lemma items_for_new X (q n p q' : addr) s k v e : node_view X q (Some p) q' s →
  getDataItemsForNodeId (nd n) s !! k = Some (v, e) ↔
  m_data s !! k = Some (v, e) ∧ in_arc (be_num (sha256 k)) (pos p) (pos n) false true.
Proof.
  intros Hv. unfold getDataItemsForNodeId. rewrite (nv_pred _ _ _ _ _ Hv). cbn [fmap option_fmap option_map].
  rewrite map_lookup_filter_Some, !getId_nd. cbn [fst].
  by rewrite range_pos by apply sha256_ok.
Qed.

(** One key before and after the handover from [sq] to [sn], when exactly the
    items that satisfy [P] go. *)
Definition handed (P : Prop) (sq sn sq' sn' : NodeInformation) (k : list Z) : Prop :=
  match m_data sq !! k with
  | Some (v, e) =>
      (P → m_data sq' !! k = None ∧ m_data sn' !! k = Some (v, floor_s e)) ∧
      (¬ P → m_data sq' !! k = Some (v, e) ∧ m_data sn' !! k = m_data sn !! k)
  | None => m_data sq' !! k = None ∧ m_data sn' !! k = m_data sn !! k
  end.

Lemma handed_items X (q n p q' : addr) s sn k : node_view X q (Some p) q' s →
  let items := std_items (getDataItemsForNodeId (nd n) s) in
  handed (in_arc (be_num (sha256 k)) (pos p) (pos n) false true) s sn (deleteDataAssignedToPredecessor items.*1 s)
    (with_data (absorb items (m_data sn)) sn) k.
Proof.
  intros Hv items. assert (∀ v e, (k, (v, e)) ∈ items ↔ m_data s !! k = Some (v, e) ∧
    in_arc (be_num (sha256 k)) (pos p) (pos n) false true) as Hitems.
  { intros v e. unfold items. by rewrite elem_of_std_items, items_for_new by done. }
  assert (k ∈ items.*1 ↔ ∃ v e, (k, (v, e)) ∈ items) as Hkeys.
  { rewrite list_elem_of_fmap. split; [intros ([k' [v e]] & -> & ?); eauto|]. intros (v & e & ?). by exists (k, (v, e)). }
  assert (k ∉ items.*1 → absorb items (m_data sn) !! k = m_data sn !! k) as Hstay by apply absorb_other.
  unfold handed, deleteDataAssignedToPredecessor. cbn [m_data with_data]. rewrite fold_delete_lookup.
  destruct (m_data s !! k) as [[v e]|] eqn:E.
  - split; intros Harc.
    + assert ((k, (v, e)) ∈ items) as Hin by (by apply Hitems).
      rewrite decide_True by (apply Hkeys; eauto). split; [done|].
      apply absorb_at; [apply NoDup_std_items|done].
    + assert (k ∉ items.*1) as Hno.
      { rewrite Hkeys. intros (v' & e' & Hin). by apply Hitems in Hin as [_ ?]. }
      rewrite decide_False by done. auto.
  - assert (k ∉ items.*1) as Hno.
    { rewrite Hkeys. intros (v' & e' & Hin). by apply Hitems in Hin as [? _]. }
    rewrite decide_False by done. auto.
Qed.

Lemma expiries_sub X (q n p q' : addr) s : node_view X q (Some p) q' s →
  (∀ k v e, m_data s !! k = Some (v, e) → 0 <= e <= time_max) →
  expiries_ok (std_items (getDataItemsForNodeId (nd n) s)).
Proof.
  intros Hv Hok. apply Forall_forall. intros [k [v e]] Hin. apply elem_of_std_items in Hin. cbn.
  eapply Hok. by apply (items_for_new _ _ _ _ _ _ _ _ _ Hv) in Hin as [? _].
Qed.

(** A handover from [q] to [n] leaves everything else as it is. *)
Definition handover_frame (n q : addr) sq sq' w w' : Prop :=
  w_statics w' = w_statics w ∧ m_data sq' ⊆ m_data sq ∧
  ∀ a, a ≠ n → a ≠ q → w_nodes w' !! a = w_nodes w !! a.

(** The end of a join: the successor hands over the items between its old and
    its new predecessor. *)
Lemma handover_world R (n q : addr) w sq sn depth : n ∉ members R → q ∈ members R →
  joined R n q w → in_arc (pos n) (pos (rpred R q)) (pos q) false false →
  w_nodes w !! q = Some sq → w_nodes w !! n = Some sn →
  (∀ k v e, m_data sq !! k = Some (v, e) → 0 <= e <= time_max) →
  ∃ w' sq' sn', getDataItemsOnJoinHelper (H0 := env (S depth) n) (Some (nd q)) w = (Ok tt, w') ∧
    joined R n q w' ∧ w_nodes w' !! q = Some sq' ∧ w_nodes w' !! n = Some sn' ∧
    (∀ k, handed (in_arc (be_num (sha256 k)) (pos (rpred R q)) (pos n) false true) sq sn sq' sn' k) ∧
    handover_frame n q sq sq' w w'.
Proof.
  intros Hn Hq [Hw (s & Hs & Hv)] Harc Hsq Hsn Hexp. rewrite Hs in Hsn. injection Hsn as ->.
  assert (node_view (members R) q (Some (rpred R q)) (rsucc R q) sq) as Hvq.
  { destruct (Hw q Hq) as (s0 & Hs0 & Hv0). rewrite Hsq in Hs0. injection Hs0 as <-.
    by apply node_view_ring. }
  assert (q ≠ n) as Hne by (by intros ->).
  pose proof (rpc_items (members R) depth n q n _ _ w sq Hsq Hvq Harc) as Hrpc. cbn zeta in Hrpc.
  set (items := std_items (getDataItemsForNodeId (nd n) sq)) in *.
  set (w1 := w_update q _ w) in Hrpc.
  assert (w_nodes w1 !! n = Some sn) as Hs1 by (unfold w1; by rewrite lookup_update_ne).
  assert (w_nodes w1 !! q = Some (deleteDataAssignedToPredecessor items.*1 sq)) as Hsq1
    by (by apply lookup_update_eq).
  set (w2 := w_update n (λ s, with_data (absorb items (m_data s)) s) w1).
  exists w2, (deleteDataAssignedToPredecessor items.*1 sq), (with_data (absorb items (m_data sn)) sn).
  assert (w_nodes w2 !! n = Some (with_data (absorb items (m_data sn)) sn)) as Hs2
    by (by apply (lookup_update_eq n (λ s, with_data (absorb items (m_data s)) s))).
  split_and!; [| |unfold w2; by rewrite lookup_update_ne|done| |].
  - unfold getDataItemsOnJoinHelper. rewrite (bind_ni _ _ _ _ _ _ _ _ Hs), (nv_node _ _ _ _ _ Hv).
    rewrite (then_Ok _ _ _ _ _ _ Hrpc). eapply store_items_world; [done|].
    by eapply expiries_sub.
  - split; [|eexists; split; [done|by apply nv_with_data]].
    apply ideal_outside; [|done]. eapply ideal_update; [done|done|]. intros Hv0.
    apply node_view_ring in Hv0. apply node_view_ring. by apply nv_with_data.
  - intros k. by eapply handed_items.
  - split_and!; [done| |intros; unfold w2, w1; by rewrite !lookup_update_ne].
    apply map_subseteq_spec. intros k v. cbn. rewrite fold_delete_lookup. by case_decide.
Qed.

End Handover.

(** ** Joining *)

Section JoinTheorems.
Context `{HashFns} `{!HashOk _} (kj_throws : bool) (method : GetSuccessorMethod) (fuel : nat).
Local Abbreviation env := (world_env kj_throws method fuel).
Implicit Types (w : World) (s : NodeInformation) (X : gset addr) (n : addr).

Lemma spread_union X n : spread ({[n]} ∪ X) → spread X.
Proof. intros Hs a b Ha Hb. apply Hs; apply elem_of_union; by right. Qed.

(** Stored expiries are not before the epoch. *)
Definition data_ok X w : Prop :=
  ∀ a s k v e, a ∈ X → w_nodes w !! a = Some s → m_data s !! k = Some (v, e) → 0 <= e <= time_max.

Lemma join_handover X n (b : addr) w s pfuel solution depth :
  spread ({[n]} ∪ X) → n ∉ X → b ∈ X → ideal (ring_of X) w → data_ok X w →
  w_nodes w !! n = Some s → outside n s →
  solve_puzzle pfuel 0 (host_port n.1 n.2) (getDifficulty (w_statics w)) = Ok solution →
  (size X + 2 <= fuel)%nat → (size X + 2 <= depth)%nat →
  ∃ w' q sq sq' sn', responsible (ring_of X) (pos n) q ∧
    join (H0 := env depth n) (kj_wait None) pfuel (nd b) w = (Ok tt, w') ∧ joined (ring_of X) n q w' ∧
    w_nodes w !! q = Some sq ∧ w_nodes w' !! q = Some sq' ∧ w_nodes w' !! n = Some sn' ∧
    (∀ k, handed (responsible (ring_of ({[n]} ∪ X)) (be_num (sha256 k)) n) sq s sq' sn' k) ∧
    handover_frame n q sq sq' w w'.
Proof.
  intros Hsp Hn Hb Hw Hdata Hs Hout Hsolve Hf Hd.
  pose proof (ring_of_ok X (spread_union X n Hsp)) as HR. pose proof (ring_of_ok _ Hsp) as HR'.
  destruct (join_world kj_throws method fuel (ring_of X) w n b s (kj_wait None) pfuel solution depth)
    as (q & Hq & Hj & Hjoin); [done..|].
  set (w1 := w_update n (setSuccessor (Some (nd q))) (w_update n (setPredecessor None) w)) in *.
  assert (q ≠ n) as Hne by (intros ->; by destruct Hq).
  destruct (Hw q (proj1 Hq)) as (sq & Hsq & _).
  assert (w_nodes w1 !! q = Some sq) as Hsq1 by (unfold w1; by rewrite !lookup_update_ne).
  assert (w_nodes w1 !! n = Some (setSuccessor (Some (nd q)) (setPredecessor None s))) as Hs1
    by (by do 2 apply lookup_update_eq).
  destruct depth as [|depth]; [lia|].
  edestruct (handover_world kj_throws method fuel (ring_of X) n q w1 sq)
    as (w' & sq' & sn' & Hget & Hj' & Hq' & Hn' & Hk & Hst & Hsub & Hrest); [done|apply Hq|done| |done|done|intros k v e; by apply (Hdata q sq k v e (proj1 Hq))|].
  { by apply (insert_between (ring_of X) (ring_of ({[n]} ∪ X)) n q). }
  exists w', q, sq, sq', sn'. rewrite Hjoin. split_and!; [done..| |].
  2: { split_and!; [done..|]. intros a Han Haq. rewrite Hrest by done. unfold w1. by rewrite !lookup_update_ne. }
  intros k. specialize (Hk k).
  rewrite <- (insert_pred_new (ring_of X) (ring_of ({[n]} ∪ X)) n q) in Hk by done.
  unfold handed in *. destruct (m_data sq !! k) as [[v e]|]; [|done].
  rewrite (responsible_arc _ HR') in Hk; [done|apply be_num_point, sha256_ok|].
  apply elem_of_union. left. by apply elem_of_singleton.
Qed.

(** When the wait is refused, the join ends with the new successor and nothing
    else. *)
Lemma join_refused X n (b : addr) w s what pfuel solution depth :
  spread ({[n]} ∪ X) → n ∉ X → b ∈ X → ideal (ring_of X) w →
  w_nodes w !! n = Some s → outside n s →
  solve_puzzle pfuel 0 (host_port n.1 n.2) (getDifficulty (w_statics w)) = Ok solution →
  (size X + 2 <= fuel)%nat → (size X + 2 <= depth)%nat →
  ∃ q, responsible (ring_of X) (pos n) q ∧
    let w' := w_update n (setSuccessor (Some (nd q))) (w_update n (setPredecessor None) w) in
    join (H0 := env depth n) (kj_wait (Some what)) pfuel (nd b) w = (Exn what, w') ∧ joined (ring_of X) n q w'.
Proof.
  intros Hsp Hn Hb Hw Hs Hout Hsolve Hf Hd. pose proof (ring_of_ok X (spread_union X n Hsp)) as HR.
  destruct (join_world kj_throws method fuel (ring_of X) w n b s (kj_wait (Some what)) pfuel solution depth)
    as (q & Hq & Hj & Hjoin); [done..|]. exists q. by split_and!.
Qed.

(** C7: What a join hands over. A node joins a ring at any member and its puzzle
    is solved. If KJ carries out the wait inside the continuation, [join] returns
    and hands over exactly the new member's items: for every key the successor
    holds, if the new node is responsible for it in the enlarged ring, the item
    moves to the new node (value unchanged, expiry rounded down to the second)
    and is gone at the successor; otherwise it stays where it is; no item is lost
    or stored twice. If KJ refuses that wait, as it documents, [join] throws and
    no item moves: the new node knows its successor and has the items it had,
    every other node is as it was. *)
Theorem join_hands_over_its_items X n (b : addr) w s refusal pfuel solution depth :
  spread ({[n]} ∪ X) → n ∉ X → b ∈ X → ideal (ring_of X) w → data_ok X w →
  w_nodes w !! n = Some s → outside n s →
  solve_puzzle pfuel 0 (host_port n.1 n.2) (getDifficulty (w_statics w)) = Ok solution →
  (size X + 2 <= fuel)%nat → (size X + 2 <= depth)%nat →
  ∃ w' q sq sq' sn', responsible (ring_of X) (pos n) q ∧
    join (H0 := env depth n) (kj_wait refusal) pfuel (nd b) w = (wait_outcome refusal, w') ∧
    w_nodes w !! q = Some sq ∧ w_nodes w' !! q = Some sq' ∧ w_nodes w' !! n = Some sn' ∧ getSuccessor sn' = Some (nd q) ∧
    match refusal with
    | None => (∀ k, handed (responsible (ring_of ({[n]} ∪ X)) (be_num (sha256 k)) n) sq s sq' sn' k) ∧
        ∀ a, a ≠ n → a ≠ q → w_nodes w' !! a = w_nodes w !! a
    | Some _ => m_data sn' = m_data s ∧ ∀ a, a ≠ n → w_nodes w' !! a = w_nodes w !! a
    end.
Proof.
  intros Hsp Hn Hb Hw Hdata Hs Hout Hsol Hf Hd. destruct refusal as [what|].
  - destruct (join_refused X n b w s what pfuel solution depth) as (q & Hq & Hjoin & _); [done..|].
    assert (q ≠ n) as Hne by (intros ->; by destruct Hq). destruct (Hw q (proj1 Hq)) as (sq & Hsq & _).
    do 2 eexists. exists sq, sq. eexists. split_and!; [done|exact Hjoin|done|by rewrite !lookup_update_ne
      |by do 2 apply lookup_update_eq| |done|intros; by rewrite !lookup_update_ne].
    apply getSuccessor_setSuccessor. unfold table_ok; cbn. by rewrite (proj2 Hout), length_replicate.
  - edestruct (join_handover X n b w s) as (w' & q & sq & sq' & sn' & Hq & Hjoin & [_ (sn & Hsn & Hv)] & Hsq & Hsq' & Hsn' & Hk & _ & _ & Hrest); [done..|].
    exists w', q, sq, sq', sn'. rewrite Hsn in Hsn'. injection Hsn' as ->. split_and!; try done. by eapply nv_succ.
Qed.

(** A join is completed by two stabilisations. When a node joins a ring
    at any member (and KJ carries out its nested wait), then stabilises, and then its predecessor in the enlarged
    ring stabilises, all three return and the network is an ideal ring of the
    enlarged member set: every member, the new one included, has the right
    neighbours. *)
Theorem join_then_stabilize X n (b : addr) w s pfuel solution depth :
  spread ({[n]} ∪ X) → n ∉ X → b ∈ X → ideal (ring_of X) w → data_ok X w →
  w_nodes w !! n = Some s → outside n s →
  solve_puzzle pfuel 0 (host_port n.1 n.2) (getDifficulty (w_statics w)) = Ok solution →
  (size X + 2 <= fuel)%nat → (size X + 2 <= depth)%nat →
  ∃ w', (join (H0 := env depth n) (kj_wait None) pfuel (nd b);;
         stabilize (H0 := env depth n);;
         stabilize (H0 := env depth (rpred (ring_of ({[n]} ∪ X)) n))) w = (Ok tt, w') ∧
    ideal (ring_of ({[n]} ∪ X)) w'.
Proof.
  intros Hsp Hn Hb Hw Hdata Hs Hout Hsolve Hf Hd.
  pose proof (ring_of_ok X (spread_union X n Hsp)) as HR. pose proof (ring_of_ok _ Hsp) as HR'.
  edestruct (join_handover X n b w s) as (w1 & q & sq & sq' & sn' & Hq & Hjoin & Hj & _); [done..|].
  destruct depth as [|depth]; [lia|]. rewrite (bind_Ok _ _ _ _ _ Hjoin).
  pose proof (stabilize_new kj_throws method fuel (ring_of X) _ n q HR HR' eq_refl Hn Hq depth w1 Hj) as Hst.
  rewrite (bind_Ok _ _ _ _ _ Hst), (insert_pred_new (ring_of X) (ring_of ({[n]} ∪ X)) n q) by done.
  pose proof (stabilize_old kj_throws method fuel (ring_of X) _ n q HR HR' eq_refl Hn Hq depth w1 Hj) as Hst'.
  rewrite Hst'. eexists. split; [done|]. by apply integrated.
Qed.

End JoinTheorems.
