(* ===== verification/Failure.v ===== *)
(** * Failure: dead and dishonest peers

    Theorems on the behaviour of src/dht/Peer.cpp and src/dht/Dht.cpp outside
    an ideal ring: what a notification can change, how a dead predecessor and
    a dead successor are dropped, how one dishonest peer keeps a lookup from
    ever returning, and how a dead finger before the successor makes a lookup
    answer with the wrong member. *)

From S2P Require Import Prelude Util Ring NodeInfo Message Peer Topology Lookup Network Dht PoW Maintenance Growth.

Section Failure.
Context `{HashFns} `{!HashOk _} (kj_throws : bool) (method : GetSuccessorMethod) (fuel : nat).
Local Abbreviation env := (world_env kj_throws method fuel).
Implicit Types (w : World) (s : NodeInformation) (a n p q me : addr).

(** A notification only moves the predecessor closer. For a node [a]
    whose predecessor is [p], a notification by [n] is answered; it makes [n]
    the predecessor exactly when [n] lies strictly between [p] and [a] on the
    ring (anywhere but on [a] when [p] is [a] itself), and otherwise changes
    nothing; a node without a predecessor takes any. *)
Theorem notify_moves_predecessor_closer depth me a n w s (p : option addr) :
  w_nodes w !! a = Some s → getNode s = nd a → getPredecessor s = nd <$> p →
  let closer := match p with
                | Some p => in_arc (pos n) (pos p) (pos a) false false
                | None => True
                end in
  ∃ w', env_rpc (PeerEnv := env (S depth) me) a.1 a.2 (NotifyReq (buildNode (nd n))) w = (Ok tt, w') ∧
    (closer → w' = w_update a (setPredecessor (Some (nd n))) w) ∧ (¬ closer → w' = w).
Proof.
  intros Hs Hn Hp closer. rewrite (rpc_notify _ _ _ _ _ _ _ _ _ Hs). eexists. split; [done|].
  assert (accepts n s = true ↔ closer) as Hiff.
  { unfold accepts, closer. rewrite Hp. destruct p as [p|]; [|done]. cbn [fmap option_fmap option_map].
    rewrite getId_nd. unfold getId. fold (getNode s). rewrite Hn, getId_nd. by rewrite range_pos by apply aid_ok. }
  destruct (accepts n s); [|split; [intros Hc; by apply Hiff in Hc|done]].
  split; [done|]. intros Hc. by destruct Hc; apply Hiff.
Qed.

(** A dead predecessor is dropped. [checkPredecessor] at a node with
    predecessor [p] returns; it removes the predecessor exactly when no node
    listens at [p]'s address and otherwise changes nothing. *)
Theorem checkPredecessor_drops_dead depth me p w s :
  w_nodes w !! me = Some s → getPredecessor s = Some (nd p) →
  checkPredecessor (H0 := env (S depth) me) w
  = (Ok tt, match w_nodes w !! p with
            | Some _ => w
            | None => w_update me (setPredecessor None) w
            end).
Proof.
  intros Hs Hp. unfold checkPredecessor. rewrite (bind_ni _ _ _ _ _ _ _ _ Hs), Hp.
  change (m_ip (nd p)) with p.1. change (m_port (nd p)) with p.2.
  destruct (w_nodes w !! p) as [sp|] eqn:E.
  - by rewrite (then_Ok _ _ _ _ _ _ (rpc_pred _ _ _ _ _ _ _ _ E)).
  - rewrite (then_Exn _ _ _ _ _ _ (world_rpc_absent _ _ _ _ _ _ _ _ E)). apply run_update.
Qed.

(** An identifier up to a dead successor is not found. *)
Lemma lookup_dead depth me (p : option addr) (q : addr) w s id :
  w_nodes w !! me = Some s → getNode s = nd me → getPredecessor s = nd <$> p → getSuccessor s = Some (nd q) →
  id_ok id → in_arc (be_num id) (pos me) (pos q) false true →
  (∀ p', p = Some p' → ¬ in_arc (be_num id) (pos p') (pos me) false true) → w_nodes w !! q = None →
  peer_getSuccessor (H0 := env depth me) method fuel id w = (Ok None, w).
Proof.
  intros Hs Hnode Hpred Hsucc Hid Hin Hp Hdead. unfold peer_getSuccessor. rewrite (bind_ni _ _ _ _ _ _ _ _ Hs).
  assert (getId s = aid me) as -> by (unfold getId; fold (getNode s); by rewrite Hnode).
  rewrite Hpred, Hsucc. replace (match nd <$> p with Some pred => _ | None => false end) with false.
  - rewrite getId_nd, (proj2 (range_pos id me q false true Hid) Hin). change (m_ip (nd q)) with q.1.
    change (m_port (nd q)) with q.2. by rewrite (then_Exn _ _ _ _ _ _ (world_rpc_absent _ _ _ _ _ _ _ _ Hdead)).
  - destruct p as [p|]; [|done]. cbn [fmap option_fmap option_map]. rewrite getId_nd. symmetry.
    apply not_true_iff_false. rewrite range_pos by done. by apply Hp.
Qed.

(** [fixFingers] stores what the node's own lookup finds. *)
Lemma fixFingers_stores depth me w s i (r : option addr) :
  w_nodes w !! me = Some s → getNode s = nd me → table_ok s → (i < key_bits)%nat →
  peer_getSuccessor (H0 := env depth me) method fuel (finger_start s i) w = (Ok (nd <$> r), w) →
  fixFingers (H0 := env (S depth) me) i w
  = (Ok ((i + 1) mod key_bits)%nat, w_update me (λ _, with_fingers (<[i := nd <$> r]> (m_fingerTable s)) s) w).
Proof.
  intros Hs Hnode Htab Hi Hget. assert (getId s = aid me) as Hme by (unfold getId; fold (getNode s); by rewrite Hnode).
  destruct (finger_start_num me s i Hme Hi) as [Hid _]. unfold fixFingers. rewrite (bind_ni _ _ _ _ _ _ _ _ Hs).
  assert (dht_getSuccessor (H0 := env (S depth) me) (finger_start s i) w = (Ok (nd <$> r), w)) as Hdht.
  { unfold dht_getSuccessor. rewrite (bind_ni _ _ _ _ _ _ _ _ Hs). unfold getIp, getPort.
    fold (getNode s). rewrite Hnode. change (m_ip (nd me)) with me.1. change (m_port (nd me)) with me.2.
    rewrite (then_Ok _ _ _ w w (buildNode_opt (nd <$> r))).
    - destruct r as [b|]; [|done]. cbn. by rewrite nd_roundtrip.
    - rewrite (world_rpc _ _ _ _ _ _ _ _ _ Hs). cbn [serve]. unfold srv_getSuccessor.
      rewrite idFromReader_id by apply Hid. by rewrite (bind_Ok _ _ _ _ _ Hget). }
  rewrite (bind_Ok _ _ _ _ _ Hdht). erewrite bind_Ok; [done|].
  unfold set_finger_checked. rewrite (bind_ni _ _ _ _ _ _ _ _ Hs).
  rewrite setFinger_Ok by done. rewrite bind_lift_Ok. apply run_update.
Qed.

(** A dead successor is dropped. When no node listens at the successor's
    address, [stabilize] changes nothing, and the turn of [fixFingers] at
    index 0 empties the first finger and advances the index, so that the
    successor becomes the next populated finger of the table. *)
Theorem dead_successor_dropped depth X me (p : option addr) q w s :
  w_nodes w !! me = Some s → node_view X me p q s →
  (∀ p', p = Some p' → pos p' ≠ pos me) → pos q ≠ pos me → w_nodes w !! q = None →
  stabilize (H0 := env (S depth) me) w = (Ok tt, w) ∧
  fixFingers (H0 := env (S depth) me) 0 w
  = (Ok 1%nat, w_update me (λ _, with_fingers (<[0%nat := None]> (m_fingerTable s)) s) w).
Proof.
  intros Hs Hv Hpne Hqne Hdead. split.
  - unfold stabilize. rewrite (bind_ni _ _ _ _ _ _ _ _ Hs), (nv_succ _ _ _ _ _ Hv).
    change (m_ip (nd q)) with q.1. change (m_port (nd q)) with q.2.
    erewrite bind_Ok; [|by rewrite (then_Exn _ _ _ _ _ _ (world_rpc_absent _ _ _ _ _ _ _ _ Hdead))].
    rewrite (bind_ni _ _ _ _ _ _ _ _ Hs). unfold notify_peer. rewrite (bind_ni _ _ _ _ _ _ _ _ Hs).
    change (m_ip (nd q)) with q.1. change (m_port (nd q)) with q.2.
    by rewrite (then_Exn _ _ _ _ _ _ (world_rpc_absent _ _ _ _ _ _ _ _ Hdead)).
  - destruct (finger_start_num me s 0 (nv_id _ _ _ _ _ Hv)) as [Hid Hnum]; [by vm_compute; lia|].
    change (2 ^ Z.of_nat 0) with 1 in Hnum. pose proof (cw_next (pos me) (pos_point me)) as Hcw. rewrite <- Hnum in Hcw.
    pose proof (pos_point me). pose proof (be_num_point _ Hid). pose proof (pos_point q).
    apply (fixFingers_stores depth me w s 0 None); [done|apply Hv|apply Hv|by vm_compute; lia|].
    apply (lookup_dead depth me p q w s); [done|apply Hv|apply Hv|by eapply nv_succ|done| | |done].
    + right. split; ring_lia.
    + intros p' ->. specialize (Hpne p' eq_refl). pose proof (pos_point p'). cbn [in_arc]. intros [|[? ?]]; [done|]. ring_lia.
Qed.

End Failure.

(** ** The lookup from the own node *)

(** The finger that [getClosestPreceding] finds lies before the identifier. *)
Lemma closest_preceding_between `{HashFns} i id s f : closest_preceding_loop i id s = Ok (Some f) →
  is_in_range_loop (Node_getId f) (getId s) id false false = true.
Proof.
  induction i as [|i IH]; [done|]. cbn [closest_preceding_loop]. destruct (getFinger i s) as [[f'|]|?|?| ]; [|done..].
  cbn [mbind outcome_bind]. case_match; [|done]. by intros [= <-].
Qed.

Lemma Node_eqb_refl `{HashFns} n : Node_eqb n n = true.
Proof. by apply bool_decide_eq_true. Qed.

Section FromSelf.
Context `{HashFns} {W : Type} `{PeerEnv W} (w : W) (s : NodeInformation) (Hself : env_ni w = (Ok s, w)).
Context (id : list Z).

Lemma algorithm_step fuel current rest distrusted :
  getSuccessorAlgorithm (S fuel) id (current :: rest) distrusted w
  = (result ← getClosestPrecedingHelper fuel current id distrusted;
     match closestPreceding result with
     | Some c => getSuccessorAlgorithm fuel id (c :: current :: rest) distrusted
     | None =>
         match cpp_successor result with
         | Some succ => mret (Some succ)
         | None => getSuccessorAlgorithm fuel id rest ({[Node_getId current]} ∪ distrusted)
         end
     end) w.
Proof. done. Qed.

(** A hop that does not answer gives nothing. *)
Lemma silent_impl dead ask : Node_eqb dead (getNode s) = false →
  (∃ e, env_rpc (m_ip dead) (m_port dead) (GetClosestPrecedingReq ask) w = (Exn e, w)) →
  closest_impl dead id ask w = (Ok (mkCPP None None), w).
Proof.
  intros Hdead [e He]. unfold closest_impl. rewrite (bind_Ok _ _ _ _ _ Hself), Hdead.
  erewrite bind_Ok; [|by rewrite (then_Exn _ _ _ _ _ _ He)].
  unfold checkResult. by rewrite (bind_Ok _ _ _ _ _ Hself).
Qed.

(** A silent hop is distrusted and popped. *)
Lemma silent_popped dead fuel rest distrusted : Node_eqb dead (getNode s) = false →
  (∃ e, env_rpc (m_ip dead) (m_port dead) (GetClosestPrecedingReq id) w = (Exn e, w)) →
  getSuccessorAlgorithm (S (S fuel)) id (dead :: rest) distrusted w
  = getSuccessorAlgorithm (S fuel) id rest ({[Node_getId dead]} ∪ distrusted) w.
Proof.
  intros Hdead Hsilent. rewrite algorithm_step. unfold getClosestPrecedingHelper. cbn [closest_iterate].
  erewrite bind_Ok; [|by rewrite (bind_Ok _ _ _ _ _ (silent_impl dead id Hdead Hsilent))]. done.
Qed.

(** A lookup that neither direct answer ends starts from the own node. *)
Lemma lookup_starts_far method fuel :
  (∀ p, getPredecessor s = Some p → is_in_range_loop id (Node_getId p) (getId s) false true = false) →
  (∀ q, getSuccessor s = Some q → is_in_range_loop id (getId s) (Node_getId q) false true = false) →
  peer_getSuccessor method fuel id w = getSuccessor_far method fuel id s w.
Proof.
  intros Hnear Hfar. unfold peer_getSuccessor. rewrite (bind_Ok _ _ _ _ _ Hself).
  assert (match getPredecessor s with
          | Some pred => is_in_range_loop id (Node_getId pred) (getId s) false true
          | None => false
          end = false) as ->.
  { destruct (getPredecessor s) as [p|]; [by apply Hnear|done]. }
  destruct (getSuccessor s) as [q|]; [by rewrite (Hfar q)|done].
Qed.

(** The own table gives the preceding finger, whatever becomes of the
    successor, as long as that answers. *)
Lemma own_impl c : getClosestPreceding id s = Ok (Some c) →
  (∀ q, getSuccessor s = Some q → ∃ r, env_rpc (m_ip q) (m_port q) GetPredecessorReq w = (Ok r, w)) →
  ∃ q, closest_impl (getNode s) id id w = (Ok (mkCPP (Some c) q), w).
Proof.
  intros Hc Hq. unfold closest_impl. rewrite (bind_Ok _ _ _ _ _ Hself).
  rewrite Node_eqb_refl, Hc. rewrite bind_lift_Ok.
  unfold checkResult. rewrite (bind_Ok _ _ _ _ _ Hself). cbn [closestPreceding cpp_successor].
  change (Node_getId (getNode s)) with (getId s). rewrite (closest_preceding_between _ _ _ _ Hc).
  destruct (getSuccessor s) as [q|] eqn:E; [|by eexists].
  destruct (Node_eqb q (getNode s)); [by eexists|]. destruct (Hq q eq_refl) as [r Hr].
  rewrite (bind_Ok _ _ _ _ _ Hr). destruct (nodeFromReader_opt r) as [p|]; [|by eexists].
  destruct (is_in_range_loop id (Node_getId p) (getId s) false true); by eexists.
Qed.

(** So the first hop is that finger. *)
Lemma own_pushed c fuel rest : getClosestPreceding id s = Ok (Some c) →
  (∀ q, getSuccessor s = Some q → ∃ r, env_rpc (m_ip q) (m_port q) GetPredecessorReq w = (Ok r, w)) →
  getSuccessorAlgorithm (S (S fuel)) id (getNode s :: rest) ∅ w
  = getSuccessorAlgorithm (S fuel) id (c :: getNode s :: rest) ∅ w.
Proof.
  intros Hc Hq. destruct (own_impl c Hc Hq) as [q Hown]. rewrite algorithm_step.
  unfold getClosestPrecedingHelper. cbn [closest_iterate].
  erewrite bind_Ok; [|rewrite (bind_Ok _ _ _ _ _ Hown); cbn [closestPreceding];
    by rewrite decide_False by apply not_elem_of_empty]. done.
Qed.

End FromSelf.

(** ** A dishonest peer *)

Section Dishonest.
Context `{HashFns} {W : Type} `{PeerEnv W}.
Context (w : W) (s : NodeInformation) (evil dead : Node) (id : list Z).
Context (Hself : env_ni w = (Ok s, w)).
(** The node is not responsible for the identifier, its successor answers but
    is not responsible either, and the closest preceding finger is the
    dishonest peer. *)
Context (Hnear : ∀ p, getPredecessor s = Some p → is_in_range_loop id (Node_getId p) (getId s) false true = false).
Context (Hfar : ∀ q, getSuccessor s = Some q → is_in_range_loop id (getId s) (Node_getId q) false true = false).
Context (Hlive : ∀ q, getSuccessor s = Some q → ∃ r, env_rpc (m_ip q) (m_port q) GetPredecessorReq w = (Ok r, w)).
Context (Hfinger : getClosestPreceding id s = Ok (Some evil)).
Context (Hevil : Node_eqb evil (getNode s) = false) (Hdead : Node_eqb dead (getNode s) = false).
(** The dishonest peer names the same dead node for every identifier. *)
Context (Hanswer : ∀ ask, env_rpc (m_ip evil) (m_port evil) (GetClosestPrecedingReq ask) w
                          = (Ok (Some (buildNode dead), None), w)).
Context (Hcan : canonical dead).
Context (Hrange : is_in_range_loop (Node_getId dead) (Node_getId evil) id false false = true).
Context (Hsilent : ∀ ask, ∃ e, env_rpc (m_ip dead) (m_port dead) (GetClosestPrecedingReq ask) w = (Exn e, w)).

Lemma evil_impl ask : closest_impl evil id ask w = (Ok (mkCPP (Some dead) None), w).
Proof.
  unfold closest_impl. rewrite (bind_Ok _ _ _ _ _ Hself), Hevil.
  erewrite bind_Ok; [|by rewrite (then_Ok _ _ _ _ _ _ (Hanswer ask))].
  unfold checkResult. rewrite (bind_Ok _ _ _ _ _ Hself).
  cbn [closestPreceding cpp_successor nodeFromReader_opt fmap option_fmap option_map fst snd].
  by rewrite nodeFromReader_buildNode, Hrange.
Qed.

Lemma evil_iterate_distrusted fuel distrusted ask : Node_getId dead ∈ distrusted →
  closest_iterate fuel evil distrusted id ask w = (NoFuel, w).
Proof.
  intros Hin. revert ask. induction fuel as [|fuel IH]; intros ask; [done|].
  cbn [closest_iterate]. rewrite (bind_Ok _ _ _ _ _ (evil_impl ask)). cbn [closestPreceding].
  by rewrite decide_True.
Qed.

Lemma evil_after_dead fuel rest distrusted : Node_getId dead ∈ distrusted →
  getSuccessorAlgorithm fuel id (evil :: rest) distrusted w = (NoFuel, w).
Proof.
  intros Hin. destruct fuel as [|fuel]; [done|]. rewrite algorithm_step.
  apply bind_NoFuel. by apply evil_iterate_distrusted.
Qed.

(** From the dishonest hop on, the lookup does not return. *)
Lemma evil_hop fuel rest : getSuccessorAlgorithm fuel id (evil :: rest) ∅ w = (NoFuel, w).
Proof.
  destruct fuel as [|[|fuel]]; [done..|]. rewrite algorithm_step.
  unfold getClosestPrecedingHelper. cbn [closest_iterate].
  erewrite bind_Ok; [|rewrite (bind_Ok _ _ _ _ _ (evil_impl id)); cbn [closestPreceding];
    by rewrite decide_False by apply not_elem_of_empty].
  cbn [closestPreceding]. destruct fuel as [|fuel]; [done|].
  rewrite (silent_popped w s Hself id dead) by done.
  apply evil_after_dead. apply elem_of_union. left. by apply elem_of_singleton.
Qed.

(** C35: One dishonest peer can keep a lookup from ever returning. Let a node
    look up an identifier that neither it nor its successor, which answers, is
    responsible for, and let its closest preceding finger be a peer that
    answers every question with the same unreachable node between itself and
    the identifier. Then [PeerImpl::getSuccessor] with the iterative algorithm,
    the only method the program selects, has not returned, whatever the bound
    on its loops: once the dead node is distrusted, the inner loop asks the
    dishonest peer for ever. *)
Theorem dishonest_peer_blocks_lookup fuel : peer_getSuccessor LOCAL fuel id w = (NoFuel, w).
Proof.
  rewrite (lookup_starts_far w s Hself id LOCAL fuel Hnear Hfar). cbn [getSuccessor_far].
  destruct fuel as [|[|fuel]]; [done..|]. rewrite (own_pushed w s Hself id evil) by done. apply evil_hop.
Qed.

End Dishonest.

(** ** A dead finger before the successor *)

Section Misled.
Context `{HashFns} `{!HashOk _} (kj_throws : bool) (fuel depth : nat) (x me q d : addr) (p : option addr).
Context (w : World) (s sq : NodeInformation) (id : list Z).
Local Abbreviation env := (world_env kj_throws LOCAL (5 + fuel)).
Context (Hs : w_nodes w !! me = Some s) (Hnode : getNode s = nd me).
Context (Hpred : getPredecessor s = nd <$> p) (Hsucc : getSuccessor s = Some (nd q)).
(** The successor is alive and knows this node as its predecessor. *)
Context (Hq : w_nodes w !! q = Some sq) (Hback : getPredecessor sq = Some (nd me)) (Hqne : pos q ≠ pos me).
(** The identifier belongs neither to this node nor to its successor. *)
Context (Hid : id_ok id) (Hbeyond : ¬ in_arc (be_num id) (pos me) (pos q) false true).
Context (Hown : ∀ p', p = Some p' → ¬ in_arc (be_num id) (pos p') (pos me) false true).
(** The closest preceding finger is dead, and no finger lies before it. *)
Context (Hd : getClosestPreceding id s = Ok (Some (nd d))) (Hfirst : getClosestPreceding (aid d) s = Ok None).
Context (Hdead : w_nodes w !! d = None).

Lemma back_rpc me' : env_rpc (PeerEnv := env (S depth) me') (m_ip (nd q)) (m_port (nd q)) GetPredecessorReq w
  = (Ok (Some (buildNode (nd me))), w).
Proof. rewrite (rpc_pred _ _ _ _ _ q _ _ Hq). by rewrite Hback. Qed.

(** Asked up to the dead finger, the node offers its successor: with the node
    itself as the successor's predecessor, the check accepts any identifier. *)
Lemma misled_impl : closest_impl (H0 := env (S depth) me) (nd me) id (aid d) w = (Ok (mkCPP None (Some (nd q))), w).
Proof.
  unfold closest_impl. rewrite (bind_ni _ _ _ _ _ _ _ _ Hs), Hnode, Node_eqb_refl, Hfirst, bind_lift_Ok.
  unfold checkResult. rewrite (bind_ni _ _ _ _ _ _ _ _ Hs), Hsucc, Hnode. cbn [closestPreceding cpp_successor].
  rewrite nd_eqb, bool_decide_eq_false_2 by done. rewrite (bind_Ok _ _ _ _ _ (back_rpc me)).
  cbn [nodeFromReader_opt fmap option_fmap option_map]. rewrite nd_roundtrip, getId_nd.
  by rewrite (proj2 (range_pos id me me false true Hid) (or_introl eq_refl)).
Qed.

(** Once the dead finger is distrusted, this ends the search. *)
Lemma misled_helper r : closest_impl (H0 := env (S depth) me) (getNode s) id id w = (Ok (mkCPP (Some (nd d)) r), w) →
  getClosestPrecedingHelper (H0 := env (S depth) me) (2 + fuel) (nd me) id ({[Node_getId (nd d)]} ∪ ∅) w
  = (Ok (mkCPP None (Some (nd q))), w).
Proof.
  rewrite Hnode. intros Hfound. unfold getClosestPrecedingHelper. cbn [Nat.add closest_iterate].
  rewrite (bind_Ok _ _ _ _ _ Hfound). cbn [closestPreceding].
  rewrite decide_True by (apply elem_of_union; left; by apply elem_of_singleton).
  change (Node_getId (nd d)) with (aid d). by rewrite (bind_Ok _ _ _ _ _ misled_impl).
Qed.

(** The dead finger is pushed, distrusted and popped; then the search ends at
    its identifier. *)
Lemma misled_lookup : peer_getSuccessor (H0 := env (S depth) me) LOCAL (5 + fuel) id w = (Ok (Some (nd q)), w).
Proof.
  pose proof (world_ni kj_throws LOCAL (5 + fuel) (S depth) me w s Hs) as Hself.
  assert (getId s = aid me) as Hme by (unfold getId; fold (getNode s); by rewrite Hnode).
  assert (∀ q', getSuccessor s = Some q' →
    ∃ r, env_rpc (PeerEnv := env (S depth) me) (m_ip q') (m_port q') GetPredecessorReq w = (Ok r, w)) as Hlive.
  { intros q'. rewrite Hsucc. intros [= <-]. eexists. apply back_rpc. }
  destruct (own_impl w s Hself id (nd d) Hd Hlive) as [r Hfound].
  assert (Node_eqb (nd d) (getNode s) = false) as Hdme.
  { rewrite Hnode, nd_eqb. apply bool_decide_eq_false. pose proof (closest_preceding_between _ _ _ _ Hd) as Hin.
    rewrite getId_nd, Hme in Hin. apply range_arc in Hin; [apply Hin|apply aid_ok..|done]. }
  rewrite (lookup_starts_far w s Hself).
  - cbn [getSuccessor_far Nat.add]. rewrite (own_pushed w s Hself id (nd d)) by done.
    rewrite (silent_popped w s Hself) by (done || (eexists; by apply (world_rpc_absent _ _ _ _ _ d))).
    rewrite algorithm_step, Hnode. by rewrite (bind_Ok _ _ _ _ _ (misled_helper r Hfound)).
  - intros p'. rewrite Hpred, Hme. destruct p as [a|]; [|done]. cbn [fmap option_fmap option_map].
    intros [= <-]. rewrite getId_nd.
    apply not_true_is_false. rewrite range_pos by done. by apply Hown.
  - intros q'. rewrite Hsucc, Hme. intros [= <-]. rewrite getId_nd.
    apply not_true_is_false. by rewrite range_pos.
Qed.

(** C40: A dead finger before the successor misleads a lookup. Let a member
    know its live successor, which knows the member as its predecessor, and let
    an identifier belong to neither of the two. If the closest finger before
    the identifier is a dead node and no finger lies before that node (so it
    lies between the member and its successor), then a request to the member for
    the identifier is answered with the successor, whatever the rest of
    the network, although in no ring with this member is the successor
    responsible: after the dead finger is skipped, the search ends at the dead
    node's identifier, and the check of the successor accepts any identifier. *)
Theorem dead_finger_misleads :
  env_rpc (PeerEnv := env (S (S depth)) x) me.1 me.2 (GetSuccessorReq id) w
  = (Ok (Some (buildNode (nd q))), w) ∧
  ∀ R : Ring, me ∈ members R → ¬ responsible R (be_num id) q.
Proof.
  split.
  - rewrite (world_rpc _ _ _ _ _ _ _ _ _ Hs). cbn [serve]. unfold srv_getSuccessor.
    rewrite idFromReader_id by apply Hid. by rewrite (bind_Ok _ _ _ _ _ misled_lookup).
  - intros R Hme [_ Hmin]. specialize (Hmin me Hme). pose proof (be_num_point _ Hid).
    pose proof (pos_point me). pose proof (pos_point q). apply Hbeyond. right.
    split; [intros E; rewrite E in Hmin|]; ring_lia.
Qed.

End Misled.
