(* ===== verification/Robust.v ===== *)
(** * Robust: lookups past dead fingers

    The lookup of src/dht/Peer.cpp in a network in which members know their
    neighbours but some of their other fingers point at nodes that are gone.
    The iterative method steps onto a dead finger, distrusts it, steps back and
    asks for a node before it; against the interface [FaultyEnv] it still finds
    the responsible member, as long as no dead finger of a member lies between
    the member and its successor. Where one does, the answer can be wrong; and
    the method that passes requests on gives up at a dead finger. *)

From S2P Require Import Prelude Util Ring NodeInfo Peer Topology Lookup Network.

(** The image of a set is not larger. *)
Lemma size_image {A B} `{Countable A, Countable B} (f : A → B) (X : gset A) :
  (size (set_map f X : gset B) <= size X)%nat.
Proof.
  induction X as [|x X Hx IH] using set_ind_L; [by rewrite set_map_empty, !size_empty|].
  rewrite set_map_union_L, set_map_singleton_L, size_union_alt, (size_union {[x]} X), !size_singleton
    by (by apply disjoint_singleton_l).
  pose proof (subseteq_size (set_map f X ∖ {[f x]} : gset B) (set_map f X) (subseteq_difference_l _ _ _ (reflexivity _))).
  lia.
Qed.

(** ** The interface *)

Section Interface.
Context `{HashFns}.

(** A dead node that [a] may have among its fingers. *)
Definition stale (R : Ring) (D : gset addr) (a d : addr) : Prop :=
  d ∈ D ∧ ¬ in_arc (pos d) (pos a) (pos (rsucc R a)) false false.

Record faulty_view (R : Ring) (D : gset addr) (a : addr) (s : NodeInformation) : Prop := {
  fv_node : getNode s = nd a;
  fv_table : table_ok s;
  fv_pred : getPredecessor s = Some (nd (rpred R a));
  fv_first : m_fingerTable s !! 0%nat = Some (Some (nd (rsucc R a)));
  fv_fingers j n : m_fingerTable s !! j = Some (Some n) → ∃ b, (b ∈ members R ∨ stale R D a b) ∧ n = nd b;
}.

(** An answer to "which node precedes [id]": a member or a dead node strictly
    between, or none when the successor of [a] is not. *)
Definition faulty_answer (R : Ring) (D : gset addr) (a : addr) (id : Z) (c : option addr) : Prop :=
  match c with
  | Some b => (b ∈ members R ∨ stale R D a b) ∧ in_arc (pos b) (pos a) id false false
  | None => ¬ in_arc (pos (rsucc R a)) (pos a) id false false
  end.

Class FaultyEnv {W} (E : PeerEnv W) (R : Ring) (D : gset addr) (me : addr) (w : W) : Prop := {
  fe_me : me ∈ members R;
  fe_apart a d : a ∈ members R → d ∈ D → pos a ≠ pos d;
  fe_self : ∃ s, env_ni w = (Ok s, w) ∧ faulty_view R D me s;
  fe_pred a : a ∈ members R →
    env_rpc a.1 a.2 GetPredecessorReq w = (Ok (Some (buildNode (nd (rpred R a)))), w);
  fe_closest a id : a ∈ members R → id_ok id →
    ∃ c, env_rpc a.1 a.2 (GetClosestPrecedingReq id) w
         = (Ok (buildNode_opt (nd <$> c), Some (buildNode (nd (rsucc R a)))), w)
       ∧ faulty_answer R D a (be_num id) c;
  fe_dead d A (r : PeerRequest A) : d ∈ D → ∃ e, env_rpc d.1 d.2 r w = (Exn e, w);
}.

End Interface.

(** ** The iterative lookup *)

Section Faulty.
Context `{HashFns} `{!HashOk _}.
Context {W : Type} {E : PeerEnv W} (R : Ring) (HR : ring_ok R) (D : gset addr) (me : addr) (w : W).
Context (HE : FaultyEnv E R D me w).
Implicit Types (a b d : addr) (id : list Z).

(** What the successor's check leaves of the successor. *)
Definition kept_successor a : option Node :=
  if bool_decide (pos (rsucc R a) = pos me) then None else Some (nd (rsucc R a)).

Lemma faulty_closest a s id : faulty_view R D a s → id_ok id →
  ∃ c, getClosestPreceding id s = Ok (nd <$> c) ∧ faulty_answer R D a (be_num id) c.
Proof.
  intros Hv Hid. destruct (getClosestPreceding_spec id s (fv_table _ _ _ _ Hv)) as (c & Hc & Hspec).
  assert (getId s = aid a) as Hsid.
  { unfold getId. fold (getNode s). by rewrite (fv_node _ _ _ _ Hv). }
  unfold precedes in Hspec. rewrite Hsid in Hspec. destruct c as [n|].
  - destruct Hspec as [Hin (j & Hj)]. destruct (fv_fingers _ _ _ _ Hv _ _ Hj) as (b & Hb & ->).
    exists (Some b). split; [done|]. split; [done|].
    apply range_arc in Hin; [done|apply aid_ok|apply aid_ok|done].
  - exists None. split; [done|]. cbn. pose proof (fv_first _ _ _ _ Hv) as Hj.
    specialize (Hspec _ _ Hj). rewrite getId_nd in Hspec.
    apply range_arc_false in Hspec; [done|apply aid_ok|apply aid_ok|done].
Qed.

Lemma arc_trans (x y z v : Z) : in_arc x v y false false → in_arc y v z false false → in_arc x v z false false.
Proof. intros [Hx [->|Hxy]] [Hy [->|Hyz]]; (split; [done|]); [done|done|by left|right; lia]. Qed.

(** [impl(ask)] at a member, for an [ask] not beyond the id. *)
Lemma impl_member a id ask : a ∈ members R → id_ok id → id_ok ask →
  ask = id ∨ in_arc (be_num ask) (pos a) (be_num id) false false →
  ∃ c, faulty_answer R D a (be_num ask) c ∧
    closest_impl (nd a) id ask w = (Ok (mkCPP (nd <$> c) (kept_successor a)), w).
Proof.
  intros Ha Hid Hask Hle. destruct (fe_self (FaultyEnv := HE)) as (s & Hs & Hv).
  assert (∀ c, faulty_answer R D a (be_num ask) c →
    checkResult (nd a) id (mkCPP (nd <$> c) (Some (nd (rsucc R a)))) w
    = (Ok (mkCPP (nd <$> c) (kept_successor a)), w)) as Hcheck.
  { intros c Hc. apply (checkResult_arc R HR me w s); [done|apply Hv|done|done| |].
    - by apply HE, (ring_succ_mem R HR).
    - intros b ->. destruct Hc as [_ Hb], Hle as [->|Hle]; [done|]. by eapply arc_trans. }
  unfold closest_impl. rewrite (bind_Ok _ _ _ _ _ Hs), (fv_node _ _ _ _ Hv), nd_eqb. case_bool_decide as Heq.
  - apply (ring_inj R HR) in Heq as ->; [|done|apply HE].
    destruct (faulty_closest me s ask Hv Hask) as (c & Hc & Hans). exists c. split; [done|].
    rewrite Hc, bind_lift_Ok, (getSuccessor_first s (nd (rsucc R me))) by apply Hv. by apply Hcheck.
  - destruct (fe_closest (FaultyEnv := HE) a ask Ha Hask) as (c & Hc & Hans). exists c. split; [done|].
    erewrite bind_Ok; [by apply Hcheck|].
    rewrite (then_Ok _ _ _ _ _ _ Hc). cbn [fst snd]. rewrite nd_roundtrip_opt.
    change (Some (buildNode (nd (rsucc R a)))) with (buildNode_opt (nd <$> Some (rsucc R a))).
    by rewrite nd_roundtrip_opt.
Qed.

(** A dead node gives no answer. *)
Lemma impl_dead d id ask : d ∈ D → closest_impl (nd d) id ask w = (Ok (mkCPP None None), w).
Proof.
  intros Hd. destruct (fe_self (FaultyEnv := HE)) as (s & Hs & Hv).
  assert (pos d ≠ pos me) as Hne.
  { intros Eq. by apply (fe_apart (FaultyEnv := HE) me d); [apply HE| |]. }
  unfold closest_impl. rewrite (bind_Ok _ _ _ _ _ Hs), (fv_node _ _ _ _ Hv), nd_eqb.
  rewrite bool_decide_eq_false_2 by done.
  destruct (fe_dead (FaultyEnv := HE) d _ (GetClosestPrecedingReq ask) Hd) as [e He].
  erewrite bind_Ok; [|by rewrite (then_Exn _ _ _ _ _ _ He)].
  unfold checkResult. by rewrite (bind_Ok _ _ _ _ _ Hs).
Qed.

(** Only dead nodes are distrusted. *)
Definition only_dead (distrusted : gset (list Z)) : Prop := ∀ x, x ∈ distrusted → ∃ d, d ∈ D ∧ x = aid d.

Lemma member_trusted distrusted a : only_dead distrusted → a ∈ members R → aid a ∉ distrusted.
Proof.
  intros Hd Ha Hin. destruct (Hd _ Hin) as (d & Hdd & Heq). apply (fe_apart (FaultyEnv := HE) a d Ha Hdd).
  unfold pos. by rewrite Heq.
Qed.

(** The distrusted nodes before [ask], seen from [a]. *)
Definition before (distrusted : gset (list Z)) a (ask : Z) : gset (list Z) :=
  filter (λ x, in_arc (be_num x) (pos a) ask false false) distrusted.

Lemma before_smaller distrusted a b ask : aid b ∈ distrusted → in_arc (pos b) (pos a) ask false false →
  (size (before distrusted a (pos b)) < size (before distrusted a ask))%nat.
Proof.
  intros Hb Hin. apply subset_size. unfold before. split.
  - intros x. rewrite !elem_of_filter. intros [Hx ?]. split; [by eapply arc_trans|done].
  - intros Hsub. assert (aid b ∈ filter (λ x, in_arc (be_num x) (pos a) (pos b) false false) distrusted) as Hbb.
    { apply Hsub. rewrite elem_of_filter. done. }
    rewrite elem_of_filter in Hbb. destruct Hbb as [[Hne [Heq|Hlt]] _].
    + destruct Hin as [Hne' _]. congruence.
    + change (be_num (aid b)) with (pos b) in Hlt. lia.
Qed.

(** The successor lies before a dead finger. *)
Lemma stale_after_successor a b (id : Z) : a ∈ members R → stale R D a b → in_arc (pos b) (pos a) id false false →
  in_arc (pos (rsucc R a)) (pos a) (pos b) false false.
Proof.
  intros Ha [Hd Hno] [Hne _]. pose proof (ring_succ_mem R HR a Ha) as Hs.
  assert (pos (rsucc R a) ≠ pos b) as Hsb by (by apply (fe_apart (FaultyEnv := HE))).
  pose proof (pos_point a). pose proof (pos_point b). pose proof (pos_point (rsucc R a)).
  cbn in *. destruct (decide (pos (rsucc R a) = pos a)) as [Es|Es].
  - exfalso. apply Hno. split; [done|]. left. congruence.
  - split; [done|]. right. destruct (Z.lt_trichotomy (cw (pos a) (pos (rsucc R a))) (cw (pos a) (pos b))) as [|[Eq|]];
      [done| |].
    + apply cw_inj in Eq; done.
    + exfalso. apply Hno. split; [done|by right].
Qed.

(** A right result of the helper at a member: a trusted node before the id, or
    none when the successor is not before it. *)
Definition trusted_answer (distrusted : gset (list Z)) a (id ask : Z) (c : option addr) : Prop :=
  match c with
  | Some b => (b ∈ members R ∨ stale R D a b) ∧ in_arc (pos b) (pos a) id false false ∧ aid b ∉ distrusted
  | None => ¬ in_arc (pos (rsucc R a)) (pos a) ask false false
  end.

Lemma iterate_member fuel distrusted a id ask : a ∈ members R → id_ok id → id_ok ask → only_dead distrusted →
  ask = id ∨ in_arc (be_num ask) (pos a) (be_num id) false false →
  (size (before distrusted a (be_num ask)) < fuel)%nat →
  ∃ c, trusted_answer distrusted a (be_num id) (be_num ask) c ∧
    closest_iterate fuel (nd a) distrusted id ask w = (Ok (mkCPP (nd <$> c) (kept_successor a)), w).
Proof.
  intros Ha Hid. revert ask. induction fuel as [|fuel IH]; intros ask Hask Hod Hle Hf; [lia|].
  destruct (impl_member a id ask Ha Hid Hask Hle) as (c & Hans & Himpl).
  cbn [closest_iterate]. rewrite (bind_Ok _ _ _ _ _ Himpl). cbn [closestPreceding].
  destruct c as [b|]; [|by exists None]. cbn [fmap option_fmap option_map]. rewrite getId_nd.
  destruct Hans as [Hb Hin].
  assert (in_arc (pos b) (pos a) (be_num id) false false) as Hbid.
  { destruct Hle as [->|Hle]; [done|]. by eapply arc_trans. }
  case_decide as Hdis; [|by exists (Some b)].
  destruct Hb as [Hb|Hb]; [by apply (member_trusted distrusted b Hod) in Hb|].
  destruct (IH (aid b)) as (c & Hc & Hit); [apply aid_ok|done|by right|..].
  { pose proof (before_smaller distrusted a b (be_num ask) Hdis Hin). unfold pos in *. lia. }
  exists c. split; [|exact Hit]. destruct c as [b'|]; [exact Hc|]. exfalso.
  apply Hc. by apply (stale_after_successor a b (be_num ask)).
Qed.

Lemma helper_dead fuel distrusted d id : d ∈ D → (0 < fuel)%nat →
  getClosestPrecedingHelper fuel (nd d) id distrusted w = (Ok (mkCPP None None), w).
Proof.
  intros Hd Hf. unfold getClosestPrecedingHelper. destruct fuel as [|fuel]; [lia|]. cbn [closest_iterate].
  by rewrite (bind_Ok _ _ _ _ _ (impl_dead d id id Hd)).
Qed.

(** The dead nodes that are still trusted. *)
Definition trusted_dead (distrusted : gset (list Z)) : gset addr := filter (λ d, aid d ∉ distrusted) D.

Lemma distrust_one distrusted d : d ∈ D → aid d ∉ distrusted →
  (size (trusted_dead ({[aid d]} ∪ distrusted)) < size (trusted_dead distrusted))%nat.
Proof.
  intros Hd Hnot. apply subset_size. unfold trusted_dead. split.
  - intros x. rewrite !elem_of_filter, elem_of_union. tauto.
  - intros Hsub. assert (d ∈ filter (λ d', aid d' ∉ {[aid d]} ∪ distrusted) D) as Hin.
    { apply Hsub. by rewrite elem_of_filter. }
    rewrite elem_of_filter, elem_of_union, elem_of_singleton in Hin. tauto.
Qed.

Lemma before_bound distrusted a ask : only_dead distrusted → (size (before distrusted a ask) <= size D)%nat.
Proof.
  intros Hod. etrans; [|apply (size_image aid D)]. apply subseteq_size. intros x Hx.
  unfold before in Hx. rewrite elem_of_filter in Hx. destruct (Hod x) as (d & Hd & ->); [apply Hx|].
  by apply elem_of_map_2.
Qed.

(** From a hop on a member the algorithm reaches the responsible member: a hop
    to a member brings it closer to the id, a hop to a dead node costs two
    turns and leaves one dead node less to trust. *)
Lemma algorithm_faulty id fuel : id_ok id → ¬ responsible R (be_num id) me →
  ∀ a hops distrusted, a ∈ members R → only_dead distrusted →
  (size (closer R (be_num id) a) + 2 * size (trusted_dead distrusted) + size D + 2 <= fuel)%nat →
  ∃ b, responsible R (be_num id) b ∧
    getSuccessorAlgorithm fuel id (nd a :: hops) distrusted w = (Ok (Some (nd b)), w).
Proof.
  intros Hid Hme. induction (lt_wf fuel) as [fuel _ IH]. intros a hops distrusted Ha Hod Hf.
  pose proof (before_bound distrusted a (be_num id) Hod) as Hbef.
  destruct fuel as [|fuel]; [lia|]. cbn [getSuccessorAlgorithm].
  destruct (iterate_member fuel distrusted a id id) as (c & Hans & Hit); [done..|by left|lia|].
  unfold getClosestPrecedingHelper at 1. rewrite (bind_Ok _ _ _ _ _ Hit). cbn [closestPreceding cpp_successor].
  destruct c as [b|]; cbn [fmap option_fmap option_map].
  - destruct Hans as ([Hb|[Hd Hst]] & Hin & Hnot).
    + apply gap_arc in Hin; [|by apply be_num_point|apply pos_point..].
      pose proof (closer_size R (be_num id) a b Hb Hin). apply IH; [lia|done|done|lia].
    + pose proof (distrust_one distrusted b Hd Hnot).
      destruct fuel as [|fuel]; [lia|]. cbn [getSuccessorAlgorithm].
      rewrite (bind_Ok _ _ _ _ _ (helper_dead fuel distrusted b id Hd ltac:(lia))). cbn [closestPreceding cpp_successor].
      rewrite getId_nd. apply IH; [lia|done| |lia].
      intros x [->%elem_of_singleton|Hx]%elem_of_union; [by exists b|by apply Hod].
  - assert (responsible R (be_num id) (rsucc R a)) as Hresp.
    { apply (last_hop_responsible R HR); [by apply be_num_point|done|exact Hans]. }
    unfold kept_successor. case_bool_decide as Heq; [|by exists (rsucc R a)].
    apply (ring_inj R HR) in Heq; [|apply Hresp|apply HE]. congruence.
Qed.

Lemma lookup_faulty id fuel : id_ok id → (size (members R) + 3 * size D + 2 <= fuel)%nat →
  ∃ b, responsible R (be_num id) b ∧ peer_getSuccessor LOCAL fuel id w = (Ok (Some (nd b)), w).
Proof.
  intros Hid Hf. pose proof (fe_me (FaultyEnv := HE)) as Hme. destruct (fe_self (FaultyEnv := HE)) as (s & Hs & Hv).
  destruct (direct_answers R HR me w s LOCAL id fuel) as [|(Hno & _ & ->)];
    [done|apply Hv|apply Hv|apply getSuccessor_first, Hv|done|by apply HE, (ring_succ_mem R HR)|done|done|].
  unfold getSuccessor_far. rewrite (fv_node _ _ _ _ Hv).
  apply algorithm_faulty; [done..|by intros x ?%elem_of_empty|].
  pose proof (closer_bound R (be_num id) me).
  assert (trusted_dead ∅ ⊆ D) as Ht%subseteq_size by (intros x; unfold trusted_dead; rewrite elem_of_filter; tauto).
  lia.
Qed.

End Faulty.

(** ** Networks with dead fingers *)

Section FaultyWorld.
Context `{HashFns} `{!HashOk _} (kj_throws : bool) (method : GetSuccessorMethod) (fuel : nat).
Local Abbreviation env := (world_env kj_throws method fuel).
Implicit Types (w : World) (R : Ring) (D : gset addr).

(** The members run and know their neighbours; the nodes in [D] do not run. *)
Record faulty R D w : Prop := {
  fw_members a : a ∈ members R → ∃ s, w_nodes w !! a = Some s ∧ faulty_view R D a s;
  fw_dead d : d ∈ D → w_nodes w !! d = None;
  fw_apart a d : a ∈ members R → d ∈ D → pos a ≠ pos d;
}.

#[export] Instance faulty_FaultyEnv R D w depth me : faulty R D w → me ∈ members R →
  FaultyEnv (env (S depth) me) R D me w.
Proof.
  intros [Hm Hd Hap] Hme. split; [done|done|..].
  - destruct (Hm me Hme) as (s & Hs & Hv). exists s. by rewrite (world_ni _ _ _ _ _ _ _ Hs).
  - intros a Ha. destruct (Hm a Ha) as (s & Hs & Hv). rewrite (world_rpc _ _ _ _ _ _ _ _ _ Hs). cbn.
    unfold srv_getPredecessor. rewrite (bind_Ok _ _ _ _ _ (world_ni _ _ _ _ _ _ _ Hs)).
    by rewrite (fv_pred _ _ _ _ Hv).
  - intros a id Ha Hid. destruct (Hm a Ha) as (s & Hs & Hv).
    destruct (faulty_closest R D a s id Hv Hid) as (c & Hc & Hans). exists c. split; [|done].
    rewrite (world_rpc _ _ _ _ _ _ _ _ _ Hs). cbn. unfold srv_getClosestPreceding.
    rewrite (bind_Ok _ _ _ _ _ (world_ni _ _ _ _ _ _ _ Hs)), idFromReader_id by apply Hid.
    rewrite Hc, bind_lift_Ok. by rewrite (getSuccessor_first s (nd (rsucc R a))) by apply Hv.
  - intros d A r Hdd. eexists. by apply world_rpc_absent, Hd.
Qed.

End FaultyWorld.

Section FaultyTheorems.
Context `{HashFns} `{!HashOk _} (kj_throws : bool).
Implicit Types (w : World) (R : Ring) (D : gset addr).

Lemma faulty_request fuel depth R D w id me (a : addr) :
  ring_ok R → faulty R D w → a ∈ members R → id_ok id →
  (size (members R) + 3 * size D + 2 <= fuel)%nat → (2 <= depth)%nat →
  ∃ b, responsible R (be_num id) b ∧
    env_rpc (PeerEnv := world_env kj_throws LOCAL fuel depth me) a.1 a.2 (GetSuccessorReq id) w
    = (Ok (Some (buildNode (nd b))), w).
Proof.
  intros HR Hw Ha Hid Hf Hd. destruct depth as [|[|depth]]; [lia..|].
  pose proof (faulty_FaultyEnv kj_throws LOCAL fuel R D w depth a Hw Ha) as HE.
  destruct (lookup_faulty R HR D a w HE id fuel Hid Hf) as (b & Hb & Hl). exists b. split; [done|].
  destruct (fw_members _ _ _ Hw a Ha) as (s & Hs & _). rewrite (world_rpc _ _ _ _ _ _ _ _ _ Hs). cbn [serve].
  unfold srv_getSuccessor. rewrite idFromReader_id by apply Hid. by rewrite (bind_Ok _ _ _ _ _ Hl).
Qed.

(** C9: Lookups survive dead fingers. In a network whose members know their
    neighbours while other fingers may point at nodes that are gone (none of
    them between a member and its successor), a [getSuccessor] request to any
    member for any identifier still answers, with the iterative method, and
    the answer is the one member responsible for the identifier. Three turns
    for each dead node, the number of members and two are enough fuel. *)
Theorem lookup_survives_dead_fingers fuel depth R D w id me (a : addr) :
  ring_ok R → faulty R D w → a ∈ members R → id_ok id →
  (size (members R) + 3 * size D + 2 <= fuel)%nat → (2 <= depth)%nat →
  ∃ b, env_rpc (PeerEnv := world_env kj_throws LOCAL fuel depth me) a.1 a.2 (GetSuccessorReq id) w
       = (Ok (Some (buildNode (nd b))), w) ∧
    ∀ b', responsible R (be_num id) b' ↔ b' = b.
Proof.
  intros HR Hw Ha Hid Hf Hd. destruct (faulty_request fuel depth R D w id me a HR Hw Ha Hid Hf Hd) as (b & Hb & Hrpc).
  exists b. split; [done|]. intros b'. split; [|by intros ->].
  intros. by apply (responsible_unique R HR (be_num id)); [apply be_num_point|..].
Qed.

(** An identifier past the successor is looked up further away. *)
Lemma far_lookup {W} {E : PeerEnv W} R (wd : W) me s method fuel id : ring_ok R → me ∈ members R → id_ok id →
  env_ni wd = (Ok s, wd) → getNode s = nd me → getPredecessor s = Some (nd (rpred R me)) →
  getSuccessor s = Some (nd (rsucc R me)) →
  ¬ responsible R (be_num id) me → in_arc (pos (rsucc R me)) (pos me) (be_num id) false false →
  peer_getSuccessor method fuel id wd = getSuccessor_far method fuel id s wd.
Proof.
  intros HR Hme Hid Hs Hnode Hpred Hsucc Hno Hin. pose proof (be_num_point id Hid) as Pid.
  unfold peer_getSuccessor. rewrite (bind_Ok _ _ _ _ _ Hs), Hpred, Hsucc.
  assert (getId s = aid me) as -> by (unfold getId; fold (getNode s); by rewrite Hnode). rewrite !getId_nd.
  destruct (is_in_range_loop id (aid (rpred R me)) (aid me) false true) eqn:E1.
  { apply range_pos in E1; [|done]. by apply (responsible_arc R HR) in E1. }
  destruct (is_in_range_loop id (aid me) (aid (rsucc R me)) false true) eqn:E2; [|done].
  exfalso. apply range_pos in E2; [|done]. pose proof (pos_point me). pose proof (pos_point (rsucc R me)).
  cbn in *. ring_lia.
Qed.

(** Passing requests on gives up at a dead finger. With the other lookup
    method, a member that is not responsible for an identifier and whose
    closest preceding finger for it is dead answers that there is no such
    node, whatever the rest of the network knows. *)
Theorem pass_on_gives_up fuel depth R D w id (a d : addr) s :
  ring_ok R → faulty R D w → a ∈ members R → id_ok id → w_nodes w !! a = Some s →
  getClosestPreceding id s = Ok (Some (nd d)) → d ∈ D → ¬ responsible R (be_num id) a →
  peer_getSuccessor (H0 := world_env kj_throws PASS_ON fuel (S depth) a) PASS_ON fuel id w = (Ok None, w).
Proof.
  intros HR Hw Ha Hid Hs Hc Hd Hno.
  destruct (fw_members _ _ _ Hw a Ha) as (s' & Hs' & Hv). rewrite Hs in Hs'. injection Hs' as <-.
  pose proof (faulty_FaultyEnv kj_throws PASS_ON fuel R D w depth a Hw Ha) as HE.
  assert (in_arc (pos (rsucc R a)) (pos a) (be_num id) false false) as Hin.
  { destruct (faulty_closest R D a s id Hv Hid) as (c & Hc' & Hans). rewrite Hc in Hc'.
    destruct c as [b|]; [|done]. assert (pos d = pos b) as Hpos.
    { apply (f_equal (λ o, match o with Ok (Some n) => be_num (Node_getId n) | _ => 0 end)) in Hc'.
      cbn in Hc'. exact Hc'. }
    destruct Hans as [[Hb|Hb] Hin]; [by apply (fw_apart _ _ _ Hw b d) in Hb|].
    eapply arc_trans; [|exact Hin]. by apply (stale_after_successor R HR D a w HE a b (be_num id)). }
  rewrite (far_lookup R w a s) by (done || apply Hv || (by apply world_ni) || (by apply getSuccessor_first, Hv)).
  cbn [getSuccessor_far]. rewrite Hc, bind_lift_Ok.
  rewrite (then_Exn _ _ _ _ _ _ (world_rpc_absent _ _ _ _ _ d w _ (fw_dead _ _ _ Hw d Hd))). done.
Qed.

End FaultyTheorems.
