(* ===== verification/Loose.v ===== *)
(** * Loose: lookups in a network that is no ring

    While nodes join and stabilise, successors and fingers of the members are
    not those of a ring, and some fingers may point at nodes that are gone. The
    lookups of src/dht/Peer.cpp may then answer with a wrong member or with
    none, but they end, and answer with a member if with anything. Shown against
    the interface [LooseEnv], which only says that members answer and that what
    they answer lies where they say it does. *)

From S2P Require Import Prelude Util Ring NodeInfo Peer Topology Lookup Network Robust.

(** ** The interface *)

Section Interface.
Context `{HashFns}.

(** A member: its successor is a member, its fingers are members or nodes of
    [D], which do not run. *)
Record loose_view (X D : gset addr) (a : addr) (s : NodeInformation) : Prop := {
  ov_node : getNode s = nd a;
  ov_table : table_ok s;
  ov_pred : ∃ p, getPredecessor s = nd <$> p;
  ov_succ : ∃ q, q ∈ X ∧ getSuccessor s = Some (nd q);
  ov_fingers j n : m_fingerTable s !! j = Some (Some n) → ∃ b, b ∈ X ∪ D ∧ n = nd b;
}.

(** A node strictly before the identifier, or none. *)
Definition loose_answer (X D : gset addr) (a : addr) (id : Z) (c : option addr) : Prop :=
  ∀ b, c = Some b → b ∈ X ∪ D ∧ in_arc (pos b) (pos a) id false false.

Class LooseEnv {W} (E : PeerEnv W) (X D : gset addr) (me : addr) (w : W) : Prop := {
  le_me : me ∈ X;
  le_spread : spread (X ∪ D);
  le_self : ∃ s, env_ni w = (Ok s, w) ∧ loose_view X D me s;
  le_pred a : a ∈ X → ∃ p, env_rpc a.1 a.2 GetPredecessorReq w = (Ok (buildNode_opt (nd <$> p)), w);
  le_closest a id : a ∈ X → id_ok id →
    ∃ c q, env_rpc a.1 a.2 (GetClosestPrecedingReq id) w = (Ok (buildNode_opt (nd <$> c), Some (buildNode (nd q))), w) ∧
      q ∈ X ∧ loose_answer X D a (be_num id) c;
  le_dead d A (r : PeerRequest A) : d ∉ X → d ∈ D → ∃ e, env_rpc d.1 d.2 r w = (Exn e, w);
}.

Lemma loose_closest `{!HashOk _} X D a s id : loose_view X D a s → id_ok id →
  ∃ c, getClosestPreceding id s = Ok (nd <$> c) ∧ loose_answer X D a (be_num id) c.
Proof.
  intros Hv Hid. destruct (getClosestPreceding_spec id s (ov_table _ _ _ _ Hv)) as (c & Hc & Hspec).
  assert (getId s = aid a) as Hsid by (unfold getId; fold (getNode s); by rewrite (ov_node _ _ _ _ Hv)).
  destruct c as [n|]; [|by exists None]. unfold precedes in Hspec. rewrite Hsid in Hspec.
  destruct Hspec as [Hin (j & Hj)]. destruct (ov_fingers _ _ _ _ Hv _ _ Hj) as (b & Hb & ->). exists (Some b).
  split; [done|]. intros ? [= <-]. split; [done|]. apply range_arc in Hin; [done|apply aid_ok|apply aid_ok|done].
Qed.

End Interface.

(** ** The iterative lookup *)

Section Loose.
Context `{HashFns} `{!HashOk _}.
Context {W : Type} {E : PeerEnv W} (X D : gset addr) (me : addr) (w : W).
Context (HE : LooseEnv E X D me w).
Implicit Types (a b d : addr) (id ask : list Z) (c q : option addr) (distrusted : gset (list Z)).

Definition members_only q : Prop := ∀ b, q = Some b → b ∈ X.

Lemma loose_check a id c q : a ∈ X ∪ D → id_ok id → members_only q →
  ∃ c' q', checkResult (nd a) id (mkCPP (nd <$> c) (nd <$> q)) w = (Ok (mkCPP (nd <$> c') (nd <$> q')), w) ∧
    members_only q' ∧ ∀ b, c' = Some b → c = Some b ∧ in_arc (pos b) (pos a) (be_num id) false false.
Proof.
  intros Ha Hid Hq. destruct (le_self (LooseEnv := HE)) as (s & Hs & Hv). unfold checkResult. rewrite (bind_Ok _ _ _ _ _ Hs).
  cbn [closestPreceding cpp_successor].
  set (pre := match nd <$> c with Some n => _ | None => None end).
  assert (∃ c', pre = nd <$> c' ∧ ∀ b, c' = Some b → c = Some b ∧ in_arc (pos b) (pos a) (be_num id) false false)
    as (c' & -> & Hc').
  { unfold pre. destruct c as [b|]; cbn [fmap option_fmap option_map]; [|by exists None]. rewrite !getId_nd.
    destruct (is_in_range_loop (aid b) (aid a) id false false) eqn:Er; [|by exists None].
    exists (Some b). split; [done|]. intros ? [= <-]. split; [done|].
    apply range_arc in Er; [done|apply aid_ok|apply aid_ok|done]. }
  destruct q as [b|]; cbn [fmap option_fmap option_map]; [|by exists c', None].
  destruct (Node_eqb (nd b) (getNode s)); [by exists c', None|].
  destruct (le_pred (LooseEnv := HE) b (Hq b eq_refl)) as (p & Hp). rewrite (bind_Ok _ _ _ _ _ Hp), nd_roundtrip_opt.
  destruct p as [p|]; cbn [fmap option_fmap option_map]; [|by exists c', None].
  destruct (is_in_range_loop _ _ _ _ _); [by exists c', (Some b)|by exists c', None].
Qed.

Lemma loose_impl a id ask : a ∈ X ∪ D → id_ok id → id_ok ask →
  ∃ c q, closest_impl (nd a) id ask w = (Ok (mkCPP (nd <$> c) (nd <$> q)), w) ∧ members_only q ∧
    loose_answer X D a (be_num ask) c ∧ loose_answer X D a (be_num id) c.
Proof.
  intros Ha Hid Hask. destruct (le_self (LooseEnv := HE)) as (s & Hs & Hv).
  assert (∀ c q, loose_answer X D a (be_num ask) c → members_only q →
    ∃ c' q', checkResult (nd a) id (mkCPP (nd <$> c) (nd <$> q)) w = (Ok (mkCPP (nd <$> c') (nd <$> q')), w) ∧
      members_only q' ∧ loose_answer X D a (be_num ask) c' ∧ loose_answer X D a (be_num id) c') as Hcheck.
  { intros c q Hc Hq. destruct (loose_check a id c q Ha Hid Hq) as (c' & q' & Hrun & Hq' & Hc'). exists c', q'.
    split_and!; [done|done| |]; intros b Hb; destruct (Hc' b Hb) as [Hcb Hin]; destruct (Hc b Hcb); auto. }
  unfold closest_impl. rewrite (bind_Ok _ _ _ _ _ Hs), (ov_node _ _ _ _ Hv), nd_eqb. case_bool_decide as Heq.
  - apply (le_spread (LooseEnv := HE)) in Heq as ->; [|done|apply elem_of_union; left; apply HE].
    destruct (loose_closest X D me s ask Hv Hask) as (c & Hc & Hans). destruct (ov_succ _ _ _ _ Hv) as (q & Hq & Hsucc).
    rewrite Hc, bind_lift_Ok, Hsucc. apply (Hcheck c (Some q)); [done|]. by intros ? [= <-].
  - destruct (decide (a ∈ X)) as [Hx|Hx].
    + destruct (le_closest (LooseEnv := HE) a ask Hx Hask) as (c & q & Hc & Hq & Hans).
      destruct (Hcheck c (Some q)) as (c' & q' & Hrun & ?); [done|by intros ? [= <-]|]. exists c', q'.
      split; [|done]. erewrite bind_Ok; [exact Hrun|]. rewrite (then_Ok _ _ _ _ _ _ Hc). cbn [fst snd].
      change (Some (buildNode (nd q))) with (buildNode_opt (nd <$> Some q)). by rewrite !nd_roundtrip_opt.
    + apply elem_of_union in Ha as [?|Hd]; [done|].
      destruct (le_dead (LooseEnv := HE) a _ (GetClosestPrecedingReq ask) Hx Hd) as [e He].
      destruct (Hcheck None None) as (c' & q' & Hrun & ?); [done|done|]. exists c', q'. split; [|done].
      erewrite bind_Ok; [exact Hrun|]. by rewrite (then_Exn _ _ _ _ _ _ He).
Qed.

Lemma loose_iterate fuel distrusted a id ask : a ∈ X ∪ D → id_ok id → id_ok ask →
  (size (before distrusted a (be_num ask)) < fuel)%nat →
  ∃ c q, closest_iterate fuel (nd a) distrusted id ask w = (Ok (mkCPP (nd <$> c) (nd <$> q)), w) ∧ members_only q ∧
    loose_answer X D a (be_num id) c ∧ ∀ b, c = Some b → aid b ∉ distrusted.
Proof.
  intros Ha Hid. revert ask. induction fuel as [|fuel IH]; intros ask Hask Hf; [lia|].
  destruct (loose_impl a id ask Ha Hid Hask) as (c & q & Himpl & Hq & Hans & Hans').
  cbn [closest_iterate]. rewrite (bind_Ok _ _ _ _ _ Himpl). cbn [closestPreceding].
  destruct c as [b|]; [|by exists None, q]. cbn [fmap option_fmap option_map]. rewrite getId_nd.
  case_decide as Hdis; [|by exists (Some b), q; split_and!; [..|intros ? [= <-]]].
  destruct (Hans b eq_refl) as [_ Hin]. apply IH; [apply aid_ok|].
  pose proof (before_smaller distrusted a b (be_num ask) Hdis Hin). unfold pos in *. lia.
Qed.

(** The nodes that were never a hop. *)
Definition unseen distrusted (hops : list addr) : gset addr := filter (λ b, (aid b ∉ distrusted) ∧ (b ∉ hops)) (X ∪ D).

(** A hop forwards takes an unseen node, a hop back distrusts one for good. *)
Lemma loose_algorithm id fuel : id_ok id → ∀ hops distrusted,
  (∀ h, h ∈ hops → h ∈ X ∪ D) → only_dead (X ∪ D) distrusted →
  StronglySorted (λ x y, gap (be_num id) (pos x) < gap (be_num id) (pos y)) hops →
  (2 * size (unseen distrusted hops) + length hops + size (X ∪ D) + 1 <= fuel)%nat →
  ∃ q, getSuccessorAlgorithm fuel id (nd <$> hops) distrusted w = (Ok (nd <$> q), w) ∧ members_only q.
Proof.
  intros Hid. induction fuel as [|fuel IH]; intros hops distrusted Hh Hod Hsort Hf; [lia|].
  destruct hops as [|a rest]; [by exists None|]. cbn [fmap list_fmap getSuccessorAlgorithm].
  pose proof (before_bound (X ∪ D) distrusted a (be_num id) Hod) as Hbef. cbn [length] in Hf.
  destruct (loose_iterate fuel distrusted a id id) as (c & q & Hit & Hq & Hans & Hnew); [apply Hh; by left|done|done|lia|].
  unfold getClosestPrecedingHelper. rewrite (bind_Ok _ _ _ _ _ Hit). cbn [closestPreceding cpp_successor].
  apply StronglySorted_inv in Hsort as [Hsort Hfirst]. destruct c as [b|]; cbn [fmap option_fmap option_map].
  - destruct (Hans b eq_refl) as [Hb Hin]. apply gap_arc in Hin; [|by apply be_num_point|apply pos_point..].
    assert (b ∉ a :: rest) as Hnot.
    { intros [->|Hr]%elem_of_cons; [lia|]. rewrite Forall_forall in Hfirst. specialize (Hfirst b Hr). lia. }
    apply (IH (b :: a :: rest)); [by intros h [->|]%elem_of_cons; [|apply Hh]|done| |].
    + constructor; [by constructor|]. constructor; [done|]. eapply Forall_impl; [done|]. cbn. lia.
    + assert (size (unseen distrusted (b :: a :: rest)) < size (unseen distrusted (a :: rest)))%nat; [|cbn [length]; lia].
      apply subset_size. unfold unseen. split.
      * intros x. rewrite !elem_of_filter, elem_of_cons. tauto.
      * intros Hsub. specialize (Hsub b). rewrite !elem_of_filter in Hsub.
        destruct (Hsub (conj (conj (Hnew b eq_refl) Hnot) Hb)) as [[_ Hno] _]. apply Hno. by left.
  - destruct q as [b|]; cbn [fmap option_fmap option_map]; [by exists (Some b)|]. rewrite getId_nd.
    apply IH; [by intros h Hr; apply Hh; right| |done|].
    + intros x [->%elem_of_singleton|]%elem_of_union; [|by apply Hod]. exists a. split; [apply Hh; by left|done].
    + assert (size (unseen ({[aid a]} ∪ distrusted) rest) <= size (unseen distrusted (a :: rest)))%nat; [|lia].
      apply subseteq_size. intros x. unfold unseen. rewrite !elem_of_filter, elem_of_union, elem_of_singleton, elem_of_cons.
      intros [[H1 H2] Hx]. split_and!; [tauto| |done]. intros [->|]; tauto.
Qed.

Lemma loose_local id fuel : id_ok id → (3 * size (X ∪ D) + 2 <= fuel)%nat →
  ∃ q, getSuccessorAlgorithm fuel id [nd me] ∅ w = (Ok (nd <$> q), w) ∧ members_only q.
Proof.
  intros Hid Hf. apply (loose_algorithm id fuel Hid [me] ∅).
  - intros h ->%list_elem_of_singleton. apply elem_of_union. left. apply HE.
  - by intros x ?%elem_of_empty.
  - repeat constructor.
  - assert (unseen ∅ [me] ⊆ X ∪ D) as Hsub%subseteq_size by (intros x; unfold unseen; rewrite elem_of_filter; tauto).
    cbn [length]. lia.
Qed.

End Loose.
