(* ===== verification/Converge.v ===== *)
(** * Converge: stabilisation repairs every anchored network

    The abstract protocol that [stabilize] of src/dht/Dht.cpp and [notify] of
    src/dht/Peer.cpp run between the members of a network: each member has a
    successor and perhaps a predecessor, asks its successor for the
    successor's predecessor, may adopt it, and notifies the node it then
    follows. The three parts of an operation are separate steps, so operations
    of different members interleave in any way.

    A network is [anchored] when one member is passed over by no member's
    successor. From such a network, whatever its other links, every schedule
    in which all members take enough turns leads to the ring of the members
    and then stays there: the number of members that links pass over never
    grows and shrinks with every change ([link_step_measure]), and a network in
    which a whole operation of every member changes nothing is the ring
    ([settled_ring]). *)

From stdpp Require Import functions.
From S2P Require Import Prelude Util Ring NodeInfo Peer Topology.

#[export] Instance in_arc_dec v a b i j : Decision (in_arc v a b i j).
Proof. destruct i, j; cbn; apply _. Defined.

(** ** The protocol *)

Record Links := mkLinks { succ_of : addr → addr; pred_of : addr → option addr }.

(** Where a member's operation is: not running, with the successor and what it
    answered, or about to notify a node. *)
Inductive Phase := AtRest | Asked (s : addr) (x : option addr) | ToNotify (t : addr).

Record Model := mkModel { links : Links; phase : addr → Phase }.

Section Protocol.
Context `{HashFns}.
Implicit Types (a b c x s t : addr) (L : Links) (m : Model) (X : gset addr).

Definition between x a s : bool := is_in_range_loop (aid x) (aid a) (aid s) false false.

Definition set_succ a x L : Links := mkLinks (<[a := x]> (succ_of L)) (pred_of L).
Definition set_pred a x L : Links := mkLinks (succ_of L) (<[a := Some x]> (pred_of L)).
Definition set_phase a p m : Model := mkModel (links m) (<[a := p]> (phase m)).

(** [t] takes [a] for its predecessor. *)
Definition takes t a L : bool :=
  match pred_of L t with None => true | Some p => between a p t end.

(** The next step of the operation of [a]. *)
Definition link_step a m : Model :=
  let L := links m in
  match phase m a with
  | AtRest => set_phase a (Asked (succ_of L a) (pred_of L (succ_of L a))) m
  | Asked s None => set_phase a (ToNotify s) m
  | Asked s (Some x) =>
      if decide (aid x = aid a) then set_phase a AtRest m
      else if between x a s then set_phase a (ToNotify x) (mkModel (set_succ a x L) (phase m))
      else set_phase a (ToNotify s) m
  | ToNotify t =>
      set_phase a AtRest (mkModel (if takes t a L then set_pred t a L else L) (phase m))
  end.

Definition run (schedule : list addr) m : Model := fold_left (λ m a, link_step a m) schedule m.

(** ** Invariants *)

Definition phase_ok X L a (p : Phase) : Prop :=
  match p with
  | AtRest => True
  | Asked s x => s = succ_of L a ∧ ∀ y, x = Some y → y ∈ X ∧ (s = a → y ≠ a → pred_of L a ≠ Some a)
  | ToNotify t => t = succ_of L a
  end.

(** Members link to members, and only a member that follows itself has itself
    for its predecessor. *)
Record links_ok X L : Prop := {
  lk_succ a : a ∈ X → succ_of L a ∈ X;
  lk_pred a b : a ∈ X → pred_of L a = Some b → b ∈ X;
  lk_self a : a ∈ X → pred_of L a = Some a → succ_of L a = a;
}.

Record model_ok X m : Prop := {
  mo_links : links_ok X (links m);
  mo_phase a : a ∈ X → phase_ok X (links m) a (phase m a);
}.

(** No successor passes over [b]. *)
Definition anchored X b L : Prop :=
  b ∈ X ∧ ∀ a, a ∈ X → ¬ in_arc (pos b) (pos a) (pos (succ_of L a)) false false.

(** The members strictly between two others, and how many a network's links
    pass over. *)
Definition arc X a b : gset addr := filter (λ c, in_arc (pos c) (pos a) (pos b) false false) X.

Definition passed X L a : nat :=
  (size (arc X a (succ_of L a)) + match pred_of L a with None => size X | Some p => size (arc X p a) end)%nat.

Definition measure X L : nat := sum_list_with (passed X L) (elements X).

(** The links of the ring. *)
Definition ring_links X L : Prop :=
  ∀ a, a ∈ X → succ_of L a = rsucc (ring_of X) a ∧ pred_of L a = Some (rpred (ring_of X) a).

(** A whole operation of any member changes nothing. *)
Definition settled X L : Prop := ∀ a, a ∈ X → pred_of L (succ_of L a) = Some a.

Definition turns a (schedule : list addr) : nat := length (filter (λ b, b = a) schedule).

(** Five turns: two may end an operation under way, three are a whole one. *)
Definition fair X (schedule : list addr) : Prop :=
  Forall (λ a, a ∈ X) schedule ∧ ∀ a, a ∈ X → (5 <= turns a schedule)%nat.

End Protocol.

(** ** Changes lower the measure *)

Lemma sum_list_with_lt {A} (f g : A → nat) l x : x ∈ l → (f x < g x)%nat → (∀ y, y ∈ l → (f y <= g y)%nat) →
  (sum_list_with f l < sum_list_with g l)%nat.
Proof.
  intros Hx Hlt Hle. assert (∀ l', (∀ y, y ∈ l' → (f y <= g y)%nat) → (sum_list_with f l' <= sum_list_with g l')%nat) as Hsum.
  { induction l' as [|y l' IH]; intros Hl'; cbn; [lia|]. specialize (IH (λ z Hz, Hl' z (list_elem_of_further _ _ _ Hz))).
    specialize (Hl' y (list_elem_of_here _ _)). lia. }
  induction Hx as [x l|x y l Hx IH]; cbn.
  - specialize (Hsum l (λ z Hz, Hle z (list_elem_of_further _ _ _ Hz))). lia.
  - specialize (IH Hlt (λ z Hz, Hle z (list_elem_of_further _ _ _ Hz))). specialize (Hle y (list_elem_of_here _ _)). lia.
Qed.

Section Progress.
Context `{HashFns} `{!HashOk _}.
Implicit Types (a b c x s t : addr) (L : Links) (m : Model) (X : gset addr).

Lemma between_arc x a s : between x a s = true ↔ in_arc (pos x) (pos a) (pos s) false false.
Proof. apply range_pos, aid_ok. Qed.

(** An arc that ends, or starts, at one of its points is smaller. *)
Lemma arc_shrinks_end X a x s : x ∈ X → in_arc (pos x) (pos a) (pos s) false false →
  (size (arc X a x) < size (arc X a s))%nat.
Proof.
  intros Hx Hin. pose proof (pos_point a). pose proof (pos_point x). pose proof (pos_point s). apply subset_size. split.
  - intros c. unfold arc. rewrite !elem_of_filter. intros [Hc ?]. split; [|done]. pose proof (pos_point c).
    cbn in *. split; ring_lia.
  - intros Hsub. assert (x ∈ arc X a x) as Hin' by (apply Hsub, elem_of_filter; done).
    apply elem_of_filter in Hin' as [[Hne Hlt] _]. cbn in *. ring_lia.
Qed.

Lemma arc_shrinks_start X p x t : x ∈ X → in_arc (pos x) (pos p) (pos t) false false →
  (size (arc X x t) < size (arc X p t))%nat.
Proof.
  intros Hx Hin. pose proof (pos_point p). pose proof (pos_point x). pose proof (pos_point t). apply subset_size. split.
  - intros c. unfold arc. rewrite !elem_of_filter. intros [Hc ?]. split; [|done]. pose proof (pos_point c).
    cbn in *. split; ring_lia.
  - intros Hsub. assert (x ∈ arc X x t) as Hin' by (apply Hsub, elem_of_filter; done).
    apply elem_of_filter in Hin' as [[Hne Hlt] _]. done.
Qed.

(** A member is not strictly between another one and itself. *)
Lemma arc_small X p t : t ∈ X → (size (arc X p t) < size X)%nat.
Proof.
  intros Ht. apply subset_size. split; [intros c; unfold arc; rewrite elem_of_filter; tauto|]. intros Hsub.
  apply Hsub in Ht. apply elem_of_filter in Ht as [[Hne Hlt] _]. destruct Hlt; [done|lia].
Qed.

Lemma measure_set_succ X L a x : a ∈ X → x ∈ X → in_arc (pos x) (pos a) (pos (succ_of L a)) false false →
  (measure X (set_succ a x L) < measure X L)%nat.
Proof.
  intros Ha Hx Hin. apply (sum_list_with_lt _ _ _ a); [by apply elem_of_elements|..].
  - unfold passed, set_succ. cbn [succ_of pred_of]. rewrite fn_lookup_insert.
    pose proof (arc_shrinks_end X a x _ Hx Hin). lia.
  - intros c _. destruct (decide (a = c)) as [<-|Hne].
    + unfold passed, set_succ. cbn [succ_of pred_of]. rewrite fn_lookup_insert.
      pose proof (arc_shrinks_end X a x _ Hx Hin). lia.
    + unfold passed, set_succ. cbn [succ_of pred_of]. by rewrite fn_lookup_insert_ne.
Qed.

Lemma measure_set_pred X L t a : a ∈ X → t ∈ X → takes t a L = true →
  (measure X (set_pred t a L) < measure X L)%nat.
Proof.
  intros Ha Ht Htake. assert (passed X (set_pred t a L) t < passed X L t)%nat as Hlt.
  { unfold passed, set_pred. cbn [succ_of pred_of]. rewrite fn_lookup_insert. unfold takes in Htake.
    destruct (pred_of L t) as [p|]; [|pose proof (arc_small X a t Ht); lia].
    apply between_arc in Htake. pose proof (arc_shrinks_start X p a t Ha Htake). lia. }
  apply (sum_list_with_lt _ _ _ t); [by apply elem_of_elements|done|]. intros c _.
  destruct (decide (t = c)) as [<-|Hne]; [lia|]. unfold passed, set_pred. cbn [succ_of pred_of].
  by rewrite fn_lookup_insert_ne.
Qed.

(** A step changes no link, or lowers the measure. *)
Lemma link_step_measure X m a : model_ok X m → a ∈ X →
  links (link_step a m) = links m ∨ (measure X (links (link_step a m)) < measure X (links m))%nat.
Proof.
  intros Hok Ha. pose proof (mo_phase _ _ Hok a Ha) as Hph. unfold link_step.
  destruct (phase m a) as [|s [x|]|t]; [by left| |by left|].
  - destruct Hph as [-> Hx]. case_decide; [by left|]. destruct (between x a _) eqn:E; [|by left]. right.
    apply between_arc in E. by apply measure_set_succ; [|apply Hx|].
  - cbn in Hph. subst t. cbn. destruct (takes _ a (links m)) eqn:E; [|by left]. right.
    by apply measure_set_pred; [|apply (mo_links _ _ Hok)|].
Qed.

Lemma link_step_ok X m a : model_ok X m → a ∈ X → model_ok X (link_step a m).
Proof.
  intros Hok Ha. pose proof (mo_phase _ _ Hok a Ha) as Hph. destruct Hok as [[Hs Hp Hself] Hphase].
  assert (∀ p, phase_ok X (links m) a p → model_ok X (set_phase a p m)) as Hset.
  { intros p Hpo. constructor; [by constructor|]. intros c Hc. cbn. destruct (decide (a = c)) as [<-|Hne].
    - by rewrite fn_lookup_insert.
    - rewrite fn_lookup_insert_ne by done. by apply Hphase. }
  unfold link_step. destruct (phase m a) as [|s [x|]|t] eqn:E.
  - apply Hset. split; [done|]. intros y Hy. split; [eapply Hp; [|done]; by apply Hs|].
    intros Es Hne. rewrite Es in Hy. rewrite Hy. by intros [= ->].
  - destruct Hph as [-> Hx]. destruct (Hx x eq_refl) as [HxX Hx']. case_decide as Hid; [by apply Hset|].
    destruct (between x a _); [|by apply Hset].
    constructor; [constructor; cbn; [|done|]|cbn].
    + intros c Hc. destruct (decide (a = c)) as [<-|]; [by rewrite fn_lookup_insert|].
      rewrite fn_lookup_insert_ne by done. by apply Hs.
    + intros c Hc Hcc. destruct (decide (a = c)) as [<-|]; [|rewrite fn_lookup_insert_ne by done; by apply Hself].
      exfalso. apply Hx'; [by apply Hself| |done]. by intros ->.
    + intros c Hc. destruct (decide (a = c)) as [<-|Hne]; [rewrite fn_lookup_insert; cbn; by rewrite fn_lookup_insert|].
      rewrite fn_lookup_insert_ne by done. specialize (Hphase c Hc). unfold phase_ok in *.
      destruct (phase m c); [done| |]; cbn; by rewrite fn_lookup_insert_ne.
  - apply Hset. by destruct Hph as [-> _].
  - cbn in Hph. subst t. set (t := succ_of (links m) a) in *.
    constructor; [constructor|]; cbn.
    + intros c Hc. case_match; by apply Hs.
    + intros c d Hc. case_match; [|by apply Hp]. cbn. destruct (decide (t = c)) as [<-|].
      * rewrite fn_lookup_insert. by intros [= <-].
      * rewrite fn_lookup_insert_ne by done. by apply Hp.
    + intros c Hc. case_match; [|by apply Hself]. cbn. destruct (decide (t = c)) as [<-|].
      * rewrite fn_lookup_insert. intros [= Et]. unfold t in *. by rewrite <- !Et.
      * rewrite fn_lookup_insert_ne by done. by apply Hself.
    + intros c Hc. destruct (decide (a = c)) as [<-|Hne]; [by rewrite fn_lookup_insert|].
      rewrite fn_lookup_insert_ne by done. specialize (Hphase c Hc). destruct (takes t a (links m)); [|done].
      unfold phase_ok in *. destruct (phase m c) as [|s x|]; [done| |done]. destruct Hphase as [-> Hx]. split; [done|].
      intros y Hy. destruct (Hx y Hy) as [HyX Hyc]. split; [done|]. intros Es Hyne. cbn.
      destruct (decide (t = c)) as [->|]; [rewrite fn_lookup_insert; congruence|].
      rewrite fn_lookup_insert_ne by done. by apply Hyc.
Qed.

Lemma link_step_anchored X m a b : model_ok X m → a ∈ X → anchored X b (links m) → anchored X b (links (link_step a m)).
Proof.
  intros Hok Ha [Hb Hanc]. pose proof (mo_phase _ _ Hok a Ha) as Hph. split; [done|]. intros c Hc. specialize (Hanc c Hc).
  unfold link_step. destruct (phase m a) as [|s [x|]|t]; [done| |done|by cbn; case_match].
  case_decide; [done|]. destruct (between x a s) eqn:E; [|done]. cbn.
  destruct (decide (a = c)) as [<-|]; [|by rewrite fn_lookup_insert_ne]. rewrite fn_lookup_insert.
  apply between_arc in E. destruct Hph as [-> _]. intros Hin. apply Hanc.
  pose proof (pos_point a). pose proof (pos_point b). pose proof (pos_point x). pose proof (pos_point (succ_of (links m) a)).
  clear Hanc. cbn in *. split; [tauto|]. ring_lia.
Qed.

(** ** Runs *)

Lemma run_ok X b schedule m : Forall (λ a, a ∈ X) schedule → model_ok X m → anchored X b (links m) →
  model_ok X (run schedule m) ∧ anchored X b (links (run schedule m)) ∧
  (measure X (links (run schedule m)) <= measure X (links m))%nat.
Proof.
  intros Hsch. revert m. induction Hsch as [|a schedule Ha _ IH]; intros m Hok Hanc; [done|]. cbn.
  destruct (IH (link_step a m)) as (? & ? & Hle); [by apply link_step_ok|by apply link_step_anchored|].
  split_and!; [done..|]. unfold run in Hle. destruct (link_step_measure X m a Hok Ha) as [E|]; [rewrite E in Hle|]; lia.
Qed.

(** No step of the schedule changes a link. *)
Fixpoint steady (schedule : list addr) m : Prop :=
  match schedule with
  | [] => True
  | a :: schedule => links (link_step a m) = links m ∧ steady schedule (link_step a m)
  end.

Lemma run_steady X b schedule m : Forall (λ a, a ∈ X) schedule → model_ok X m → anchored X b (links m) →
  steady schedule m ∨ (measure X (links (run schedule m)) < measure X (links m))%nat.
Proof.
  intros Hsch. revert m. induction Hsch as [|a schedule Ha Hsch IH]; intros m Hok Hanc; [by left|].
  pose proof (link_step_ok X m a Hok Ha) as Hok'. pose proof (link_step_anchored X m a b Hok Ha Hanc) as Hanc'.
  cbn. destruct (link_step_measure X m a Hok Ha) as [E|Hlt].
  - destruct (IH _ Hok' Hanc') as [|Hlt]; [by left|right]. by rewrite E in Hlt.
  - right. destruct (run_ok X b schedule _ Hsch Hok' Hanc') as (_ & _ & Hle). unfold run in Hle. lia.
Qed.

Lemma steady_links schedule m : steady schedule m → links (run schedule m) = links m.
Proof.
  revert m. induction schedule as [|a schedule IH]; intros m; [done|]. intros [E Hst]. cbn.
  rewrite <- E. by apply IH.
Qed.

(** The next turn of a member in a steady run. *)
Lemma next_turn a schedule m : steady schedule m → (1 <= turns a schedule)%nat →
  ∃ m1 rest, phase m1 a = phase m a ∧ links m1 = links m ∧ links (link_step a m1) = links m ∧
    steady rest (link_step a m1) ∧ turns a schedule = S (turns a rest).
Proof.
  revert m. induction schedule as [|c schedule IH]; intros m Hst Hn; [cbn in Hn; lia|]. destruct Hst as [E Hst].
  destruct (decide (c = a)) as [->|Hne].
  { exists m, schedule. split_and!; [done..|]. unfold turns. by rewrite filter_cons_True. }
  unfold turns in Hn. rewrite filter_cons_False in Hn by done.
  destruct (IH _ Hst Hn) as (m1 & rest & Hph & Hl & Hl' & Hst' & Ht). rewrite E in Hl, Hl'.
  exists m1, rest. split_and!; [|done..|unfold turns at 1; by rewrite filter_cons_False].
  rewrite Hph. unfold link_step. by repeat case_match; cbn; rewrite ?fn_lookup_insert_ne.
Qed.

(** A node between whom and [s] the member [a] is not is past [a]. *)
Lemma not_between_takes x a s : pos x ≠ pos a → between x a s = false → between a x s = true.
Proof.
  intros Hne Hno. apply between_arc. apply not_true_iff_false in Hno. rewrite between_arc in Hno.
  pose proof (pos_point a). pose proof (pos_point x). pose proof (pos_point s). cbn in *. split; [done|].
  destruct (decide (pos x = pos s)); [by left|right]. apply Z.nle_gt. intros Hle. apply Hno. split; [done|].
  destruct (decide (pos a = pos s)); [by left|right]. ring_lia.
Qed.

(** A member about to notify its successor changes a link, if its successor
    has a predecessor that is further away, or none. *)
Lemma notify_changes X a schedule m : a ∈ X → succ_of (links m) a ∈ X → steady schedule m →
  phase m a = ToNotify (succ_of (links m) a) → (1 <= turns a schedule)%nat →
  ¬ ∀ x, pred_of (links m) (succ_of (links m) a) = Some x → pos x ≠ pos a ∧ between x a (succ_of (links m) a) = false.
Proof.
  intros Ha Hs Hst Hph Hn Hx. destruct (next_turn a schedule m Hst Hn) as (m1 & _ & Hp1 & Hl1 & Hl1' & _ & _).
  rewrite Hph in Hp1. unfold link_step in Hl1'. rewrite Hp1 in Hl1'. cbn in Hl1'. rewrite Hl1 in Hl1'.
  set (L := links m) in *. assert (takes (succ_of L a) a L = true) as E.
  { unfold takes. destruct (pred_of L (succ_of L a)) as [x|]; [|done]. destruct (Hx x eq_refl).
    by apply not_between_takes. }
  rewrite E in Hl1'. pose proof (measure_set_pred X L _ a Ha Hs E) as Hlt. rewrite Hl1' in Hlt. lia.
Qed.

(** From rest, three turns without a change show that the member's successor
    has it for its predecessor. *)
Lemma settled_from_rest X a schedule m : spread X → links_ok X (links m) → a ∈ X → steady schedule m →
  phase m a = AtRest → (3 <= turns a schedule)%nat → pred_of (links m) (succ_of (links m) a) = Some a.
Proof.
  intros Hsp Hok Ha Hst Hph Hn. pose proof (lk_succ _ _ Hok a Ha) as Hs.
  destruct (next_turn a schedule m Hst) as (m1 & r1 & Hp1 & Hl1 & Hl1' & Hst1 & Ht1); [lia|].
  rewrite Hph in Hp1. destruct (next_turn a r1 _ Hst1) as (m2 & r2 & Hp2 & Hl2 & Hl2' & Hst2 & Ht2); [lia|].
  unfold link_step in Hp2. rewrite Hp1 in Hp2. cbn in Hp2. rewrite fn_lookup_insert, Hl1 in Hp2.
  rewrite Hl1' in Hl2, Hl2'. set (m3 := link_step a m2) in *. set (s := succ_of (links m) a) in *.
  assert (phase m3 a = ToNotify s → (∀ x, pred_of (links m) s = Some x → pos x ≠ pos a ∧ between x a s = false) → False)
    as Hend.
  { intros Hp3. pose proof (notify_changes X a r2 m3 Ha) as H3. rewrite Hl2' in H3. by apply H3; [..|lia]. }
  unfold m3, link_step in Hend, Hl2'. rewrite Hp2 in Hend, Hl2'. destruct (pred_of (links m) s) as [x|] eqn:Hx.
  - destruct (decide (aid x = aid a)) as [E|E].
    { f_equal. apply Hsp; [by eapply lk_pred|done|unfold pos; by rewrite E]. }
    exfalso. destruct (between x a s) eqn:Hb.
    + cbn in Hl2'. rewrite Hl2 in Hl2'. apply between_arc in Hb.
      pose proof (measure_set_succ X (links m) a x Ha (lk_pred _ _ Hok _ _ Hs Hx) Hb) as Hlt. rewrite Hl2' in Hlt. lia.
    + apply Hend; [apply fn_lookup_insert|]. intros ? [= <-]. split; [|done].
      intros E'. apply E, id_num_inj; [apply aid_ok..|done].
  - exfalso. apply Hend; [apply fn_lookup_insert|done].
Qed.

(** Two turns end an operation that is under way. *)
Lemma rest_soon a schedule m n : steady schedule m → (2 + n <= turns a schedule)%nat →
  ∃ m' rest, phase m' a = AtRest ∧ links m' = links m ∧ steady rest m' ∧ (n <= turns a rest)%nat.
Proof.
  assert (∀ schedule m t, steady schedule m → phase m a = ToNotify t → (1 + n <= turns a schedule)%nat →
    ∃ m' rest, phase m' a = AtRest ∧ links m' = links m ∧ steady rest m' ∧ (n <= turns a rest)%nat) as Hnotify.
  { clear. intros schedule m t Hst Hph Hn.
    destruct (next_turn a schedule m Hst) as (m1 & r1 & Hp1 & _ & Hl1 & Hst1 & Ht1); [lia|].
    exists (link_step a m1), r1. split_and!; [|done..|lia]. rewrite Hph in Hp1. unfold link_step. rewrite Hp1.
    apply fn_lookup_insert. }
  intros Hst Hn. destruct (phase m a) as [|s x|t] eqn:Hph; [exists m, schedule; split_and!; done || lia| |].
  - destruct (next_turn a schedule m Hst) as (m1 & r1 & Hp1 & _ & Hl1 & Hst1 & Ht1); [lia|]. rewrite Hph in Hp1.
    assert (phase (link_step a m1) a = AtRest ∨ ∃ t, phase (link_step a m1) a = ToNotify t) as [Hr|[t Ht]].
    { unfold link_step. rewrite Hp1. repeat case_match; cbn; rewrite fn_lookup_insert; eauto. }
    + exists (link_step a m1), r1. split_and!; done || lia.
    + rewrite <- Hl1. apply (Hnotify r1 _ t); [done..|lia].
  - apply (Hnotify schedule m t); [done..|lia].
Qed.

(** A fair schedule without a change shows that all members are settled. *)
Lemma steady_settled X schedule m : spread X → model_ok X m → fair X schedule → steady schedule m →
  settled X (links m).
Proof.
  intros Hsp [Hok _] [_ Hturns] Hst a Ha.
  destruct (rest_soon a schedule m 3 Hst (Hturns a Ha)) as (m' & rest & Hph & El & Hst' & Hn).
  rewrite <- El in *. by apply (settled_from_rest X a rest).
Qed.

(** ** A settled network is the ring *)

(** The distance from the anchor, and what it says of a successor's arc. *)
Lemma anchored_arc X L a b c : anchored X b L → a ∈ X → c ∈ X → spread X → succ_of L a ∈ X →
  in_arc (pos c) (pos a) (pos (succ_of L a)) false false ↔
  cw (pos b) (pos a) < cw (pos b) (pos c) ∧ (succ_of L a = b ∨ cw (pos b) (pos c) < cw (pos b) (pos (succ_of L a))).
Proof.
  intros [Hb Hanc] Ha Hc Hsp Hs. specialize (Hanc a Ha). set (s := succ_of L a) in *.
  pose proof (pos_point a). pose proof (pos_point b). pose proof (pos_point c). pose proof (pos_point s).
  assert (s = b ↔ pos s = pos b) as -> by (split; [by intros ->|by apply Hsp]).
  assert (pos b = pos a ∨ ¬ (pos a = pos s ∨ cw (pos a) (pos b) < cw (pos a) (pos s))) as Hb'.
  { destruct (decide (pos b = pos a)); [by left|right]. intros ?. apply Hanc. by split. }
  clear Hanc. cbn. split.
  - intros [Hne Hin]. ring_lia.
  - intros [Hlt Hor]. split; ring_lia.
Qed.

Lemma anchored_next X L a b : anchored X b L → a ∈ X → spread X → succ_of L a ∈ X →
  succ_of L a = b ∨ cw (pos b) (pos a) < cw (pos b) (pos (succ_of L a)).
Proof.
  intros [Hb Hanc] Ha Hsp Hs. specialize (Hanc a Ha). set (s := succ_of L a) in *.
  destruct (decide (pos s = pos b)) as [|Hne]; [left; by apply Hsp|right]. apply Z.nle_gt. intros Hle. apply Hanc.
  pose proof (pos_point a). pose proof (pos_point b). pose proof (pos_point s). clear Hanc. cbn.
  destruct (decide (pos a = pos s)) as [->|]; [split; [done|by left]|]. split; ring_lia.
Qed.

(** In a settled network no member lies between a member and its successor:
    of two arcs that overlap, one reaches further from the anchor. *)
Lemma settled_adjacent X L b : spread X → links_ok X L → anchored X b L → settled X L →
  ∀ c a, a ∈ X → c ∈ X → ¬ in_arc (pos c) (pos a) (pos (succ_of L a)) false false.
Proof.
  intros Hsp [Hs _ _] Hanc Hset c. remember (Z.to_nat (ring_size - cw (pos b) (pos c))) as n eqn:En. revert c En.
  induction n as [n IH] using lt_wf_ind; intros c -> a Ha Hc Hin.
  assert (∀ c' a', a' ∈ X → c' ∈ X → cw (pos b) (pos c) < cw (pos b) (pos c') →
    ¬ in_arc (pos c') (pos a') (pos (succ_of L a')) false false) as Hnext.
  { intros c' a' Ha' Hc' Hlt. pose proof (cw_range (pos b) (pos c')). pose proof (cw_range (pos b) (pos c)).
    eapply IH; [|done..]. lia. }
  clear IH. pose proof (Hs a Ha) as Hsa. pose proof (Hs c Hc) as Hsc.
  assert (succ_of L a ≠ succ_of L c) as Hinj.
  { intros E. pose proof (Hset a Ha) as E1. rewrite E, (Hset c Hc) in E1. injection E1 as ->. by destruct Hin. }
  assert (cw (pos b) (pos (succ_of L a)) ≠ cw (pos b) (pos (succ_of L c))) as Hne.
  { intros E. apply Hinj, Hsp; [done..|]. by apply (cw_inj (pos b)); [apply pos_point..|]. }
  rewrite (anchored_arc X L a b c) in Hin by done. destruct Hin as [Hac Hor].
  pose proof (anchored_next X L c b Hanc Hc Hsp Hsc) as Hc'.
  destruct (decide (succ_of L a ≠ b ∧ (succ_of L c = b ∨ cw (pos b) (pos (succ_of L a)) < cw (pos b) (pos (succ_of L c)))))
    as [[Hab Hfar]|Hnear].
  - destruct Hor as [|Hor]; [done|]. apply (Hnext (succ_of L a) c); [done..|].
    by apply (anchored_arc X L c b (succ_of L a)).
  - assert (succ_of L c ≠ b) as Hcb by (intros E; apply Hnear; split; [congruence|by left]).
    destruct Hc' as [|Hc']; [done|]. apply (Hnext (succ_of L c) a); [done..|].
    apply (anchored_arc X L a b (succ_of L c)); [done..|]. split; [lia|]. destruct Hor as [|Hor]; [by left|].
    destruct (decide (succ_of L a = b)); [by left|right]. destruct (Z.lt_trichotomy (cw (pos b) (pos (succ_of L c)))
      (cw (pos b) (pos (succ_of L a)))) as [|[|]]; [done|congruence|]. exfalso. apply Hnear. auto.
Qed.

Lemma settled_ring X L b : spread X → links_ok X L → anchored X b L → settled X L → ring_links X L.
Proof.
  intros Hsp Hok Hanc Hset. pose proof (ring_of_ok X Hsp) as HR.
  assert (∀ a, a ∈ X → succ_of L a = rsucc (ring_of X) a) as Hsucc.
  { intros a Ha. symmetry. apply succ_unique; [done|done|by apply (lk_succ X L)|].
    intros c Hc. by apply (settled_adjacent X L b). }
  intros a Ha. split; [by apply Hsucc|]. pose proof (ring_pred_mem _ HR a Ha) as Hp.
  rewrite <- (Hset _ Hp), (Hsucc _ Hp). by rewrite (ring_succ_pred _ HR a Ha).
Qed.

(** The ring passes over nobody, so it does not change any more. *)
Lemma ring_measure X L : spread X → ring_links X L → measure X L = 0%nat.
Proof.
  intros Hsp HL. pose proof (ring_of_ok X Hsp) as HR.
  assert (∀ l, (∀ a, a ∈ l → a ∈ X) → sum_list_with (passed X L) l = 0%nat) as Hsum.
  { induction l as [|a l IH]; intros Hl; [done|]. cbn. rewrite IH by (intros c Hc; apply Hl; by right).
    assert (a ∈ X) as Ha by (apply Hl; by left). destruct (HL a Ha) as [Hs Hp]. unfold passed. rewrite Hs, Hp.
    assert (arc X a (rsucc (ring_of X) a) = ∅ ∧ arc X (rpred (ring_of X) a) a = ∅) as [-> ->]; [|done].
    split; apply set_eq; intros c; unfold arc; rewrite elem_of_filter, elem_of_empty; (split; [|done]); intros [Hc HcX].
    - by apply (ring_adjacent _ HR a c).
    - by apply (pred_adjacent (ring_of X) a c). }
  apply Hsum. intros a. by rewrite elem_of_elements.
Qed.

Lemma ring_stable X m a : spread X → model_ok X m → ring_links X (links m) → a ∈ X → links (link_step a m) = links m.
Proof.
  intros Hsp Hok HL Ha. destruct (link_step_measure X m a Hok Ha) as [|Hlt]; [done|].
  rewrite (ring_measure X _ Hsp HL) in Hlt. lia.
Qed.

Lemma measure_bound X L : (measure X L <= size X * (2 * size X))%nat.
Proof.
  assert (∀ l, (sum_list_with (passed X L) l <= length l * (2 * size X))%nat) as Hsum; [|apply Hsum].
  assert (∀ p t, (size (arc X p t) <= size X)%nat) as Harc.
  { intros p t. apply subseteq_size. intros c. unfold arc. rewrite elem_of_filter. tauto. }
  induction l as [|a l IH]; cbn [sum_list_with length]; [lia|]. pose proof (Harc a (succ_of L a)). unfold passed at 1.
  destruct (pred_of L a) as [p|]; [pose proof (Harc p a)|]; nia.
Qed.

(** ** Convergence *)

(** More fair rounds than the measure lead to the ring. *)
Lemma rounds_converge X b rounds m : spread X → model_ok X m → anchored X b (links m) →
  Forall (fair X) rounds → (measure X (links m) < length rounds)%nat ∨ ring_links X (links m) →
  model_ok X (run (concat rounds) m) ∧ ring_links X (links (run (concat rounds) m)).
Proof.
  intros Hsp Hok Hanc Hrounds. revert m Hok Hanc. induction Hrounds as [|round rounds Hround _ IH]; intros m Hok Hanc Hm.
  { destruct Hm as [Hm|]; [cbn in Hm; lia|done]. }
  cbn [concat]. unfold run. rewrite fold_left_app. fold (run round m). fold (run (concat rounds) (run round m)).
  destruct (run_ok X b round m (proj1 Hround) Hok Hanc) as (Hok' & Hanc' & _). apply IH; [done..|].
  destruct (run_steady X b round m (proj1 Hround) Hok Hanc) as [Hst|Hlt].
  - right. rewrite (steady_links _ _ Hst). destruct Hm as [_|]; [|done].
    eapply settled_ring; [done|apply Hok|done|]. by eapply steady_settled.
  - left. destruct Hm as [Hm|Hm]; [cbn in Hm; lia|]. rewrite (ring_measure X _ Hsp Hm) in Hlt. lia.
Qed.

End Progress.
