(* ===== verification/Linked.v ===== *)
(** * Linked: networks whose nodes have the links of a protocol state

    What it means that the nodes of a network ([World]) have the successors and
    predecessors of a state of the protocol of Converge.v, with any other
    fingers. Such a network offers the interface of Loose.v, so lookups end in
    it, and a turn of [Dht::fixFingers] (src/dht/Dht.cpp) at any index changes
    fingers but no link ([fix_refines]). *)

From stdpp Require Import functions.
From S2P Require Import Prelude Util Ring NodeInfo Message Peer Topology Lookup Network Dht PoW Maintenance Growth Failure Robust Loose Converge.

(** ** What maintenance leaves alone *)

(** The same nodes run, with the same data, at the same time. *)
Record same_data (w0 w : World) : Prop := {
  sd_data a : m_data <$> w_nodes w !! a = m_data <$> w_nodes w0 !! a;
  sd_statics : w_statics w = w_statics w0;
  sd_now : w_now w = w_now w0;
}.

#[export] Instance same_data_preorder : PreOrder same_data.
Proof.
  split; [by constructor|]. intros w1 w2 w3 [D1 S1 N1] [D2 S2 N2]. constructor; [|congruence..].
  intros a. by rewrite D2.
Qed.

Lemma same_data_update w0 w a f : (∀ s, w_nodes w !! a = Some s → m_data (f s) = m_data s) → same_data w0 w →
  same_data w0 (w_update a f w).
Proof.
  intros Hf [D S N]. constructor; [|done..]. intros b. rewrite <- D. destruct (decide (a = b)) as [<-|].
  - destruct (w_nodes w !! a) as [s|] eqn:E; [rewrite (lookup_update_eq _ _ _ _ E)|]; cbn.
    + by rewrite Hf.
    + by rewrite lookup_alter_eq, E.
  - by rewrite lookup_update_ne.
Qed.

(** ** Links of nodes *)

Section Linked.
Context `{HashFns} `{!HashOk _}.
Implicit Types (w : World) (s : NodeInformation) (L : Links) (a b c : addr).

(** [K a b]: node [a] may have [b] among its fingers; the nodes of [F] have
    their successor in the first finger (others in the first populated one);
    nodes outside [X] are as in [w0], and so is everybody's data. *)
Context (X : gset addr) (K : addr → addr → Prop) (F : gset addr) (w0 : World).

Record link_view a (p : option addr) (q : addr) s : Prop := {
  lv_node : getNode s = nd a;
  lv_table : table_ok s;
  lv_pred : getPredecessor s = nd <$> p;
  lv_succ : getSuccessor s = Some (nd q);
  lv_first : a ∈ F → m_fingerTable s !! 0%nat = Some (Some (nd q));
  lv_fingers j n : m_fingerTable s !! j = Some (Some n) → ∃ b, K a b ∧ n = nd b;
}.

Record linked w L : Prop := {
  ln_node a : a ∈ X → ∃ s, w_nodes w !! a = Some s ∧ link_view a (pred_of L a) (succ_of L a) s;
  ln_outside a : a ∉ X → w_nodes w !! a = w_nodes w0 !! a;
  ln_data : same_data w0 w;
}.

Lemma lv_id a p q s : link_view a p q s → getId s = aid a.
Proof. intros Hv. unfold getId. fold (getNode s). by rewrite (lv_node _ _ _ _ Hv). Qed.

Lemma lv_setPredecessor a p q s p' : link_view a p q s → link_view a (Some p') q (setPredecessor (Some (nd p')) s).
Proof. intros []. by constructor. Qed.

Lemma lv_setSuccessor a p q s b : link_view a p q s → K a b → link_view a p b (setSuccessor (Some (nd b)) s).
Proof.
  intros [] Hb. assert (m_fingerTable (setSuccessor (Some (nd b)) s) !! 0%nat = Some (Some (nd b))) as H0.
  { cbn. apply list_lookup_insert_eq. rewrite lv_table0. by vm_compute; lia. }
  constructor; [done|by apply table_ok_setSuccessor|done|by apply getSuccessor_first|done|]. cbn.
  intros j n Hj. apply list_lookup_insert_Some in Hj as [(_ & [= <-] & _)|[_ Hj]]; eauto.
Qed.

Lemma linked_update w L L' a f : linked w L → a ∈ X →
  (∀ s, link_view a (pred_of L a) (succ_of L a) s → link_view a (pred_of L' a) (succ_of L' a) (f s)) →
  (∀ c, c ≠ a → succ_of L' c = succ_of L c ∧ pred_of L' c = pred_of L c) →
  (∀ s, m_data (f s) = m_data s) → linked (w_update a f w) L'.
Proof.
  intros Hw Ha Hf Hother Hdata. constructor; [| |by apply same_data_update; [auto|apply Hw]].
  - intros c Hc. destruct (ln_node _ _ Hw c Hc) as (s & Hs & Hv). destruct (decide (c = a)) as [->|Hne].
    + exists (f s). split; [by apply lookup_update_eq|by apply Hf].
    + exists s. rewrite lookup_update_ne by done. destruct (Hother c Hne) as [-> ->]. done.
  - intros c Hc. rewrite lookup_update_ne by (by intros ->). by apply Hw.
Qed.

End Linked.

(** ** Lookups and finger repair *)

(** What a maintenance operation may rely on in a network of the nodes of [X]:
    fingers are members or nodes of [D], which do not run. *)
Record fingers_ok `{HashFns} (X D : gset addr) (K : addr → addr → Prop) (w0 : World) : Prop := {
  fo_members a b : a ∈ X → b ∈ X → K a b;
  fo_known a b : a ∈ X → K a b → b ∈ X ∪ D;
  fo_dead d : d ∉ X → d ∈ D → w_nodes w0 !! d = None;
  fo_spread : spread (X ∪ D);
}.

Section Fix.
Context `{HashFns} `{!HashOk _} (kj_throws : bool) (method : GetSuccessorMethod) (fuel : nat).
Local Abbreviation env := (world_env kj_throws method fuel).
Context (X D : gset addr) (K : addr → addr → Prop) (F : gset addr) (w0 : World) (HK : fingers_ok X D K w0).
Implicit Types (w : World) (s : NodeInformation) (L : Links) (a b c : addr) (id : list Z).

Lemma lv_loose L a p s : links_ok X L → a ∈ X → link_view K F a p (succ_of L a) s → loose_view X D a s.
Proof.
  intros Hok Ha []. constructor; [done|done|by exists p|exists (succ_of L a); split; [by apply Hok|done]|].
  intros j n Hj. destruct (lv_fingers0 j n Hj) as (b & Hb & ->). exists b. split; [by apply (fo_known _ _ _ _ HK a)|done].
Qed.

#[export] Instance linked_LooseEnv w L depth me : linked X K F w0 w L → links_ok X L → me ∈ X →
  LooseEnv (env (S depth) me) X D me w.
Proof.
  intros Hw Hok Hme. split; [done|apply HK|..].
  - destruct (ln_node _ _ _ _ _ _ Hw me Hme) as (s & Hs & Hv). exists s. rewrite (world_ni _ _ _ _ _ _ _ Hs). split; [done|].
    by eapply lv_loose.
  - intros a Ha. destruct (ln_node _ _ _ _ _ _ Hw a Ha) as (s & Hs & Hv). exists (pred_of L a).
    by rewrite (rpc_pred kj_throws method fuel depth me a w s Hs), (lv_pred _ _ _ _ _ _ Hv).
  - intros a id Ha Hid. destruct (ln_node _ _ _ _ _ _ Hw a Ha) as (s & Hs & Hv).
    destruct (loose_closest X D a s id) as (c & Hc & Hans); [by eapply lv_loose|done|]. exists c, (succ_of L a).
    split; [|split; [by apply Hok|done]]. rewrite (world_rpc _ _ _ _ _ _ _ _ _ Hs). cbn. unfold srv_getClosestPreceding.
    rewrite (bind_Ok _ _ _ _ _ (world_ni _ _ _ _ _ _ _ Hs)), idFromReader_id by apply Hid.
    rewrite Hc, bind_lift_Ok. by rewrite (lv_succ _ _ _ _ _ _ Hv).
  - intros d A r Hx Hd. eexists. apply world_rpc_absent. rewrite (ln_outside _ _ _ _ _ _ Hw d Hx). by apply HK.
Qed.

(** The two direct answers. *)
Lemma loose_direct w L depth me s id : linked X K F w0 w L → links_ok X L → me ∈ X → w_nodes w !! me = Some s →
  (∃ q, peer_getSuccessor (H0 := env (S depth) me) method fuel id w = (Ok (nd <$> q), w) ∧ members_only X q) ∨
  peer_getSuccessor (H0 := env (S depth) me) method fuel id w
    = getSuccessor_far (H0 := env (S depth) me) method fuel id s w.
Proof.
  intros Hw Hok Hme Hs. destruct (ln_node _ _ _ _ _ _ Hw me Hme) as (s' & Hs' & Hv). rewrite Hs in Hs'. injection Hs' as <-.
  unfold peer_getSuccessor. rewrite (bind_ni _ _ _ _ _ _ _ _ Hs).
  destruct (match getPredecessor s with Some pred => _ | None => false end).
  { left. exists (Some me). rewrite (lv_node _ _ _ _ _ _ Hv). split; [done|by intros ? [= <-]]. }
  rewrite (lv_succ _ _ _ _ _ _ Hv). destruct (is_in_range_loop id _ _ _ _); [left|by right].
  destruct (ln_node _ _ _ _ _ _ Hw _ (lk_succ _ _ Hok me Hme)) as (sq & Hsq & _). exists (Some (succ_of L me)).
  change (m_ip (nd (succ_of L me))) with (succ_of L me).1. change (m_port (nd (succ_of L me))) with (succ_of L me).2.
  rewrite (then_Ok _ _ _ _ _ _ (rpc_pred _ _ _ _ _ _ _ _ Hsq)). split; [done|intros ? [= <-]; by apply Hok].
Qed.

(** Every lookup ends, with either method, and answers with a member or none. *)
Lemma loose_lookup w L depth me id : linked X K F w0 w L → links_ok X L → me ∈ X → id_ok id →
  (3 * size (X ∪ D) + 2 <= fuel)%nat → (size (closer (ring_of X) (be_num id) me) <= depth)%nat →
  ∃ q, peer_getSuccessor (H0 := env (S depth) me) method fuel id w = (Ok (nd <$> q), w) ∧ members_only X q.
Proof.
  intros Hw Hok Hme Hid Hf. revert me Hme. induction depth as [depth IH] using lt_wf_ind; intros me Hme Hd.
  destruct (ln_node _ _ _ _ _ _ Hw me Hme) as (s & Hs & Hv). pose proof (linked_LooseEnv w L depth me Hw Hok Hme) as HE.
  destruct (loose_direct w L depth me s id Hw Hok Hme Hs) as [|E]; [done|]. rewrite E.
  destruct (loose_closest X D me s id (lv_loose L me _ s Hok Hme Hv) Hid) as (c & Hc & Hans). clear E.
  destruct method; cbn [getSuccessor_far]; [|rewrite (lv_node _ _ _ _ _ _ Hv); by apply (loose_local X D me w HE)].
  rewrite Hc, bind_lift_Ok. destruct c as [b|]; cbn [fmap option_fmap option_map]; [|by exists None].
  change (m_ip (nd b)) with b.1. change (m_port (nd b)) with b.2. destruct (Hans b eq_refl) as [Hb Hin].
  destruct (decide (b ∈ X)) as [Hbx|Hbx].
  - apply gap_arc in Hin; [|by apply be_num_point|apply pos_point..]. apply (closer_size (ring_of X)) in Hin; [|done].
    destruct depth as [|depth]; [lia|]. destruct (IH depth ltac:(lia) b Hbx ltac:(lia)) as (q & Hq & Hmem). exists q. split; [|done].
    destruct (ln_node _ _ _ _ _ _ Hw b Hbx) as (sb & Hsb & _).
    assert (env_rpc (PeerEnv := world_env kj_throws PASS_ON fuel (S (S depth)) me) b.1 b.2 (GetSuccessorReq id) w
      = (Ok (buildNode_opt (nd <$> q)), w)) as Hrpc.
    { rewrite (world_rpc _ _ _ _ _ _ _ _ _ Hsb). cbn [serve]. unfold srv_getSuccessor.
      rewrite idFromReader_id by apply Hid. by rewrite (bind_Ok _ _ _ _ _ Hq). }
    rewrite (then_Ok _ _ _ _ _ _ Hrpc). by rewrite nd_roundtrip_opt.
  - apply elem_of_union in Hb as [?|Hbd]; [done|].
    destruct (le_dead (LooseEnv := HE) b _ (GetSuccessorReq id) Hbx Hbd) as [e He].
    exists None. split; [|done]. by rewrite (then_Exn _ _ _ _ _ _ He).
Qed.

(** A lookup of the next identifier finds the successor. *)
Lemma loose_next w L depth me s : linked X K F w0 w L → links_ok X L → me ∈ X → w_nodes w !! me = Some s →
  peer_getSuccessor (H0 := env (S depth) me) method fuel (finger_start s 0) w = (Ok (Some (nd (succ_of L me))), w).
Proof.
  intros Hw Hok Hme Hs. destruct (ln_node _ _ _ _ _ _ Hw me Hme) as (s' & Hs' & Hv). rewrite Hs in Hs'. injection Hs' as <-.
  destruct (finger_start_num me s 0 (lv_id _ _ _ _ _ _ Hv)) as [Hid Hnum]; [by vm_compute; lia|].
  change (2 ^ Z.of_nat 0) with 1 in Hnum. pose proof (cw_next (pos me) (pos_point me)) as Hcw. rewrite <- Hnum in Hcw.
  pose proof (be_num_point _ Hid) as Pid. pose proof (pos_point me). set (q := succ_of L me) in *. pose proof (pos_point q).
  unfold peer_getSuccessor. rewrite (bind_ni _ _ _ _ _ _ _ _ Hs), (lv_pred _ _ _ _ _ _ Hv), (lv_succ _ _ _ _ _ _ Hv).
  rewrite (lv_id _ _ _ _ _ _ Hv), getId_nd, (lv_node _ _ _ _ _ _ Hv).
  destruct (match nd <$> pred_of L me with Some pred => _ | None => false end) eqn:E1.
  - destruct (pred_of L me) as [p|] eqn:Ep; [|done]. cbn [fmap option_fmap option_map] in E1. rewrite getId_nd in E1.
    apply range_pos in E1; [|done]. pose proof (pos_point p). assert (p = me) as ->; [|unfold q; by rewrite (lk_self _ _ Hok me Hme Ep)].
    apply (fo_spread _ _ _ _ HK); [apply elem_of_union; left; by eapply lk_pred|apply elem_of_union; by left|].
    cbn [in_arc] in E1. ring_lia.
  - rewrite (proj2 (range_pos _ me q false true Hid)); [|cbn [in_arc]; ring_lia].
    destruct (ln_node _ _ _ _ _ _ Hw _ (lk_succ _ _ Hok me Hme)) as (sq & Hsq & _). fold q in Hsq.
    change (m_ip (nd q)) with q.1. change (m_port (nd q)) with q.2.
    by rewrite (then_Ok _ _ _ _ _ _ (rpc_pred _ _ _ _ _ _ _ _ Hsq)).
Qed.

(** A turn of [fixFingers] changes no link. *)
Lemma fix_refines w L depth me i : linked X K F w0 w L → links_ok X L → me ∈ X → me ∈ F → (i < key_bits)%nat →
  (3 * size (X ∪ D) + 2 <= fuel)%nat → (size X <= depth)%nat →
  ∃ w', fixFingers (H0 := env (S (S depth)) me) i w = (Ok ((i + 1) mod key_bits)%nat, w') ∧ linked X K F w0 w' L.
Proof.
  intros Hw Hok Hme HF Hi Hf Hd. destruct (ln_node _ _ _ _ _ _ Hw me Hme) as (s & Hs & Hv).
  assert (∃ q, peer_getSuccessor (H0 := env (S depth) me) method fuel (finger_start s i) w = (Ok (nd <$> q), w) ∧
    members_only X q ∧ (i = 0%nat → q = Some (succ_of L me))) as (q & Hq & Hmem & H0).
  { destruct (finger_start_num me s i (lv_id _ _ _ _ _ _ Hv) Hi) as [Hid _]. destruct (decide (i = 0%nat)) as [->|Hne].
    - exists (Some (succ_of L me)). split_and!; [by apply (loose_next w L)|intros ? [= <-]; by apply Hok|done].
    - destruct (loose_lookup w L depth me (finger_start s i) Hw Hok Hme Hid Hf) as (q & Hq & Hmem); [|by exists q].
      etrans; [apply (closer_bound (ring_of X))|exact Hd]. }
  eexists. split; [by apply (fixFingers_stores kj_throws method fuel (S depth) me w s i q); [done|apply Hv|apply Hv|..]|].
  set (t := <[i := nd <$> q]> (m_fingerTable s)).
  rewrite (w_update_ext me (λ _, with_fingers t s) (with_fingers t) w s Hs eq_refl).
  assert (link_view K F me (pred_of L me) (succ_of L me) (with_fingers t s)) as Hv'.
  { destruct Hv as [Vn Vt Vp Vs Vf Vg]. assert (t !! 0%nat = Some (Some (nd (succ_of L me)))) as Ht.
    { unfold t. destruct i as [|i]; [rewrite (H0 eq_refl); apply list_lookup_insert_eq; rewrite Vt; by vm_compute; lia|].
      rewrite list_lookup_insert_ne by done. by apply Vf. }
    constructor; [done|unfold table_ok; cbn [with_fingers m_fingerTable]; unfold t; by rewrite length_insert|done|
      by apply getSuccessor_first|done|].
    cbn [with_fingers m_fingerTable]. intros j n Hj. apply list_lookup_insert_Some in Hj as [(_ & Hj & _)|[_ Hj]]; [|by eapply Vg].
    destruct q as [b|]; [|done]. injection Hj as <-. exists b. split; [apply HK; [done|by apply Hmem]|done]. }
  constructor.
  - intros a Ha. destruct (decide (me = a)) as [<-|Hne]; [eexists; split; [by apply lookup_update_eq|done]|].
    rewrite lookup_update_ne by done. by apply Hw.
  - intros a Ha. rewrite lookup_update_ne by (by intros ->). by apply Hw.
  - apply same_data_update; [done|apply Hw].
Qed.

End Fix.
