(* ===== verification/Interleave.v ===== *)
(** * Interleave: stabilisations of different nodes at the same time

    [Dht::stabilize] of src/dht/Dht.cpp is cut at its remote calls: it asks the
    successor for its predecessor, decides with its own state what the answer
    means, and notifies a node. Between the parts of one node's operation other
    nodes run theirs, their checks of their predecessors and their repairs of
    fingers, with lookups through the unfinished network. The steps of the code
    implement those of the protocol of Converge.v ([net_step_refines]), so the
    links become those of the ring under every fair schedule
    ([rounds_refine]). *)

From stdpp Require Import functions.
From S2P Require Import Prelude Util Ring NodeInfo Message Peer Topology Lookup Network Dht PoW Maintenance Growth Loose Converge Linked.

(** ** The parts of stabilize *)

Section Parts.
Context `{HashFns} {W : Type} `{PeerEnv W}.

(** Up to the answer of the successor. *)
Definition stabilize_ask : M W (option (Node * option Node)) :=
  s ← env_ni;
  match getSuccessor s with
  | None => mret None
  | Some successor =>
      predOfSuccessor ← promise_then (env_rpc (m_ip successor) (m_port successor) GetPredecessorReq)
        (λ res, mret (nodeFromReader_opt res)) (λ _, mret None);
      mret (Some (successor, predOfSuccessor))
  end.

(** Up to the notification: the node to notify, if any. *)
Definition stabilize_decide (successor : Node) (predOfSuccessor : option Node) : M W (option Node) :=
  s ← env_ni;
  match predOfSuccessor with
  | Some p =>
      if decide (Node_getId p = getId s) then mret None
      else if is_in_range_loop (Node_getId p) (getId s) (Node_getId successor) false false
      then env_update (setSuccessor (Some p));; mret (Some p)
      else mret (Some successor)
  | None => mret (Some successor)
  end.

(** The operation is the composition of its parts. *)
Lemma stabilize_in_parts w :
  stabilize w =
  (asked ← stabilize_ask;
   match asked with
   | None => mret tt
   | Some (successor, predOfSuccessor) =>
       target ← stabilize_decide successor predOfSuccessor;
       match target with None => mret tt | Some n => notify_peer n end
   end) w.
Proof.
  unfold stabilize, stabilize_ask, stabilize_decide. unfold mbind, M_bind, promise_then, mret, M_ret.
  repeat (case_match; simplify_eq; try done).
Qed.

End Parts.

(** ** Networks with operations under way *)

(** Where a node's [stabilize] is. *)
Inductive Stage := Resting | Waiting (successor : Node) (answer : option Node) | Notifying (n : Node).

(** [net_next] is the member [nextFinger] of each node. *)
Record Net := mkNet { net_world : World; net_stage : addr → Stage; net_next : addr → nat }.

(** Nobody is in the middle of a stabilisation. *)
Definition at_rest (next : addr → nat) (w : World) : Net := mkNet w (λ _, Resting) next.

(** The next part of a node's [stabilize], or a whole [checkPredecessor] or
    [fixFingers]. *)
Inductive NetEvent := Stabilise (a : addr) | Check (a : addr) | Fix (a : addr).

#[export] Instance NetEvent_eq_dec : EqDecision NetEvent.
Proof. solve_decision. Defined.

Section Net.
Context `{HashFns} (kj_throws : bool) (method : GetSuccessorMethod) (fuel depth : nat).
Local Abbreviation env := (world_env kj_throws method fuel depth).

Definition finish {A} (o : outcome A * World) (k : A → World → Net) : outcome Net :=
  match o with
  | (Ok x, w) => Ok (k x w)
  | (Exn e, _) => Exn e
  | (UB e, _) => UB e
  | (NoFuel, _) => NoFuel
  end.

Definition net_step (e : NetEvent) (net : Net) : outcome Net :=
  let w := net_world net in
  match e with
  | Check a => finish (checkPredecessor (H0 := env a) w) (λ _ w, mkNet w (net_stage net) (net_next net))
  | Fix a => finish (fixFingers (H0 := env a) (net_next net a) w)
      (λ i w, mkNet w (net_stage net) (<[a := i]> (net_next net)))
  | Stabilise a =>
      let next stage w := mkNet w (<[a := stage]> (net_stage net)) (net_next net) in
      match net_stage net a with
      | Resting => finish (stabilize_ask (H0 := env a) w)
          (λ r, next (match r with Some (s, p) => Waiting s p | None => Resting end))
      | Waiting s p => finish (stabilize_decide (H0 := env a) s p w)
          (λ r, next (match r with Some n => Notifying n | None => Resting end))
      | Notifying n => finish (notify_peer (H0 := env a) n w) (λ _, next Resting)
      end
  end.

Fixpoint net_run (events : list NetEvent) (net : Net) : outcome Net :=
  match events with
  | [] => Ok net
  | e :: events => net ← net_step e net; net_run events net
  end.

End Net.

Definition stabilisations (events : list NetEvent) : list addr :=
  omap (λ e, match e with Stabilise a => Some a | _ => None end) events.

Definition event_node (e : NetEvent) : addr := match e with Stabilise a | Check a | Fix a => a end.

(** The nodes of [X] run; those of [F] repair their fingers, too. *)
Definition allowed (X F : gset addr) (e : NetEvent) : Prop :=
  event_node e ∈ X ∧ match e with Fix a => a ∈ F | _ => True end.

(** Every member takes five turns of its stabilisation, and nobody else runs. *)
Definition fair_events (X F : gset addr) (events : list NetEvent) : Prop :=
  Forall (allowed X F) events ∧ ∀ a, a ∈ X → (5 <= turns a (stabilisations events))%nat.

(** How often a node repairs a finger. *)
Definition repairs a (events : list NetEvent) : nat :=
  length (filter (λ e, e = Fix a) events).

(** A round of checks and five turns of every node in a list, with repairs of
    those in another. *)
Definition round (l fixing : list addr) : list NetEvent :=
  map Check l ++ map Fix fixing ++ concat (replicate 5 (map Stabilise l)).

Lemma stabilisations_app l l' : stabilisations (l ++ l') = stabilisations l ++ stabilisations l'.
Proof. apply omap_app. Qed.

Lemma map_event (f : addr → NetEvent) l e : e ∈ map f l → ∃ a, a ∈ l ∧ e = f a.
Proof. intros (a & <- & Ha)%list_elem_of_In%in_map_iff. exists a. by rewrite list_elem_of_In. Qed.

Lemma round_fair (X F : gset addr) l fixing : (∀ a, a ∈ l ↔ a ∈ X) → F ⊆ X → (∀ a, a ∈ fixing → a ∈ F) →
  fair_events X F (round l fixing).
Proof.
  intros Hl HF Hfix. split.
  - apply Forall_forall. intros e. unfold round. rewrite !elem_of_app. intros [He|[He|He]].
    + apply map_event in He as (a & Ha & ->). split; [by apply Hl|done].
    + apply map_event in He as (a & Ha & ->). split; [by apply HF, Hfix|by apply Hfix].
    + apply list_elem_of_In, in_concat in He as (r & Hr & He). apply list_elem_of_In, elem_of_replicate in Hr as [-> _].
      apply list_elem_of_In, map_event in He as (a & Ha & ->). split; [by apply Hl|done].
  - intros a Ha. assert (stabilisations (map Stabilise l) = l) as Hst.
    { clear. induction l as [|b l IH]; [done|]. cbn. by f_equal. }
    assert (∀ l, stabilisations (map Check l) = [] ∧ stabilisations (map Fix l) = []) as Hno
      by (clear; intros l; induction l as [|b l IH]; done).
    unfold round. cbn [replicate concat]. rewrite !stabilisations_app, (proj1 (Hno l)), (proj2 (Hno fixing)), Hst, !app_nil_l. unfold turns.
    rewrite !filter_app, !length_app. assert (1 <= length (filter (λ b, b = a) l))%nat; [|cbn; lia].
    destruct (filter (λ b, b = a) l) eqn:E; [|cbn; lia]. exfalso.
    by apply (filter_nil_not_elem_of _ _ a) in E; [apply E, Hl|].
Qed.

(** ** The code implements the protocol *)

Section Refinement.
Context `{HashFns} `{!HashOk _} (kj_throws : bool) (method : GetSuccessorMethod) (fuel depth : nat).
Local Abbreviation env := (world_env kj_throws method fuel (S (S depth))).
Implicit Types (w : World) (s : NodeInformation) (L : Links) (a b c : addr) (m : Model).

Context (X D : gset addr) (K : addr → addr → Prop) (F : gset addr) (w0 : World) (HK : fingers_ok X D K w0).
(** Fuel for a lookup in any such network, and for its nested calls. *)
Context (Hfuel : (3 * size (X ∪ D) + 2 <= fuel)%nat) (Hdepth : (size X <= depth)%nat).
Local Abbreviation linked := (linked X K F w0).

Definition stage_of (p : Phase) : Stage :=
  match p with AtRest => Resting | Asked s x => Waiting (nd s) (nd <$> x) | ToNotify t => Notifying (nd t) end.

Definition simulates (net : Net) m : Prop :=
  linked (net_world net) (links m) ∧ (∀ a, a ∈ X → net_stage net a = stage_of (phase m a)) ∧
  ∀ a, (net_next net a < key_bits)%nat.

(** Nodes of [w'] run in [w], with the same fingers but for the successor. *)
Definition keeps_fingers w w' : Prop :=
  ∀ a s', w_nodes w' !! a = Some s' → ∃ s, w_nodes w !! a = Some s ∧
    ∀ i, (0 < i)%nat → m_fingerTable s' !! i = m_fingerTable s !! i.

Lemma keeps_fingers_refl w : keeps_fingers w w.
Proof. intros a s Hs. by exists s. Qed.

Lemma keeps_fingers_update w a f : (∀ s i, (0 < i)%nat → m_fingerTable (f s) !! i = m_fingerTable s !! i) →
  keeps_fingers w (w_update a f w).
Proof.
  intros Hf c s' Hs'. destruct (decide (a = c)) as [<-|]; [|rewrite lookup_update_ne in Hs' by done; by exists s'].
  unfold w_update in Hs'. cbn in Hs'. rewrite lookup_alter_eq in Hs'. destruct (w_nodes w !! a) as [s|]; [|done].
  injection Hs' as <-. exists s. eauto.
Qed.
#[local] Hint Resolve keeps_fingers_refl : core.

(** ** One step *)

Lemma ask_refines w L a : linked w L → links_ok X L → a ∈ X →
  stabilize_ask (H0 := env a) w
  = (Ok (Some (nd (succ_of L a), nd <$> pred_of L (succ_of L a))), w).
Proof.
  intros Hw [Hsu _ _] Ha. destruct (ln_node _ _ _ _ _ _ Hw a Ha) as (s & Hs & Hv).
  destruct (ln_node _ _ _ _ _ _ Hw _ (Hsu a Ha)) as (sq & Hsq & Hvq). unfold stabilize_ask.
  rewrite (bind_ni _ _ _ _ _ _ _ _ Hs), (lv_succ _ _ _ _ _ _ Hv).
  pose proof (rpc_pred kj_throws method fuel (S depth) a _ w sq Hsq) as Hrpc.
  erewrite bind_Ok; [|by rewrite (then_Ok _ _ _ _ _ _ Hrpc)].
  rewrite (lv_pred _ _ _ _ _ _ Hvq). by destruct (pred_of L (succ_of L a)) as [p|]; cbn; rewrite ?nd_roundtrip.
Qed.

Lemma decide_refines w L a q (x : option addr) : linked w L → a ∈ X → (∀ y, x = Some y → y ∈ X) →
  ∃ w' L', stabilize_decide (H0 := env a) (nd q) (nd <$> x) w
    = (Ok (match x with
           | Some y => if decide (aid y = aid a) then None else Some (nd (if between y a q then y else q))
           | None => Some (nd q)
           end), w') ∧
    linked w' L' ∧ keeps_fingers w w' ∧
    L' = match x with
         | Some y => if decide (aid y = aid a) then L else if between y a q then set_succ a y L else L
         | None => L
         end.
Proof.
  intros Hw Ha Hx. destruct (ln_node _ _ _ _ _ _ Hw a Ha) as (s & Hs & Hv). unfold stabilize_decide.
  rewrite (bind_ni _ _ _ _ _ _ _ _ Hs), (lv_id _ _ _ _ _ _ Hv). destruct x as [y|]; [|by exists w, L].
  cbn [fmap option_fmap option_map]. rewrite !getId_nd. case_decide; [by exists w, L|]. fold (between y a q).
  destruct (between y a q); [|by exists w, L]. rewrite bind_update.
  exists (w_update a (setSuccessor (Some (nd y))) w), (set_succ a y L). split_and!; [done| | |done].
  2: { apply keeps_fingers_update. intros s' i Hi. cbn. rewrite list_lookup_insert_ne; [done|lia]. }
  apply (linked_update X K F w0 w L); [done..| | |done].
  - intros s' Hv'. cbn. rewrite fn_lookup_insert. eapply lv_setSuccessor; [done|]. apply HK; [done|by apply Hx].
  - intros c Hc. cbn. by rewrite fn_lookup_insert_ne.
Qed.

Lemma notify_refines w L a t : linked w L → a ∈ X → t ∈ X →
  ∃ w', notify_peer (H0 := env a) (nd t) w = (Ok tt, w') ∧
    linked w' (if takes t a L then set_pred t a L else L) ∧ keeps_fingers w w'.
Proof.
  intros Hw Ha Ht. destruct (ln_node _ _ _ _ _ _ Hw a Ha) as (s & Hs & Hv). destruct (ln_node _ _ _ _ _ _ Hw t Ht) as (st & Hst & Hvt).
  eexists. split; [by apply (notify_peer_world _ _ _ _ _ _ _ s st Hs (lv_node _ _ _ _ _ _ Hv) Hst)|].
  unfold accepts, takes. rewrite (lv_pred _ _ _ _ _ _ Hvt), (lv_id _ _ _ _ _ _ Hvt).
  assert (linked (w_update t (setPredecessor (Some (nd a))) w) (set_pred t a L) ∧
    keeps_fingers w (w_update t (setPredecessor (Some (nd a))) w)) as Hset.
  { split; [|by apply keeps_fingers_update]. apply (linked_update X K F w0 w L); [done..| | |done].
    - intros s' Hv'. cbn. rewrite fn_lookup_insert. by eapply lv_setPredecessor.
    - intros c Hc. cbn. by rewrite fn_lookup_insert_ne. }
  destruct (pred_of L t) as [p|]; cbn [fmap option_fmap option_map]; [|done]. rewrite getId_nd.
  fold (between a p t). by destruct (between a p t).
Qed.

Lemma check_refines w L a : linked w L → links_ok X L → a ∈ X → checkPredecessor (H0 := env a) w = (Ok tt, w).
Proof.
  intros Hw [_ Hp _] Ha. destruct (ln_node _ _ _ _ _ _ Hw a Ha) as (s & Hs & Hv). unfold checkPredecessor.
  rewrite (bind_ni _ _ _ _ _ _ _ _ Hs), (lv_pred _ _ _ _ _ _ Hv). destruct (pred_of L a) as [p|] eqn:E; [|done].
  destruct (ln_node _ _ _ _ _ _ Hw p (Hp a p Ha E)) as (sp & Hsp & _). cbn [fmap option_fmap option_map].
  by rewrite (then_Ok _ _ _ _ _ _ (rpc_pred kj_throws method fuel (S depth) a p w sp Hsp)).
Qed.

(** A step of the code is a step of the protocol. *)
Lemma net_step_refines net m e : simulates net m → model_ok X m → allowed X F e →
  ∃ net', net_step kj_throws method fuel (S (S depth)) e net = Ok net' ∧
    simulates net' (match e with Stabilise a => link_step a m | _ => m end) ∧
    match e with
    | Fix _ => True
    | _ => keeps_fingers (net_world net) (net_world net') ∧ net_next net' = net_next net
    end.
Proof.
  intros (Hw & Hst & Hnext) [Hok Hph] [Ha Hfix]. destruct e as [a|a|a]; cbn in Ha; cbn [net_step].
  2: { rewrite (check_refines _ _ _ Hw Hok Ha). by exists net; destruct net. }
  2: { destruct (fix_refines kj_throws method fuel X D K F w0 HK _ _ depth a _ Hw Hok Ha Hfix (Hnext a) Hfuel Hdepth) as (w' & -> & Hw').
    eexists. split; [done|]. split; [|done]. split_and!; [done|done|]. intros c. cbn [net_next]. destruct (decide (a = c)) as [<-|].
    - rewrite fn_lookup_insert. by apply Nat.mod_upper_bound.
    - by rewrite fn_lookup_insert_ne. }
  assert (∀ w' L' p, linked w' L' →
    simulates (mkNet w' (<[a := stage_of p]> (net_stage net)) (net_next net)) (mkModel L' (<[a := p]> (phase m)))) as Hgo.
  { intros w' L' p Hw'. split_and!; [done| |done]. intros c Hc. cbn. destruct (decide (a = c)) as [<-|].
    - by rewrite !fn_lookup_insert.
    - rewrite !fn_lookup_insert_ne by done. by apply Hst. }
  specialize (Hph a Ha). rewrite (Hst a Ha). unfold link_step. destruct (phase m a) as [|q x|t]; cbn [stage_of].
  - rewrite (ask_refines _ _ _ Hw Hok Ha). eexists. split; [done|]. split; [by apply (Hgo _ _ (Asked _ _))|auto].
  - destruct Hph as [_ Hx]. destruct (decide_refines _ _ a q x Hw Ha) as (w' & L' & -> & Hw' & Hk & ->); [intros y Hy; by apply (Hx y Hy)|].
    eexists. split; [done|]. split; [|done]. destruct x as [y|]; [|by apply (Hgo _ _ (ToNotify q))].
    case_decide; [by apply (Hgo _ _ AtRest)|]. destruct (between y a q); [by apply (Hgo _ _ (ToNotify y))|].
    by apply (Hgo _ _ (ToNotify q)).
  - cbn in Hph. destruct (notify_refines _ _ a t Hw Ha) as (w' & -> & Hw' & Hk); [subst t; by apply Hok|].
    eexists. split; [done|]. split; [by apply (Hgo _ _ AtRest)|done].
Qed.

Lemma net_run_refines events net m : simulates net m → model_ok X m → Forall (allowed X F) events →
  ∃ net', net_run kj_throws method fuel (S (S depth)) events net = Ok net' ∧
    simulates net' (run (stabilisations events) m) ∧ model_ok X (run (stabilisations events) m).
Proof.
  intros Hsim Hok Hev. revert net m Hsim Hok. induction Hev as [|e events He _ IH]; intros net m Hsim Hok; [by exists net|].
  destruct (net_step_refines net m e Hsim Hok He) as (net1 & Hstep & Hsim1 & _). cbn [net_run]. rewrite Hstep.
  cbn [mbind outcome_bind]. destruct e as [a|a|a]; [|by apply IH..]. cbn. apply IH; [done|].
  apply link_step_ok; [done|apply He].
Qed.

(** The links after enough rounds. *)
Lemma rounds_refine rounds w L b next : spread X → linked w L → links_ok X L → anchored X b L →
  (∀ a, (next a < key_bits)%nat) →
  Forall (fair_events X F) rounds → (size X * (2 * size X) < length rounds)%nat →
  ∃ net' m', net_run kj_throws method fuel (S (S depth)) (concat rounds) (at_rest next w) = Ok net' ∧
    simulates net' m' ∧ model_ok X m' ∧ ring_links X (links m').
Proof.
  intros Hsp Hw Hok Hanc Hnext Hrounds Hlen. set (m := mkModel L (λ _, AtRest)).
  assert (model_ok X m) as Hm by (by constructor).
  destruct (net_run_refines (concat rounds) (at_rest next w) m) as (net' & Hrun & Hsim & Hm'); [done..| |].
  { apply Forall_concat. eapply Forall_impl; [done|]. by intros events []. }
  exists net', (run (stabilisations (concat rounds)) m). split_and!; [done|done|done|].
  assert (stabilisations (concat rounds) = concat (stabilisations <$> rounds)) as ->.
  { clear. induction rounds as [|r rounds IH]; [done|]. cbn. by rewrite stabilisations_app, IH. }
  apply (rounds_converge X b); [done..| |].
  - apply Forall_fmap. eapply Forall_impl; [done|]. intros events [Hev Hturns]. split; [|done].
    apply Forall_forall. intros a (e & He & E)%list_elem_of_omap. rewrite Forall_forall in Hev. destruct (Hev e He) as [Hn _].
    destruct e; [|done..]. by injection E as ->.
  - left. rewrite length_fmap. pose proof (measure_bound X (links m)). lia.
Qed.

End Refinement.
