(* ===== verification/Settle.v ===== *)
(** * Settle: maintenance makes the ring and its fingers

    When the links of a network are those of the ring, no step of the
    maintenance changes them any more, and every repair of a finger
    ([Dht::fixFingers] of src/dht/Dht.cpp) puts the right node into it, so a node
    that has repaired as many fingers as it has is complete
    ([ring_completes]). Together with the convergence of the links
    (Interleave.v): a network without failures becomes the ring and completes
    its fingers under every fair schedule ([stabilisation_converges]), in
    particular after any number of nodes has joined ([joins_converge]). *)

From stdpp Require Import functions.
From S2P Require Import Prelude Util Ring NodeInfo Message Peer Topology Lookup Network Dht PoW Maintenance Growth Loose Converge Linked Interleave.

(** ** Fingers *)

(** Every finger of a node is the member Chord's definition asks for. *)
Definition complete `{HashFns} (X : gset addr) (a : addr) (w : World) : Prop :=
  ∃ s, w_nodes w !! a = Some s ∧ ∀ i, (i < key_bits)%nat → right_finger (ring_of X) a i s.

(** A node has repaired [k] fingers, starting at [i]. *)
Definition repaired `{HashFns} (X : gset addr) i k (net : Net) (a : addr) : Prop :=
  net_next net a = ((i + k) mod key_bits)%nat ∧ ∃ s, w_nodes (net_world net) !! a = Some s ∧
    ∀ j, (j < k)%nat → right_finger (ring_of X) a ((i + j) mod key_bits) s.

Section Fingers.
Context `{HashFns} `{!HashOk _} (kj_throws : bool) (method : GetSuccessorMethod) (fuel depth : nat).
Local Abbreviation env := (world_env kj_throws method fuel (S (S depth))).
Local Abbreviation net_step := (net_step kj_throws method fuel (S (S depth))).
Local Abbreviation net_run := (net_run kj_throws method fuel (S (S depth))).
Implicit Types (w : World) (s : NodeInformation) (L : Links) (a b c : addr) (m : Model).

Context (X D : gset addr) (K : addr → addr → Prop) (w0 : World) (HK : fingers_ok X D K w0) (Hsp : spread X).
Context (Hfuel : (3 * size (X ∪ D) + 2 <= fuel)%nat) (Hdepth : (size X <= depth)%nat).
Local Abbreviation linked := (linked X K X w0).
Local Abbreviation simulates := (simulates X K X w0).

(** A repair in a network with the links of the ring finds the right node. *)
Definition repairs_right : Prop := ∀ w L a s i,
  linked w L → ring_links X L → a ∈ X → w_nodes w !! a = Some s → (i < key_bits)%nat →
  ∃ b, responsible (ring_of X) ((pos a + 2 ^ Z.of_nat i) `mod` ring_size) b ∧
    fixFingers (H0 := env a) i w
    = (Ok ((i + 1) mod key_bits)%nat, w_update a (λ _, with_fingers (<[i := Some (nd b)]> (m_fingerTable s)) s) w).

Context (Hright : repairs_right).

Lemma linked_first w L a s : linked w L → ring_links X L → a ∈ X → w_nodes w !! a = Some s → right_finger (ring_of X) a 0 s.
Proof.
  intros Hw HL Ha Hs. destruct (ln_node _ _ _ _ _ _ Hw a Ha) as (s' & Hs' & Hv). rewrite Hs in Hs'. injection Hs' as <-.
  exists (rsucc (ring_of X) a). split; [by apply (responsible_next _ _ (ring_of_ok X Hsp))|].
  rewrite (lv_first _ _ _ _ _ _ Hv Ha). by destruct (HL a Ha) as [-> _].
Qed.

Lemma repaired_keeps i k net net' L a : linked (net_world net') L → ring_links X L → a ∈ X →
  keeps_fingers (net_world net) (net_world net') → net_next net' = net_next net → repaired X i k net a → repaired X i k net' a.
Proof.
  intros Hw' HL Ha Hkeep Hnext (Hi & s & Hs & Hr). split; [by rewrite Hnext|].
  destruct (ln_node _ _ _ _ _ _ Hw' a Ha) as (s' & Hs' & _). exists s'. split; [done|]. intros j Hj.
  destruct (Hkeep a s' Hs') as (s0 & Hs0 & Heq). rewrite Hs in Hs0. injection Hs0 as <-.
  destruct (decide ((i + j) mod key_bits = 0)%nat) as [->|Hne]; [by eapply linked_first|].
  destruct (Hr j Hj) as (b & Hb & Hf). exists b. rewrite Heq by lia. done.
Qed.

Lemma repaired_fix i k net a L net' : linked (net_world net) L → ring_links X L → a ∈ X → (net_next net a < key_bits)%nat →
  net_step (Fix a) net = Ok net' →
  (∀ c, c ≠ a → repaired X i k net c → repaired X i k net' c) ∧ (repaired X i k net a → repaired X i (S k) net' a).
Proof.
  intros Hw HL Ha Hi. destruct (ln_node _ _ _ _ _ _ Hw a Ha) as (s & Hs & Hv).
  destruct (Hright _ _ a s (net_next net a) Hw HL Ha Hs Hi) as (b & Hb & Hfix).
  cbn [Interleave.net_step]. rewrite Hfix. cbn [finish]. intros <-%(inj Ok). split.
  - intros c Hc (Hnext & sc & Hsc & Hr). split; cbn [net_next net_world]; [by rewrite fn_lookup_insert_ne|].
    exists sc. by rewrite lookup_update_ne.
  - intros (Hnext & s' & Hs' & Hr). rewrite Hs in Hs'. injection Hs' as <-. split; cbn [net_next net_world].
    + rewrite fn_lookup_insert, Hnext, Nat.Div0.add_mod_idemp_l. f_equal. lia.
    + eexists. split; [by apply lookup_update_eq|]. intros j Hj. apply right_finger_insert; [done|apply Hv|done|].
      intros Hne. apply Hr. destruct (decide (j = k)) as [->|]; [by rewrite <- Hnext in Hne|lia].
Qed.

(** The ring, its links in the nodes, with operations under way. *)
Definition ring_net net : Prop := ∃ m, simulates net m ∧ model_ok X m ∧ ring_links X (links m).

Lemma ring_step net e : ring_net net → allowed X X e →
  ∃ net', net_step e net = Ok net' ∧ ring_net net' ∧
    ∀ a i k, a ∈ X → repaired X i k net a → repaired X i (k + repairs a [e]) net' a.
Proof.
  intros (m & Hsim & Hok & HL) He.
  destruct (net_step_refines kj_throws method fuel depth X D K X w0 HK Hfuel Hdepth net m e Hsim Hok He)
    as (net' & Hstep & Hsim' & Hkeep).
  set (m' := match e with Stabilise a => link_step a m | _ => m end) in *. destruct He as [Ha _].
  assert (links m' = links m ∧ model_ok X m') as [E Hok'].
  { destruct e as [a|a|a]; [|done..]. split; [by apply (ring_stable X)|by apply link_step_ok]. }
  exists net'. split; [done|]. split; [exists m'; by rewrite E|]. destruct Hsim as (Hw & _ & Hnext), Hsim' as (Hw' & _).
  rewrite E in Hw'. intros a i k HaX Hr. unfold repairs. destruct e as [b|b|b]; cbn [repairs filter list_filter].
  1, 2: rewrite decide_False, Nat.add_0_r by done; by eapply repaired_keeps; [| | |apply Hkeep..|].
  destruct (repaired_fix i k net b (links m) net') as [Hother Hself]; [done..|].
  destruct (decide (b = a)) as [->|Hne]; [rewrite decide_True by done|rewrite decide_False by congruence]; cbn [length].
  - rewrite Nat.add_1_r. by apply Hself.
  - rewrite Nat.add_0_r. by apply Hother.
Qed.

Lemma ring_run more : Forall (allowed X X) more → ∀ net, ring_net net →
  ∃ net', net_run more net = Ok net' ∧ ring_net net' ∧
    ∀ a i k, a ∈ X → repaired X i k net a → repaired X i (k + repairs a more) net' a.
Proof.
  induction 1 as [|e more He _ IH]; intros net Hnet.
  { exists net. split_and!; [done..|]. intros a i k _. by rewrite Nat.add_0_r. }
  destruct (ring_step net e Hnet He) as (net1 & Hstep & Hnet1 & Hr1).
  destruct (IH net1 Hnet1) as (net' & Hrun & Hnet' & Hr'). exists net'. cbn [Interleave.net_run]. rewrite Hstep.
  split_and!; [done..|]. intros a i k Ha Hr. specialize (Hr' a i _ Ha (Hr1 a i k Ha Hr)).
  rewrite <- Nat.add_assoc in Hr'. unfold repairs in *. by rewrite <- length_app, <- filter_app in Hr'.
Qed.

(** The ring stays, and a node completes its fingers wherever it starts. *)
Lemma ring_completes more net : ring_net net → Forall (allowed X X) more →
  ∃ net', net_run more net = Ok net' ∧ ring_net net' ∧
    ∀ a, a ∈ X → (key_bits <= repairs a more)%nat → complete X a (net_world net').
Proof.
  intros Hnet Hmore. destruct (ring_run more Hmore net Hnet) as (net' & Hrun & Hnet' & Hr). exists net'. split_and!; [done..|].
  intros a Ha Hk. destruct Hnet as (m & (Hw & _ & Hnext) & _). specialize (Hnext a).
  destruct (Hr a (net_next net a) 0%nat Ha) as (_ & s & Hs & Hfingers).
  { destruct (ln_node _ _ _ _ _ _ Hw a Ha) as (s & Hs & _). split; [by rewrite Nat.add_0_r, Nat.mod_small|]. exists s. split; [done|lia]. }
  exists s. split; [done|]. intros i Hi. set (n := net_next net a) in *.
  replace i with ((n + (i + key_bits - n) mod key_bits) mod key_bits)%nat; [apply Hfingers|].
  - eapply Nat.lt_le_trans; [by apply Nat.mod_upper_bound|exact Hk].
  - rewrite Nat.Div0.add_mod_idemp_r. replace (n + (i + key_bits - n))%nat with (i + 1 * key_bits)%nat by lia.
    rewrite Nat.Div0.mod_add. by apply Nat.mod_small.
Qed.

End Fingers.

(** ** Convergence without failures *)

Section Converges.
Context `{HashFns} `{!HashOk _} (kj_throws : bool) (method : GetSuccessorMethod) (fuel : nat).
Implicit Types (w : World) (L : Links) (X : gset addr).

(** The nodes of [X] run in [w] with the links [L], and know only each other. *)
Definition network X w L : Prop := linked X (λ _ b, b ∈ X) X w w L ∧ links_ok X L.

Lemma linked_ideal X w0 w L : linked X (λ _ b, b ∈ X) X w0 w L → ring_links X L → ideal (ring_of X) w.
Proof.
  intros Hw HL a Ha. destruct (ln_node _ _ _ _ _ _ Hw a Ha) as (s & Hs & []). destruct (HL a Ha) as [Hsu Hp].
  rewrite Hsu, Hp in *. exists s. split; [done|]. constructor; auto.
Qed.

Lemma fingers_ok_members X w0 : spread X → fingers_ok X ∅ (λ _ b, b ∈ X) w0.
Proof.
  intros Hsp. constructor; [done|intros a b _ Hb; by rewrite union_empty_r_L|by intros d _ ?%elem_of_empty|].
  by rewrite union_empty_r_L.
Qed.

Lemma repairs_right_ideal X w0 depth : spread X → (size X + 2 <= fuel)%nat → (size X <= depth)%nat →
  repairs_right kj_throws method fuel depth X (λ _ b, b ∈ X) w0.
Proof.
  intros Hsp Hf Hd w L a s i Hw HL Ha Hs Hi. pose proof (linked_ideal X w0 w L Hw HL) as Hideal.
  destruct (fixFingers_step kj_throws method fuel (ring_of X) w a s i (S (S depth))) as (b & Hb & Hfix & _);
    [by apply ring_of_ok|done..|cbn; lia|by exists b].
Qed.

(** The network is the ring of [X] and stays it, whatever the maintenance
    threads of the members do; a node has all fingers right as soon as it has
    repaired as many as it has. *)
Definition settles X depth net : Prop :=
  ideal (ring_of X) (net_world net) ∧
  ∀ more, Forall (allowed X X) more → ∃ net', net_run kj_throws method fuel depth more net = Ok net' ∧
    ideal (ring_of X) (net_world net') ∧
    ∀ a, a ∈ X → (key_bits <= repairs a more)%nat → complete X a (net_world net').

Lemma ring_settles X w0 depth net : spread X → ring_net X (λ _ b, b ∈ X) w0 net →
  (3 * size X + 2 <= fuel)%nat → (size X <= depth)%nat → settles X (S (S depth)) net.
Proof.
  intros Hsp Hnet Hf Hd.
  assert (∀ net, ring_net X (λ _ b, b ∈ X) w0 net → ideal (ring_of X) (net_world net)) as Hideal.
  { intros net1 (m & (Hw & _) & _ & HL). by eapply linked_ideal. }
  split; [by apply Hideal|]. intros more Hmore.
  destruct (ring_completes kj_throws method fuel depth X ∅ (λ _ b, b ∈ X) w0 (fingers_ok_members X w0 Hsp) Hsp
    ltac:(rewrite union_empty_r_L; lia) Hd (repairs_right_ideal X w0 depth Hsp ltac:(lia) Hd) more net Hnet Hmore)
    as (net' & Hrun & Hnet' & Hc). exists net'. split_and!; [done|by apply Hideal|done].
Qed.

(** C5: Maintenance converges under every fair interleaving. Take a network
    whose nodes link only to each other, with whatever successors, predecessors
    and fingers, such that the successor of no node passes over one particular
    node. Let the nodes run [stabilize] concurrently, cut at the remote calls
    and interleaved in any order, with checks of their predecessors and repairs
    of their fingers anywhere in between. After as many rounds as twice the
    square of the number of nodes (and one more), in each of which every node
    takes five turns, the network is the ideal ring of its nodes. It stays so
    however the maintenance goes on, and from then on a node that has repaired
    256 fingers, wherever it started, has every finger right. No step throws,
    is undefined or loops, the lookups of the repairs in the unfinished network
    included. *)
Theorem stabilisation_converges X w L (b : addr) next rounds depth :
  spread X → network X w L → anchored X b L → (∀ a, (next a < key_bits)%nat) →
  Forall (fair_events X X) rounds → (size X * (2 * size X) < length rounds)%nat →
  (3 * size X + 2 <= fuel)%nat → (size X + 2 <= depth)%nat →
  ∃ net', net_run kj_throws method fuel depth (concat rounds) (at_rest next w) = Ok net' ∧
    settles X depth net'.
Proof.
  intros Hsp [Hw Hok] Hanc Hnext Hr Hlen Hf Hd. destruct depth as [|[|depth]]; [lia..|].
  destruct (rounds_refine kj_throws method fuel depth X ∅ (λ _ b, b ∈ X) X w (fingers_ok_members X w Hsp)
    ltac:(rewrite union_empty_r_L; lia) ltac:(lia) rounds w L b next)
    as (net' & m' & Hrun & Hsim & Hm & HL); [done..|].
  exists net'. split; [done|]. apply (ring_settles X w); [done|by exists m'|lia|lia].
Qed.

(** ** Several joins *)

(** A computation of another thread: its exception does not leave that thread. *)
Definition attempt {A} (m : M World A) : M World (outcome A) := λ w, (Ok (m w).1, (m w).2).

(** Each of the nodes joins at a member of the ring, in its own main loop. *)
Fixpoint join_all (refusal : option string) (depth pfuel : nat) (l : list (addr * addr)) : M World (list (outcome unit)) :=
  match l with
  | [] => mret []
  | (n, b) :: l =>
      o ← attempt (join (H0 := world_env kj_throws method fuel depth n) (kj_wait refusal) pfuel (nd b));
      rest ← join_all refusal depth pfuel l;
      mret (o :: rest)
  end.

(** A node that can join: it has not entered a network and finds a solution
    of its puzzle. *)
Definition can_join X w pfuel (nb : addr * addr) : Prop :=
  (nb.1 ∉ X) ∧ nb.2 ∈ X ∧ (∃ s, w_nodes w !! nb.1 = Some s ∧ outside nb.1 s) ∧
  ∃ solution, solve_puzzle pfuel 0 (host_port nb.1.1 nb.1.2) (getDifficulty (w_statics w)) = Ok solution.

Definition has_joined X w (n : addr) : Prop :=
  ∃ q s, responsible (ring_of X) (pos n) q ∧ w_nodes w !! n = Some s ∧ node_view X n None q s.

Lemma spread_sub X Y : spread X → Y ⊆ X → spread Y.
Proof. intros HX Hsub a b Ha Hb. by apply HX; apply Hsub. Qed.

(** A join, whether KJ carries out its wait or refuses it. *)
Lemma join_either X n (b : addr) w s refusal pfuel solution depth :
  spread ({[n]} ∪ X) → n ∉ X → b ∈ X → ideal (ring_of X) w → data_ok X w →
  w_nodes w !! n = Some s → outside n s →
  solve_puzzle pfuel 0 (host_port n.1 n.2) (getDifficulty (w_statics w)) = Ok solution →
  (size X + 2 <= fuel)%nat → (size X + 2 <= depth)%nat →
  ∃ w', join (H0 := world_env kj_throws method fuel depth n) (kj_wait refusal) pfuel (nd b) w = (wait_outcome refusal, w') ∧
    ideal (ring_of X) w' ∧ has_joined X w' n ∧ data_ok X w' ∧ w_statics w' = w_statics w ∧
    ∀ a, a ≠ n → a ∉ X → w_nodes w' !! a = w_nodes w !! a.
Proof.
  intros Hsp Hn Hb Hw Hdata Hs Hout Hsol Hf Hd. destruct refusal as [what|].
  - destruct (join_refused kj_throws method fuel X n b w s what pfuel solution depth)
      as (q & Hq & Hjoin & [Hw1 (sn & Hsn & Hvn)]); [done..|].
    eexists. split_and!; [exact Hjoin|done|by exists q, sn| |done|intros; by rewrite !lookup_update_ne].
    intros a sa k v e Ha. rewrite !lookup_update_ne by (by intros <-). by apply Hdata.
  - destruct (join_handover kj_throws method fuel X n b w s pfuel solution depth)
      as (w1 & q & sq & sq' & sn' & Hq & Hjoin & [Hw1 (sn & Hsn & Hvn)] & Hsq & Hsq' & _ & _ & Hst & Hsub & Hrest); [done..|].
    exists w1. split_and!; [done|done|by exists q, sn| |done|].
    + intros a sa k v e Ha Hsa. destruct (decide (a = q)) as [->|Hne].
      * rewrite Hsq' in Hsa. injection Hsa as <-. intros Hk. apply (Hdata q sq k v e Ha Hsq). by eapply lookup_weaken.
      * rewrite Hrest in Hsa by (done || by intros ->). by apply (Hdata a sa k v e Ha Hsa).
    + intros a Ha HaX. apply Hrest; [done|]. intros ->. by destruct Hq.
Qed.

Lemma join_all_joins X refusal pfuel depth l w :
  spread (list_to_set l.*1 ∪ X) → NoDup l.*1 → ideal (ring_of X) w → data_ok X w → Forall (can_join X w pfuel) l →
  (size X + 2 <= fuel)%nat → (size X + 2 <= depth)%nat →
  ∃ w', join_all refusal depth pfuel l w = (Ok (replicate (length l) (wait_outcome refusal)), w') ∧ ideal (ring_of X) w' ∧
    (∀ n, n ∈ l.*1 → has_joined X w' n) ∧ ∀ a, a ∉ X → a ∉ l.*1 → w_nodes w' !! a = w_nodes w !! a.
Proof.
  intros Hsp Hnd Hw Hdata Hl Hf Hd. revert w Hw Hdata Hl.
  induction l as [|[n b] l IH]; intros w Hw Hdata Hl; [exists w; split_and!; [done..|by intros n ?%elem_of_nil|done]|].
  cbn in Hsp, Hnd. apply NoDup_cons in Hnd as [Hnl Hnd]. apply Forall_cons in Hl as [(Hn & Hb & (s & Hs & Hout) & sol & Hsol) Hl].
  cbn in Hn, Hb, Hs, Hout, Hsol.
  assert (spread ({[n]} ∪ X) ∧ spread (list_to_set l.*1 ∪ X)) as [Hspn Hspl].
  { split; apply (spread_sub _ _ Hsp); intros x; rewrite !elem_of_union, ?elem_of_list_to_set, ?elem_of_cons; tauto. }
  destruct (join_either X n b w s refusal pfuel sol depth) as (w1 & Hjoin & Hw1 & Hj1 & Hdata1 & Hst & Hrest); [done..|].
  destruct (IH Hspl Hnd w1) as (w' & Hrun & Hw' & Hj & Hfr); [done|done| |].
  - apply Forall_forall. intros [n' b'] Hin. rewrite Forall_forall in Hl.
    destruct (Hl _ Hin) as (Hn' & Hb' & (s' & Hs' & Ho') & Hsol'). cbn in *. unfold can_join. cbn. rewrite Hst.
    split_and!; [done..| |done]. exists s'. rewrite Hrest; [done| |done].
    intros ->. apply Hnl. apply list_elem_of_fmap. by exists (n, b').
  - exists w'. cbn [join_all]. unfold attempt at 1. unfold mbind, M_bind. rewrite Hjoin. cbn [fst snd]. rewrite Hrun.
    split_and!; [done..| |].
    + intros n'. cbn. rewrite elem_of_cons. intros [->|Hin]; [|by apply Hj]. destruct Hj1 as (q & sn & Hq & Hsn & Hvn).
      exists q, sn. by rewrite Hfr.
    + intros a Ha Hal. cbn in Hal. apply not_elem_of_cons in Hal as [Hne Hal]. rewrite Hfr by done. by apply Hrest.
Qed.

(** The links after joins: the members of [X] form a ring, the others know
    their successor in it. *)
Definition joined_links X : Links := {|
  succ_of := λ a, rsucc (ring_of ({[a]} ∪ X)) a;
  pred_of := λ a, if decide (a ∈ X) then Some (rpred (ring_of X) a) else None;
|}.

Lemma joined_member X a : a ∈ X → succ_of (joined_links X) a = rsucc (ring_of X) a.
Proof. intros Ha. cbn. assert ({[a]} ∪ X = X) as ->; [|done]. by apply subseteq_union_1_L, singleton_subseteq_l. Qed.

Lemma joined_new X n q : spread ({[n]} ∪ X) → n ∉ X → responsible (ring_of X) (pos n) q →
  succ_of (joined_links X) n = q ∧ ∀ b, b ∈ X → ¬ in_arc (pos b) (pos n) (pos q) false false.
Proof.
  intros Hsp Hn Hq. pose proof (ring_of_ok X (spread_union X n Hsp)) as HR. pose proof (ring_of_ok _ Hsp) as HR'.
  split; [exact (insert_succ_new (ring_of X) (ring_of ({[n]} ∪ X)) n q HR HR' eq_refl Hn Hq)|].
  intros b Hb. by apply (old_not_after (ring_of X) (ring_of ({[n]} ∪ X)) n q).
Qed.

Lemma joined_network X N w (b : addr) : spread (N ∪ X) → (∀ n, n ∈ N → n ∉ X) → b ∈ X → ideal (ring_of X) w →
  (∀ n, n ∈ N → has_joined X w n) →
  network (N ∪ X) w (joined_links X) ∧ anchored (N ∪ X) b (joined_links X).
Proof.
  intros Hsp HN Hb Hw Hj. pose proof (union_subseteq_r N X) as HX.
  pose proof (ring_of_ok X (spread_sub _ _ Hsp HX)) as HR.
  assert (∀ n, n ∈ N → spread ({[n]} ∪ X)) as Hspn.
  { intros n Hn. apply (spread_sub _ _ Hsp). intros x. rewrite !elem_of_union, elem_of_singleton. intros [->|]; auto. }
  assert (∀ a, a ∈ N ∪ X → ∃ s p, w_nodes w !! a = Some s ∧ succ_of (joined_links X) a ∈ X ∧
    ¬ in_arc (pos b) (pos a) (pos (succ_of (joined_links X) a)) false false ∧
    pred_of (joined_links X) a = p ∧ (∀ c, p = Some c → c ∈ X) ∧ node_view X a p (succ_of (joined_links X) a) s) as Hall.
  { intros a [Ha|Ha]%elem_of_union.
    - destruct (Hj a Ha) as (q & s & Hq & Hs & Hv). destruct (joined_new X a q (Hspn a Ha) (HN a Ha) Hq) as [E Hno].
      exists s, None. rewrite E. split_and!; [done|apply Hq|by apply Hno| |done|done]. cbn.
      by rewrite decide_False by (by apply HN).
    - destruct (Hw a Ha) as (s & Hs & Hv). exists s, (Some (rpred (ring_of X) a)). rewrite joined_member by done.
      split_and!; [done|by apply (ring_succ_mem _ HR)|by apply (ring_adjacent _ HR)|cbn; by rewrite decide_True| |].
      + intros c [= <-]. by apply (ring_pred_mem _ HR).
      + by apply (node_view_ring (ring_of X)). }
  split; [split|].
  - constructor; [|done..]. intros a Ha. destruct (Hall a Ha) as (s & p & Hs & _ & _ & -> & _ & Hv). exists s. split; [done|].
    pose proof (nv_succ _ _ _ _ _ Hv). destruct (nv_mono _ _ _ _ _ _ HX Hv). by constructor.
  - constructor.
    + intros a Ha. destruct (Hall a Ha) as (s & p & _ & Hs & _). by apply HX.
    + intros a c Ha. destruct (Hall a Ha) as (s & p & _ & _ & _ & -> & Hp & _). intros E. by apply HX, Hp.
    + intros a Ha. cbn [joined_links pred_of]. case_decide as HaX; [|done]. intros [= E]. rewrite joined_member by done.
      rewrite <- E at 1. by apply (ring_succ_pred _ HR).
  - split; [by apply HX|]. intros a Ha. by destruct (Hall a Ha) as (s & p & _ & _ & ? & _).
Qed.

(** An ideal ring at rest. *)
Lemma ideal_ring_net X w (b : addr) next : spread X → b ∈ X → ideal (ring_of X) w → (∀ a, (next a < key_bits)%nat) →
  ring_net X (λ _ b, b ∈ X) w (at_rest next w).
Proof.
  intros Hsp Hb Hw Hnext. destruct (joined_network X ∅ w b) as [[Hnet Hok] _];
    rewrite ?union_empty_l_L in *; [done|by intros ? ?%elem_of_empty|done|done|by intros ? ?%elem_of_empty|].
  exists (mkModel (joined_links X) (λ _, AtRest)).
  split_and!; [by split_and!|by constructor|]. intros a Ha. cbn [links]. rewrite joined_member by done. split; [done|].
  cbn. by rewrite decide_True.
Qed.

(** C3: Any number of joins, then maintenance. Let several nodes join an ideal
    ring one after the other, each at any member, before any of them has
    stabilised; several may land between the same two members. If KJ carries out
    the wait inside the continuation of [join], all joins return; if it refuses
    it, as it documents, each throws with the node's new successor set, and
    that exception ends the node's main loop (Lifecycle.v). Either way the old
    members keep their ring, however their maintenance goes on without the new
    nodes. And if all nodes, old and new, run [stabilize], [checkPredecessor] and
    [fixFingers] concurrently, interleaved in any order that gives every node
    five turns of its stabilisation in each of enough rounds, the network becomes
    the ideal ring of the old and the new nodes, stays it, and has all fingers
    right once every node has repaired as many as it has. *)
Theorem joins_converge X (l : list (addr * addr)) w (b : addr) refusal pfuel depth next rounds :
  let X' := list_to_set l.*1 ∪ X in
  spread X' → NoDup l.*1 → b ∈ X → ideal (ring_of X) w → data_ok X w → Forall (can_join X w pfuel) l →
  (∀ a, (next a < key_bits)%nat) →
  Forall (fair_events X' X') rounds → (size X' * (2 * size X') < length rounds)%nat →
  (3 * size X' + 2 <= fuel)%nat → (size X' + 2 <= depth)%nat →
  ∃ w1 net', join_all refusal depth pfuel l w = (Ok (replicate (length l) (wait_outcome refusal)), w1) ∧
    settles X depth (at_rest next w1) ∧
    net_run kj_throws method fuel depth (concat rounds) (at_rest next w1) = Ok net' ∧
    settles X' depth net'.
Proof.
  intros X' Hsp Hnd Hb Hw Hdata Hl Hnext Hr Hlen Hf Hd.
  assert (size X <= size X')%nat as Hsize by (apply subseteq_size, union_subseteq_r).
  destruct (join_all_joins X refusal pfuel depth l w Hsp Hnd Hw Hdata Hl) as (w1 & Hjoin & Hw1 & Hj & _); [lia..|].
  destruct (joined_network X (list_to_set l.*1) w1 b Hsp) as [[Hnet Hok] Hanc]; [|done|done| |].
  - intros n (nb & -> & Hin)%elem_of_list_to_set%list_elem_of_fmap. rewrite Forall_forall in Hl. by apply (Hl nb Hin).
  - intros n Hn. by apply Hj, (elem_of_list_to_set (C := gset addr)).
  - destruct depth as [|[|depth]]; [lia..|]. exists w1.
    destruct (rounds_refine kj_throws method fuel depth X' ∅ (λ _ b, b ∈ X') X' w1 (fingers_ok_members X' w1 Hsp)
      ltac:(rewrite union_empty_r_L; lia) ltac:(lia) rounds w1 (joined_links X) b next)
      as (net' & m' & Hrun & Hsim & Hm & HL); [done..|].
    exists net'. split_and!; [done| |done|].
    + assert (spread X) as HspX by (apply (spread_sub _ _ Hsp), union_subseteq_r).
      apply (ring_settles X w1); [done|by apply (ideal_ring_net X w1 b)|lia|lia].
    + apply (ring_settles X' w1); [done|by exists m'|lia|lia].
Qed.

End Converges.
