(* ===== verification/Storage.v ===== *)
(** * Storage: PUT and GET

    Theorems on the API handlers of src/dht/Dht.cpp in an ideal ring: what a
    PUT at one member stores, a GET at any member finds; copies are spread
    over the ring within the limit for each member; a key that is not stored
    is reported as such. *)

From S2P Require Import Prelude Util Ring NodeInfo Message Peer Topology Lookup Network Dht Maintenance.

(** ** Serving a GET *)

(** What GET relies on: the member itself, the members' states, and lookups
    that lead to the responsible member. Both an ideal ring and one with dead
    fingers (Survive.v) offer it. *)
Section Serving.
Context `{HashFns} `{!HashOk _} (kj_throws : bool) (method : GetSuccessorMethod) (fuel : nat).
Local Abbreviation env := (world_env kj_throws method fuel).
Context (R : Ring) (HR : ring_ok R) (depth : nat).
Implicit Types (w : World) (s : NodeInformation) (me r : addr) (key value : list Z).

Record serving w me : Prop := {
  sv_me : me ∈ members R;
  sv_depth : (0 < depth)%nat;
  sv_member r : r ∈ members R → ∃ s, w_nodes w !! r = Some s ∧ getNode s = nd r;
  sv_lookup id : id_ok id → ∃ r, responsible R (be_num id) r ∧
    dht_getSuccessor (H0 := env depth me) id w = (Ok (Some (nd r)), w);
}.

Lemma member_eqb me r : me ∈ members R → r ∈ members R → Node_eqb (nd r) (nd me) = bool_decide (r = me).
Proof.
  intros Hme Hr. rewrite nd_eqb. apply bool_decide_ext. split; [|by intros ->].
  by apply (ring_inj R HR).
Qed.

Lemma peer_getData_serving w me r sr key : serving w me → r ∈ members R → w_nodes w !! r = Some sr →
  peer_getData (H0 := env depth me) (nd r) key w = (Ok (getData key sr), w).
Proof.
  intros Hw Hr Hsr. destruct (sv_member _ _ Hw me (sv_me _ _ Hw)) as (s & Hs & Hn).
  unfold peer_getData. rewrite (bind_ni _ _ _ _ _ _ _ _ Hs), Hn, member_eqb by (done || apply Hw).
  case_bool_decide as E; [subst; rewrite Hs in Hsr; by injection Hsr as ->|].
  pose proof (sv_depth _ _ Hw). destruct depth as [|d]; [lia|]. erewrite then_Ok; [done|].
  change (m_ip (nd r)) with r.1. change (m_port (nd r)) with r.2.
  rewrite (world_rpc _ _ _ _ _ _ _ _ _ Hsr). cbn [serve]. unfold srv_getData.
  by rewrite (bind_ni _ _ _ _ _ _ _ _ Hsr).
Qed.

(** What a GET finds: the item at the member responsible for its key, else,
    when the average replication is at least 1, copy number 1. *)
Lemma onDhtGet_serving m w me : serving w me →
  let key := key_key m in let key1 := replica_key key 1 in
  ∃ r s r1 s1, responsible R (be_num (sha256 key)) r ∧ w_nodes w !! r = Some s ∧
    responsible R (be_num (sha256 key1)) r1 ∧ w_nodes w !! r1 = Some s1 ∧
    onDhtGet (H0 := env depth me) m w
    = get_answer key (match getData key s with
                      | Some v => Some v
                      | None => if average_ge (w_statics w) 1 then getData key1 s1 else None
                      end) w.
Proof.
  intros Hw key key1.
  destruct (sv_lookup _ _ Hw (sha256 key)) as (r & Hr & Hget); [apply sha256_ok|].
  destruct (sv_lookup _ _ Hw (sha256 key1)) as (r1 & Hr1 & Hget1); [apply sha256_ok|].
  destruct (sv_member _ _ Hw r (proj1 Hr)) as (s & Hs & _). destruct (sv_member _ _ Hw r1 (proj1 Hr1)) as (s1 & Hs1 & _).
  exists r, s, r1, s1. split_and!; [done..|]. unfold onDhtGet. fold key.
  rewrite (bind_Ok _ _ _ _ _ Hget). cbn [getData_at].
  rewrite (bind_Ok _ _ _ _ _ (peer_getData_serving w me r s key Hw (proj1 Hr) Hs)), bind_statics.
  destruct (getData key s) as [v|]; [by rewrite bool_decide_eq_true_2 by eauto|].
  rewrite bool_decide_eq_false_2 by (by intros [? ?]). cbn [negb andb].
  destruct (average_ge (w_statics w) 1) eqn:Ha; [|done].
  erewrite bind_Ok; [done|]. cbn [get_replicas]. rewrite bind_statics, Ha.
  rewrite (bind_Ok _ _ _ _ _ Hget1). by apply peer_getData_serving; [|apply Hr1|].
Qed.

End Serving.

Section Storage.
Context `{HashFns} `{!HashOk _} (kj_throws : bool) (method : GetSuccessorMethod) (fuel : nat).
Local Abbreviation env := (world_env kj_throws method fuel).
Context (R : Ring) (HR : ring_ok R) (depth : nat).
Context (Hfuel : (size (members R) + 2 <= fuel)%nat) (Hdepth : (size (members R) + 2 <= depth)%nat).
Implicit Types (w : World) (s : NodeInformation) (me r c : addr) (key value : list Z).

(** ** The client calls *)

Lemma serving_ideal w me : ideal R w → me ∈ members R → serving kj_throws method fuel R depth w me.
Proof.
  intros Hw Hme. constructor; [done|lia| |].
  - intros r Hr. destruct (Hw r Hr) as (s & Hs & Hv). exists s. split; [done|apply Hv].
  - intros id Hid. by apply dht_getSuccessor_ideal.
Qed.

Lemma peer_setData_ideal w me r key value t : ideal R w → me ∈ members R → r ∈ members R →
  peer_setData (H0 := env depth me) (nd r) key value t w
  = (Ok tt, w_update r (setData key value (ttl_duration t) (w_now w)) w).
Proof.
  intros Hw Hme Hr. destruct (Hw me Hme) as (s & Hs & Hv). destruct (Hw r Hr) as (sr & Hsr & _).
  unfold peer_setData. rewrite (bind_ni _ _ _ _ _ _ _ _ Hs), (view_node _ _ _ Hv), (member_eqb R HR) by done.
  case_bool_decide as E; [subst; by rewrite bind_now, run_update|].
  destruct depth as [|d]; [lia|]. erewrite then_Ok; [done|].
  change (m_ip (nd r)) with r.1. change (m_port (nd r)) with r.2.
  rewrite (world_rpc _ _ _ _ _ _ _ _ _ Hsr). cbn [serve]. unfold srv_setData.
  by rewrite bind_now, run_update.
Qed.

(** The effect of a store on the world. *)
Definition store_at r key value t w : World :=
  w_update r (setData key value (ttl_duration t) (w_now w)) w.

Lemma ideal_store r key value t w : ideal R w → r ∈ members R → ideal R (store_at r key value t w).
Proof.
  intros Hw Hr. destruct (Hw r Hr) as (s & Hs & _). eapply ideal_update; [done..|].
  intros Hv. apply node_view_ring. apply node_view_ring in Hv. by apply nv_with_data.
Qed.

(** The item is at the member that a lookup of [id] leads to. *)
Definition stored w (id key value : list Z) : Prop :=
  ∀ r, responsible R (be_num id) r → ∃ s, w_nodes w !! r = Some s ∧ getData key s = Some value.

Lemma stored_store_same r id key value t w : ideal R w → id_ok id →
  responsible R (be_num id) r → stored (store_at r key value t w) id key value.
Proof.
  intros Hw Hid Hr r' Hr'. destruct (Hw r (proj1 Hr)) as (s & Hs & _).
  assert (r' = r) as -> by (by apply (responsible_unique R HR (be_num id)); [apply be_num_point|..]).
  eexists. split; [by apply lookup_update_eq|]. unfold getData; cbn. by rewrite lookup_insert_eq.
Qed.

Lemma stored_store_other r id key key' value value' t w : (key = key' → value = value') →
  stored w id key value → stored (store_at r key' value' t w) id key value.
Proof.
  intros Heq Hst r' Hr'. destruct (Hst r' Hr') as (s & Hs & Hd).
  destruct (decide (r = r')) as [<-|Hrr]; [|exists s; unfold store_at; by rewrite lookup_update_ne].
  eexists. split; [by apply lookup_update_eq|]. unfold getData in *; cbn.
  destruct (decide (key = key')) as [->|Hne]; [|by rewrite lookup_insert_ne].
  rewrite lookup_insert_eq. cbn. by rewrite Heq.
Qed.

(** ** PUT *)

Lemma put_item_ideal hashed bytes key value ext w me : ideal R w → me ∈ members R →
  ∃ r, responsible R (be_num (sha256 key)) r ∧
    put_item (H0 := env depth me) hashed bytes key value ext w
    = (Ok (bytes, if 2 <=? ext_replication ext
                  then Some (mkReplication key value (ext_ttl ext) (ext_replication ext) hashed (Some (nd r)))
                  else None),
       store_at r (if hashed then sha256 key else key) value (ext_ttl ext)
         (mkWorld (w_nodes w) (setReplicationIndex (ext_replication ext) (w_statics w)) (w_now w))).
Proof.
  intros Hw Hme. unfold put_item. rewrite bind_set_statics. set (w1 := mkWorld _ _ _).
  assert (ideal R w1) as Hw1 by exact Hw.
  destruct (dht_getSuccessor_ideal kj_throws method fuel R w1 me (sha256 key) depth HR Hw1 Hme)
    as (r & Hr & Hget); [apply sha256_ok|done..|].
  exists r. split; [done|]. rewrite (bind_Ok _ _ _ _ _ Hget).
  by rewrite (bind_Ok _ _ _ _ _ (peer_setData_ideal w1 me r _ _ _ Hw1 Hme (proj1 Hr))).
Qed.

(** ** Replication *)

Implicit Types (stores : list (Z * addr)) (rep : Replication).

Definition rep_store_key rep (j : Z) : list Z :=
  if rep_hashed rep then sha256 (replica_key (rep_key rep) j) else replica_key (rep_key rep) j.

(** Copies number [j] stored at members [r], in order. *)
Definition apply_stores rep stores w : World :=
  fold_left (λ w x, store_at x.2 (rep_store_key rep x.1) (rep_value rep) (rep_ttl rep) w) stores w.

Definition copies_at r stores : Z := Z.of_nat (length (filter (λ x, x.2 = r) stores)).

Definition count_of (counts : replication_counts) r : Z := default 0 (counts !! aid r).

Definition counts_ok (limit : Z) (counts : replication_counts) : Prop :=
  ∀ r, 0 <= count_of counts r <= Z.max 1 limit.

Lemma count_copy_of counts limit r r' : limit <= 255 → counts_ok limit counts →
  permit counts (aid r) limit = true → (aid r = aid r' → r = r') →
  count_of (count_copy counts (aid r)) r' = count_of counts r' + (if decide (r = r') then 1 else 0).
Proof.
  intros Hlim Hok Hp Hinj. specialize (Hok r). unfold count_copy, count_of, permit in *.
  destruct (counts !! aid r) as [c|] eqn:E; cbn in *;
    (case_decide as Hr; [subst; rewrite lookup_insert_eq, E; cbn|
      rewrite lookup_insert_ne by (intros E'; by apply Hr, Hinj); lia]).
  - apply Z.ltb_lt in Hp. unfold u8. rewrite wrap_small; lia.
  - done.
Qed.

Lemma apply_stores_app rep l1 l2 w : apply_stores rep (l1 ++ l2) w = apply_stores rep l2 (apply_stores rep l1 w).
Proof. apply fold_left_app. Qed.

Lemma copies_at_cons r x stores :
  copies_at r (x :: stores) = (if decide (x.2 = r) then 1 else 0) + copies_at r stores.
Proof. unfold copies_at. rewrite filter_cons. case_decide; cbn; lia. Qed.

(** What one run of the loop stores: copies [i + 1] to [i + n] in order, some
    skipped, each at the member responsible for its key. *)
Record planned rep (i : Z) (n : nat) stores : Prop := {
  planned_range x : x ∈ stores → i < x.1 <= i + Z.of_nat n;
  planned_place x : x ∈ stores →
    responsible R (be_num (sha256 (replica_key (rep_key rep) x.1))) x.2;
  planned_once : NoDup stores.*1;
}.

Lemma planned_skip rep i n stores : planned rep (i + 1) n stores → planned rep i (S n) stores.
Proof. intros [Hr Hp Hn]. constructor; [|done..]. intros x Hx. specialize (Hr x Hx). lia. Qed.

Lemma planned_cons rep i n stores r :
  responsible R (be_num (sha256 (replica_key (rep_key rep) (i + 1)))) r →
  planned rep (i + 1) n stores → planned rep i (S n) ((i + 1, r) :: stores).
Proof.
  intros Hr [Hrange Hplace Hnd]. constructor.
  - intros x [->|Hx]%elem_of_cons; [cbn; lia|]. specialize (Hrange x Hx). lia.
  - intros x [->|Hx]%elem_of_cons; [done|auto].
  - cbn. apply NoDup_cons. split; [|done]. intros (x & E & Hx)%list_elem_of_fmap.
    specialize (Hrange x Hx). lia.
Qed.

Lemma counts_ok_copy counts limit r : limit <= 255 → counts_ok limit counts →
  permit counts (aid r) limit = true → counts_ok limit (count_copy counts (aid r)).
Proof.
  intros Hlim Hok Hp r'. pose proof (Hok r) as Hr. specialize (Hok r').
  unfold count_copy, count_of, permit in *. destruct (counts !! aid r) as [c|] eqn:E; cbn in *.
  - apply Z.ltb_lt in Hp. destruct (decide (aid r = aid r')) as [<-|].
    + rewrite lookup_insert_eq. cbn. unfold u8. rewrite wrap_small; lia.
    + by rewrite lookup_insert_ne.
  - destruct (decide (aid r = aid r')) as [<-|]; [rewrite lookup_insert_eq; cbn; lia|].
    by rewrite lookup_insert_ne.
Qed.

Lemma aid_inj r r' : r ∈ members R → r' ∈ members R → aid r = aid r' → r = r'.
Proof. intros ? ? E. apply (ring_inj R HR); [done..|]. unfold pos. by rewrite E. Qed.

Lemma replicate_loop_ideal rep n me limit : me ∈ members R → limit <= 255 →
  ∀ i counts w, ideal R w → getReplicationLimitOnEachNode (w_statics w) = limit → counts_ok limit counts →
  ∃ counts' stores, replicate_loop (H0 := env depth me) n i rep counts w
      = (Ok counts', apply_stores rep stores w) ∧
    ideal R (apply_stores rep stores w) ∧ planned rep i n stores ∧ counts_ok limit counts' ∧
    ∀ r, r ∈ members R → count_of counts' r = count_of counts r + copies_at r stores.
Proof.
  intros Hme Hlim. induction n as [|n IH]; intros i counts w Hw Hl Hok.
  { exists counts, []. split_and!; [done|done|constructor; [by intros ? ?%elem_of_nil..|constructor]|done|].
    intros r _. unfold copies_at. cbn. lia. }
  cbn [replicate_loop].
  destruct (dht_getSuccessor_ideal kj_throws method fuel R w me
    (sha256 (replica_key (rep_key rep) (i + 1))) depth HR Hw Hme) as (r & Hr & Hget); [apply sha256_ok|done..|].
  rewrite (bind_Ok _ _ _ _ _ Hget). fold (rep_store_key rep (i + 1)). rewrite getId_nd.
  destruct (permit counts (aid r) limit) eqn:Hp.
  - set (w1 := store_at r (rep_store_key rep (i + 1)) (rep_value rep) (rep_ttl rep) w).
    destruct (IH (i + 1) (count_copy counts (aid r)) w1) as (counts' & stores & Hrun & Hw' & Hplan & Hok' & Hcnt);
      [by apply ideal_store; [|apply Hr]|done|by apply counts_ok_copy|].
    exists counts', ((i + 1, r) :: stores). split_and!; [|done|by apply planned_cons|done|].
    + erewrite bind_Ok; [exact Hrun|]. rewrite bind_statics, Hl, Hp.
      by rewrite (bind_Ok _ _ _ _ _ (peer_setData_ideal w me r _ _ _ Hw Hme (proj1 Hr))).
    + intros r' Hr'. rewrite (Hcnt r' Hr'), copies_at_cons. cbn [snd].
      erewrite count_copy_of; [|done|done|done|by apply aid_inj; [apply Hr|]]. lia.
  - destruct (IH (i + 1) counts w) as (counts' & stores & Hrun & Hw' & Hplan & Hok' & Hcnt); [done..|].
    exists counts', stores. split_and!; [|done|by apply planned_skip|done|done].
    erewrite bind_Ok; [exact Hrun|]. by rewrite bind_statics, Hl, Hp.
Qed.

Lemma stored_apply rep stores w id key value :
  (∀ x, x ∈ stores → key = rep_store_key rep x.1 → value = rep_value rep) →
  stored w id key value → stored (apply_stores rep stores w) id key value.
Proof.
  revert w. induction stores as [|x stores IH]; intros w Hne Hst; [done|]. cbn.
  apply IH; [intros y Hy; apply Hne; by right|]. apply stored_store_other; [|done].
  apply Hne. by left.
Qed.

Lemma replica_key_ne key j : key ≠ replica_key key j.
Proof. intros E%(f_equal length). unfold replica_key in E. rewrite length_app in E. cbn in E. lia. Qed.

(** ** GET *)

Lemma get_answer_success key v w : get_answer key (Some v) w
  = (Ok (header_bytes (u16 (Z.of_nat (4 + length key + length v))) constants.DHT_SUCCESS ++ key ++ v), w).
Proof. unfold get_answer. by rewrite success_encode_bytes. Qed.

Lemma get_answer_failure key w : get_answer key None w
  = (Ok (header_bytes (u16 (Z.of_nat (4 + length key))) constants.DHT_FAILURE ++ key), w).
Proof. unfold get_answer, Message_KEY_encode. by rewrite encode_key_bytes. Qed.

Lemma get_stored m w me value : ideal R w → me ∈ members R → 
  stored w (sha256 (key_key m)) (key_key m) value →
  onDhtGet (H0 := env depth me) m w
  = (Ok (header_bytes (u16 (Z.of_nat (4 + length (key_key m) + length value))) constants.DHT_SUCCESS
         ++ key_key m ++ value), w).
Proof.
  intros Hw Hme Hst. destruct (onDhtGet_serving kj_throws method fuel R HR depth m w me (serving_ideal w me Hw Hme)) as (r & s & r1 & s1 & Hr & Hs & _ & _ & ->).
  destruct (Hst r Hr) as (s' & Hs' & Hd). rewrite Hs in Hs'. injection Hs' as <-. rewrite Hd.
  apply get_answer_success.
Qed.

(** The copies of one run. *)
Lemma run_replication_ideal rep me r0 w : ideal R w → me ∈ members R → r0 ∈ members R →
  rep_successor rep = Some (nd r0) → 0 <= getReplicationLimitOnEachNode (w_statics w) <= 255 →
  ∃ counts stores, run_replication (H0 := env depth me) rep w = (Ok counts, apply_stores rep stores w) ∧
    ideal R (apply_stores rep stores w) ∧ planned rep 0 (Z.to_nat (rep_count rep - 1)) stores ∧
    ∀ r, r ∈ members R → (if decide (r = r0) then 1 else 0) + copies_at r stores
                        <= Z.max 1 (getReplicationLimitOnEachNode (w_statics w)).
Proof.
  intros Hw Hme Hr0 Hsucc Hlim. unfold run_replication. rewrite Hsucc, getId_nd.
  set (limit := getReplicationLimitOnEachNode (w_statics w)) in *.
  assert (∀ r, r ∈ members R → count_of {[aid r0 := 1]} r = if decide (r = r0) then 1 else 0) as H1.
  { intros r Hr. unfold count_of. case_decide as E; [subst; by rewrite lookup_singleton_eq|].
    rewrite lookup_singleton_ne; [done|]. intros E'. apply E. symmetry. by apply aid_inj. }
  destruct (replicate_loop_ideal rep (Z.to_nat (rep_count rep - 1)) me limit Hme ltac:(lia) 0 {[aid r0 := 1]} w)
    as (counts & stores & Hrun & Hw' & Hplan & Hok & Hcnt); [done..| |].
  { intros r. unfold count_of. destruct (decide (aid r0 = aid r)) as [<-|].
    - rewrite lookup_singleton_eq. cbn. lia.
    - rewrite lookup_singleton_ne by done. cbn. lia. }
  exists counts, stores. split_and!; [done..|]. intros r Hr. rewrite <- H1, <- Hcnt by done. apply Hok.
Qed.

(** C10: What is PUT is found. In an ideal ring a DHT_PUT at any member
    answers with the bytes of the request, and a DHT_GET for the key at any
    member then answers DHT_SUCCESS with exactly the stored value, both before
    and after the replication that the PUT started has run to its end. *)
Theorem put_then_get mput mget w (a c : addr) :
  ideal R w → a ∈ members R → c ∈ members R → key_key mget = put_key mput →
  0 <= getReplicationLimitOnEachNode (w_statics w) <= 255 →
  let answer := header_bytes (u16 (Z.of_nat (4 + length (put_key mput) + length (put_value mput))))
                  constants.DHT_SUCCESS ++ put_key mput ++ put_value mput in
  ∃ task w1,
    onDhtPut (H0 := env depth a) mput w = (Ok (m_bytes (put_data mput), task), w1) ∧
    onDhtGet (H0 := env depth c) mget w1 = (Ok answer, w1) ∧
    ∀ t, task = Some t → ∃ counts w2,
      run_replication (H0 := env depth a) t w1 = (Ok counts, w2) ∧
      onDhtGet (H0 := env depth c) mget w2 = (Ok answer, w2).
Proof.
  intros Hw Ha Hc Hkey Hlim answer.
  destruct (put_item_ideal false (m_bytes (put_data mput)) (put_key mput) (put_value mput) (put_ext mput) w a Hw Ha)
    as (r & Hr & Hput).
  set (w1 := store_at r _ _ _ _) in Hput. eexists _, w1. split; [exact Hput|].
  assert (ideal R w1) as Hw1 by (by apply ideal_store; [|apply Hr]).
  assert (stored w1 (sha256 (put_key mput)) (put_key mput) (put_value mput)) as Hst
    by (by apply stored_store_same; [|apply sha256_ok|]).
  unfold answer. rewrite <- Hkey in *. split; [by apply get_stored|].
  intros t Ht. case_match; [|done]. injection Ht as <-. set (t := mkReplication _ _ _ _ _ _).
  destruct (run_replication_ideal t a r w1 Hw1 Ha (proj1 Hr) eq_refl Hlim)
    as (counts & stores & Hrun & Hw2 & _ & _).
  eexists _, _. split; [exact Hrun|]. apply get_stored; [done..|]. apply stored_apply; [|done].
  intros x _ E. by apply replica_key_ne in E.
Qed.

(** C14: Replication places copies where a lookup of their key leads, within
    the larger of the limit and one. The replication that a DHT_PUT starts in an ideal ring runs to
    its end; the only changes are stores of the value under the key extended
    by a copy number between 1 and [replication - 1], each number at most
    once, each at the member responsible for the hash of the extended key. The
    original and the copies it is given are at no member more than the limit
    [m_replicationLimit]; a limit of 0, which the program accepts, acts like 1,
    since a first copy is stored without looking at the limit. *)
Theorem replication_within_limit mput w (a : addr) :
  ideal R w → a ∈ members R → 2 <= ext_replication (put_ext mput) →
  0 <= getReplicationLimitOnEachNode (w_statics w) <= 255 →
  ∃ r0 t w1 counts stores,
    onDhtPut (H0 := env depth a) mput w = (Ok (m_bytes (put_data mput), Some t), w1) ∧
    responsible R (be_num (sha256 (put_key mput))) r0 ∧
    run_replication (H0 := env depth a) t w1 = (Ok counts, apply_stores t stores w1) ∧
    planned t 0 (Z.to_nat (ext_replication (put_ext mput) - 1)) stores ∧
    ∀ r, r ∈ members R → (if decide (r = r0) then 1 else 0) + copies_at r stores
                        <= Z.max 1 (getReplicationLimitOnEachNode (w_statics w)).
Proof.
  intros Hw Ha Hrep Hlim.
  destruct (put_item_ideal false (m_bytes (put_data mput)) (put_key mput) (put_value mput) (put_ext mput) w a Hw Ha)
    as (r & Hr & Hput).
  rewrite (proj2 (Z.leb_le _ _) Hrep) in Hput. set (w1 := store_at r _ _ _ _) in Hput.
  set (t := mkReplication _ _ _ _ _ _) in Hput.
  assert (ideal R w1) as Hw1 by (by apply ideal_store; [|apply Hr]).
  destruct (run_replication_ideal t a r w1 Hw1 Ha (proj1 Hr) eq_refl Hlim)
    as (counts & stores & Hrun & _ & Hplan & Hcnt).
  by exists r, t, w1, counts, stores.
Qed.

(** What a GET consults. In an ideal ring a DHT_GET at any member reads
    the item at the member responsible for the key; if it is missing there and
    the average replication is at least 1, it reads copy number 1 and no
    other, so that a value that only survives in a later copy is reported as
    DHT_FAILURE. The state does not change. *)
Theorem get_consults_first_copy m w (c : addr) :
  ideal R w → c ∈ members R →
  let key := key_key m in
  ∃ r s r1 s1,
    responsible R (be_num (sha256 key)) r ∧ w_nodes w !! r = Some s ∧
    responsible R (be_num (sha256 (replica_key key 1))) r1 ∧ w_nodes w !! r1 = Some s1 ∧
    onDhtGet (H0 := env depth c) m w
    = (Ok (match getData key s, getData (replica_key key 1) s1 with
           | Some v, _ =>
               header_bytes (u16 (Z.of_nat (4 + length key + length v))) constants.DHT_SUCCESS ++ key ++ v
           | None, Some v =>
               if average_ge (w_statics w) 1
               then header_bytes (u16 (Z.of_nat (4 + length key + length v))) constants.DHT_SUCCESS ++ key ++ v
               else header_bytes (u16 (Z.of_nat (4 + length key))) constants.DHT_FAILURE ++ key
           | None, None =>
               header_bytes (u16 (Z.of_nat (4 + length key))) constants.DHT_FAILURE ++ key
           end), w).
Proof.
  intros Hw Hc key. destruct (onDhtGet_serving kj_throws method fuel R HR depth m w c (serving_ideal w c Hw Hc)) as (r & s & r1 & s1 & Hr & Hs & Hr1 & Hs1 & ->).
  exists r, s, r1, s1. split_and!; [done..|]. fold key.
  destruct (getData key s); [apply get_answer_success|].
  destruct (average_ge (w_statics w) 1), (getData (replica_key key 1) s1);
    apply get_answer_success || apply get_answer_failure.
Qed.

(** ** Keys that are hashes of the data *)

(** The first steps of the handler for a 32-byte key. *)
Lemma get_hash_start m junk w me s r : ideal R w → me ∈ members R →
  id_ok (gh_key m) → length junk = id_bytes →
  responsible R (be_num (gh_key m)) r → w_nodes w !! r = Some s →
  onDhtGetKeyIsHashOfData (H0 := env depth me) junk m w
  = match getData (gh_key m) s with
    | None => (UB "dereference of an empty optional", w)
    | Some v =>
        (response ← (if negb (bool_decide (sha256 v = gh_key m))
                     then get_hash_replicas (H0 := env depth me) 256 1 (gh_key m) (gh_key m) (Some v)
                     else mret (Some v));
         get_answer (gh_key m) response) w
    end.
Proof.
  intros Hw Hme Hid Hj Hr Hs. unfold onDhtGetKeyIsHashOfData, key_to_id.
  rewrite (proj2 Hid), Nat.ltb_irrefl, bind_ret. rewrite drop_ge, app_nil_r by (by rewrite Hj).
  destruct (dht_getSuccessor_ideal kj_throws method fuel R w me (gh_key m) depth HR Hw Hme Hid)
    as (r' & Hr' & Hget); [done..|].
  assert (r' = r) as -> by (by apply (responsible_unique R HR (be_num (gh_key m))); [apply be_num_point|..]).
  rewrite (bind_Ok _ _ _ _ _ Hget). cbn [getData_at].
  rewrite (bind_Ok _ _ _ _ _ (peer_getData_serving kj_throws method fuel R HR depth w me r s _ (serving_ideal w me Hw Hme) (proj1 Hr) Hs)).
  destruct (getData (gh_key m) s) as [v|]; [|done]. cbn [hash_of_response].
  rewrite bind_ret, bind_statics, (bool_decide_eq_true_2 (is_Some _)) by eauto. done.
Qed.

Lemma get_hash_stop n i key id response w me : average_ge (w_statics w) i = false →
  get_hash_replicas (H0 := env depth me) (S n) i key id response w = (Ok response, w).
Proof. intros Ha. cbn [get_hash_replicas]. by rewrite bind_statics, Ha. Qed.

(** C15: A value PUT under its own hash is found and verified. In an ideal
    ring, after a DHT_PUT_KEY_IS_HASH_OF_DATA of a value at any member, a
    DHT_GET_KEY_IS_HASH_OF_DATA for the SHA-256 of the value at any member
    answers DHT_SUCCESS with the value, before and after the replication has
    run. *)
Theorem put_hash_then_get_hash mput mget junk w (a c : addr) :
  ideal R w → a ∈ members R → c ∈ members R → length junk = id_bytes →
  ph_key mput = ph_value mput → gh_key mget = sha256 (ph_value mput) →
  0 <= getReplicationLimitOnEachNode (w_statics w) <= 255 →
  let answer := header_bytes (u16 (Z.of_nat (4 + length (gh_key mget) + length (ph_value mput))))
                  constants.DHT_SUCCESS ++ gh_key mget ++ ph_value mput in
  ∃ task w1,
    onDhtPutKeyIsHashOfData (H0 := env depth a) mput w = (Ok (m_bytes (ph_data mput), task), w1) ∧
    onDhtGetKeyIsHashOfData (H0 := env depth c) junk mget w1 = (Ok answer, w1) ∧
    ∀ t, task = Some t → ∃ counts w2,
      run_replication (H0 := env depth a) t w1 = (Ok counts, w2) ∧
      onDhtGetKeyIsHashOfData (H0 := env depth c) junk mget w2 = (Ok answer, w2).
Proof.
  intros Hw Ha Hc Hj Hk Hg Hlim answer. set (v := ph_value mput) in *.
  assert (id_ok (gh_key mget)) as Hid by (rewrite Hg; apply sha256_ok).
  assert (∀ w', ideal R w' → stored w' (sha256 v) (sha256 v) v →
    onDhtGetKeyIsHashOfData (H0 := env depth c) junk mget w' = (Ok answer, w')) as Hfind.
  { intros w' Hw' Hst. destruct (dht_getSuccessor_ideal kj_throws method fuel R w' c (gh_key mget) depth HR Hw' Hc Hid)
      as (r & Hr & _); [done..|].
    rewrite Hg in Hr. destruct (Hst r Hr) as (s & Hs & Hd). rewrite <- Hg in Hr, Hd.
    rewrite (get_hash_start mget junk w' c s r Hw' Hc Hid Hj Hr Hs), Hd.
    rewrite bool_decide_eq_true_2 by done. cbn [negb]. rewrite bind_ret. apply get_answer_success. }
  destruct (put_item_ideal true (m_bytes (ph_data mput)) (ph_key mput) v (ph_ext mput) w a Hw Ha)
    as (r & Hr & Hput). rewrite Hk in Hr, Hput.
  set (w1 := store_at r _ _ _ _) in Hput. eexists _, w1. unfold onDhtPutKeyIsHashOfData.
  fold v. rewrite Hk. split; [exact Hput|].
  assert (ideal R w1) as Hw1 by (by apply ideal_store; [|apply Hr]).
  assert (stored w1 (sha256 v) (sha256 v) v) as Hst by (by apply stored_store_same; [|apply sha256_ok|]).
  split; [by apply Hfind|]. intros t Ht. case_match; [|done]. injection Ht as <-.
  set (t := mkReplication _ _ _ _ _ _).
  destruct (run_replication_ideal t a r w1 Hw1 Ha (proj1 Hr) eq_refl Hlim)
    as (counts & stores & Hrun & Hw2 & _ & _).
  eexists _, _. split; [exact Hrun|]. apply Hfind; [done|]. by apply stored_apply.
Qed.

(** C36: A missing hash key is undefined behaviour. In an ideal ring a
    DHT_GET_KEY_IS_HASH_OF_DATA for a 32-byte key that the responsible member
    does not hold dereferences an empty optional; and when that member holds
    another value under the key and the average replication is below 1, the
    value is returned although its hash is not the key. *)
Theorem get_hash_missing_or_wrong m junk w (c r : addr) s :
  ideal R w → c ∈ members R → id_ok (gh_key m) → length junk = id_bytes →
  responsible R (be_num (gh_key m)) r → w_nodes w !! r = Some s →
  (getData (gh_key m) s = None →
   onDhtGetKeyIsHashOfData (H0 := env depth c) junk m w
   = (UB "dereference of an empty optional", w)) ∧
  (∀ v, getData (gh_key m) s = Some v → sha256 v ≠ gh_key m → average_ge (w_statics w) 1 = false →
   onDhtGetKeyIsHashOfData (H0 := env depth c) junk m w
   = (Ok (header_bytes (u16 (Z.of_nat (4 + length (gh_key m) + length v))) constants.DHT_SUCCESS
          ++ gh_key m ++ v), w)).
Proof.
  intros Hw Hc Hid Hj Hr Hs. rewrite (get_hash_start m junk w c s r Hw Hc Hid Hj Hr Hs). split.
  - by intros ->.
  - intros v -> Hne Havg. rewrite bool_decide_eq_false_2 by done. cbn [negb].
    erewrite bind_Ok; [apply get_answer_success|].
    by apply (get_hash_stop 255).
Qed.

End Storage.
