(* ===== verification/Service.v ===== *)
(** * Service: the API of a network as one key-value map

    Composes the parts a client's request passes through: the connection
    (Connection.v) cuts the client's stream into messages, the table of
    handlers (Api.v) that [Dht::setApi] fills dispatches them, the handlers
    (Dht.v) run in the network (Network.v), and the connection sends their
    answers. The clients of all members together see one map from keys to
    values: a refinement theorem relates the bytes they receive to it. *)

From S2P Require Import Prelude Util Ring NodeInfo Message Peer Connection Api Topology Lookup Network Dht.
From S2P Require Import Maintenance Storage.

(** ** The handlers a node registers *)

Section SetApi.
Context `{HashFns} {W : Type} `{PeerEnv W}.

(** What a handler gives: the answer, and the replication it has started. *)
Abbreviation answer := (list Z * option Replication)%type.

(** [Dht::setApi] on a fresh API. [junk] is the memory of the array in
    [onDhtGetKeyIsHashOfData]. *)
Definition setApi (junk : list Z) (api : @Api W answer) : @Api W answer :=
  let handlers := a_requestHandlers api in
  let handlers := on constants.DHT_PUT CLASS_PUT eq_refl (Some onDhtPut) handlers in
  let handlers := on constants.DHT_GET CLASS_KEY eq_refl
                    (Some (λ m, bytes ← onDhtGet m; mret (bytes, None))) handlers in
  let handlers := on constants.DHT_PUT_KEY_IS_HASH_OF_DATA CLASS_PUT_KEY_IS_HASH_OF_DATA eq_refl
                    (Some onDhtPutKeyIsHashOfData) handlers in
  let handlers := on constants.DHT_GET_KEY_IS_HASH_OF_DATA CLASS_GET_KEY_IS_HASH_OF_DATA eq_refl
                    (Some (λ m, bytes ← onDhtGetKeyIsHashOfData junk m; mret (bytes, None))) handlers in
  mkApi (a_isRunning api) (a_accepting api) (a_openConnections api) handlers (a_blocked api).

Definition node_handlers (junk : list Z) : gmap Z (request_handler_t W answer) :=
  a_requestHandlers (setApi junk Api_ctor).

Lemma call_put junk p : msg_type (MsgPut p) = constants.DHT_PUT →
  call_handler (node_handlers junk) (MsgPut p) = onDhtPut p.
Proof. intros E. unfold call_handler. by rewrite E. Qed.

Lemma call_get junk k : msg_type (MsgKey k) = constants.DHT_GET →
  call_handler (node_handlers junk) (MsgKey k) = (bytes ← onDhtGet k; mret (bytes, None)).
Proof. intros E. unfold call_handler. by rewrite E. Qed.

(** The four types of requests, and no other, have a handler. *)
Lemma node_handlers_contains junk t : contains (node_handlers junk) t = known_type t.
Proof.
  unfold contains, node_handlers, setApi, known_type. cbn [a_requestHandlers on Api_ctor start_accept].
  repeat match goal with |- context [?t =? ?k] => destruct (Z.eqb_spec t k) as [->|] end; try done.
  cbn. rewrite !lookup_insert_ne by done. done.
Qed.

End SetApi.

(** ** The frames of a client *)

(** What the encoding constructors of the messages give. *)
Definition put_frame (key value : list Z) (t r : Z) : list Z :=
  match Message_DHT_PUT_encode key value t r with Ok m => m_bytes (put_data m) | _ => [] end.

Definition key_frame (key : list Z) : list Z :=
  match Message_KEY_encode constants.DHT_GET key with Ok m => m_bytes (key_data m) | _ => [] end.

(** A frame that decodes to [m], as the connection and the dispatch see it. *)
Record frame_of (f : list Z) (m : Message) : Prop := {
  frame_ok : frame f;
  frame_decodes handled : handled (msg_type m) = true → decode handled f = Some m;
}.

Lemma frame_of_intro f h m : framed h f → Z.of_nat sizeof_header < header_size h < 2 ^ 16 →
  Request_ctor h f = Ok (mkRequest f m) → frame_of f m.
Proof.
  intros Hf Hs Hr. split.
  - exists h. by rewrite Hr.
  - intros handled Hm. unfold decode. destruct Hf as [Hd _]. rewrite Hd. cbn [m_header]. rewrite Hr.
    cbn [m_decodedData]. unfold msg_type in Hm. by rewrite Hm.
Qed.

Lemma put_frame_of key value t r : length key = 32%nat → Z.of_nat (40 + length value) < 2 ^ 16 →
  0 <= t < 2 ^ 16 →
  frame_of (put_frame key value t r)
    (MsgPut (mkPut (mkData (put_frame key value t r) (mkHeader (Z.of_nat (40 + length value)) constants.DHT_PUT))
       (mkExt t r 0) key value)).
Proof.
  intros Hk Hv Ht. unfold put_frame. rewrite put_encode_bytes. cbn [put_data m_bytes header_size].
  rewrite Hk, u16_small by lia. change (8 + 32 + length value)%nat with (40 + length value)%nat.
  set (s := Z.of_nat (40 + length value)). set (f := header_bytes s _ ++ _).
  assert (Z.of_nat (length f) = s) as Hl.
  { unfold f, s. rewrite !length_app, length_header_bytes, length_ext_bytes, Hk. lia. }
  apply (frame_of_intro f (mkHeader s constants.DHT_PUT)).
  - split; [|done]. apply (read_header_app (mkHeader s constants.DHT_PUT)); unfold s, constants.DHT_PUT; cbn; lia.
  - unfold s, sizeof_header. cbn [header_size]. lia.
  - unfold Request_ctor. cbn [header_size header_msg_type]. rewrite Hl, Z.ltb_irrefl, Z.eqb_refl.
    pose proof (put_decode_bytes key value t r s Hk eq_refl Hv Ht) as Hdec. cbn zeta in Hdec. fold f in Hdec.
    by rewrite Hdec.
Qed.

Lemma key_frame_of key : length key = 32%nat →
  frame_of (key_frame key) (MsgKey (mkKey (mkData (key_frame key) (mkHeader 36 constants.DHT_GET)) key)).
Proof.
  intros Hk. destruct (key_roundtrip constants.DHT_GET key Hk) as (m & Hm & Hdec); [done|].
  unfold key_frame. rewrite Hm. unfold Message_KEY_encode in Hm. rewrite encode_key_bytes, Hk in Hm.
  assert (m = mkKey (mkData (header_bytes 36 constants.DHT_GET ++ key) (mkHeader 36 constants.DHT_GET)) []) as ->
    by (by apply (f_equal (λ o, match o with Ok x => x | _ => m end)) in Hm).
  cbn [key_data m_bytes] in *.
  set (f := header_bytes 36 _ ++ _) in *.
  apply (frame_of_intro f (mkHeader 36 constants.DHT_GET)).
  - split; [by apply (read_header_app (mkHeader 36 constants.DHT_GET))|].
    unfold f. rewrite length_app, length_header_bytes, Hk. done.
  - done.
  - unfold Request_ctor. cbn [header_size header_msg_type].
    assert (length f = 36%nat) as -> by (unfold f; rewrite length_app, length_header_bytes, Hk; done).
    change (Z.of_nat 36 <? 36) with false. change (constants.DHT_GET =? constants.DHT_PUT) with false.
    rewrite Z.eqb_refl. by rewrite Hdec.
Qed.

(** ** One exchange on a connection *)

(** A connection that waits for a request, with none to be answered. *)
Definition idle (c : Conn) : Prop := ready c ∧ c_calls c = [] ∧ c_manager c = true.

(** What [write_some] takes of an answer when there is room for [room] bytes. *)
Definition written (room : nat) (bytes : list Z) : nat := Nat.min room (length bytes).

(** The handler of the only waiting request returns and the answer is written. *)
Definition answer_events (room : nat) (bytes : list Z) : list Event :=
  [EvHandler 0 (Returned bytes); EvManager (Some (written room bytes))].

Lemma exchange handled c f m : idle c → frame_of f m → handled (msg_type m) = true →
  ∃ c1, run_events handled c (frame_events f) = Some (Ok (c1, [Accepted m])) ∧
    ∀ room bytes, ∃ c2, run_events handled c1 (answer_events room bytes) = Some (Ok (c2, [Answered m bytes])) ∧
      idle c2 ∧ c_sent c2 = c_sent c ++ take room bytes.
Proof.
  intros (Hr & Hc & Hm) [Hf Hd] Hh. destruct (run_frame handled c f Hr Hf) as (c1 & Hrun & Hr1 & Hc1 & Hm1 & _ & Hs1).
  rewrite (Hd _ Hh) in Hrun, Hc1. exists c1. split; [exact Hrun|]. intros room bytes.
  rewrite Hc in Hc1. rewrite Hm in Hm1. destruct Hr1 as (Ho & Hp & Hk & Hl & Hdl).
  destruct c1 as [o hd dt pd cl lk mg dn st]. cbn in *. subst. unfold answer_events.
  cbn. rewrite (proj2 (Nat.leb_le (written room bytes) (length bytes))) by apply Nat.le_min_r. cbn. eexists. split; [done|].
  split; [done|]. cbn. f_equal. unfold written. destruct (Nat.le_ge_cases room (length bytes)).
  - by rewrite Nat.min_l.
  - by rewrite Nat.min_r, !take_ge.
Qed.

(** ** The system *)

Section System.
Context `{HashFns} (kj_throws : bool) (method : GetSuccessorMethod) (fuel depth : nat).
Context (nested_wait : M World unit → M World unit) (junk : list Z).
Local Abbreviation env := (world_env kj_throws method fuel depth).

(** The network, the clients with the members they are connected to, and the
    replications that have been started and have not run. *)
Record Sys := mkSys {
  sys_world : World;
  sys_clients : list (addr * Conn);
  sys_tasks : list (addr * Replication);
}.

(** A client's request from its first byte to its answer, of which [write_some]
    takes [room] bytes at most, a replication, or a turn of a member's main loop. *)
Inductive Op :=
| OpPut (i : nat) (key value : list Z) (ttl replication : Z) (room : nat)
| OpGet (i : nat) (key : list Z) (room : nat)
| OpReplicate (j : nat)
| OpMaintain (a : addr) (nextFinger : nat) (cancelled : nat → bool).

Definition handlers_at (a : addr) : gmap Z (request_handler_t World (list Z * option Replication)) :=
  node_handlers (H0 := env a) junk.

(** The outcome of a handler as its [std::future] holds it. *)
Definition future_of (o : outcome (list Z * option Replication)) : option Call :=
  match o with
  | Ok (bytes, _) => Some (Returned bytes)
  | Exn _ => Some Threw
  | UB _ | NoFuel => None
  end.

Definition task_of (a : addr) (o : outcome (list Z * option Replication)) : list (addr * Replication) :=
  match o with Ok (_, Some t) => [(a, t)] | _ => [] end.

(** Client [i] sends the frame [f] and reads what its connection sends, in one
    [write_some] whose result the code ignores. A
    request that is not dispatched, or whose handler does not return, is
    waited for without end. *)
Definition exec_request (i : nat) (f : list Z) (room : nat) (sys : Sys) : outcome (Sys * list (nat * list Z)) :=
  match sys_clients sys !! i with
  | None => Ok (sys, [])
  | Some (a, c) =>
      let handled := contains (handlers_at a) in
      match run_events handled c (frame_events f) with
      | Some (Ok (c1, [Accepted m])) =>
          let '(o, w') := call_handler (handlers_at a) m (sys_world sys) in
          match future_of o with
          | None => NoFuel
          | Some call =>
              match run_events handled c1
                [EvHandler (length (c_calls c)) call;
                 EvManager (match call with Returned bytes => Some (written room bytes) | _ => None end)] with
              | Some (Ok (c2, _)) =>
                  Ok (mkSys w' (<[i := (a, c2)]> (sys_clients sys)) (sys_tasks sys ++ task_of a o),
                      [(i, drop (length (c_sent c)) (c_sent c2))])
              | _ => NoFuel
              end
          end
      | _ => NoFuel
      end
  end.

Definition exec_op (op : Op) (sys : Sys) : outcome (Sys * list (nat * list Z)) :=
  match op with
  | OpPut i key value t r room => exec_request i (put_frame key value t r) room sys
  | OpGet i key room => exec_request i (key_frame key) room sys
  | OpReplicate j =>
      match sys_tasks sys !! j with
      | None => Ok (sys, [])
      | Some (a, t) =>
          match run_replication (H0 := env a) t (sys_world sys) with
          | (Ok _, w') => Ok (mkSys w' (sys_clients sys) (delete j (sys_tasks sys)), [])
          | (Exn e, _) => Exn e
          | (UB e, _) => UB e
          | (NoFuel, _) => NoFuel
          end
      end
  | OpMaintain a next cancelled =>
      match mainLoop_turn (H0 := env a) nested_wait fuel cancelled next (sys_world sys) with
      | (Ok _, w') => Ok (mkSys w' (sys_clients sys) (sys_tasks sys), [])
      | (Exn e, _) => Exn e
      | (UB e, _) => UB e
      | (NoFuel, _) => NoFuel
      end
  end.

Fixpoint exec (ops : list Op) (sys : Sys) : outcome (Sys * list (nat * list Z)) :=
  match ops with
  | [] => Ok (sys, [])
  | op :: ops =>
      '(sys1, out1) ← exec_op op sys;
      '(sys2, out2) ← exec ops sys1;
      Ok (sys2, out1 ++ out2)
  end.

(** ** The specification: one map *)

Abbreviation kv := (gmap (list Z) (list Z)).

Definition success_bytes (key value : list Z) : list Z :=
  header_bytes (Z.of_nat (4 + length key + length value)) constants.DHT_SUCCESS ++ key ++ value.

Definition failure_bytes (key : list Z) : list Z :=
  header_bytes (Z.of_nat (4 + length key)) constants.DHT_FAILURE ++ key.

(** What a GET answers. *)
Definition get_bytes (m : kv) (key : list Z) : list Z :=
  match m !! key with Some v => success_bytes key v | None => failure_bytes key end.

(** The client reads the answer up to what was written of it. *)
Definition spec_op (op : Op) (m : kv) : kv * list (nat * list Z) :=
  match op with
  | OpPut i key value t r room => (<[key := value]> m, [(i, take room (put_frame key value t r))])
  | OpGet i key room => (m, [(i, take room (get_bytes m key))])
  | OpReplicate _ | OpMaintain _ _ _ => (m, [])
  end.

Fixpoint spec (ops : list Op) (m : kv) : kv * list (nat * list Z) :=
  match ops with
  | [] => (m, [])
  | op :: ops =>
      let (m1, out1) := spec_op op m in
      let (m2, out2) := spec ops m1 in (m2, out1 ++ out2)
  end.

(** Requests in the format's limits, by clients and members that exist. *)
Definition op_ok (R : Ring) (n : nat) (op : Op) : Prop :=
  match op with
  | OpPut i key value t r _ =>
      (i < n)%nat ∧ length key = 32%nat ∧ Z.of_nat (40 + length value) < 2 ^ 16 ∧ 0 <= t < 2 ^ 16
  | OpGet i key _ => (i < n)%nat ∧ length key = 32%nat
  | OpReplicate _ => True
  | OpMaintain a next _ => a ∈ members R ∧ (next < key_bits)%nat
  end.

End System.

Section Refinement.
Context `{HashFns} `{!HashOk _} (kj_throws : bool) (method : GetSuccessorMethod) (fuel depth : nat).
Context (nested_wait : M World unit → M World unit) (junk : list Z).
Context (R : Ring) (HR : ring_ok R).
Context (Hfuel : (size (members R) + 2 <= fuel)%nat) (Hdepth : (size (members R) + 2 <= depth)%nat).
Local Abbreviation env := (world_env kj_throws method fuel depth).
Local Abbreviation handlers := (handlers_at kj_throws method fuel depth junk).
Implicit Types (w : World) (a r : addr) (key value : list Z) (m : gmap (list Z) (list Z)).

(** What the node at [a] holds under a key. *)
Definition world_get w a key : option (list Z) := w_nodes w !! a ≫= getData key.

Lemma world_get_store w r a key key' value t : is_Some (w_nodes w !! r) →
  world_get (store_at r key value t w) a key'
  = if decide (a = r ∧ key' = key) then Some value else world_get w a key'.
Proof.
  intros [s Hs]. unfold world_get, store_at. destruct (decide (r = a)) as [<-|Hne].
  - rewrite (lookup_update_eq _ _ _ _ Hs), Hs. cbn. unfold getData; cbn.
    destruct (decide (key' = key)) as [->|Hk].
    + by rewrite lookup_insert_eq, decide_True.
    + by rewrite lookup_insert_ne, decide_False by (done || by intros [_ ->]).
  - by rewrite lookup_update_ne, decide_False by (done || by intros [-> _]).
Qed.

Lemma world_get_fingers w me a t key : world_get (w_update me (with_fingers t) w) a key = world_get w a key.
Proof.
  unfold world_get. destruct (decide (me = a)) as [<-|]; [|by rewrite lookup_update_ne].
  cbn. rewrite lookup_alter_eq. by destruct (w_nodes w !! me).
Qed.

(** A task that a plain PUT has started. *)
Definition task_ok m (x : addr * Replication) : Prop :=
  x.1 ∈ members R ∧ rep_hashed x.2 = false ∧ is_Some (m !! rep_key x.2) ∧
  ∃ r0, r0 ∈ members R ∧ rep_successor x.2 = Some (nd r0).

(** The network holds exactly the map: the member responsible for a key's
    hash holds its value, and copies exist only of keys in the map. *)
Record world_rep w m : Prop := {
  wr_ideal : ideal R w;
  wr_items key r : length key = 32%nat → responsible R (be_num (sha256 key)) r → world_get w r key = m !! key;
  wr_copies key i a : length key = 32%nat → m !! key = None → world_get w a (replica_key key i) = None;
  wr_values key v : m !! key = Some v → length key = 32%nat ∧ Z.of_nat (40 + length v) < 2 ^ 16;
  wr_limit : 0 <= getReplicationLimitOnEachNode (w_statics w) <= 255;
}.

Record represents (sys : Sys) (n : nat) m : Prop := {
  rep_world : world_rep (sys_world sys) m;
  rep_tasks : Forall (task_ok m) (sys_tasks sys);
  rep_clients : Forall (λ x, x.1 ∈ members R ∧ idle x.2) (sys_clients sys);
  rep_count : length (sys_clients sys) = n;
}.

Lemma member_running w r : ideal R w → r ∈ members R → is_Some (w_nodes w !! r).
Proof. intros Hw Hr. destruct (Hw r Hr) as (s & Hs & _). by exists s. Qed.

Lemma replica_key_inj key key' i j : replica_key key i = replica_key key' j → key = key'.
Proof. unfold replica_key. by intros [? _]%app_inj_2. Qed.

Lemma replica_key_length key key' i : length key = 32%nat → length key' = 32%nat → replica_key key i ≠ key'.
Proof. intros Hk Hk' E%(f_equal length). unfold replica_key in E. rewrite length_app, Hk, Hk' in E. done. Qed.

(** Storing an item at the responsible member. *)
Lemma world_rep_put w m r key value t st : world_rep w m → length key = 32%nat →
  Z.of_nat (40 + length value) < 2 ^ 16 → responsible R (be_num (sha256 key)) r →
  0 <= getReplicationLimitOnEachNode st <= 255 →
  world_rep (store_at r key value t (mkWorld (w_nodes w) st (w_now w))) (<[key := value]> m).
Proof.
  intros [Hw Hi Hc Hv Hl] Hk Hlen Hr Hst. set (w1 := mkWorld _ _ _). assert (ideal R w1) as Hw1 by exact Hw.
  pose proof (member_running w1 r Hw1 (proj1 Hr)) as Hrun. constructor.
  - by apply ideal_store; [|apply Hr].
  - intros key' r' Hk' Hr'. rewrite world_get_store by done. destruct (decide (key' = key)) as [->|Hne].
    + assert (r' = r) as -> by (by apply (responsible_unique R HR (be_num (sha256 key)));
        [apply be_num_point, sha256_ok|..]).
      by rewrite decide_True, lookup_insert_eq.
    + rewrite decide_False, lookup_insert_ne by (done || by intros [_ ?]). by apply Hi.
  - intros key' i a Hk' Hnone. apply lookup_insert_None in Hnone as [Hnone Hne]. rewrite world_get_store by done.
    rewrite decide_False; [by apply Hc|]. intros [_ E]. by apply replica_key_length in E.
  - intros key' v [[<- <-]|[_ Hkv]]%lookup_insert_Some; [done|by apply Hv].
  - done.
Qed.

(** Storing a copy of an item of the map changes nothing a client sees. *)
Lemma world_rep_copy w m r key value t j : world_rep w m → is_Some (m !! key) → r ∈ members R →
  world_rep (store_at r (replica_key key j) value t w) m.
Proof.
  intros [Hw Hi Hc Hv Hl] [v Hkv] Hr. pose proof (member_running w r Hw Hr) as Hrun.
  destruct (Hv _ _ Hkv) as [Hk _]. constructor; [by apply ideal_store| | |done|done].
  - intros key' r' Hk' Hr'. rewrite world_get_store by done.
    rewrite decide_False; [by apply Hi|]. intros [_ E]. symmetry in E. by apply replica_key_length in E.
  - intros key' i a Hk' Hnone. rewrite world_get_store by done.
    rewrite decide_False; [by apply Hc|]. intros [_ E]. apply replica_key_inj in E. congruence.
Qed.

Lemma world_rep_copies rep stores w m : world_rep w m → is_Some (m !! rep_key rep) → rep_hashed rep = false →
  (∀ x, x ∈ stores → x.2 ∈ members R) → world_rep (apply_stores rep stores w) m.
Proof.
  intros Hw Hm Hh. revert w Hw. induction stores as [|x stores IH]; intros w Hw Hmem; [done|]. cbn.
  apply IH; [|intros y Hy; apply Hmem; by right]. unfold rep_store_key. rewrite Hh.
  apply world_rep_copy; [done..|]. apply Hmem. by left.
Qed.

Lemma world_rep_fingers w m me t : world_rep w m → ideal R (w_update me (with_fingers t) w) →
  world_rep (w_update me (with_fingers t) w) m.
Proof.
  intros [Hw Hi Hc Hv Hl] Hw'. constructor; [done| | |done|done].
  - intros key r. rewrite world_get_fingers. apply Hi.
  - intros key i a. rewrite world_get_fingers. apply Hc.
Qed.

(** ** The handlers *)

Lemma put_at_member w m a p : world_rep w m → a ∈ members R → length (put_key p) = 32%nat →
  Z.of_nat (40 + length (put_value p)) < 2 ^ 16 →
  ∃ task w', onDhtPut (H0 := env a) p w = (Ok (m_bytes (put_data p), task), w') ∧
    world_rep w' (<[put_key p := put_value p]> m) ∧
    ∀ t, task = Some t → task_ok (<[put_key p := put_value p]> m) (a, t).
Proof.
  intros Hw Ha Hk Hv.
  destruct (put_item_ideal kj_throws method fuel R HR depth Hfuel Hdepth false (m_bytes (put_data p)) (put_key p)
    (put_value p) (put_ext p) w a (wr_ideal _ _ Hw) Ha) as (r & Hr & Hput).
  eexists _, _. split; [exact Hput|]. split.
  - apply world_rep_put; [done..|]. apply (wr_limit _ _ Hw).
  - intros t Ht. case_match; [|done]. injection Ht as <-. split_and!; cbn; [done|done| |].
    + rewrite lookup_insert_eq. by eexists.
    + exists r. split; [apply Hr|done].
Qed.

Lemma get_at_member w m a k : world_rep w m → a ∈ members R → length (key_key k) = 32%nat →
  onDhtGet (H0 := env a) k w
  = (Ok (get_bytes m (key_key k)), w).
Proof.
  intros [Hw Hi Hc Hv _] Ha Hk. unfold get_bytes.
  destruct (onDhtGet_serving kj_throws method fuel R HR depth k w a
    (serving_ideal kj_throws method fuel R HR depth Hfuel Hdepth w a Hw Ha))
    as (r & s & r1 & s1 & Hr & Hs & Hr1 & Hs1 & ->).
  specialize (Hi _ _ Hk Hr). unfold world_get in Hi. rewrite Hs in Hi. cbn in Hi. rewrite Hi.
  destruct (m !! key_key k) as [v|] eqn:E.
  - rewrite get_answer_success. destruct (Hv _ _ E). by rewrite u16_small by lia.
  - specialize (Hc _ 1 r1 Hk E). unfold world_get in Hc. rewrite Hs1 in Hc. cbn in Hc. rewrite Hc.
    replace (if average_ge (w_statics w) 1 then None else None) with (@None (list Z)) by (by case_match).
    rewrite get_answer_failure. by rewrite u16_small by (rewrite Hk; done).
Qed.

(** ** The operations *)

Local Abbreviation run_op := (exec_op kj_throws method fuel depth nested_wait junk).

Lemma request_answered sys i a c f room msg bytes task w' :
  sys_clients sys !! i = Some (a, c) → idle c → frame_of f msg → known_type (msg_type msg) = true →
  call_handler (handlers a) msg (sys_world sys) = (Ok (bytes, task), w') →
  ∃ c2, idle c2 ∧ exec_request kj_throws method fuel depth junk i f room sys
    = Ok (mkSys w' (<[i := (a, c2)]> (sys_clients sys)) (sys_tasks sys ++ task_of a (Ok (bytes, task))), [(i, take room bytes)]).
Proof.
  intros Hi Hidle Hf Hm Hcall. unfold exec_request. rewrite Hi.
  destruct (exchange (contains (handlers a)) c f msg) as (c1 & Hrun & Hans);
    [done|done|unfold handlers_at; by rewrite node_handlers_contains|].
  rewrite Hrun, Hcall. cbn [future_of]. destruct Hidle as (_ & -> & _). cbn [length].
  destruct (Hans room bytes) as (c2 & Hrun2 & Hidle2 & Hsent). unfold answer_events in Hrun2.
  exists c2. split; [done|]. rewrite Hrun2, Hsent, drop_app_length. done.
Qed.

Lemma client_of sys n m i : represents sys n m → (i < n)%nat →
  ∃ a c, sys_clients sys !! i = Some (a, c) ∧ a ∈ members R ∧ idle c.
Proof.
  intros [_ _ Hc Hn] Hi. rewrite <- Hn in Hi. apply lookup_lt_is_Some in Hi as [[a c] Hi].
  exists a, c. split; [done|]. by apply (Forall_lookup_1 _ _ _ _ Hc Hi).
Qed.

(** Tasks stay what they are when the map grows. *)
Lemma tasks_insert m key value l : Forall (task_ok m) l → Forall (task_ok (<[key := value]> m)) l.
Proof.
  intros Hl. eapply Forall_impl; [exact Hl|]. intros x (Hx & Hh & Hk & Hs). split_and!; [done|done| |done].
  by apply lookup_insert_is_Some'; right.
Qed.

Lemma clients_insert sys n m i a c : represents sys n m → a ∈ members R → idle c →
  Forall (λ x, x.1 ∈ members R ∧ idle x.2) (<[i := (a, c)]> (sys_clients sys)) ∧
  length (<[i := (a, c)]> (sys_clients sys)) = n.
Proof.
  intros [_ _ Hc Hn] Ha Hidle. rewrite length_insert. split; [|done]. by apply Forall_insert.
Qed.

Lemma op_put_refines sys n m i key value t (r : Z) room : represents sys n m → op_ok R n (OpPut i key value t r room) →
  ∃ sys', run_op (OpPut i key value t r room) sys = Ok (sys', [(i, take room (put_frame key value t r))]) ∧
    represents sys' n (<[key := value]> m).
Proof.
  intros Hrep (Hi & Hk & Hv & Ht). destruct (client_of _ _ _ _ Hrep Hi) as (a & c & Hc & Ha & Hidle).
  pose proof (put_frame_of key value t r Hk Hv Ht) as Hf. set (p := mkPut _ _ key value) in Hf.
  destruct (put_at_member (sys_world sys) m a p (rep_world _ _ _ Hrep) Ha Hk Hv) as (task & w' & Hput & Hw' & Htask).
  destruct (request_answered sys i a c (put_frame key value t r) room (MsgPut p) (put_frame key value t r) task w')
    as (c2 & Hidle2 & Hexec); [done..|unfold handlers_at; by rewrite call_put|].
  eexists. split; [exact Hexec|]. destruct (clients_insert sys n m i a c2 Hrep Ha Hidle2) as [Hcl Hlen].
  constructor; cbn [sys_world sys_clients sys_tasks]; [exact Hw'| |done|done].
  apply Forall_app. split; [apply tasks_insert, (rep_tasks _ _ _ Hrep)|].
  destruct task as [t0|]; [|constructor]. cbn [task_of]. constructor; [by apply Htask|constructor].
Qed.

Lemma op_get_refines sys n m i key room : represents sys n m → op_ok R n (OpGet i key room) →
  ∃ sys', run_op (OpGet i key room) sys = Ok (sys', [(i, take room (get_bytes m key))]) ∧
    represents sys' n m.
Proof.
  intros Hrep (Hi & Hk). destruct (client_of _ _ _ _ Hrep Hi) as (a & c & Hc & Ha & Hidle).
  pose proof (key_frame_of key Hk) as Hf. set (k := mkKey _ key) in Hf.
  pose proof (get_at_member (sys_world sys) m a k (rep_world _ _ _ Hrep) Ha Hk) as Hget.
  destruct (request_answered sys i a c (key_frame key) room (MsgKey k) (get_bytes m key) None (sys_world sys))
    as (c2 & Hidle2 & Hexec);
    [done..|unfold handlers_at; rewrite call_get by done; by rewrite (bind_Ok _ _ _ _ _ Hget)|].
  eexists. split; [exact Hexec|]. destruct (clients_insert sys n m i a c2 Hrep Ha Hidle2) as [Hcl Hlen].
  constructor; cbn [sys_world sys_clients sys_tasks]; [apply (rep_world _ _ _ Hrep)| |done|done].
  rewrite app_nil_r. apply (rep_tasks _ _ _ Hrep).
Qed.

Lemma op_replicate_refines sys n m j : represents sys n m →
  ∃ sys', run_op (OpReplicate j) sys = Ok (sys', []) ∧ represents sys' n m.
Proof.
  intros Hrep. cbn [exec_op]. destruct (sys_tasks sys !! j) as [[a t]|] eqn:Ej; [|by exists sys].
  destruct Hrep as [Hw Ht Hc Hn].
  destruct (Forall_lookup_1 _ _ _ _ Ht Ej) as (Ha & Hh & Hk & r0 & Hr0 & Hs).
  destruct (run_replication_ideal kj_throws method fuel R HR depth Hfuel Hdepth t a r0 (sys_world sys)
    (wr_ideal _ _ Hw) Ha Hr0 Hs (wr_limit _ _ Hw)) as (counts & stores & Hrun & _ & Hplan & _).
  rewrite Hrun. eexists. split; [done|]. constructor; cbn; [|by apply Forall_delete|done|done].
  apply world_rep_copies; [done..|]. intros x Hx. by apply (planned_place _ _ _ _ _ Hplan).
Qed.

Lemma op_maintain_refines sys n m a next cancelled : represents sys n m →
  op_ok R n (OpMaintain a next cancelled) →
  ∃ sys', run_op (OpMaintain a next cancelled) sys = Ok (sys', []) ∧ represents sys' n m.
Proof.
  intros [Hw Ht Hc Hn] [Ha Hnext]. destruct (wr_ideal _ _ Hw a Ha) as (s & Hs & _).
  destruct (main_loop_turn_keeps kj_throws method fuel R (sys_world sys) a s nested_wait fuel cancelled next depth)
    as (next' & go & t & Hrun & _ & Hw'); [done|apply Hw|done..|].
  cbn [exec_op]. rewrite Hrun. eexists. split; [done|]. constructor; cbn; [|done..].
  by apply world_rep_fingers.
Qed.

Lemma op_refines sys n m op : represents sys n m → op_ok R n op →
  ∃ sys', run_op op sys = Ok (sys', (spec_op op m).2) ∧ represents sys' n (spec_op op m).1.
Proof.
  intros Hrep Hop. destruct op.
  - by apply op_put_refines.
  - by apply op_get_refines.
  - by apply op_replicate_refines.
  - by apply (op_maintain_refines _ _ _ _ _ _ Hrep).
Qed.

(** C2: The service is one map. In a network whose members form a ring, let
    any number of clients be connected to any members. For every sequence of
    PUT and GET requests of the clients, interleaved with turns of the
    members' main loops and with the replications the PUTs have started in
    any order, every request is answered, and the answers are those of a single
    map from keys to values: a PUT is acknowledged with its own bytes, a GET gets
    DHT_SUCCESS with the value last PUT under the key by any client at any
    member, or DHT_FAILURE if there is none. The network represents the
    resulting map. What a client receives of an answer is what the one call of
    [write_some] takes of it: all of it if there is room, else its first [room]
    bytes, and the rest is never sent. Clients stay connected, so that no write
    fails. *)
Theorem service_refines_map ops sys n m : represents sys n m → Forall (op_ok R n) ops →
  ∃ sys', exec kj_throws method fuel depth nested_wait junk ops sys = Ok (sys', (spec ops m).2) ∧
    represents sys' n (spec ops m).1.
Proof.
  intros Hrep Hops. revert sys m Hrep. induction Hops as [|op ops Hop Hops IH]; intros sys m Hrep; [by exists sys|].
  destruct (op_refines sys n m op Hrep Hop) as (sys1 & Hexec & Hrep1).
  destruct (IH sys1 _ Hrep1) as (sys2 & Hexec2 & Hrep2). exists sys2.
  cbn [exec spec]. rewrite Hexec. cbn [mbind outcome_bind]. rewrite Hexec2. cbn [mbind outcome_bind].
  destruct (spec_op op m) as [m1 out1]. cbn [fst snd] in *. by destruct (spec ops m1) as [m2 out2].
Qed.

End Refinement.

(** ** A new ring with new clients represents the empty map *)

Section Start.
Context `{HashFns} `{!HashOk _}.

Lemma ring_world_get X st now a key : world_get (ring_world X st now) a key = None.
Proof.
  unfold world_get. destruct (w_nodes (ring_world X st now) !! a) as [s|] eqn:E; [|done].
  cbn in E. apply elem_of_list_to_map_2, list_elem_of_fmap in E as (b & [= -> ->] & _). done.
Qed.

Lemma start_represents (X : gset addr) st now clients : spread X →
  0 <= getReplicationLimitOnEachNode st <= 255 →
  Forall (λ x, x.1 ∈ X ∧ idle x.2) clients →
  represents (ring_of X) (mkSys (ring_world X st now) clients []) (length clients) ∅.
Proof.
  intros HX Hst Hc. constructor; [|constructor|done|done]. constructor.
  - by apply ring_world_ideal.
  - intros key r _ _. cbn [sys_world]. by rewrite ring_world_get, lookup_empty.
  - intros. apply ring_world_get.
  - intros key v. by rewrite lookup_empty.
  - done.
Qed.

Lemma idle_start header : length header = sizeof_header → idle (Connection_ctor header).
Proof. intros Hl. split_and!; [by apply ready_start|done|done]. Qed.

End Start.
