(* ===== verification/Heal.v ===== *)
(** * Heal: a ring repairs itself after a crash

    A member of an ideal ring stops, with the data it holds. The theorem
    follows the operations of src/dht/Dht.cpp that repair the ring: the dead
    node's predecessor drops it from its fingers ([fixFingers]), one per dead
    finger, until a living finger is its successor; the dead node's successor
    drops its predecessor ([checkPredecessor]); then stabilisation, interleaved
    in any fair way, converges to the ring of the survivors (Interleave.v), and
    a last [fixFingers] puts the successor into the first finger again. Fingers
    of other members may still point at the dead node; lookups in such a ring
    find the responsible member (Robust.v). *)

From stdpp Require Import functions.
From S2P Require Import Prelude Util Ring NodeInfo Message Peer Topology Lookup Network Dht PoW Maintenance Growth Failure Robust Loose Converge Linked Interleave Settle.

(** The node at [d] stops. *)
Definition crash (d : addr) (w : World) : World :=
  mkWorld (delete d (w_nodes w)) (w_statics w) (w_now w).

(** ** Finger tables with dead entries *)

Section Fingers.
Context `{HashFns}.

(** The first populated finger behind empty ones. *)
Lemma getSuccessor_behind i n rest s : m_fingerTable s = replicate i None ++ Some n :: rest →
  getSuccessor s = Some n.
Proof.
  intros E. unfold getSuccessor. rewrite E. clear E.
  assert (filter is_Some (replicate i None ++ Some n :: rest) = Some n :: filter is_Some rest) as ->; [|done].
  induction i as [|i IH]; cbn [replicate app]; [by rewrite filter_cons_True by eauto|].
  by rewrite filter_cons_False by (by intros [? ?]).
Qed.

Lemma drop_one {A} i (n : A) (t : list (option A)) : t !! i = Some (Some n) →
  replicate i None ++ drop i t = replicate i None ++ Some n :: drop (S i) t ∧
  <[i := None]> (replicate i None ++ drop i t) = replicate (S i) None ++ drop (S i) t.
Proof.
  intros Hi. rewrite (drop_S _ _ _ Hi). split; [done|].
  rewrite insert_app_r_alt by (by rewrite length_replicate). rewrite length_replicate, Nat.sub_diag.
  by rewrite replicate_S_end, <- app_assoc.
Qed.

End Fingers.

(** ** The ring before and after *)

Section Crash.
Context `{HashFns} `{!HashOk _}.
Context (X : gset addr) (d c : addr) (Hsp : spread ({[d]} ∪ X)) (Hd : d ∉ X) (Hc : c ∈ X).
Implicit Types (a b : addr) (w : World) (s : NodeInformation).

Let R := ring_of ({[d]} ∪ X).
Let R' := ring_of X.
Let p := rpred R d.
Let q := rsucc R d.

Local Lemma ring_before : ring_ok R.
Proof. by apply ring_of_ok. Qed.

Local Lemma ring_after : ring_ok R'.
Proof. apply ring_of_ok. by eapply spread_union. Qed.

Local Lemma d_member : d ∈ members R.
Proof. apply elem_of_union. left. by apply elem_of_singleton. Qed.

Local Lemma survivor a : a ∈ X → a ∈ members R.
Proof. intros. apply elem_of_union. by right. Qed.

Local Lemma member_cases a : a ∈ members R → a ≠ d → a ∈ X.
Proof. intros [->%elem_of_singleton|]%elem_of_union; done. Qed.

Lemma apart a : a ∈ X → pos a ≠ pos d.
Proof. intros Ha E. apply Hsp in E; [by subst|by apply survivor|apply d_member]. Qed.

(** The dead node had another neighbour on both sides. *)
Lemma q_survives : q ∈ X.
Proof.
  pose proof ring_before as HR. apply member_cases; [apply (ring_succ_mem R HR), d_member|]. intros E.
  apply (ring_adjacent R HR d c d_member (survivor c Hc)). fold q. rewrite E. split; [by apply apart|by left].
Qed.

Lemma p_survives : p ∈ X.
Proof.
  pose proof ring_before as HR. apply member_cases; [apply (ring_pred_mem R HR), d_member|]. intros E.
  pose proof (ring_succ_pred R HR d d_member) as E'. fold p in E'. rewrite E in E'. fold q in E'.
  pose proof q_survives as Hq. by rewrite E' in Hq.
Qed.

Lemma q_responsible : responsible R' (pos d) q.
Proof.
  split; [apply q_survives|]. intros b Hb. apply Z.nlt_ge. intros Hlt.
  apply (ring_adjacent R ring_before d b d_member (survivor b Hb)). split; [by apply apart|right; done].
Qed.

Lemma p_before_q : rpred R' q = p.
Proof. symmetry. apply (insert_pred_new R' R d q ring_after ring_before eq_refl Hd q_responsible). Qed.

Lemma succ_survives a : a ∈ X → a ≠ p → rsucc R a = rsucc R' a ∧ rsucc R a ∈ X.
Proof.
  intros Ha Hne. pose proof ring_before as HR. pose proof ring_after as HR'. pose proof q_responsible as Hq.
  assert (rsucc R a = rsucc R' a) as E by (apply (insert_succ_other R' R d q); [done..|]; by rewrite p_before_q).
  split; [done|]. rewrite E. by apply (ring_succ_mem R' ring_after).
Qed.

Lemma pred_survives a : a ∈ X → a ≠ q → rpred R a ∈ X.
Proof.
  intros Ha Hne. pose proof ring_before as HR. pose proof ring_after as HR'. pose proof q_responsible as Hq.
  rewrite (insert_pred_other R' R d q) by done. by apply (ring_pred_mem R' ring_after).
Qed.

Lemma succ_p : rsucc R p = d.
Proof. apply (ring_succ_pred R ring_before), d_member. Qed.

Lemma pred_q : rpred R q = d.
Proof. apply (ring_pred_succ R ring_before), d_member. Qed.

End Crash.

(** ** Dropping the dead node *)

Section Drop.
Context `{HashFns} `{!HashOk _} (kj_throws : bool) (method : GetSuccessorMethod) (fuel depth : nat).
Local Abbreviation env := (world_env kj_throws method fuel).
Context (X : gset addr) (d c : addr) (Hsp : spread ({[d]} ∪ X)) (Hd : d ∉ X) (Hc : c ∈ X).
Implicit Types (a b : addr).

Let R := ring_of ({[d]} ∪ X).
Let R' := ring_of X.
Let p := rpred R d.
Let q := rsucc R d.

(** How many fingers of the predecessor point at the dead node. *)
Definition dead_fingers : nat := S (Z.to_nat (Z.log2 (cw (pos p) (pos d)))).

Context (w : World) (s : NodeInformation) (Hw : ideal R w) (Hs : w_nodes w !! p = Some s).
Context (Hright : ∀ i, (i < key_bits)%nat → right_finger R p i s).
(** The dead node was less than half the circle away. *)
Context (Hnear : cw (pos p) (pos d) < 2 ^ 255).

Local Lemma p_in : p ∈ X.
Proof. by eapply p_survives. Qed.

Local Lemma p_not_d : d ≠ p.
Proof. intros E. apply Hd. rewrite E. apply p_in. Qed.

Local Lemma q_in : q ∈ X.
Proof. by eapply q_survives. Qed.

Local Lemma view_p : ring_view R p s.
Proof. destruct (Hw p (survivor X d p p_in)) as (s' & Hs' & Hv). rewrite Hs in Hs'. by injection Hs' as <-. Qed.

Lemma cw_finger a i : (i < key_bits)%nat → cw (pos a) ((pos a + 2 ^ Z.of_nat i) `mod` ring_size) = 2 ^ Z.of_nat i.
Proof.
  intros Hi. unfold cw. rewrite Zminus_mod_idemp_l. replace (pos a + 2 ^ Z.of_nat i - pos a) with (2 ^ Z.of_nat i) by lia.
  apply Z.mod_small. split; [apply Z.pow_nonneg; lia|]. change ring_size with (2 ^ 256).
  apply Z.pow_lt_mono_r; unfold key_bits, id_bytes in Hi; lia.
Qed.

Lemma gap_pos : 0 < cw (pos p) (pos d).
Proof.
  pose proof (cw_range (pos p) (pos d)). destruct (decide (cw (pos p) (pos d) = 0)) as [E|]; [|lia].
  apply cw_zero in E; [|apply pos_point..]. by destruct (apart X d Hsp Hd p p_in).
Qed.

Lemma dead_fingers_iff i : (i < dead_fingers)%nat ↔ 2 ^ Z.of_nat i <= cw (pos p) (pos d).
Proof. pose proof gap_pos. rewrite Z.log2_le_pow2 by done. unfold dead_fingers. pose proof (Z.log2_nonneg (cw (pos p) (pos d))). lia. Qed.

Lemma dead_fingers_bound : (dead_fingers < key_bits)%nat.
Proof.
  pose proof gap_pos as Hpos. apply Z.log2_lt_pow2 in Hnear; [|done]. unfold dead_fingers, key_bits, id_bytes.
  pose proof (Z.log2_nonneg (cw (pos p) (pos d))). lia.
Qed.

(** The predecessor's fingers up to there point at it, the others do not. *)
Lemma finger_target i : (i < key_bits)%nat →
  if decide (i < dead_fingers)%nat
  then m_fingerTable s !! i = Some (Some (nd d)) ∧ responsible R ((pos p + 2 ^ Z.of_nat i) `mod` ring_size) d
  else ∃ x, x ∈ X ∧ m_fingerTable s !! i = Some (Some (nd x)).
Proof.
  intros Hi. destruct (Hright i Hi) as (b & Hb & Hf). pose proof (cw_finger p i Hi) as Hcw.
  set (id := (pos p + 2 ^ Z.of_nat i) `mod` ring_size) in *. pose proof (ring_before X d Hsp) as HR. fold R in HR.
  pose proof (mod_point (pos p + 2 ^ Z.of_nat i)) as Pid. fold id in Pid.
  pose proof (responsible_arc R HR id d Pid (d_member X d)) as Harc. fold p in Harc.
  assert (0 < 2 ^ Z.of_nat i) as Hpow by (apply Z.pow_pos_nonneg; lia).
  destruct (decide (i < dead_fingers)%nat) as [Hlt|Hge].
  - assert (responsible R id d) as Hr.
    { apply Harc. right. rewrite Hcw. split; [|by apply dead_fingers_iff]. intros E. rewrite E, cw_diag in Hcw. lia. }
    rewrite (responsible_unique R HR id d b Pid Hr Hb). done.
  - exists b. split; [|done]. apply (member_cases X d); [apply Hb|]. intros ->. apply Hge, dead_fingers_iff.
    apply Harc in Hb as [E|[_ Hle]]; [|by rewrite Hcw in Hle]. by destruct (apart X d Hsp Hd p p_in).
Qed.

(** The predecessor's state when its first [i] fingers are empty. *)
Definition emptied (i : nat) : NodeInformation → NodeInformation :=
  with_fingers (replicate i None ++ drop i (m_fingerTable s)).

Definition dropped (i : nat) : World := w_update p (emptied i) (crash d w).

Lemma dropped_p i : w_nodes (dropped i) !! p = Some (emptied i s).
Proof.
  apply lookup_update_eq. cbn. by rewrite lookup_delete_ne by apply p_not_d.
Qed.

Lemma dropped_d i : w_nodes (dropped i) !! d = None.
Proof. cbn. by rewrite lookup_alter_ne, lookup_delete_eq by apply not_eq_sym, p_not_d. Qed.

Lemma drop_finger i : (i < dead_fingers)%nat →
  fixFingers (H0 := env (S depth) p) i (dropped i) = (Ok (i + 1)%nat, dropped (i + 1)).
Proof.
  intros Hi. pose proof dead_fingers_bound as Hb. assert (i < key_bits)%nat as Hk by lia.
  pose proof (finger_target i Hk) as Ht. rewrite decide_True in Ht by done. destruct Ht as [Hf Hr].
  pose proof view_p as Hv. destruct (drop_one i (nd d) (m_fingerTable s) Hf) as [E1 E2].
  pose proof (finger_start_num p (emptied i s) i (view_id R p s Hv) Hk) as [Hid Hnum].
  rewrite (fixFingers_stores kj_throws method fuel depth p (dropped i) (emptied i s) i None).
  - rewrite Nat.mod_small by lia. f_equal. replace (i + 1)%nat with (S i) by lia.
    pose proof (dropped_p i) as Hi'. unfold dropped in Hi' |- *. set (w1 := crash d w) in *. set (s1 := emptied i s) in *.
    assert (w_nodes w1 !! p = Some s) as Hs1 by (unfold w1; cbn [crash w_nodes]; by rewrite lookup_delete_ne by apply p_not_d).
    unfold w_update. cbn [w_nodes w_statics w_now]. f_equal. rewrite alter_alter_eq. apply alter_ext. intros s' Hs'.
    rewrite Hs1 in Hs'. injection Hs' as <-. unfold compose, s1, emptied. cbn [with_fingers m_fingerTable]. by rewrite <- E2.
  - apply dropped_p.
  - apply Hv.
  - unfold table_ok, emptied. cbn. rewrite length_app, length_replicate, length_drop, (view_table _ _ _ Hv). clear - Hk. change 256%nat with key_bits. lia.
  - done.
  - apply (lookup_dead kj_throws method fuel depth p (Some (rpred R p)) d _ (emptied i s)); [apply dropped_p|apply Hv|apply Hv| |done| | |apply dropped_d].
    + by apply (getSuccessor_behind i _ (drop (S i) (m_fingerTable s))).
    + rewrite Hnum. apply (responsible_arc R (ring_before X d Hsp)) in Hr; [done|apply mod_point|apply d_member].
    + intros p' [= <-]. rewrite Hnum. intros Hin.
      apply (responsible_arc R (ring_before X d Hsp)) in Hin; [|apply mod_point|apply survivor, p_in].
      by apply p_not_d, (responsible_unique R (ring_before X d Hsp) _ _ _ (mod_point _) Hr Hin).
Qed.

Lemma drop_fingers n : (n <= dead_fingers)%nat → fixFingers_n (env (S depth) p) n 0 (crash d w) = (Ok n, dropped n).
Proof.
  assert (∀ n i, (i + n <= dead_fingers)%nat → fixFingers_n (env (S depth) p) n i (dropped i) = (Ok (i + n)%nat, dropped (i + n))) as Hn.
  { induction n0 as [|n0 IH]; intros i Hi; [by rewrite Nat.add_0_r|]. cbn [fixFingers_n].
    rewrite (bind_Ok _ _ _ _ _ (drop_finger i ltac:(lia))). rewrite IH by lia. by replace (i + 1 + n0)%nat with (i + S n0)%nat by lia. }
  intros Hle. pose proof (Hn n 0%nat Hle) as E. cbn [Nat.add] in E. rewrite <- E. f_equal. unfold dropped. symmetry.
  eapply w_update_id.
  - cbn. by rewrite lookup_delete_ne by apply p_not_d.
  - unfold emptied. cbn. rewrite drop_0. by destruct s.
Qed.

(** The dead node's successor drops it, too. *)
Definition checked : World := w_update q (setPredecessor None) (dropped dead_fingers).

(** The links that are left: the predecessor follows [x]. *)
Definition left_links (x : addr) (checked : bool) : Links := {|
  succ_of := λ a, if decide (a = p) then x else rsucc R a;
  pred_of := λ a, if decide (checked = true ∧ a = q) then None else Some (rpred R a);
|}.

(** Fingers of members point at members, or at the dead node behind the
    member's new successor. *)
Definition may_point (a b : addr) : Prop := b ∈ X ∨ stale R' {[d]} a b.

Lemma left_view x a : m_fingerTable s !! dead_fingers = Some (Some (nd x)) → a ∈ X →
  ∃ s1, w_nodes (dropped dead_fingers) !! a = Some s1 ∧
  link_view may_point (X ∖ {[p]}) a (Some (rpred R a)) (if decide (a = p) then x else rsucc R a) s1.
Proof.
  intros Hf Ha. pose proof (ring_before X d Hsp) as HR. fold R in HR. destruct (decide (a = p)) as [->|Hne].
  - pose proof dead_fingers_bound as Hb. pose proof view_p as Hv.
    exists (emptied dead_fingers s). split; [apply dropped_p|]. constructor.
    + apply Hv.
    + unfold table_ok, emptied. cbn [with_fingers m_fingerTable]. rewrite length_app, length_replicate, length_drop, (view_table _ _ _ Hv).
      clear - Hb. lia.
    + apply Hv.
    + apply (getSuccessor_behind dead_fingers _ (drop (S dead_fingers) (m_fingerTable s))).
      unfold emptied. cbn [with_fingers m_fingerTable]. by rewrite (drop_S _ _ _ Hf).
    + by intros [_ []%not_elem_of_singleton]%elem_of_difference.
    + unfold emptied. cbn [with_fingers m_fingerTable]. intros j n [Hj|[Hge Hj]]%lookup_app_Some.
      { by apply lookup_replicate in Hj as [? _]. }
      rewrite length_replicate in Hge, Hj. rewrite lookup_drop in Hj. replace (_ + _)%nat with j in Hj by lia.
      assert (j < key_bits)%nat as Hjk by (pose proof (view_table _ _ _ Hv) as E; apply lookup_lt_Some in Hj; by rewrite E in Hj).
      pose proof (finger_target j Hjk) as Ht. rewrite decide_False in Ht by lia. destruct Ht as (b & Hbx & E).
      rewrite E in Hj. injection Hj as <-. exists b. split; [by left|done].
  - destruct (Hw a (survivor X d a Ha)) as (sa & Hsa & Hv). exists sa. split.
    { unfold dropped. rewrite lookup_update_ne by done. cbn [crash w_nodes]. rewrite lookup_delete_ne; [done|]. by intros <-. }
    constructor; [apply Hv|apply Hv|apply Hv|by apply (view_succ R)|intros _; apply Hv|].
    intros j n Hj. destruct (view_fingers _ _ _ Hv j n Hj) as (b & Hb & ->). exists b. split; [|done].
    destruct (decide (b = d)) as [->|Hbd]; [right|left; by apply (member_cases X d)]. split; [by apply elem_of_singleton|].
    destruct (succ_survives X d c Hsp Hd Hc a Ha Hne) as [E _]. fold R R' in E. rewrite <- E.
    apply (ring_adjacent R HR); [by apply survivor|apply d_member].
Qed.

(** What is left is an anchored network of the survivors. *)
Lemma left_network : ∃ x,
  linked X may_point (X ∖ {[p]}) (dropped dead_fingers) checked (left_links x true) ∧
  links_ok X (left_links x true) ∧ anchored X p (left_links x true).
Proof.
  pose proof (ring_before X d Hsp) as HR. fold R in HR. pose proof dead_fingers_bound as Hb.
  pose proof (finger_target dead_fingers Hb) as Ht. rewrite decide_False in Ht by lia. destruct Ht as (x & Hx & Hf).
  exists x. split_and!.
  - apply (linked_update X may_point (X ∖ {[p]}) _ _ (left_links x false)); [|apply q_in| | |done].
    + constructor; [|done..]. intros a Ha. cbn [left_links succ_of pred_of]. rewrite decide_False by (by intros [? _]).
      by apply left_view.
    + intros s1 []. cbn [left_links succ_of pred_of]. rewrite decide_True by done. by constructor.
    + intros a Ha. split; [done|]. cbn [left_links pred_of]. by rewrite !decide_False by tauto.
  - constructor; cbn [left_links succ_of pred_of]; intros a.
    + intros Ha. destruct (decide (a = p)) as [|Hne]; [done|]. by apply (succ_survives X d c Hsp Hd Hc a Ha Hne).
    + intros b Ha. case_decide as E; [done|]. intros [= <-]. apply (pred_survives X d c Hsp Hd Hc a Ha). intros ->. by apply E.
    + intros Ha. case_decide as E; [done|]. intros [= Ea].
      assert (rsucc R a = a) as Es by (rewrite <- Ea at 1; by apply (ring_succ_pred R HR), survivor).
      case_decide as Hap; [|done]. subst a. exfalso. apply p_not_d. rewrite <- Es. symmetry. apply (succ_p X d Hsp).
  - split; [apply p_in|]. intros a Ha. cbn [left_links succ_of]. destruct (decide (a = p)) as [->|Hne]; [by intros [? _]|].
    apply (ring_adjacent R HR); [by apply survivor|apply survivor, p_in].
Qed.

Lemma left_fingers : fingers_ok X {[d]} may_point (dropped dead_fingers).
Proof.
  constructor.
  - intros a b _ Hb. by left.
  - intros a b _ [Hb|[Hb _]]; apply elem_of_union; auto.
  - intros b _ ->%elem_of_singleton. apply dropped_d.
  - by rewrite union_comm_L.
Qed.

(** The check of the dead node's successor. *)
Lemma check_dropped : checkPredecessor (H0 := env (S depth) q) (dropped dead_fingers) = (Ok tt, checked).
Proof.
  pose proof dead_fingers_bound as Hb. pose proof (finger_target dead_fingers Hb) as Ht. rewrite decide_False in Ht by lia.
  destruct Ht as (x & _ & Hf). destruct (left_view x q Hf q_in) as (s1 & Hs1 & Hv).
  rewrite (checkPredecessor_drops_dead kj_throws method fuel depth q d _ s1 Hs1).
  - by rewrite dropped_d.
  - rewrite (lv_pred _ _ _ _ _ _ Hv). unfold q, R. by rewrite (pred_q X d Hsp).
Qed.

End Drop.

(** ** The last repair *)

Section LastRepair.
Context `{HashFns} `{!HashOk _} (kj_throws : bool) (method : GetSuccessorMethod) (fuel depth : nat).
Local Abbreviation env := (world_env kj_throws method fuel).
Context (X : gset addr) (d p : addr) (Hsp : spread ({[d]} ∪ X)) (Hd : d ∉ X) (Hp : p ∈ X).

Let R' := ring_of X.

Lemma last_repair w0 w L : linked X (may_point X d) (X ∖ {[p]}) w0 w L → links_ok X L → ring_links X L →
  fingers_ok X {[d]} (may_point X d) w0 →
  ∃ w', fixFingers (H0 := env (S (S depth)) p) 0 w = (Ok 1%nat, w') ∧ linked X (may_point X d) X w0 w' L.
Proof.
  intros Hw Hok HL HK. destruct (ln_node _ _ _ _ _ _ Hw p Hp) as (s & Hs & Hv).
  eexists. split.
  { apply (fixFingers_stores kj_throws method fuel (S depth) p w s 0 (Some (succ_of L p)));
      [done|apply Hv|apply Hv|by vm_compute; lia|by eapply loose_next]. }
  set (t := <[0%nat := nd <$> Some (succ_of L p)]> (m_fingerTable s)). constructor.
  - intros a Ha. destruct (decide (p = a)) as [<-|Hne].
    + eexists. split; [by apply lookup_update_eq|]. destruct Hv as [Vn Vt Vp Vs Vf Vg].
      assert (t !! 0%nat = Some (Some (nd (succ_of L p)))) as Ht by (apply list_lookup_insert_eq; rewrite Vt; by vm_compute; lia).
      constructor; [done|unfold table_ok; cbn [with_fingers m_fingerTable]; unfold t; by rewrite length_insert|done|
        by apply getSuccessor_first|done|].
      cbn [with_fingers m_fingerTable]. intros j n Hj. apply list_lookup_insert_Some in Hj as [(_ & [= <-] & _)|[_ Hj]]; [|by eapply Vg].
      exists (succ_of L p). split; [left; by apply Hok|done].
    + destruct (ln_node _ _ _ _ _ _ Hw a Ha) as (sa & Hsa & [Vn Vt Vp Vs Vf Vg]). exists sa. rewrite lookup_update_ne by done. split; [done|].
      constructor; [done|done|done|done| |done]. intros _. apply Vf. apply elem_of_difference. split; [done|].
      by apply not_elem_of_singleton, not_eq_sym.
  - intros a Ha. rewrite lookup_update_ne by (by intros ->). by apply Hw.
  - apply same_data_update; [|by eapply ln_data]. rewrite Hs. by intros ? [= <-].
Qed.

(** Every member knows its neighbours, and no finger to [d] misleads. *)
Lemma linked_faulty w0 w L : linked X (may_point X d) X w0 w L → ring_links X L → fingers_ok X {[d]} (may_point X d) w0 →
  faulty R' {[d]} w.
Proof.
  intros Hw HL HK. constructor.
  - intros a Ha. destruct (HL a Ha) as [Esu Epr]. destruct (ln_node _ _ _ _ _ _ Hw a Ha) as (s & Hs & [Vn Vt Vp Vs Vf Vg]).
    exists s. split; [done|]. constructor; [done|done|by rewrite Vp, Epr| |done]. unfold R'. rewrite <- Esu. by apply Vf.
  - intros a ->%elem_of_singleton. rewrite (ln_outside _ _ _ _ _ _ Hw) by done. apply HK; [done|by apply elem_of_singleton].
  - intros a b Ha ->%elem_of_singleton. by apply (apart X d Hsp Hd).
Qed.

End LastRepair.

(** ** Recovery *)

(** The survivors have the links of their ring, with operations under way, and
    the data of [w]; fingers to [d] may be left where they do not mislead. *)
Definition healed `{HashFns} (X : gset addr) (d : addr) (w : World) (net : Net) : Prop :=
  ∃ w0, same_data w w0 ∧ fingers_ok X {[d]} (may_point X d) w0 ∧ ring_net X (may_point X d) w0 net.

Section Recovery.
Context `{HashFns} `{!HashOk _} (kj_throws : bool).
Implicit Types (X : gset addr) (d c : addr) (w : World).

Lemma healed_faulty X d w net : spread ({[d]} ∪ X) → d ∉ X → healed X d w net →
  faulty (ring_of X) {[d]} (net_world net) ∧ same_data w (net_world net).
Proof.
  intros Hsp Hd (w0 & Hdata & HK & m & (Hw & _) & _ & HL). split; [by eapply linked_faulty|].
  etrans; [exact Hdata|]. by eapply ln_data.
Qed.

Lemma size_with_dead X d fuel : (3 * S (size X) + 2 <= fuel)%nat → (3 * size (X ∪ {[d]}) + 2 <= fuel)%nat.
Proof.
  intros Hf. pose proof (size_union_alt X {[d]}) as E.
  pose proof (subseteq_size ({[d]} ∖ X) ({[d]} : gset addr) ltac:(by apply subseteq_difference_l)) as Hle.
  rewrite size_singleton in Hle. lia.
Qed.

(** A ring recovers from the crash of a member. Let a member [d] of an
    ideal ring stop, whose predecessor [p] had its fingers in order and was
    less than half the circle away. As many calls of [fixFingers] as [p] has
    fingers to [d] drop them all, and the check of [d]'s successor drops it
    there. Then, however the survivors' stabilisations, checks and (but for [p])
    repairs of fingers interleave, enough fair rounds and one more repair of
    [p]'s first finger leave a network of the survivors in which every member
    knows its neighbours in the ring without [d]; the survivors hold the data
    they held; no step throws, is undefined or waits for ever. *)
Theorem crash_heals method fuel X d c w s next rounds depth :
  let env := world_env kj_throws method fuel in
  let R := ring_of ({[d]} ∪ X) in
  let p := rpred R d in
  spread ({[d]} ∪ X) → d ∉ X → c ∈ X → ideal R w → w_nodes w !! p = Some s →
  (∀ i, (i < key_bits)%nat → right_finger R p i s) → cw (pos p) (pos d) < 2 ^ 255 →
  (∀ a, (next a < key_bits)%nat) →
  Forall (fair_events X (X ∖ {[p]})) rounds → (size X * (2 * size X) < length rounds)%nat →
  (3 * S (size X) + 2 <= fuel)%nat → (size X <= depth)%nat →
  ∃ w1 net w2,
    (fixFingers_n (env (S (S depth)) p) (dead_fingers X d) 0;;
     checkPredecessor (H0 := env (S (S depth)) (rsucc R d))) (crash d w) = (Ok tt, w1) ∧
    net_run kj_throws method fuel (S (S depth)) (concat rounds) (at_rest next w1) = Ok net ∧
    fixFingers (H0 := env (S (S depth)) p) 0 (net_world net) = (Ok 1%nat, w2) ∧
    healed X d (crash d w) (mkNet w2 (net_stage net) (<[p := 1%nat]> (net_next net))).
Proof.
  intros env R p Hsp Hd Hc Hw Hs Hright Hnear Hnext Hrounds Hlen Hf Hdepth.
  pose proof (p_survives X d c Hsp Hd Hc) as Hp. fold R p in Hp.
  destruct (left_network X d c Hsp Hd Hc w s Hw Hs Hright Hnear) as (x & Hlinked & Hok & Hanc).
  pose proof (drop_fingers kj_throws method fuel (S depth) X d c Hsp Hd Hc w s Hw Hs Hright Hnear _ (le_n _)) as Hdrop.
  pose proof (check_dropped kj_throws method fuel (S depth) X d c Hsp Hd Hc w s Hw Hs Hright Hnear) as Hcheck.
  pose proof (left_fingers X d c Hsp Hd Hc w s) as HK.
  destruct (rounds_refine kj_throws method fuel depth X {[d]} (may_point X d) (X ∖ {[p]}) (dropped X d w s (dead_fingers X d))
    HK (size_with_dead X d fuel Hf) Hdepth rounds (checked X d w s) (left_links X d x true) p next)
    as (net & m & Hrun & (Hlinked' & Hst & Hnx) & Hm & HL); [by eapply spread_union|done..|].
  destruct (last_repair kj_throws method fuel depth X d p Hp _ _ _ Hlinked' (mo_links _ _ Hm) HL HK) as (w2 & Hfix & Hw2).
  eexists _, net, w2. split_and!; [by rewrite (bind_Ok _ _ _ _ _ Hdrop)|done|done|].
  exists (dropped X d w s (dead_fingers X d)). split_and!; [by apply same_data_update|exact HK|]. exists m. split_and!; [split_and!; [exact Hw2|done|]|done|done].
  intros a. cbn [net_next]. destruct (decide (p = a)) as [<-|]; [rewrite fn_lookup_insert; by vm_compute; lia|by rewrite fn_lookup_insert_ne].
Qed.

(** With the iterative method, repairs are right even so. *)
Lemma repairs_right_faulty X d w0 fuel depth : spread ({[d]} ∪ X) → d ∉ X → fingers_ok X {[d]} (may_point X d) w0 →
  (3 * S (size X) + 2 <= fuel)%nat → repairs_right kj_throws LOCAL fuel depth X (may_point X d) w0.
Proof.
  intros Hsp Hd HK Hf w L a s i Hw HL Ha Hs Hi. pose proof (linked_faulty X d Hsp Hd w0 w L Hw HL HK) as Hfaulty.
  pose proof (ring_of_ok X (spread_union X d Hsp)) as HR. destruct (ln_node _ _ _ _ _ _ Hw a Ha) as (s' & Hs' & Hv).
  rewrite Hs in Hs'. injection Hs' as <-. destruct (finger_start_num a s i (lv_id _ _ _ _ _ _ Hv) Hi) as [Hid Hnum].
  pose proof (faulty_FaultyEnv kj_throws LOCAL fuel (ring_of X) {[d]} w depth a Hfaulty Ha) as HE.
  destruct (lookup_faulty (ring_of X) HR {[d]} a w HE (finger_start s i) fuel Hid) as (b & Hb & Hl).
  { rewrite size_singleton. cbn. lia. }
  exists b. rewrite <- Hnum. split; [done|].
  by apply (fixFingers_stores kj_throws LOCAL fuel (S depth) a w s i (Some b)); [done|apply Hv|apply Hv|..].
Qed.

(** What goes on after the recovery: the survivors stay a ring with their data,
    and complete their fingers; when all have, it is the ideal ring. *)
Lemma healed_run X d w net fuel depth more : spread ({[d]} ∪ X) → d ∉ X → healed X d w net →
  (3 * S (size X) + 2 <= fuel)%nat → (size X <= depth)%nat → Forall (allowed X X) more →
  ∃ net', net_run kj_throws LOCAL fuel (S (S depth)) more net = Ok net' ∧ healed X d w net' ∧
    ((∀ a, a ∈ X → (key_bits <= repairs a more)%nat) → ideal (ring_of X) (net_world net')).
Proof.
  intros Hsp Hd (w0 & Hdata & HK & Hnet) Hf Hdepth Hmore. pose proof (spread_union X d Hsp) as HspX.
  destruct (ring_completes kj_throws LOCAL fuel depth X {[d]} (may_point X d) w0 HK HspX (size_with_dead X d fuel Hf) Hdepth
    (repairs_right_faulty X d w0 fuel depth Hsp Hd HK Hf) more net Hnet Hmore) as (net' & Hrun & Hnet' & Hc).
  exists net'. split_and!; [done|by exists w0|]. intros Hall a Ha. destruct Hnet' as (m & (Hw & _) & _ & HL).
  destruct (ln_node _ _ _ _ _ _ Hw a Ha) as (s & Hs & [Vn Vt Vp Vs Vf Vg]). destruct (HL a Ha) as [Esu Epr].
  exists s. split; [done|]. constructor; [done|done|by rewrite Vp, Epr|by rewrite <- Esu; apply Vf|].
  intros j n Hj. destruct (Hc a Ha (Hall a Ha)) as (s' & Hs' & Hr). rewrite Hs in Hs'. injection Hs' as <-.
  destruct (Hr j) as (b & [Hb _] & Hjb); [rewrite <- Vt; by eapply lookup_lt_Some|]. rewrite Hj in Hjb. injection Hjb as ->.
  by exists b.
Qed.

End Recovery.
