(* ===== verification/Survive.v ===== *)
(** * Survive: data after a crash

    Members crash with the items they hold, and the ring of the survivors forms
    again (Heal.v shows one way it does). Items of the survivors are found again,
    and for an item that went with a crashed member DHT_GET answers with the copy
    that replication placed on a survivor: the handlers of src/dht/Dht.cpp in a
    network with dead fingers, by the interface [serving] of Storage.v. *)

From stdpp Require Import functions.
From S2P Require Import Prelude Util Ring NodeInfo Message Peer Topology Lookup Network Dht Maintenance Growth Failure Robust Linked Interleave Settle Storage Heal.

(** ** Requests in a network with dead fingers *)

Section Serving.
Context `{HashFns} `{!HashOk _} (kj_throws : bool) (fuel depth : nat).
Local Abbreviation env := (world_env kj_throws LOCAL fuel).

Lemma serving_faulty R D w me : ring_ok R → faulty R D w → me ∈ members R →
  (size (members R) + 3 * size D + 2 <= fuel)%nat → (2 <= depth)%nat →
  serving kj_throws LOCAL fuel R depth w me.
Proof.
  intros HR Hw Hme Hf Hd. constructor; [done|lia| |].
  - intros r Hr. destruct (fw_members _ _ _ Hw r Hr) as (s & Hs & Hv). exists s. split; [done|apply Hv].
  - intros id Hid. destruct (faulty_request kj_throws fuel depth R D w id me me HR Hw Hme Hid Hf Hd) as (b & Hb & Hrpc).
    exists b. split; [done|]. destruct (fw_members _ _ _ Hw me Hme) as (s & Hs & Hv). unfold dht_getSuccessor.
    rewrite (bind_ni _ _ _ _ _ _ _ _ Hs). unfold getIp, getPort. fold (getNode s). rewrite (fv_node _ _ _ _ Hv).
    rewrite (then_Ok _ _ _ _ _ _ Hrpc). cbn [nodeFromReader_opt fmap option_fmap option_map]. by rewrite nd_roundtrip.
Qed.

End Serving.

(** ** Where items are *)

Section Items.
Context `{HashFns} `{!HashOk _}.
Implicit Types (w : World) (X : gset addr) (r d : addr) (key value : list Z).

Definition holds w r key value : Prop := ∃ s, w_nodes w !! r = Some s ∧ getData key s = Some value.

(** A GET in the ring of [X] finds the value: the member responsible for the key
    has it; or that member has no other value under the key, copies are looked
    for, and copy number 1 is where its key leads. *)
Definition findable X w key value : Prop :=
  (∃ r, responsible (ring_of X) (be_num (sha256 key)) r ∧ holds w r key value) ∨
  ((∀ r v, responsible (ring_of X) (be_num (sha256 key)) r → holds w r key v → v = value) ∧
   average_ge (w_statics w) 1 = true ∧
   ∃ r, responsible (ring_of X) (be_num (sha256 (replica_key key 1))) r ∧ holds w r (replica_key key 1) value).

Lemma holds_same w w' r key value : same_data w w' → holds w r key value → holds w' r key value.
Proof.
  intros [Hd _ _] (s & Hs & Hv). specialize (Hd r). rewrite Hs in Hd.
  destruct (w_nodes w' !! r) as [s'|] eqn:E; [|done]. injection Hd as Hd. exists s'. split; [done|].
  unfold getData. by rewrite Hd.
Qed.

Lemma holds_crash w d r key value : r ≠ d → holds w r key value → holds (crash d w) r key value.
Proof. intros Hne (s & Hs & Hv). exists s. cbn. by rewrite lookup_delete_ne. Qed.

(** What a survivor holds after the crash, it held before. *)
Lemma held_before w' w d r key value : same_data (crash d w) w' → r ≠ d → holds w' r key value → holds w r key value.
Proof.
  intros [Hd _ _] Hne (s & Hs & Hv). specialize (Hd r). rewrite Hs in Hd. cbn in Hd. rewrite lookup_delete_ne in Hd by done.
  destruct (w_nodes w !! r) as [s'|] eqn:E; [|done]. injection Hd as Hd. exists s'. split; [done|].
  unfold getData in *. by rewrite <- Hd.
Qed.

(** A survivor stays responsible. *)
Lemma responsible_survives (D X : gset addr) id r :
  responsible (ring_of (D ∪ X)) id r → r ∈ X → responsible (ring_of X) id r.
Proof. intros [_ Hmin] Hr. split; [done|]. intros b Hb. apply Hmin. by apply elem_of_union_r. Qed.

Lemma spread_right (D X : gset addr) : spread (D ∪ X) → spread X.
Proof. intros Hsp a b Ha Hb. by apply Hsp; apply elem_of_union_r. Qed.

End Items.

(** ** GET after the recovery *)

Section AfterCrash.
Context `{HashFns} `{!HashOk _} (kj_throws : bool) (fuel depth : nat).
Local Abbreviation env := (world_env kj_throws LOCAL fuel).
Implicit Types (w : World) (X D : gset addr) (me : addr) (key value : list Z).

(** The answer to a GET that finds the value. *)
Definition found_answer key value : list Z :=
  header_bytes (u16 (Z.of_nat (4 + length key + length value))) constants.DHT_SUCCESS ++ key ++ value.

Lemma get_findable X D w m me value : spread X → faulty (ring_of X) D w → me ∈ X →
  (size X + 3 * size D + 2 <= fuel)%nat → (2 <= depth)%nat → findable X w (key_key m) value →
  onDhtGet (H0 := env depth me) m w = (Ok (found_answer (key_key m) value), w).
Proof.
  intros Hsp Hw Hme Hf Hdep Hfind. pose proof (ring_of_ok X Hsp) as HR.
  assert (∀ id r r', id_ok id → responsible (ring_of X) (be_num id) r → responsible (ring_of X) (be_num id) r' → r = r') as Huniq.
  { intros id r r' Hid. apply responsible_unique; [done|by apply be_num_point]. }
  destruct (onDhtGet_serving kj_throws LOCAL fuel (ring_of X) HR depth m w me) as (r & s & r1 & s1 & Hr & Hs & Hr1 & Hs1 & ->).
  { by apply (serving_faulty kj_throws fuel depth (ring_of X) D). }
  destruct Hfind as [(r' & Hr' & s' & Hs' & Hv)|(Hother & Havg & r' & Hr' & s' & Hs' & Hv)].
  - rewrite (Huniq _ _ _ (sha256_ok _) Hr' Hr), Hs in Hs'. injection Hs' as <-. rewrite Hv. apply get_answer_success.
  - rewrite (Huniq _ _ _ (sha256_ok _) Hr' Hr1), Hs1 in Hs'. injection Hs' as <-. rewrite Havg, Hv.
    destruct (getData (key_key m) s) as [v|] eqn:E; [|apply get_answer_success].
    rewrite <- (Hother r v Hr) by (by exists s). apply get_answer_success.
Qed.

End AfterCrash.

(** ** PUT before the crash *)

Section BeforeCrash.
Context `{HashFns} `{!HashOk _} (kj_throws : bool) (method : GetSuccessorMethod) (fuel depth : nat).
Local Abbreviation env := (world_env kj_throws method fuel).
Context (R : Ring) (HR : ring_ok R).
Context (Hfuel : (size (members R) + 2 <= fuel)%nat) (Hdepth : (size (members R) + 2 <= depth)%nat).
Implicit Types (w : World) (rep : Replication) (a r d : addr) (key value : list Z).

(** Stores leave fingers alone, and every key but their own. *)
Definition stores_only (keys : list (list Z)) w w' : Prop :=
  w_statics w' = w_statics w ∧
  ∀ a s', w_nodes w' !! a = Some s' → ∃ s, w_nodes w !! a = Some s ∧
    m_fingerTable s' = m_fingerTable s ∧ ∀ k, k ∉ keys → getData k s' = getData k s.

Lemma stores_only_at w0 w r key value t keys : key ∈ keys → stores_only keys w0 w →
  stores_only keys w0 (store_at r key value t w).
Proof.
  intros Hk [Hst Hn]. split; [done|]. intros a s' Hs'. destruct (decide (r = a)) as [<-|Hne].
  - unfold store_at, w_update in Hs'. cbn in Hs'. rewrite lookup_alter_eq in Hs'.
    destruct (w_nodes w !! r) as [s|] eqn:E; [|done]. injection Hs' as <-. destruct (Hn r s E) as (s0 & Hs0 & Hf & Hd).
    exists s0. split_and!; [done|done|]. intros k Hk'. rewrite <- (Hd k Hk'). unfold getData. cbn.
    by rewrite lookup_insert_ne by (intros ->; done).
  - apply Hn. unfold store_at in Hs'. by rewrite lookup_update_ne in Hs'.
Qed.

Lemma stores_only_apply keys rep stores w0 w : (∀ x, x ∈ stores → rep_store_key rep x.1 ∈ keys) →
  stores_only keys w0 w → stores_only keys w0 (apply_stores rep stores w).
Proof.
  revert w. induction stores as [|x stores IH]; intros w Hin Hw; [done|]. cbn. apply IH; [intros y Hy; apply Hin; by right|].
  apply stores_only_at; [|done]. apply Hin. by left.
Qed.

(** The first copy goes to any member but the first owner, whatever the limit. *)
Lemma replication_first_copy rep me r0 r1 w : ideal R w → me ∈ members R →
  rep_successor rep = Some (nd r0) → 2 <= rep_count rep → r0 ∈ members R →
  responsible R (be_num (sha256 (replica_key (rep_key rep) 1))) r1 → r1 ≠ r0 →
  0 <= getReplicationLimitOnEachNode (w_statics w) <= 255 →
  ∃ counts stores, run_replication (H0 := env depth me) rep w = (Ok counts, apply_stores rep stores w) ∧
    ideal R (apply_stores rep stores w) ∧ (∀ x, x ∈ stores → 1 <= x.1 < rep_count rep) ∧
    ∃ s, w_nodes (apply_stores rep stores w) !! r1 = Some s ∧ getData (rep_store_key rep 1) s = Some (rep_value rep).
Proof.
  intros Hw Hme Hsucc Hcount Hr0 Hr1 Hne Hlim. unfold run_replication. rewrite Hsucc, getId_nd.
  replace (Z.to_nat (rep_count rep - 1)) with (S (Z.to_nat (rep_count rep - 2))) by lia. cbn [replicate_loop]. change (0 + 1) with 1.
  destruct (sv_lookup _ _ _ _ _ _ _ (serving_ideal kj_throws method fuel R HR depth Hfuel Hdepth w me Hw Hme)
    (sha256 (replica_key (rep_key rep) 1))) as (r & Hr & Hget); [apply sha256_ok|].
  assert (r = r1) as -> by (by apply (responsible_unique R HR _ _ _ (be_num_point _ (sha256_ok _)) Hr Hr1)).
  rewrite (bind_Ok _ _ _ _ _ Hget). fold (rep_store_key rep 1). rewrite getId_nd.
  assert (permit {[aid r0 := 1]} (aid r1) (getReplicationLimitOnEachNode (w_statics w)) = true) as Hp.
  { unfold permit. rewrite lookup_singleton_ne; [done|]. intros E. apply Hne. symmetry. apply (aid_inj R HR); [done|apply Hr1|done]. }
  pose proof (ideal_store R r1 (rep_store_key rep 1) (rep_value rep) (rep_ttl rep) w Hw (proj1 Hr1)) as Hw1.
  set (w1 := store_at _ _ _ _ _) in *. set (limit := getReplicationLimitOnEachNode (w_statics w)) in *.
  destruct (replicate_loop_ideal kj_throws method fuel R HR depth Hfuel Hdepth rep (Z.to_nat (rep_count rep - 2)) me limit Hme
    ltac:(lia) 1 (count_copy {[aid r0 := 1]} (aid r1)) w1 Hw1 eq_refl) as (counts & stores & Hrun & Hw2 & [Hrange _ _] & _).
  { apply (counts_ok_copy fuel R depth Hfuel Hdepth); [lia| |done]. intros r. unfold count_of. destruct (decide (aid r0 = aid r)) as [<-|].
    - rewrite lookup_singleton_eq. cbn. lia.
    - rewrite lookup_singleton_ne by done. cbn. lia. }
  exists counts, ((1, r1) :: stores). split_and!; [|exact Hw2| |].
  - erewrite bind_Ok; [exact Hrun|]. rewrite bind_statics. fold limit. rewrite Hp.
    by rewrite (bind_Ok _ _ _ _ _ (peer_setData_ideal kj_throws method fuel R HR depth Hfuel Hdepth w me r1 _ _ _ Hw Hme (proj1 Hr1))).
  - intros x [->|Hx]%elem_of_cons; [cbn; lia|]. specialize (Hrange x Hx). lia.
  - assert (stored R w1 (sha256 (replica_key (rep_key rep) 1)) (rep_store_key rep 1) (rep_value rep)) as Hst.
    { by apply (stored_store_same R HR); [|apply sha256_ok|]. }
    by apply (stored_apply R rep stores w1) in Hst as Hst2; [apply Hst2|].
Qed.

End BeforeCrash.

(** ** PUT, crash, recovery, GET *)

Section Survives.
Context `{HashFns} `{!HashOk _} (kj_throws : bool) (fuel : nat).
Local Abbreviation env := (world_env kj_throws LOCAL fuel).

(** A PUT and its replication leave the item at its owner and the first copy
    where its key leads, when that is another member; the ring stays ideal, no
    finger changes, and no other member gets a value under the key. *)
Lemma put_places R (a r0 r1 : addr) mput w depth : ring_ok R → ideal R w → a ∈ members R →
  responsible R (be_num (sha256 (put_key mput))) r0 →
  responsible R (be_num (sha256 (replica_key (put_key mput) 1))) r1 → r1 ≠ r0 →
  2 <= ext_replication (put_ext mput) → 0 <= getReplicationLimitOnEachNode (w_statics w) <= 255 →
  (size (members R) + 2 <= fuel)%nat → (size (members R) + 2 <= depth)%nat →
  ∃ t w1 counts w2, onDhtPut (H0 := env depth a) mput w = (Ok (m_bytes (put_data mput), Some t), w1) ∧
    run_replication (H0 := env depth a) t w1 = (Ok counts, w2) ∧
    holds w2 r1 (replica_key (put_key mput) 1) (put_value mput) ∧ ideal R w2 ∧
    w_statics w2 = setReplicationIndex (ext_replication (put_ext mput)) (w_statics w) ∧
    ∀ b s', b ≠ r0 → w_nodes w2 !! b = Some s' → ∃ s, w_nodes w !! b = Some s ∧
      m_fingerTable s' = m_fingerTable s ∧ getData (put_key mput) s' = getData (put_key mput) s.
Proof.
  intros HR Hw Ha Hr0 Hr1 Hne Hrep Hlim Hf Hdep.
  destruct (put_item_ideal kj_throws LOCAL fuel R HR depth Hf Hdep false (m_bytes (put_data mput)) (put_key mput)
    (put_value mput) (put_ext mput) w a Hw Ha) as (r & Hr & Hput).
  assert (r = r0) as -> by (by apply (responsible_unique R HR _ _ _ (be_num_point _ (sha256_ok _)) Hr Hr0)).
  rewrite (proj2 (Z.leb_le _ _) Hrep) in Hput. set (t := mkReplication _ _ _ _ _ _) in Hput.
  set (w1 := store_at r0 _ _ _ _) in Hput.
  assert (ideal R w1) as Hw1 by (by apply ideal_store; [|apply Hr0]).
  destruct (replication_first_copy kj_throws LOCAL fuel depth R HR Hf Hdep t a r0 r1 w1)
    as (counts & stores & Hrun & Hw2 & _ & Hcopy); [done|done|done|done|apply Hr0|done|done|done|].
  set (w2 := apply_stores t stores w1) in *. set (keys := rep_store_key t <$> stores.*1).
  assert (stores_only keys w1 w2) as [Hst Honly].
  { apply stores_only_apply; [|split; [done|]; intros b s Hs; by exists s].
    intros x Hx. by apply list_elem_of_fmap_2, list_elem_of_fmap_2. }
  exists t, w1, counts, w2. split_and!; [exact Hput|exact Hrun|exact Hcopy|exact Hw2|by rewrite Hst|].
  intros b s' Hb Hs'. destruct (Honly b s' Hs') as (s & Hs & Hft & Hk). exists s. split_and!; [|done|].
  - unfold w1, store_at in Hs. by rewrite lookup_update_ne in Hs by done.
  - apply Hk. intros (j & E & _)%list_elem_of_fmap. by apply (replica_key_ne fuel R depth Hf Hdep) in E.
Qed.

(** C4: A replicated item is found after the crash of its owner, once the
    survivors' ring has formed again. In an ideal ring of the nodes [D] and [X] a
    value is PUT, at any member, with a replication of at least 2, a limit of
    copies in its 8-bit range, and a first copy that belongs to a member of [X]
    other than the item's owner; the replication runs. Both return. Consider any
    later state in which the nodes of [D] are gone and those of [X] form a ring
    again ([faulty]: they know their neighbours; other fingers may still point
    at nodes of [D], but not between a member and its successor), still have
    the items that they held, look for at least one copy (the average of the
    recorded replications, cut to 8 bits, is at least 1), and the member now
    responsible for the key has no other value under it. There a DHT_GET for
    the key at any member of [X], with the iterative lookup that the program
    selects, answers DHT_SUCCESS with the value. And wherever the copies are, so it
    does for every item whose owner survived. *)
Theorem put_survives_crash (D X : gset addr) (a r0 r1 : addr) mput w depth :
  let R := ring_of (D ∪ X) in
  spread (D ∪ X) → ideal R w → a ∈ members R →
  responsible R (be_num (sha256 (put_key mput))) r0 →
  responsible R (be_num (sha256 (replica_key (put_key mput) 1))) r1 → r1 ≠ r0 → r1 ∈ X →
  2 <= ext_replication (put_ext mput) → 0 <= getReplicationLimitOnEachNode (w_statics w) <= 255 →
  (size X + 3 * size D + 2 <= fuel)%nat → (size X + size D + 2 <= depth)%nat →
  ∃ t w1 counts w2,
    onDhtPut (H0 := env depth a) mput w = (Ok (m_bytes (put_data mput), Some t), w1) ∧
    run_replication (H0 := env depth a) t w1 = (Ok counts, w2) ∧
    ∀ w' m me, faulty (ring_of X) D w' → me ∈ X →
      (∀ r key value, r ∈ X → holds w2 r key value → holds w' r key value) →
      (key_key m = put_key mput → average_ge (w_statics w') 1 = true →
       (∀ r v, responsible (ring_of X) (be_num (sha256 (put_key mput))) r → holds w' r (put_key mput) v →
               v = put_value mput) →
       onDhtGet (H0 := env depth me) m w' = (Ok (found_answer (put_key mput) (put_value mput)), w')) ∧
      ∀ r value, responsible R (be_num (sha256 (key_key m))) r → r ∈ X → holds w2 r (key_key m) value →
        onDhtGet (H0 := env depth me) m w' = (Ok (found_answer (key_key m) value), w').
Proof.
  intros R Hsp Hw Ha Hr0 Hr1 Hne Hx1 Hrep Hlim Hf Hd.
  assert (size (members R) <= size X + size D)%nat as Hsize.
  { cbn. rewrite size_union_alt. pose proof (subseteq_size (X ∖ D) X ltac:(by apply subseteq_difference_l)). lia. }
  destruct (put_places R a r0 r1 mput w depth (ring_of_ok _ Hsp) Hw Ha Hr0 Hr1 Hne Hrep Hlim)
    as (t & w1 & counts & w2 & Hput & Hrun & Hcopy & _); [lia..|].
  exists t, w1, counts, w2. split_and!; [done..|]. intros w' m me Hw' Hme Hkeep.
  assert (∀ value, findable X w' (key_key m) value →
    onDhtGet (H0 := env depth me) m w' = (Ok (found_answer (key_key m) value), w')) as Hget.
  { intros value. by apply (get_findable kj_throws fuel depth X D); [by eapply spread_right|..|lia]. }
  split.
  - intros E Havg Hother. rewrite <- E in Hother, Hr1, Hcopy |- *. apply Hget. right. split_and!; [done..|]. exists r1.
    split; [by eapply responsible_survives|by apply Hkeep].
  - intros r value Hr Hx Hh. apply Hget. left. exists r. split; [by eapply responsible_survives|by apply Hkeep].
Qed.

(** How such a state comes about. The owner [d] of the item crashes, whose
    predecessor [p] had its fingers in order and was less than half the circle
    away; [p] repairs as many fingers as point at [d], the successor checks its
    predecessor, the survivors' stabilisations, checks and (but for [p]) repairs
    interleave in enough fair rounds, and [p] repairs its first finger once
    more. However the survivors' maintenance goes on, their ring has then formed
    again, they have the items that they held, and when each has repaired as many
    fingers as it has, the network is their ideal ring. *)
Theorem owner_crash_recovers X (d c a r1 : addr) mput w s next rounds depth :
  let R := ring_of ({[d]} ∪ X) in
  let p := rpred R d in
  let D := S (S depth) in
  spread ({[d]} ∪ X) → d ∉ X → c ∈ X → ideal R w → a ∈ members R →
  responsible R (be_num (sha256 (put_key mput))) d →
  responsible R (be_num (sha256 (replica_key (put_key mput) 1))) r1 → r1 ≠ d →
  2 <= ext_replication (put_ext mput) → 0 <= getReplicationLimitOnEachNode (w_statics w) <= 255 →
  w_nodes w !! p = Some s → (∀ i, (i < key_bits)%nat → right_finger R p i s) → cw (pos p) (pos d) < 2 ^ 255 →
  (∀ b, (next b < key_bits)%nat) →
  Forall (fair_events X (X ∖ {[p]})) rounds → (size X * (2 * size X) < length rounds)%nat →
  (3 * S (size X) + 2 <= fuel)%nat → (size X + 3 <= D)%nat →
  ∃ t w1 counts w2 w3 net w4,
    onDhtPut (H0 := env D a) mput w = (Ok (m_bytes (put_data mput), Some t), w1) ∧
    run_replication (H0 := env D a) t w1 = (Ok counts, w2) ∧
    (fixFingers_n (env D p) (dead_fingers X d) 0;;
     checkPredecessor (H0 := env D (rsucc R d))) (crash d w2) = (Ok tt, w3) ∧
    net_run kj_throws LOCAL fuel D (concat rounds) (at_rest next w3) = Ok net ∧
    fixFingers (H0 := env D p) 0 (net_world net) = (Ok 1%nat, w4) ∧
    ∀ more, Forall (allowed X X) more → ∃ net',
      net_run kj_throws LOCAL fuel D more (mkNet w4 (net_stage net) (<[p := 1%nat]> (net_next net))) = Ok net' ∧
      ((∀ b, b ∈ X → (key_bits <= repairs b more)%nat) → ideal (ring_of X) (net_world net')) ∧
      faulty (ring_of X) {[d]} (net_world net') ∧
      (∀ r key value, r ∈ X → holds w2 r key value → holds (net_world net') r key value) ∧
      w_statics (net_world net') = setReplicationIndex (ext_replication (put_ext mput)) (w_statics w) ∧
      ∀ r v, r ∈ X → holds (net_world net') r (put_key mput) v → holds w r (put_key mput) v.
Proof.
  intros R p D Hsp Hd Hc Hw Ha Hrd Hr1 Hne Hrep Hlim Hs Hright Hnear Hnext Hrounds Hlen Hf HD.
  assert (size (members R) = S (size X)) as Hsize.
  { cbn. rewrite size_union, size_singleton; [done|]. by apply disjoint_singleton_l. }
  destruct (put_places R a d r1 mput w D (ring_of_ok _ Hsp) Hw Ha Hrd Hr1 Hne Hrep Hlim)
    as (t & w1 & counts & w2 & Hput & Hrun & Hcopy & Hw2 & Hst & Hkeep); [lia..|].
  pose proof (p_survives X d c Hsp Hd Hc) as Hp. fold R p in Hp.
  destruct (Hw2 p (Heal.survivor X d p Hp)) as (s2 & Hs2 & _).
  destruct (Hkeep p s2) as (s' & Hs' & Hft & _); [by intros E; rewrite E in Hp|done|]. rewrite Hs in Hs'. injection Hs' as <-.
  destruct (crash_heals kj_throws LOCAL fuel X d c w2 s2 next rounds depth) as (w3 & net & w4 & Hdrop & Hnet & Hfix & Hhealed);
    try done; [|unfold D in HD; lia|].
  { intros i Hi. destruct (Hright i Hi) as (b & Hb & Hfi). exists b. by rewrite Hft. }
  exists t, w1, counts, w2, w3, net, w4. split_and!; [done..|]. intros more Hmore.
  destruct (healed_run kj_throws X d (crash d w2) _ fuel depth more Hsp Hd Hhealed) as (net' & Hrun' & Hh' & Hideal);
    [done|unfold D in HD; lia|done|]. destruct (healed_faulty X d _ _ Hsp Hd Hh') as [Hfaulty Hsame].
  assert (∀ r, r ∈ X → r ≠ d) as Hxd by (by intros r Hr ->).
  exists net'. split_and!; [done|done|done| | |].
  - intros r key value Hr Hh. apply (holds_same _ _ _ _ _ Hsame), holds_crash; auto.
  - by rewrite (sd_statics _ _ Hsame), <- Hst.
  - intros r v Hr Hh. apply (held_before _ w2 d) in Hh as (s' & Hs' & Hv); [|done|auto].
    destruct (Hkeep r s' (Hxd r Hr) Hs') as (s0 & Hs0 & _ & E). exists s0. by rewrite <- E.
Qed.

End Survives.
