(* ===== verification/Grown.v ===== *)
(** * Grown: data after a join

    A node joins, takes its items over and is worked into the ring by the
    maintenance threads (Settle.v): every item that could be found before is
    found afterwards, at the new node too. The handover in
    src/dht/Dht.cpp (join), src/dht/Peer.cpp (getDataItemsOnJoin) and the API
    handlers together. *)

From S2P Require Import Prelude Util Ring NodeInfo Message Peer Topology Lookup Network Dht PoW Maintenance Growth Linked Interleave Settle Storage Survive.

(** ** Who is responsible after a join *)

Section Responsible.
Context `{HashFns} `{!HashOk _}.
Implicit Types (X : gset addr) (n q r : addr) (w : World).

(** What the new member is responsible for was its successor's. *)
Lemma responsible_previous X n q id : n ∉ X → point id → responsible (ring_of X) (pos n) q →
  responsible (ring_of ({[n]} ∪ X)) id n → responsible (ring_of X) id q.
Proof.
  intros Hn Pid [Hq Hqmin] [_ Hmin]. split; [done|]. intros b Hb. specialize (Hqmin b Hb).
  pose proof (Hmin b (Heal.survivor X n b Hb)). pose proof (Hmin q (Heal.survivor X n q Hq)).
  pose proof (pos_point n). pose proof (pos_point b). pose proof (pos_point q). ring_lia.
Qed.

(** An item of the old ring is stored in the ring with the new member. *)
Lemma stored_handed X n q w w' sq s sq' sn' key value : spread ({[n]} ∪ X) → n ∉ X →
  responsible (ring_of X) (pos n) q →
  w_nodes w !! q = Some sq → w_nodes w' !! q = Some sq' → w_nodes w' !! n = Some sn' →
  handed (responsible (ring_of ({[n]} ∪ X)) (be_num (sha256 key)) n) sq s sq' sn' key →
  handover_frame n q sq sq' w w' →
  stored (ring_of X) w (sha256 key) key value → stored (ring_of ({[n]} ∪ X)) w' (sha256 key) key value.
Proof.
  intros Hsp Hn Hq Hsq Hsq' Hsn' Hkey (_ & _ & Hrest) Hst r Hr. pose proof (be_num_point _ (sha256_ok key)) as Pid.
  destruct (decide (r = n)) as [->|Hrn].
  - destruct (Hst q) as (s0 & Hs0 & Hv); [by eapply responsible_previous|]. rewrite Hsq in Hs0. injection Hs0 as <-.
    exists sn'. split; [done|]. unfold getData, handed in *. destruct (m_data sq !! key) as [[v e]|]; [|done].
    destruct Hkey as [[_ ->] _]; done.
  - assert (r ∈ X) as Hrx by (by destruct Hr as [[?%elem_of_singleton|?]%elem_of_union _]).
    pose proof (responsible_survives {[n]} X _ r Hr Hrx) as Hr0. destruct (Hst r Hr0) as (s0 & Hs0 & Hv).
    destruct (decide (r = q)) as [->|Hrq]; [|exists s0; by rewrite Hrest].
    rewrite Hsq in Hs0. injection Hs0 as <-. exists sq'. split; [done|].
    unfold getData, handed in *. destruct (m_data sq !! key) as [[v e]|]; [|done].
    destruct Hkey as [_ [-> _]]; [|done]. intros Hnr. apply Hrn.
    by apply (responsible_unique _ (ring_of_ok _ Hsp) _ _ _ Pid Hr Hnr).
Qed.

Lemma stored_same R w w' id key value : same_data w w' → stored R w id key value → stored R w' id key value.
Proof. intros Hsame Hst r Hr. by apply (holds_same w w'), Hst. Qed.

(** Stores keep the expiries in the range of the clock, as long as the clock is
    in its first half. *)
Lemma data_ok_store X r key value t w : 0 <= t < 2 ^ 16 → 0 <= w_now w < 2 ^ 62 →
  data_ok X w → data_ok X (store_at r key value t w).
Proof.
  intros Ht Hnow Hok a s k v e Ha Hs Hk. unfold store_at, w_update in Hs. cbn in Hs.
  destruct (decide (r = a)) as [->|Hne]; [|rewrite lookup_alter_ne in Hs by done; by apply (Hok a s k v e)].
  rewrite lookup_alter_eq in Hs. destruct (w_nodes w !! a) as [s0|] eqn:E; [|done]. injection Hs as <-.
  cbn in Hk. apply lookup_insert_Some in Hk as [[_ [= <- <-]]|[_ Hk]]; [|by apply (Hok a s0 k v e)].
  unfold ttl_duration, time_max, ns_per_s in *. repeat case_match; lia.
Qed.

End Responsible.

(** ** Join, maintenance, GET *)

Section Grows.
Context `{HashFns} `{!HashOk _} (kj_throws : bool) (method : GetSuccessorMethod) (fuel : nat).
Local Abbreviation env := (world_env kj_throws method fuel).
Implicit Types (w : World) (X : gset addr) (n b me : addr).

(** In a network that has settled, what is stored is found. *)
Lemma get_settled X w0 depth net more : spread X → ring_net X (λ _ b, b ∈ X) w0 net →
  (3 * size X + 2 <= fuel)%nat → (size X <= depth)%nat → Forall (allowed X X) more →
  ∃ net', net_run kj_throws method fuel (S (S depth)) more net = Ok net' ∧ ideal (ring_of X) (net_world net') ∧
    ∀ m me value, me ∈ X → stored (ring_of X) w0 (sha256 (key_key m)) (key_key m) value →
      onDhtGet (H0 := env (S (S depth)) me) m (net_world net') = (Ok (found_answer (key_key m) value), net_world net').
Proof.
  intros Hsp Hnet Hf Hd Hmore.
  destruct (ring_completes kj_throws method fuel depth X ∅ (λ _ b, b ∈ X) w0 (fingers_ok_members X w0 Hsp) Hsp
    ltac:(rewrite union_empty_r_L; lia) Hd (repairs_right_ideal kj_throws method fuel X w0 depth Hsp ltac:(lia) Hd) more net Hnet Hmore)
    as (net' & Hrun & (m' & (Hw' & _) & _ & HL') & _).
  pose proof (linked_ideal X w0 _ _ Hw' HL') as Hideal. exists net'. split_and!; [done..|].
  intros m me value Hme Hst. apply (get_stored kj_throws method fuel (ring_of X) (ring_of_ok _ Hsp)); [cbn; lia..|done|done|].
  apply (stored_same _ w0); [apply Hw'|done].
Qed.

(** C6: No item is lost by a join. A node joins an ideal ring at any member. If
    KJ carries out the wait inside the continuation, [join] returns; then let all
    nodes, the new one included, run their maintenance concurrently, interleaved
    in any fair order. The network becomes the ideal ring of the old members and
    the new one and stays it however the maintenance goes on, and at any such
    time a DHT_GET, at any member, the new one included, for an item that was in
    its place before the join answers DHT_SUCCESS with the value: the items the
    new node is responsible for have moved to it, the others have not moved. If
    KJ refuses the wait, as it documents, [join] throws, which ends the new
    node's main loop (Lifecycle.v); the old members keep their ideal ring however
    their maintenance goes on, and a DHT_GET at any of them finds every item. *)
Theorem items_survive_join X n b w s refusal pfuel solution depth next rounds :
  let X' := {[n]} ∪ X in
  spread X' → n ∉ X → b ∈ X → ideal (ring_of X) w → data_ok X w →
  w_nodes w !! n = Some s → outside n s →
  solve_puzzle pfuel 0 (host_port n.1 n.2) (getDifficulty (w_statics w)) = Ok solution →
  (∀ a, (next a < key_bits)%nat) →
  Forall (fair_events X' X') rounds → (size X' * (2 * size X') < length rounds)%nat →
  (3 * size X' + 2 <= fuel)%nat → (size X' + 2 <= depth)%nat →
  let members := match refusal with None => X' | Some _ => X end in
  ∃ w1 net, join (H0 := env depth n) (kj_wait refusal) pfuel (nd b) w = (wait_outcome refusal, w1) ∧
    match refusal with
    | None => net_run kj_throws method fuel depth (concat rounds) (at_rest next w1) = Ok net
    | Some _ => net = at_rest next w1
    end ∧
    ∀ more, Forall (allowed members members) more → ∃ net', net_run kj_throws method fuel depth more net = Ok net' ∧
      ideal (ring_of members) (net_world net') ∧
      ∀ m me value, me ∈ members → stored (ring_of X) w (sha256 (key_key m)) (key_key m) value →
        onDhtGet (H0 := env depth me) m (net_world net') = (Ok (found_answer (key_key m) value), net_world net').
Proof.
  intros X' Hsp Hn Hb Hw Hdata Hs Hout Hsol Hnext Hr Hlen Hf Hd.
  assert (size X <= size X')%nat as Hsize by (apply subseteq_size, union_subseteq_r).
  destruct depth as [|[|depth]]; [lia..|]. destruct refusal as [what|]; cbv zeta.
  - destruct (join_refused kj_throws method fuel X n b w s what pfuel solution (S (S depth)))
      as (q & Hq & Hjoin & [Hw1 _]); [done..|lia|lia|]. set (w1 := w_update n _ _) in *.
    exists w1, (at_rest next w1). split_and!; [done..|]. intros more Hmore.
    assert (spread X) as HspX by (by apply (spread_union X n)).
    destruct (get_settled X w1 depth (at_rest next w1) more) as (net' & Hrun & Hideal & Hget);
      [done|by apply (ideal_ring_net X w1 b)|lia|lia|done|].
    exists net'. split_and!; [done..|]. intros m me value Hme Hst. apply Hget; [done|].
    apply (stored_same _ w); [|done]. by do 2 (apply same_data_update; [done|]).
  - destruct (join_handover kj_throws method fuel X n b w s pfuel solution (S (S depth)))
      as (w1 & q & sq & sq' & sn' & Hq & Hjoin & [Hw1 Hjn] & Hsq & Hsq' & Hsn' & Hkey & Hframe); [done..|lia|lia|].
    destruct (joined_network X {[n]} w1 b Hsp) as [[Hnet Hok] Hanc]; [by intros ? ->%elem_of_singleton|done|done| |].
    { intros ? ->%elem_of_singleton. destruct Hjn as (sn & ? & ?). by exists q, sn. }
    destruct (rounds_refine kj_throws method fuel depth X' ∅ (λ _ b, b ∈ X') X' w1 (fingers_ok_members X' w1 Hsp)
      ltac:(rewrite union_empty_r_L; lia) ltac:(lia) rounds w1 (joined_links X) b next)
      as (net & m' & Hrun & Hsim & Hm & HL); [done..|].
    exists w1, net. split_and!; [done..|]. intros more Hmore.
    destruct (get_settled X' w1 depth net more) as (net' & Hrun' & Hideal & Hget); [done|by exists m'|lia|lia|done|].
    exists net'. split_and!; [done..|]. intros m me value Hme Hst. apply Hget; [done|].
    by eapply (stored_handed X n q w w1 sq s sq' sn'); [..|apply Hkey| |].
Qed.

End Grows.
