(* ===== verification/Logging.v ===== *)
(** * Logging: what a log statement delivers, and where

    Models [InitSpdlog] of src/dht-4.cpp and the macros of
    src/logging/centralLogControl.h. spdlog itself is a parameter: the class
    [Spdlog] has its test of a message's level against the level of the logger
    and of a sink, and [SpdlogOk] the documented meaning of that test; what
    opening the log file throws is the argument [log_error]. The queue
    of the asynchronous logger, the flush every five seconds and the layout of a
    line are spdlog's. *)

From S2P Require Import Prelude.

(** ** Levels *)

(** [spdlog::level::level_enum]. *)
Inductive Level := trace | debug | info | warn | err | critical | off.

#[export] Instance Level_eq_dec : EqDecision Level.
Proof. solve_decision. Defined.

Definition all_levels : list Level := [trace; debug; info; warn; err; critical; off].

(** [spdlog::level::n_levels]. *)
Definition n_levels : Z := Z.of_nat (length all_levels).

Definition level_number (l : Level) : Z :=
  match l with trace => 0 | debug => 1 | info => 2 | warn => 3 | err => 4 | critical => 5 | off => 6 end.

(** The cast of an integer to a level; [None] outside the enumeration. *)
Definition level_of (z : Z) : option Level := if 0 <=? z then all_levels !! Z.to_nat z else None.

Lemma level_of_number l : level_of (level_number l) = Some l.
Proof. by destruct l. Qed.

Lemma level_of_Some z l : level_of z = Some l → z = level_number l.
Proof.
  unfold level_of. destruct (Z.leb_spec 0 z); [|done]. intros Hl.
  assert (Z.to_nat z < 7)%nat by (by eapply (lookup_lt_Some all_levels)).
  assert (z = 0 ∨ z = 1 ∨ z = 2 ∨ z = 3 ∨ z = 4 ∨ z = 5 ∨ z = 6) as Hz by lia.
  destruct Hz as [->|[->|[->|[->|[->|[->| ->]]]]]]; by injection Hl as <-.
Qed.

(** The condition of [InitSpdlog] says that the cast is in the enumeration. *)
Lemma level_of_range z : (0 <=? z) && (z <? n_levels) = bool_decide (is_Some (level_of z)).
Proof.
  unfold level_of. destruct (Z.leb_spec 0 z); cbn [andb].
  - destruct (Z.ltb_spec z n_levels) as [Hz|Hz]; symmetry; [apply bool_decide_eq_true|apply bool_decide_eq_false];
      rewrite lookup_lt_is_Some; unfold n_levels in Hz; lia.
  - symmetry. apply bool_decide_eq_false. by intros [? ?].
Qed.

(** ** The logger *)

Inductive Target := Console | File (path : string).

#[export] Instance Target_eq_dec : EqDecision Target.
Proof. solve_decision. Defined.

Record Sink := mkSink { sink_target : Target; sink_level : Level }.

Record Logger := mkLogger { logger_sinks : list Sink; logger_level : Level }.

(** [stdout_sink->set_level(...)]. *)
Definition stdout_level (consoleLogLevel : Z) : Level :=
  if (consoleLogLevel >=? 0) && (consoleLogLevel <? n_levels)
  then default off (level_of consoleLogLevel) else warn.

(** The sinks and the logger; the file sink throws if the file cannot be opened. *)
Definition InitSpdlog (log_error : string → option string) (consoleLogLevel : Z) (logfilePath : string) : outcome Logger :=
  let stdout_sink := mkSink Console (stdout_level consoleLogLevel) in
  match log_error logfilePath with
  | Some what => Exn what
  | None =>
      let basic_file_sink := mkSink (File logfilePath) trace in
      Ok (mkLogger [stdout_sink; basic_file_sink] debug)
  end.

(** ** Log statements *)

(** The place of a statement: [here] is the compiler's name of the function,
    [_func_] the variable of that name, which a lambda captures. *)
Record Site := mkSite { file : string; line : Z; here : string; _func_ : string }.

(** [LOG_GET] and [LOG_SET] at the head of a function. *)
Definition LOG_GET (s : Site) : Site := mkSite (file s) (line s) (here s) (here s).

Definition LOG_SET (name : string) (s : Site) : Site := mkSite (file s) (line s) (here s) name.

(** A statement in a lambda that captured [LOG_CAPTURE]. *)
Definition in_lambda (n : Z) (s : Site) : Site := mkSite (file s) n "operator()" (_func_ s).

Record LogMsg := mkLogMsg { e_file : string; e_line : Z; e_func : string; e_level : Level; e_text : string }.

(** spdlog: does a message of a level pass the logger and the sink? *)
Class Spdlog := { passes : Level → Level → Level → bool }.

Class SpdlogOk `{Spdlog} := {
  passes_spec l s m : passes l s m = true ↔ level_number l <= level_number m ∧ level_number s <= level_number m;
}.

(** [SPDLOG_ACTIVE_LEVEL], below which the macros are [(void)0]. *)
Definition SPDLOG_ACTIVE_LEVEL : Level := trace.

Section Log.
Context `{Spdlog}.

(** [logger->log(source_loc, level, ...)]: what each sink receives. *)
Definition log (g : Logger) (e : LogMsg) : list (Target * LogMsg) :=
  (λ s, (sink_target s, e)) <$> filter (λ s, passes (logger_level g) (sink_level s) (e_level e) = true) (logger_sinks g).

Definition LOG_LOGGER_CALL (g : Logger) (level : Level) (s : Site) (text : string) : list (Target * LogMsg) :=
  log g (mkLogMsg (file s) (line s) (_func_ s) level text).

(** [LOG_TRACE], [LOG_DEBUG], [LOG_INFO], [LOG_WARN], [LOG_ERROR] and
    [LOG_CRITICAL], by their level. *)
Definition LOG (level : Level) (g : Logger) (s : Site) (text : string) : list (Target * LogMsg) :=
  if level_number SPDLOG_ACTIVE_LEVEL <=? level_number level then LOG_LOGGER_CALL g level s text else [].

(** spdlog's own macros, which name the function they are in. *)
Definition SPDLOG (level : Level) (g : Logger) (s : Site) (text : string) : list (Target * LogMsg) :=
  if level_number SPDLOG_ACTIVE_LEVEL <=? level_number level
  then log g (mkLogMsg (file s) (line s) (here s) level text) else [].

(** The level of the console: as asked, but never below debug, which is the
    level of the logger; [warn] if the number is not a level. *)
Definition console_level (z : Z) : Z :=
  match level_of z with Some l => Z.max (level_number l) (level_number debug) | None => level_number warn end.

Lemma console_sink log_error z path g : InitSpdlog log_error z path = Ok g →
  g = mkLogger [mkSink Console (default warn (level_of z)); mkSink (File path) trace] debug.
Proof.
  unfold InitSpdlog. destruct (log_error path); [done|]. intros [= <-]. do 2 f_equal. f_equal.
  unfold stdout_level. rewrite Z.geb_leb, level_of_range.
  case_bool_decide as Hl; [by destruct Hl as [l ->]|]. by apply eq_None_not_Some in Hl as ->.
Qed.

Context `{!SpdlogOk}.

Lemma log_delivers log_error z path g e t e' : InitSpdlog log_error z path = Ok g → (t, e') ∈ log g e ↔ e' = e ∧
  ((t = Console ∧ console_level z <= level_number (e_level e)) ∨
   (t = File path ∧ level_number debug <= level_number (e_level e))).
Proof.
  intros ->%console_sink. unfold log. cbn [logger_sinks logger_level]. rewrite list_elem_of_fmap. unfold console_level. split.
  - intros (s & [= -> ->] & [Hp Hin]%list_elem_of_filter). apply passes_spec in Hp. split; [done|].
    rewrite elem_of_cons, list_elem_of_singleton in Hin. destruct Hin as [->| ->]; cbn [sink_target sink_level] in *.
    + left. split; [done|]. destruct (level_of z) as [l|]; cbn in *; lia.
    + right. split; [done|]. cbn in *. lia.
  - intros (-> & [[-> Hl]|[-> Hl]]).
    + exists (mkSink Console (default warn (level_of z))). split; [done|]. apply list_elem_of_filter.
      rewrite passes_spec. split; [|by left]. cbn in *. destruct (level_of z) as [l|]; cbn in *; lia.
    + exists (mkSink (File path) trace). split; [done|]. apply list_elem_of_filter.
      rewrite passes_spec. split; [|by right; left]. cbn in *. lia.
Qed.

(** What the options [-l] and [-o] do. A message reaches the console exactly if
    its level is at least the console's, which is the level asked for, [warn] if
    the number is no level, but never below debug; it reaches the file given
    with [-o] exactly if it is not a trace message, whatever [-l] says; nothing
    else receives it. In particular [-l 0] shows what [-l 1] shows. *)
Theorem log_options log_error z path g level s text t e : InitSpdlog log_error z path = Ok g →
  (t, e) ∈ LOG level g s text ↔
    e = mkLogMsg (file s) (line s) (_func_ s) level text ∧
    ((t = Console ∧ console_level z <= level_number level) ∨ (t = File path ∧ level ≠ trace)).
Proof.
  intros Hg. unfold LOG, LOG_LOGGER_CALL. rewrite (proj2 (Z.leb_le _ _)) by (destruct level; cbn; lia).
  rewrite (log_delivers _ _ _ _ _ _ _ Hg). cbn [e_level].
  assert (level_number debug <= level_number level ↔ level ≠ trace) as -> by (destruct level; cbn; split; (lia || done)).
  done.
Qed.

(** A statement in a lambda names the function around it if the lambda captured
    its name, where spdlog's own macro says [operator()]. *)
Theorem lambda_keeps_function level g s n text t e :
  (t, e) ∈ LOG level g (in_lambda n (LOG_GET s)) text → e_func e = here s.
Proof.
  unfold LOG. destruct (_ <=? _); [|by intros ?%not_elem_of_nil].
  unfold LOG_LOGGER_CALL, log. rewrite list_elem_of_fmap. by intros (? & [= -> ->] & _).
Qed.

End Log.

#[local] Instance plain_spdlog : Spdlog :=
  {| passes l s m := (level_number l <=? level_number m) && (level_number s <=? level_number m) |}.

#[local] Instance plain_spdlog_ok : SpdlogOk.
Proof. constructor. intros l s m. cbn. rewrite andb_true_iff, !Z.leb_le. done. Qed.

(** With [-l 0] a trace message goes nowhere. *)
Lemma log_options_witness : ∃ g, InitSpdlog (λ _, None) 0 "./log.txt" = Ok g ∧
  LOG trace g (mkSite "Dht.cpp" 73 "mainLoop" "mainLoop") "Started" = [] ∧
  (Console, mkLogMsg "Dht.cpp" 73 "mainLoop" debug "Started")
    ∈ LOG debug g (mkSite "Dht.cpp" 73 "mainLoop" "mainLoop") "Started".
Proof.
  eexists. split; [reflexivity|]. split; [reflexivity|].
  apply (log_options (λ _, None) 0 "./log.txt" _ debug (mkSite "Dht.cpp" 73 "mainLoop" "mainLoop") "Started" Console);
    [reflexivity|]. split; [reflexivity|]. left. split; [reflexivity|]. vm_compute. discriminate.
Defined.
