(* ===== verification/Regex.v ===== *)
(** * Regular expressions

    What the code uses of [std::regex] (ECMAScript syntax): matching a whole
    string, with or without two capture groups around a literal. A regular
    expression is matched by derivatives ([re_match]); [matches] is its
    language, and [re_match_spec] states that the matcher decides it.

    [regex_match2] is [std::regex_match] of an expression of the form
    [open(g1)mid(g2)], where [open] and [mid] are literals: the captures are
    found by trying every length of the first group, the longest first, as the
    greedy quantifiers do. *)

From S2P Require Import Prelude.

Abbreviation chars := (list Ascii.ascii).

Inductive regex :=
| ReNone
| ReEps
| ReChar (p : Ascii.ascii → bool)
| ReCat (r s : regex)
| ReAlt (r s : regex)
| ReStar (r : regex).

Inductive matches : regex → chars → Prop :=
| m_eps : matches ReEps []
| m_char (p : Ascii.ascii → bool) c : p c = true → matches (ReChar p) [c]
| m_cat r s l1 l2 : matches r l1 → matches s l2 → matches (ReCat r s) (l1 ++ l2)
| m_alt_l r s l : matches r l → matches (ReAlt r s) l
| m_alt_r r s l : matches s l → matches (ReAlt r s) l
| m_star_nil r : matches (ReStar r) []
| m_star_cons r l1 l2 : matches r l1 → matches (ReStar r) l2 → matches (ReStar r) (l1 ++ l2).

Fixpoint nullable (r : regex) : bool :=
  match r with
  | ReNone | ReChar _ => false
  | ReEps | ReStar _ => true
  | ReCat r s => nullable r && nullable s
  | ReAlt r s => nullable r || nullable s
  end.

Fixpoint deriv (c : Ascii.ascii) (r : regex) : regex :=
  match r with
  | ReNone | ReEps => ReNone
  | ReChar p => if p c then ReEps else ReNone
  | ReCat r s =>
      if nullable r then ReAlt (ReCat (deriv c r) s) (deriv c s) else ReCat (deriv c r) s
  | ReAlt r s => ReAlt (deriv c r) (deriv c s)
  | ReStar r => ReCat (deriv c r) (ReStar r)
  end.

Fixpoint re_match (r : regex) (l : chars) : bool :=
  match l with
  | [] => nullable r
  | c :: l => re_match (deriv c r) l
  end.

(** ** Derived forms *)

Definition re_lit (c : Ascii.ascii) : regex := ReChar (λ x, bool_decide (x = c)).

Definition re_plus (r : regex) : regex := ReCat r (ReStar r).

Definition re_opt (r : regex) : regex := ReAlt ReEps r.

(** [r{n}]. *)
Fixpoint re_times (n : nat) (r : regex) : regex :=
  match n with O => ReEps | S n => ReCat r (re_times n r) end.

(** [r{0,n}]. *)
Fixpoint re_upto (n : nat) (r : regex) : regex :=
  match n with O => ReEps | S n => re_opt (ReCat r (re_upto n r)) end.

(** [\d]. *)
Definition is_digit (c : Ascii.ascii) : bool :=
  let n := Ascii.nat_of_ascii c in (48 <=? n)%nat && (n <=? 57)%nat.

Definition re_digits : regex := re_plus (ReChar is_digit).

(** ** Two capture groups *)

Fixpoint strip_literal (p l : chars) : option chars :=
  match p, l with
  | [], l => Some l
  | a :: p, b :: l => if decide (a = b) then strip_literal p l else None
  | _ :: _, [] => None
  end.

(** The captures of [(g1)mid(g2)] with a first group of at most [i] characters. *)
Fixpoint split_groups (i : nat) (g1 : regex) (mid : chars) (g2 : regex) (l : chars)
    : option (chars * chars) :=
  match strip_literal mid (drop i l) with
  | Some b =>
      if re_match g1 (take i l) && re_match g2 b then Some (take i l, b)
      else match i with O => None | S i => split_groups i g1 mid g2 l end
  | None => match i with O => None | S i => split_groups i g1 mid g2 l end
  end.

Definition regex_match2 (open : chars) (g1 : regex) (mid : chars) (g2 : regex) (l : chars)
    : option (chars * chars) :=
  match strip_literal open l with
  | Some l => split_groups (length l) g1 mid g2 l
  | None => None
  end.

(** ** The matcher decides the language *)

Lemma nullable_spec r : nullable r = true ↔ matches r [].
Proof.
  split.
  - induction r; cbn; intros H; try done.
    + constructor.
    + apply andb_true_iff in H as [H1 H2]. apply (m_cat r1 r2 [] []); auto.
    + apply orb_true_iff in H as [H|H]; [by apply m_alt_l, IHr1|by apply m_alt_r, IHr2].
    + constructor.
  - intros H. remember [] as l eqn:E. induction H; cbn; try done.
    + apply app_nil in E as [-> ->]. by rewrite IHmatches1, IHmatches2.
    + by rewrite IHmatches.
    + by rewrite IHmatches, orb_true_r.
Qed.

Lemma deriv_sound c r l : matches (deriv c r) l → matches r (c :: l).
Proof.
  revert l. induction r as [| |p|r IHr s IHs|r IHr s IHs|r IHr]; intros l H; cbn in H; try (by inversion H).
  - destruct (p c) eqn:E; inversion H; subst. by constructor.
  - destruct (nullable r) eqn:E.
    + inversion H as [| | |? ? ? H1|? ? ? H1| |]; subst.
      * inversion H1; subst. rewrite app_comm_cons. constructor; auto.
      * apply (m_cat r s [] (c :: l)); [by apply nullable_spec|auto].
    + inversion H; subst. rewrite app_comm_cons. constructor; auto.
  - inversion H; subst; [apply m_alt_l|apply m_alt_r]; auto.
  - inversion H; subst. rewrite app_comm_cons. constructor; auto.
Qed.

Lemma deriv_complete c r l : matches r (c :: l) → matches (deriv c r) l.
Proof.
  intros H. remember (c :: l) as l' eqn:E. revert c l E.
  induction H as [|p x Hp|r s l1 l2 H1 IH1 H2 IH2|r s l1 H1 IH1|r s l1 H1 IH1| |r l1 l2 H1 IH1 H2 IH2];
    intros c l E; cbn [deriv].
  - done.
  - injection E as -> <-. rewrite Hp. constructor.
  - destruct l1 as [|c1 l1]; cbn in E.
    + subst l2. rewrite (proj2 (nullable_spec r) H1). apply m_alt_r. by apply IH2.
    + injection E as -> <-. specialize (IH1 c l1 eq_refl).
      destruct (nullable r); [apply m_alt_l|]; by constructor.
  - apply m_alt_l. by apply IH1.
  - apply m_alt_r. by apply IH1.
  - done.
  - destruct l1 as [|c1 l1]; cbn in E; [by apply IH2|].
    injection E as -> <-. constructor; [by apply IH1|done].
Qed.

Lemma re_match_spec r l : re_match r l = true ↔ matches r l.
Proof.
  revert r. induction l as [|c l IH]; intros r; cbn; [apply nullable_spec|].
  rewrite IH. split; [apply deriv_sound|apply deriv_complete].
Qed.

(** ** Languages of the derived forms *)

Lemma matches_char p l : matches (ReChar p) l ↔ ∃ c, l = [c] ∧ p c = true.
Proof.
  split; [intros H; inversion H; subst; eauto|]. intros (c & -> & Hp). by constructor.
Qed.

Lemma matches_lit c l : matches (re_lit c) l ↔ l = [c].
Proof.
  unfold re_lit. rewrite matches_char. split.
  - intros (x & -> & Hx%bool_decide_eq_true). by subst.
  - intros ->. exists c. split; [done|]. by apply bool_decide_eq_true.
Qed.

Lemma matches_cat r s l : matches (ReCat r s) l ↔ ∃ l1 l2, l = l1 ++ l2 ∧ matches r l1 ∧ matches s l2.
Proof.
  split; [intros H; inversion H; subst; eauto 6|]. intros (l1 & l2 & -> & H1 & H2). by constructor.
Qed.

Lemma matches_alt r s l : matches (ReAlt r s) l ↔ matches r l ∨ matches s l.
Proof.
  split; [intros H; inversion H; subst; auto|]. intros [H|H]; [by apply m_alt_l|by apply m_alt_r].
Qed.

Lemma matches_eps l : matches ReEps l ↔ l = [].
Proof. split; [by inversion 1|]. intros ->. constructor. Qed.

(** A star of a character class is any sequence of its characters. *)
Lemma matches_star_char p l : matches (ReStar (ReChar p)) l ↔ Forall (λ c, p c = true) l.
Proof.
  split.
  - intros H. remember (ReStar (ReChar p)) as r eqn:E. induction H; try discriminate; [constructor|].
    injection E as ->. match goal with H : matches (ReChar _) _ |- _ => apply matches_char in H as (c & -> & Hc) end.
    constructor; auto.
  - induction 1 as [|c l Hc Hl IH]; [constructor|]. apply (m_star_cons _ [c] l); [by constructor|done].
Qed.

Lemma matches_plus_char p l : matches (re_plus (ReChar p)) l ↔ l ≠ [] ∧ Forall (λ c, p c = true) l.
Proof.
  unfold re_plus. rewrite matches_cat. split.
  - intros (l1 & l2 & -> & (c & -> & Hc)%matches_char & H2%matches_star_char).
    split; [done|]. by constructor.
  - intros [Hn Hl]. destruct Hl as [|c l Hc Hl]; [done|]. exists [c], l.
    split_and!; [done|by constructor|by apply matches_star_char].
Qed.

Lemma matches_upto_char n p l :
  matches (re_upto n (ReChar p)) l ↔ (length l ≤ n)%nat ∧ Forall (λ c, p c = true) l.
Proof.
  revert l. induction n as [|n IH]; intros l; cbn [re_upto].
  { rewrite matches_eps. split; [by intros ->|]. intros [Hl _]. by destruct l; cbn in Hl; [|lia]. }
  unfold re_opt. rewrite matches_alt, matches_eps, matches_cat. split.
  - intros [->|(l1 & l2 & -> & (c & -> & Hc)%matches_char & [Hl H2]%IH)]; [split; [cbn; lia|constructor]|].
    cbn. split; [lia|by constructor].
  - intros [Hl H]. destruct H as [|c l Hc H]; [by left|]. right. exists [c], l.
    split_and!; [done|by constructor|]. apply IH. cbn in Hl. split; [lia|done].
Qed.

(** ** Captures *)

Lemma strip_literal_spec p l b : strip_literal p l = Some b ↔ l = p ++ b.
Proof.
  revert l. induction p as [|a p IH]; intros l; cbn [strip_literal app].
  { split; [by injection 1 as ->|by intros ->]. }
  destruct l as [|x l]; [done|]. destruct (decide (a = x)) as [->|Hne].
  - rewrite IH. split; [by intros ->|by injection 1].
  - split; [done|]. by injection 1 as <-.
Qed.

Lemma split_groups_step i g1 mid g2 l a b :
  split_groups i g1 mid g2 l = Some (a, b) →
  (a = take i l ∧ strip_literal mid (drop i l) = Some b ∧ re_match g1 a = true ∧ re_match g2 b = true) ∨
  (∃ j, i = S j ∧ split_groups j g1 mid g2 l = Some (a, b)).
Proof.
  intros H. destruct i as [|j]; cbn [split_groups] in H.
  all: destruct (strip_literal _ _) as [b'|] eqn:E; [|by eauto].
  all: destruct (re_match g1 _ && re_match g2 b') eqn:Em; [|by eauto].
  all: left; injection H as <- <-; by apply andb_true_iff in Em as [H1 H2].
Qed.

Lemma split_groups_sound i g1 mid g2 l a b :
  split_groups i g1 mid g2 l = Some (a, b) → l = a ++ mid ++ b ∧ matches g1 a ∧ matches g2 b.
Proof.
  revert a b. induction i as [|i IH]; intros a b H; apply split_groups_step in H as [H|(j & Hj & H)].
  2: done.
  3: injection Hj as <-; by apply IH.
  all: destruct H as (-> & E%strip_literal_spec & H1%re_match_spec & H2%re_match_spec).
  all: by rewrite <- E, take_drop.
Qed.

Lemma split_groups_complete i g1 mid g2 a b :
  matches g1 a → matches g2 b → (length a ≤ i)%nat →
  is_Some (split_groups i g1 mid g2 (a ++ mid ++ b)).
Proof.
  intros H1%re_match_spec H2%re_match_spec Hi.
  assert (∀ i, i = length a → is_Some (split_groups i g1 mid g2 (a ++ mid ++ b))) as Hat.
  { intros j ->. destruct a as [|c a].
    - cbn. rewrite drop_0, take_0. by rewrite (proj2 (strip_literal_spec mid (mid ++ b) b) eq_refl), H1, H2.
    - cbn [length split_groups]. change (S (length a)) with (length (c :: a)).
      rewrite drop_app_length, take_app_length.
      by rewrite (proj2 (strip_literal_spec mid (mid ++ b) b) eq_refl), H1, H2. }
  induction i as [|i IH]; [apply Hat; lia|].
  destruct (decide (S i = length a)) as [E|Hne]; [by apply Hat|]. cbn [split_groups].
  destruct (strip_literal mid _) as [b'|]; [|apply IH; lia].
  destruct (_ && _); [done|apply IH; lia].
Qed.

(** The captures of a string that has exactly one reading. *)
Lemma regex_match2_unique open g1 mid g2 a b :
  matches g1 a → matches g2 b →
  (∀ a' b', a ++ mid ++ b = a' ++ mid ++ b' → matches g1 a' → matches g2 b' → a' = a ∧ b' = b) →
  regex_match2 open g1 mid g2 (open ++ a ++ mid ++ b) = Some (a, b).
Proof.
  intros H1 H2 Hu. unfold regex_match2.
  rewrite (proj2 (strip_literal_spec open (open ++ a ++ mid ++ b) _) eq_refl).
  destruct (split_groups_complete (length (a ++ mid ++ b)) g1 mid g2 a b H1 H2) as [[a' b'] E].
  { rewrite length_app. lia. }
  rewrite E. apply split_groups_sound in E as (E & Ha & Hb). by destruct (Hu a' b' E Ha Hb) as [-> ->].
Qed.

Lemma regex_match2_sound open g1 mid g2 l a b :
  regex_match2 open g1 mid g2 l = Some (a, b) →
  l = open ++ a ++ mid ++ b ∧ matches g1 a ∧ matches g2 b.
Proof.
  unfold regex_match2. destruct (strip_literal open l) as [l'|] eqn:E; [|done].
  apply strip_literal_spec in E. intros (-> & H1 & H2)%split_groups_sound. done.
Qed.

(** A final run of digits after a literal that ends in another character is
    unambiguous. *)
Lemma digits_suffix_unique (a a' b b' : chars) c :
  is_digit c = false → Forall (λ x, is_digit x = true) b → Forall (λ x, is_digit x = true) b' →
  a ++ c :: b = a' ++ c :: b' → a = a' ∧ b = b'.
Proof.
  intros Hc Hb Hb' E. revert a' E. induction a as [|x a IH]; intros [|y a'] E; cbn in E.
  - by injection E as ->.
  - exfalso. injection E as -> ->. rewrite Forall_app, Forall_cons in Hb. destruct Hb as (_ & Hd & _).
    by rewrite Hd in Hc.
  - exfalso. injection E as -> <-. rewrite Forall_app, Forall_cons in Hb'. destruct Hb' as (_ & Hd & _).
    by rewrite Hd in Hc.
  - injection E as -> E. by destruct (IH a' E) as [-> ->].
Qed.
