(* ===== verification/Config.v ===== *)
(** * Configuration

    Models src/config/config.h, src/config/config.cpp and the part of
    src/dht-4.cpp that combines the configuration file with the command line.

    - [splitIP] reads an address with a port by two regular expressions.
    - The INI library (inipp) is the parameter [Ini]: what [get_value] extracts
      for a section and a key, as a string, a truth value or a number.
    - The option parser (cxxopts) is the record [Args] of what it delivers. *)

From S2P Require Import Prelude NodeInfo Regex.

Definition to_chars (s : string) : chars := String.list_ascii_of_string s.

Definition of_chars (l : chars) : string := String.string_of_list_ascii l.

(** The value of a run of decimal digits. *)
Definition digit_value (c : Ascii.ascii) : Z := byte_of_ascii c - 48.

Definition digits_value (l : chars) : Z := fold_left (λ acc c, acc * 10 + digit_value c) l 0.

(** ** splitIP *)

Definition re_octet : regex := ReCat (ReChar is_digit) (re_upto 2 (ReChar is_digit)).

(** The address group of the IPv4 expression: one to three digits, and three
    times a dot and one to three digits. *)
Definition re_ipv4 : regex := ReCat re_octet (re_times 3 (ReCat (re_lit "."%char) re_octet)).

Definition is_xdigit (c : Ascii.ascii) : bool :=
  let n := Ascii.nat_of_ascii c in
  is_digit c || ((97 <=? n)%nat && (n <=? 102)%nat) || ((65 <=? n)%nat && (n <=? 70)%nat).

(** The address group of the IPv6 expression: runs of hexadecimal digits
    separated by colons. *)
Definition re_ipv6 : regex :=
  let hexes := ReStar (ReChar is_xdigit) in
  ReCat hexes (ReStar (ReCat (re_lit ":"%char) hexes)).

(** [std::stoul] on digits; [unsigned long] has 64 bits. *)
Definition stoul (l : chars) : outcome Z :=
  if digits_value l <? 2 ^ 64 then Ok (digits_value l) else Exn "stoul".

(** [splitIP(value, address, port)]: the result and the two reference
    parameters afterwards. *)
Definition splitIP (value address : string) (port : Z) : bool * string * Z :=
  if decide (value = "") then (false, address, port)
  else
    let v := to_chars value in
    let groups :=
      match regex_match2 [] re_ipv4 [":"%char] re_digits v with
      | Some g => Some g
      | None => regex_match2 ["["%char] re_ipv6 ["]"%char; ":"%char] re_digits v
      end in
    match groups with
    | Some (a, p) =>
        match stoul p with
        | Ok n => (true, of_chars a, u16 n)
        | _ => (false, address, port)
        end
    | None => (false, address, port)
    end.

(** ** Configuration *)

Record Configuration := mkConfiguration {
  private_key_path : string;
  private_key_password : option string;
  certificate_path : string;
  use_tls : bool;
  p2p_address : string;
  p2p_port : Z;
  api_address : string;
  api_port : Z;
  bootstrapNode_address : string;
  bootstrapNode_port : Z;
  node_amount : Z;
  startup_script : option string;
}.

Definition default_Configuration : Configuration :=
  mkConfiguration "./hostkey.pem" None "./hostcert.crt" false "127.0.0.1" 6002 "127.0.0.1" 7002
    "127.0.0.1" 6002 1 None.

(** The values a parsed configuration file holds, by section and key. *)
Record Ini := mkIni {
  get_string : string → string → option string;
  get_bool : string → string → option bool;
  get_uint64 : string → string → option Z;
}.

(** An address and a port, replaced if the key is present and well-formed. *)
Definition read_address (value : option string) (address : string) (port : Z) : string * Z :=
  match value with
  | Some v => let r := splitIP v address port in (r.1.2, r.2)
  | None => (address, port)
  end.

Definition parseConfigFile (ini : Ini) : Configuration :=
  let c := default_Configuration in
  let p2p := read_address (get_string ini "dht" "p2p_address") (p2p_address c) (p2p_port c) in
  let api := read_address (get_string ini "dht" "api_address") (api_address c) (api_port c) in
  let boot := read_address (get_string ini "dht" "bootstrapNode_address")
                (bootstrapNode_address c) (bootstrapNode_port c) in
  mkConfiguration
    (default (private_key_path c) (get_string ini "DEFAULT" "hostkey"))
    (private_key_password c)
    (default (certificate_path c) (get_string ini "dht" "certificate"))
    (default (use_tls c) (get_bool ini "dht" "use_tls"))
    p2p.1 p2p.2 api.1 api.2 boot.1 boot.2
    (default (node_amount c) (get_uint64 ini "dht" "node_amount"))
    (match get_string ini "dht" "startup_script" with
     | Some s => Some s
     | None => startup_script c
     end).

(** ** The command line *)

(** What the command line gives; an option that is absent is [None]. The
    configuration path has a default, so it is always there. *)
Record Args := mkArgs {
  arg_config : string;
  arg_hostkey : option string;
  arg_password : option string;
  arg_certificate : option string;
  arg_node_amount : option Z;
  arg_startupScript : option string;
  arg_POWdifficulty : option Z;
  arg_replicationLimit : option Z;
}.

(** The statics of [config::Configuration]. *)
Record ConfigStatics := mkConfigStatics { PoW_Difficulty : Z; defaultReplicationLimit : Z }.

Definition default_ConfigStatics : ConfigStatics :=
  mkConfigStatics DEFAULT_DIFFICULTY DEFAULT_REPLICATION_LIMIT.

(** [main] up to the construction of the shell. *)
Definition main_config (load : string → Ini) (a : Args) : Configuration * ConfigStatics :=
  let c := parseConfigFile (load (arg_config a)) in
  (mkConfiguration
     (default (private_key_path c) (arg_hostkey a))
     (match arg_password a with Some p => Some p | None => private_key_password c end)
     (default (certificate_path c) (arg_certificate a))
     (use_tls c) (p2p_address c) (p2p_port c) (api_address c) (api_port c)
     (bootstrapNode_address c) (bootstrapNode_port c)
     (default (node_amount c) (arg_node_amount a))
     (match startup_script c with Some s => Some s | None => arg_startupScript a end),
   mkConfigStatics
     (default (PoW_Difficulty default_ConfigStatics) (arg_POWdifficulty a))
     (default (defaultReplicationLimit default_ConfigStatics) (arg_replicationLimit a))).

(** ** Numbers and their digits *)

Lemma of_to_chars s : of_chars (to_chars s) = s.
Proof. apply String.string_of_list_ascii_of_string. Qed.

Lemma to_of_chars l : to_chars (of_chars l) = l.
Proof. apply String.list_ascii_of_string_of_list_ascii. Qed.

Lemma to_chars_app s t : to_chars (s +:+ t) = to_chars s ++ to_chars t.
Proof. apply list_ascii_app. Qed.

Lemma digits_value_app l c : digits_value (l ++ [c]) = digits_value l * 10 + digit_value c.
Proof. unfold digits_value. by rewrite fold_left_app. Qed.

Lemma digit_char x : (x < 10)%N →
  is_digit (pretty_N_char x) = true ∧ digit_value (pretty_N_char x) = Z.of_N x.
Proof.
  intros Hx. assert (x = 0 ∨ x = 1 ∨ x = 2 ∨ x = 3 ∨ x = 4 ∨ x = 5 ∨ x = 6 ∨ x = 7 ∨ x = 8 ∨ x = 9)%N as Hc by lia.
  repeat destruct Hc as [->|Hc]; try (by split); by subst.
Qed.

(** The digits [to_string] prints, before the text they are put in front of. *)
Lemma pretty_go_digits x s : ∃ ds,
  to_chars (pretty_N_go x s) = ds ++ to_chars s ∧
  Forall (λ c, is_digit c = true) ds ∧ digits_value ds = Z.of_N x ∧ ((0 < x)%N → ds ≠ []).
Proof.
  revert s. induction (N.lt_wf_0 x) as [x _ IH]; intros s.
  destruct (decide (0 < x)%N) as [Hx|Hx].
  2:{ assert (x = 0)%N as -> by lia. exists []. by rewrite pretty_N_go_0. }
  rewrite pretty_N_go_step by done. destruct (digit_char (x `mod` 10)) as [Hd Hv]; [by apply N.mod_lt|].
  destruct (IH (x `div` 10)%N (N.div_lt x 10 Hx eq_refl) (String (pretty_N_char (x `mod` 10)) s))
    as (ds & E & Hds & Hval & _).
  exists (ds ++ [pretty_N_char (x `mod` 10)]). split_and!.
  - by rewrite E, <- app_assoc.
  - rewrite Forall_app. split; [done|]. by repeat constructor.
  - rewrite digits_value_app, Hval, Hv. pose proof (N.div_mod x 10). lia.
  - intros _ [_ ?]%app_nil. done.
Qed.

Lemma to_string_digits z : 0 <= z →
  to_chars (to_string z) ≠ [] ∧ Forall (λ c, is_digit c = true) (to_chars (to_string z)) ∧
  digits_value (to_chars (to_string z)) = z.
Proof.
  intros Hz. destruct z as [|p|p]; [by repeat split; repeat constructor| |lia].
  destruct (pretty_go_digits (Npos p) "") as (ds & E & Hds & Hval & Hn).
  change (to_string (Zpos p)) with (pretty_N_go (Npos p) ""). rewrite E. cbn [to_chars]. rewrite app_nil_r.
  split_and!; [by apply Hn|done|done].
Qed.

(** ** The addresses that are accepted *)

Definition digit_run (l : chars) : Prop := l ≠ [] ∧ Forall (λ c, is_digit c = true) l.

(** One to three digits. *)
Definition octet (l : chars) : Prop := digit_run l ∧ (length l ≤ 3)%nat.

Definition dotted_quad (l : chars) : Prop := ∃ a b c d,
  l = a ++ "."%char :: b ++ "."%char :: c ++ "."%char :: d ∧ octet a ∧ octet b ∧ octet c ∧ octet d.

(** An address with a port, as text. *)
Definition address_form (value addr port : chars) : Prop :=
  digit_run port ∧
  (value = addr ++ ":"%char :: port ∧ dotted_quad addr ∨
   value = "["%char :: addr ++ "]"%char :: ":"%char :: port ∧ Forall (λ c, is_xdigit c || bool_decide (c = ":"%char) = true) addr).

Lemma matches_digits l : matches re_digits l ↔ digit_run l.
Proof. apply matches_plus_char. Qed.

Lemma matches_octet l : matches re_octet l ↔ octet l.
Proof.
  unfold re_octet, octet, digit_run. rewrite matches_cat. split.
  - intros (l1 & l2 & -> & (c & -> & Hc)%matches_char & [Hl H2]%matches_upto_char).
    cbn. split_and!; [done|by constructor|lia].
  - intros [[Hn Hd] Hl]. destruct Hd as [|c l Hc Hd]; [done|]. exists [c], l.
    split_and!; [done|by constructor|]. apply matches_upto_char. cbn in Hl. split; [lia|done].
Qed.

Lemma matches_dot_octet l : matches (ReCat (re_lit "."%char) re_octet) l ↔ ∃ a, l = "."%char :: a ∧ octet a.
Proof.
  rewrite matches_cat. split.
  - intros (l1 & l2 & -> & ->%matches_lit & H2%matches_octet). by exists l2.
  - intros (a & -> & Ha). exists ["."%char], a. split_and!; [done|by apply matches_lit|by apply matches_octet].
Qed.

Lemma matches_ipv4 l : matches re_ipv4 l ↔ dotted_quad l.
Proof.
  unfold re_ipv4, dotted_quad. cbn [re_times]. setoid_rewrite matches_cat at 1.
  setoid_rewrite matches_octet at 1. setoid_rewrite matches_cat at 1. setoid_rewrite matches_dot_octet at 1.
  setoid_rewrite matches_cat at 1. setoid_rewrite matches_dot_octet at 1.
  setoid_rewrite matches_cat at 1. setoid_rewrite matches_dot_octet at 1. setoid_rewrite matches_eps.
  split.
  - intros (a & ? & -> & Ha & ? & ? & -> & (b & -> & Hb) & ? & ? & -> & (c & -> & Hc) & ? & ? & -> & (d & -> & Hd) & ->).
    exists a, b, c, d. rewrite app_nil_r. done.
  - intros (a & b & c & d & -> & Ha & Hb & Hc & Hd).
    eexists a, _. split_and!; [done|done|]. eexists _, _. split_and!; [|eexists; split; [done|exact Hb]|].
    { by rewrite app_comm_cons. }
    eexists _, _. split_and!; [|eexists; split; [done|exact Hc]|]. { by rewrite app_comm_cons. }
    eexists _, _. split_and!; [|eexists; split; [done|exact Hd]|done]. by rewrite app_nil_r.
Qed.

Lemma matches_ipv6 l :
  matches re_ipv6 l ↔ Forall (λ c, is_xdigit c || bool_decide (c = ":"%char) = true) l.
Proof.
  unfold re_ipv6. set (hexes := ReStar (ReChar is_xdigit)).
  assert (∀ l, matches hexes l → Forall (λ c, is_xdigit c || bool_decide (c = ":"%char) = true) l) as Hhex.
  { intros k Hk%matches_star_char. eapply Forall_impl; [exact Hk|]. cbn. by intros c ->. }
  rewrite matches_cat. split.
  - intros (l1 & l2 & -> & H1 & H2). apply Forall_app. split; [by apply Hhex|]. clear H1 l1.
    remember (ReStar (ReCat (re_lit ":"%char) hexes)) as r eqn:E.
    induction H2 as [| | | | | |r l1 l2 H1 _ H2 IH]; try discriminate; [constructor|].
    injection E as ->. apply Forall_app. split; [|by apply IH].
    apply matches_cat in H1 as (x & y & -> & ->%matches_lit & Hy). constructor; [done|by apply Hhex].
  - induction 1 as [|c l Hc Hl IH]; [exists [], []; split_and!; [done|constructor|constructor]|].
    destruct IH as (l1 & l2 & -> & H1 & H2). destruct (is_xdigit c) eqn:Ec.
    + exists (c :: l1), l2. split_and!; [done| |done].
      apply matches_star_char. constructor; [done|by apply matches_star_char].
    + cbn in Hc. apply bool_decide_eq_true in Hc as ->. exists [], (":"%char :: l1 ++ l2).
      split_and!; [done|constructor|]. rewrite app_comm_cons. constructor; [|done].
      by apply (m_cat _ _ [":"%char] l1); [apply matches_lit|].
Qed.

(** ** splitIP *)

Lemma ipv4_match a p : dotted_quad a → digit_run p →
  regex_match2 [] re_ipv4 [":"%char] re_digits (a ++ ":"%char :: p) = Some (a, p).
Proof.
  intros Ha Hp. apply (regex_match2_unique [] re_ipv4 [":"%char] re_digits a p).
  - by apply matches_ipv4.
  - by apply matches_digits.
  - intros a' p' E _ [_ Hp']%matches_digits. destruct Hp as [_ Hp].
    destruct (digits_suffix_unique a a' p p' ":"%char eq_refl Hp Hp' E) as [-> ->]. done.
Qed.

Lemma ipv6_match a p : Forall (λ c, is_xdigit c || bool_decide (c = ":"%char) = true) a → digit_run p →
  regex_match2 ["["%char] re_ipv6 ["]"%char; ":"%char] re_digits ("["%char :: a ++ "]"%char :: ":"%char :: p)
  = Some (a, p).
Proof.
  intros Ha Hp. apply (regex_match2_unique ["["%char] re_ipv6 ["]"%char; ":"%char] re_digits a p).
  - by apply matches_ipv6.
  - by apply matches_digits.
  - intros a' p' E _ [_ Hp']%matches_digits. destruct Hp as [_ Hp].
    change (a ++ ["]"%char; ":"%char] ++ p) with (a ++ ["]"%char] ++ ":"%char :: p) in E.
    change (a' ++ ["]"%char; ":"%char] ++ p') with (a' ++ ["]"%char] ++ ":"%char :: p') in E.
    rewrite !app_assoc in E.
    destruct (digits_suffix_unique _ _ p p' ":"%char eq_refl Hp Hp' E) as [Ea ->].
    by apply app_inj_tail in Ea as [-> _].
Qed.

Lemma quad_no_bracket a p q : dotted_quad a → a ++ p ≠ "["%char :: q.
Proof.
  intros (b & c & d & e & -> & [[Hn Hb] _] & _) E. destruct Hb as [|x b Hx Hb]; [done|].
  cbn in E. injection E as -> _. done.
Qed.

(** The groups found are those of the text's form. *)
Lemma groups_form v a p : address_form v a p →
  match regex_match2 [] re_ipv4 [":"%char] re_digits v with
  | Some g => Some g
  | None => regex_match2 ["["%char] re_ipv6 ["]"%char; ":"%char] re_digits v
  end = Some (a, p).
Proof.
  intros [Hp [[-> Ha]|[-> Ha]]]; [by rewrite ipv4_match|].
  destruct (regex_match2 [] re_ipv4 _ _ _) as [[x y]|] eqn:E; [|by apply ipv6_match].
  apply regex_match2_sound in E as (E & Hx%matches_ipv4 & _).
  symmetry in E. by destruct (quad_no_bracket x _ _ Hx E).
Qed.

Lemma form_of_groups v a p :
  match regex_match2 [] re_ipv4 [":"%char] re_digits v with
  | Some g => Some g
  | None => regex_match2 ["["%char] re_ipv6 ["]"%char; ":"%char] re_digits v
  end = Some (a, p) → address_form v a p.
Proof.
  destruct (regex_match2 [] re_ipv4 _ _ _) as [[x y]|] eqn:E.
  - injection 1 as -> ->. apply regex_match2_sound in E as (-> & Ha%matches_ipv4 & Hp%matches_digits).
    split; [done|by left].
  - intros (-> & Ha%matches_ipv6 & Hp%matches_digits)%regex_match2_sound. split; [done|by right].
Qed.

Lemma address_form_nonempty value a p : address_form (to_chars value) a p → value ≠ "".
Proof.
  intros [_ H] ->. cbn in H. destruct H as [[E (b & c & d & e & -> & _)]|[E _]]; [|done].
  destruct b; done.
Qed.

Lemma splitIP_accepts value address port a p :
  address_form (to_chars value) a p → digits_value p < 2 ^ 64 →
  splitIP value address port = (true, of_chars a, u16 (digits_value p)).
Proof.
  intros Hf Hp. unfold splitIP, stoul.
  destruct (decide (value = "")) as [E|_]; [by eapply address_form_nonempty in Hf|].
  rewrite (groups_form _ a p Hf). by destruct (Z.ltb_spec (digits_value p) (2 ^ 64)); [|lia].
Qed.

Lemma splitIP_refuses value address port :
  (∀ a p, address_form (to_chars value) a p → 2 ^ 64 <= digits_value p) →
  splitIP value address port = (false, address, port).
Proof.
  intros Hno. unfold splitIP, stoul. destruct (decide (value = "")) as [E|_]; [done|].
  destruct (match regex_match2 [] re_ipv4 _ _ _ with Some g => _ | None => _ end) as [[a p]|] eqn:E; [|done].
  apply form_of_groups, Hno in E. by destruct (Z.ltb_spec (digits_value p) (2 ^ 64)); [lia|].
Qed.

(** C34: [splitIP] accepts exactly the texts [a.b.c.d:port] (one to three digits
    per group) and [[hex:hex:...]:port] whose port, as a number, fits 64 bits.
    The address is the text before the port; the port is that number modulo
    2^16. Everything else is refused and leaves both parameters alone. *)
Theorem splitIP_spec value address port :
  (∀ a p, address_form (to_chars value) a p → digits_value p < 2 ^ 64 →
     splitIP value address port = (true, of_chars a, u16 (digits_value p))) ∧
  ((∀ a p, address_form (to_chars value) a p → 2 ^ 64 <= digits_value p) →
     splitIP value address port = (false, address, port)).
Proof. split; [apply splitIP_accepts|apply splitIP_refuses]. Qed.

Lemma digit_run_check (l : chars) : negb (bool_decide (l = [])) && forallb is_digit l = true → digit_run l.
Proof.
  intros [Hn Hd]%andb_true_iff. split; [by apply negb_true_iff, bool_decide_eq_false in Hn|].
  apply Forall_forall. intros c Hc%list_elem_of_In. by eapply forallb_forall in Hd.
Qed.

Lemma octet_digits (l : chars) :
  (length l ≤ 3)%nat → negb (bool_decide (l = [])) && forallb is_digit l = true → octet l.
Proof. split; [by apply digit_run_check|done]. Qed.

Lemma localhost_quad : dotted_quad (to_chars "127.0.0.1").
Proof.
  exists (to_chars "127"), ["0"%char], ["0"%char], ["1"%char].
  split_and!; [done|apply octet_digits; cbn; [lia|done]..].
Qed.

Lemma splitIP_spec_witness : splitIP "127.0.0.1:70000" "::1" 5 = (true, "127.0.0.1", 4464).
Proof.
  refine (proj1 (splitIP_spec "127.0.0.1:70000" "::1" 5) (to_chars "127.0.0.1") (to_chars "70000") _ _); [|done].
  split; [|left; split; [done|apply localhost_quad]].
  apply digit_run_check. done.
Defined.

(** An address and a port printed the way the code prints them, [ip:port],
    is read back by [splitIP], for every dotted address and 16-bit port. *)
Theorem splitIP_host_port ip port address port0 :
  dotted_quad (to_chars ip) → 0 <= port < 2 ^ 16 →
  splitIP (host_port ip port) address port0 = (true, ip, port).
Proof.
  intros Hip Hport. destruct (to_string_digits port) as (Hn & Hd & Hv); [lia|].
  rewrite (splitIP_accepts _ _ _ (to_chars ip) (to_chars (to_string port))).
  - unfold u16. by rewrite of_to_chars, Hv, (wrap_small 16 port Hport).
  - unfold host_port. rewrite !to_chars_app. split; [done|]. by left.
  - lia.
Qed.

Lemma splitIP_host_port_witness : splitIP (host_port "127.0.0.1" 6002) "" 0 = (true, "127.0.0.1", 6002).
Proof. apply splitIP_host_port; [apply localhost_quad|lia]. Defined.

Lemma splitIP_port value address port : 0 <= port < 2 ^ 16 → 0 <= (splitIP value address port).2 < 2 ^ 16.
Proof.
  intros Hp. unfold splitIP. case_decide; [done|].
  destruct (match regex_match2 [] re_ipv4 _ _ _ with Some g => _ | None => _ end) as [[a p]|]; [|done].
  destruct (stoul p) as [n|?|?|]; cbn [snd]; [|done..]. unfold u16, wrap. by apply Z.mod_pos_bound.
Qed.

(** Whatever the file and the command line hold, the ports are ports. *)
Lemma main_config_ports load a :
  0 <= p2p_port (main_config load a).1 < 2 ^ 16 ∧ 0 <= api_port (main_config load a).1 < 2 ^ 16.
Proof.
  unfold main_config, parseConfigFile, read_address. cbn [fst p2p_port api_port].
  split; destruct (get_string _ _ _); cbn [snd]; try apply splitIP_port; by vm_compute.
Qed.

(** ** Precedence *)

(** Which source decides each setting: the command line wins over the
    configuration file and the file over the default for the key, the
    certificate and the number of nodes, but the file wins for the startup
    script; the addresses come from the file where it has a text that
    [splitIP] accepts and are the defaults otherwise; the password, the
    difficulty and the replication limit come from the command line alone. *)
Theorem config_precedence load a :
  let ini := load (arg_config a) in
  let c := (main_config load a).1 in
  let st := (main_config load a).2 in
  private_key_path c = default (default "./hostkey.pem" (get_string ini "DEFAULT" "hostkey")) (arg_hostkey a) ∧
  certificate_path c = default (default "./hostcert.crt" (get_string ini "dht" "certificate")) (arg_certificate a) ∧
  node_amount c = default (default 1 (get_uint64 ini "dht" "node_amount")) (arg_node_amount a) ∧
  (∀ s, get_string ini "dht" "startup_script" = Some s → startup_script c = Some s) ∧
  (get_string ini "dht" "startup_script" = None → startup_script c = arg_startupScript a) ∧
  private_key_password c = arg_password a ∧
  PoW_Difficulty st = default 1 (arg_POWdifficulty a) ∧
  defaultReplicationLimit st = default 5 (arg_replicationLimit a) ∧
  (∀ v addr p, get_string ini "dht" "p2p_address" = Some v → address_form (to_chars v) addr p →
     digits_value p < 2 ^ 64 → p2p_address c = of_chars addr ∧ p2p_port c = u16 (digits_value p)) ∧
  ((∀ v addr p, get_string ini "dht" "p2p_address" = Some v → ¬ address_form (to_chars v) addr p) →
     p2p_address c = "127.0.0.1" ∧ p2p_port c = 6002).
Proof.
  cbn. unfold read_address. split_and!; try done.
  - by intros s ->.
  - by intros ->.
  - by destruct (arg_password a).
  - intros v addr p -> Hf Hp. by rewrite (splitIP_accepts v _ _ addr p Hf Hp).
  - intros Hno. destruct (get_string (load (arg_config a)) "dht" "p2p_address") as [v|]; [|done].
    rewrite splitIP_refuses; [done|]. intros addr p Hf. by destruct (Hno v addr p eq_refl).
Qed.
