(* ===== verification/Rpc.v ===== *)
(** * Rpc: connections between nodes

    Models src/rpc: the context that the clients and servers of one thread
    share (SecureRpcContext.h), the client that connects in the background
    (SecureRpcClient), the server with its task set (SecureRpcServer), and the
    choice between plain and TLS streams (rpc.cpp). Cap'n Proto, KJ and OpenSSL
    are not modelled: a KJ promise is an event with its result, the wrapping of
    a stream by [kj::TlsContext] is a parameter, and [kj_throws] says whether a
    failed [KJ_REQUIRE] throws or runs its recovery block. *)

From S2P Require Import Prelude Config.

(** ** The context of a thread *)

Module Context.

(** Contexts by their address; [ctx_owner] is the thread that created it (not
    a member of the class), [ctx_refs] the reference count. [tls] is the
    thread-local pointer, absent when it is null. *)
Record Ctx := mkCtx { ctx_owner : nat; ctx_refs : nat }.

Record Heap := mkHeap { tls : gmap nat nat; ctxs : gmap nat Ctx; fresh_ctx : nat }.

Definition empty_heap : Heap := mkHeap ∅ ∅ 0.

(** The constructor, on thread [t]: the new context is the thread's. *)
Definition SecureRpcContext_ctor (t : nat) (h : Heap) : nat * Heap :=
  (fresh_ctx h, mkHeap (<[t := fresh_ctx h]> (tls h)) (<[fresh_ctx h := mkCtx t 1]> (ctxs h)) (S (fresh_ctx h))).

(** [getThreadLocal]: one more reference to the thread's context, or a new
    context. A pointer to a destroyed context is undefined behaviour. *)
Definition getThreadLocal (t : nat) (h : Heap) : outcome (nat * Heap) :=
  match tls h !! t with
  | Some id =>
      match ctxs h !! id with
      | Some c => Ok (id, mkHeap (tls h) (<[id := mkCtx (ctx_owner c) (S (ctx_refs c))]> (ctxs h)) (fresh_ctx h))
      | None => UB "context used after its destruction"
      end
  | None => Ok (SecureRpcContext_ctor t h)
  end.

(** The destructor, on thread [t]. *)
Definition SecureRpcContext_dtor (kj_throws : bool) (t id : nat) (h : Heap) : outcome Heap :=
  let h := mkHeap (tls h) (delete id (ctxs h)) (fresh_ctx h) in
  if decide (tls h !! t = Some id) then Ok (mkHeap (delete t (tls h)) (ctxs h) (fresh_ctx h))
  else if kj_throws then Exn "EzRpcContext destroyed from different thread than it was created." else Ok h.

(** A [kj::Own] to the context goes out of scope on thread [t]. *)
Definition release (kj_throws : bool) (t id : nat) (h : Heap) : outcome Heap :=
  match ctxs h !! id with
  | None => UB "double release"
  | Some c =>
      if (ctx_refs c =? 1)%nat then SecureRpcContext_dtor kj_throws t id h
      else Ok (mkHeap (tls h) (<[id := mkCtx (ctx_owner c) (pred (ctx_refs c))]> (ctxs h)) (fresh_ctx h))
  end.

Section Discipline.
Context (kj_throws : bool).

(** The heap with the [kj::Own]s that exist, each with the thread it was made
    on: clients and servers are destroyed on the thread that made them. *)
Inductive reaches : Heap → list (nat * nat) → Prop :=
| reach_empty : reaches empty_heap []
| reach_get h owns t id h' : reaches h owns → getThreadLocal t h = Ok (id, h') → reaches h' ((t, id) :: owns)
| reach_release h owns1 owns2 t id h' : reaches h (owns1 ++ (t, id) :: owns2) →
    release kj_throws t id h = Ok h' → reaches h' (owns1 ++ owns2).

(** Number of [kj::Own]s to a context. *)
Definition refs_to (id : nat) (owns : list (nat * nat)) : nat := length (filter (λ o, o.2 = id) owns).
#[local] Arguments refs_to : simpl never.

Lemma refs_to_cons id o owns :
  refs_to id (o :: owns) = ((if decide (o.2 = id) then 1 else 0) + refs_to id owns)%nat.
Proof. unfold refs_to. rewrite filter_cons. by case_decide. Qed.

Lemma refs_to_mid id o owns1 owns2 : refs_to id (owns1 ++ o :: owns2)
  = ((if decide (o.2 = id) then 1 else 0) + refs_to id (owns1 ++ owns2))%nat.
Proof. unfold refs_to. rewrite !filter_app, !length_app, filter_cons. case_decide; cbn; lia. Qed.

(** Every context is its owner's current one and counts its [kj::Own]s. *)
Record heap_ok (h : Heap) (owns : list (nat * nat)) : Prop := {
  ho_ctx id c : ctxs h !! id = Some c →
    tls h !! ctx_owner c = Some id ∧ ctx_refs c = refs_to id owns ∧ (1 <= ctx_refs c)%nat;
  ho_tls t id : tls h !! t = Some id → ∃ c, ctxs h !! id = Some c ∧ ctx_owner c = t;
  ho_own t id : (t, id) ∈ owns → ∃ c, ctxs h !! id = Some c ∧ ctx_owner c = t;
  ho_fresh id : is_Some (ctxs h !! id) → (id < fresh_ctx h)%nat;
}.

Lemma refs_to_fresh h owns : heap_ok h owns → refs_to (fresh_ctx h) owns = 0%nat.
Proof.
  intros Hok. unfold refs_to. apply length_zero_iff_nil. destruct (filter _ owns) as [|o l] eqn:E; [done|].
  assert (o ∈ filter (λ o, o.2 = fresh_ctx h) owns) as Ho by (rewrite E; by left).
  apply list_elem_of_filter in Ho as [Ho2 Ho]. destruct o as [t id]. cbn in Ho2. subst.
  destruct (ho_own _ _ Hok _ _ Ho) as (c & Hc & _). pose proof (ho_fresh _ _ Hok _ (ex_intro _ c Hc)). lia.
Qed.

Lemma heap_ok_new h owns t : heap_ok h owns → tls h !! t = None →
  heap_ok (SecureRpcContext_ctor t h).2 ((t, fresh_ctx h) :: owns).
Proof.
  intros Hok Ht. pose proof (refs_to_fresh h owns Hok) as H0. destruct Hok as [Hc Hl Ho Hf].
  assert (∀ id c, ctxs h !! id = Some c → ctx_owner c ≠ t ∧ id ≠ fresh_ctx h) as Hne.
  { intros id c E. destruct (Hc _ _ E) as [E' _]. pose proof (Hf _ (ex_intro _ c E)). split; [congruence|lia]. }
  constructor; cbn.
  - intros id c [[<- <-]|[Hid E]]%lookup_insert_Some; cbn.
    + rewrite lookup_insert_eq, refs_to_cons, H0. cbn. by rewrite decide_True.
    + destruct (Hc _ _ E) as (E1 & E2 & E3), (Hne _ _ E). rewrite lookup_insert_ne, refs_to_cons by done.
      cbn. by rewrite decide_False.
  - intros t' id [[<- <-]|[Hid E]]%lookup_insert_Some; [exists (mkCtx t 1); by rewrite lookup_insert_eq|].
    destruct (Hl _ _ E) as (c & E1 & E2). exists c. rewrite lookup_insert_ne; [done|]. intros <-. by apply Hne in E1 as [_ []].
  - intros t' id [[= -> ->]|E]%elem_of_cons; [exists (mkCtx t 1); by rewrite lookup_insert_eq|].
    destruct (Ho _ _ E) as (c & E1 & E2). exists c. rewrite lookup_insert_ne; [done|]. intros <-. by apply Hne in E1 as [_ []].
  - intros id [c [[<- _]|[_ E]]%lookup_insert_Some]; [lia|]. specialize (Hf id (ex_intro _ c E)). lia.
Qed.

(** One more or one less reference to a context that stays. *)
Lemma heap_ok_refs h owns owns' t id c n : heap_ok h owns → ctxs h !! id = Some c → ctx_owner c = t →
  n = refs_to id owns' → (1 <= n)%nat → (∀ id', id' ≠ id → refs_to id' owns' = refs_to id' owns) →
  (∀ o, o ∈ owns' → o = (t, id) ∨ o ∈ owns) →
  heap_ok (mkHeap (tls h) (<[id := mkCtx (ctx_owner c) n]> (ctxs h)) (fresh_ctx h)) owns'.
Proof.
  intros [Hc Hl Ho Hf] Hid Hown Hn H1 Hoth Hsub.
  assert (∀ t' id', (∃ c', ctxs h !! id' = Some c' ∧ ctx_owner c' = t') →
    ∃ c', <[id := mkCtx (ctx_owner c) n]> (ctxs h) !! id' = Some c' ∧ ctx_owner c' = t') as Hkeep.
  { intros t' id' (c' & E & E'). destruct (decide (id = id')) as [<-|Hne].
    - rewrite lookup_insert_eq. eexists. split; [done|]. cbn. congruence.
    - rewrite lookup_insert_ne by done. eauto. }
  constructor; cbn.
  - intros id' c' [[<- <-]|[Hne E]]%lookup_insert_Some; cbn.
    + destruct (Hc _ _ Hid) as (E1 & _). done.
    + destruct (Hc _ _ E) as (E1 & E2 & E3). rewrite Hoth by done. done.
  - intros t' id' E. apply Hkeep. by apply Hl.
  - intros t' id' E. apply Hkeep. destruct (Hsub _ E) as [[= -> ->]|E']; [by exists c|by apply Ho].
  - intros id' [c' [[<- _]|[_ E]]%lookup_insert_Some]; apply Hf; by eexists.
Qed.

(** The last reference is released by the owner. *)
Lemma heap_ok_last h owns owns' t id c : heap_ok h owns → ctxs h !! id = Some c → ctx_owner c = t →
  refs_to id owns' = 0%nat → (∀ id', id' ≠ id → refs_to id' owns' = refs_to id' owns) →
  (∀ o, o ∈ owns' → o ∈ owns) →
  heap_ok (mkHeap (delete t (tls h)) (delete id (ctxs h)) (fresh_ctx h)) owns'.
Proof.
  intros [Hc Hl Ho Hf] Hid Hown H0 Hoth Hsub. destruct (Hc _ _ Hid) as (Htls & _). rewrite Hown in Htls.
  constructor; cbn.
  - intros id' c' [Hne E]%lookup_delete_Some. destruct (Hc _ _ E) as (E1 & E2 & E3).
    rewrite Hoth by done. split; [|done]. rewrite lookup_delete_ne; [done|]. congruence.
  - intros t' id' [Hne E]%lookup_delete_Some. destruct (Hl _ _ E) as (c' & E1 & E2). exists c'.
    rewrite lookup_delete_ne; [done|]. congruence.
  - intros t' id' E. destruct (Ho _ _ (Hsub _ E)) as (c' & E1 & E2). exists c'.
    rewrite lookup_delete_ne; [done|]. intros <-. unfold refs_to in H0.
    apply length_zero_iff_nil in H0. assert ((t', id) ∈ filter (λ o, o.2 = id) owns') as Hin
      by (by apply list_elem_of_filter).
    rewrite H0 in Hin. by apply elem_of_nil in Hin.
  - intros id' [c' [_ E]%lookup_delete_Some]. apply Hf. by eexists.
Qed.

Lemma heap_reaches_ok h owns : reaches h owns → heap_ok h owns.
Proof.
  induction 1 as [|h owns t id h' _ Hok Hget|h owns1 owns2 t id h' _ Hok Hrel].
  - constructor; cbn; [by intros ? ?..|by intros ? ? ?%elem_of_nil|by intros ? [? ?]].
  - unfold getThreadLocal in Hget. destruct (tls h !! t) as [id'|] eqn:Ht.
    + destruct (ctxs h !! id') as [c|] eqn:Hc; [|done]. injection Hget as <- <-.
      destruct (ho_tls _ _ Hok _ _ Ht) as (c' & Hc' & Hown). rewrite Hc in Hc'. injection Hc' as <-.
      destruct (ho_ctx _ _ Hok _ _ Hc) as (_ & Hrefs & _).
      eapply (heap_ok_refs h owns); [done..| |lia| |].
      * rewrite refs_to_cons, decide_True by done. lia.
      * intros id'' Hne. rewrite refs_to_cons. cbn. by rewrite decide_False.
      * intros o [->|?]%elem_of_cons; auto.
    + injection Hget as <- <-. by apply (heap_ok_new h owns t).
  - assert ((t, id) ∈ owns1 ++ (t, id) :: owns2) as Hin by (apply elem_of_app; right; by left).
    destruct (ho_own _ _ Hok _ _ Hin) as (c & Hc & Hown). destruct (ho_ctx _ _ Hok _ _ Hc) as (Htls & Hrefs & H1).
    assert (∀ id', id' ≠ id → refs_to id' (owns1 ++ owns2) = refs_to id' (owns1 ++ (t, id) :: owns2)) as Hoth.
    { intros id' Hne. rewrite refs_to_mid. cbn. by rewrite decide_False. }
    assert (∀ o, o ∈ owns1 ++ owns2 → o ∈ owns1 ++ (t, id) :: owns2) as Hsub.
    { intros o. rewrite !elem_of_app, elem_of_cons. tauto. }
    rewrite refs_to_mid, decide_True in Hrefs by done. unfold release in Hrel. rewrite Hc in Hrel.
    destruct (Nat.eqb_spec (ctx_refs c) 1) as [E1|E1].
    + unfold SecureRpcContext_dtor in Hrel. cbn in Hrel. rewrite Hown in Htls.
      rewrite decide_True in Hrel by done. injection Hrel as <-.
      eapply heap_ok_last; [done..|lia|done|done].
    + injection Hrel as <-. eapply heap_ok_refs; [done..|lia|lia|done|auto].
Qed.

End Discipline.

(** C30: A thread has at most one context, and its pointer never dangles. As
    long as clients and servers are destroyed on the threads that made them,
    [getThreadLocal] is always defined; a thread's pointer is null exactly
    when it holds no client or server; all that it holds share one context;
    a context's reference count is the number of its holders; and destroying
    any of the clients and servers on its own thread never fails, and destroys
    the context exactly if it was the last holder. *)
Theorem one_context_per_thread kj_throws h owns t : reaches kj_throws h owns →
  (∃ id h', getThreadLocal t h = Ok (id, h')) ∧
  (∀ id, tls h !! t = Some id ↔ (t, id) ∈ owns) ∧
  (∀ id id', (t, id) ∈ owns → (t, id') ∈ owns → id = id') ∧
  (∀ id c, ctxs h !! id = Some c → ctx_refs c = refs_to id owns) ∧
  ∀ id, (t, id) ∈ owns → ∃ h', release kj_throws t id h = Ok h' ∧ (ctxs h' !! id = None ↔ refs_to id owns = 1%nat).
Proof.
  intros Hok%heap_reaches_ok. assert (∀ id, (t, id) ∈ owns → tls h !! t = Some id) as Hown.
  { intros id Hin. destruct (ho_own _ _ Hok _ _ Hin) as (c & Hc & <-). by apply (ho_ctx _ _ Hok _ _ Hc). }
  split_and!.
  - unfold getThreadLocal. destruct (tls h !! t) as [id|] eqn:E; [|eauto].
    destruct (ho_tls _ _ Hok _ _ E) as (c & -> & _). eauto.
  - intros id. split; [|apply Hown]. intros E. destruct (ho_tls _ _ Hok _ _ E) as (c & Hc & Ho).
    destruct (ho_ctx _ _ Hok _ _ Hc) as (_ & Hr & H1). unfold refs_to in Hr.
    destruct (filter (λ o, o.2 = id) owns) as [|[t' id'] l] eqn:El; [cbn in Hr; lia|].
    assert ((t', id') ∈ filter (λ o, o.2 = id) owns) as Hin by (rewrite El; by left).
    apply list_elem_of_filter in Hin as [Hid Hin]. cbn in Hid. subst id'.
    destruct (ho_own _ _ Hok _ _ Hin) as (c' & Hc' & Ho'). congruence.
  - intros id id' H1%Hown H2%Hown. congruence.
  - intros id c Hc. apply (ho_ctx _ _ Hok _ _ Hc).
  - intros id Hin. destruct (ho_own _ _ Hok _ _ Hin) as (c & Hc & Ho). destruct (ho_ctx _ _ Hok _ _ Hc) as (Htls & Hr & H1).
    unfold release, SecureRpcContext_dtor. rewrite Hc, <- Hr. cbn. destruct (Nat.eqb_spec (ctx_refs c) 1) as [E|E].
    + rewrite decide_True by (by rewrite <- Ho). eexists. split; [done|]. cbn. rewrite lookup_delete_eq. done.
    + eexists. split; [done|]. cbn. by rewrite lookup_insert_eq.
Qed.

(** Two clients on thread 0 and one on thread 1; the first one is gone. *)
Definition example_heap : Heap := mkHeap {[0%nat := 0%nat; 1%nat := 1%nat]} {[0%nat := mkCtx 0 1; 1%nat := mkCtx 1 1]} 2.

Lemma example_reaches : reaches true example_heap [(1%nat, 1%nat); (0%nat, 0%nat)].
Proof.
  apply (reach_release true (mkHeap {[0%nat := 0%nat; 1%nat := 1%nat]} {[0%nat := mkCtx 0 2; 1%nat := mkCtx 1 1]} 2)
    [(1%nat, 1%nat)] [(0%nat, 0%nat)] 0 0); [|reflexivity].
  apply (reach_get true (mkHeap {[0%nat := 0%nat]} {[0%nat := mkCtx 0 2]} 1) _ 1); [|reflexivity].
  apply (reach_get true (mkHeap {[0%nat := 0%nat]} {[0%nat := mkCtx 0 1]} 1) _ 0); [|reflexivity].
  apply (reach_get true empty_heap _ 0); [constructor|reflexivity].
Qed.

Lemma one_context_per_thread_witness : (∃ id h', getThreadLocal 2 example_heap = Ok (id, h')) ∧
  (tls example_heap !! 0%nat = Some 0%nat ↔ (0%nat, 0%nat) ∈ [(1%nat, 1%nat); (0%nat, 0%nat)]) ∧
  ∃ h', release true 0 0 example_heap = Ok h' ∧ ctxs h' !! 0%nat = None.
Proof.
  split; [exact (proj1 (one_context_per_thread true _ _ 2 example_reaches))|].
  destruct (one_context_per_thread true _ _ 0 example_reaches) as (_ & H1 & _ & _ & H2). split; [exact (H1 0%nat)|].
  destruct (H2 0%nat) as (h' & Hh & Hlast); [by right; left|]. exists h'. split; [exact Hh|]. apply Hlast. by vm_compute.
Defined.

(** When the last holder is destroyed on another thread, the pointer of the
    creating thread is left dangling and its next use is undefined. *)
Theorem released_elsewhere_dangles : ∃ h1 h2,
  getThreadLocal 0 empty_heap = Ok (0%nat, h1) ∧ release false 1 0 h1 = Ok h2 ∧
  getThreadLocal 0 h2 = UB "context used after its destruction".
Proof. by do 2 eexists. Qed.

End Context.

(** ** Plain or TLS streams *)

(** What [AsyncIoStreamFactory] does with a new connection: nothing, or wrap
    it with [kj::TlsContext]. *)
Record TlsOptions := mkTlsOptions { ignoreCertificates : bool; defaultKeypair : option (string * string) }.

Inductive StreamFactory := Identity | WrapClient (o : TlsOptions) | WrapServer (o : TlsOptions).

Section Factories.
(** The file system and the PEM parsers of OpenSSL. *)
Context (read_file : string → option string).
Context (key_ok : string → option string → bool) (cert_ok : string → bool).

(** [openFile(...)->readAllText()]. *)
Definition readAllText (path : string) : outcome string :=
  match read_file path with Some s => Ok s | None => Exn "open: No such file or directory" end.

(** The key pair both functions read. *)
Definition read_keypair (conf : Configuration) : outcome (string * string) :=
  key ← readAllText (private_key_path conf);
  cert ← readAllText (certificate_path conf);
  if negb (key_ok key (private_key_password conf)) then Exn "OpenSSL error (private key)"
  else if negb (cert_ok cert) then Exn "OpenSSL error (certificate)"
  else Ok (key, cert).

Definition getClient (conf : Configuration) : outcome StreamFactory :=
  if negb (use_tls conf) then Ok Identity
  else
    kp ← read_keypair conf;
    Ok (WrapClient (mkTlsOptions true None)).

Definition getServer (conf : Configuration) : outcome StreamFactory :=
  if negb (use_tls conf) then Ok Identity
  else
    kp ← read_keypair conf;
    Ok (WrapServer (mkTlsOptions false (Some kp))).

(** A TLS client checks no certificate and presents none: it reads the key
    pair, fails without it, and does not use it. *)
Lemma getClient_unauthenticated conf f : use_tls conf = true → getClient conf = Ok f →
  f = WrapClient (mkTlsOptions true None) ∧ is_Ok (read_keypair conf) = true.
Proof. unfold getClient. intros ->. cbn. destruct (read_keypair conf); [|done..]. by intros [= <-]. Qed.

End Factories.

(** ** The client *)

Module Client.

(** [setupPromise]: the address is parsed, the connection made, the stream
    wrapped, and then [clientContext] is set. *)
Inductive Setup := Parsing | Connecting | Wrapping | Established | SetupFailed (error : string).

Record RpcClient := mkRpcClient { setupPromise : Setup; clientContext : bool }.

Definition SecureRpcClient_ctor : RpcClient := mkRpcClient Parsing false.

(** The promise in flight is resolved, or broken with an error. *)
Definition setup_step (result : option string) (c : RpcClient) : RpcClient :=
  match setupPromise c, result with
  | Established, _ | SetupFailed _, _ => c
  | _, Some e => mkRpcClient (SetupFailed e) (clientContext c)
  | Parsing, None => mkRpcClient Connecting (clientContext c)
  | Connecting, None => mkRpcClient Wrapping (clientContext c)
  | Wrapping, None => mkRpcClient Established true
  end.

(** A capability: the server's bootstrap interface, or a branch of the setup. *)
Inductive MainCap := Bootstrap | Branch.

Definition getMain (c : RpcClient) : MainCap := if clientContext c then Bootstrap else Branch.

(** What a call on the capability meets: nothing yet, the server, or an error. *)
Definition resolve (cap : MainCap) (c : RpcClient) : option (outcome unit) :=
  match cap, setupPromise c with
  | Bootstrap, _ => Some (Ok tt)
  | Branch, Established => Some (if clientContext c then Ok tt else Exn "KJ_ASSERT_NONNULL")
  | Branch, SetupFailed e => Some (Exn e)
  | Branch, _ => None
  end.

Definition run_setup (results : list (option string)) (c : RpcClient) : RpcClient :=
  fold_left (λ c r, setup_step r c) results c.

(** The context is there exactly when the setup has succeeded. *)
Definition client_ok (c : RpcClient) : Prop :=
  clientContext c = true ↔ setupPromise c = Established.

Lemma client_ok_run results c : client_ok c → client_ok (run_setup results c).
Proof.
  revert c. induction results as [|r results IH]; intros c Hc; [done|]. cbn. apply IH.
  destruct c as [[] ctx], r; unfold client_ok in *; cbn in *; intuition congruence.
Qed.

Lemma established_stays results c : setupPromise c = Established →
  setupPromise (run_setup results c) = Established.
Proof.
  revert c. induction results as [|r results IH]; intros c Hc; [done|]. cbn. apply IH.
  unfold setup_step. by rewrite Hc.
Qed.

Lemma failed_stays results c e : setupPromise c = SetupFailed e →
  setupPromise (run_setup results c) = SetupFailed e.
Proof.
  revert c. induction results as [|r results IH]; intros c Hc; [done|]. cbn. apply IH.
  unfold setup_step. by rewrite Hc.
Qed.

(** Calls succeed or fail with the connection. Whenever a capability is
    obtained from a client, before or after the connection is made, a call on
    it at any later time waits while the connection is being made, reaches the
    server once it is established, and fails with the setup's error once it
    has failed, for ever (the client does not connect again); the assertion in
    [getMain] never fails. *)
Theorem calls_follow_setup before after :
  let c := run_setup before SecureRpcClient_ctor in
  let c' := run_setup after c in
  resolve (getMain c) c' = match setupPromise c' with
                           | Established => Some (Ok tt)
                           | SetupFailed e => Some (Exn e)
                           | _ => None
                           end ∧
  ∀ later e, setupPromise c' = SetupFailed e → setupPromise (run_setup later c') = SetupFailed e.
Proof.
  intros c c'. split; [|by intros; apply failed_stays].
  assert (client_ok c) as Hc by (by apply client_ok_run).
  assert (client_ok c') as Hc' by (by apply client_ok_run).
  unfold getMain. destruct (clientContext c) eqn:E.
  - apply Hc, (established_stays after) in E. fold c' in E. by rewrite E.
  - cbn. destruct (setupPromise c') eqn:E'; try done. apply Hc' in E'. by rewrite E'.
Qed.

End Client.

(** ** The server *)

Module Server.

(** The promises in the task set. *)
Inductive Task := ParseAddress | Accept | Wrap (stream : nat) | OnDisconnect (stream : nat).

#[export] Instance Task_eq_dec : EqDecision Task.
Proof. solve_decision. Defined.

Inductive PortPromise := PortPending | PortFulfilled (port : Z) | PortBroken.

(** [rs_fatal] is the exception that [taskFailed] has thrown out of the event
    loop; [rs_accepted] numbers the accepted streams. *)
Record RpcServer := mkServer {
  rs_factory : StreamFactory;
  rs_port : PortPromise;
  rs_tasks : list Task;
  rs_accepted : nat;
  rs_fatal : option string;
}.

Definition with_tasks (l : list Task) (s : RpcServer) : RpcServer :=
  mkServer (rs_factory s) (rs_port s) l (rs_accepted s) (rs_fatal s).

(** [tasks.add(promise)]. *)
Definition add_task (t : Task) (s : RpcServer) : RpcServer := with_tasks (rs_tasks s ++ [t]) s.

Definition SecureRpcServer_ctor (f : StreamFactory) : RpcServer :=
  mkServer f PortPending [ParseAddress] 0 None.

Definition acceptLoop (s : RpcServer) : RpcServer := add_task Accept s.

Definition taskFailed (error : string) (s : RpcServer) : RpcServer :=
  mkServer (rs_factory s) (rs_port s) (rs_tasks s) (rs_accepted s) (Some error).

Definition set_port (p : PortPromise) (s : RpcServer) : RpcServer :=
  mkServer (rs_factory s) p (rs_tasks s) (rs_accepted s) (rs_fatal s).

(** Task number [i] ends with an error or with a value (the port, for the task
    that listens). A fulfiller that is destroyed breaks its promise. *)
Definition task_done (i : nat) (result : string + Z) (s : RpcServer) : RpcServer :=
  match rs_tasks s !! i with
  | None => s
  | Some task =>
      let s := with_tasks (delete i (rs_tasks s)) s in
      match task, result with
      | ParseAddress, inl e => taskFailed e (set_port PortBroken s)
      | ParseAddress, inr port => acceptLoop (set_port (PortFulfilled port) s)
      | Accept, inr _ =>
          let s := acceptLoop s in
          mkServer (rs_factory s) (rs_port s) (rs_tasks s ++ [Wrap (rs_accepted s)]) (S (rs_accepted s)) (rs_fatal s)
      | Wrap stream, inr _ => add_task (OnDisconnect stream) s
      | OnDisconnect _, inr _ => s
      | _, inl e => taskFailed e s
      end
  end.

(** The loop runs until a task has failed. The factory of a plain server
    returns the stream at once. *)
Definition can_end (i : nat) (result : string + Z) (s : RpcServer) : bool :=
  match rs_fatal s, rs_tasks s !! i with
  | None, Some (Wrap _) => match rs_factory s, result with Identity, inl _ => false | _, _ => true end
  | None, Some _ => true
  | _, _ => false
  end.

Inductive reaches (f : StreamFactory) : RpcServer → Prop :=
| reach_start : reaches f (SecureRpcServer_ctor f)
| reach_task s i r : reaches f s → can_end i r s = true → reaches f (task_done i r s).

(** The streams in use. *)
Definition streams (l : list Task) : list nat :=
  omap (λ t, match t with Wrap k | OnDisconnect k => Some k | _ => None end) l.

Record server_ok (s : RpcServer) : Prop := {
  so_streams : NoDup (streams (rs_tasks s)) ∧ ∀ k, k ∈ streams (rs_tasks s) → (k < rs_accepted s)%nat;
  so_loop : rs_fatal s = None →
    match rs_port s with
    | PortPending => rs_tasks s = [ParseAddress]
    | PortFulfilled _ => length (filter (.= Accept) (rs_tasks s)) = 1%nat ∧ ParseAddress ∉ rs_tasks s
    | PortBroken => False
    end;
}.

Lemma task_split (l : list Task) i t : l !! i = Some t → ∃ l1 l2, l = l1 ++ t :: l2 ∧ delete i l = l1 ++ l2.
Proof.
  intros E. exists (take i l), (drop (S i) l). split; [by rewrite take_drop_middle|]. by rewrite delete_take_drop.
Qed.

Lemma streams_app l l' : streams (l ++ l') = streams l ++ streams l'.
Proof. apply omap_app. Qed.

Lemma streams_mid l1 t l2 : streams (l1 ++ t :: l2) ≡ₚ streams [t] ++ streams (l1 ++ l2).
Proof.
  rewrite !streams_app. change (t :: l2) with ([t] ++ l2). rewrite streams_app, !(assoc_L (++)).
  by rewrite (comm (++) (streams l1)).
Qed.

Lemma accepts_mid l1 t l2 : length (filter (.= Accept) (l1 ++ t :: l2))
  = ((if decide (t = Accept) then 1 else 0) + length (filter (.= Accept) (l1 ++ l2)))%nat.
Proof. rewrite !filter_app, !length_app, filter_cons. case_decide; cbn; lia. Qed.

Lemma accepts_snoc l t : length (filter (.= Accept) (l ++ [t]))
  = (length (filter (.= Accept) l) + (if decide (t = Accept) then 1 else 0))%nat.
Proof. rewrite filter_app, length_app, filter_cons. by case_decide. Qed.

(** A task set after the end of task [t] and the start of others. *)
Lemma server_ok_streams l1 t l2 new n n' : NoDup (streams (l1 ++ t :: l2)) →
  (∀ k, k ∈ streams (l1 ++ t :: l2) → (k < n)%nat) → (n <= n')%nat →
  streams new ⊆+ streams [t] ∨ (streams new = [n] ∧ (n < n')%nat) →
  NoDup (streams (l1 ++ l2 ++ new)) ∧ ∀ k, k ∈ streams (l1 ++ l2 ++ new) → (k < n')%nat.
Proof.
  rewrite streams_mid. intros Hnd Hlt Hn Hnew. rewrite (assoc_L (++)), streams_app.
  assert (∀ k, k ∈ streams (l1 ++ l2) → (k < n)%nat) as Hlt'
    by (intros k Hk; apply Hlt; rewrite streams_mid; by apply elem_of_app; right).
  destruct Hnew as [Hsub|[-> Hn']].
  - assert (streams (l1 ++ l2) ++ streams new ⊆+ streams [t] ++ streams (l1 ++ l2)) as Hs.
    { rewrite (comm (++)). by apply submseteq_skips_r. }
    split; [|intros k Hk].
    { apply submseteq_Permutation in Hs as [k Hk]. rewrite Hk in Hnd. by apply NoDup_app in Hnd as [? _]. }
    apply (Nat.lt_le_trans _ n); [|done].
    apply Hlt. rewrite streams_mid. by eapply elem_of_submseteq.
  - apply NoDup_app in Hnd as (_ & _ & Hnd). split.
    + apply NoDup_app. split_and!; [done| |by apply NoDup_singleton].
      intros k Hk ->%list_elem_of_singleton. apply Hlt' in Hk. lia.
    + intros k [Hk| ->%list_elem_of_singleton]%elem_of_app; [|done]. apply Hlt' in Hk. lia.
Qed.

(** Which task can end, by the state of the port. *)
Lemma loop_task port l1 t l2 :
  match port with
  | PortPending => l1 ++ t :: l2 = [ParseAddress]
  | PortFulfilled _ => length (filter (.= Accept) (l1 ++ t :: l2)) = 1%nat ∧ (ParseAddress ∉ l1 ++ t :: l2)
  | PortBroken => False
  end →
  (t = ParseAddress ∧ l1 ++ l2 = []) ∨
  (t ≠ ParseAddress ∧ (∃ p, port = PortFulfilled p) ∧ (ParseAddress ∉ l1 ++ l2) ∧
   length (filter (.= Accept) (l1 ++ l2)) = (if decide (t = Accept) then 0%nat else 1%nat)).
Proof.
  destruct port as [|p|]; [..|done].
  - intros E. left. destruct l1 as [|? [|]]; [|done..]. by injection E as -> ->.
  - rewrite accepts_mid, !elem_of_app, elem_of_cons. intros [Hn Hp]. right. split_and!; [intros ->; tauto|eauto|tauto|].
    case_decide; lia.
Qed.

Lemma server_ok_step s i r : server_ok s → can_end i r s = true → server_ok (task_done i r s).
Proof.
  intros [[Hnd Hlt] Hloop] Hen. unfold task_done. unfold can_end in Hen.
  destruct (rs_fatal s) eqn:Hf; [done|]. specialize (Hloop eq_refl).
  destruct (rs_tasks s !! i) as [t|] eqn:Hi; [|done].
  destruct (task_split _ _ _ Hi) as (l1 & l2 & Hl & Hdel). rewrite Hdel, Hl in *.
  assert (∀ new n', (rs_accepted s <= n')%nat →
    streams new ⊆+ streams [t] ∨ (streams new = [rs_accepted s] ∧ (rs_accepted s < n')%nat) →
    NoDup (streams ((l1 ++ l2) ++ new)) ∧ ∀ k, k ∈ streams ((l1 ++ l2) ++ new) → (k < n')%nat) as Hst.
  { intros new n' Hn Hnew. rewrite <- (assoc_L (++)). by eapply server_ok_streams. }
  assert (∀ new, streams new ⊆+ streams [t] → streams new ⊆+ streams [t] ∨
    (streams new = [rs_accepted s] ∧ (rs_accepted s < rs_accepted s)%nat)) as Hsub by auto.
  assert (NoDup (streams (l1 ++ l2)) ∧ ∀ k, k ∈ streams (l1 ++ l2) → (k < rs_accepted s)%nat) as Hnil.
  { rewrite <- (app_nil_r (l1 ++ l2)). apply Hst; [done|apply Hsub, submseteq_nil_l]. }
  apply loop_task in Hloop. destruct r as [e|port].
  { destruct t; (constructor; [exact Hnil|done]). }
  destruct t as [| |k|k]; (destruct Hloop as [[Ht Hnone]|(Ht & [p Hp] & Hpa & Ha)]; try done).
  - constructor; cbn; [by apply Hst; [|apply Hsub, submseteq_nil_l]|]. intros _. rewrite Hnone. split; [done|].
    intros [?|[]%elem_of_nil]%elem_of_cons. done.
  - constructor; cbn; rewrite <- (assoc_L (++)).
    + apply Hst; [lia|]. right. split; [done|lia].
    + rewrite Hp. intros _. rewrite (assoc_L (++)), !accepts_snoc, Ha, !elem_of_app, !list_elem_of_singleton.
      split; [done|]. intros [[Hin|[=]]|[=]]. by apply Hpa, elem_of_app.
  - constructor; cbn; [by apply Hst; [|apply Hsub]|]. rewrite Hp. intros _.
    rewrite accepts_snoc, Ha, elem_of_app, list_elem_of_singleton. split; [done|]. by intros [Hin|[=]].
  - constructor; cbn; [done|]. rewrite Hp. by intros _.
Qed.

Lemma server_reaches_ok f s : reaches f s → server_ok s.
Proof.
  induction 1 as [|s i r _ IH Hen]; [|by apply server_ok_step].
  constructor; [|done]. split; [constructor|by intros k ?%elem_of_nil].
Qed.

(** C29: A server always admits the next client. In every state a server can
    reach without a failed task, once its port is known exactly one accept is
    in flight, however many streams are being wrapped or are in use; no two
    tasks work on the same stream; and the port is never left broken. *)
Theorem server_always_accepting f s : reaches f s → rs_fatal s = None →
  rs_port s ≠ PortBroken ∧ NoDup (streams (rs_tasks s)) ∧
  ∀ port, rs_port s = PortFulfilled port → length (filter (.= Accept) (rs_tasks s)) = 1%nat.
Proof.
  intros [[Hnd _] Hloop]%server_reaches_ok Hf. specialize (Hloop Hf). split_and!; [|done|].
  - intros E. by rewrite E in Hloop.
  - intros port E. rewrite E in Hloop. apply Hloop.
Qed.

(** ** A failed task *)

Fixpoint run_tasks (l : list (nat * (string + Z))) (s : RpcServer) : option RpcServer :=
  match l with
  | [] => Some s
  | (i, r) :: l => if can_end i r s then run_tasks l (task_done i r s) else None
  end.

(** What a client can make happen: it connects, it completes the handshake or
    not, it disconnects. *)
Definition by_client (s : RpcServer) (i : nat) (r : string + Z) : bool :=
  match rs_tasks s !! i, r with
  | Some (Wrap _), _ => true
  | Some Accept, inr _ | Some (OnDisconnect _), inr _ => true
  | _, _ => false
  end.

(** C38: One failed handshake stops a TLS server, and a plain server survives
    its clients. A client that connects to a TLS server and fails the
    handshake makes [taskFailed] throw out of the event loop: from then on no
    task of the server ends any more, those of other clients included. No
    client can do this to a server without TLS. *)
Theorem handshake_failure_is_fatal f s i error : rs_factory s = f → rs_fatal s = None →
  rs_tasks s !! i = Some Accept →
  (f ≠ Identity → ∃ j s', run_tasks [(i, inr 0); (j, inl error)] s = Some s' ∧ rs_fatal s' = Some error ∧
     ∀ j' r, can_end j' r s' = false) ∧
  (f = Identity → ∀ i' r, by_client s i' r = true → can_end i' r s = true → rs_fatal (task_done i' r s) = None).
Proof.
  intros Hfac Hf Hi. split.
  - intros Hne. set (l := delete i (rs_tasks s) ++ [Accept]). exists (length l).
    assert (can_end i (inr 0) s = true) as Hen by (unfold can_end; by rewrite Hf, Hi).
    assert (task_done i (inr 0) s = mkServer f (rs_port s) (l ++ [Wrap (rs_accepted s)]) (S (rs_accepted s)) None)
      as Hdone by (unfold task_done; rewrite Hi; cbn; by rewrite Hfac, Hf).
    cbn [run_tasks]. rewrite Hen, Hdone. unfold can_end, task_done. cbn [rs_tasks rs_fatal rs_factory].
    rewrite list_lookup_middle by done. destruct f; [done|eexists; split; [done|]; by split..].
  - intros -> i' r Hby Hen. unfold task_done, by_client, can_end in *. rewrite Hf in Hen.
    destruct (rs_tasks s !! i') as [[| |k|k]|]; destruct r; try done. by rewrite Hfac in Hen.
Qed.

Definition tls_factory : StreamFactory := WrapServer (mkTlsOptions false (Some ("key", "cert"))).

(** A TLS server that listens on port 6000 and wraps its first stream. *)
Definition example_server : RpcServer :=
  mkServer tls_factory (PortFulfilled 6000) [Accept; Wrap 0] 1 None.

Lemma example_server_reaches : reaches tls_factory example_server.
Proof.
  apply (reach_task tls_factory (mkServer tls_factory (PortFulfilled 6000) [Accept] 0 None) 0 (inr 0)); [|reflexivity].
  apply (reach_task tls_factory (SecureRpcServer_ctor tls_factory) 0 (inr 6000)); [constructor|reflexivity].
Qed.

Lemma server_always_accepting_witness :
  length (filter (.= Accept) (rs_tasks example_server)) = 1%nat ∧ NoDup (streams (rs_tasks example_server)).
Proof.
  destruct (server_always_accepting tls_factory example_server example_server_reaches eq_refl) as (_ & Hnd & Ha).
  split; [exact (Ha 6000 eq_refl)|exact Hnd].
Defined.

Lemma handshake_failure_is_fatal_witness : ∃ j s',
  run_tasks [(0%nat, inr 0); (j, inl "handshake")] example_server = Some s' ∧ rs_fatal s' = Some "handshake" ∧
  ∀ j' r, can_end j' r s' = false.
Proof.
  exact (proj1 (handshake_failure_is_fatal tls_factory example_server 0 "handshake" eq_refl eq_refl eq_refl) ltac:(done)).
Defined.

End Server.

(** ** Exported capabilities *)

Module Exporting.

Section Exports.
Context {Cap : Type} (kj_throws : bool).

(** The names on the heap by address, and the entries of the map: a key is a
    [StringPtr] to a name, an [ExportedCap] owns a name. The map is searched
    by comparing names; the order of the entries does not matter for a search
    that reads live names only. *)
Record Exports := mkExports {
  ex_names : gmap nat string;
  ex_entries : list (nat * (nat * Cap));
  ex_fresh : nat;
}.

Definition no_exports : Exports := mkExports ∅ [] 0.

(** [exportMap.find(name)]: reading a name that was freed is undefined. *)
Fixpoint find_name (names : gmap nat string) (name : string) (l : list (nat * (nat * Cap)))
    : outcome (option nat) :=
  match l with
  | [] => Ok None
  | (k, _) :: l =>
      match names !! k with
      | None => UB "read of a freed string"
      | Some s => if decide (s = name) then Ok (Some 0%nat)
                  else i ← find_name names name l; Ok (option_map S i)
      end
  end.

(** [exportMap[entry.name] = kj::mv(entry)]: a new key points to the entry's
    own name; the assignment to an old entry frees its name. *)
Definition exportCap (name : string) (cap : Cap) (e : Exports) : outcome Exports :=
  let p := ex_fresh e in
  let names := <[p := name]> (ex_names e) in
  i ← find_name names name (ex_entries e);
  match i with
  | None => Ok (mkExports names (ex_entries e ++ [(p, (p, cap))]) (S p))
  | Some i =>
      match ex_entries e !! i with
      | Some (k, (old, _)) => Ok (mkExports (delete old names) (<[i := (k, (p, cap))]> (ex_entries e)) (S p))
      | None => UB "no such entry"
      end
  end.

(** [restore]: the main interface for a null object id, else the exported
    capability of that name. *)
Definition restore (main : Cap) (objectId : option string) (e : Exports) : outcome (option Cap) :=
  match objectId with
  | None => Ok (Some main)
  | Some name =>
      i ← find_name (ex_names e) name (ex_entries e);
      match i ≫= λ i, ex_entries e !! i with
      | Some (_, (_, cap)) => Ok (Some cap)
      | None => if kj_throws then Exn "Server exports no such capability." else Ok None
      end
  end.

Fixpoint export_all (l : list (string * Cap)) (e : Exports) : outcome Exports :=
  match l with
  | [] => Ok e
  | (name, cap) :: l => e ← exportCap name cap e; export_all l e
  end.

(** The entries are the exports [l], with live names. *)
Record exports_ok (l : list (string * Cap)) (e : Exports) : Prop := {
  eo_entries : Forall2 (λ x y, x.1 = x.2.1 ∧ x.2.2 = y.2 ∧ ex_names e !! x.1 = Some y.1) (ex_entries e) l;
  eo_fresh : Forall (λ x, (x.1 < ex_fresh e)%nat) (ex_entries e);
}.

Lemma find_name_ok names name entries l :
  Forall2 (λ x y, x.1 = x.2.1 ∧ x.2.2 = y.2 ∧ names !! x.1 = Some y.1) entries l →
  find_name names name entries = Ok (fst <$> list_find (λ y, y.1 = name) l).
Proof.
  induction 1 as [|[k [o c]] [n c'] entries l (_ & _ & Hn) Hl IH]; [done|]. cbn in *. rewrite Hn.
  case_decide; [done|]. rewrite IH. cbn. by destruct (list_find _ l).
Qed.

Lemma export_new name cap l e : exports_ok l e → name ∉ l.*1 →
  ∃ e', exportCap name cap e = Ok e' ∧ exports_ok (l ++ [(name, cap)]) e'.
Proof.
  intros [He Hf] Hnew. unfold exportCap.
  assert (Forall2 (λ x y, x.1 = x.2.1 ∧ x.2.2 = y.2 ∧ <[ex_fresh e := name]> (ex_names e) !! x.1 = Some y.1)
            (ex_entries e) l) as He'.
  { rewrite Forall_lookup in Hf. apply Forall2_same_length_lookup. split; [by eapply Forall2_length|].
    intros i x y Hx Hy. destruct (Forall2_lookup_lr _ _ _ _ _ _ He Hx Hy) as (H1 & H2 & H3). split_and!; [done..|].
    specialize (Hf i x Hx). by rewrite lookup_insert_ne by lia. }
  rewrite (find_name_ok _ _ _ _ He').
  destruct (list_find (λ y, y.1 = name) l) as [[i y]|] eqn:E.
  { apply list_find_Some in E as (Hy & <- & _). exfalso. apply Hnew, list_elem_of_fmap. exists y.
    split; [done|]. by eapply list_elem_of_lookup_2. }
  cbn. eexists. split; [done|]. constructor; cbn.
  - apply Forall2_app; [exact He'|]. constructor; [|constructor]. by rewrite lookup_insert_eq.
  - apply Forall_app. split; [|by repeat constructor; cbn; lia]. eapply Forall_impl; [exact Hf|]. cbn. lia.
Qed.

Lemma export_all_ok l0 l e : exports_ok l0 e → NoDup (l0 ++ l).*1 →
  ∃ e', export_all l e = Ok e' ∧ exports_ok (l0 ++ l) e'.
Proof.
  revert l0 e. induction l as [|[name cap] l IH]; intros l0 e He Hnd.
  { exists e. by rewrite app_nil_r. }
  assert (name ∉ l0.*1) as Hnew.
  { rewrite fmap_app in Hnd. cbn in Hnd. apply NoDup_app in Hnd as (_ & Hd & _). intros Hin.
    apply (Hd _ Hin). by left. }
  destruct (export_new name cap l0 e He Hnew) as (e1 & He1 & Hok1).
  cbn [export_all]. rewrite He1. cbn [mbind outcome_bind].
  rewrite (cons_middle (name, cap) l0 l), (assoc_L (++)) in *. by apply IH.
Qed.

(** Exported capabilities are found by their names. After any number of
    exports under different names, a client that restores one of the names
    gets the capability exported under it, a null name gets the main
    interface, and any other name is refused. *)
Theorem export_then_restore main l : NoDup l.*1 →
  ∃ e, export_all l no_exports = Ok e ∧ restore main None e = Ok (Some main) ∧
    (∀ name cap, (name, cap) ∈ l → restore main (Some name) e = Ok (Some cap)) ∧
    ∀ name, name ∉ l.*1 → restore main (Some name) e
      = if kj_throws then Exn "Server exports no such capability." else Ok None.
Proof.
  intros Hnd. destruct (export_all_ok [] l no_exports) as (e & He & [Hok _]); [by repeat constructor|done|].
  change ([] ++ l) with l in Hok. exists e. split_and!; [done|done|..].
  - intros name cap Hin. cbn [restore]. rewrite (find_name_ok _ _ _ _ Hok).
    destruct (list_find (λ y, y.1 = name) l) as [[i y]|] eqn:E.
    + apply list_find_Some in E as (Hy & Hname & _). cbn.
      destruct (Forall2_lookup_r _ _ _ _ _ Hok Hy) as ([k [o c]] & Hx & _ & Hc & _). rewrite Hx. cbn in *. subst.
      do 2 f_equal. apply list_elem_of_lookup_1 in Hin as [j Hj].
      assert (j = i) as ->; [|by rewrite Hy in Hj; injection Hj as ->].
      apply (NoDup_lookup l.*1 _ _ y.1 Hnd); rewrite list_lookup_fmap; [by rewrite Hj|by rewrite Hy].
    + exfalso. apply list_find_None in E. rewrite Forall_forall in E. by apply (E (name, cap)).
  - intros name Hname. cbn [restore]. rewrite (find_name_ok _ _ _ _ Hok).
    destruct (list_find (λ y, y.1 = name) l) as [[i y]|] eqn:E; [|done]. exfalso. apply list_find_Some in E as (Hy & <- & _).
    apply Hname, list_elem_of_fmap. exists y. split; [done|]. by eapply list_elem_of_lookup_2.
Qed.

(** Exporting a name again frees the string that the key in the map points
    to: the next search reads it. *)
Theorem export_twice_dangles main name c1 c2 : ∃ e,
  export_all [(name, c1); (name, c2)] no_exports = Ok e ∧
  restore main (Some name) e = UB "read of a freed string".
Proof.
  eexists. split.
  - cbn. unfold exportCap. cbn. rewrite lookup_insert_ne, lookup_insert_eq, decide_True by done. reflexivity.
  - cbn. by rewrite lookup_delete_eq.
Qed.

End Exports.

Lemma export_then_restore_witness : ∃ e,
  export_all [("a", 1); ("b", 2)] no_exports = Ok e ∧ restore true 0 (Some "b") e = Ok (Some 2).
Proof.
  destruct (export_then_restore true 0 [("a", 1); ("b", 2)]) as (e & He & _ & Hin & _);
    [apply (bool_decide_unpack _); reflexivity|].
  exists e. split; [exact He|]. apply Hin. right. left.
Defined.

End Exporting.
