(* ===== verification/Examples.v ===== *)
(** * Examples: the example programs of the api and rpc modules

    Models the handlers that src/api/main.cpp registers, which echo a request,
    and src/rpc/main.cpp: its capability, which adds two numbers, and its two
    threads, a client and a server that wait for each other. The waits of up to
    ten seconds in the handlers have no effect on any state; how long they are
    is in Drivers.v. *)

From S2P Require Import Prelude Util Message Connection Api Service Rpc.

(** ** The echo service *)

Section Echo.
Context {W : Type}.

(** The three registrations of [main]; there is none for
    DHT_GET_KEY_IS_HASH_OF_DATA. *)
Definition echo_handlers : gmap Z (request_handler_t W (list Z)) :=
  let handlers := ∅ in
  let handlers := on constants.DHT_GET CLASS_KEY eq_refl (Some (λ m, mret (m_bytes (key_data m)))) handlers in
  let handlers := on constants.DHT_PUT CLASS_PUT eq_refl (Some (λ m, mret (m_bytes (put_data m)))) handlers in
  on constants.DHT_PUT_KEY_IS_HASH_OF_DATA CLASS_PUT_KEY_IS_HASH_OF_DATA eq_refl
    (Some (λ m, mret (m_bytes (ph_data m)))) handlers.

Lemma echo_contains t : contains echo_handlers t
  = (t =? constants.DHT_GET) || (t =? constants.DHT_PUT) || (t =? constants.DHT_PUT_KEY_IS_HASH_OF_DATA).
Proof.
  unfold contains, echo_handlers. cbn [on].
  repeat match goal with |- context [?t =? ?k] => destruct (Z.eqb_spec t k) as [->|] end; try done.
  cbn. rewrite !lookup_insert_ne by done. done.
Qed.

(** A handled request is echoed. *)
Lemma echo_call m : typed m → contains echo_handlers (msg_type m) = true →
  ∀ w, call_handler echo_handlers m w = (Ok (m_bytes (Message_data m)), w).
Proof.
  intros Ht Hc w. rewrite echo_contains in Hc. unfold typed, message_type_from_int in Ht. unfold call_handler.
  destruct (Z.eqb_spec (msg_type m) constants.DHT_GET) as [E|]; [rewrite E; by destruct m|].
  destruct (Z.eqb_spec (msg_type m) constants.DHT_PUT) as [E|]; [rewrite E; by destruct m|].
  destruct (Z.eqb_spec (msg_type m) constants.DHT_PUT_KEY_IS_HASH_OF_DATA) as [E|]; [rewrite E; by destruct m|done].
Qed.

(** The echo service answers every request it handles with the bytes of the
    request itself, of which [write_some] takes [room] at most. *)
Theorem echo_service c f m room w : idle c → frame_of f m → typed m → contains echo_handlers (msg_type m) = true →
  m_bytes (Message_data m) = f →
  ∃ c1 c2, run_events (contains echo_handlers) c (frame_events f) = Some (Ok (c1, [Accepted m])) ∧
    call_handler echo_handlers m w = (Ok f, w) ∧
    run_events (contains echo_handlers) c1 (answer_events room f) = Some (Ok (c2, [Answered m f])) ∧
    idle c2 ∧ c_sent c2 = c_sent c ++ take room f.
Proof.
  intros Hi Hf Ht Hc Hb. destruct (exchange (contains echo_handlers) c f m Hi Hf Hc) as (c1 & Hrun & Hans).
  destruct (Hans room f) as (c2 & Hrun2 & Hi2 & Hs). exists c1, c2. split_and!; [done| |done|done|done].
  rewrite (echo_call m Ht Hc w), Hb. done.
Qed.

End Echo.

Lemma echo_service_witness : ∃ c1 c2,
  let f := key_frame (replicate 32 7) in
  run_events (contains (@echo_handlers unit)) (Connection_ctor [0; 0; 0; 0]) (frame_events f)
    = Some (Ok (c1, [Accepted (MsgKey (mkKey (mkData f (mkHeader 36 constants.DHT_GET)) (replicate 32 7)))])) ∧
  c_sent c2 = f.
Proof.
  destruct (echo_service (Connection_ctor [0; 0; 0; 0]) (key_frame (replicate 32 7))
    (MsgKey (mkKey (mkData (key_frame (replicate 32 7)) (mkHeader 36 constants.DHT_GET)) (replicate 32 7))) 36 tt)
    as (c1 & c2 & Hrun & _ & _ & _ & Hs); [by apply idle_start|by apply key_frame_of|done|by rewrite echo_contains|done|].
  exists c1, c2. split; [exact Hrun|exact Hs].
Defined.

(** ** The adder *)

(** [ExampleImpl::add] on [Int32] values; a signed overflow is undefined. *)
Definition example_add (a b : Z) : outcome (Z * Z * Z) :=
  if (- 2 ^ 31 <=? a + b) && (a + b <? 2 ^ 31) then Ok (a, b, a + b) else UB "signed overflow".

Example example_add_main : example_add 123 297 = Ok (123, 297, 420).
Proof. reflexivity. Qed.

(** ** Client and server *)

Inductive ClientAt := Spinning | Connecting | Calling | Returned | Threw.

Inductive ServerAt := Starting | Polling | Stopped | Failed.

Inductive Printed := Sum (a b sum : Z) | SendException (e : string) | Error.

Record Driver := mkDriver {
  d_started : bool;
  d_done : bool;
  d_client : ClientAt;
  d_server : ServerAt;
  d_answer : option (outcome (Z * Z * Z));
  d_output : list Printed;
}.

Inductive Thread := ClientThread | ServerThread.

#[export] Instance Thread_eq_dec : EqDecision Thread.
Proof. solve_decision. Defined.

Section Drive.
(** What [getClient] and [getServer] do, and whether the call gets through. *)
Context (get_client get_server : outcome StreamFactory) (transport : outcome unit).

Definition rpc_main_start : Driver := mkDriver false false Spinning Starting None [].

(** The request of the client, [add(123, 297)]. *)
Definition call_result : outcome (Z * Z * Z) := _ ← transport; example_add 123 297.

(** What the client prints when its call is answered. *)
Definition report (r : outcome (Z * Z * Z)) : list Printed :=
  match r with
  | Ok (a, b, sum) => [Sum a b sum]
  | Exn e => [SendException e; Error]
  | _ => []
  end.

Definition rpc_client_step (d : Driver) : Driver :=
  let at_ c := mkDriver (d_started d) (d_done d) c (d_server d) (d_answer d) (d_output d) in
  match d_client d with
  | Spinning => if d_started d then at_ Connecting else d
  | Connecting => match get_client with Ok _ => at_ Calling | _ => at_ Threw end
  | Calling =>
      match d_answer d with
      | Some r => mkDriver (d_started d) true Returned (d_server d) (d_answer d) (d_output d ++ report r)
      | None => d
      end
  | Returned | Threw => d
  end.

(** A turn of the server's loop: [poll()] answers a call that waits. *)
Definition rpc_server_step (d : Driver) : Driver :=
  let at_ s := mkDriver (d_started d) (d_done d) (d_client d) s (d_answer d) (d_output d) in
  match d_server d with
  | Starting => match get_server with Ok _ => at_ Polling | _ => at_ Failed end
  | Polling =>
      if d_done d then at_ Stopped
      else mkDriver true (d_done d) (d_client d) Polling
             (match d_client d, d_answer d with Calling, None => Some call_result | _, a => a end) (d_output d)
  | Stopped | Failed => d
  end.

Definition driver_step (t : Thread) (d : Driver) : Driver :=
  match t with ClientThread => rpc_client_step d | ServerThread => rpc_server_step d end.

Definition driver_run (l : list Thread) (d : Driver) : Driver := fold_left (λ d t, driver_step t d) l d.

(** [client.wait(); server.wait(); return 0] returns when both threads ended. *)
Definition rpc_main_returns (d : Driver) : bool :=
  match d_client d, d_server d with (Returned | Threw), (Stopped | Failed) => true | _, _ => false end.

(** The states of a run that goes well, with the steps that are left. *)
Definition stage (n : nat) : Driver :=
  let out := report call_result in
  match n with
  | 7%nat => rpc_main_start
  | 6%nat => mkDriver false false Spinning Polling None []
  | 5%nat => mkDriver true false Spinning Polling None []
  | 4%nat => mkDriver true false Connecting Polling None []
  | 3%nat => mkDriver true false Calling Polling None []
  | 2%nat => mkDriver true false Calling Polling (Some call_result) []
  | 1%nat => mkDriver true true Returned Polling (Some call_result) out
  | _ => mkDriver true true Returned Stopped (Some call_result) out
  end.

(** The thread whose step is the next. *)
Definition mover (n : nat) : Thread := match n with 5%nat | 4%nat | 2%nat => ClientThread | _ => ServerThread end.

Context (f g : StreamFactory) (Hc : get_client = Ok f) (Hs : get_server = Ok g).

Lemma stage_step n t : (n <= 7)%nat → driver_step t (stage n) = if decide (t = mover n) then stage (pred n) else stage n.
Proof.
  intros Hn. do 8 (destruct n as [|n]; [destruct t; cbn; unfold rpc_client_step, rpc_server_step; cbn; rewrite ?Hc, ?Hs; done|]). lia.
Qed.

Lemma stage_run l n : (n <= 7)%nat → ∃ m, (m <= n)%nat ∧ driver_run l (stage n) = stage m ∧ (mover n ∈ l → (m <= pred n)%nat).
Proof.
  revert n. induction l as [|t l IH]; intros n Hn.
  { exists n. split_and!; [done|done|]. by intros ?%elem_of_nil. }
  cbn. rewrite (stage_step n t Hn). case_decide as Ht.
  - destruct (IH (pred n) ltac:(lia)) as (m & Hm & Hrun & _). exists m. split_and!; [lia|exact Hrun|done].
  - destruct (IH n Hn) as (m & Hm & Hrun & Hlt). exists m. split_and!; [done|exact Hrun|].
    intros [E|?]%elem_of_cons; [by destruct Ht|auto].
Qed.

Lemma stage_rounds rounds n : (n <= 7)%nat → Forall (λ l, ∀ t : Thread, t ∈ l) rounds → (n <= length rounds)%nat →
  driver_run (concat rounds) (stage n) = stage 0.
Proof.
  intros Hn Hr. revert n Hn. induction Hr as [|l rounds Hl _ IH]; intros n Hn Hlen; cbn in *.
  { by assert (n = 0%nat) as -> by lia. }
  unfold driver_run. rewrite fold_left_app. fold (driver_run l (stage n)).
  destruct (stage_run l n Hn) as (m & Hm & -> & Hlt). specialize (Hlt (Hl _)). apply IH; lia.
Qed.

(** The example ends: if both sides can be set up, every schedule in which both
    threads get seven turns brings [main] to its end, with the sum printed if
    the call got through and the error if it did not. *)
Theorem rpc_main_ends rounds : Forall (λ l, ∀ t : Thread, t ∈ l) rounds → (7 <= length rounds)%nat →
  let d := driver_run (concat rounds) rpc_main_start in
  rpc_main_returns d = true ∧
  (transport = Ok tt → d_output d = [Sum 123 297 420]) ∧
  (∀ e, transport = Exn e → d_output d = [SendException e; Error]).
Proof.
  intros Hr Hlen. cbv zeta. change rpc_main_start with (stage 7). rewrite (stage_rounds rounds 7 ltac:(lia) Hr Hlen).
  cbn [stage d_output]. unfold call_result. split_and!; [done|by intros ->|by intros e ->].
Qed.

End Drive.

(** If one side cannot be set up, the other waits for ever: the server's failure
    leaves the client spinning, the client's leaves the server polling. *)
Theorem rpc_main_hangs get_client get_server transport l :
  let d := driver_run get_client get_server transport l rpc_main_start in
  (∀ e, get_server = Exn e → rpc_main_returns d = false) ∧
  (∀ e, get_client = Exn e → (∃ g, get_server = Ok g) → rpc_main_returns d = false).
Proof.
  cbv zeta. assert (∀ P : Driver → Prop, P rpc_main_start →
    (∀ t d, P d → P (driver_step get_client get_server transport t d)) →
    P (driver_run get_client get_server transport l rpc_main_start)) as Hind.
  { intros P H0 Hstep. revert H0. generalize rpc_main_start. induction l as [|t l IH]; intros d Hd; [done|]. apply IH, Hstep, Hd. }
  split; intros e He.
  - assert (d_started (driver_run get_client get_server transport l rpc_main_start) = false ∧
      d_client (driver_run get_client get_server transport l rpc_main_start) = Spinning ∧
      d_server (driver_run get_client get_server transport l rpc_main_start) ≠ Polling) as (_ & Hcl & _).
    { apply (Hind (λ d, d_started d = false ∧ d_client d = Spinning ∧ d_server d ≠ Polling)); [done|].
      intros t [st dn c sv a o] (H1 & H2 & H3); cbn in *; subst.
      destruct t; cbn; unfold rpc_client_step, rpc_server_step; cbn; [done|]. destruct sv; rewrite ?He; done. }
    unfold rpc_main_returns. by rewrite Hcl.
  - intros [g Hg].
    assert (let d := driver_run get_client get_server transport l rpc_main_start in
      d_done d = false ∧ (d_server d = Starting ∨ d_server d = Polling) ∧
      (d_client d = Spinning ∨ d_client d = Connecting ∨ d_client d = Threw)) as (_ & Hsv & _).
    { apply (Hind (λ d, d_done d = false ∧ (d_server d = Starting ∨ d_server d = Polling) ∧
        (d_client d = Spinning ∨ d_client d = Connecting ∨ d_client d = Threw))); [by cbn; auto|].
      intros t [st dn c sv a o] (H1 & H2 & H3); cbn in *; subst.
      destruct t; cbn; unfold rpc_client_step, rpc_server_step; cbn.
      - destruct H3 as [->|[->| ->]]; rewrite ?He; [destruct st|..]; cbn; auto.
      - destruct H2 as [->| ->]; rewrite ?Hg; cbn; auto. }
    unfold rpc_main_returns. destruct Hsv as [E|E]; rewrite E; by destruct (d_client _).
Qed.
