(* ===== verification/Drivers.v ===== *)
(** * Drivers: the test programs of the api, config and dht modules

    Models [main] of src/api/main.cpp, src/config/main.cpp and src/dht/main.cpp.
    The last one composes the life of a [Dht] (Lifecycle.v) with that of its
    [NodeInformation] (Cleaner.v): constructed first, destroyed last. *)

From S2P Require Import Cleaner.
From S2P Require Import Prelude Util NodeInfo Config Lifecycle.

Definition newline : string := String.string_of_list_ascii endl.

(** ** config *)

Definition config_path : string := "..\..\..\config.ini".

(** What the program prints; it returns 0. *)
Definition config_main (load : string → Ini) : string :=
  let conf := parseConfigFile (load config_path) in
  "This is the main method for testing config!" +:+ newline +:+
  "p2p_address: " +:+ p2p_address conf +:+ newline +:+
  "p2p_port:    " +:+ to_string (p2p_port conf) +:+ newline +:+
  "api_address: " +:+ api_address conf +:+ newline +:+
  "api_port:    " +:+ to_string (api_port conf) +:+ newline.

(** Without such a file (the path is that of another system) the defaults are
    printed. *)
Example config_main_defaults :
  config_main (λ _, mkIni (λ _ _, None) (λ _ _, None) (λ _ _, None))
  = "This is the main method for testing config!" +:+ newline +:+
    "p2p_address: 127.0.0.1" +:+ newline +:+ "p2p_port:    6002" +:+ newline +:+
    "api_address: 127.0.0.1" +:+ newline +:+ "api_port:    7002" +:+ newline.
Proof. reflexivity. Qed.

(** ** api *)

(** The wait of a handler, in seconds: ten, or until it is cancelled;
    [cancelled t] is what it reads after [t] seconds. *)
Fixpoint echo_wait (rounds : nat) (cancelled : nat → bool) (t : nat) : nat :=
  match rounds with
  | O => t
  | S rounds => if cancelled t then t else echo_wait rounds cancelled (S t)
  end.

(** The wait for the signal; [received t] is the flag after [t] seconds. *)
Fixpoint wait_for_signal (fuel : nat) (received : nat → bool) (t : nat) : outcome nat :=
  match fuel with
  | O => NoFuel
  | S fuel => if received t then Ok t else wait_for_signal fuel received (S t)
  end.

(** What [main] prints, to standard output and standard error; it returns 0.
    [ctor] is what the constructor of [Api] does. *)
Definition api_main (ctor : outcome unit) (received : nat → bool) (fuel : nat) : outcome (list string * list string) :=
  let banner := "This is the main method for testing api!" in
  match ctor with
  | Ok _ =>
      _ ← wait_for_signal fuel received 0;
      Ok ([banner; "Shutting down..."; "sigint received"], [])
  | Exn e => Ok ([banner], [e])
  | UB e => UB e
  | NoFuel => NoFuel
  end.

Lemma echo_wait_bound rounds cancelled t : (t <= echo_wait rounds cancelled t <= t + rounds)%nat ∧
  ∀ u, (t <= u < echo_wait rounds cancelled t)%nat → cancelled u = false.
Proof.
  revert t. induction rounds as [|rounds IH]; intros t; cbn [echo_wait]; [split; [lia|lia]|].
  destruct (cancelled t) eqn:E; [split; lia|]. destruct (IH (S t)) as [Hb Hc]. split; [lia|].
  intros u Hu. destruct (decide (u = t)) as [->|]; [done|]. apply Hc. lia.
Qed.

(** A handler of the echo service answers within ten seconds, and within the
    second in which it is cancelled. *)
Theorem echo_answers_in_time cancelled : let t := echo_wait 10 cancelled 0 in
  (t <= 10)%nat ∧ ((t < 10)%nat → cancelled t = true) ∧ ∀ u, (u < t)%nat → cancelled u = false.
Proof.
  cbv zeta. destruct (echo_wait_bound 10 cancelled 0) as [Hb Hc]. split_and!; [lia| |intros u Hu; apply Hc; lia].
  assert (∀ rounds t, (echo_wait rounds cancelled t < t + rounds)%nat → cancelled (echo_wait rounds cancelled t) = true) as H.
  { induction rounds as [|rounds IH]; intros t Hlt; cbn [echo_wait] in *; [lia|]. destruct (cancelled t) eqn:E; [done|].
    apply IH. lia. }
  intros Hlt. apply H. lia.
Qed.

Lemma signal_ends received t k fuel : (∀ u, (k <= u < t)%nat → received u = false) → (k <= t)%nat → received t = true →
  (t - k < fuel)%nat → wait_for_signal fuel received k = Ok t.
Proof.
  revert k. induction fuel as [|fuel IH]; intros k Hno Hk Ht Hf; [lia|]. cbn. destruct (decide (k = t)) as [->|]; [by rewrite Ht|].
  rewrite Hno by lia. apply IH; [|lia|done|lia]. intros u Hu. apply Hno. lia.
Qed.

(** The program ends when the signal has come, or at once when the port cannot
    be had. *)
Theorem api_main_ends received t fuel : received t = true → (∀ u, (u < t)%nat → received u = false) → (t < fuel)%nat →
  api_main (Ok tt) received fuel
    = Ok (["This is the main method for testing api!"; "Shutting down..."; "sigint received"], []) ∧
  ∀ e, api_main (Exn e) received fuel = Ok (["This is the main method for testing api!"], [e]).
Proof.
  intros Ht Hno Hf. split; [|done]. unfold api_main. by rewrite (signal_ends received t 0 fuel) by (done || lia || (intros; apply Hno; lia)).
Qed.

(** ** dht *)

(** Where [main] is. *)
Inductive MainAt := Banner | MakeNode | MakeDht | ReadInput | CloseDht | CloseNode | MainDone.

Record DhtMain := mkDhtMain {
  dm_at : MainAt;
  dm_life : Life;
  dm_node : Cleaner.State;
  dm_out : list string;
}.

Inductive MainEvent := MainThread | KeyPressed | NodeThread (s : Step) | NodeData (e : Cleaner.Event).

Section DhtMain.
Context `{HashFns}.
Implicit Types (d : DhtMain) (l : Life).

Definition dm_print (a : MainAt) (s : string) d : DhtMain := mkDhtMain a (dm_life d) (dm_node d) (dm_out d ++ [s]).
Definition dm_move (a : MainAt) d : DhtMain := mkDhtMain a (dm_life d) (dm_node d) (dm_out d).
Definition dm_with_life d l : DhtMain := mkDhtMain (dm_at d) l (dm_node d) (dm_out d).
Definition dm_with_node d c : DhtMain := mkDhtMain (dm_at d) (dm_life d) c (dm_out d).

(** Before [main]; the two objects do not exist yet. *)
Definition dht_main (now : Z) : DhtMain := mkDhtMain Banner Dht_ctor (Cleaner.start "127.0.0.1" 6969 now) [].

(** The main thread: the statements of [main], those of the constructor and the
    destructor of [Dht] one by one, and the destructor of [NodeInformation]
    when [main] has returned. *)
Definition main_thread d : option DhtMain :=
  match dm_at d with
  | Banner => Some (dm_print MakeNode "[DHT main] This is the main method for testing dht!" d)
  | MakeNode => Some (dm_move MakeDht d)
  | MakeDht => match owner (dm_life d) with
               | Alive => Some (dm_move ReadInput d)
               | _ => dm_with_life d <$> owner_step (dm_life d)
               end
  | ReadInput => None
  | CloseDht => match owner (dm_life d) with
                | Gone => Some (dm_print CloseNode "[DHT main] dht destroyed!" d)
                | _ => dm_with_life d <$> owner_step (dm_life d)
                end
  | CloseNode => match c_owner (dm_node d) with
                 | Destroyed => Some (dm_move MainDone d)
                 | _ => dm_with_node d <$> destructor_step (dm_node d)
                 end
  | MainDone => None
  end.

(** Threads of the node run while it exists; requests come when it has its API. *)
Definition node_thread (s : Step) d : option DhtMain :=
  match s, dm_at d with
  | StepOwner, _ => None
  | StepRequest _ _, (ReadInput | CloseDht) | (StepServer _ | StepMain _ | StepHandler _ _ | StepReplication _), (MakeDht | ReadInput | CloseDht) =>
      dm_with_life d <$> life_step s (dm_life d)
  | _, _ => None
  end.

Definition node_data (e : Cleaner.Event) d : option DhtMain :=
  match e, dm_at d with
  | Cleaner.Delete, _ | _, (Banner | MakeNode | MainDone) => None
  | _, _ => Some (dm_with_node d (event (dm_node d) e))
  end.

Definition dm_step (e : MainEvent) d : option DhtMain :=
  match e with
  | MainThread => main_thread d
  | KeyPressed => match dm_at d with ReadInput => Some (dm_print CloseDht "[DHT main] destroying dht..." d) | _ => None end
  | NodeThread s => node_thread s d
  | NodeData e => node_data e d
  end.

Fixpoint dm_run (events : list MainEvent) d : option DhtMain :=
  match events with
  | [] => Some d
  | e :: events => d' ← dm_step e d; dm_run events d'
  end.

(** The constructor of the [Dht] ends before its server thread runs. *)
Inductive dm_reaches (now : Z) : DhtMain → Prop :=
| dm_start : dm_reaches now (dht_main now)
| dm_next d e d' : dm_reaches now d → (∀ s, e = NodeThread s → in_order s (dm_life d) = true) →
    dm_step e d = Some d' → dm_reaches now d'.

(** What is printed up to a place. *)
Definition printed (a : MainAt) : list string :=
  match a with
  | Banner => []
  | MakeNode | MakeDht | ReadInput => ["[DHT main] This is the main method for testing dht!"]
  | CloseDht => ["[DHT main] This is the main method for testing dht!"; "[DHT main] destroying dht..."]
  | CloseNode | MainDone =>
      ["[DHT main] This is the main method for testing dht!"; "[DHT main] destroying dht..."; "[DHT main] dht destroyed!"]
  end.

(** The two objects are in states of their own models; that of the node's data
    lives until the [Dht] is gone. *)
Record dm_ok d : Prop := {
  dm_life_ok : reaches (dm_life d);
  dm_node_ok : cleaner_ok (dm_node d);
  dm_alive : dm_at d = ReadInput ∨ dm_at d = CloseDht → (1 <= stage (owner (dm_life d)))%nat;
  dm_ends : dm_at d = MainDone → c_owner (dm_node d) = Destroyed;
  dm_printed : dm_out d = printed (dm_at d);
}.

Lemma stage_grows s l l' : life_step s l = Some l' → (1 <= stage (owner l))%nat → (1 <= stage (owner l'))%nat.
Proof.
  intros Hs Ho. destruct s; cbn [life_step] in Hs.
  { unfold owner_step in Hs. destruct (owner l) eqn:E; cbn in Ho; try lia; repeat case_match; simplify_eq; cbn; lia. }
  all: assert (owner l' = owner l) as ->; [|done].
  all: unfold server_step, main_step, operation_end, handler_step, replication_step, request_step in Hs; repeat case_match; by simplify_eq.
Qed.

(** A step of the node's threads, taken by [main] or by themselves. *)
Lemma dm_ok_life d s l : dm_ok d → in_order s (dm_life d) = true → life_step s (dm_life d) = Some l → dm_ok (dm_with_life d l).
Proof.
  intros [Hl Hn Ha He Hp] Hord Hs. constructor; cbn; [by eapply reach_step|done| |done|done].
  intros E. by eapply stage_grows, Ha.
Qed.

Lemma dm_ok_node d e : dm_ok d → dm_at d ≠ MainDone → dm_ok (dm_with_node d (event (dm_node d) e)).
Proof. intros [Hl Hn Ha He Hp] Hne. constructor; cbn; [done|by apply cleaner_ok_event|done|done|done]. Qed.

Lemma dm_ok_step d e d' : dm_ok d → (∀ s, e = NodeThread s → in_order s (dm_life d) = true) → dm_step e d = Some d' → dm_ok d'.
Proof.
  intros Hok Hord Hs. pose proof Hok as [Hl Hn Ha He Hp]. destruct e as [| |s|e]; cbn [dm_step] in Hs.
  - assert (∀ d', dm_with_life d <$> owner_step (dm_life d) = Some d' → dm_ok d') as Hlife.
    { intros d1. destruct (owner_step (dm_life d)) as [l|] eqn:E; [|done]. intros [= <-].
      apply (dm_ok_life d StepOwner); [done|by destruct (owner (dm_life d))|done]. }
    assert (dm_at d = CloseNode → ∀ d', dm_with_node d <$> destructor_step (dm_node d) = Some d' → dm_ok d') as Hnode.
    { intros Ea d1. pose proof (dm_ok_node d Cleaner.Delete Hok ltac:(congruence)) as Hd. unfold event in Hd. cbn [try_step] in Hd.
      destruct (destructor_step (dm_node d)) as [c|]; [|done]. by intros [= <-]. }
    unfold main_thread in Hs. destruct (dm_at d) eqn:Ea; try done.
    + injection Hs as <-. constructor; cbn; rewrite ?Hp; try done; try (by intros [?|?]); auto.
    + injection Hs as <-. constructor; cbn; rewrite ?Hp; try done; try (by intros [?|?]); auto.
    + destruct (owner (dm_life d)) eqn:Eo; try by apply Hlife. injection Hs as <-. constructor; cbn; rewrite ?Hp, ?Eo; try done; try (by intros [?|?]); auto.
    + destruct (owner (dm_life d)) eqn:Eo; try by apply Hlife. injection Hs as <-. constructor; cbn; rewrite ?Hp, ?Eo; try done; try (by intros [?|?]); auto.
    + destruct (c_owner (dm_node d)) eqn:Eo; try by apply Hnode. injection Hs as <-. constructor; cbn; rewrite ?Hp, ?Eo; try done; try (by intros [?|?]); auto.
  - destruct (dm_at d) eqn:Ea; try done. injection Hs as <-. constructor; cbn; rewrite ?Hp; try done; try (by intros [?|?]); auto.
  - assert (dm_with_life d <$> life_step s (dm_life d) = Some d') as Hs'.
    { unfold node_thread in Hs. by destruct s, (dm_at d). }
    destruct (life_step s (dm_life d)) as [l|] eqn:E; [|done]. injection Hs' as <-. apply (dm_ok_life d s); [done|by apply Hord|done].
  - assert (dm_at d ≠ MainDone ∧ d' = dm_with_node d (event (dm_node d) e)) as [Hne ->].
    { unfold node_data in Hs. destruct e, (dm_at d); try done; by injection Hs as <-. }
    by apply dm_ok_node.
Qed.

Lemma dm_ok_reaches now d : dm_reaches now d → dm_ok d.
Proof.
  induction 1 as [|d e d' _ IH Hord Hs]; [|by eapply dm_ok_step]. constructor; cbn; [apply reach_ctor|apply start_ok| |done|done].
  by intros [?|?].
Qed.

(** ** The end of the program *)

Lemma dm_run_app es es' d : dm_run (es ++ es') d = (d' ← dm_run es d; dm_run es' d').
Proof. revert d. induction es as [|e es IH]; intros d; cbn; [done|]. by destruct (dm_step e d); cbn. Qed.

(** Steps of the destructor's threads are steps of the program. *)
Definition as_event (s : Step) : MainEvent := match s with StepOwner => MainThread | _ => NodeThread s end.

Lemma close_run steps l l' d : dm_at d = CloseDht → dm_life d = l → life_run steps l = Some l' →
  dm_run (as_event <$> steps) d = Some (dm_with_life d l').
Proof.
  revert d l. induction steps as [|s steps IH]; intros d l Ha Hl; cbn [life_run fmap list_fmap dm_run].
  { intros [= <-]. subst l. by destruct d. }
  destruct (life_step s l) as [l1|] eqn:E; [|done]. intros Hrun.
  assert (dm_step (as_event s) d = Some (dm_with_life d l1)) as ->.
  { destruct s; cbn [as_event dm_step life_step] in *; unfold main_thread, node_thread; rewrite Ha, Hl; cbn [life_step]; try by rewrite E.
    unfold owner_step in E. destruct (owner l) eqn:Eo; try done; unfold owner_step; rewrite Eo; by rewrite E. }
  cbn [mbind option_bind]. by rewrite (IH (dm_with_life d l1) l1).
Qed.

(** The destructor of the [Dht] begins. *)
Lemma close_begins l : life_ok l → (1 <= stage (owner l))%nat → server l ≠ Unwinding → main l ≠ Failed →
  ∃ n l', life_run (replicate n StepOwner) l = Some l' ∧ closing l'.
Proof.
  intros Hok Ho Hs Hm. assert (∀ k l, life_ok l → (1 <= stage (owner l))%nat → server l ≠ Unwinding → main l ≠ Failed → (4 - stage (owner l) <= k)%nat →
    ∃ n l', life_run (replicate n StepOwner) l = Some l' ∧ closing l') as Hind; [|by apply (Hind 4%nat l); [..|lia]].
  induction k as [|k IH]; intros l1 Hok1 Ho1 Hs1 Hm1 Hk; [exists 0%nat, l1; split; [done|split_and!; [done|lia|done|done]]|].
  destruct (decide (4 <= stage (owner l1))%nat) as [|Hlt]; [exists 0%nat, l1; split; [done|done]|].
  assert (∃ l2, owner_step l1 = Some l2 ∧ stage (owner l2) = S (stage (owner l1)) ∧ server l2 = server l1 ∧ main l2 = main l1)
    as (l2 & Hstep & Hst & Hsv & Hmn).
  { unfold owner_step. destruct (owner l1) eqn:E; cbn in *; try lia; by eexists. }
  destruct (IH l2) as (n & l' & Hrun & Hcl); [by eapply life_ok_owner|lia|by rewrite Hsv|by rewrite Hmn|lia|].
  exists (S n), l'. split; [|done]. cbn [replicate life_run life_step]. by rewrite Hstep.
Qed.

(** There is a way on to the end of the program, through the destructor of the
    node's data alone. *)
Definition node_ends d : Prop :=
  ∃ es d', dm_run es d = Some d' ∧ dm_at d' = MainDone ∧ dm_out d' = dm_out d ∧ dm_life d' = dm_life d.

(** [main] has returned: the destructor of the node's data. *)
Lemma node_gone d : dm_at d = CloseNode → c_owner (event (dm_node d) Cleaner.Delete) = Destroyed →
  node_ends d.
Proof.
  intros Ha Hg. assert (∀ d, dm_at d = CloseNode → c_owner (dm_node d) = Destroyed → dm_step MainThread d = Some (dm_move MainDone d)) as Hlast.
  { intros d1 Ha1 Ho1. cbn. unfold main_thread. by rewrite Ha1, Ho1. }
  destruct (destructor_step (dm_node d)) as [c|] eqn:E; unfold event in Hg; cbn [try_step] in Hg; rewrite E in Hg; cbn in Hg.
  - exists [MainThread; MainThread]. assert (dm_step MainThread d = Some (dm_with_node d c)) as Hd.
    { cbn. unfold main_thread. rewrite Ha. unfold destructor_step in E. destruct (c_owner (dm_node d)) eqn:Eo; try done; unfold destructor_step; rewrite Eo; by rewrite E. }
    cbn [dm_run]. rewrite Hd. cbn [mbind option_bind]. rewrite (Hlast (dm_with_node d c)) by done. by eexists.
  - exists [MainThread]. cbn [dm_run]. rewrite (Hlast d) by done. by eexists.
Qed.

Lemma data_run es d : dm_at d = CloseNode → Forall (λ e, e ≠ Cleaner.Delete) es →
  dm_run (NodeData <$> es) d = Some (dm_with_node d (events (dm_node d) es)).
Proof.
  intros Ha Hes. revert d Ha. induction Hes as [|e es He _ IH]; intros d Ha; [by destruct d|]. cbn [fmap list_fmap dm_run dm_step].
  assert (node_data e d = Some (dm_with_node d (event (dm_node d) e))) as -> by (unfold node_data; rewrite Ha; by destruct e).
  cbn [mbind option_bind]. by rewrite IH.
Qed.

Lemma node_notified d : dm_at d = CloseNode → cleaner_ok (dm_node d) → c_owner (dm_node d) = Notified →
  node_ends d.
Proof.
  intros Ha Hok Ho. set (n := (size (m_data (c_node (dm_node d))) + 3)%nat).
  set (es1 := replicate n Cleaner.Turn). set (es2 := [Cleaner.Elapse 30000000000]). set (es3 := replicate 5 Cleaner.Turn).
  destruct (stops_after (dm_node d) es1 es2 es3 Hok Ho) as [_ Hg]; [by unfold es1; rewrite turns_replicate|done|done|].
  destruct (node_gone (dm_with_node d (events (dm_node d) (es1 ++ es2 ++ es3)))) as (es & d' & Hrun & Hend); [done|done|].
  exists ((NodeData <$> es1 ++ es2 ++ es3) ++ es), d'. split; [|done]. rewrite dm_run_app, data_run; [done|done|].
  rewrite !Forall_app. split_and!; [by apply Forall_replicate|by repeat constructor|by apply Forall_replicate].
Qed.

(** The statements before the wait. *)
Lemma node_step d c : dm_at d = CloseNode → cleaner_ok (dm_node d) → destructor_step (dm_node d) = Some c →
  c_owner (dm_node d) = Living ∨ c_owner (dm_node d) = Flagged →
  dm_step MainThread d = Some (dm_with_node d c) ∧ cleaner_ok c.
Proof.
  intros Ha Hok E Ho. pose proof (cleaner_ok_event (dm_node d) Cleaner.Delete Hok) as Hc. unfold event in Hc. cbn [try_step] in Hc.
  rewrite E in Hc. split; [|done]. cbn. unfold main_thread. rewrite Ha, E. by destruct Ho as [->| ->].
Qed.

Lemma node_flagged d : dm_at d = CloseNode → cleaner_ok (dm_node d) → c_owner (dm_node d) = Flagged →
  node_ends d.
Proof.
  intros Ha Hok Ho. destruct (destructor_step (dm_node d)) as [c|] eqn:E; [|unfold destructor_step in E; by rewrite Ho in E].
  destruct (node_step d c Ha Hok E (or_intror Ho)) as [Hd Hc].
  destruct (node_notified (dm_with_node d c)) as (es & d' & Hrun & Hend); [done|done| |].
  { unfold destructor_step in E. rewrite Ho in E. injection E as <-. cbn. unfold wake. cbn. by destruct (c_at (dm_node d)). }
  exists (MainThread :: es), d'. cbn [dm_run]. by rewrite Hd.
Qed.

Lemma node_closes d : dm_at d = CloseNode → cleaner_ok (dm_node d) →
  node_ends d.
Proof.
  intros Ha Hok. destruct (c_owner (dm_node d)) eqn:Ho; [|by apply node_flagged|by apply node_notified|].
  - destruct (destructor_step (dm_node d)) as [c|] eqn:E; [|unfold destructor_step in E; by rewrite Ho in E].
    destruct (node_step d c Ha Hok E (or_introl Ho)) as [Hd Hc].
    destruct (node_flagged (dm_with_node d c)) as (es & d' & Hrun & Hend); [done|done| |].
    { unfold destructor_step in E. rewrite Ho in E. by injection E as <-. }
    exists (MainThread :: es), d'. cbn [dm_run]. by rewrite Hd.
  - apply node_gone; [done|]. unfold event. cbn [try_step]. unfold destructor_step. by rewrite Ho.
Qed.

(** The program can always end once a key was pressed: whatever state the threads
    of the node and its data are in, as long as neither the server nor the main
    loop has failed, there is a way on to the end of [main] and of the two
    destructors (if the operation the main loop is in ends), and no thread of the
    node is left; the program has printed its three lines. *)
Theorem dht_main_ends now d : dm_reaches now d → dm_at d = CloseDht → server (dm_life d) ≠ Unwinding →
  main (dm_life d) ≠ Failed →
  ∃ es d', dm_run es d = Some d' ∧ dm_at d' = MainDone ∧ owner (dm_life d') = Gone ∧
    dm_out d' = ["[DHT main] This is the main method for testing dht!"; "[DHT main] destroying dht..."; "[DHT main] dht destroyed!"].
Proof.
  intros Hr Ha Hs Hm. destruct (dm_ok_reaches now d Hr) as [Hl Hn Hst He Hp].
  destruct (close_begins (dm_life d)) as (n & l1 & Hrun1 & Hcl); [by apply life_ok_reaches|apply Hst; by right|done|done|].
  destruct (closing_ends l1 Hcl) as (steps & l2 & _ & _ & Hrun2 & Hg).
  assert (dm_run (as_event <$> replicate n StepOwner ++ steps) d = Some (dm_with_life d l2)) as Hrun.
  { rewrite fmap_app, dm_run_app, (close_run _ _ _ d Ha eq_refl Hrun1). exact (close_run _ l1 _ (dm_with_life d l1) Ha eq_refl Hrun2). }
  set (d2 := dm_print CloseNode "[DHT main] dht destroyed!" (dm_with_life d l2)).
  destruct (node_closes d2) as (es & d' & Hrun' & Hend & Hout & Hlife); [done|done|].
  exists ((as_event <$> replicate n StepOwner ++ steps) ++ MainThread :: es), d'. split_and!.
  - rewrite dm_run_app, Hrun. cbn [mbind option_bind dm_run]. assert (dm_step MainThread (dm_with_life d l2) = Some d2) as ->; [|done].
    cbn. unfold main_thread. cbn. by rewrite Ha, Hg.
  - done.
  - rewrite Hlife. exact Hg.
  - rewrite Hout. cbn. by rewrite Hp, Ha.
Qed.

End DhtMain.
