(* ===== verification/Entry.v ===== *)
(** * The shell

    Models src/entry/entry.h and src/entry/entry.cpp: the nodes of the process,
    the commands and the loop that reads them from the terminal and from
    nested scripts.

    - The objects the shared pointers of [m_nodes] refer to are entries of a
      store; a [Dht] refers to its node and to the port of its API. The threads
      of a node change its entry only; the commands that show a node read it
      at one moment.
    - The file system is the parameter [open_file] (the lines a file yields);
      binding the port of an API is the parameter [bind_error]; text layout by
      fmt is the class [FmtFns]; the order in which the unordered map of
      commands is listed is [listing]. Whether the destructor of a [Dht] returns
      is the parameter [stops]: Lifecycle.v shows when it does and when it waits
      for ever; a command that waits for ever ends as [NoFuel].
    - [os] and [err] are the same stream in the loop; prompts, echoed lines and
      colours are not part of the output, and the time that [sleep] takes is
      not modelled. *)

From Stdlib Require SpecFloat.
From S2P Require Import Prelude Util NodeInfo Regex Config.

(** ** Lines and tokens *)

(** [\[[^\]]*\]|[^ \n\r\t\[\]]+], the expression a line is cut with. *)
Definition is_open (c : Ascii.ascii) : bool := bool_decide (c = "["%char).

Definition is_close (c : Ascii.ascii) : bool := bool_decide (c = "]"%char).

Definition word_char (c : Ascii.ascii) : bool :=
  negb (is_open c || is_close c || bool_decide (c = " "%char)
        || bool_decide (c = "010"%char) || bool_decide (c = "013"%char) || bool_decide (c = "009"%char)).

Definition re_token : regex :=
  ReAlt (ReCat (ReChar is_open) (ReCat (ReStar (ReChar (λ c, negb (is_close c)))) (ReChar is_close)))
        (re_plus (ReChar word_char)).

(** Between two tokens, in a word, or in a bracket whose end is ahead; the
    characters of the token so far, last first. *)
Inductive scan := Between | InWord (acc : chars) | InBracket (acc : chars).

Fixpoint scan_tokens (m : scan) (l : chars) : list chars :=
  match l with
  | [] => match m with InWord acc => [rev acc] | _ => [] end
  | c :: l =>
      let start :=
        if is_open c then
          if existsb is_close l then scan_tokens (InBracket [c]) l else scan_tokens Between l
        else if word_char c then scan_tokens (InWord [c]) l else scan_tokens Between l in
      match m with
      | Between => start
      | InWord acc => if word_char c then scan_tokens (InWord (c :: acc)) l else rev acc :: start
      | InBracket acc =>
          if is_close c then rev (c :: acc) :: scan_tokens Between l
          else scan_tokens (InBracket (c :: acc)) l
      end
  end.

(** The matches of the expression in a line. *)
Definition tokenize (line : string) : list string := of_chars <$> scan_tokens Between (to_chars line).

(** [std::regex_replace] of [#.*] by nothing; the dot matches no line end. *)
Fixpoint strip_chars (comment : bool) (l : chars) : chars :=
  match l with
  | [] => []
  | c :: l =>
      let line_end := bool_decide (c = "010"%char) || bool_decide (c = "013"%char) in
      if comment && negb line_end then strip_chars true l
      else if bool_decide (c = "#"%char) then strip_chars true l
      else c :: strip_chars false l
  end.

Definition strip_comment (line : string) : string := of_chars (strip_chars false (to_chars line)).

(** ** parse_number *)

(** An optional sign, then a dot and digits, or digits with an optional dot
    and optional further digits. *)
Definition re_number : regex :=
  ReCat (re_opt (ReChar (λ c, bool_decide (c = "+"%char) || bool_decide (c = "-"%char))))
        (ReAlt (ReCat (re_lit "."%char) re_digits)
               (ReCat re_digits (ReCat (re_opt (re_lit "."%char)) (ReStar (ReChar is_digit))))).

Fixpoint leading_digits (l : chars) : chars :=
  match l with
  | c :: l => if is_digit c then c :: leading_digits l else []
  | [] => []
  end.

(** [std::istringstream{str} >> ret] for an unsigned [w]-bit type: 0 without
    digits, the largest value on overflow, the negation modulo 2^w after a
    minus sign. *)
Definition extract_unsigned (w : Z) (l : chars) : Z :=
  let negative := match l with c :: _ => bool_decide (c = "-"%char) | [] => false end in
  let digits := leading_digits (match l with
    | c :: l' => if bool_decide (c = "-"%char) || bool_decide (c = "+"%char) then l' else l
    | [] => [] end) in
  let v := digits_value digits in
  if 2 ^ w <=? v then 2 ^ w - 1 else if negative then wrap w (- v) else v.

Definition parse_number (w : Z) (str : string) : option Z :=
  if re_match re_number (to_chars str) then Some (extract_unsigned w (to_chars str)) else None.

(** [float]: 24 bits of precision, exponents up to 127, rounded to nearest. *)
Abbreviation float := SpecFloat.spec_float.

Definition float_max : float := SpecFloat.S754_finite false (2 ^ 24 - 1) 104.

Definition float_of_Z (z : Z) : float := SpecFloat.binary_normalize 24 128 z 0 false.

Definition float_lt (a b : float) : bool := SpecFloat.SFltb a b.

Definition float_mul (a b : float) : float := SpecFloat.SFmul 24 128 a b.

(** [(-1)^negative * n / 10^k]; a number that is too large is stored as the
    largest of its sign, as [std::num_get] does. *)
Definition float_of_decimal (negative : bool) (n : Z) (k : nat) : float :=
  match n with
  | Zpos p =>
      match SpecFloat.SFdiv 24 128 (SpecFloat.S754_finite negative p 0)
              (SpecFloat.S754_finite false (Z.to_pos (10 ^ Z.of_nat k)) 0) with
      | SpecFloat.S754_infinity _ => if negative then SpecFloat.SFopp float_max else float_max
      | f => f
      end
  | _ => SpecFloat.S754_zero negative
  end.

(** [std::istringstream{str} >> ret] for a [float], on a text that is a number. *)
Definition extract_float (l : chars) : float :=
  let negative := match l with c :: _ => bool_decide (c = "-"%char) | [] => false end in
  let unsigned := match l with
    | c :: l' => if bool_decide (c = "-"%char) || bool_decide (c = "+"%char) then l' else l
    | [] => [] end in
  let whole := leading_digits unsigned in
  let frac := match drop (length whole) unsigned with _ :: f => leading_digits f | [] => [] end in
  float_of_decimal negative (digits_value (whole ++ frac)) (length frac).

Definition parse_float (str : string) : option float :=
  if re_match re_number (to_chars str) then Some (extract_float (to_chars str)) else None.

(** [static_cast<size_t>(f)] is defined for a float that is not negative. *)
Definition fits_size_t (f : float) : bool := float_lt f (float_of_Z (2 ^ 64)).

(** ** Paths *)

Definition is_slash (c : Ascii.ascii) : bool := bool_decide (c = "/"%char).

Fixpoint drop_while (f : Ascii.ascii → bool) (l : chars) : chars :=
  match l with
  | c :: l' => if f c then drop_while f l' else l
  | [] => []
  end.

(** [std::filesystem::path::parent_path]. *)
Definition parent_path (p : chars) : chars :=
  let dir := drop_while (λ c, negb (is_slash c)) (rev p) in
  match drop_while is_slash dir with
  | [] => rev dir
  | d => rev d
  end.

(** [operator/] of two paths. *)
Definition path_append (dir p : chars) : chars :=
  if match p with c :: _ => is_slash c | [] => false end then p
  else match last dir with
       | None => p
       | Some c => if is_slash c then dir ++ p else dir ++ "/"%char :: p
       end.

(** ** The state *)

Record DhtObj := mkDhtObj { dht_node : nat; dht_apiPort : option Z }.

(** The nodes of the process. *)
Record Nodes := mkNodes {
  store : gmap nat NodeInformation;
  statics : Statics;
  m_DHTs : list DhtObj;
  m_nodes : list nat;
}.

(** Where commands come from: the terminal, and the stack of scripts (the
    innermost first, with the lines not read yet) with their names (the
    innermost last). *)
Record Script := mkScript {
  stdin_lines : list string;
  m_input_files : list (list string);
  m_input_filenames : list string;
  m_lastEnteredCommand : string;
  isRepeatSet : bool;
}.

Record Entry := mkEntry {
  m_conf : Configuration;
  nodes : Nodes;
  script : Script;
  output : string;
}.

Definition with_nodes (n : Nodes) (e : Entry) : Entry := mkEntry (m_conf e) n (script e) (output e).

Definition with_script (s : Script) (e : Entry) : Entry := mkEntry (m_conf e) (nodes e) s (output e).

Definition with_last (c : string) (s : Script) : Script :=
  mkScript (stdin_lines s) (m_input_files s) (m_input_filenames s) c (isRepeatSet s).

Definition with_repeat (b : bool) (s : Script) : Script :=
  mkScript (stdin_lines s) (m_input_files s) (m_input_filenames s) (m_lastEnteredCommand s) b.

(** A script is opened: it is the innermost one, and there is no last command. *)
Definition push_script (path : string) (lines : list string) (s : Script) : Script :=
  mkScript (stdin_lines s) (lines :: m_input_files s) (m_input_filenames s ++ [path]) "" (isRepeatSet s).

Definition print (text : string) : M Entry unit :=
  modify (λ e, mkEntry (m_conf e) (nodes e) (script e) (output e +:+ text)).

Definition nl : string := String "010"%char "".

Definition quote : string := String "034"%char "".

(** ** fmt *)

(** [{:>w}], [{:<w}], [{:>0w}] of a number, and the text of a float. *)
Class FmtFns := {
  fmt_right : nat → string → string;
  fmt_left : nat → string → string;
  fmt_number : nat → Z → string;
  fmt_float : float → string;
}.

Section Shell.
Context `{HashFns} `{FmtFns}.
Context (open_file : string → option (list string)).
Context (bind_error : list Z → Z → option string).
Context (listing : list string).
Context (stops : Nodes → DhtObj → bool).

(** ** Nodes *)

Definition update_nodes (f : Nodes → Nodes) : M Entry unit := modify (λ e, with_nodes (f (nodes e)) e).

(** The node a shared pointer refers to. *)
Definition deref (l : nat) : M Entry NodeInformation :=
  e ← get_state;
  match store (nodes e) !! l with
  | Some n => mret n
  | None => undefined "dangling pointer"
  end.

(** [m_nodes.push_back(std::make_shared<NodeInformation>(ip, port))] and the
    bootstrap address. *)
Definition push_node (conf : Configuration) (port : Z) (n : Nodes) : nat * Nodes :=
  let l := fresh (dom (store n)) in
  let node := setBootstrapNode (Some (Node_ctor (bootstrapNode_address conf) (bootstrapNode_port conf)))
                (NodeInformation_ctor (p2p_address conf) port) in
  (l, mkNodes (<[l := node]> (store n)) (statics n) (m_DHTs n) (m_nodes n ++ [l])).

Definition push_dht (l : nat) (n : Nodes) : Nodes :=
  mkNodes (store n) (statics n) (m_DHTs n ++ [mkDhtObj l None]) (m_nodes n).

(** The ports on which the process serves the API. *)
Definition api_ports (n : Nodes) : list Z := omap dht_apiPort (m_DHTs n).

(** [m_DHTs.back()->setApi(std::make_unique<api::Api>(port))]. *)
Definition set_last_api (port : Z) (n : Nodes) : Nodes :=
  mkNodes (store n) (statics n)
    (alter (λ d, mkDhtObj (dht_node d) (Some port)) (pred (length (m_DHTs n))) (m_DHTs n)) (m_nodes n).

Definition set_api (port : Z) : M Entry unit :=
  e ← get_state;
  match bind_error (api_ports (nodes e)) port with
  | Some what => throw what
  | None => update_nodes (set_last_api port)
  end.

(** A node, its [Dht] and its API. [first] is what happens between the node and
    the [Dht]. *)
Definition start_node (first : Nodes → Nodes) (port api : Z) : M Entry unit :=
  e ← get_state;
  let r := push_node (m_conf e) port (nodes e) in
  update_nodes (λ _, push_dht r.1 (first r.2));;
  set_api api.

(** The loop of the constructor, from node [i], with [n] nodes to go. *)
Fixpoint start_nodes (cs : ConfigStatics) (n : nat) (i : nat) (dht_port api_port : Z) : M Entry unit :=
  match n with
  | O => mret tt
  | S n =>
      start_node (λ ns,
          if (i =? 0)%nat
          then mkNodes (store ns)
                 (setReplicationLimitOnEachNode (defaultReplicationLimit cs)
                    (setDifficulty (PoW_Difficulty cs) (statics ns))) (m_DHTs ns) (m_nodes ns)
          else ns) dht_port api_port;;
      start_nodes cs n (S i) (u16 (dht_port + 1)) (u16 (api_port + 1))
  end.

(** [Entry(conf)], on the input of the terminal. *)
Definition Entry_ctor (conf : Configuration) (cs : ConfigStatics) (stdin : list string) : outcome unit * Entry :=
  start_nodes cs (Z.to_nat (node_amount conf)) 0 (p2p_port conf) (api_port conf)
    (mkEntry conf (mkNodes ∅ initial_statics [] []) (mkScript stdin [] [] "" false) "").

Definition addNode (portParam : option Z) : M Entry unit :=
  e ← get_state;
  port ← match portParam with
         | Some p => mret p
         | None =>
             match last (m_nodes (nodes e)) with
             | Some l => n ← deref l; mret (u16 (getPort n + 1))
             | None => undefined "back of an empty vector"
             end
         end;
  start_node (λ ns, ns) port (u16 (port + 1000));;
  print ("Details of new node = " +:+ nl +:+
         "1. P2P address - " +:+ p2p_address (m_conf e) +:+ ":" +:+ to_string port +:+ nl +:+
         "2. API port - " +:+ to_string (port + 1000) +:+ nl).

(** [erase(begin() + i, begin() + i + n)]. *)
Definition erase {A} (i n : nat) (l : list A) : list A := take i l ++ drop (i + n) l.

Definition remove_nodes (i n : nat) (ns : Nodes) : Nodes :=
  mkNodes (fold_left (λ m l, delete l m) (take n (drop i (m_nodes ns))) (store ns)) (statics ns)
    (erase i n (m_DHTs ns)) (erase i n (m_nodes ns)).

(** ** Commands *)

Definition cmd_add (args : list string) : M Entry unit :=
  addNode (match args with a :: _ => parse_number 16 a | [] => None end).

(** The count of [remove], checked with 32-bit arithmetic. *)
Definition remove_count (args : list string) (index size : Z) : outcome Z :=
  match args with
  | _ :: a :: _ =>
      match parse_number 32 a with
      | Some c =>
          if size <? u32 (index + c) then Exn ("Count [" +:+ to_string c +:+ "] out of bounds!") else Ok c
      | None => Ok 1
      end
  | _ => Ok 1
  end.

(** The [Dht]s of a range are destroyed, each in a thread of its own, and all are
    waited for. *)
Definition await_deletions (i n : nat) (ns : Nodes) : bool := forallb (stops ns) (take n (drop i (m_DHTs ns))).

Definition remove_range (index count : Z) : M Entry unit :=
  e ← get_state;
  if Z.of_nat (length (m_nodes (nodes e))) <? index + count then undefined "iterator past the end"
  else if await_deletions (Z.to_nat index) (Z.to_nat count) (nodes e)
  then update_nodes (remove_nodes (Z.to_nat index) (Z.to_nat count))
  else out_of_fuel.

Definition cmd_remove (args : list string) : M Entry unit :=
  match match args with a :: _ => parse_number 32 a | [] => None end with
  | None => throw "INDEX required!"
  | Some index =>
      e ← get_state;
      let size := Z.of_nat (length (m_nodes (nodes e))) in
      if size <=? index then throw ("Index [" +:+ to_string index +:+ "] out of bounds!")
      else count ← lift (remove_count args index size); remove_range index count
  end.

Definition cmd_repeat : M Entry unit := modify (λ e, with_script (with_repeat true (script e)) e).

(** The path of a script, relative to the script that runs it. *)
Definition script_path (s : Script) (arg : string) : string :=
  match last (m_input_filenames s) with
  | Some f => of_chars (path_append (parent_path (to_chars f)) (to_chars arg))
  | None => arg
  end.

Definition cmd_execute (args : list string) : M Entry unit :=
  match args with
  | [] => throw "PATH required!"
  | arg :: _ =>
      e ← get_state;
      if (64 <=? length (m_input_files (script e)))%nat then throw "Recursion depth reached!"
      else
        let path := script_path (script e) arg in
        match open_file path with
        | None => throw ("Could not open " +:+ path)
        | Some lines => modify (λ e, with_script (push_script path lines (script e)) e)
        end
  end.

Definition cmd_exit (args : list string) : M Entry unit :=
  match args with
  | [] => print ("Shutting down..." +:+ nl)
  | _ => throw "No arguments expected!"
  end.

Definition cmd_sleep (args : list string) : M Entry unit :=
  match match args with a :: _ => parse_float a | [] => None end with
  | None => throw "SECONDS required!"
  | Some seconds =>
      if float_lt seconds (float_of_Z 0) then throw ("Invalid interval: " +:+ fmt_float seconds)
      else if fits_size_t (float_mul seconds (float_of_Z 1000)) then mret tt
      else undefined "conversion of a float that does not fit"
  end.

(** ** Showing nodes *)

Definition format_node (n : Node) : string := m_ip n +:+ ":" +:+ fmt_number 4 (m_port n).

Definition format_node_opt (n : option Node) : string :=
  match n with Some n => format_node n | None => "<null>" end.

Definition cmd_show (execute : list string → M Entry unit) (args : list string) : M Entry unit :=
  match args with
  | [] => throw "Argument required: WHAT"
  | what :: rest => execute (("show:" +:+ to_lower what) :: rest)
  end.

(** The node at an index, if the index is in bounds. *)
Definition node_at (index : Z) (n : Nodes) : option nat :=
  if index <? Z.of_nat (length (m_nodes n)) then m_nodes n !! Z.to_nat index else None.

Definition print_node (index : Z) (n : NodeInformation) : M Entry unit :=
  id ← lift (hexdump (getId n) 32 false false);
  print ("nodes[" +:+ fmt_number 3 index +:+ "]    : " +:+ format_node (getNode n) +:+ nl +:+
         "  id          : " +:+ id +:+ nl +:+
         "  successor   : " +:+ format_node_opt (getSuccessor n) +:+ nl +:+
         "  predecessor : " +:+ format_node_opt (getPredecessor n) +:+ nl +:+
         "  bootstrap   : " +:+ format_node_opt (getBootstrapNode n) +:+ nl +:+ nl).

Fixpoint print_nodes (i : Z) (ls : list nat) : M Entry unit :=
  match ls with
  | [] => mret tt
  | l :: ls =>
      n ← deref l;
      print ("[" +:+ fmt_number 3 i +:+ "] : " +:+ format_node (getNode n) +:+ nl);;
      print_nodes (i + 1) ls
  end.

Definition cmd_show_nodes (execute : list string → M Entry unit) (args : list string) : M Entry unit :=
  if decide (head args = Some "data") then
    execute (("show:nodes:" +:+ to_lower "data") :: tail args)
  else
    e ← get_state;
    match match args with a :: _ => parse_number 32 a | [] => None end with
    | Some index =>
        match node_at index (nodes e) with
        | Some l => n ← deref l; print_node index n
        | None => throw ("Index [" +:+ to_string index +:+ "] out of bounds!")
        end
    | None => print_nodes 0 (m_nodes (nodes e))
    end.

Definition highlighter : string := "=======================================".

Fixpoint print_keys (i : Z) (items : list (list Z * (list Z * Z))) : M Entry unit :=
  match items with
  | [] => mret tt
  | kv :: items =>
      key ← lift (hexdump (sha256 kv.1) 32 false false);
      print (to_string i +:+ ". key = " +:+ key +:+ nl);;
      print_keys (i + 1) items
  end.

Definition cmd_show_data (execute : list string → M Entry unit) (args : list string) : M Entry unit :=
  match args with
  | [] => print "INDEX required!"
  | a :: _ =>
      match parse_number 32 a with
      | None => mret tt
      | Some index =>
          e ← get_state;
          match node_at index (nodes e) with
          | None => undefined "index past the end of a vector"
          | Some l =>
              n ← deref l;
              let items := std_items (getAllDataInNode n) in
              execute ["show"; "nodes"; to_string index];;
              print (nl +:+ highlighter +:+ nl);;
              (if decide (items = []) then
                 print ("No data items stored in node " +:+ to_string index +:+ nl)
               else print ("Data items in node:" +:+ nl);; print_keys 1 items);;
              print (highlighter +:+ nl)
          end
      end
  end.

(** *** Finger tables *)

Definition finger_eqb (a b : option Node) : bool :=
  match a, b with
  | Some a, Some b => Node_eqb a b
  | None, None => true
  | _, _ => false
  end.

(** A line of the listing: a finger, or a star for the fingers that equal both
    their neighbours. *)
Inductive finger_row := Row (i : nat) (f : option Node) | Star.

Fixpoint finger_rows (i : nat) (last_finger : option (option Node)) (printed_star : bool)
    (table : list (option Node)) : list finger_row :=
  match table with
  | [] => []
  | finger :: rest =>
      if match head rest, last_finger with
         | Some next, Some l => finger_eqb l finger && finger_eqb next finger
         | _, _ => false
         end
      then (if printed_star then [] else [Star]) ++ finger_rows (S i) (Some finger) true rest
      else Row i finger :: finger_rows (S i) (Some finger) false rest
  end.

Definition format_row (r : finger_row) : string :=
  match r with
  | Star => "*" +:+ nl
  | Row i f => "[" +:+ fmt_number 3 (Z.of_nat i) +:+ "] : " +:+ format_node_opt f +:+ nl
  end.

Definition cmd_show_fingers (args : list string) : M Entry unit :=
  match match args with a :: _ => parse_number 32 a | [] => None end with
  | None => throw "INDEX required!"
  | Some index =>
      e ← get_state;
      match node_at index (nodes e) with
      | None => throw ("Index [" +:+ to_string index +:+ "] out of bounds!")
      | Some l =>
          n ← deref l;
          print (String.concat "" (format_row <$> finger_rows 0 None false (m_fingerTable n)))
      end
  end.

(** ** The table of commands *)

(** [format_argument_choice]. *)
Definition format_argument_choice (metavar : string) (choices : list string) : string :=
  fmt_right 8 metavar +:+ ":    {" +:+ join choices ", " +:+ "}".

(** Name, brief and usage. *)
Definition m_commands : list (string * (string * string)) :=
  [("help", ("Print help for a command", "help [COMMAND]"));
   ("exit", ("Exit the program", "exit"));
   ("sleep", ("Wait some time before accepting new input", "sleep <SECONDS>"));
   ("repeat", ("Repeat the previous command", "repeat"));
   ("execute", ("Execute a script", "execute <PATH>"));
   ("add", ("Add node to the chord ring", "add [PORT]"));
   ("remove", ("Remove node(s) from the chord ring", "remove <INDEX> [COUNT]"));
   ("show", ("Show data depending on arguments",
             "show <WHAT> [ARGS...]" +:+ nl +:+ nl +:+ format_argument_choice "WHAT" ["nodes"; "data"; "fingers"]));
   ("show:nodes", ("List all Nodes, or information of one Node", "show nodes [INDEX]"));
   ("show:data", ("List all data items contained in Node", "show nodes [INDEX]"));
   ("show:fingers", ("Show finger table of a node", "show fingers <INDEX>"))].

Definition find_command (name : string) : option (string * string) :=
  snd <$> List.find (λ c, bool_decide (c.1 = name)) m_commands.

Definition has_colon (s : string) : bool := existsb (λ c, bool_decide (c = ":"%char)) (to_chars s).

Definition not_found (name : string) : string := "Command " +:+ quote +:+ name +:+ quote +:+ " not found!".

(** The commands are listed in the order of the unordered map. *)
Definition cmd_help (args : list string) : M Entry unit :=
  match args with
  | [] =>
      print ("Commands:" +:+ nl +:+ String.concat "" (
        (λ name, match find_command name with
                 | Some c => if has_colon name then "" else fmt_left 12 name +:+ " : " +:+ c.1 +:+ nl
                 | None => ""
                 end) <$> listing))
  | _ =>
      let str := join args ":" in
      match find_command str with
      | Some c => print (c.1 +:+ nl +:+ nl +:+ "Usage:" +:+ nl +:+ c.2 +:+ nl)
      | None => throw (not_found str)
      end
  end.

(** The [execute] member of a command; [execute] is [Entry::execute]. *)
Definition run_command (execute : list string → M Entry unit) (cmd : string) (args : list string)
    : option (M Entry unit) :=
  if decide (cmd = "help") then Some (cmd_help args)
  else if decide (cmd = "exit") then Some (cmd_exit args)
  else if decide (cmd = "sleep") then Some (cmd_sleep args)
  else if decide (cmd = "repeat") then Some cmd_repeat
  else if decide (cmd = "execute") then Some (cmd_execute args)
  else if decide (cmd = "add") then Some (cmd_add args)
  else if decide (cmd = "remove") then Some (cmd_remove args)
  else if decide (cmd = "show") then Some (cmd_show execute args)
  else if decide (cmd = "show:nodes") then Some (cmd_show_nodes execute args)
  else if decide (cmd = "show:data") then Some (cmd_show_data execute args)
  else if decide (cmd = "show:fingers") then Some (cmd_show_fingers args)
  else None.

(** [cmd.replace(pos, 1, " ")] at the first colon. *)
Fixpoint replace_colon (l : chars) : chars :=
  match l with
  | c :: l => if bool_decide (c = ":"%char) then " "%char :: l else c :: replace_colon l
  | [] => []
  end.

(** [Entry::execute]: exceptions of the command are printed. Commands call
    [execute] at most four deep. *)
Fixpoint execute (fuel : nat) (args : list string) : M Entry unit :=
  match fuel, args with
  | O, _ => out_of_fuel
  | S _, [] => undefined "front of an empty vector"
  | S fuel, cmd :: args =>
      match run_command (execute fuel) cmd args with
      | Some body => promise_then body mret (λ what, print (what +:+ nl))
      | None => print (not_found (of_chars (replace_colon (to_chars cmd))) +:+ nl)
      end
  end.

Definition execute_depth : nat := 5.

(** ** The main loop *)

(** The part of a turn after a line is at hand; the result tells whether the
    loop goes on. *)
Definition run_line (line : string) : M Entry bool :=
  match tokenize line with
  | [] => mret true
  | t :: ts =>
      modify (λ e, with_script
        (with_repeat false (if decide (t = "repeat") then script e else with_last line (script e))) e);;
      execute execute_depth (t :: ts);;
      mret (negb (bool_decide (line = "exit")))
  end.

(** [std::getline] from the innermost script or the terminal. *)
Definition next_line (s : Script) : option (string * Script) :=
  match m_input_files s with
  | (line :: lines) :: files =>
      Some (line, mkScript (stdin_lines s) (lines :: files) (m_input_filenames s) (m_lastEnteredCommand s) (isRepeatSet s))
  | [] :: _ => None
  | [] =>
      match stdin_lines s with
      | line :: lines =>
          Some (line, mkScript lines [] (m_input_filenames s) (m_lastEnteredCommand s) (isRepeatSet s))
      | [] => None
      end
  end.

(** The end of a script. *)
Definition pop_script (file : string) (s : Script) : Script :=
  mkScript (stdin_lines s) (tail (m_input_files s)) (removelast (m_input_filenames s))
    ("execute " +:+ file) (isRepeatSet s).

Definition shell_turn : M Entry bool :=
  e ← get_state;
  if isRepeatSet (script e) then
    if decide (m_lastEnteredCommand (script e) = "") then
      print ("repeat cannot be the first command. Enter any other command." +:+ nl);;
      modify (λ e, with_script (with_repeat false (script e)) e);;
      mret true
    else run_line (m_lastEnteredCommand (script e))
  else
    match next_line (script e) with
    | Some (line, s) =>
        modify (with_script s);;
        run_line (strip_comment line)
    | None =>
        match m_input_files (script e) with
        | [] => mret false
        | _ :: _ =>
            match last (m_input_filenames (script e)) with
            | Some f => modify (with_script (pop_script f (script e)));; mret true
            | None => undefined "back of an empty vector"
            end
        end
    end.

Fixpoint shell_loop (fuel : nat) : M Entry Z :=
  match fuel with
  | O => out_of_fuel
  | S fuel => goes_on ← shell_turn; if (goes_on : bool) then shell_loop fuel else mret 0
  end.

(** The startup script, if the configuration names one. *)
Definition run_startup : M Entry unit :=
  e ← get_state;
  match startup_script (m_conf e) with
  | Some s => if decide (s = "") then mret tt else execute execute_depth ["execute"; s]
  | None => mret tt
  end.

Definition Entry_mainLoop (fuel : nat) : M Entry Z := run_startup;; shell_loop fuel.

End Shell.
