(* ===== verification/Shell.v ===== *)
(** * The shell: theorems

    On the definitions of Entry.v:
    - the tokens of a line are the matches of the regular expression the code
      searches for, and a line of words is cut back into these words;
    - the listing of a finger table determines the table;
    - the nodes and the script stack stay consistent in every reachable state
      ([entry_ok]), which commands are undefined, and what [remove] erases;
    - the main loop ends for every finite input, with scripts that may run each
      other ([shell_terminates]). *)

From S2P Require Import Prelude Util Ring NodeInfo Network Invariant Regex Config Entry.

(** ** Tokens *)

(** The matches found by a regular-expression iterator: at each position the
    longest match, and one character further where there is none. *)
Inductive regex_tokens (r : regex) : chars → list chars → Prop :=
| rt_end : regex_tokens r [] []
| rt_match t rest ts :
    t ≠ [] → matches r t →
    (∀ t' rest', t ++ rest = t' ++ rest' → matches r t' → (length t' ≤ length t)%nat) →
    regex_tokens r rest ts → regex_tokens r (t ++ rest) (t :: ts)
| rt_skip c l ts :
    (∀ t rest, c :: l = t ++ rest → ¬ matches r t) →
    regex_tokens r l ts → regex_tokens r (c :: l) ts.

Lemma matches_token t : matches re_token t ↔
  (∃ inner, t = "["%char :: inner ++ ["]"%char] ∧ Forall (λ c, is_close c = false) inner) ∨
  (t ≠ [] ∧ Forall (λ c, word_char c = true) t).
Proof.
  unfold re_token. rewrite matches_alt, matches_plus_char. apply or_iff_compat_r.
  rewrite matches_cat. setoid_rewrite matches_cat. setoid_rewrite matches_char.
  setoid_rewrite matches_star_char. split.
  - intros (? & ? & -> & (o & -> & Ho) & inner & ? & -> & Hi & (c & -> & Hc)).
    apply bool_decide_eq_true in Ho as ->. apply bool_decide_eq_true in Hc as ->.
    exists inner. split; [done|]. eapply Forall_impl; [exact Hi|]. cbn. by intros x ?%negb_true_iff.
  - intros (inner & -> & Hi). exists ["["%char], (inner ++ ["]"%char]). split; [done|].
    split; [by exists "["%char|]. exists inner, ["]"%char]. split_and!; [done| |by exists "]"%char].
    eapply Forall_impl; [exact Hi|]. cbn. intros x ->. done.
Qed.

(** A word is scanned to its end. *)
Lemma scan_word acc w rest :
  Forall (λ c, word_char c = true) w →
  match rest with c :: _ => word_char c = false | [] => True end →
  scan_tokens (InWord acc) (w ++ rest) = (rev acc ++ w) :: scan_tokens Between rest.
Proof.
  intros Hw Hrest. revert acc. induction Hw as [|c w Hc Hw IH]; intros acc; cbn [app].
  - rewrite app_nil_r. destruct rest as [|c rest]; [done|]. cbn [scan_tokens]. by rewrite Hrest.
  - cbn [scan_tokens]. rewrite Hc, IH. cbn [rev]. by rewrite <- app_assoc.
Qed.

(** A bracket is scanned to the next closing one. *)
Lemma scan_bracket acc inner rest :
  Forall (λ c, is_close c = false) inner →
  scan_tokens (InBracket acc) (inner ++ "]"%char :: rest)
  = (rev acc ++ inner ++ ["]"%char]) :: scan_tokens Between rest.
Proof.
  intros Hi. revert acc. induction Hi as [|c inner Hc Hi IH]; intros acc; cbn [app scan_tokens].
  - done.
  - rewrite Hc, IH. cbn [rev]. by rewrite <- app_assoc.
Qed.

Lemma split_close l : existsb is_close l = true →
  ∃ inner rest, l = inner ++ "]"%char :: rest ∧ Forall (λ c, is_close c = false) inner.
Proof.
  induction l as [|c l IH]; cbn; [done|]. destruct (is_close c) eqn:Hc; cbn.
  - intros _. apply bool_decide_eq_true in Hc as ->. by exists [], l.
  - intros (inner & rest & -> & Hi)%IH. exists (c :: inner), rest. split; [done|by constructor].
Qed.

Lemma split_word l : ∃ w rest, l = w ++ rest ∧ Forall (λ c, word_char c = true) w ∧
  match rest with c :: _ => word_char c = false | [] => True end.
Proof.
  induction l as [|c l (w & rest & -> & Hw & Hr)]; [by exists [], []|].
  destruct (word_char c) eqn:Hc; [exists (c :: w), rest|exists [], (c :: w ++ rest)]; split_and!; auto.
Qed.

(** The first closing bracket is the same in every reading. *)
Lemma close_unique inner rest inner' rest' :
  Forall (λ c, is_close c = false) inner → Forall (λ c, is_close c = false) inner' →
  inner ++ "]"%char :: rest = inner' ++ "]"%char :: rest' → inner = inner'.
Proof.
  intros Hi. revert inner'. induction Hi as [|c inner Hc Hi IH]; intros inner' Hi' E;
    destruct Hi' as [|c' inner' Hc' Hi']; cbn in E; [done| | |].
  - by injection E as <- _.
  - by injection E as -> _.
  - injection E as -> E. f_equal. by eapply IH.
Qed.

(** Words that go on cannot be matched further than their end. *)
Lemma word_longest w rest t' rest' :
  Forall (λ c, word_char c = true) w →
  match rest with c :: _ => word_char c = false | [] => True end →
  w ++ rest = t' ++ rest' → Forall (λ c, word_char c = true) t' → (length t' ≤ length w)%nat.
Proof.
  intros Hw Hr. revert t'. induction Hw as [|c w Hc Hw IH]; intros t' E Ht'.
  - cbn in E. subst rest. destruct Ht' as [|c t' Hc Ht']; [cbn; lia|]. cbn in Hr. by rewrite Hc in Hr.
  - destruct Ht' as [|c' t' Hc' Ht']; cbn; [lia|]. injection E as _ E. specialize (IH t' E Ht'). lia.
Qed.

Lemma scan_is_iteration n l : (length l ≤ n)%nat → regex_tokens re_token l (scan_tokens Between l).
Proof.
  revert l. induction n as [|n IH]; intros [|c l] Hl; try (by apply rt_end); [cbn in Hl; lia|].
  cbn in Hl. cbn [scan_tokens]. destruct (is_open c) eqn:Ho.
  - apply bool_decide_eq_true in Ho as ->. destruct (existsb is_close l) eqn:He.
    + apply split_close in He as (inner & rest & -> & Hi). rewrite scan_bracket by done.
      change ("["%char :: inner ++ "]"%char :: rest) with (("["%char :: inner) ++ ["]"%char] ++ rest).
      rewrite app_assoc. apply rt_match.
      * done.
      * apply matches_token. left. by exists inner.
      * intros t' rest' E [(inner' & -> & Hi')|[_ Hw]]%matches_token.
        -- cbn in E. injection E as E. rewrite <- !app_assoc in E. cbn in E.
           apply close_unique in E as ->; done.
        -- destruct Hw as [|x t' Hx _]; [cbn; lia|]. cbn in E. injection E as <- _. done.
      * apply IH. rewrite length_app in Hl. cbn in Hl. lia.
    + apply rt_skip; [|apply IH; lia]. intros t rest E [(inner & -> & _)|[Hn Hw]]%matches_token.
      * cbn in E. injection E as ->. rewrite <- app_assoc, existsb_app in He. cbn in He.
        by rewrite orb_true_r in He.
      * destruct Hw as [|x t Hx _]; [done|]. cbn in E. injection E as <- _. done.
  - destruct (word_char c) eqn:Hc.
    + destruct (split_word l) as (w & rest & -> & Hw & Hr). rewrite scan_word by done.
      rewrite app_comm_cons. apply rt_match.
      * done.
      * apply matches_token. right. split; [done|by constructor].
      * intros t' rest' E [(inner' & -> & _)|[_ Hw']]%matches_token.
        -- cbn in E. injection E as -> _. done.
        -- eapply word_longest; [|exact Hr|exact E|exact Hw']. by constructor.
      * apply IH. rewrite length_app in Hl. lia.
    + apply rt_skip; [|apply IH; lia]. intros t rest E [(inner & -> & _)|[Hn Hw]]%matches_token.
      * cbn in E. injection E as -> _. done.
      * destruct Hw as [|x t Hx _]; [done|]. cbn in E. injection E as <- _. by rewrite Hx in Hc.
Qed.

(** Cutting a line into tokens is the iteration of the regular expression of
    the code over the line: at each position the longest match, a bracketed
    group or a run of other characters, and characters no match starts at are
    skipped. *)
Theorem tokenize_is_regex_iteration line :
  regex_tokens re_token (to_chars line) (to_chars <$> tokenize line).
Proof.
  unfold tokenize. rewrite <- list_fmap_compose.
  replace (to_chars ∘ of_chars <$> _) with (scan_tokens Between (to_chars line)).
  - by eapply scan_is_iteration.
  - symmetry. erewrite list_fmap_ext; [apply list_fmap_id|]. intros i l _. apply to_of_chars.
Qed.

(** A token without blanks and brackets. *)
Definition word (s : string) : Prop := to_chars s ≠ [] ∧ Forall (λ c, word_char c = true) (to_chars s).

Lemma scan_start_word w rest : w ≠ [] → Forall (λ c, word_char c = true) w →
  match rest with c :: _ => word_char c = false | [] => True end →
  scan_tokens Between (w ++ rest) = w :: scan_tokens Between rest.
Proof.
  intros Hn Hw Hr. destruct Hw as [|c w Hc Hw]; [done|]. cbn [app scan_tokens].
  assert (is_open c = false) as ->. { destruct (is_open c) eqn:E; [|done]. by apply bool_decide_eq_true in E as ->. }
  rewrite Hc, scan_word; done.
Qed.

Lemma tokenize_first w rest : word w →
  match to_chars rest with c :: _ => word_char c = false | [] => True end →
  tokenize (w +:+ rest) = w :: tokenize rest.
Proof.
  intros [Hn Hw] Hr. unfold tokenize. rewrite to_chars_app, scan_start_word by done.
  cbn. by rewrite of_to_chars.
Qed.

Lemma tokenize_blank rest : tokenize (" " +:+ rest) = tokenize rest.
Proof. done. Qed.

Lemma join_cons w v ws d : join (w :: v :: ws) d = w +:+ d +:+ join (v :: ws) d.
Proof.
  unfold join. cbn [fold_left]. revert v w. induction ws as [|x ws IH]; intros v w; cbn [fold_left]; [done|].
  rewrite (IH x (w +:+ d +:+ v)). rewrite (IH x v). by rewrite !string_app_assoc.
Qed.

(** A command line made of words with blanks between them is cut into exactly
    these words. *)
Theorem tokenize_words ws : Forall word ws → tokenize (join ws " ") = ws.
Proof.
  induction 1 as [|w ws Hw Hws IH]; [done|]. destruct ws as [|v ws].
  - cbn [join fold_left]. rewrite <- (string_app_nil_r w) at 1. by rewrite (tokenize_first w "").
  - rewrite join_cons, tokenize_first; [|done|done]. by rewrite tokenize_blank, IH.
Qed.

Lemma tokenize_words_witness : tokenize "remove 1 2" = ["remove"; "1"; "2"].
Proof.
  apply (tokenize_words ["remove"; "1"; "2"]). repeat (constructor; [split; [done|by repeat constructor]|]). constructor.
Defined.

(** ** The listing of a finger table *)

Section Fingers.
Context `{HashFns}.
Implicit Types (f g : option Node) (t : list (option Node)).

(** What a reader makes of the listing: the lines left out repeat the last
    finger. *)
Fixpoint read_rows (i : nat) (last_finger : option Node) (rows : list finger_row) : list (option Node) :=
  match rows with
  | [] => []
  | Star :: rows => read_rows i last_finger rows
  | Row j f :: rows => replicate (j - i) last_finger ++ f :: read_rows (S j) f rows
  end.

Lemma finger_eqb_refl f : finger_eqb f f = true.
Proof. destruct f; [|done]. by apply bool_decide_eq_true. Qed.

Lemma finger_eqb_sym f g : finger_eqb f g = finger_eqb g f.
Proof. destruct f, g; try done. cbn. unfold Node_eqb. by apply bool_decide_ext. Qed.

Lemma finger_eqb_trans f g h : finger_eqb f g = true → finger_eqb g h = true → finger_eqb f h = true.
Proof.
  destruct f, g, h; try done. cbn. unfold Node_eqb. rewrite !bool_decide_eq_true. congruence.
Qed.

#[local] Instance finger_equiv : Equivalence (λ f g, finger_eqb f g = true).
Proof.
  split; [intros f; apply finger_eqb_refl| |intros f g h; apply finger_eqb_trans].
  intros f g E. by rewrite finger_eqb_sym.
Qed.

(** With [k] fingers already left out, all equal to the last one printed. *)
Lemma read_finger_rows t i k l last_finger star :
  (k ≤ i)%nat → match last_finger with Some g => finger_eqb g l = true | None => k = 0%nat end →
  (k ≠ 0%nat → t ≠ [] ∧ finger_eqb (default None (head t)) l = true) →
  Forall2 (λ f g, finger_eqb f g = true)
    (read_rows (i - k) l (finger_rows i last_finger star t)) (replicate k l ++ t).
Proof.
  revert i k l last_finger star. induction t as [|f t IH]; intros i k l last_finger star Hk Hl Ht.
  { destruct k; [|by destruct Ht]. constructor. }
  cbn [finger_rows]. destruct (match head t, last_finger with Some _, Some _ => _ | _, _ => _ end) eqn:E.
  - destruct t as [|g t]; [done|]. cbn [head] in E. destruct last_finger as [lf|]; [|done].
    apply andb_true_iff in E as [E1 E2].
    assert (finger_eqb f l = true) as Hfl. { rewrite finger_eqb_sym in E1. by eapply finger_eqb_trans. }
    assert (Forall2 (λ f g, finger_eqb f g = true)
      (read_rows (S i - S k) l (finger_rows (S i) (Some f) true (g :: t))) (replicate (S k) l ++ g :: t)) as HI.
    { apply IH; [lia|done|]. intros _. split; [done|]. cbn. by eapply finger_eqb_trans. }
    cbn [Nat.sub] in HI. rewrite replicate_S_end, <- app_assoc in HI. cbn [app] in HI.
    assert (Forall2 (λ f g, finger_eqb f g = true)
      (read_rows (i - k) l (finger_rows (S i) (Some f) true (g :: t))) (replicate k l ++ f :: g :: t)) as HI'.
    { etrans; [exact HI|]. apply Forall2_app; [reflexivity|]. constructor; [by rewrite finger_eqb_sym|reflexivity]. }
    by destruct star.
  - cbn [read_rows]. replace (i - (i - k))%nat with k by lia.
    apply Forall2_app; [reflexivity|]. constructor; [apply finger_eqb_refl|].
    replace (S i) with (S i - 0)%nat at 1 by lia. apply (IH (S i) 0%nat f (Some f) false); [lia|apply finger_eqb_refl|done].
Qed.

(** The listing of [show fingers] determines the finger table: reading it
    with every left-out line as a repetition of the line before gives, finger
    by finger, the nodes of the table. *)
Theorem finger_listing_complete t :
  Forall2 (λ f g, finger_eqb f g = true) (read_rows 0 None (finger_rows 0 None false t)) t.
Proof. by apply (read_finger_rows t 0 0 None None false). Qed.

End Fingers.

(** ** Removing nodes *)

Lemma digits_value_nonneg l : Forall (λ c, is_digit c = true) l → 0 <= digits_value l.
Proof.
  induction l as [|c l IH] using rev_ind; [done|]. rewrite Forall_app, Forall_singleton. intros [Hl Hc].
  rewrite digits_value_app. specialize (IH Hl). unfold digit_value, byte_of_ascii.
  apply andb_true_iff in Hc as [Hc%Nat.leb_le _]. unfold Ascii.nat_of_ascii in Hc. lia.
Qed.

Lemma leading_digits_digits l : Forall (λ c, is_digit c = true) (leading_digits l).
Proof. induction l as [|c l IH]; cbn; [constructor|]. destruct (is_digit c) eqn:E; by constructor. Qed.

Lemma parse_number_range w s v : 0 <= w → parse_number w s = Some v → 0 <= v < 2 ^ w.
Proof.
  intros Hw. unfold parse_number. destruct (re_match _ _); [|done]. intros [= <-]. unfold extract_unsigned.
  set (ds := leading_digits _). pose proof (digits_value_nonneg ds (leading_digits_digits _)).
  destruct (Z.leb_spec (2 ^ w) (digits_value ds)); [lia|].
  match goal with |- context [if ?b then wrap _ _ else _] => destruct b end; [by apply wrap_range|lia].
Qed.

Lemma lookup_erase {A} i k (l : list A) j : (i ≤ length l)%nat →
  erase i k l !! j = if (j <? i)%nat then l !! j else l !! (j + k)%nat.
Proof.
  intros Hi. unfold erase. destruct (Nat.ltb_spec j i).
  - rewrite lookup_app_l, lookup_take_lt; [done|lia|rewrite length_take; lia].
  - rewrite lookup_app_r, length_take, lookup_drop by (rewrite length_take; lia). f_equal. lia.
Qed.

(** The count a [remove] asks for. *)
Definition asked_count (rest : list string) : Z :=
  match rest with b :: _ => default 1 (parse_number 32 b) | [] => 1 end.

Lemma asked_count_nonneg rest : 0 <= asked_count rest.
Proof.
  unfold asked_count. destruct rest as [|b rest]; [lia|]. destruct (parse_number 32 b) as [c|] eqn:E; cbn; [|lia].
  apply parse_number_range in E; lia.
Qed.

Lemma remove_count_spec a rest index size : 0 <= index < size →
  if size <? u32 (index + asked_count rest) then is_Exn (remove_count (a :: rest) index size) = true
  else remove_count (a :: rest) index size = Ok (asked_count rest).
Proof.
  intros Hi. unfold remove_count, asked_count. destruct rest as [|b rest].
  2: destruct (parse_number 32 b) as [c|] eqn:E; cbn; [by destruct (size <? u32 (index + c))|].
  all: destruct (Z.ltb_spec size (u32 (index + 1))) as [Hlt|]; [|done].
  all: pose proof (Z.mod_le (index + 1) (2 ^ 32)) as Hle; unfold u32, wrap in Hlt; lia.
Qed.

Section Removal.
Context (stops : Nodes → DhtObj → bool).

Lemma remove_range_in index count e : index + count <= Z.of_nat (length (m_nodes (nodes e))) →
  remove_range stops index count e
  = if await_deletions stops (Z.to_nat index) (Z.to_nat count) (nodes e)
    then (Ok tt, with_nodes (remove_nodes (Z.to_nat index) (Z.to_nat count) (nodes e)) e) else (NoFuel, e).
Proof.
  intros Hle. unfold remove_range. rewrite bind_get.
  destruct (Z.ltb_spec (Z.of_nat (length (m_nodes (nodes e)))) (index + count)); [lia|]. by destruct (await_deletions _ _ _ _).
Qed.

Lemma remove_range_out index count e : Z.of_nat (length (m_nodes (nodes e))) < index + count →
  remove_range stops index count e = (UB "iterator past the end", e).
Proof. intros Hlt. unfold remove_range. rewrite bind_get. by destruct (Z.ltb_spec (Z.of_nat (length (m_nodes (nodes e)))) (index + count)); [|lia]. Qed.

Lemma lookup_remove {A} (l : list A) index count j : 0 <= index <= Z.of_nat (length l) →
  erase (Z.to_nat index) (Z.to_nat count) l !! j
  = if Z.of_nat j <? index then l !! j else l !! (j + Z.to_nat count)%nat.
Proof.
  intros Hi. rewrite lookup_erase by lia.
  destruct (Nat.ltb_spec j (Z.to_nat index)), (Z.ltb_spec (Z.of_nat j) index); try lia; done.
Qed.

(** What [cmd_remove] does with an index in bounds. *)
Lemma cmd_remove_in a rest e index : parse_number 32 a = Some index →
  index < Z.of_nat (length (m_nodes (nodes e))) →
  if Z.of_nat (length (m_nodes (nodes e))) <? u32 (index + asked_count rest)
  then is_Exn (cmd_remove stops (a :: rest) e).1 = true ∧ (cmd_remove stops (a :: rest) e).2 = e
  else cmd_remove stops (a :: rest) e = remove_range stops index (asked_count rest) e.
Proof.
  intros Ha Hlt. unfold cmd_remove. rewrite Ha, bind_get. apply parse_number_range in Ha; [|lia].
  destruct (Z.leb_spec (Z.of_nat (length (m_nodes (nodes e)))) index) as [|_]; [lia|].
  pose proof (remove_count_spec a rest index (Z.of_nat (length (m_nodes (nodes e)))) ltac:(lia)) as Hc.
  destruct (_ <? u32 _); [by destruct (remove_count _ _ _)|by rewrite Hc].
Qed.

(** [remove INDEX COUNT] (one node without a usable count) refuses an index
    out of bounds, erases exactly the nodes and [Dht]s at the positions from
    the index on, as many as the count, if that many are there (it waits for ever
    if one of the [Dht]s does not stop), and refuses
    larger counts, except where the 32-bit sum of index and count wraps around
    to a number in bounds: then it erases past the end of the vectors, which
    is undefined. *)
Theorem remove_spec a rest e index :
  parse_number 32 a = Some index → length (m_DHTs (nodes e)) = length (m_nodes (nodes e)) →
  let size := Z.of_nat (length (m_nodes (nodes e))) in
  let count := asked_count rest in
  let r := cmd_remove stops (a :: rest) e in
  (size <= index → is_Exn r.1 = true ∧ r.2 = e) ∧
  (index < size → index + count <= size →
     if await_deletions stops (Z.to_nat index) (Z.to_nat count) (nodes e) then
     r.1 = Ok tt ∧
     (∀ j, let j' := if Z.of_nat j <? index then j else (j + Z.to_nat count)%nat in
          m_nodes (nodes r.2) !! j = m_nodes (nodes e) !! j' ∧ m_DHTs (nodes r.2) !! j = m_DHTs (nodes e) !! j')
     else r = (NoFuel, e)) ∧
  (index < size < index + count →
     r.2 = e ∧ if size <? u32 (index + count) then is_Exn r.1 = true else is_UB r.1 = true).
Proof.
  intros Ha Hlen size count r. pose proof (parse_number_range 32 a index ltac:(lia) Ha) as Hi.
  pose proof (asked_count_nonneg rest) as Hc. fold count in Hc.
  split; [|split].
  - intros Hle. unfold r, cmd_remove. rewrite Ha, bind_get. fold size. by destruct (Z.leb_spec size index); [|lia].
  - intros Hlt Hle. pose proof (cmd_remove_in a rest e index Ha Hlt) as Hr. fold r size count in Hr.
    pose proof (Z.mod_le (index + count) (2 ^ 32)) as Hm. unfold u32, wrap in Hr.
    destruct (Z.ltb_spec size ((index + count) `mod` 2 ^ 32)); [lia|].
    rewrite Hr, (remove_range_in index count e Hle). destruct (await_deletions _ _ _ _); [|done]. split; [done|]. intros j. cbn.
    rewrite !lookup_remove by lia. by case_match.
  - intros [Hlt Hgt]. pose proof (cmd_remove_in a rest e index Ha Hlt) as Hr. fold r size count in Hr.
    destruct (size <? u32 (index + count)); [tauto|]. by rewrite Hr, (remove_range_out index count e Hgt).
Qed.

End Removal.

Section ShellProofs.
Context `{HashFns} `{FmtFns}.
Context (open_file : string → option (list string)).
Context (bind_error : list Z → Z → option string).
Context (listing : list string).
Context (stops : Nodes → DhtObj → bool).

(** ** The nodes of the process *)

(** Every [Dht] has its node at the same index, no node is there twice, the
    store holds exactly the nodes, they are well-formed, and no two APIs serve
    on the same port (port 0 lets the system choose one). *)
Record nodes_ok (n : Nodes) : Prop := {
  ok_dhts : dht_node <$> m_DHTs n = m_nodes n;
  ok_distinct : NoDup (m_nodes n);
  ok_store l : is_Some (store n !! l) ↔ l ∈ m_nodes n;
  ok_state l x : store n !! l = Some x → node_ok x;
  ok_ports : NoDup (filter (λ p, p ≠ 0) (api_ports n));
}.

(** A port in use cannot be bound again. *)
Hypothesis bind_distinct : ∀ used p, p ≠ 0 → bind_error used p = None → p ∉ used.

Lemma nodes_ok_start : nodes_ok (mkNodes ∅ initial_statics [] []).
Proof.
  constructor; cbn; [done|constructor| |done|constructor].
  intros l. rewrite lookup_empty. split; [intros [? ?]; done|intros ?%elem_of_nil; done].
Qed.

Lemma new_node_ok (b : Node) host port :
  canonical b → node_ok (setBootstrapNode (Some b) (NodeInformation_ctor host port)).
Proof. intros Hb. destruct (node_ok_ctor host port). by constructor. Qed.

Lemma nodes_ok_push conf port n : nodes_ok n →
  nodes_ok (push_dht (push_node conf port n).1 (push_node conf port n).2).
Proof.
  intros [Hd Hn Hs Hx Hp]. cbn. set (l := fresh (dom (store n))).
  assert (l ∉ m_nodes n) as Hl.
  { intros Hin%Hs. by apply (is_fresh (dom (store n))), elem_of_dom. }
  constructor; cbn.
  - by rewrite fmap_app, Hd.
  - apply NoDup_app. split_and!; [done| |apply NoDup_singleton]. intros x Hx' ->%list_elem_of_singleton. done.
  - intros l'. rewrite elem_of_app, list_elem_of_singleton, <- Hs, lookup_insert_is_Some'.
    split; intros [?|?]; auto.
  - intros l' x. rewrite lookup_insert_Some. intros [[_ <-]|[_ Hx']]; [|by eapply Hx]. by apply new_node_ok.
  - unfold api_ports in *. cbn. by rewrite omap_app, app_nil_r.
Qed.

Lemma nodes_ok_statics f n : nodes_ok n → nodes_ok (mkNodes (store n) f (m_DHTs n) (m_nodes n)).
Proof. by intros []. Qed.

Lemma alter_last {A} (f : A → A) l x : alter f (pred (length (l ++ [x]))) (l ++ [x]) = l ++ [f x].
Proof.
  rewrite length_app. cbn. rewrite Nat.add_1_r. cbn. induction l as [|y l IH]; [done|].
  exact (f_equal (cons y) IH).
Qed.

Lemma nodes_ok_api p n : (p ≠ 0 → p ∉ api_ports n) → nodes_ok n → nodes_ok (set_last_api p n).
Proof.
  intros Hp [Hd Hn Hs Hx Hports]. unfold set_last_api, api_ports in *.
  destruct (m_DHTs n) as [|d ds _] eqn:E using rev_ind; [by constructor; rewrite ?E|].
  rewrite alter_last. constructor; cbn; try done.
  - rewrite <- Hd. by rewrite !fmap_app.
  - unfold api_ports. cbn. rewrite omap_app in *. rewrite filter_app in *. cbn.
    apply NoDup_app in Hports as (H1 & _ & _). apply NoDup_app. split_and!; [done| |].
    + intros q Hq. destruct (decide (p ≠ 0)); cbn; [|by apply not_elem_of_nil].
      rewrite list_elem_of_singleton. intros ->. apply Hp; [done|]. rewrite elem_of_app. left.
      by apply list_elem_of_filter in Hq as [_ Hq].
    + destruct (decide (p ≠ 0)); cbn; [apply NoDup_singleton|constructor].
Qed.

Lemma elem_of_middle {A} (a b c : list A) x : NoDup (a ++ b ++ c) →
  x ∈ a ++ c ↔ x ∈ a ++ b ++ c ∧ x ∉ b.
Proof.
  intros (_ & H1 & (_ & H2 & _)%NoDup_app)%NoDup_app. rewrite !elem_of_app. split; [|tauto].
  intros [Hx|Hx]; split; auto.
  - intros Hb. apply (H1 x Hx), elem_of_app. by left.
  - intros Hb. by apply (H2 x Hb).
Qed.

Lemma split_three {A} i k (l : list A) : l = take i l ++ take k (drop i l) ++ drop (i + k) l.
Proof. by rewrite <- drop_drop, take_drop, take_drop. Qed.

Lemma elem_of_erase {A} i k (l : list A) x : NoDup l →
  x ∈ erase i k l ↔ x ∈ l ∧ x ∉ take k (drop i l).
Proof. intros Hl. rewrite (split_three i k l) in Hl. rewrite (split_three i k l) at 2. by apply elem_of_middle. Qed.

Lemma erase_sublist {A} i k (l : list A) : sublist (erase i k l) l.
Proof.
  unfold erase. rewrite <- (take_drop i l) at 3. apply sublist_app; [done|]. rewrite <- drop_drop. apply sublist_drop.
Qed.

Lemma sublist_ports (ds1 ds2 : list DhtObj) : sublist ds1 ds2 →
  sublist (filter (λ p, p ≠ 0) (omap dht_apiPort ds1)) (filter (λ p, p ≠ 0) (omap dht_apiPort ds2)).
Proof.
  induction 1 as [|d ds1 ds2 _ IH|d ds1 ds2 _ IH]; [done|..]; cbn; destruct (dht_apiPort d) as [p|]; try done.
  all: rewrite ?filter_cons; destruct (decide (p ≠ 0)); try done; by constructor.
Qed.

Lemma lookup_delete_all (m : gmap nat NodeInformation) ls l :
  fold_left (λ m l, delete l m) ls m !! l = if decide (l ∈ ls) then None else m !! l.
Proof.
  revert m. induction ls as [|x ls IH]; intros m; cbn [fold_left].
  { destruct (decide (l ∈ [])) as [Hin|]; [by apply elem_of_nil in Hin|done]. }
  rewrite IH. destruct (decide (l ∈ ls)), (decide (l ∈ x :: ls)) as [Hin|Hin]; try done.
  - exfalso. apply Hin. by right.
  - apply elem_of_cons in Hin as [->|Hin]; [apply lookup_delete_eq|done].
  - apply lookup_delete_ne. intros ->. apply Hin. by left.
Qed.

Lemma nodes_ok_remove i k n : nodes_ok n → nodes_ok (remove_nodes i k n).
Proof.
  intros [Hd Hn Hs Hx Hp]. constructor; cbn.
  - unfold erase. by rewrite fmap_app, fmap_take, fmap_drop, Hd.
  - eapply sublist_NoDup; [done|apply erase_sublist].
  - intros l. rewrite lookup_delete_all, elem_of_erase by done. rewrite <- Hs.
    destruct (decide _) as [Hin|Hin]; split.
    + by intros [? ?].
    + by intros [_ ?].
    + auto.
    + by intros [? _].
  - intros l x. rewrite lookup_delete_all. destruct (decide _); [done|]. apply Hx.
  - eapply sublist_NoDup; [exact Hp|]. unfold api_ports. cbn.
    apply sublist_ports, erase_sublist.
Qed.

(** ** What commands leave alone *)

(** A step of a command that neither opens a script nor asks for a repetition. *)
Definition calm (e e' : Entry) : Prop :=
  m_conf e' = m_conf e ∧ script e' = script e ∧ (nodes_ok (nodes e) → nodes_ok (nodes e')).

#[local] Instance calm_preorder : PreOrder calm.
Proof.
  split; [by intros e|]. intros e1 e2 e3 (H1 & H2 & H3) (H4 & H5 & H6).
  split_and!; [by rewrite H4|by rewrite H5|auto].
Qed.

Lemma keeps_print t : keeps calm (print t).
Proof. by apply keeps_modify. Qed.

Lemma keeps_deref l : keeps calm (deref l).
Proof. unfold deref. apply keeps_get. intros e. by destruct (store (nodes e) !! l). Qed.

Lemma keeps_update_nodes f : (∀ n, nodes_ok n → nodes_ok (f n)) → keeps calm (update_nodes f).
Proof. intros Hf. apply keeps_modify. intros e. split_and!; [done|done|apply Hf]. Qed.

Hint Resolve keeps_print keeps_deref keeps_update_nodes : keeps.

Lemma keeps_set_api p : keeps calm (set_api bind_error p).
Proof.
  unfold set_api. apply keeps_get. intros e. destruct (bind_error _ p) eqn:E; [done|].
  split_and!; [done|done|]. apply nodes_ok_api. intros Hp. by eapply bind_distinct.
Qed.

Hint Resolve keeps_set_api : keeps.

Lemma keeps_start_node first port api :
  (∀ n l, nodes_ok (push_dht l n) → nodes_ok (push_dht l (first n))) →
  keeps calm (start_node bind_error first port api).
Proof.
  intros Hf. unfold start_node. apply keeps_get. intros e. apply keeps_bind_at; [typeclasses eauto| |keep].
  split_and!; [done|done|]. intros Hn. apply Hf. by apply nodes_ok_push.
Qed.

(** What the constructor does between the node and the [Dht]. *)
Lemma nodes_ok_first cs i n l : nodes_ok (push_dht l n) →
  nodes_ok (push_dht l (if (i =? 0)%nat
    then mkNodes (store n) (setReplicationLimitOnEachNode (defaultReplicationLimit cs)
           (setDifficulty (PoW_Difficulty cs) (statics n))) (m_DHTs n) (m_nodes n)
    else n)).
Proof. intros Hok. destruct (i =? 0)%nat; [by apply (nodes_ok_statics _ (push_dht l n))|done]. Qed.

Lemma keeps_start_nodes cs n i p q : keeps calm (start_nodes bind_error cs n i p q).
Proof.
  revert i p q. induction n as [|n IH]; intros i p q; cbn [start_nodes]; [keep|].
  apply keeps_bind; [typeclasses eauto| |intros _; apply IH].
  apply keeps_start_node, nodes_ok_first.
Qed.

Hint Resolve keeps_start_node nodes_ok_remove : keeps.

Lemma keeps_addNode p : keeps calm (addNode bind_error p).
Proof. unfold addNode. keep. Qed.

Lemma keeps_remove args : keeps calm (cmd_remove stops args).
Proof. unfold cmd_remove, remove_range. keep. apply keeps_lift, _. Qed.

Lemma keeps_print_node i n : keeps calm (print_node i n).
Proof. unfold print_node. keep. Qed.

Lemma keeps_print_nodes i ls : keeps calm (print_nodes i ls).
Proof. revert i. induction ls as [|l ls IH]; intros i; cbn [print_nodes]; keep. Qed.

Lemma keeps_print_keys i items : keeps calm (print_keys i items).
Proof. revert i. induction items as [|kv items IH]; intros i; cbn [print_keys]; keep. Qed.

Hint Resolve keeps_addNode keeps_remove keeps_print_node keeps_print_nodes keeps_print_keys : keeps.

Lemma keeps_help args : keeps calm (cmd_help listing args).
Proof. unfold cmd_help. keep. Qed.

Lemma keeps_exit args : keeps calm (cmd_exit args).
Proof. unfold cmd_exit. keep. Qed.

Lemma keeps_sleep args : keeps calm (cmd_sleep args).
Proof. unfold cmd_sleep. keep. Qed.

Lemma keeps_show_fingers args : keeps calm (cmd_show_fingers args).
Proof. unfold cmd_show_fingers. keep. Qed.

Hint Resolve keeps_help keeps_exit keeps_sleep keeps_show_fingers : keeps.

#[local] Abbreviation exec := (execute open_file bind_error listing stops).
#[local] Abbreviation turn := (shell_turn open_file bind_error listing stops).

Lemma keeps_caught body : keeps calm body → keeps calm (promise_then body mret (λ what, print (what +:+ nl))).
Proof. intros Hb. keep. Qed.

(** The commands that show something leave the scripts alone. *)
Lemma execute_show fuel cmd args : String.prefix "show" cmd = true → keeps calm (exec fuel (cmd :: args)).
Proof.
  revert cmd args. induction fuel as [|fuel IH]; intros cmd args Hc; [apply keeps_lift; typeclasses eauto|].
  assert (∀ c a, String.prefix "show" c = true → keeps calm (exec fuel (c :: a))) as IH' by auto.
  cbn [execute]. unfold run_command.
  repeat (case_decide; [subst cmd; try done; apply keeps_caught; try (by eauto with keeps)|]).
  - unfold cmd_show. keep.
  - unfold cmd_show_nodes. keep.
  - unfold cmd_show_data. keep.
  - keep.
Qed.

(** What a command does to the scripts. *)
Inductive script_effect (cmd : string) (s : Script) : Script → Prop :=
| se_same : script_effect cmd s s
| se_repeat : cmd = "repeat" → script_effect cmd s (with_repeat true s)
| se_push path lines : cmd ≠ "repeat" → (length (m_input_files s) < 64)%nat → open_file path = Some lines →
    script_effect cmd s (push_script path lines s).

Definition command_step (cmd : string) (e e' : Entry) : Prop :=
  m_conf e' = m_conf e ∧ script_effect cmd (script e) (script e') ∧ (nodes_ok (nodes e) → nodes_ok (nodes e')).

Lemma calm_step cmd e e' : calm e e' → command_step cmd e e'.
Proof. intros (H1 & H2 & H3). split_and!; [done|rewrite H2; constructor|done]. Qed.

Lemma cmd_execute_eq arg args e : cmd_execute open_file (arg :: args) e =
  if (64 <=? length (m_input_files (script e)))%nat then (Exn "Recursion depth reached!", e)
  else match open_file (script_path (script e) arg) with
       | None => (Exn ("Could not open " +:+ script_path (script e) arg), e)
       | Some lines => (Ok tt, with_script (push_script (script_path (script e) arg) lines (script e)) e)
       end.
Proof. unfold cmd_execute, get_state, mbind, M_bind. case_match; [done|]. by case_match. Qed.

Lemma execute_step fuel cmd args e : command_step cmd e (exec fuel (cmd :: args) e).2.
Proof.
  destruct (String.prefix "show" cmd) eqn:Hs; [by apply calm_step, execute_show|].
  destruct fuel as [|fuel]; [by apply calm_step|].
  cbn [execute]. unfold run_command.
  case_decide; [apply calm_step, keeps_caught; eauto with keeps|].
  case_decide; [apply calm_step, keeps_caught; eauto with keeps|].
  case_decide; [apply calm_step, keeps_caught; eauto with keeps|].
  case_decide; [split_and!; [done|by apply se_repeat|done]|].
  case_decide.
  { subst cmd. destruct args as [|arg args]; [by apply calm_step|].
    unfold promise_then. rewrite cmd_execute_eq. destruct (64 <=? length (m_input_files (script e)))%nat eqn:El; [by apply calm_step|].
    destruct (open_file _) as [lines|] eqn:Eo; [|by apply calm_step].
    split_and!; [done| |done]. apply (se_push _ _ _ lines); [done|by apply Nat.leb_gt|exact Eo]. }
  do 2 (case_decide; [apply calm_step, keeps_caught; unfold cmd_add; eauto with keeps|]).
  repeat (case_decide; [by subst cmd|]). apply calm_step. apply keeps_print.
Qed.

(** Exceptions of commands do not leave [execute]. *)
Lemma execute_catches fuel args e what : (exec fuel args e).1 ≠ Exn what.
Proof.
  destruct fuel as [|fuel]; [done|]. destruct args as [|cmd args]; [done|]. cbn [execute].
  destruct (run_command _ _ _ _ _ cmd args) as [body|]; [|done]. unfold promise_then.
  by destruct (body e) as [[?|?|?|] e'].
Qed.

(** *** Commands end *)

(** The destructor of every [Dht] returns. *)
Definition all_stop : Prop := ∀ n d, stops n d = true.

Lemma all_stop_await i n ns : all_stop → await_deletions stops i n ns = true.
Proof. intros Hs. apply forallb_forall. intros d _. apply Hs. Qed.

Lemma hexdump_ends bytes offsets readable : hexdump bytes 32 offsets readable ≠ NoFuel.
Proof.
  unfold hexdump.
  destruct (rows_total (length bytes) (length bytes) 32 0 (hexdump_row bytes 32 offsets readable)) as [l ->];
    [lia|lia|done].
Qed.

Lemma ends_print t : ends (print t).
Proof. apply ends_modify. Qed.

Lemma ends_deref l : ends (deref l).
Proof. unfold deref. end_. Qed.

Hint Resolve ends_print ends_deref hexdump_ends : ends.

Lemma ends_start_node first port api : ends (start_node bind_error first port api).
Proof. unfold start_node, set_api, update_nodes. end_. Qed.

Hint Resolve ends_start_node : ends.

Lemma ends_addNode p : ends (addNode bind_error p).
Proof. unfold addNode. end_. Qed.

Lemma ends_print_node i n : ends (print_node i n).
Proof. unfold print_node. end_. Qed.

Lemma ends_print_nodes i ls : ends (print_nodes i ls).
Proof. revert i. induction ls as [|l ls IH]; intros i; cbn [print_nodes]; end_. Qed.

Lemma ends_print_keys i items : ends (print_keys i items).
Proof. revert i. induction items as [|kv items IH]; intros i; cbn [print_keys]; end_. Qed.

Hint Resolve ends_addNode ends_print_node ends_print_nodes ends_print_keys : ends.

(** How deep a command calls [execute]. *)
Definition command_depth (cmd : string) (args : list string) : nat :=
  if decide (cmd = "show") then if decide (head args = Some "nodes") then 3 else 5
  else if decide (cmd = "show:data") then 4
  else if decide (cmd = "show:nodes") then 2
  else 1.

Lemma depth_show_what what args : (command_depth ("show:" +:+ what) args ≤ 4)%nat.
Proof. unfold command_depth. case_decide; [done|]. repeat case_decide; lia. Qed.

Lemma depth_show what args : what ≠ "nodes" → command_depth "show" (what :: args) = 5%nat.
Proof.
  intros Hw. unfold command_depth. rewrite decide_True by done. rewrite decide_False; [done|].
  cbn. congruence.
Qed.

Lemma ends_execute fuel cmd args : all_stop → (command_depth cmd args ≤ fuel)%nat → ends (exec fuel (cmd :: args)).
Proof.
  intros Hstop. revert cmd args. induction fuel as [|fuel IH]; intros cmd args Hd.
  { unfold command_depth in Hd. repeat case_decide; lia. }
  cbn [execute]. unfold run_command.
  repeat (case_decide; [subst cmd; apply ends_then; [|by intros; apply ends_ret|by intros; apply ends_print]|]);
    [..|apply ends_print].
  - unfold cmd_help. end_.
  - unfold cmd_exit. end_.
  - unfold cmd_sleep. end_.
  - apply ends_modify.
  - unfold cmd_execute. end_.
  - unfold cmd_add. end_.
  - unfold cmd_remove. end_; [unfold remove_count; by repeat case_match|]. intros e. unfold remove_range.
    rewrite bind_get. case_match; [done|]. by rewrite all_stop_await.
  - unfold cmd_show. destruct args as [|what rest]; [end_|]. apply IH.
    destruct (decide (what = "nodes")) as [->|Hw].
    + change (2 ≤ fuel)%nat. change (3 ≤ S fuel)%nat in Hd. lia.
    + pose proof (depth_show_what (to_lower what) rest). rewrite depth_show in Hd by done. lia.
  - unfold cmd_show_nodes. change (2 ≤ S fuel)%nat in Hd.
    case_decide; [apply IH; change (1 ≤ fuel)%nat; lia|end_].
  - unfold cmd_show_data. change (4 ≤ S fuel)%nat in Hd. end_. apply IH. change (3 ≤ fuel)%nat. lia.
  - unfold cmd_show_fingers. end_.
Qed.

(** ** The scripts *)

(** The command that [repeat] runs again is a command other than [repeat]. *)
Definition repeatable (c : string) : Prop :=
  c = "" ∨ ∃ t ts, tokenize c = t :: ts ∧ t ≠ "repeat".

(** The stack of scripts and that of their names agree, it is at most 64 deep,
    and the last command can be repeated. *)
Record script_ok (s : Script) : Prop := {
  ok_names : length (m_input_files s) = length (m_input_filenames s);
  ok_depth : (length (m_input_files s) ≤ 64)%nat;
  ok_last : repeatable (m_lastEnteredCommand s);
}.

(** The script state in which the command [t] of a line runs. *)
Definition before_command (line t : string) (s : Script) : Script :=
  with_repeat false (if decide (t = "repeat") then s else with_last line s).

Lemma run_line_step line e :
  let r := run_line open_file bind_error listing stops line e in
  match tokenize line with
  | [] => r = (Ok true, e)
  | t :: _ =>
      m_conf r.2 = m_conf e ∧ script_effect t (before_command line t (script e)) (script r.2) ∧
      (nodes_ok (nodes e) → nodes_ok (nodes r.2)) ∧ (all_stop → r.1 ≠ NoFuel) ∧ (∀ what, r.1 ≠ Exn what) ∧
      (r.1 = Ok true → line ≠ "exit")
  end.
Proof.
  cbv zeta. destruct (tokenize line) as [|t ts] eqn:Ht; [unfold run_line; by rewrite Ht|].
  set (e1 := with_script (before_command line t (script e)) e).
  assert (run_line open_file bind_error listing stops line e
    = (exec execute_depth (t :: ts);; mret (negb (bool_decide (line = "exit")))) e1) as ->.
  { unfold run_line. by rewrite Ht. }
  pose proof (execute_step execute_depth t ts e1) as (H1 & H2 & H3).
  assert (command_depth t ts ≤ execute_depth)%nat as Hd.
  { unfold command_depth, execute_depth. repeat case_decide; lia. }
  pose proof (λ Hs, ends_execute execute_depth t ts Hs Hd e1) as H4.
  pose proof (execute_catches execute_depth (t :: ts) e1) as H5.
  unfold mbind, M_bind. destruct (exec execute_depth (t :: ts) e1) as [[[]|what|?|] e2]; cbn in *;
    [|by destruct (H5 what)|by split_and!|split_and!; try done; intros Hs; by destruct (H4 Hs)].
  split_and!; try done. intros E. injection E as E%negb_true_iff. by apply bool_decide_eq_false in E.
Qed.

Lemma script_ok_effect t s s' : script_ok s → script_effect t s s' → script_ok s'.
Proof.
  intros [H1 H2 H3] [|_|path lines _ Hl _]; constructor; cbn; auto.
  - rewrite length_app. cbn. lia.
  - by left.
Qed.

Lemma script_ok_before line t ts s : script_ok s → tokenize line = t :: ts → script_ok (before_command line t s).
Proof.
  intros [H1 H2 H3] Ht. unfold before_command. case_decide; constructor; cbn; auto.
  right. by exists t, ts.
Qed.

Lemma repeatable_execute file : repeatable ("execute " +:+ file).
Proof.
  right. exists "execute", (tokenize file). split; [|done].
  change ("execute " +:+ file) with ("execute" +:+ " " +:+ file).
  rewrite tokenize_first; [by rewrite tokenize_blank| |done]. split; [done|by repeat constructor].
Qed.

Lemma script_ok_pop f files file s : script_ok s → m_input_files s = f :: files → script_ok (pop_script file s).
Proof.
  intros [H1 H2 H3] E. rewrite E in *. cbn in *. constructor; cbn; rewrite ?E; cbn.
  - destruct (m_input_filenames s) as [|x l _] eqn:El using rev_ind; [done|].
    rewrite removelast_last. rewrite length_app in H1. cbn in H1. lia.
  - lia.
  - apply repeatable_execute.
Qed.

Lemma script_ok_next s line s' : script_ok s → next_line s = Some (line, s') → script_ok s'.
Proof.
  intros [H1 H2 H3] E. unfold next_line in E.
  destruct (m_input_files s) as [|[|l ls] files] eqn:Ef; [|done|].
  - destruct (stdin_lines s); [done|]. injection E as <- <-. by constructor.
  - injection E as <- <-. by constructor.
Qed.

(** ** The main loop ends *)

(** A bound on the turns that one line can cause, where [k] more scripts may be
    nested and no script has more than [L] lines: the line itself, its
    repetition, and the lines and the end of a script it opens. *)
Fixpoint line_cost (L k : nat) : nat :=
  match k with
  | O => 3
  | S k => L * line_cost L k + 3
  end.

Fixpoint files_cost (L : nat) (files : list (list string)) : nat :=
  match files with
  | [] => 0
  | f :: rest => length f * line_cost L (64 - length files) + 1 + files_cost L rest
  end.

Arguments line_cost : simpl never.

(** A bound on the turns that are left. *)
Definition turns_left (L : nat) (s : Script) : nat :=
  length (stdin_lines s) * line_cost L 64 + files_cost L (m_input_files s) +
  (if isRepeatSet s then line_cost L (64 - length (m_input_files s)) - 1 else 0).

Lemma line_cost_pos L k : (3 ≤ line_cost L k)%nat.
Proof. destruct k; unfold line_cost; lia. Qed.

Section Turns.
Context (L : nat).
Hypothesis short_files : ∀ path lines, open_file path = Some lines → (length lines ≤ L)%nat.

Lemma effect_turns t s s' : isRepeatSet s = false → script_effect t s s' →
  let c := line_cost L (64 - length (m_input_files s)) in
  (turns_left L s' ≤ turns_left L s + (c - 1) ∧
   (t ≠ "repeat" → turns_left L s' < turns_left L s + (c - 1)))%nat.
Proof.
  intros Hr He c. pose proof (line_cost_pos L (64 - length (m_input_files s))) as Hc. fold c in Hc.
  unfold turns_left. rewrite Hr. destruct He as [|Ht|path lines Ht Hd Ho]; cbn.
  - rewrite Hr. lia.
  - split; [fold c; lia|done].
  - rewrite Hr. assert (c = L * line_cost L (64 - S (length (m_input_files s))) + 3)%nat as ->.
    { unfold c. by replace (64 - length (m_input_files s))%nat with (S (64 - S (length (m_input_files s)))) by lia. }
    pose proof (short_files path lines Ho).
    assert (length lines * line_cost L (64 - S (length (m_input_files s)))
            ≤ L * line_cost L (64 - S (length (m_input_files s))))%nat by (apply Nat.mul_le_mono_r; lia).
    cbn [Nat.sub] in *. lia.
Qed.

Lemma next_line_turns s line s' : isRepeatSet s = false → next_line s = Some (line, s') →
  isRepeatSet s' = false ∧ length (m_input_files s') = length (m_input_files s) ∧
  turns_left L s = (turns_left L s' + line_cost L (64 - length (m_input_files s)))%nat.
Proof.
  intros Hr E. unfold next_line in E. unfold turns_left. rewrite Hr.
  destruct (m_input_files s) as [|[|l ls] files] eqn:Ef; [|done|].
  - destruct (stdin_lines s) as [|l ls]; [done|]. injection E as <- <-. cbn [stdin_lines m_input_files isRepeatSet].
    rewrite Hr. split_and!; [done|done|]. cbn [length files_cost]. rewrite Nat.sub_0_r. lia.
  - injection E as <- <-. cbn [stdin_lines m_input_files isRepeatSet]. rewrite Hr.
    split_and!; [done|done|]. cbn [length files_cost]. lia.
Qed.

Lemma before_turns line t s :
  turns_left L (before_command line t s) =
  (length (stdin_lines s) * line_cost L 64 + files_cost L (m_input_files s))%nat.
Proof. unfold before_command, turns_left. case_decide; cbn [stdin_lines m_input_files isRepeatSet with_repeat with_last]; lia. Qed.

Lemma before_files line t s : m_input_files (before_command line t s) = m_input_files s.
Proof. unfold before_command. by case_decide. Qed.

(** A turn that goes on leaves fewer turns. *)
Lemma turn_decreases e : script_ok (script e) → (turn e).1 = Ok true →
  (turns_left L (script (turn e).2) < turns_left L (script e))%nat.
Proof.
  intros [H1 H2 H3]. unfold shell_turn. rewrite bind_get.
  pose proof (line_cost_pos L (64 - length (m_input_files (script e)))) as Hc.
  destruct (isRepeatSet (script e)) eqn:Hr.
  - case_decide as Hl.
    { intros _. unfold print. rewrite !bind_modify. unfold turns_left. rewrite Hr.
      cbn [mret M_ret snd script with_script with_repeat stdin_lines m_input_files isRepeatSet]. lia. }
    destruct H3 as [?|(t & ts & Ht & Hn)]; [done|]. intros _.
    pose proof (run_line_step (m_lastEnteredCommand (script e)) e) as Hs. cbv zeta in Hs. rewrite Ht in Hs.
    destruct Hs as (_ & He & _). apply effect_turns in He as [_ He]; [|by unfold before_command; case_decide].
    specialize (He Hn). rewrite before_turns, before_files in He. unfold turns_left at 2. rewrite Hr. lia.
  - destruct (next_line (script e)) as [[line s]|] eqn:En.
    + apply next_line_turns in En as (Hr' & Hf & ->); [|done]. rewrite bind_modify.
      pose proof (run_line_step (strip_comment line) (with_script s e)) as Hs. cbv zeta in Hs.
      intros _. destruct (tokenize (strip_comment line)) as [|t ts]; [rewrite Hs; cbn; lia|].
      destruct Hs as (_ & He & _). apply effect_turns in He as [He _]; [|by unfold before_command; case_decide].
      rewrite before_turns, before_files in He. cbn [script with_script] in He. rewrite Hf in He.
      unfold turns_left at 2. lia.
    + unfold turns_left. destruct (m_input_files (script e)) as [|f files] eqn:Ef; [done|].
      destruct (last (m_input_filenames (script e))); [|done]. intros _. rewrite bind_modify.
      cbn [mret M_ret snd script with_script pop_script stdin_lines m_input_files isRepeatSet].
      rewrite Ef, Hr. cbn [tail files_cost]. lia.
Qed.

End Turns.

(** ** Reachable states of the shell *)

Definition entry_ok (e : Entry) : Prop := nodes_ok (nodes e) ∧ script_ok (script e).

Lemma entry_ok_step t e e' : command_step t e e' → entry_ok e → entry_ok e'.
Proof. intros (_ & H2 & H3) [Hn Hs]. split; [auto|by eapply script_ok_effect]. Qed.

Lemma turn_ok e : entry_ok e →
  entry_ok (turn e).2 ∧ (all_stop → (turn e).1 ≠ NoFuel) ∧ ∀ what, (turn e).1 ≠ Exn what.
Proof.
  intros [Hn Hs]. assert (∀ line e', entry_ok e' → entry_ok (run_line open_file bind_error listing stops line e').2 ∧
    (all_stop → (run_line open_file bind_error listing stops line e').1 ≠ NoFuel) ∧
    ∀ what, (run_line open_file bind_error listing stops line e').1 ≠ Exn what) as Hline.
  { intros line e' [Hn' Hs']. pose proof (run_line_step line e') as Hr. cbv zeta in Hr.
    destruct (tokenize line) as [|t ts] eqn:Ht; [by rewrite Hr|]. destruct Hr as (_ & He & Hk & Hf & Hx & _).
    split_and!; [|done|done]. split; [auto|]. eapply script_ok_effect; [|exact He]. by eapply script_ok_before. }
  unfold shell_turn. rewrite bind_get. destruct (isRepeatSet (script e)).
  - case_decide; [|by apply Hline]. unfold print. rewrite !bind_modify.
    split_and!; [|done|done]. split; [done|]. by destruct Hs.
  - destruct (next_line (script e)) as [[line s]|] eqn:En.
    + rewrite bind_modify. apply Hline. split; [done|]. by eapply script_ok_next.
    + destruct (m_input_files (script e)) as [|f files] eqn:Ef; [done|].
      destruct (last (m_input_filenames (script e))) as [file|] eqn:El; [|done]. rewrite bind_modify.
      split_and!; [|done|done]. split; [done|]. by eapply script_ok_pop.
Qed.

(** The states of a shell: after the constructor, after the startup script was
    opened, after a turn, and after a thread of a node has changed its state. *)
Inductive shell_reachable (conf : Configuration) (cs : ConfigStatics) (stdin : list string) : Entry → Prop :=
| sr_start e : Entry_ctor bind_error conf cs stdin = (Ok tt, e) → shell_reachable conf cs stdin e
| sr_startup file e : shell_reachable conf cs stdin e →
    shell_reachable conf cs stdin (exec execute_depth ["execute"; file] e).2
| sr_turn e : shell_reachable conf cs stdin e → shell_reachable conf cs stdin (turn e).2
| sr_node l x x' e : shell_reachable conf cs stdin e → store (nodes e) !! l = Some x → node_ok x' →
    shell_reachable conf cs stdin
      (with_nodes (mkNodes (<[l := x']> (store (nodes e))) (statics (nodes e)) (m_DHTs (nodes e)) (m_nodes (nodes e))) e).

Lemma entry_ok_ctor conf cs stdin : entry_ok (Entry_ctor bind_error conf cs stdin).2.
Proof.
  pose proof (keeps_start_nodes cs (Z.to_nat (node_amount conf)) 0 (p2p_port conf) (api_port conf)
    (mkEntry conf (mkNodes ∅ initial_statics [] []) (mkScript stdin [] [] "" false) "")) as (_ & Hs & Hn).
  split; [apply Hn, nodes_ok_start|]. unfold Entry_ctor. rewrite Hs. constructor; [done|cbn; lia|by left].
Qed.

(** C27: In every state of the shell the [Dht] objects and the nodes correspond
    index by index, no node is there twice, the pointers refer to well-formed
    nodes, no two APIs share a port, at most 64 scripts are nested, and the
    command kept for [repeat] is never [repeat] itself. *)
Theorem shell_reachable_ok conf cs stdin e : shell_reachable conf cs stdin e → entry_ok e.
Proof.
  induction 1 as [e E|file e _ IH|e _ IH|l x x' e _ [Hn Hs] Hl Hx].
  - pose proof (entry_ok_ctor conf cs stdin) as Ho. by rewrite E in Ho.
  - by eapply entry_ok_step; [apply execute_step|].
  - by apply turn_ok.
  - split; [|done]. destruct Hn as [H1 H2 H3 H4 H5]. constructor; cbn; try done.
    + intros l'. rewrite lookup_insert_is_Some', <- H3. split; [intros [<-|?]; eauto|auto].
    + intros l' y. rewrite lookup_insert_Some. intros [[_ <-]|[_ ?]]; eauto.
Qed.

(** ** Termination *)

Lemma loop_ends L n e : all_stop →
  (∀ path lines, open_file path = Some lines → (length lines ≤ L)%nat) →
  entry_ok e → (turns_left L (script e) < n)%nat →
  (shell_loop open_file bind_error listing stops n e).1 = Ok 0 ∨
  ∃ why, (shell_loop open_file bind_error listing stops n e).1 = UB why.
Proof.
  intros Hstop HL. revert e. induction n as [|n IH]; intros e He Hn; [lia|]. cbn [shell_loop].
  destruct (turn_ok e He) as (He' & Hf & Hx). pose proof (turn_decreases L HL e (proj2 He)) as Hd.
  unfold mbind, M_bind. destruct (turn e) as [[[|]|what|why|] e']; cbn in *.
  - apply IH; [done|]. specialize (Hd eq_refl). lia.
  - by left.
  - by destruct (Hx what).
  - right. by exists why.
  - by destruct (Hf Hstop).
Qed.

(** The shell ends. If every [Dht] that is removed stops and no file has more than [L] lines, the main loop, with
    scripts that may run each other and [repeat] anywhere, reaches its end on
    every finite input: there is a number of turns after which it has returned
    0, unless a command was undefined. *)
Theorem shell_terminates L e : all_stop →
  (∀ path lines, open_file path = Some lines → (length lines ≤ L)%nat) →
  entry_ok e →
  ∃ n, ∀ fuel, (n ≤ fuel)%nat →
    (Entry_mainLoop open_file bind_error listing stops fuel e).1 = Ok 0 ∨
    ∃ why, (Entry_mainLoop open_file bind_error listing stops fuel e).1 = UB why.
Proof.
  intros Hstop HL He. unfold Entry_mainLoop.
  set (start := run_startup open_file bind_error listing stops).
  assert (entry_ok (start e).2 ∧ (start e).1 ≠ NoFuel ∧ ∀ what, (start e).1 ≠ Exn what) as (Hs & Hf & Hx).
  { unfold start, run_startup. rewrite bind_get. destruct (startup_script _) as [s|]; [|done]. case_decide; [done|].
    split_and!; [by eapply entry_ok_step; [apply execute_step|]| |apply execute_catches].
    apply ends_execute; [done|]. change (1 ≤ 5)%nat. lia. }
  exists (S (turns_left L (script (start e).2))). intros fuel Hfuel.
  unfold mbind, M_bind. destruct (start e) as [[[]|what|why|] e']; cbn in *.
  - apply (loop_ends L); [done|done|done|lia].
  - by destruct (Hx what).
  - right. by exists why.
  - done.
Qed.

Lemma loop_ok n e : entry_ok e → entry_ok (shell_loop open_file bind_error listing stops n e).2.
Proof.
  revert e. induction n as [|n IH]; intros e He; [done|]. cbn [shell_loop].
  destruct (turn_ok e He) as (He' & _ & _). unfold mbind, M_bind.
  destruct (turn e) as [[[|]|what|why|] e']; [by apply IH|done..].
Qed.

Lemma mainLoop_ok fuel e : entry_ok e → entry_ok (Entry_mainLoop open_file bind_error listing stops fuel e).2.
Proof.
  intros He. unfold Entry_mainLoop. set (start := run_startup open_file bind_error listing stops).
  assert (entry_ok (start e).2) as Hs.
  { unfold start, run_startup. rewrite bind_get. destruct (startup_script _) as [s|]; [|done]. case_decide; [done|].
    by eapply entry_ok_step; [apply execute_step|]. }
  unfold mbind, M_bind. destruct (start e) as [[[]|what|why|] e']; [by apply loop_ok|done..].
Qed.

(** ** The constructor *)

(** Node [i] with its [Dht] and its API. *)
Definition started (conf : Configuration) (i : nat) (n : Nodes) : Prop := ∃ l x,
  m_nodes n !! i = Some l ∧ store n !! l = Some x ∧
  m_DHTs n !! i = Some (mkDhtObj l (Some (u16 (api_port conf + Z.of_nat i)))) ∧
  getIp x = p2p_address conf ∧ getPort x = u16 (p2p_port conf + Z.of_nat i) ∧
  getBootstrapNode x = Some (Node_ctor (bootstrapNode_address conf) (bootstrapNode_port conf)).

Lemma start_node_Ok first port api e e' : start_node bind_error first port api e = (Ok tt, e') →
  m_conf e' = m_conf e ∧
  nodes e' = set_last_api api (push_dht (push_node (m_conf e) port (nodes e)).1
                                        (first (push_node (m_conf e) port (nodes e)).2)).
Proof.
  unfold start_node, set_api. rewrite bind_get. unfold update_nodes. rewrite bind_modify, bind_get.
  destruct (bind_error _ _); [done|]. by intros [= <-].
Qed.

Lemma start_node_defined first port api e : is_UB (start_node bind_error first port api e).1 = false.
Proof.
  unfold start_node, set_api. rewrite bind_get. unfold update_nodes. rewrite bind_modify, bind_get.
  by destruct (bind_error _ _).
Qed.

(** The constructor returns or throws what binding an API's port throws. *)
Lemma start_nodes_outcome cs n i p q e :
  (start_nodes bind_error cs n i p q e).1 = Ok tt ∨ ∃ what, (start_nodes bind_error cs n i p q e).1 = Exn what.
Proof.
  revert i p q e. induction n as [|n IH]; intros i p q e; cbn [start_nodes]; [by left|].
  match goal with |- context [start_node bind_error ?f p q] => set (first := f) end.
  pose proof (start_node_defined first p q e) as Hd. pose proof (ends_start_node first p q e) as Hf.
  unfold mbind, M_bind. destruct (start_node bind_error first p q e) as [[[]|what|why|] e']; [apply IH| |done..].
  right. by exists what.
Qed.

(** The statics are set with the first node and stay. *)
Lemma start_nodes_statics cs n i p q e e' : start_nodes bind_error cs n i p q e = (Ok tt, e') →
  statics (nodes e') = if (i =? 0)%nat && (0 <? n)%nat
    then setReplicationLimitOnEachNode (defaultReplicationLimit cs) (setDifficulty (PoW_Difficulty cs) (statics (nodes e)))
    else statics (nodes e).
Proof.
  revert i p q e. induction n as [|n IH]; intros i p q e E; cbn [start_nodes] in E.
  { injection E as <-. by rewrite andb_false_r. }
  apply bind_inv_Ok in E as ([] & e1 & (_ & E1)%start_node_Ok & E2). rewrite (IH _ _ _ _ E2), E1.
  cbn [Nat.eqb andb]. destruct i; done.
Qed.

Lemma started_next conf first e e' k :
  (∀ n, store (first n) = store n ∧ m_DHTs (first n) = m_DHTs n ∧ m_nodes (first n) = m_nodes n) →
  nodes_ok (nodes e) → m_conf e = conf → length (m_nodes (nodes e)) = k →
  (∀ i, (i < k)%nat → started conf i (nodes e)) →
  start_node bind_error first (u16 (p2p_port conf + Z.of_nat k)) (u16 (api_port conf + Z.of_nat k)) e = (Ok tt, e') →
  m_conf e' = conf ∧ length (m_nodes (nodes e')) = S k ∧ ∀ i, (i < S k)%nat → started conf i (nodes e').
Proof.
  intros Hf [Hd Hn Hs _ _] <- Hk Hst (-> & ->)%start_node_Ok. split; [done|].
  unfold started, set_last_api, push_dht, push_node. cbn. set (l := fresh _).
  match goal with |- context [first ?n] => destruct (Hf n) as (-> & -> & ->) end. cbn. rewrite alter_last.
  assert (l ∉ m_nodes (nodes e)) as Hl.
  { intros Hin%Hs. by apply (is_fresh (dom (store (nodes e)))), elem_of_dom. }
  assert (length (m_DHTs (nodes e)) = k) as Hkd by (by rewrite <- Hk, <- Hd, length_fmap).
  rewrite length_app. cbn. split; [lia|]. intros i Hi. destruct (decide (i = k)) as [->|Hne].
  - eexists l, _. rewrite lookup_insert_eq. rewrite !lookup_app_r, Hk, Hkd, Nat.sub_diag by lia. done.
  - destruct (Hst i ltac:(lia)) as (l' & x & H1 & H2 & H3 & H4 & H5 & H6). exists l', x.
    assert (l ≠ l') by (intros ->; apply Hl; by eapply list_elem_of_lookup_2).
    rewrite lookup_insert_ne by done. rewrite !lookup_app_l by lia. done.
Qed.

Lemma start_nodes_Ok conf cs n k e e' :
  nodes_ok (nodes e) → m_conf e = conf → length (m_nodes (nodes e)) = k →
  (∀ i, (i < k)%nat → started conf i (nodes e)) →
  start_nodes bind_error cs n k (u16 (p2p_port conf + Z.of_nat k)) (u16 (api_port conf + Z.of_nat k)) e = (Ok tt, e') →
  length (m_nodes (nodes e')) = (k + n)%nat ∧ ∀ i, (i < k + n)%nat → started conf i (nodes e').
Proof.
  revert k e. induction n as [|n IH]; intros k e Hok Hc Hk Hst E; cbn [start_nodes] in E.
  { injection E as <-. rewrite Nat.add_0_r. done. }
  apply bind_inv_Ok in E as ([] & e1 & E1 & E2).
  assert (∀ z, u16 (u16 (z + Z.of_nat k) + 1) = u16 (z + Z.of_nat (S k))) as Hu.
  { intros z. unfold u16, wrap. rewrite Zplus_mod_idemp_l. f_equal. lia. }
  rewrite !Hu in E2. rewrite <- Nat.add_succ_comm.
  assert (nodes_ok (nodes e1)) as Hok1.
  { pose proof (keeps_start_node _ (u16 (p2p_port conf + Z.of_nat k)) (u16 (api_port conf + Z.of_nat k))
      (nodes_ok_first cs k) e) as (_ & _ & Hkeep). rewrite E1 in Hkeep. by apply Hkeep. }
  eapply started_next in E1 as (Hc1 & Hk1 & Hst1); [|by intros; destruct (k =? 0)%nat|done..].
  by apply (IH (S k) e1).
Qed.

(** The constructor starts the configured number of nodes: node [i] has the
    configured address with port [p2p_port + i], the configured bootstrap
    node, and a [Dht] whose API serves on [api_port + i], both modulo 2^16. *)
Theorem constructor_starts_nodes conf cs stdin e :
  0 <= p2p_port conf < 2 ^ 16 → 0 <= api_port conf < 2 ^ 16 →
  Entry_ctor bind_error conf cs stdin = (Ok tt, e) →
  length (m_nodes (nodes e)) = Z.to_nat (node_amount conf) ∧
  ∀ i, (i < Z.to_nat (node_amount conf))%nat → started conf i (nodes e).
Proof.
  intros Hp Hq E. unfold Entry_ctor in E.
  apply (start_nodes_Ok conf cs (Z.to_nat (node_amount conf)) 0
    (mkEntry conf (mkNodes ∅ initial_statics [] []) (mkScript stdin [] [] "" false) "") e); try done.
  - apply nodes_ok_start.
  - lia.
  - unfold u16. by rewrite !Z.add_0_r, !wrap_small.
Qed.

(** ** Undefined commands *)

(** [show data INDEX] with an index out of bounds. *)
Definition data_out_of_bounds (args : list string) (n : Nodes) : Prop :=
  match args with
  | a :: _ =>
      match parse_number 32 a with
      | Some index => Z.of_nat (length (m_nodes n)) <= index
      | None => False
      end
  | [] => False
  end.

(** [add] without a usable port and without a node to count from. *)
Definition add_without_node (args : list string) (n : Nodes) : Prop :=
  m_nodes n = [] ∧ match args with a :: _ => parse_number 16 a | [] => None end = None.

(** [remove] with a count that wraps around. *)
Definition remove_wraps (args : list string) (n : Nodes) : Prop :=
  match args with
  | a :: rest =>
      match parse_number 32 a with
      | Some index =>
          let size := Z.of_nat (length (m_nodes n)) in
          index < size < index + asked_count rest ∧ u32 (index + asked_count rest) <= size
      | None => False
      end
  | [] => False
  end.

(** [sleep] with a number, not negative, whose milliseconds, computed in single
    precision, are at least 2^64. *)
Definition sleep_too_long (args : list string) : Prop :=
  match args with
  | a :: _ =>
      match parse_float a with
      | Some seconds =>
          float_lt seconds (float_of_Z 0) = false ∧
          float_lt (float_mul seconds (float_of_Z 1000)) (float_of_Z (2 ^ 64)) = false
      | None => False
      end
  | [] => False
  end.

Definition undefined_command (cmd : string) (args : list string) (n : Nodes) : Prop :=
  cmd = "add" ∧ add_without_node args n ∨
  cmd = "remove" ∧ remove_wraps args n ∨
  cmd = "show:data" ∧ data_out_of_bounds args n ∨
  cmd = "show" ∧ match args with what :: rest => to_lower what = "data" ∧ data_out_of_bounds rest n | [] => False end ∨
  cmd = "sleep" ∧ sleep_too_long args.

#[local] Instance undefined_command_dec cmd args n : Decision (undefined_command cmd args n).
Proof.
  unfold undefined_command, add_without_node, remove_wraps, data_out_of_bounds, sleep_too_long.
  destruct args as [|a [|b rest]]; repeat case_match; apply _.
Defined.

(** A computation that is defined on the nodes [n] and does not change them. *)
Definition quiet (n : Nodes) {A} (m : M Entry A) : Prop :=
  ∀ e, nodes e = n → is_UB (m e).1 = false ∧ nodes (m e).2 = n.

Section Quiet.
Context (n : Nodes).

Lemma quiet_ret {A} (a : A) : quiet n (mret a).
Proof. by intros e. Qed.

Lemma quiet_lift {A} (o : outcome A) : is_UB o = false → quiet n (lift o).
Proof. by intros Ho e. Qed.

Lemma quiet_print t : quiet n (print t).
Proof. by intros e. Qed.

Lemma quiet_get {B} (k : Entry → M Entry B) : (∀ e, nodes e = n → quiet n (k e)) → quiet n (get_state ≫= k).
Proof. intros Hk e He. rewrite bind_get. by apply Hk. Qed.

Lemma quiet_bind {A B} (m : M Entry A) (k : A → M Entry B) : quiet n m → (∀ a, quiet n (k a)) → quiet n (m ≫= k).
Proof.
  intros Hm Hk e He. destruct (Hm e He) as [H1 H2]. unfold mbind, M_bind.
  destruct (m e) as [[a|?|?|] e']; [by apply Hk|done..].
Qed.

Lemma quiet_then {A B} (m : M Entry A) (k : A → M Entry B) h :
  quiet n m → (∀ a, quiet n (k a)) → (∀ e, quiet n (h e)) → quiet n (promise_then m k h).
Proof.
  intros Hm Hk Hh e He. destruct (Hm e He) as [H1 H2]. unfold promise_then.
  destruct (m e) as [[a|?|?|] e']; [by apply Hk|by apply Hh|done..].
Qed.

Hypothesis Hn : nodes_ok n.

Lemma quiet_deref l : l ∈ m_nodes n → quiet n (deref l).
Proof.
  intros [x Hx]%(ok_store n Hn). unfold deref. apply quiet_get. intros e He. rewrite He, Hx. apply quiet_ret.
Qed.

Lemma quiet_hexdump bytes : quiet n (lift (hexdump bytes 32 false false)).
Proof.
  apply quiet_lift. unfold hexdump.
  destruct (rows_total (length bytes) (length bytes) 32 0 (hexdump_row bytes 32 false false)) as [l ->]; [lia|lia|done].
Qed.

Lemma node_at_in index l : node_at index n = Some l → l ∈ m_nodes n.
Proof. unfold node_at. case_match; [|done]. intros E. by eapply list_elem_of_lookup_2. Qed.

Lemma node_at_out index : 0 <= index → node_at index n = None ↔ Z.of_nat (length (m_nodes n)) <= index.
Proof.
  intros Hi. unfold node_at. destruct (Z.ltb_spec index (Z.of_nat (length (m_nodes n)))); [|split; [lia|done]].
  rewrite lookup_ge_None. lia.
Qed.

Lemma quiet_print_nodes i ls : (∀ l, l ∈ ls → l ∈ m_nodes n) → quiet n (print_nodes i ls).
Proof.
  revert i. induction ls as [|l ls IH]; intros i Hls; cbn [print_nodes]; [apply quiet_ret|].
  apply quiet_bind; [apply quiet_deref, Hls; by left|]. intros x. apply quiet_bind; [apply quiet_print|].
  intros _. apply IH. intros l' Hl'. apply Hls. by right.
Qed.

Lemma quiet_print_keys i items : quiet n (print_keys i items).
Proof.
  revert i. induction items as [|kv items IH]; intros i; cbn [print_keys]; [apply quiet_ret|].
  apply quiet_bind; [apply quiet_hexdump|]. intros key. apply quiet_bind; [apply quiet_print|]. intros _. apply IH.
Qed.

Create HintDb quiet.

Hint Resolve quiet_ret quiet_print quiet_hexdump quiet_print_keys : quiet.

Ltac hush :=
  repeat first
    [ solve [auto with quiet]
    | lazymatch goal with
      | |- quiet _ (throw _) => by apply quiet_lift
      | |- ∀ _, quiet _ _ => intro
      end
    | progress cbv zeta
    | lazymatch goal with
      | |- quiet _ (get_state ≫= _) => let He := fresh in apply quiet_get; intros ? He; rewrite ?He
      | |- quiet _ (_ ≫= _) => apply quiet_bind
      | |- quiet _ (promise_then _ _ _) => apply quiet_then
      | |- quiet _ (match ?x with _ => _ end) => destruct x eqn:?
      end ].

Lemma quiet_show_nodes ex args :
  (∀ rest, quiet n (ex ("show:nodes:data" :: rest))) → quiet n (cmd_show_nodes ex args).
Proof.
  intros Hex. unfold cmd_show_nodes. case_decide; [apply (Hex (tail args))|].
  apply quiet_get. intros e ->. destruct (match args with a :: _ => parse_number 32 a | [] => None end) as [index|].
  - destruct (node_at index n) as [l|] eqn:E; [|by apply quiet_lift].
    apply quiet_bind; [by eapply quiet_deref, node_at_in|]. intros x. unfold print_node. hush.
  - by apply quiet_print_nodes.
Qed.

Lemma quiet_show_data ex args : ¬ data_out_of_bounds args n →
  (∀ rest, quiet n (ex ("show" :: "nodes" :: rest))) → quiet n (cmd_show_data ex args).
Proof.
  intros Hd Hex. unfold cmd_show_data. destruct args as [|a args]; [apply quiet_print|]. cbn in Hd.
  destruct (parse_number 32 a) as [index|] eqn:Ea; [|apply quiet_ret]. apply parse_number_range in Ea; [|lia].
  apply quiet_get. intros e ->. destruct (node_at index n) as [l|] eqn:E.
  2: { apply node_at_out in E; [done|lia]. }
  apply quiet_bind; [by eapply quiet_deref, node_at_in|]. hush.
Qed.

Lemma quiet_execute fuel cmd args :
  cmd ≠ "add" → cmd ≠ "remove" → ¬ undefined_command cmd args n → quiet n (exec fuel (cmd :: args)).
Proof.
  revert cmd args. induction fuel as [|fuel IH]; intros cmd args Ha Hr Hu; [by apply quiet_lift|].
  cbn [execute]. unfold run_command.
  repeat (case_decide; [subst cmd; apply quiet_then; [|by intros; apply quiet_ret|by intros; apply quiet_print]|]);
    [..|apply quiet_print]; try done.
  - unfold cmd_help. hush.
  - unfold cmd_exit. hush.
  - unfold cmd_sleep. destruct args as [|a args]; [by apply quiet_lift|].
    destruct (parse_float a) as [seconds|] eqn:Ea; [|by apply quiet_lift].
    destruct (float_lt seconds _) eqn:E0; [by apply quiet_lift|]. destruct (fits_size_t _) eqn:E1; [by apply quiet_ret|].
    destruct Hu. do 4 right. split; [done|]. cbn. rewrite Ea. done.
  - unfold cmd_execute. hush; intros e' He'; by split.
  - unfold cmd_show. destruct args as [|what rest]; [by apply quiet_lift|]. apply IH; [done|done|].
    intros [[? _]|[[? _]|[[E Hd]|[[? _]|[? _]]]]]; try done. apply Hu. do 3 right. left. split; [done|]. split; [|done].
    by injection E.
  - apply quiet_show_nodes. intros rest. apply IH; [done|done|].
    by intros [[? _]|[[? _]|[[? _]|[[? _]|[? _]]]]].
  - apply quiet_show_data.
    + intros Hd. apply Hu. do 2 right. by left.
    + intros rest. apply IH; [done|done|]. intros [[? _]|[[? _]|[[? _]|[[_ [E _]]|[? _]]]]]; done.
  - unfold cmd_show_fingers.
    destruct (match args with a :: _ => parse_number 32 a | [] => None end) as [index|]; [|by apply quiet_lift].
    apply quiet_get. intros e ->. destruct (node_at index n) as [l|] eqn:E; [|by apply quiet_lift].
    apply quiet_bind; [by eapply quiet_deref, node_at_in|]. hush.
Qed.

End Quiet.

Lemma caught_UB (m : M Entry unit) e :
  is_UB (promise_then m mret (λ what, print (what +:+ nl)) e).1 = is_UB (m e).1.
Proof. unfold promise_then. by destruct (m e) as [[?|?|?|] ?]. Qed.

Lemma then_print_UB (m : M Entry unit) t e : is_UB ((m;; print t) e).1 = is_UB (m e).1.
Proof. unfold mbind, M_bind. by destruct (m e) as [[?|?|?|] ?]. Qed.

Lemma addNode_UB p e : nodes_ok (nodes e) →
  is_UB (addNode bind_error p e).1 = true ↔ m_nodes (nodes e) = [] ∧ p = None.
Proof.
  intros Hn. unfold addNode. rewrite bind_get. destruct p as [p|].
  { rewrite bind_ret, then_print_UB, start_node_defined. split; [done|by intros [_ ?]]. }
  destruct (last (m_nodes (nodes e))) as [l|] eqn:El.
  - apply last_Some_elem_of in El as Hl. destruct (proj2 (ok_store _ Hn l) Hl) as [x Hx].
    assert ((x ← deref l; mret (u16 (getPort x + 1))) e = (Ok (u16 (getPort x + 1)), e)) as Hd.
    { unfold deref, mbind, M_bind, get_state. by rewrite Hx. }
    rewrite (bind_Ok _ _ _ _ _ Hd), then_print_UB, start_node_defined. split; [done|].
    intros [E _]. by rewrite E in El.
  - apply last_None in El. rewrite El. split; [done|]. intros _.
    unfold undefined, lift, mbind, M_bind. done.
Qed.

Lemma cmd_remove_UB args e : is_UB (cmd_remove stops args e).1 = true ↔ remove_wraps args (nodes e).
Proof.
  unfold remove_wraps. destruct args as [|a rest]; [done|].
  destruct (parse_number 32 a) as [index|] eqn:Ha; [|unfold cmd_remove; rewrite Ha; done].
  destruct (Z.le_gt_cases (Z.of_nat (length (m_nodes (nodes e)))) index) as [Hle|Hlt].
  - unfold cmd_remove. rewrite Ha, bind_get.
    destruct (Z.leb_spec (Z.of_nat (length (m_nodes (nodes e)))) index); [|lia]. split; [done|lia].
  - pose proof (cmd_remove_in stops a rest e index Ha Hlt) as Hr.
    destruct (Z.ltb_spec (Z.of_nat (length (m_nodes (nodes e)))) (u32 (index + asked_count rest))).
    { destruct Hr as [Hr _]. split; [|lia]. by destruct (cmd_remove _ _ e).1. }
    rewrite Hr. destruct (Z.le_gt_cases (index + asked_count rest) (Z.of_nat (length (m_nodes (nodes e))))).
    + rewrite remove_range_in by done. split; [by destruct (await_deletions _ _ _ _)|lia].
    + rewrite remove_range_out by done. split; [lia|done].
Qed.

Lemma show_data_UB fuel args e :
  data_out_of_bounds args (nodes e) → is_UB (exec (S fuel) ("show:data" :: args) e).1 = true.
Proof.
  intros Hd. cbn [execute]. change (run_command _ _ _ _ _ "show:data" args)
    with (Some (cmd_show_data (exec fuel) args)). cbn [from_option]. rewrite caught_UB.
  unfold cmd_show_data. destruct args as [|a args]; [done|]. cbn in Hd.
  destruct (parse_number 32 a) as [index|] eqn:Ea; [|done]. apply parse_number_range in Ea; [|lia].
  rewrite bind_get. by rewrite (proj2 (node_at_out (nodes e) index ltac:(lia)) Hd).
Qed.

(** C26: Which commands are undefined: in a consistent state the C++ code of a
    command is undefined exactly for [add] without a port when there are no
    nodes, [remove] with a count that wraps around 32 bits, [show data] with an
    index out of bounds, and [sleep] with a number of seconds whose milliseconds,
    in single precision, do not fit a [size_t]. *)
Theorem undefined_commands cmd args e : nodes_ok (nodes e) →
  is_UB (exec execute_depth (cmd :: args) e).1 = true ↔ undefined_command cmd args (nodes e).
Proof.
  intros Hn. unfold execute_depth. destruct (decide (cmd = "add")) as [->|Ha].
  { change (exec 5 ("add" :: args)) with (promise_then (cmd_add bind_error args) mret (λ what, print (what +:+ nl))).
    rewrite caught_UB. unfold cmd_add. rewrite addNode_UB by done. unfold undefined_command, add_without_node.
    split; [by left|]. intros [[_ ?]|[[? _]|[[? _]|[[? _]|[? _]]]]]; done. }
  destruct (decide (cmd = "remove")) as [->|Hr].
  { change (exec 5 ("remove" :: args)) with (promise_then (cmd_remove stops args) mret (λ what, print (what +:+ nl))).
    rewrite caught_UB, cmd_remove_UB. unfold undefined_command.
    split; [by right; left|]. intros [[? _]|[[_ ?]|[[? _]|[[? _]|[? _]]]]]; done. }
  split.
  - intros HU. destruct (decide (undefined_command cmd args (nodes e))) as [|Hnot]; [done|].
    destruct (quiet_execute (nodes e) Hn 5 cmd args Ha Hr Hnot e eq_refl) as [HF _]. by rewrite HF in HU.
  - intros [[? _]|[[? _]|[[-> Hd]|[[-> Hd]|[-> Hd]]]]]; [done|done|by apply show_data_UB| |].
    2: { change (exec 5 ("sleep" :: args)) with (promise_then (cmd_sleep args) mret (λ what, print (what +:+ nl))).
         rewrite caught_UB. unfold cmd_sleep. destruct args as [|a args]; [done|]. cbv beta iota delta [sleep_too_long] in Hd.
         destruct (parse_float a) as [seconds|]; [|done]. destruct Hd as [-> Hd]. unfold fits_size_t. by rewrite Hd. }
    destruct args as [|what rest]; [done|]. destruct Hd as [Hw Hd].
    change (exec 5 ("show" :: what :: rest))
      with (promise_then (exec 4 (("show:" +:+ to_lower what) :: rest)) mret (λ what, print (what +:+ nl))).
    rewrite caught_UB, Hw. by apply show_data_UB.
Qed.

(** ** Leaving the shell *)

(** Only the line [exit], exactly, ends the loop. Any other line whose only
    token is [exit], say with a blank or a comment around it, announces the
    shutdown and the loop goes on. *)
Theorem exit_needs_exact_line line e :
  ((run_line open_file bind_error listing stops line e).1 = Ok false ↔ line = "exit") ∧
  (tokenize line = ["exit"] → line ≠ "exit" →
   (run_line open_file bind_error listing stops line e).1 = Ok true ∧
   output (run_line open_file bind_error listing stops line e).2 = output e +:+ "Shutting down..." +:+ nl).
Proof.
  split.
  - split.
    + unfold run_line. destruct (tokenize line) as [|t ts]; [done|]. rewrite bind_modify. unfold mbind, M_bind.
      destruct (exec execute_depth (t :: ts) _) as [[[]|?|?|] ?]; try done. cbn. intros [= E].
      apply negb_false_iff, bool_decide_eq_true in E. done.
    + by intros ->.
  - intros Ht Hne. unfold run_line. rewrite Ht, bind_modify. cbn. split; [|done].
    by rewrite bool_decide_eq_false_2.
Qed.

End ShellProofs.

(** ** Repeating a script *)

Lemma drop_while_all (f : Ascii.ascii → bool) l r : Forall (λ c, f c = true) l → drop_while f (l ++ r) = drop_while f r.
Proof. induction 1 as [|c l Hc Hl IH]; [done|]. cbn. by rewrite Hc. Qed.

(** The directory of a file name without slashes. *)
Lemma parent_path_file dir g : dir ≠ [] → Forall (λ c, is_slash c = false) dir → Forall (λ c, is_slash c = false) g →
  parent_path (dir ++ "/"%char :: g) = dir.
Proof.
  intros Hn Hd Hg. unfold parent_path. rewrite rev_app_distr. cbn [rev]. rewrite <- app_assoc.
  rewrite drop_while_all.
  2:{ apply Forall_rev. eapply Forall_impl; [exact Hg|]. by intros c ->. }
  change (drop_while (λ c, negb (is_slash c)) (["/"%char] ++ rev dir)) with ("/"%char :: rev dir).
  change (drop_while is_slash ("/"%char :: rev dir)) with (drop_while is_slash (rev dir)).
  destruct (rev dir) as [|c l] eqn:E.
  - by apply (f_equal (@rev _)) in E; rewrite rev_involutive in E.
  - assert (is_slash c = false) as Hc.
    { rewrite Forall_forall in Hd. apply Hd, list_elem_of_In, in_rev. rewrite E. by left. }
    cbn [drop_while]. rewrite Hc. change (rev (c :: l) = dir). rewrite <- E. apply rev_involutive.
Qed.

(** [repeat] after a script that was opened from another script looks for it
    in the wrong place: the command kept at its end is [execute dir/p] with
    the directory already in front, and repeating it inside the outer script
    [dir/g] opens [dir/dir/p]. *)
Theorem repeat_doubles_directory s (dir g p : chars) :
  dir ≠ [] → Forall (λ c, is_slash c = false) dir → Forall (λ c, is_slash c = false) g →
  m_input_filenames s = [of_chars (dir ++ "/"%char :: g); of_chars (dir ++ "/"%char :: p)] →
  let file := of_chars (dir ++ "/"%char :: p) in
  let s' := pop_script file s in
  m_lastEnteredCommand s' = "execute " +:+ file ∧
  script_path s' file = of_chars (dir ++ "/"%char :: dir ++ "/"%char :: p).
Proof.
  intros Hn Hd Hg Hs. cbv zeta. split; [done|]. unfold script_path. cbn. rewrite Hs. cbn.
  rewrite !to_of_chars, parent_path_file by done. unfold path_append. f_equal.
  destruct dir as [|c dir]; [done|]. cbn [app]. apply Forall_cons in Hd as [Hc Hd']. rewrite Hc.
  destruct (last (c :: dir)) as [x|] eqn:E; [|by apply last_None in E].
  assert (is_slash x = false) as ->; [|done].
  apply last_Some_elem_of in E. assert (Forall (λ c, is_slash c = false) (c :: dir)) as Hall by (by constructor).
  rewrite Forall_forall in Hall. by apply Hall.
Qed.

(** ** Examples *)

Module Examples.

#[local] Instance zero_hash : HashFns := {| sha256 := λ _, replicate 32 0; sha1 := λ _, replicate 20 0 |}.

#[local] Instance plain_fmt : FmtFns :=
  {| fmt_right := λ _ s, s; fmt_left := λ _ s, s; fmt_number := λ _ z, to_string z; fmt_float := λ _, "-1" |}.

(** Two scripts, one of which runs the other and itself. *)
Definition files (path : string) : option (list string) :=
  if decide (path = "a/main") then Some ["execute sub"; "repeat"; "execute main"]
  else if decide (path = "a/sub") then Some ["show nodes"; "repeat"; "add"]
  else None.

Definition bind_in_use (used : list Z) (p : Z) : option string :=
  if decide (p ∈ used) then Some "bind: Address already in use" else None.

Lemma bind_in_use_distinct used p : p ≠ 0 → bind_in_use used p = None → p ∉ used.
Proof. intros _. unfold bind_in_use. by case_decide. Qed.

Definition two_nodes : Configuration :=
  mkConfiguration "./hostkey.pem" None "./hostcert.crt" false "127.0.0.1" 6002 "127.0.0.1" 7002
    "127.0.0.1" 6002 2 (Some "a/main").

Definition typed : list string := ["remove 1 4294967295"; "exit"].

Definition shell : Entry := (Entry_ctor bind_in_use two_nodes default_ConfigStatics typed).2.

Lemma shell_started : Entry_ctor bind_in_use two_nodes default_ConfigStatics typed = (Ok tt, shell).
Proof. by vm_compute. Qed.

Lemma shell_ok : entry_ok shell.
Proof. apply (entry_ok_ctor bind_in_use bind_in_use_distinct two_nodes default_ConfigStatics typed). Qed.

(** Every [Dht] stops. *)
Definition all_return (_ : Nodes) (_ : DhtObj) : bool := true.

Lemma all_return_stop : all_stop all_return.
Proof. done. Qed.

Lemma shell_reachable_ok_witness :
  entry_ok (shell_turn files bind_in_use [] all_return (execute files bind_in_use [] all_return execute_depth ["execute"; "a/main"] shell).2).2.
Proof.
  apply (shell_reachable_ok files bind_in_use [] all_return bind_in_use_distinct two_nodes default_ConfigStatics typed).
  apply sr_turn, sr_startup, sr_start, shell_started.
Defined.

Lemma files_short path lines : files path = Some lines → (length lines ≤ 3)%nat.
Proof. unfold files. repeat case_decide; intros [= <-]; cbn; lia. Qed.

Lemma shell_terminates_witness : ∃ n, ∀ fuel, (n ≤ fuel)%nat →
  (Entry_mainLoop files bind_in_use [] all_return fuel shell).1 = Ok 0 ∨
  ∃ why, (Entry_mainLoop files bind_in_use [] all_return fuel shell).1 = UB why.
Proof. exact (shell_terminates files bind_in_use [] all_return bind_in_use_distinct 3 shell all_return_stop files_short shell_ok). Defined.

Lemma constructor_starts_nodes_witness : length (m_nodes (nodes shell)) = 2%nat ∧
  ∀ i, (i < 2)%nat → started two_nodes i (nodes shell).
Proof.
  refine (constructor_starts_nodes bind_in_use bind_in_use_distinct two_nodes default_ConfigStatics typed shell
    _ _ shell_started); by vm_compute.
Defined.

(** The second of two nodes and 4294967295 more. *)
Lemma remove_spec_witness :
  (cmd_remove all_return ["1"; "4294967295"] shell).2 = shell ∧ is_UB (cmd_remove all_return ["1"; "4294967295"] shell).1 = true.
Proof.
  refine (proj2 (proj2 (remove_spec all_return "1" ["4294967295"] shell 1 _ _)) _); by vm_compute.
Defined.

Lemma undefined_commands_witness :
  is_UB (execute files bind_in_use [] all_return execute_depth ["show"; "Data"; "7"] shell).1 = true ∧
  is_UB (execute files bind_in_use [] all_return execute_depth ["sleep"; "18446744073709551"] shell).1 = true ∧
  is_UB (execute files bind_in_use [] all_return execute_depth ["sleep"; "1.5"] shell).1 ≠ true.
Proof.
  split; [|split; [|by vm_compute]].
  2: { refine (proj2 (undefined_commands files bind_in_use [] all_return "sleep" ["18446744073709551"] shell (proj1 shell_ok)) _).
       do 4 right. by vm_compute. }
  refine (proj2 (undefined_commands files bind_in_use [] all_return "show" ["Data"; "7"] shell (proj1 shell_ok)) _).
  do 3 right. left. by vm_compute.
Defined.

Definition nested : Script := mkScript [] [[]; ["repeat"]] ["a/main"; "a/sub"] "" false.

Lemma repeat_doubles_directory_witness : script_path (pop_script "a/sub" nested) "a/sub" = "a/a/sub".
Proof.
  refine (proj2 (repeat_doubles_directory nested ["a"%char] (to_chars "main") (to_chars "sub") _ _ _ _));
    [done|by repeat constructor|by repeat constructor|done].
Defined.

End Examples.
