(* ===== verification/Program.v ===== *)
(** * Program: from the command line to the exit code

    Models [main] of src/dht-4.cpp and the destructor of [Entry]: the command
    line as cxxopts delivers it (a parameter), the configuration, the logger, the
    shell with its nodes, and what is left when [main] returns. The effect of the
    nodes' own threads on their states while the shell runs is that of
    [sr_node] in Shell.v; they do not touch what the shell reads its commands
    from. Whether the log file can be opened ([log_error]), whether a port can be
    bound ([bind_error]) and whether the destructor of a [Dht] returns ([stops],
    see Lifecycle.v) are parameters. *)

From S2P Require Import Prelude Util NodeInfo Logging Config Entry Shell.

(** What [options.parse] delivers. *)
Record CommandLine := mkCommandLine {
  cl_help : bool;
  cl_args : Args;
  cl_logMode : Z;
  cl_logOutput : string;
}.

(** The process: its logger, if there is one yet, its shell, and whether the
    usage was printed. *)
Record Process := mkProcess { p_logger : option Logger; p_entry : option Entry; p_usage : bool }.

Section Main.
Context `{HashFns} `{FmtFns}.
Context (open_file : string → option (list string)).
Context (bind_error : list Z → Z → option string).
Context (listing : list string).
Context (stops : Nodes → DhtObj → bool).
Context (log_error : string → option string).
Context (load : string → Ini).

(** [~Entry()]: every [Dht] is destroyed, each in a thread of its own, all are
    waited for, then the nodes go. *)
Definition Entry_dtor : M Entry unit :=
  e ← get_state;
  let count := length (m_nodes (nodes e)) in
  if await_deletions stops 0 count (nodes e) then update_nodes (remove_nodes 0 count) else out_of_fuel.

(** [main]; an exception that leaves it ends the process. *)
Definition main (parsed : outcome CommandLine) (stdin : list string) (fuel : nat) : outcome Z * Process :=
  match parsed with
  | Ok args =>
      if cl_help args then (Ok 0, mkProcess None None true)
      else
        let conf := main_config load (cl_args args) in
        match InitSpdlog log_error (cl_logMode args) (cl_logOutput args) with
        | Ok g =>
            match Entry_ctor bind_error conf.1 conf.2 stdin with
            | (Ok _, e) =>
                let r := (ret ← Entry_mainLoop open_file bind_error listing stops fuel; Entry_dtor;; mret ret) e in
                (r.1, mkProcess (Some g) (Some r.2) false)
            | (Exn what, e) => (Exn what, mkProcess (Some g) (Some e) false)
            | (UB what, e) => (UB what, mkProcess (Some g) (Some e) false)
            | (NoFuel, e) => (NoFuel, mkProcess (Some g) (Some e) false)
            end
        | Exn what => (Exn what, mkProcess None None false)
        | UB what => (UB what, mkProcess None None false)
        | NoFuel => (NoFuel, mkProcess None None false)
        end
  | Exn what => (Exn what, mkProcess None None false)
  | UB what => (UB what, mkProcess None None false)
  | NoFuel => (NoFuel, mkProcess None None false)
  end.

(** Nothing is left of the nodes. *)
Definition no_nodes (n : Nodes) : Prop := store n = ∅ ∧ m_DHTs n = [] ∧ m_nodes n = [].

Lemma Entry_dtor_frees e : nodes_ok (nodes e) → all_stop stops →
  ∃ e', Entry_dtor e = (Ok tt, e') ∧ no_nodes (nodes e').
Proof.
  intros Hok Hstop. pose proof (nodes_ok_remove 0 (length (m_nodes (nodes e))) _ Hok) as [_ _ Hs _ _].
  destruct Hok as [Hd _ _ _ _]. unfold Entry_dtor. rewrite bind_get. cbv zeta. rewrite all_stop_await by done.
  eexists. split; [reflexivity|]. cbn [with_nodes nodes].
  assert (m_nodes (remove_nodes 0 (length (m_nodes (nodes e))) (nodes e)) = []) as E.
  { unfold remove_nodes, erase. cbn [m_nodes]. by rewrite drop_ge by (cbn; lia). }
  split_and!; [| |done].
  - apply map_empty. intros l. apply eq_None_not_Some. rewrite Hs, E. by intros ?%elem_of_nil.
  - unfold remove_nodes, erase. cbn [m_DHTs].
    rewrite drop_ge by (rewrite <- Hd, length_fmap; cbn; lia). done.
Qed.

Lemma Entry_dtor_waits e d : nodes_ok (nodes e) → d ∈ m_DHTs (nodes e) → stops (nodes e) d = false →
  Entry_dtor e = (NoFuel, e).
Proof.
  intros [Hd _ _ _ _] Hin Hs. unfold Entry_dtor. rewrite bind_get. cbv zeta.
  assert (await_deletions stops 0 (length (m_nodes (nodes e))) (nodes e) = false) as ->; [|done].
  unfold await_deletions. rewrite drop_0, take_ge by (rewrite <- Hd, length_fmap; lia).
  apply not_true_iff_false. rewrite forallb_forall. intros Hall. rewrite Hall in Hs; [done|]. by apply list_elem_of_In.
Qed.

(** A port in use cannot be bound again. *)
Hypothesis bind_distinct : ∀ used p, p ≠ 0 → bind_error used p = None → p ∉ used.

(** The settings of the statics that the first node makes. *)
Definition statics_set (a : Args) (st : Statics) : Prop :=
  getDifficulty st = default DEFAULT_DIFFICULTY (arg_POWdifficulty a) ∧
  getReplicationLimitOnEachNode st = default DEFAULT_REPLICATION_LIMIT (arg_replicationLimit a).

Lemma ctor_statics a stdin e : let conf := main_config load a in
  Entry_ctor bind_error conf.1 conf.2 stdin = (Ok tt, e) → 0 < node_amount conf.1 → statics_set a (statics (nodes e)).
Proof.
  cbv zeta. intros E Hn. unfold Entry_ctor in E. apply start_nodes_statics in E. rewrite E.
  destruct (Nat.ltb_spec 0 (Z.to_nat (node_amount (main_config load a).1))); [|lia]. split; reflexivity.
Qed.

(** C25: The program from its command line to its exit code. If the usage is not
    asked for and no script has more than [L] lines, then one of three things
    happens: the log file cannot be opened, or a port of an API cannot be bound,
    and that exception ends the program; or the configured number of nodes is
    started, each with its address, bootstrap node and API port as the file and
    the command line say, with the difficulty and the replication limit of the
    command line. In the last case the shell comes to its end if the destructor
    of every [Dht] returns: after finitely many turns [main] returns 0 and no node
    is left, unless a command was undefined (C26 says which are). If a [Dht] that
    is left when the shell ends does not stop, [main] waits for it for ever. *)
Theorem program_runs L args stdin :
  (∀ path lines, open_file path = Some lines → (length lines ≤ L)%nat) →
  cl_help args = false →
  let conf := main_config load (cl_args args) in
  let count := Z.to_nat (node_amount conf.1) in
  let run := main (Ok args) stdin in
  (∃ what, log_error (cl_logOutput args) = Some what ∧ ∀ fuel, (run fuel).1 = Exn what) ∨
  (∃ what, (Entry_ctor bind_error conf.1 conf.2 stdin).1 = Exn what ∧ ∀ fuel, (run fuel).1 = Exn what) ∨
  ∃ g e, InitSpdlog log_error (cl_logMode args) (cl_logOutput args) = Ok g ∧
    Entry_ctor bind_error conf.1 conf.2 stdin = (Ok tt, e) ∧
    length (m_nodes (nodes e)) = count ∧
    (∀ i, (i < count)%nat → started conf.1 i (nodes e)) ∧
    ((0 < count)%nat → statics_set (cl_args args) (statics (nodes e))) ∧
    (all_stop stops → ∃ n, ∀ fuel, (n ≤ fuel)%nat →
      (∃ e', run fuel = (Ok 0, mkProcess (Some g) (Some e') false) ∧ no_nodes (nodes e')) ∨
      ∃ why, (run fuel).1 = UB why) ∧
    ∀ fuel e' d, Entry_mainLoop open_file bind_error listing stops fuel e = (Ok 0, e') →
      d ∈ m_DHTs (nodes e') → stops (nodes e') d = false → (run fuel).1 = NoFuel.
Proof.
  intros HL Hh conf count run. unfold run, main. rewrite Hh. fold conf. cbv zeta.
  destruct (log_error (cl_logOutput args)) as [what|] eqn:Elog.
  { left. exists what. split; [done|]. intros fuel. unfold InitSpdlog. by rewrite Elog. }
  right. destruct (InitSpdlog log_error (cl_logMode args) (cl_logOutput args)) as [g| | |] eqn:Eg;
    [|by unfold InitSpdlog in Eg; rewrite Elog in Eg..].
  pose proof (main_config_ports load (cl_args args)) as [Hp Hq].
  pose proof (entry_ok_ctor bind_error bind_distinct conf.1 conf.2 stdin) as Hok.
  destruct (Entry_ctor bind_error conf.1 conf.2 stdin) as [o e] eqn:E.
  assert (o = Ok tt ∨ ∃ what, o = Exn what) as [->|(what & ->)]; [|right|left; by exists what].
  { pose proof (start_nodes_outcome bind_error conf.2 count 0 (p2p_port conf.1) (api_port conf.1)
      (mkEntry conf.1 (mkNodes ∅ initial_statics [] []) (mkScript stdin [] [] "" false) "")) as Ho.
    unfold Entry_ctor in E. fold count in E. by rewrite E in Ho. }
  exists g, e. split; [done|]. split; [done|].
  destruct (constructor_starts_nodes bind_error bind_distinct conf.1 conf.2 stdin e Hp Hq E) as [Hc Hs].
  pose proof (λ fuel, proj1 (mainLoop_ok open_file bind_error listing stops bind_distinct fuel e Hok)) as Hend.
  split_and!; [done|done| | |].
  - intros Hpos. eapply ctor_statics; [exact E|]. unfold count, conf in Hpos. lia.
  - intros Hstop. destruct (shell_terminates open_file bind_error listing stops bind_distinct L e Hstop HL Hok) as (n & Hn).
    exists n. intros fuel Hf. specialize (Hn fuel Hf). specialize (Hend fuel). unfold mbind, M_bind.
    destruct (Entry_mainLoop open_file bind_error listing stops fuel e) as [[v|what|why|] e1]; cbn in Hn, Hend;
      [|by destruct Hn as [?|[? ?]]|right; by exists why|by destruct Hn as [?|[? ?]]].
    destruct Hn as [[= ->]|[? ?]]; [left|done]. destruct (Entry_dtor_frees e1 Hend Hstop) as (e' & -> & He').
    exists e'. by split.
  - intros fuel e1 d Hrun Hd Hstop. specialize (Hend fuel). rewrite Hrun in Hend. unfold mbind, M_bind. rewrite Hrun.
    by rewrite (Entry_dtor_waits e1 d Hend Hd Hstop).
Qed.

End Main.

(** [-n 2 -l 0 -s a/main -d 2] with no configuration file, and two lines on the
    terminal. *)
Definition example_load (_ : string) : Ini := mkIni (λ _ _, None) (λ _ _, None) (λ _ _, None).

Definition example_line : CommandLine :=
  mkCommandLine false (mkArgs "./config.ini" None None None (Some 2) (Some "a/main") (Some 2) None) 0 "./log.txt".

#[local] Existing Instances Examples.zero_hash Examples.plain_fmt.

Definition no_error (_ : string) : option string := None.

(** The node whose API has the port 7003 does not stop. *)
Definition one_hangs (_ : Nodes) (d : DhtObj) : bool := negb (bool_decide (dht_apiPort d = Some 7003)).

Abbreviation example_main stops :=
  (main Examples.files Examples.bind_in_use [] stops no_error example_load (Ok example_line) ["add"; "exit"]).

(** Without a script. *)
Definition short_line : CommandLine :=
  mkCommandLine false (mkArgs "./config.ini" None None None (Some 2) None (Some 2) None) 0 "./log.txt".

Definition short_end : outcome Z * Entry :=
  let conf := main_config example_load (cl_args short_line) in
  Entry_mainLoop Examples.files Examples.bind_in_use [] one_hangs 5
    (Entry_ctor Examples.bind_in_use conf.1 conf.2 ["exit"]).2.

Lemma program_runs_witness :
  let conf := main_config example_load (cl_args example_line) in
  ∃ e, Entry_ctor Examples.bind_in_use conf.1 conf.2 ["add"; "exit"] = (Ok tt, e) ∧
    length (m_nodes (nodes e)) = 2%nat ∧ getDifficulty (statics (nodes e)) = 2 ∧
    (∃ n, ∀ fuel, (n ≤ fuel)%nat →
      (∃ p, example_main Examples.all_return fuel = (Ok 0, p)) ∨ ∃ why, (example_main Examples.all_return fuel).1 = UB why) ∧
    (main Examples.files Examples.bind_in_use [] one_hangs no_error example_load (Ok short_line) ["exit"] 5).1 = NoFuel.
Proof.
  cbv zeta.
  destruct (program_runs Examples.files Examples.bind_in_use [] Examples.all_return no_error example_load
    Examples.bind_in_use_distinct 3 example_line ["add"; "exit"] Examples.files_short eq_refl)
    as [(what & [=] & _)|[(what & E & _)|(g & e & _ & E & Hl & _ & Hs & Hn & _)]].
  { exfalso. vm_compute in E. discriminate E. }
  destruct (program_runs Examples.files Examples.bind_in_use [] one_hangs no_error example_load
    Examples.bind_in_use_distinct 3 short_line ["exit"] Examples.files_short eq_refl)
    as [(what & [=] & _)|[(what & E' & _)|(g' & e' & _ & E' & _ & _ & _ & _ & Hw)]].
  { exfalso. vm_compute in E'. discriminate E'. }
  exists e. split; [exact E|]. split; [exact Hl|]. split; [apply Hs; vm_compute; lia|]. split.
  - destruct (Hn Examples.all_return_stop) as [n Hn']. exists n. intros fuel Hf.
    destruct (Hn' fuel Hf) as [(e1 & He & _)|Hu]; [left|right; exact Hu]. eexists. exact He.
  - apply (Hw 5%nat short_end.2 (mkDhtObj 1 (Some 7003))); [| |reflexivity].
    + apply (f_equal snd) in E'. cbn [snd] in E'. rewrite <- E'. by vm_compute.
    + apply list_elem_of_lookup. exists 1%nat. by vm_compute.
Defined.

(** The whole session, run: the script is opened, the lines are read. *)
Example example_session : (example_main Examples.all_return 2000).1 = Ok 0.
Proof. by vm_compute. Qed.
