(* ===== verification/Scenario.v ===== *)
(** * Scenario: a concrete network

    Three members on one host, a fourth that joins, with a hash function that
    is easy to compute in place of SHA-256. Each lemma applies a theorem of the
    library to this network and so shows that its assumptions can hold. *)

From stdpp Require Import functions.
From S2P Require Import Cleaner.
From S2P Require Import Prelude Util Ring NodeInfo Message Peer Topology Lookup Network Dht Invariant.
From S2P Require Import Connection Api PoW Maintenance Growth Storage Failure Robust Service Converge Interleave Settle Heal Survive Grown.

(** The sum of the bytes as identifier; an all-zero SHA-1. *)
#[local] Instance sum_hash : HashFns := {
  sha256 l := replicate 31 0 ++ [fold_right Z.add 0 l `mod` 256];
  sha1 _ := replicate 20 0;
}.

#[local] Instance sum_hash_ok : HashOk sum_hash.
Proof.
  constructor.
  - intros l. split; [|done]. apply Forall_app. split; [by apply Forall_replicate|].
    constructor; [|constructor]. apply Z.mod_pos_bound. lia.
  - intros l. split; [by apply Forall_replicate|done].
Qed.

Definition n1 : addr := ("127.0.0.1", 4001).
Definition n2 : addr := ("127.0.0.1", 4002).
Definition n3 : addr := ("127.0.0.1", 4003).
Definition n4 : addr := ("127.0.0.1", 4004).

Definition three : gset addr := {[n1; n2; n3]}.

Lemma three_cases a : a ∈ ({[n4]} ∪ three : gset addr) → a = n4 ∨ a = n1 ∨ a = n2 ∨ a = n3.
Proof. unfold three. rewrite !elem_of_union, !elem_of_singleton. tauto. Qed.

Lemma three_mem : n1 ∈ three ∧ n2 ∈ three ∧ n3 ∈ three ∧ n4 ∉ three.
Proof.
  unfold three. rewrite !elem_of_union, !elem_of_singleton.
  split_and!; [tauto..|]. intros [[?|?]|?]; done.
Qed.

Lemma four_spread : spread ({[n4]} ∪ three).
Proof.
  intros a b Ha%three_cases Hb%three_cases E.
  destruct Ha as [->|[->|[->| ->]]], Hb as [->|[->|[->| ->]]]; try done; revert E; by vm_compute.
Qed.

Lemma three_spread : spread three.
Proof. apply (spread_union three n4), four_spread. Qed.

Lemma three_size : size three = 3%nat.
Proof. by vm_compute. Qed.

Abbreviation ring3 := (ring_of three).
Definition net : World := ring_world three initial_statics 1000.

Lemma net_ideal : ideal ring3 net.
Proof. apply ring_world_ideal, three_spread. Qed.

Lemma ring3_ok : ring_ok ring3.
Proof. apply ring_of_ok, three_spread. Qed.

Lemma enough : (size (members ring3) + 2 <= 5)%nat.
Proof. change (members ring3) with three. by rewrite three_size. Qed.

Lemma m1 : n1 ∈ members ring3.
Proof. apply three_mem. Qed.

Lemma m2 : n2 ∈ members ring3.
Proof. apply three_mem. Qed.

Lemma m3 : n3 ∈ members ring3.
Proof. apply three_mem. Qed.

(** ** Lookup *)

Lemma lookup_correct_witness : ∃ b,
  env_rpc (PeerEnv := world_env true LOCAL 5 5 n2) n1.1 n1.2 (GetSuccessorReq (aid n4)) net
  = (Ok (Some (buildNode (nd b))), net) ∧ ∀ b', responsible ring3 (be_num (aid n4)) b' ↔ b' = b.
Proof.
  exact (lookup_correct true LOCAL 5 5 ring3 net (aid n4) n2 n1 ring3_ok net_ideal m1 (aid_ok n4) enough enough).
Defined.

(** ** Maintenance *)

Lemma net_n1 : w_nodes net !! n1 = Some (ring_node ring3 n1).
Proof. apply ring_world_lookup, three_mem. Qed.

Lemma net_n2 : w_nodes net !! n2 = Some (ring_node ring3 n2).
Proof. apply ring_world_lookup, three_mem. Qed.

Lemma net_n3 : w_nodes net !! n3 = Some (ring_node ring3 n3).
Proof. apply ring_world_lookup, three_mem. Qed.

Lemma index_ok : (7 < key_bits)%nat.
Proof. vm_compute. lia. Qed.

Lemma main_loop_keeps_ring_witness : ∃ next goes_on t,
  mainLoop_turn (H0 := world_env true LOCAL 5 5 n1) (λ m, m) 10 (λ _, false) 7 net
    = (Ok (next, goes_on), w_update n1 (with_fingers t) net) ∧
  (next < key_bits)%nat ∧ ideal ring3 (w_update n1 (with_fingers t) net).
Proof.
  exact (main_loop_keeps_ring true LOCAL 5 ring3 net n1 _ (λ m, m) 10 (λ _, false) 7 5
    ring3_ok net_ideal m1 net_n1 index_ok enough enough).
Defined.

Lemma fingers_repaired_witness : ∃ t, let w' := w_update n2 (with_fingers t) net in
  fixFingers_n (world_env true PASS_ON 5 5 n2) key_bits 0 net = (Ok 0%nat, w') ∧ ideal ring3 w' ∧
  ∀ j, (j < key_bits)%nat → right_finger ring3 n2 j (with_fingers t (ring_node ring3 n2)).
Proof.
  exact (fingers_repaired true PASS_ON 5 ring3 net n2 _ 5 ring3_ok net_ideal m2 net_n2 enough enough).
Defined.

(** ** Joining *)

(** The fourth node is running and has not entered the network. *)
Definition new_node : NodeInformation := NodeInformation_ctor n4.1 n4.2.

Definition net4 : World := mkWorld (<[n4 := new_node]> (w_nodes net)) initial_statics 1000.

Lemma net4_ideal : ideal ring3 net4.
Proof.
  intros a Ha. destruct (net_ideal a Ha) as (s & Hs & Hv). exists s. split; [|done]. cbn.
  rewrite lookup_insert_ne; [done|]. intros <-. by apply three_mem in Ha.
Qed.

Lemma net4_new : w_nodes net4 !! n4 = Some new_node.
Proof. apply lookup_insert_eq. Qed.

Lemma new_outside : outside n4 new_node.
Proof. done. Qed.

Lemma net4_data : data_ok three net4.
Proof.
  intros a s k v e Ha Hs Hk. exfalso. assert (a ≠ n4) as Hne by (intros ->; by apply three_mem in Ha).
  change (<[n4 := new_node]> (w_nodes net) !! a = Some s) in Hs.
  rewrite lookup_insert_ne in Hs by done. unfold net in Hs. rewrite (ring_world_lookup three initial_statics 1000 a Ha) in Hs.
  by injection Hs as <-.
Qed.

Lemma n4_solution : ∃ solution,
  solve_puzzle 1 0 (host_port n4.1 n4.2) (getDifficulty (w_statics net4)) = Ok solution.
Proof. eexists. vm_compute. reflexivity. Qed.

Lemma enough3 : (size three + 2 <= 5)%nat.
Proof. by rewrite three_size. Qed.

Lemma n4_new : n4 ∉ three.
Proof. apply three_mem. Qed.

Lemma n1_old : n1 ∈ three.
Proof. apply three_mem. Qed.

Lemma join_then_stabilize_witness : ∃ w',
  (join (H0 := world_env true LOCAL 5 5 n4) (kj_wait None) 1 (nd n1);;
   stabilize (H0 := world_env true LOCAL 5 5 n4);;
   stabilize (H0 := world_env true LOCAL 5 5 (rpred (ring_of ({[n4]} ∪ three)) n4))) net4 = (Ok tt, w') ∧
  ideal (ring_of ({[n4]} ∪ three)) w'.
Proof.
  destruct n4_solution as [solution Hsol].
  exact (join_then_stabilize true LOCAL 5 three n4 n1 net4 new_node 1 solution 5 four_spread n4_new n1_old
    net4_ideal net4_data net4_new new_outside Hsol enough3 enough3).
Defined.

Lemma join_hands_over_its_items_witness :
  (∃ w' q sq sq' sn', responsible ring3 (pos n4) q ∧
     join (H0 := world_env true LOCAL 5 5 n4) (kj_wait None) 1 (nd n1) net4 = (Ok tt, w') ∧
     w_nodes net4 !! q = Some sq ∧ w_nodes w' !! q = Some sq' ∧ w_nodes w' !! n4 = Some sn' ∧
     ∀ k, handed (responsible (ring_of ({[n4]} ∪ three)) (be_num (sha256 k)) n4) sq new_node sq' sn' k) ∧
  ∃ w', join (H0 := world_env true LOCAL 5 5 n4) (kj_wait (Some "wait")) 1 (nd n1) net4 = (Exn "wait", w') ∧
    ∀ a, a ≠ n4 → w_nodes w' !! a = w_nodes net4 !! a.
Proof.
  destruct n4_solution as [solution Hsol]. split.
  - destruct (join_hands_over_its_items true LOCAL 5 three n4 n1 net4 new_node None 1 solution 5 four_spread n4_new n1_old
      net4_ideal net4_data net4_new new_outside Hsol enough3 enough3)
      as (w' & q & sq & sq' & sn' & Hq & Hj & Hsq & Hsq' & Hsn' & _ & Hk & _).
    exists w', q, sq, sq', sn'. exact (conj Hq (conj Hj (conj Hsq (conj Hsq' (conj Hsn' Hk))))).
  - destruct (join_hands_over_its_items true LOCAL 5 three n4 n1 net4 new_node (Some "wait") 1 solution 5 four_spread n4_new n1_old
      net4_ideal net4_data net4_new new_outside Hsol enough3 enough3)
      as (w' & q & sq & sq' & sn' & _ & Hj & _ & _ & _ & _ & _ & Hk).
    exists w'. exact (conj Hj Hk).
Defined.

(** ** PUT and GET *)

Definition key0 : list Z := replicate 32 1.

Definition put0 : Message_DHT_PUT :=
  mkPut (mkData [] (mkHeader 43 constants.DHT_PUT)) (mkExt 60 3 0) key0 [104; 105].

Definition get0 : Message_KEY := mkKey (mkData [] (mkHeader 36 constants.DHT_GET)) key0.

Lemma limit_ok : 0 <= getReplicationLimitOnEachNode (w_statics net) <= 255.
Proof. done. Qed.

Lemma put_then_get_witness : ∃ task w1,
  let answer := header_bytes (u16 (Z.of_nat (4 + 32 + 2))) constants.DHT_SUCCESS ++ key0 ++ [104; 105] in
  onDhtPut (H0 := world_env true LOCAL 5 5 n1) put0 net = (Ok ([], task), w1) ∧
  onDhtGet (H0 := world_env true LOCAL 5 5 n2) get0 w1 = (Ok answer, w1) ∧
  ∀ t, task = Some t → ∃ counts w2,
    run_replication (H0 := world_env true LOCAL 5 5 n1) t w1 = (Ok counts, w2) ∧
    onDhtGet (H0 := world_env true LOCAL 5 5 n2) get0 w2 = (Ok answer, w2).
Proof.
  exact (put_then_get true LOCAL 5 ring3 ring3_ok 5 enough enough put0 get0 net n1 n2
    net_ideal m1 m2 eq_refl limit_ok).
Defined.

Lemma replication_within_limit_witness : ∃ r0 t w1 counts stores,
  onDhtPut (H0 := world_env true LOCAL 5 5 n1) put0 net = (Ok ([], Some t), w1) ∧
  responsible ring3 (be_num (sha256 key0)) r0 ∧
  run_replication (H0 := world_env true LOCAL 5 5 n1) t w1 = (Ok counts, apply_stores t stores w1) ∧
  planned ring3 t 0 (Z.to_nat (3 - 1)) stores ∧
  ∀ r, r ∈ members ring3 → (if decide (r = r0) then 1 else 0) + copies_at r stores <= Z.max 1 5.
Proof.
  refine (replication_within_limit true LOCAL 5 ring3 ring3_ok 5 enough enough put0 net n1
    net_ideal m1 _ limit_ok). done.
Defined.

Lemma get_consults_first_copy_witness : ∃ r s r1 s1,
  responsible ring3 (be_num (sha256 key0)) r ∧ w_nodes net !! r = Some s ∧
  responsible ring3 (be_num (sha256 (replica_key key0 1))) r1 ∧ w_nodes net !! r1 = Some s1 ∧
  onDhtGet (H0 := world_env true LOCAL 5 5 n1) get0 net
  = (Ok (match getData key0 s, getData (replica_key key0 1) s1 with
         | Some v, _ =>
             header_bytes (u16 (Z.of_nat (4 + length key0 + length v))) constants.DHT_SUCCESS ++ key0 ++ v
         | None, Some v =>
             if average_ge (w_statics net) 1
             then header_bytes (u16 (Z.of_nat (4 + length key0 + length v))) constants.DHT_SUCCESS ++ key0 ++ v
             else header_bytes (u16 (Z.of_nat (4 + length key0))) constants.DHT_FAILURE ++ key0
         | None, None => header_bytes (u16 (Z.of_nat (4 + length key0))) constants.DHT_FAILURE ++ key0
         end), net).
Proof.
  exact (get_consults_first_copy true LOCAL 5 ring3 ring3_ok 5 enough enough get0 net n1 net_ideal m1).
Defined.

Definition puth0 : Message_DHT_PUT_KEY_IS_HASH_OF_DATA :=
  mkPutHash (mkData [] (mkHeader 10 constants.DHT_PUT_KEY_IS_HASH_OF_DATA)) (mkExt 0 2 0) [104; 105] [104; 105].

Definition geth0 : Message_DHT_GET_KEY_IS_HASH_OF_DATA :=
  mkGetHash (mkData [] (mkHeader 36 constants.DHT_GET_KEY_IS_HASH_OF_DATA)) (sha256 [104; 105]).

Lemma put_hash_then_get_hash_witness : ∃ task w1,
  let answer := header_bytes (u16 (Z.of_nat (4 + length (gh_key geth0) + 2)))
                  constants.DHT_SUCCESS ++ gh_key geth0 ++ [104; 105] in
  onDhtPutKeyIsHashOfData (H0 := world_env true LOCAL 5 5 n1) puth0 net = (Ok ([], task), w1) ∧
  onDhtGetKeyIsHashOfData (H0 := world_env true LOCAL 5 5 n2) (replicate 32 9) geth0 w1 = (Ok answer, w1) ∧
  ∀ t, task = Some t → ∃ counts w2,
    run_replication (H0 := world_env true LOCAL 5 5 n1) t w1 = (Ok counts, w2) ∧
    onDhtGetKeyIsHashOfData (H0 := world_env true LOCAL 5 5 n2) (replicate 32 9) geth0 w2 = (Ok answer, w2).
Proof.
  exact (put_hash_then_get_hash true LOCAL 5 ring3 ring3_ok 5 enough enough puth0 geth0 (replicate 32 9) net n1 n2
    net_ideal m1 m2 eq_refl eq_refl eq_refl limit_ok).
Defined.

Lemma missing_hash : ∃ r s, responsible ring3 (be_num (gh_key geth0)) r ∧ w_nodes net !! r = Some s ∧
  getData (gh_key geth0) s = None.
Proof.
  destruct (dht_getSuccessor_ideal true LOCAL 5 ring3 net n1 (gh_key geth0) 5 ring3_ok net_ideal m1
    (sha256_ok _) enough enough) as (r & Hr & _).
  exists r, (ring_node ring3 r). split_and!; [done|apply ring_world_lookup, Hr|done].
Qed.

(** No one has stored the value: the handler is undefined. *)
Lemma get_hash_missing_or_wrong_witness :
  onDhtGetKeyIsHashOfData (H0 := world_env true LOCAL 5 5 n1) (replicate 32 9) geth0 net
  = (UB "dereference of an empty optional", net).
Proof.
  destruct missing_hash as (r & s & Hr & Hs & Hno).
  exact (proj1 (get_hash_missing_or_wrong true LOCAL 5 ring3 ring3_ok 5 enough enough geth0 (replicate 32 9) net n1 r s
    net_ideal m1 (sha256_ok _) eq_refl Hr Hs) Hno).
Defined.

(** ** Proof of work *)

Lemma pow_is_target_check_witness : ∃ digest, pow_digest "a" = Ok digest ∧
  (pow_leading 8 digest = true ↔
   8 <= 160 ∧ be_num (sha1 (bytes_of_string "a")) < 2 ^ (160 - 8)).
Proof. refine (pow_is_target_check "a" 8 _). lia. Defined.

Lemma solve_puzzle_first_witness : ∃ digest,
  solve_puzzle 1 0 "127.0.0.1:4004" 8 = Ok ("127.0.0.1:4004" +:+ to_string 0, digest).
Proof. refine (solve_puzzle_first "127.0.0.1:4004" 8 0 1 _ _ _ _ _); done || lia. Defined.

Lemma difficulty_above_160_unsolvable_witness :
  is_Ok (solve_puzzle 1000 0 "127.0.0.1:4004" 200) = false.
Proof. refine (proj2 (difficulty_above_160_unsolvable 200 _) 1000%nat "127.0.0.1:4004" 0). lia. Defined.

(** A response to another address's puzzle is refused. *)
Lemma pow_server_accepts_iff_witness :
  srv_sendPoWPuzzleResponse (H0 := world_env true LOCAL 5 5 n1) true LOCAL 5 (buildNode (nd n4))
    "127.0.0.1:40010" "0" net = (Exn "KJ_ASSERT", net).
Proof.
  refine (proj2 (pow_server_accepts_iff (H0 := world_env true LOCAL 5 5 n1) true LOCAL 5 net initial_statics
    (buildNode (nd n4)) "127.0.0.1:40010" "0" eq_refl _) _); [done|].
  intros [Htest _]. revert Htest. by vm_compute.
Defined.

(** ** Failures *)

Lemma notify_moves_predecessor_closer_witness : ∃ w',
  env_rpc (PeerEnv := world_env true LOCAL 5 1 n2) n4.1 n4.2 (NotifyReq (buildNode (nd n3))) net4 = (Ok tt, w') ∧
  (True → w' = w_update n4 (setPredecessor (Some (nd n3))) net4) ∧ (¬ True → w' = net4).
Proof.
  exact (notify_moves_predecessor_closer true LOCAL 5 0 n2 n4 n3 net4 new_node None net4_new eq_refl eq_refl).
Defined.

(** The second member has gone. *)
Definition net_gone : World := mkWorld (delete n2 (w_nodes net)) initial_statics 1000.

Lemma gone_n1 : w_nodes net_gone !! n1 = Some (ring_node ring3 n1).
Proof. rewrite <- net_n1. by apply lookup_delete_ne. Qed.

Lemma gone_n2 : w_nodes net_gone !! n2 = None.
Proof. apply lookup_delete_eq. Qed.

Lemma n1_links : rsucc ring3 n1 = n2 ∧ rpred ring3 n1 = n3.
Proof. by vm_compute. Qed.

Lemma n1_view : node_view three n1 (Some n3) n2 (ring_node ring3 n1).
Proof.
  pose proof (proj1 (node_view_ring ring3 n1 _) (ring_node_view ring3 n1 ring3_ok m1)) as Hv.
  by rewrite (proj1 n1_links), (proj2 n1_links) in Hv.
Qed.

Lemma distinct_123 : pos n3 ≠ pos n1 ∧ pos n2 ≠ pos n1.
Proof. by vm_compute. Qed.

Lemma dead_successor_dropped_witness :
  stabilize (H0 := world_env true LOCAL 5 2 n1) net_gone = (Ok tt, net_gone) ∧
  fixFingers (H0 := world_env true LOCAL 5 2 n1) 0 net_gone
  = (Ok 1%nat, w_update n1 (λ _, with_fingers (<[0%nat := None]> (m_fingerTable (ring_node ring3 n1)))
                                   (ring_node ring3 n1)) net_gone).
Proof.
  refine (dead_successor_dropped true LOCAL 5 1 three n1 (Some n3) n2 net_gone _ gone_n1 n1_view _
    (proj2 distinct_123) gone_n2).
  intros p' [= <-]. exact (proj1 distinct_123).
Defined.

Lemma n3_pred : getPredecessor (ring_node ring3 n3) = Some (nd n2).
Proof. unfold ring_node. cbn [getPredecessor setPredecessor m_predecessor]. by vm_compute. Qed.

Lemma gone_n3 : w_nodes net_gone !! n3 = Some (ring_node ring3 n3).
Proof. rewrite <- net_n3. by apply lookup_delete_ne. Qed.

Lemma checkPredecessor_drops_dead_witness :
  checkPredecessor (H0 := world_env true LOCAL 5 1 n3) net_gone
  = (Ok tt, match w_nodes net_gone !! n2 with
            | Some _ => net_gone
            | None => w_update n3 (setPredecessor None) net_gone
            end).
Proof. exact (checkPredecessor_drops_dead true LOCAL 5 0 n3 n2 net_gone _ gone_n3 n3_pred). Defined.

(** A node whose successor is [n2], which names [n3] whatever it is asked;
    nobody answers at [n3]. *)
Definition evil_node : NodeInformation := setSuccessor (Some (nd n2)) (NodeInformation_ctor n1.1 n1.2).

Definition evil_env : PeerEnv unit := {|
  env_ni := λ w, (Ok evil_node, w);
  env_update _ := λ w, (Ok tt, w);
  env_statics := λ w, (Ok initial_statics, w);
  env_set_statics _ := λ w, (Ok tt, w);
  env_now := λ w, (Ok 0, w);
  env_rpc A ip port r := λ w,
    match r in PeerRequest A return outcome A * unit with
    | GetClosestPrecedingReq _ =>
        if decide ((ip, port) = n2) then (Ok (Some (buildNode (nd n3)), None), w)
        else (Exn "connection refused", w)
    | GetPredecessorReq =>
        if decide ((ip, port) = n2) then (Ok (Some (buildNode (nd n1))), w)
        else (Exn "connection refused", w)
    | _ => (Exn "connection refused", w)
    end;
|}.

Lemma dishonest_peer_blocks_lookup_witness :
  peer_getSuccessor (H0 := evil_env) LOCAL 1000 (aid n4) tt = (NoFuel, tt).
Proof.
  refine (dishonest_peer_blocks_lookup (H0 := evil_env) tt evil_node (nd n2) (nd n3) (aid n4)
    eq_refl _ _ _ _ _ _ _ eq_refl _ _ 1000).
  - done.
  - intros q [= <-]. by vm_compute.
  - intros q [= <-]. by eexists.
  - by vm_compute.
  - by vm_compute.
  - by vm_compute.
  - done.
  - by vm_compute.
  - intros ask. by exists "connection refused".
Defined.

(** ** Node state and wire formats *)

Lemma getClosestPreceding_highest_witness : ∃ c,
  getClosestPreceding (aid n1) new_node = Ok c ∧ highest_below key_bits (aid n1) new_node c.
Proof. refine (getClosestPreceding_highest (aid n1) new_node _). apply table_ok_ctor. Defined.

Lemma getSuccessor_first_populated_witness :
  getSuccessor (setSuccessor (Some (nd n1)) new_node) = Some (nd n1).
Proof. refine (proj2 (proj2 (getSuccessor_first_populated new_node _)) (nd n1)). apply table_ok_ctor. Defined.

Lemma clean_pass_spec_witness :
  m_data (clean_pass (λ _, 11) (setDataExpires [1] [2] 10 new_node)) !! [1] = None.
Proof.
  refine (proj1 (proj2 (clean_pass_spec (λ _, 11) (setDataExpires [1] [2] 10 new_node) [1] [2] 10 _)) _);
    [apply lookup_insert_eq|done].
Defined.

Lemma setId_ignored_while_cached_witness :
  Node_getId (Node_setId (Some (replicate 32 5)) (nd n1)) = Node_getId (nd n1).
Proof. exact (proj1 (setId_ignored_while_cached (nd n1) (replicate 32 5) eq_refl)). Defined.

Lemma statics_set_once_witness :
  let st1 := setReplicationLimitOnEachNode 9 (setDifficulty 12 initial_statics) in
  getDifficulty st1 = 12 ∧ getReplicationLimitOnEachNode st1 = 9 ∧
  setDifficulty 20 st1 = st1 ∧ setReplicationLimitOnEachNode 30 st1 = st1.
Proof. refine (statics_set_once initial_statics 12 20 9 30 eq_refl _ eq_refl _); done. Defined.

Lemma wire_node_roundtrip_witness : nodeFromReader (buildNode (nd n1)) = nd n1.
Proof. exact (proj1 (wire_node_roundtrip (nd n1) (aid n2) eq_refl)). Defined.

(** ** Reachable states *)

(** One node has started. *)
Definition started : World :=
  mkWorld (<[n1 := setBootstrapNode (nd <$> Some n2) (NodeInformation_ctor n1.1 n1.2)]> ∅) initial_statics 0.

Lemma started_reachable : reachable true LOCAL 5 started.
Proof.
  apply (reach_step _ _ _ (mkWorld ∅ initial_statics 0)); [apply reach_start|].
  exact (node_starts true LOCAL 5 n1 (Some n2) (mkWorld ∅ initial_statics 0)).
Qed.

Lemma started_n1 :
  w_nodes started !! n1 = Some (setBootstrapNode (nd <$> Some n2) (NodeInformation_ctor n1.1 n1.2)).
Proof. apply lookup_insert_eq. Qed.

Lemma reachable_well_formed_witness :
  node_ok (setBootstrapNode (nd <$> Some n2) (NodeInformation_ctor n1.1 n1.2)).
Proof. exact (reachable_well_formed true LOCAL 5 started n1 _ started_reachable started_n1). Defined.

Lemma started_ok : world_ok started.
Proof.
  apply (happens_ok true LOCAL 5 (mkWorld ∅ initial_statics 0)).
  - intros a s Hs. cbn in Hs. by rewrite lookup_empty in Hs.
  - exact (node_starts true LOCAL 5 n1 (Some n2) (mkWorld ∅ initial_statics 0)).
Qed.

Lemma no_index_out_of_bounds_witness :
  (env_rpc (PeerEnv := world_env true LOCAL 5 5 n2) n1.1 n1.2 (GetClosestPrecedingReq (aid n3)) started).1
    ≠ Exn "index out of bounds" ∧
  (mainLoop_turn (H0 := world_env true LOCAL 5 5 n1) (λ m, m) 10 (λ _, false) 255 started).1
    ≠ Exn "index out of bounds".
Proof.
  split.
  - exact (proj1 (no_index_out_of_bounds true LOCAL 5 started started_ok) _ 5%nat n2 _ _
      (GetClosestPrecedingReq (aid n3))).
  - refine (proj1 (proj2 (no_index_out_of_bounds true LOCAL 5 started started_ok) 5%nat n1 10%nat
      (λ _, false) 255%nat _)). change key_bits with 256%nat. lia.
Defined.

(** ** The service *)

Definition two_clients : Sys :=
  mkSys net [(n1, Connection_ctor [0; 0; 0; 0]); (n3, Connection_ctor [0; 0; 0; 0])] [].

(** Client 0 stores an item with copies, client 1 reads it and a key that is
    not there, with a replication and a turn of a main loop in between; once
    there is room for ten bytes only. *)
Definition client_ops : list Op :=
  [OpPut 0 (replicate 32 5) [1; 2; 3] 300 4 100; OpGet 1 (replicate 32 5) 100; OpReplicate 0;
   OpMaintain n2 7 (λ _, false); OpGet 1 (replicate 32 5) 10; OpGet 1 (replicate 32 6) 100].

Lemma two_clients_represent : represents ring3 two_clients 2 ∅.
Proof.
  apply (start_represents three initial_statics 1000 (sys_clients two_clients)); [apply three_spread|by vm_compute|].
  repeat constructor; cbn [fst snd]; apply three_mem || by apply idle_start.
Qed.

Lemma client_ops_ok : Forall (op_ok ring3 2) client_ops.
Proof. repeat constructor; try lia; apply three_mem || apply index_ok. Qed.

Lemma service_refines_map_witness : ∃ sys',
  exec true LOCAL 5 5 (λ m, m) [] client_ops two_clients
  = Ok (sys', [(0%nat, put_frame (replicate 32 5) [1; 2; 3] 300 4);
               (1%nat, success_bytes (replicate 32 5) [1; 2; 3]);
               (1%nat, take 10 (success_bytes (replicate 32 5) [1; 2; 3]));
               (1%nat, failure_bytes (replicate 32 6))]) ∧
  represents ring3 sys' 2 {[replicate 32 5 := [1; 2; 3]]}.
Proof.
  exact (service_refines_map true LOCAL 5 5 (λ m, m) [] ring3 ring3_ok enough enough client_ops two_clients 2 ∅
    two_clients_represent client_ops_ok).
Defined.

(** ** Dead fingers *)

(** The second member has a finger to the fourth node, which is gone. *)
Definition net_dead : World :=
  w_update n2 (λ s, with_fingers (<[5%nat := Some (nd n4)]> (m_fingerTable s)) s) net.

(** An identifier past the fourth node. *)
Definition far_id : list Z := aid ("127.0.0.1", 4009).

Lemma n4_stale a : a = n1 ∨ a = n2 → stale ring3 {[n4]} a n4.
Proof.
  intros Ha. split; [by apply elem_of_singleton|].
  destruct Ha as [-> | ->]; intros [_ [Heq|Hlt]]; revert Heq || revert Hlt; by vm_compute.
Qed.

Lemma net_dead_faulty : faulty ring3 {[n4]} net_dead.
Proof.
  constructor.
  - intros a Ha. destruct (net_ideal a Ha) as (s & Hs & [Hn Ht Hp Hf Hfs]). unfold net_dead.
    destruct (decide (n2 = a)) as [<-|Hne].
    + rewrite (lookup_update_eq _ _ _ _ Hs). eexists. split; [done|]. constructor; [done| |done| |]; cbn.
      * unfold table_ok. cbn. by rewrite length_insert.
      * by rewrite list_lookup_insert_ne.
      * intros j n Hj. apply list_lookup_insert_Some in Hj as [(<- & [= <-] & _)|[_ Hj]].
        -- exists n4. split; [|done]. right. apply n4_stale. by right.
        -- destruct (Hfs j n Hj) as (b & Hb & ->). eauto.
    + rewrite lookup_update_ne by done. exists s. split; [done|]. constructor; [done..|].
      intros j n Hj. destruct (Hfs j n Hj) as (b & Hb & ->). eauto.
  - intros d ->%elem_of_singleton. vm_compute. reflexivity.
  - intros a d Ha ->%elem_of_singleton Heq. apply four_spread in Heq as ->.
    + by apply three_mem in Ha.
    + by apply elem_of_union_r.
    + by apply elem_of_union_l, elem_of_singleton.
Qed.

Lemma lookup_survives_dead_fingers_witness : ∃ b,
  env_rpc (PeerEnv := world_env true LOCAL 8 2 n3) n2.1 n2.2 (GetSuccessorReq far_id) net_dead
  = (Ok (Some (buildNode (nd b))), net_dead) ∧ ∀ b', responsible ring3 (be_num far_id) b' ↔ b' = b.
Proof.
  refine (lookup_survives_dead_fingers true 8 2 ring3 {[n4]} net_dead far_id n3 n2
    ring3_ok net_dead_faulty m2 (aid_ok _) _ _); [|lia].
  change (members ring3) with three. rewrite three_size, size_singleton. lia.
Defined.

Lemma net_dead_n2 : ∃ s, w_nodes net_dead !! n2 = Some s ∧ getClosestPreceding far_id s = Ok (Some (nd n4)).
Proof. eexists. split; [vm_compute; reflexivity|vm_compute; reflexivity]. Qed.

Lemma far_not_n2 : ¬ responsible ring3 (be_num far_id) n2.
Proof. intros [_ Hmin]. specialize (Hmin n1 m1). revert Hmin. by vm_compute. Qed.

Lemma pass_on_gives_up_witness :
  peer_getSuccessor (H0 := world_env true PASS_ON 8 2 n2) PASS_ON 8 far_id net_dead = (Ok None, net_dead).
Proof.
  destruct net_dead_n2 as (s & Hs & Hc).
  exact (pass_on_gives_up true 8 1 ring3 {[n4]} net_dead far_id n2 n4 s ring3_ok net_dead_faulty m2 (aid_ok _)
    Hs Hc ltac:(by apply elem_of_singleton) far_not_n2).
Defined.

(** The second node is gone from a ring of four; the first member has it in a
    finger that is not its first one. *)
Abbreviation ring134 := (ring_of {[n1; n3; n4]}).

Definition net_gap : World :=
  w_update n1 (λ s, with_fingers (<[1%nat := Some (nd n2)]> (m_fingerTable s)) s)
    (ring_world {[n1; n3; n4]} initial_statics 1000).

Definition gap_node : NodeInformation :=
  with_fingers (<[1%nat := Some (nd n2)]> (m_fingerTable (ring_node ring134 n1))) (ring_node ring134 n1).

Lemma gap_n1 : n1 ∈ ({[n1; n3; n4]} : gset addr).
Proof. set_solver. Qed.

(** The first member of a ring of three whose second finger still points at a
    dead node before its successor, asked for the identifier of the third. *)
Lemma dead_finger_misleads_witness :
  env_rpc (PeerEnv := world_env true LOCAL 20 20 n3) n1.1 n1.2 (GetSuccessorReq (aid n4)) net_gap
  = (Ok (Some (buildNode (nd n3))), net_gap) ∧
  ¬ responsible ring134 (be_num (aid n4)) n3.
Proof.
  refine (let H := dead_finger_misleads true 15 18 n3 n1 n3 n2 (Some n4) net_gap gap_node
    (ring_node ring134 n3) (aid n4) _ eq_refl _ _ _ _ _ _ _ _ _ _ _ in
    conj (proj1 H) (proj2 H ring134 gap_n1)).
  - exact (lookup_update_eq n1 _ _ _ (ring_world_lookup {[n1; n3; n4]} initial_statics 1000 n1 gap_n1)).
  - by vm_compute.
  - by vm_compute.
  - rewrite <- (ring_world_lookup {[n1; n3; n4]} initial_statics 1000) by set_solver. by apply lookup_alter_ne.
  - by vm_compute.
  - by vm_compute.
  - apply aid_ok.
  - intros [E|[_ E]]; vm_compute in E; [done|by apply E].
  - intros p [= <-] [E|[E _]]; [by vm_compute in E|by apply E].
  - by vm_compute.
  - by vm_compute.
  - by vm_compute.
Defined.

(** ** Convergence *)

(** Everybody knows the first node only. *)
Definition star : World := mkWorld
  (<[n1 := setSuccessor (Some (nd n1)) (NodeInformation_ctor n1.1 n1.2)]>
   (<[n2 := setSuccessor (Some (nd n1)) (NodeInformation_ctor n2.1 n2.2)]>
    {[n3 := setSuccessor (Some (nd n1)) (NodeInformation_ctor n3.1 n3.2)]})) initial_statics 1000.

Definition star_links : Links := mkLinks (λ _, n1) (λ _, None).

Lemma star_network : network three star star_links ∧ anchored three n1 star_links.
Proof.
  assert (∀ a, a ∈ three → a = n1 ∨ a = n2 ∨ a = n3) as Hcases.
  { intros a Ha. destruct (three_cases a) as [->|]; [apply elem_of_union; by right|by apply three_mem in Ha|done]. }
  split; [split|].
  - constructor; [|done..]. intros a Ha. exists (setSuccessor (Some (nd n1)) (NodeInformation_ctor a.1 a.2)). split.
    + by destruct (Hcases a Ha) as [->|[->| ->]].
    + constructor; [done|done|done|done|done|]. intros j n Hj. exists n1. split; [apply three_mem|].
      cbn [setSuccessor with_fingers m_fingerTable NodeInformation_ctor] in Hj.
      apply list_lookup_insert_Some in Hj as [(_ & [= <-] & _)|[_ Hj]]; [done|]. by apply lookup_replicate in Hj as [? _].
  - constructor; [intros a _; apply three_mem|done|done].
  - split; [apply three_mem|]. intros a _. cbn [succ_of star_links in_arc]. generalize (pos a), (pos n1). intros x y [Hne [E|Hlt]]; [congruence|lia].
Qed.

Lemma three_listed a : a ∈ [n1; n2; n3] ↔ a ∈ three.
Proof. unfold three. rewrite !elem_of_union, !elem_of_singleton, !elem_of_cons, elem_of_nil. tauto. Qed.

Lemma rounds_fair (X F : gset addr) l fixing k : (∀ a, a ∈ l ↔ a ∈ X) → F ⊆ X → (∀ a, a ∈ fixing → a ∈ F) →
  Forall (fair_events X F) (replicate k (round l fixing)).
Proof. intros Hl HF Hfix. apply Forall_replicate. by apply round_fair. Qed.

Definition three_round : list NetEvent := round [n1; n2; n3] [n1; n2; n3].

Lemma three_fair k : Forall (fair_events three three) (replicate k three_round).
Proof. apply rounds_fair; [apply three_listed|done|apply three_listed]. Qed.

Lemma three_rounds r : (size three * (2 * size three) < length (replicate (A := list NetEvent) 19 r))%nat.
Proof. rewrite length_replicate, three_size. lia. Qed.

Lemma three_fuel : (3 * size three + 2 <= 14)%nat.
Proof. rewrite three_size. lia. Qed.

Lemma three_depth : (size three + 2 <= 5)%nat.
Proof. rewrite three_size. lia. Qed.

Lemma from_zero (a : addr) : (0 < key_bits)%nat.
Proof. by vm_compute; lia. Qed.

Lemma stabilisation_converges_witness : ∃ net',
  net_run true LOCAL 14 5 (concat (replicate 19 three_round)) (at_rest (λ _, 0%nat) star) = Ok net' ∧
  settles true LOCAL 14 three 5 net'.
Proof.
  exact (stabilisation_converges true LOCAL 14 three star star_links n1 (λ _, 0%nat) _ 5 three_spread (proj1 star_network)
    (proj2 star_network) from_zero (three_fair 19) (three_rounds _) three_fuel three_depth).
Defined.

(** Two nodes join a third. *)
Definition one : gset addr := {[n1]}.

Definition net_two : World := mkWorld
  (<[n2 := NodeInformation_ctor n2.1 n2.2]> (<[n3 := NodeInformation_ctor n3.1 n3.2]>
     (w_nodes (ring_world one initial_statics 1000)))) initial_statics 1000.

Definition two_joins : list (addr * addr) := [(n2, n1); (n3, n1)].

Lemma two_joins_members : list_to_set two_joins.*1 ∪ one = three.
Proof.
  apply set_eq. intros a. unfold one, three. rewrite !elem_of_union, elem_of_list_to_set, !elem_of_singleton.
  cbn. rewrite !elem_of_cons, elem_of_nil. tauto.
Qed.

Lemma one_spread : spread one.
Proof. intros a b ->%elem_of_singleton ->%elem_of_singleton. done. Qed.

Lemma net_two_old a s : a ∈ one → w_nodes net_two !! a = Some s → s = ring_node (ring_of one) n1 ∧ a = n1.
Proof.
  intros ->%elem_of_singleton. pose proof (ring_world_lookup one initial_statics 1000 n1) as E.
  unfold net_two. cbn [w_nodes]. rewrite !lookup_insert_ne by done. rewrite E by (by apply elem_of_singleton).
  clear E. generalize (ring_node (ring_of one) n1). intros x [= <-]. split; reflexivity.
Qed.

Lemma net_two_ideal : ideal (ring_of one) net_two.
Proof.
  intros a Ha. destruct (ring_world_ideal one initial_statics 1000 one_spread a Ha) as (s & Hs & Hv). exists s. split; [|done].
  change (a ∈ one) in Ha. apply elem_of_singleton in Ha as ->. unfold net_two. cbn [w_nodes]. by rewrite !lookup_insert_ne by done.
Qed.

Lemma net_two_data : data_ok one net_two.
Proof. intros a s k v e Ha Hs Hk. destruct (net_two_old a s Ha Hs) as [-> _].
  change ((∅ : data_type) !! k = Some (v, e)) in Hk. rewrite lookup_empty in Hk. discriminate Hk. Qed.

Lemma two_can_join : Forall (can_join one net_two 1) two_joins.
Proof.
  assert (∀ n, n = n2 ∨ n = n3 → can_join one net_two 1 (n, n1)) as Hcan.
  { intros n Hn. split_and!; [intros E%elem_of_singleton; by destruct Hn; subst|by apply elem_of_singleton| |].
    - exists (NodeInformation_ctor n.1 n.2). split; [by destruct Hn as [->| ->]|done].
    - destruct Hn as [->| ->]; eexists; vm_compute; reflexivity. }
  repeat constructor; apply Hcan; auto.
Qed.

Lemma two_distinct : NoDup two_joins.*1.
Proof. apply (bool_decide_unpack _). by vm_compute. Qed.

Lemma joins_converge_witness :
  (∃ w1 net', join_all true LOCAL 14 None 5 1 two_joins net_two = (Ok [Ok tt; Ok tt], w1) ∧
     settles true LOCAL 14 one 5 (at_rest (λ _, 0%nat) w1) ∧
     net_run true LOCAL 14 5 (concat (replicate 19 three_round)) (at_rest (λ _, 0%nat) w1) = Ok net' ∧
     settles true LOCAL 14 three 5 net') ∧
  (∃ w1 net', join_all true LOCAL 14 (Some "wait") 5 1 two_joins net_two = (Ok [Exn "wait"; Exn "wait"], w1) ∧
     settles true LOCAL 14 one 5 (at_rest (λ _, 0%nat) w1) ∧
     net_run true LOCAL 14 5 (concat (replicate 19 three_round)) (at_rest (λ _, 0%nat) w1) = Ok net' ∧
     settles true LOCAL 14 three 5 net').
Proof.
  pose proof (λ refusal, joins_converge true LOCAL 14 one two_joins net_two n1 refusal 1 5 (λ _, 0%nat) (replicate 19 three_round)) as H.
  cbn zeta in H. rewrite two_joins_members in H. split.
  - exact (H None three_spread two_distinct ltac:(by apply elem_of_singleton) net_two_ideal net_two_data
      two_can_join from_zero (three_fair 19) (three_rounds _) three_fuel three_depth).
  - exact (H (Some "wait") three_spread two_distinct ltac:(by apply elem_of_singleton) net_two_ideal net_two_data
      two_can_join from_zero (three_fair 19) (three_rounds _) three_fuel three_depth).
Defined.

(** The fourth member of a ring of four stops. *)
Abbreviation ring4 := (ring_of ({[n4]} ∪ three)).

Lemma four_size : (size (members ring4) + 2 <= 6)%nat.
Proof. by vm_compute. Qed.

Lemma four_member : rpred ring4 n4 ∈ members ring4.
Proof. apply (ring_pred_mem ring4 (ring_of_ok _ four_spread)). apply elem_of_union. left. by apply elem_of_singleton. Qed.

Definition net_four : World := ring_world ({[n4]} ∪ three) initial_statics 1000.

Lemma net_four_ideal : ideal ring4 net_four.
Proof. exact (ring_world_ideal ({[n4]} ∪ three) initial_statics 1000 four_spread). Qed.

(** Its predecessor has repaired its fingers. *)
Lemma four_fingers : ∃ t, let p := rpred ring4 n4 in let w := w_update p (with_fingers t) net_four in
  ideal ring4 w ∧ w_nodes w !! p = Some (with_fingers t (ring_node ring4 p)) ∧
  ∀ i, (i < key_bits)%nat → right_finger ring4 p i (with_fingers t (ring_node ring4 p)).
Proof.
  pose proof (ring_world_lookup ({[n4]} ∪ three) initial_statics 1000 (rpred ring4 n4) four_member) as Hs.
  destruct (fixFingers_rounds true LOCAL 6 ring4 _ 6 key_bits (ring_of_ok _ four_spread) four_member four_size four_size
    _ _ 0 net_four_ideal Hs) as (t & _ & Hw' & Hf); [by vm_compute; lia|done|lia|].
  exists t. split_and!; [exact Hw'|exact (lookup_update_eq _ _ _ _ Hs)|exact Hf].
Qed.

Lemma four_near : cw (pos (rpred ring4 n4)) (pos n4) < 2 ^ 255.
Proof. by vm_compute. Qed.

(** An item whose owner is the fourth member; its first copy falls on the first. *)
Definition put4 : Message_DHT_PUT :=
  mkPut (mkData [] (mkHeader 42 constants.DHT_PUT)) (mkExt 60 3 0) (aid n4) [104; 105].

Definition get4 : Message_KEY := mkKey (mkData [] (mkHeader 36 constants.DHT_GET)) (aid n4).

Lemma four_check (P : addr → Prop) : P n4 → P n1 → P n2 → P n3 → ∀ b, b ∈ members ring4 → P b.
Proof. intros ? ? ? ? b Hb%three_cases. by destruct Hb as [->|[->|[->| ->]]]. Qed.

Lemma put4_owner : responsible ring4 (be_num (sha256 (aid n4))) n4.
Proof. split; [apply elem_of_union; left; by apply elem_of_singleton|]. apply four_check; by vm_compute. Qed.

Lemma put4_copy : responsible ring4 (be_num (sha256 (replica_key (aid n4) 1))) n1.
Proof. split; [apply elem_of_union; right; apply three_mem|]. apply four_check; by vm_compute. Qed.

Lemma four_next : rsucc ring4 n4 = n1.
Proof. by vm_compute. Qed.

Lemma four_before : rpred ring4 n4 = n3.
Proof. by vm_compute. Qed.

Lemma four_empty t s : w_nodes (w_update (rpred ring4 n4) (with_fingers t) net_four) !! rsucc ring4 n4 = Some s →
  getData (aid n4) s = None.
Proof.
  rewrite four_next, four_before, lookup_update_ne by done.
  pose proof (ring_world_lookup ({[n4]} ∪ three) initial_statics 1000 n1) as E. unfold net_four.
  rewrite E by (apply elem_of_union; right; apply three_mem). clear E.
  intros [= <-]. change (fst <$> (∅ : data_type) !! aid n4 = None). by rewrite lookup_empty.
Qed.

Lemma four_enough : (3 * S (size three) + 2 <= 14)%nat.
Proof. by rewrite three_size. Qed.

(** The third member does not repair fingers while the others do. *)
Definition healing_round : list NetEvent := round [n1; n2; n3] [n1; n2].

Lemma healing_fair k : Forall (fair_events three (three ∖ {[rpred ring4 n4]})) (replicate k healing_round).
Proof.
  apply rounds_fair; [apply three_listed|by apply subseteq_difference_l|]. rewrite four_before.
  intros a Ha. rewrite elem_of_difference, not_elem_of_singleton. rewrite !elem_of_cons, elem_of_nil in Ha.
  destruct Ha as [->|[->|[]]]; (split; [apply three_mem|discriminate]).
Qed.

Lemma four_depth : (size three + 3 <= 8)%nat.
Proof. rewrite three_size. lia. Qed.

Lemma aid_n4_owner : responsible ring3 (be_num (sha256 (aid n4))) n1.
Proof.
  apply (responsible_arc ring3 ring3_ok); [apply be_num_point, sha256_ok|apply m1|].
  right. by vm_compute.
Qed.

Lemma four_crash_depth : (size three + size ({[n4]} : gset addr) + 2 <= 8)%nat.
Proof. rewrite three_size, size_singleton. lia. Qed.

Lemma four_crash_fuel : (size three + 3 * size ({[n4]} : gset addr) + 2 <= 14)%nat.
Proof. rewrite three_size, size_singleton. lia. Qed.

(** The item is PUT and replicated, its owner crashes, the survivors' own
    operations repair the ring, and the item is found at the third member. *)
Lemma put_survives_crash_witness : ∃ w t w1 counts w2 w3 net w4 net',
  onDhtPut (H0 := world_env true LOCAL 14 8 n2) put4 w = (Ok ([], Some t), w1) ∧
  run_replication (H0 := world_env true LOCAL 14 8 n2) t w1 = (Ok counts, w2) ∧
  (fixFingers_n (world_env true LOCAL 14 8 (rpred ring4 n4)) (dead_fingers three n4) 0;;
   checkPredecessor (H0 := world_env true LOCAL 14 8 (rsucc ring4 n4))) (crash n4 w2) = (Ok tt, w3) ∧
  net_run true LOCAL 14 8 (concat (replicate 19 healing_round)) (at_rest (λ _, 0%nat) w3) = Ok net ∧
  fixFingers (H0 := world_env true LOCAL 14 8 (rpred ring4 n4)) 0 (net_world net) = (Ok 1%nat, w4) ∧
  net_run true LOCAL 14 8 three_round (mkNet w4 (net_stage net) (<[rpred ring4 n4 := 1%nat]> (net_next net))) = Ok net' ∧
  onDhtGet (H0 := world_env true LOCAL 14 8 n3) get4 (net_world net') = (Ok (found_answer (aid n4) [104; 105]), net_world net').
Proof.
  destruct four_fingers as (ft & Hw & Hs & Hf). pose proof (proj1 three_mem) as Hx1.
  assert (n2 ∈ members ring4) as Hn2 by (apply elem_of_union; right; apply three_mem).
  destruct (owner_crash_recovers true 14 three n4 n1 n2 n1 put4 _ _ (λ _, 0%nat) (replicate 19 healing_round) 6
    four_spread n4_new n1_old Hw Hn2 put4_owner put4_copy ltac:(discriminate) ltac:(by vm_compute) limit_ok Hs Hf four_near
    from_zero (healing_fair 19) (three_rounds _) four_enough four_depth)
    as (t & w1 & counts & w2 & w3 & net & w4 & Hput & Hrun & Hdrop & Hnet & Hfix & Hmore).
  destruct (Hmore three_round (proj1 (Forall_inv (three_fair 1)))) as (net' & Hnet' & _ & Hring & Hkept & Hst & Hold).
  destruct (put_survives_crash true 14 {[n4]} three n2 n4 n1 put4 _ 8 four_spread Hw Hn2 put4_owner put4_copy
    ltac:(discriminate) Hx1 ltac:(by vm_compute) limit_ok four_crash_fuel four_crash_depth)
    as (t' & w1' & counts' & w2' & Hput' & Hrun' & Hget).
  assert (w2' = w2) as ->.
  { rewrite Hput in Hput'. injection Hput' as <- <-. rewrite Hrun in Hrun'. by injection Hrun' as _ <-. }
  exists (w_update (rpred ring4 n4) (with_fingers ft) net_four), t, w1, counts, w2, w3, net, w4, net'.
  split; [exact Hput|]. split; [exact Hrun|]. split; [exact Hdrop|]. split; [exact Hnet|]. split; [exact Hfix|].
  split; [exact Hnet'|]. apply (Hget (net_world net') get4 n3 Hring (proj1 (proj2 (proj2 three_mem))) Hkept); [done| |].
  - rewrite Hst. by vm_compute.
  - intros r v Hr Hv. apply Hold in Hv as (s & Hs' & Hv); [|apply Hr]. exfalso.
    assert (r = rsucc ring4 n4) as ->.
    { rewrite four_next. apply (responsible_unique ring3 ring3_ok _ _ _ (be_num_point _ (sha256_ok _)) Hr aid_n4_owner). }
    change (getData (aid n4) s = Some v) in Hv. by rewrite (four_empty ft s Hs') in Hv.
Defined.

(** ** Data after a join *)

(** An item of the fourth node, at the first until the fourth joins. *)
Definition net4_item : World := store_at n1 (aid n4) [104; 105] 60 net4.

Lemma net4_item_ideal : ideal ring3 net4_item.
Proof. exact (ideal_store ring3 n1 _ _ _ _ net4_ideal m1). Qed.

Lemma net4_item_data : data_ok three net4_item.
Proof. apply data_ok_store; [done|done|apply net4_data]. Qed.

Lemma net4_item_new : w_nodes net4_item !! n4 = Some new_node.
Proof. unfold net4_item, store_at. rewrite lookup_update_ne by done. apply net4_new. Qed.

Lemma net4_item_stored : stored ring3 net4_item (sha256 (aid n4)) (aid n4) [104; 105].
Proof. exact (stored_store_same ring3 ring3_ok n1 _ _ _ 60 net4 net4_ideal (sha256_ok _) aid_n4_owner). Qed.

Definition four_round : list NetEvent := round [n4; n1; n2; n3] [n4; n1; n2; n3].

Lemma four_listed a : a ∈ [n4; n1; n2; n3] ↔ a ∈ ({[n4]} ∪ three : gset addr).
Proof. unfold three. rewrite !elem_of_union, !elem_of_singleton, !elem_of_cons, elem_of_nil. tauto. Qed.

Lemma four_fair k : Forall (fair_events ({[n4]} ∪ three) ({[n4]} ∪ three)) (replicate k four_round).
Proof. apply rounds_fair; [apply four_listed|done|apply four_listed]. Qed.

Lemma four_members : size ({[n4]} ∪ three : gset addr) = 4%nat.
Proof. by vm_compute. Qed.

Lemma four_bounds r : let X := ({[n4]} ∪ three : gset addr) in
  (size X * (2 * size X) < length (replicate (A := list NetEvent) 33 r))%nat ∧ (3 * size X + 2 <= 14)%nat ∧ (size X + 2 <= 6)%nat.
Proof. cbn zeta. rewrite length_replicate, four_members. lia. Qed.

Lemma items_survive_join_witness :
  (∃ w1 net net',
     join (H0 := world_env true LOCAL 14 6 n4) (kj_wait None) 1 (nd n2) net4_item = (Ok tt, w1) ∧
     net_run true LOCAL 14 6 (concat (replicate 33 four_round)) (at_rest (λ _, 0%nat) w1) = Ok net ∧
     net_run true LOCAL 14 6 four_round net = Ok net' ∧
     onDhtGet (H0 := world_env true LOCAL 14 6 n4) get4 (net_world net') = (Ok (found_answer (aid n4) [104; 105]), net_world net')) ∧
  ∃ w1 net',
    join (H0 := world_env true LOCAL 14 6 n4) (kj_wait (Some "wait")) 1 (nd n2) net4_item = (Exn "wait", w1) ∧
    net_run true LOCAL 14 6 three_round (at_rest (λ _, 0%nat) w1) = Ok net' ∧
    onDhtGet (H0 := world_env true LOCAL 14 6 n3) get4 (net_world net') = (Ok (found_answer (aid n4) [104; 105]), net_world net').
Proof.
  destruct n4_solution as [solution Hsol]. destruct (four_bounds four_round) as (Hr & Hf & Hd).
  pose proof (λ refusal, items_survive_join true LOCAL 14 three n4 n2 net4_item new_node refusal 1 solution 6 (λ _, 0%nat)
    (replicate 33 four_round) four_spread n4_new m2 net4_item_ideal net4_item_data net4_item_new new_outside Hsol
    from_zero (four_fair 33) Hr Hf Hd) as H. split.
  - destruct (H None) as (w1 & net1 & Hjoin & Hrun & Hmore).
    destruct (Hmore four_round (proj1 (Forall_inv (four_fair 1)))) as (net' & Hrun' & _ & Hget).
    exists w1, net1, net'. split; [exact Hjoin|]. split; [exact Hrun|]. split; [exact Hrun'|].
    apply (Hget get4 n4 [104; 105]); [apply elem_of_union; left; by apply elem_of_singleton|exact net4_item_stored].
  - destruct (H (Some "wait")) as (w1 & net1 & Hjoin & -> & Hmore).
    destruct (Hmore three_round (proj1 (Forall_inv (three_fair 1)))) as (net' & Hrun' & _ & Hget).
    exists w1, net'. split; [exact Hjoin|]. split; [exact Hrun'|].
    apply (Hget get4 n3 [104; 105]); [apply three_mem|exact net4_item_stored].
Defined.

(** Two nodes join the first, which has an item of the second, before any of
    them stabilises (KJ carries out their nested waits); then the maintenance threads work them into the ring. What
    the neighbours are then, who has the item, and the answer to a GET. *)
Definition net_two_item : World := store_at n1 (aid n2) [104; 105] 60 net_two.

Definition get2 : Message_KEY := mkKey (mkData [] (mkHeader 36 constants.DHT_GET)) (aid n2).

Definition neighbours (w : World) (a : addr) : option (option Node * option Node) :=
  (λ s, (getPredecessor s, getSuccessor s)) <$> w_nodes w !! a.

Definition has_item (w : World) (a : addr) : bool :=
  bool_decide (is_Some (w_nodes w !! a ≫= getData (aid n2))).

Definition join_and_get (l : list (addr * addr)) :=
  match join_all true LOCAL 14 None 5 1 l net_two_item with
  | (Ok _, w1) =>
      match net_run true LOCAL 14 5 (concat (replicate 3 three_round)) (at_rest (λ _, 0%nat) w1) with
      | Ok net' =>
          let w := net_world net' in
          Some (neighbours w <$> [n1; n2; n3], has_item w <$> [n1; n2; n3],
                (onDhtGet (H0 := world_env true LOCAL 14 5 n1) get2 w).1)
      | _ => None
      end
  | _ => None
  end.

Definition right_neighbours : list (option (option Node * option Node)) :=
  [Some (Some (nd n3), Some (nd n2)); Some (Some (nd n1), Some (nd n3)); Some (Some (nd n2), Some (nd n1))].

(** Whether an item is found after joins that overlap depends on their order. If
    the node responsible for the item joins before the one behind it, it gets the
    item; if it joins after it, the item has gone to the other node with
    everything since the old predecessor of their common successor, and stays
    there: all neighbours are right, and a DHT_GET answers DHT_FAILURE. *)
Theorem overlapping_joins_hide_item :
  join_and_get [(n2, n1); (n3, n1)]
  = Some (right_neighbours, [false; true; false], Ok (found_answer (aid n2) [104; 105])) ∧
  join_and_get [(n3, n1); (n2, n1)]
  = Some (right_neighbours, [false; false; true], Ok (header_bytes 36 constants.DHT_FAILURE ++ aid n2)).
Proof. split; vm_compute; reflexivity. Qed.

(** ** The data cleaner *)

Definition cleaned_start : Cleaner.State := Cleaner.start "127.0.0.1" 6969 0.

Lemma cleaner_reachable es : Cleaner.cleaner_ok (Cleaner.events cleaned_start es).
Proof.
  apply (Cleaner.lasts (λ _, True)); [intros; by apply Cleaner.cleaner_ok_event|by apply Forall_true|apply Cleaner.start_ok].
Qed.

(** An item that lives for five nanoseconds, ten of them later. *)
Definition with_old_item : Cleaner.State :=
  Cleaner.events cleaned_start [Cleaner.Op (setData [1] [2] 5 0); Cleaner.Elapse 10].

Definition half_a_minute : list Cleaner.Event := [Cleaner.Elapse 30000000000].

Lemma expired_item_is_removed_witness :
  m_data (Cleaner.c_node with_old_item) !! [1] = Some ([2], 5) ∧
  m_data (Cleaner.c_node (Cleaner.events with_old_item
    (replicate 3 Cleaner.Turn ++ half_a_minute ++ replicate 7 Cleaner.Turn))) !! [1] = None.
Proof.
  split; [reflexivity|].
  exact (Cleaner.expired_item_is_removed with_old_item [1] [2] 5 1 (replicate 3 Cleaner.Turn) half_a_minute (replicate 7 Cleaner.Turn)
    (cleaner_reachable _) eq_refl eq_refl ltac:(reflexivity) (le_n 1) ltac:(repeat constructor) (le_n 3) ltac:(discriminate) (le_n 7)).
Defined.

(** The destructor begins in the middle of a wait. *)
Definition in_wait : Cleaner.State :=
  Cleaner.events cleaned_start (replicate 6 Cleaner.Turn ++ [Cleaner.Delete; Cleaner.Delete]).

Lemma cleaner_stops_witness :
  let c' := Cleaner.events in_wait (replicate 3 Cleaner.Turn ++ half_a_minute ++ replicate 5 Cleaner.Turn) in
  Cleaner.c_at c' = Cleaner.Ended ∧ Cleaner.c_owner (Cleaner.event c' Cleaner.Delete) = Cleaner.Destroyed.
Proof.
  exact (Cleaner.cleaner_stops in_wait (replicate 3 Cleaner.Turn) half_a_minute (replicate 5 Cleaner.Turn)
    (cleaner_reachable _) eq_refl (le_n 3) ltac:(discriminate) (le_n 5)).
Defined.

Lemma pass_is_atomic_witness :
  let c := Cleaner.event with_old_item Cleaner.Turn in
  m_data (Cleaner.c_node c) !! [1] = Some ([2], 5) ∧
  m_data (Cleaner.c_node (Cleaner.events c [Cleaner.Turn; Cleaner.Turn; Cleaner.Turn])) !! [1] = None.
Proof.
  cbv zeta. split; [reflexivity|].
  destruct (Cleaner.pass_is_atomic (Cleaner.event with_old_item Cleaner.Turn) [Cleaner.Turn; Cleaner.Turn] eq_refl)
    as [(_ & clock & did & rest & Hat & _)|(es1 & es2 & Hes & Hat & _ & Hgone & _)]; [discriminate Hat|].
  assert (es1 = [Cleaner.Turn; Cleaner.Turn]) as ->.
  { destruct es1 as [|e1 [|e2 es1]]; [discriminate Hat|injection Hes as <- _; discriminate Hat|].
    injection Hes as <- <- Hes. by destruct es1. }
  exact (proj1 (Hgone [1] [2] 5 eq_refl) eq_refl).
Defined.
